(* ===== verification/_CoqProject ===== *)
-Q . S2P
Prelude.v
Wire.v
Errors.v
Effects.v
Department.v
HostOptions.v
Registry.v
Capacity.v
Fence.v
Heartbeat.v
Commands.v
Consumer.v
Applier.v
Disposition.v
Multiplexer.v
Drainer.v
DrainRun.v
Manager.v
Residents.v
AttachKey.v
Gates.v
Teardown.v
Latches.v
Attach.v
Dispatch.v
Warm.v
Resident.v
Outcomes.v
Lifetime.v
WorkStates.v
Ownership.v
Links.v
LinkAttach.v
CommandIndex.v
Json.v
Canonical.v
PublicBody.v
Members.v
Projection.v
LiveTail.v
LiveBodies.v
Relay.v
PublicJournal.v
RigTarget.v
HarnessSession.v
HarnessRig.v
Egress.v
Composition.v
Floats.v
Metrics.v
Constructors.v
Parsing.v
Process.v
Advertise.v
StoreAdapter.v
Transport.v
