(* ===== verification/Prelude.v ===== *)
(** * A verification development for the Looprig Department runtime host

    The program is a Host: a process that keeps agent sessions resident, applies
    the durable commands of each session in order, advertises its capacity and
    its residencies, projects what its sessions say onto public names, and gives
    every session up cleanly (warm release, drain, or the loss of its lease).
    This library translates its own core logic, package by package, and proves
    what makes each part correct.

    ** How the code is modelled

    Code that works under one mutex ([internal/registry], [service/capacity.go],
    [realtime/hostlink/bindings.go], the tables of [residency/manager.go]) is a
    function on an explicit state.  Code that calls stores, runtimes, clocks and
    channels is a program ([prog] of [Effects.v]): a tree whose nodes are the
    calls the source makes, whose branches are every answer they can give.
    [runs p t a] says [p] makes the calls of the trace [t] and returns [a]; a
    theorem over every [t] is a theorem over every behaviour of the
    collaborators, errors included, and nothing is assumed of them unless a
    hypothesis says so.  Code whose goroutines interleave is a step relation over
    the instants at which they hold a lock or communicate, or, where one
    goroutine serves a [select], a function of the case it takes, so that an
    execution is a list of cases.  A [uint64] is a [Z] with its wrap-around
    written out, a Go map a [gmap], a [time.Time] and a [time.Duration] a [Z] of
    nanoseconds, a [float64] a [spec_float], a JSON text its list of bytes, an
    error a value of [Errors.error], on which [errors.Is] and [errors.As] compute.

    ** The files

    Shared ground.
    - [Prelude.v], [Wire.v], [Errors.v], [Effects.v], [Floats.v]: notation, lemmas and
      tactics; Core's enumerations and the session key; errors; programs, their
      traces, the rely/guarantee rule [safe] and its soundness, and [interp],
      which runs a client's calls as the programs of the layer below it; doubles.

    What a Host is configured with.
    - [Department.v]: [department/definition.go], [department/department.go].
      Capabilities, registrations and the immutable agent map.
    - [HostOptions.v]: [internal/hostconfig].  The validation accepts exactly the
      documented configurations.
    - [RigTarget.v]: [department/runtime.go].  The launch target over a rig, proved
      against the interface [RigLaws]: what a rig does not answer it gave back.
    - [HarnessSession.v], [HarnessRig.v], [Egress.v]: [harnessruntime].  Commands
      applied to a bound session and what is reported of them; the adapter keeps
      the rig's promise; what a subscriber receives is a prefix of the stream.

    The commands of a session.
    - [Commands.v]: the command data and the body checks ([internal/bodyclass],
      [inputbody], [createbody], [controlbody], [gateresponse]).
    - [Consumer.v]: [internal/commands/consumer.go].  The cursor never passes an
      unsettled command; the loop works only under a held fence; a halt quiesces.
    - [Applier.v]: [internal/commands/apply.go], [recovery.go].  A command is
      driven at most once and after its prefix; settling tells the truth; the
      recovery plan stays within its evidence.
    - [Disposition.v]: [internal/commands/disposition_applier.go] and
      [disposition.go].  A command is dispatched at most once and under a durably
      recorded attempt; an applying record is never redriven; recovery is
      conservative.
    - [StoreAdapter.v]: [internal/sessionstoreadapter].  The same promises with the
      adapters underneath: an attempt is in the store before the dispatch, the
      stored cursor settles, absence is answered only on the store's own witness,
      a grant is lost once, and a stored epoch ends the fence.

    A residency.
    - [Registry.v]: [internal/registry/registry.go], each method one function.
      A specification of what each call does at each key, which the methods refine
      exactly ([step_refines]); a teardown is won once and is irrevocable, a stale generation has no effect.
    - [Fence.v], [Heartbeat.v]: [internal/residency/heartbeat.go] and [guard.go].
      Every location write is fenced and serialized; a loss is reported once; a
      release tombstones before it removes.
    - [Manager.v], [Residents.v], [AttachKey.v]: [internal/residency/manager.go].
      The attach sequence and its unwinder (a launch only under a granted lease, an
      attach that fails gives back all it took); the manager's tables; one attach
      of a session at a time, and every one served once no more calls arrive.
    - [Gates.v]: [internal/gates].  Converging projects exactly the folded gates,
      with lawful writes only, under the fence.
    - [Teardown.v]: [internal/compose/teardown.go].  A graceful release and an
      abandon never overlap, and every caller is answered.
    - [Latches.v], [Resident.v]: [internal/compose/session.go], the give-ups of
      [adapters.go] and [faults.go].  Once-guards, the two release views, give-up.
    - [Outcomes.v]: the service's answers to a warm release's outcome, a lost grant, a
      fault and a stranded attempt ([adapters.go], [faults.go]), fenced by generation.
    - [Ownership.v]: the composition's side of an attach ([adapters.go]): all or
      nothing, and what its rollback stops and forgets.
    - [Warm.v]: [internal/residency/warm.go].  What a warm release does by its
      outcome; releases begin only at the end of an undisturbed countdown.
    - [WorkStates.v]: [internal/compose/workstates.go].  What a session is doing.

    The Host as a whole.
    - [Capacity.v]: [internal/service/capacity.go].  The ledger never over-admits
      and is the exact sum of its charges; a credit is fenced by its owner.
    - [Advertise.v]: [internal/compose/advertiser.go], [compat.go].  The rows a Host
      publishes and their closing, which a drain waits for.
    - [Drainer.v], [DrainRun.v]: [internal/lifecycle/drain.go].  One drain however many
      callers; the release order of each session; under every interleaving of the
      releases a report of [drained] means that the attaches are settled and that each
      session ended, was given back or abandoned, or is reported parked; each session
      is accounted for once.
    - [Lifetime.v]: [internal/compose/compose.go].  Starting, attaching, draining,
      stopping and disposing, as steps over the service's maps.
    - [Composition.v]: [compose.go], [run.go].  The blueprint and its validation;
      [Compose] keeps the store it opened or closes it; [Run].
    - [Metrics.v]: [internal/lifecycle/metrics.go].  What a Host reports of its load
      is true of its registry, ledger and consumers; the memory budget saturates.
    - [Constructors.v]: the option checks of every component's constructor.  A service
      over checked options is built unless a drain bound exceeds the grace, and a
      session's components exactly when its key and epoch are set.
    - [Parsing.v], [Process.v]: [cmd/host].  A configuration loads exactly when the
      environment says it; a process closes the store it opened.

    Links to tenants.
    - [Links.v]: [internal/compose/links.go].  The bounded table of tenant links.
    - [Multiplexer.v], [Attach.v], [Dispatch.v]: [internal/realtime/hostlink]
      ([bindings.go], [drain.go], [attach.go]).  A bind succeeds only for the
      current grant; budgets hold; a drain is answered only for a scope attributable
      to the caller; a bad request is blamed on its sender only, and a method
      reaches only its own handler.
    - [LinkAttach.v]: an attach from the link through the service to the manager.
    - [Transport.v]: [centrifuge.go], [ephemeral_budget.go].  Transient frames are
      charged to every client they would reach or to none; the subscription table
      is exact.

    What a client may read.
    - [Json.v], [Canonical.v]: [encoding/json] as far as the code relies on it, and
      an automaton equivalent to its compaction check.
    - [PublicBody.v], [Members.v], [Projection.v]: [internal/publicbody].  The
      replacement of identities equals its reference definition, splitting and
      encoding an object is a round trip, the projection is total but for a short
      escape that runs into an identity.
    - [CommandIndex.v]: [publicbody/index.go], [journal.go].  The incremental index
      answers what its whole source says; the class [Source] is what it relies on.
    - [LiveTail.v]: [internal/compose/publicbody.go].  Retry and restart of a tail.
    - [LiveBodies.v], [Relay.v]: [internal/livetext], [livetool],
      [service/events.go].  Transient bodies; the relays and what a client is shown.
    - [PublicJournal.v]: [public_journal.go].  The durable reader and its cache;
      the live tail's mapping and the journal's give the same bytes for an event, however
      far either store has grown.

    ** How the components meet

    Where the code's do.  [Consumer] calls an applier through [CProcess];
    [StoreAdapter.over_store] and [over_disposition] put the adapters under the
    consumer and the disposition applier by [interp], their other calls passing
    through.  [Heartbeat], [Drainer] and [Warm] reach the registry and the ledger
    through calls that [Registry] and [Capacity] implement; [Resident] builds the
    release views the last two are given.  [Multiplexer] reads [Registry] entries
    ([residency_of]), [Dispatch] routes to [Multiplexer] and [Attach], [LinkAttach]
    joins [Attach] to [Manager].  [HarnessRig] is an instance of [RigLaws], the
    runtime's journal and the inbox are instances of [Source], and [PublicJournal]
    and [Relay] project with the same [Projection].

    ** Parameters

    What is not in the repository is an argument of the definitions that use it:
    Core's record validators, its codecs and channel encoding, SHA-256, the JSON
    decoders of the command bodies, the URL parser, UUID parsing.  The session store,
    harness and Centrifuge answer calls.  Where a theorem needs something of one
    (the channel encoding is injective), a named hypothesis says it and a witness
    instantiates it.

    ** Fuel

    [Consumer.Run], [Heartbeat.run], [Warm.run], [Gates.run] and [LiveTail.retrying]
    loop until they are told to stop.  Their fuel is a number of iterations, and
    their theorems hold of every fuel, so of every finite prefix of their execution:
    running out is reported as still running and never as an answer.  The other fuels
    are bounds that are reached only after the answer: [CommandIndex] reads at most
    [two64] pages, since a page moves a [uint64] cursor forward ([index_exact] proves
    that it answers); the length of the text plus one for [LiveBodies.shorten],
    [PublicBody.replace_from] and [Members.read_members], each round of which consumes
    a byte ([replaceAll_literal], [encode_objectMembers], [Project_total] are about the
    answers); the length of the text for the trimming of [Transport.v] and for the terms
    of a duration in [Parsing.v].

    ** What modelling showed

    - [Projection.short_escape_refused]: a canonical body can be refused, because only
      long escapes are guarded against a replacement.
    - [Relay.unmarked_drops]: two ways of dropping a preview leave its text
      ungapped, and a client is shown text with a piece missing.
    - [Composition.failed_start_leaks]: [Run] does not close the store of a service
      whose start failed.
    - [Composition.heartbeat_unchecked]: link options the documentation refuses are
      accepted.

    ** What is not modelled

    Accessors that only read; texts of errors and reasons; logging, on which nothing
    depends; HTTP routes and probes, the Centrifuge node with its hub and broker, and
    Prometheus, which are libraries; the evidence router for one tenant, which no composition builds;
    the signals and the exit code of [main]; the examples and the test kits
    ([examples], [internal/testkit], [internal/harnesstest], [internal/modfiles],
    [department/departmenttest]).                                                 *)
From Stdlib Require Import ZArith Ascii.
From stdpp Require Import base list strings gmap sorting.

Set Default Goal Selector "!".

(** ** Machine integers

    A Go [uint64] is a [Z] in [0, 2^64); [u64] is the wrap-around of its
    arithmetic, [i64] that of [int64]. *)

Definition two64 : Z := 18446744073709551616.
Definition two63 : Z := 9223372036854775808.
Definition MaxInt64 : Z := 9223372036854775807.

Definition u64 (z : Z) : Z := (z mod two64)%Z.
Definition i64 (z : Z) : Z := ((z + two63) mod two64 - two63)%Z.
Definition is_u64 (z : Z) : Prop := (0 ≤ z < two64)%Z.

Lemma u64_range z : is_u64 (u64 z).
Proof. unfold is_u64, u64. apply Z.mod_pos_bound. done. Qed.

Lemma u64_small z : is_u64 z → u64 z = z.
Proof. unfold is_u64, u64. apply Z.mod_small. Qed.

Lemma i64_small z : (- two63 ≤ z < two63)%Z → i64 z = z.
Proof. unfold i64, two63, two64. intros ?. rewrite Z.mod_small; lia. Qed.

(** ** UTF-8

    [utf8.ValidString] of the Go standard library, on the bytes of a string:
    the well-formed sequences of RFC 3629. *)
Definition in_range (lo hi : N) (c : ascii) : bool :=
  let n := N_of_ascii c in (lo <=? n)%N && (n <=? hi)%N.

Fixpoint utf8_valid (s : string) : bool :=
  match s with
  | EmptyString => true
  | String c1 s1 =>
      if in_range 0 0x7F c1 then utf8_valid s1
      else match s1 with
      | EmptyString => false
      | String c2 s2 =>
          if in_range 0xC2 0xDF c1 then in_range 0x80 0xBF c2 && utf8_valid s2
          else match s2 with
          | EmptyString => false
          | String c3 s3 =>
              if in_range 0xE0 0xEF c1 then
                in_range (if in_range 0xE0 0xE0 c1 then 0xA0 else 0x80)
                         (if in_range 0xED 0xED c1 then 0x9F else 0xBF) c2 &&
                in_range 0x80 0xBF c3 && utf8_valid s3
              else match s3 with
              | EmptyString => false
              | String c4 s4 =>
                  in_range 0xF0 0xF4 c1 &&
                  in_range (if in_range 0xF0 0xF0 c1 then 0x90 else 0x80)
                           (if in_range 0xF4 0xF4 c1 then 0x8F else 0xBF) c2 &&
                  in_range 0x80 0xBF c3 && in_range 0x80 0xBF c4 && utf8_valid s4
              end
          end
      end
  end.

(** ** Sorted keys of a map: [slices.Sorted(maps.Keys(m))] *)
Definition sorted_keys {A} (m : gmap string A) : list string :=
  merge_sort String.le (elements (dom m)).

Lemma sorted_keys_elem {A} (m : gmap string A) k :
  k ∈ sorted_keys m ↔ is_Some (m !! k).
Proof.
  unfold sorted_keys. rewrite merge_sort_Permutation, elem_of_elements. apply elem_of_dom.
Qed.

Lemma sorted_keys_NoDup {A} (m : gmap string A) : NoDup (sorted_keys m).
Proof. unfold sorted_keys. rewrite merge_sort_Permutation. apply NoDup_elements. Qed.

Lemma sorted_keys_sorted {A} (m : gmap string A) : StronglySorted String.le (sorted_keys m).
Proof. apply (StronglySorted_merge_sort _). Qed.

(** ** Automation

    [branch] splits the early returns of a handler into its branches. *)
Ltac branch := repeat (case_match; simplify_eq/=); try done.

(** ** Early returns

    A validation is a list of checks in order; the first problem is returned. *)
Fixpoint first_problem {E} (cs : list (option E)) : option E :=
  match cs with
  | [] => None
  | Some e :: _ => Some e
  | None :: cs => first_problem cs
  end.

Definition refuse_if {E} (b : bool) (e : E) : option E := if b then Some e else None.

Lemma first_problem_None {E} (cs : list (option E)) :
  first_problem cs = None ↔ Forall (fun c => c = None) cs.
Proof.
  induction cs as [|[e|] cs IH]; simpl; rewrite ?Forall_nil, ?Forall_cons; naive_solver.
Qed.

Lemma refuse_if_None {E} b (e : E) : refuse_if b e = None ↔ b = false.
Proof. destruct b; naive_solver. Qed.

(** [autorewrite with checks] reads a validation that found no problem as the
    conjunction of what it checked. *)
#[export] Hint Rewrite @first_problem_None @Forall_cons @Forall_nil @refuse_if_None
  negb_false_iff negb_true_iff bool_decide_eq_true bool_decide_eq_false
  Z.eqb_neq Z.eqb_eq Z.leb_gt Z.ltb_ge : checks.

(** The first problem of a concatenation. *)
Lemma first_problem_app {E} (cs ds : list (option E)) :
  first_problem (cs ++ ds) =
  match first_problem cs with Some e => Some e | None => first_problem ds end.
Proof. induction cs as [|[e|] cs IH]; simpl; done. Qed.

(** ** Decimal numbers: [strconv.ParseUint(s, 10, 16)] *)
Definition digit_value (c : ascii) : option Z :=
  let n := Z.of_N (N_of_ascii c) in
  if ((48 <=? n) && (n <=? 57))%Z then Some (n - 48)%Z else None.

Fixpoint parse_digits (acc : Z) (s : string) : option Z :=
  match s with
  | EmptyString => Some acc
  | String c s => match digit_value c with
                  | Some d => parse_digits (acc * 10 + d) s
                  | None => None
                  end
  end.

Definition ParseUint16 (s : string) : option Z :=
  match s with
  | EmptyString => None
  | _ => match parse_digits 0 s with
         | Some n => if (n <=? 65535)%Z then Some n else None
         | None => None
         end
  end.

(** ** Filters that keep all or nothing *)
Lemma list_filter_all {A} (Q : A → Prop) `{∀ x, Decision (Q x)} (l : list A) : Forall Q l → filter Q l = l.
Proof. induction 1; [done|]. rewrite filter_cons_True by done. congruence. Qed.

Lemma list_filter_none {A} (Q : A → Prop) `{∀ x, Decision (Q x)} (l : list A) :
  Forall (fun x => ¬ Q x) l → filter Q l = [].
Proof. induction 1; [done|]. by rewrite filter_cons_False by done. Qed.

(** ** A measure summed over a list *)
Definition sum_of {A} (f : A → nat) (l : list A) : nat := sum_list_with f l.

Lemma sum_of_insert {A} (f : A → nat) (l : list A) i p q : l !! i = Some q → sum_of f (<[i := p]> l) + f q = sum_of f l + f p.
Proof.
  unfold sum_of. revert i. induction l as [|x l IH]; intros [|i] Hi; simplify_eq/=; [lia|].
  specialize (IH i Hi). lia.
Qed.

Lemma sum_of_alter {A} (f : A → nat) g (l : list A) i x :
  l !! i = Some x → sum_of f (alter g i l) + f x = sum_of f l + f (g x).
Proof.
  unfold sum_of. revert i. induction l as [|y l IH]; intros [|i] Hi; simplify_eq/=; [lia|].
  specialize (IH i Hi). fold (alter g i l). lia.
Qed.

Lemma sum_of_app {A} (f : A → nat) (l k : list A) : sum_of f (l ++ k) = sum_of f l + sum_of f k.
Proof. apply sum_list_with_app. Qed.

Lemma sum_of_le {A} (f g : A → nat) (l : list A) : (∀ x, g x ≤ f x) → sum_of g l ≤ sum_of f l.
Proof. intros Hle. unfold sum_of. induction l as [|x l IH]; simpl; [done|]. specialize (Hle x). lia. Qed.

Lemma sum_of_le_at {A} (f g : A → nat) (l : list A) i x :
  (∀ x, g x ≤ f x) → l !! i = Some x → sum_of g l + f x ≤ sum_of f l + g x.
Proof.
  intros Hle. unfold sum_of. revert i. induction l as [|y l IH]; intros [|i] Hi; simplify_eq/=.
  - pose proof (sum_of_le f g l Hle) as H. unfold sum_of in H. lia.
  - specialize (IH i Hi). specialize (Hle y). lia.
Qed.

Lemma omap_cons_app {A B} (f : A → option B) x (l : list A) : omap f (x :: l) = option_list (f x) ++ omap f l.
Proof. simpl. by destruct (f x). Qed.

(** [simpl] unfolds [omap]. *)
Ltac fold_omap := repeat match goal with H : context [list_omap ?A ?B ?f ?l] |- _ => change (list_omap A B f l) with (omap f l) in H | |- context [list_omap ?A ?B ?f ?l] => change (list_omap A B f l) with (omap f l) end.
