(* ===== verification/Wire.v ===== *)
(** * Wire.v: identities and enumerations shared by every component

    The identities of [sessionwire] (tenant, session, agent, command, gate, host
    identifiers) are opaque Go strings.  Their [Validate] methods live in the
    [core] module, outside this repository, so each component that calls one
    takes the validity predicate as an argument.  The enumerations below list
    the [sessionwire] constants the host compares against, with one extra
    constructor for any other string of the type.                            *)
From Stdlib Require Import ZArith.
From stdpp Require Import base list strings gmap.
From S2P Require Import Prelude.

(** ** The key of a residency: [registry.Key] *)

Record Key := mkKey { TenantID : string; SessionID : string }.

#[export] Instance Key_eq_dec : EqDecision Key.
Proof. solve_decision. Defined.

#[export] Instance Key_countable : Countable Key.
Proof.
  refine (inj_countable' (fun k => (TenantID k, SessionID k))
            (fun p => mkKey p.1 p.2) _).
  by intros [].
Defined.

(** The zero value [registry.Key{}]. *)
Definition key_zero : Key := mkKey "" "".

(** ** [sessionwire] enumerations *)

Inductive HostPlacement :=
| HostPlacementPooled
| HostPlacementDedicated
| HostPlacementOther (s : string).

Inductive HostIsolationClass :=
| HostIsolationClassCrossTenantIsolated
| HostIsolationClassTenantExclusive
| HostIsolationClassOther (s : string).

(** [sessionwire.HostLinkErrorCode]; [HostLinkErrorNone] is the empty string. *)
Inductive HostLinkErrorCode :=
| HostLinkErrorNone
| HostLinkErrorNotAdmitting
| HostLinkErrorRuntimeUnavailable
| HostLinkErrorRuntimeMismatch
| HostLinkErrorNoCapacity
| HostLinkErrorEpochMismatch
| HostLinkErrorReleasing
| HostLinkErrorOther (s : string).

Inductive SessionResidency :=
| SessionResidencyAttaching
| SessionResidencyResident
| SessionResidencyReleasing.

Inductive HostLinkDrainState :=
| HostLinkDrainStateDraining
| HostLinkDrainStateDrained.

#[export] Instance HostPlacement_eq_dec : EqDecision HostPlacement.
Proof. solve_decision. Defined.
#[export] Instance HostIsolationClass_eq_dec : EqDecision HostIsolationClass.
Proof. solve_decision. Defined.
#[export] Instance HostLinkErrorCode_eq_dec : EqDecision HostLinkErrorCode.
Proof. solve_decision. Defined.
#[export] Instance SessionResidency_eq_dec : EqDecision SessionResidency.
Proof. solve_decision. Defined.
#[export] Instance HostLinkDrainState_eq_dec : EqDecision HostLinkDrainState.
Proof. solve_decision. Defined.

(** ** Order of identifiers

    Go compares strings by bytes; [String.ltb a b] is [a < b]. *)

(** [registry.lessKey]: by tenant, then by session. *)
Definition lessKey (a b : Key) : bool :=
  if bool_decide (TenantID a ≠ TenantID b)
  then String.ltb (TenantID a) (TenantID b)
  else String.ltb (SessionID a) (SessionID b).

Definition key_le (a b : Key) : Prop := lessKey b a = false.

#[export] Instance key_le_dec : RelDecision key_le.
Proof. intros a b. unfold key_le. apply _. Defined.

Lemma string_ltb_le a b : String.ltb b a = false ↔ String.le a b.
Proof.
  unfold String.ltb, String.le, String.leb. rewrite (String.compare_antisym a b).
  destruct (b ?= a)%string; simpl; naive_solver.
Qed.

Lemma key_le_spec a b :
  key_le a b ↔
  (TenantID a ≠ TenantID b ∧ String.le (TenantID a) (TenantID b)) ∨
  (TenantID a = TenantID b ∧ String.le (SessionID a) (SessionID b)).
Proof.
  unfold key_le, lessKey. case_bool_decide; rewrite string_ltb_le; naive_solver.
Qed.

#[export] Instance key_le_total : Total key_le.
Proof.
  intros a b. rewrite !key_le_spec.
  destruct (decide (TenantID a = TenantID b)).
  - destruct (total String.le (SessionID a) (SessionID b)); naive_solver.
  - destruct (total String.le (TenantID a) (TenantID b)); naive_solver.
Qed.

#[export] Instance key_le_trans : Transitive key_le.
Proof.
  intros a b c. rewrite !key_le_spec.
  intros [[Hab1 Hab]|[Hab1 Hab]] [[Hbc1 Hbc]|[Hbc1 Hbc]].
  - left. split; [|by etrans].
    intros Hac. rewrite Hac in *. by apply Hab1, (anti_symm String.le).
  - left. rewrite <-Hbc1. done.
  - left. rewrite Hab1. done.
  - right. split; [congruence|]. by etrans.
Qed.

#[export] Instance key_le_antisym : AntiSymm (=) key_le.
Proof.
  intros a b. rewrite !key_le_spec.
  intros [[Hne ?]|[Ht ?]] [[? ?]|[? ?]]; try congruence.
  - exfalso. by apply Hne, (anti_symm String.le).
  - destruct a, b; simpl in *; subst. f_equal. by apply (anti_symm String.le).
Qed.

(** ** [sessionwire.HostLinkRegistryObservation] *)
Record RegistryObservation := mkObservation {
  o_TenantID : string;
  o_SessionID : string;
  o_HostID : string;
  o_HostGeneration : Z;
  o_AgentID : string;
  o_RuntimeCompatibilityID : string;
  o_Placement : HostPlacement;
  o_InternalEndpoint : string;
  o_Residency : SessionResidency;
  o_Accepting : bool;
  o_LeaseEpoch : Z;
  o_ObservedAt : Z;
  o_ExpiresAt : Z
}.
