(* ===== verification/Errors.v ===== *)
(** * Errors.v: Go error values

    A Go [error] is a value with an [Unwrap] chain.  [ESentinel] is a
    package-level [errors.New] value, identified by its qualified name;
    [ETyped] is a struct error with its fields and the error it unwraps to;
    [EJoin] is [errors.Join].  [errors_is] and [errors_as] are the standard
    library's depth-first searches.  Human-readable reason texts are not
    modelled: no caller inspects them.                                        *)
From Stdlib Require Import ZArith.
From stdpp Require Import base list strings gmap.
From S2P Require Import Prelude Wire.

Set Warnings "-register-all".

(** ** [commands.ApplyRefusal] *)
Inductive ApplyRefusal :=
| RefusalStaleEpoch | RefusalClaimHeld | RefusalDeadlinePassed
| RefusalUnsupportedKind | RefusalUnknownState | RefusalUnrevisionedRecord
| RefusalForeignRecord | RefusalCorrelation | RefusalUnresolvedApplication
| RefusalUnfencedApplier | RefusalMissingPayload | RefusalUnreadableCreate
| RefusalUnreadableCommand | RefusalUnreadableGateResponse
| RefusalReferencedGateResponse | RefusalGateNotOwned | RefusalNoGateReader
| RefusalInvalidEffect | RefusalNoCommittedEffect | RefusalStore | RefusalRuntime
| RefusalInvalidAttempt | RefusalNoJournalGrant | RefusalDispositionUnsupported
| RefusalEvidenceUnavailable | RefusalEvidenceUnroutable | RefusalEnduringEffect
| RefusalNoAttemptCloser.

#[export] Instance ApplyRefusal_eq_dec : EqDecision ApplyRefusal.
Proof. solve_decision. Defined.

(** The body packages whose decode errors the disposition applier tells apart. *)
Inductive BodyPackage := PkgCreateBody | PkgInputBody | PkgControlBody | PkgGateResponse.

#[export] Instance BodyPackage_eq_dec : EqDecision BodyPackage.
Proof. solve_decision. Defined.

(** [sessionwire.RequestValidationCode], as far as [bodyclass.Permanent] reads it. *)
Inductive RequestValidationCode :=
| RequestValidationCodeInvalidJSON | RequestValidationCodeDuplicateField
| RequestValidationCodeMissingField | RequestValidationCodeInvalidField
| RequestValidationCodeOther.

(** [sessionstore]'s error codes, as far as [permanentObjectFailure] reads them. *)
Inductive KeyspaceErrorCode :=
| KeyspaceBindingNotFound | KeyspaceScopeInvalid | KeyspaceHashCollision
| KeyspaceLegacyTenant | KeyspaceLegacySession | KeyspaceOther.

Inductive ObjectErrorCode :=
| ObjectErrorInvalid | ObjectErrorSize | ObjectErrorDigest | ObjectErrorIntegrity
| ObjectErrorMetadataUnavailable | ObjectErrorOther.

(** The codes the adapters of the session store read; the last of each is any other. *)
Inductive RegistryErrorCode := RegistryErrorEpoch | RegistryErrorOther.
Inductive JournalErrorCode := JournalErrorLeaseHeld | JournalErrorFenced | JournalErrorLeaseLost | JournalErrorOther.
Inductive InboxErrorCode := InboxErrorEpoch | InboxErrorOther.
Inductive CatalogErrorCode :=
| CatalogErrorNotFound | CatalogErrorDeleted | CatalogErrorInvalid | CatalogErrorEpoch | CatalogErrorTooLarge | CatalogErrorOther.
Inductive HostTargetErrorCode := HostTargetErrorGeneration | HostTargetErrorOther.

(** ** Struct errors *)
Inductive etype :=
| TApplyError (refusal : ApplyRefusal) (command : string)
| TAdmissionRefusedError (code : HostLinkErrorCode) (agent : string)
| TAdmissionConflictError (key : Key) (admitted requested : string)
| TUnknownAgentError (agent : string)
| TReleaseError (key : Key)
| TMalformedError (pkg : BodyPackage)
| TUnsupportedError (pkg : BodyPackage)
| TRequestValidationError (code : RequestValidationCode)
| TKeyspaceError (code : KeyspaceErrorCode)
| TInvalidIdentityError
| TObjectError (code : ObjectErrorCode)
| TBlobNotFoundError
| TJSONSyntaxError
| TJSONUnmarshalTypeError
| TCompatibilityMismatchError
| TMappingError
| TLeaseCleanupError (cleanup : bool)
| TAttachError (code : HostLinkErrorCode) (build : string)
| TLeaseHeldError (holder : Z)
| TWrapError (* fmt.Errorf with %w *)
| TIncapableError (pkg : string) (missing : list string)
| TUnsupportedCommandError (command : string)
| TMissingCommittedFieldError (event : string) (seq : Z)
| TInvalidCompositionError (field : string)
| TRegistryError (code : RegistryErrorCode)
| TJournalError (code : JournalErrorCode)
| TInboxError (code : InboxErrorCode)
| TCatalogError (code : CatalogErrorCode) (field : string)
| THostTargetError (code : HostTargetErrorCode)
| TResidencyAcquireCleanupError
| TUnroutableBindingError (tenant binding : string)
| TDispositionBindingError
| TConfigError (variable : string)
| TOtherError (name : string).

Inductive error :=
| ESentinel (name : string)
| EForeign (tag : string)
| ETyped (t : etype) (cause : option error)
| EJoin (errs : list error).

(** The two sentinels of Go's [context] package. *)
Definition context_Canceled : error := ESentinel "context.Canceled".
Definition context_DeadlineExceeded : error := ESentinel "context.DeadlineExceeded".

Definition is_sentinel (name : string) (e : error) : bool :=
  match e with ESentinel n => bool_decide (n = name) | _ => false end.

(** [errors.Is(e, target)] for a sentinel target. *)
Fixpoint errors_is_name (name : string) (e : error) : bool :=
  match e with
  | ESentinel n => bool_decide (n = name)
  | EForeign _ => false
  | ETyped _ (Some c) => errors_is_name name c
  | ETyped _ None => false
  | EJoin es => existsb (errors_is_name name) es
  end.

Definition errors_is (e target : error) : bool :=
  match target with ESentinel n => errors_is_name n e | _ => false end.

#[global] Arguments errors_is : simpl never.

(** [errors.As]: the first struct error, in pre-order, that [f] accepts. *)
Fixpoint errors_as {A} (f : etype → option A) (e : error) : option A :=
  match e with
  | ESentinel _ | EForeign _ => None
  | ETyped t c =>
      match f t with
      | Some a => Some a
      | None => match c with Some c => errors_as f c | None => None end
      end
  | EJoin es =>
      (fix first (es : list error) : option A :=
         match es with
         | [] => None
         | e :: es => match errors_as f e with Some a => Some a | None => first es end
         end) es
  end.

(** [errors.Join]: nil errors are dropped and a join of nothing is nil. *)
Definition errors_join (es : list (option error)) : option error :=
  match omap id es with [] => None | l => Some (EJoin l) end.

(** A Go [(T, error)] whose value is read only when the error is nil. *)
Inductive res (A : Type) := Ok (a : A) | Err (e : error).
Arguments Ok {A} a.
Arguments Err {A} e.

Definition is_ok {A} (r : res A) : bool := match r with Ok _ => true | Err _ => false end.
Definition err_of {A} (r : res A) : option error :=
  match r with Ok _ => None | Err e => Some e end.

(** The refusal a [*commands.ApplyError] carries, found with [errors.As]. *)
Definition as_apply_error (e : error) : option ApplyRefusal :=
  errors_as (fun t => match t with TApplyError r _ => Some r | _ => None end) e.

Definition ApplyError (r : ApplyRefusal) (command : string) (cause : option error) : error :=
  ETyped (TApplyError r command) cause.

(** ** Facts about the searches *)

Lemma errors_join_None es : errors_join es = None ↔ Forall (fun e => e = None) es.
Proof.
  unfold errors_join. induction es as [|[e|] es IH]; simpl.
  - split; [constructor|done].
  - split; [done|]. intros H; inversion H; subst. done.
  - rewrite IH. split; [by constructor|]. by inversion 1.
Qed.

Lemma errors_is_join_iff n es :
  errors_is_name n (EJoin es) = true ↔ Exists (fun e => errors_is_name n e = true) es.
Proof. simpl. rewrite existsb_exists, Exists_exists. setoid_rewrite list_elem_of_In. done. Qed.

Lemma errors_is_wrap n t e :
  errors_is_name n (ETyped t (Some e)) = errors_is_name n e.
Proof. done. Qed.

(** A join with a sentinel answers for the sentinel too, and changes nothing else. *)
Lemma errors_is_mark n m e :
  errors_is_name n (EJoin [ESentinel m; e]) = bool_decide (m = n) || errors_is_name n e.
Proof. simpl. by rewrite orb_false_r. Qed.

Lemma errors_as_mark {A} (f : etype → option A) m e : errors_as f (EJoin [ESentinel m; e]) = errors_as f e.
Proof. simpl. by destruct (errors_as f e). Qed.

Lemma as_apply_error_ApplyError r c cause : as_apply_error (ApplyError r c cause) = Some r.
Proof. done. Qed.

(** Induction on an error value, through the errors a join holds. *)
Lemma error_parts_ind (Q : error → Prop) :
  (∀ n, Q (ESentinel n)) → (∀ t, Q (EForeign t)) → (∀ t c, Q (ETyped t c)) →
  (∀ es, Forall Q es → Q (EJoin es)) → ∀ e, Q e.
Proof.
  intros H1 H2 H3 H4. fix IH 1. intros [n|t|t c|es]; [apply H1|apply H2|apply H3|].
  apply H4. induction es as [|e es IHes]; constructor; [apply IH|done].
Qed.

Lemma errors_join_singleton e : errors_join [e] = None ↔ e = None.
Proof. destruct e; done. Qed.
