(* ===== verification/Effects.v ===== *)
(** * Effects.v: programs that call collaborators

    Most of the host is sequential code calling interfaces whose
    implementations are elsewhere (a store, a runtime, a clock).  [prog E A]
    is such code: a tree of calls [Vis e k], where [e : E X] names the
    collaborator's method with its arguments and [k] continues with the answer
    of type [X].  Nothing constrains the answers, so a statement about [runs]
    holds against every behaviour of every collaborator.

    - [runs p t a]: [p] may perform the calls of the trace [t], receiving the
      answers recorded in it, and return [a];
    - [safe R G Q h p]: after history [h], as long as the answers satisfy the
      rely [R], every call of [p] satisfies the guarantee [G] and a result
      satisfies [Q].  [safe_runs] turns it into a statement about [runs];
    - [exec h p s]: the executable interpretation by a handler [h] over a state.  *)
From Stdlib Require Import ZArith.
From stdpp Require Import base list strings gmap.
From S2P Require Import Prelude.

Declare Scope prog_scope.
Delimit Scope prog_scope with prog.

Inductive prog (E : Type → Type) (A : Type) : Type :=
| Ret (a : A)
| Vis {X : Type} (e : E X) (k : X → prog E A).
Arguments Ret {E A} a.
Arguments Vis {E A X} e k.
Bind Scope prog_scope with prog.

Definition call {E : Type → Type} {X} (e : E X) : prog E X := Vis e Ret.

Fixpoint bind {E A B} (p : prog E A) (f : A → prog E B) : prog E B :=
  match p with
  | Ret a => f a
  | Vis e k => Vis e (fun x => bind (k x) f)
  end.

Arguments bind {E A B} & p f.

Notation "'let!' x := p 'in' q" := (bind p (fun x => q))
  (at level 10, x name, p at level 100, q at level 200) : prog_scope.
Notation "'do!' p 'in' q" := (bind p (fun _ => q))
  (at level 10, p at level 100, q at level 200) : prog_scope.

(** ** Observations and traces *)

Inductive obs (E : Type → Type) : Type :=
| Obs {X : Type} (e : E X) (x : X).
Arguments Obs {E X} e x.

Section runs.
Context {E : Type → Type}.

Fixpoint runs {A} (p : prog E A) (t : list (obs E)) (a : A) : Prop :=
  match p with
  | Ret b => t = [] ∧ a = b
  | Vis e k => ∃ x t', t = Obs e x :: t' ∧ runs (k x) t' a
  end.

Lemma runs_bind {A B} (p : prog E A) (f : A → prog E B) t b :
  runs (bind p f) t b ↔
  ∃ t1 t2 a, t = t1 ++ t2 ∧ runs p t1 a ∧ runs (f a) t2 b.
Proof.
  revert t. induction p as [a|X e k IH]; intros t; simpl.
  - split.
    + intros H. exists [], t, a. done.
    + intros (t1 & t2 & a' & -> & [-> ->] & H). done.
  - split.
    + intros (x & t' & -> & H). apply IH in H as (t1 & t2 & a & -> & H1 & H2).
      exists (Obs e x :: t1), t2, a. split; [done|]. split; [|done]. eauto.
    + intros (t1 & t2 & a & -> & (x & t' & -> & H1) & H2).
      exists x, (t' ++ t2). split; [done|]. apply IH. eauto 6.
Qed.

(** The first call of a sequence. *)
Lemma runs_call {X B} (e : E X) (f : X → prog E B) t b :
  runs (bind (call e) f) t b → ∃ x t', t = Obs e x :: t' ∧ runs (f x) t' b.
Proof. done. Qed.

(** ** Rely/guarantee specifications *)

Section safe.
Context (R G : list (obs E) → obs E → Prop).

Fixpoint safe {A} (Q : list (obs E) → A → Prop) (h : list (obs E)) (p : prog E A) : Prop :=
  match p with
  | Ret a => Q h a
  | Vis e k => ∀ x, R h (Obs e x) →
    G h (Obs e x) ∧ safe Q (h ++ [Obs e x]) (k x)
  end.

Lemma safe_mono {A} (Q Q' : list (obs E) → A → Prop) h p :
  (∀ h a, Q h a → Q' h a) → safe Q h p → safe Q' h p.
Proof.
  intros HQ. revert h. induction p as [a|X e k IH]; intros h; simpl; [apply HQ|].
  intros H x Hx. destruct (H x Hx) as [HG Hs]. eauto.
Qed.

Lemma safe_bind {A B} (Q : list (obs E) → B → Prop) h (p : prog E A) (f : A → prog E B) :
  safe (fun h a => safe Q h (f a)) h p → safe Q h (bind p f).
Proof.
  revert h. induction p as [a|X e k IH]; intros h; simpl; [done|].
  intros H x Hx. destruct (H x Hx). split; [done|]. by apply IH.
Qed.

(** The sequencing rule used with an operation's specification. *)
Lemma safe_bind_spec {A B} (Q1 : list (obs E) → A → Prop) (Q : list (obs E) → B → Prop)
  h (p : prog E A) (f : A → prog E B) :
  safe Q1 h p → (∀ h' a, Q1 h' a → safe Q h' (f a)) → safe Q h (bind p f).
Proof. intros H1 H2. apply safe_bind. eapply safe_mono; eauto. Qed.

Lemma safe_call {X} (Q : list (obs E) → X → Prop) h (e : E X) :
  (∀ x, R h (Obs e x) → G h (Obs e x) ∧ Q (h ++ [Obs e x]) x) → safe Q h (call e).
Proof. done. Qed.

(** Soundness: a trace whose answers satisfy the rely satisfies the
  guarantee at every call, and the postcondition at its end. *)
Definition relied (h t : list (obs E)) : Prop :=
  ∀ t1 o t2, t = t1 ++ o :: t2 → R (h ++ t1) o.

Lemma relied_cons h o t : relied h (o :: t) → R h o ∧ relied (h ++ [o]) t.
Proof.
  intros H. split.
  - specialize (H [] o t eq_refl). by rewrite app_nil_r in H.
  - intros t1 o' t2 ->. specialize (H (o :: t1) o' t2 eq_refl).
  by rewrite <-app_assoc.
Qed.

Lemma relied_nil h : relied h [].
Proof. intros [|] ? ?; discriminate. Qed.

Lemma relied_cons_2 h o t : R h o → relied (h ++ [o]) t → relied h (o :: t).
Proof.
  intros Ho Ht [|o1 t1] o' t2 [= <- Heq]; simplify_eq/=; [by rewrite app_nil_r|].
  specialize (Ht t1 o' t2 eq_refl). by rewrite <-app_assoc in Ht.
Qed.

Lemma safe_runs {A} (Q : list (obs E) → A → Prop) h p t a :
  safe Q h p → runs p t a → relied h t →
  Q (h ++ t) a ∧ (∀ t1 o t2, t = t1 ++ o :: t2 → G (h ++ t1) o).
Proof.
  revert h t. induction p as [b|X e k IH]; intros h t; simpl.
  - intros HQ [-> ->] _. rewrite app_nil_r. split; [done|].
  intros [|] ? ?; discriminate.
  - intros Hs (x & t' & -> & Hr) Hrel. apply relied_cons in Hrel as [HR Hrel].
  destruct (Hs x HR) as [HG Hk].
  destruct (IH x _ _ Hk Hr Hrel) as [HQ Hrest].
  rewrite <-app_assoc in HQ. split; [done|].
  intros [|o1 t1] o t2 [= ? ?]; simplify_eq/=.
  + by rewrite app_nil_r.
  + specialize (Hrest _ _ _ eq_refl). by rewrite <-app_assoc in Hrest.
Qed.
End safe.
End runs.

(** Two specifications of one program are one. *)
Lemma safe_and {E : Type → Type} {A} (R G1 G2 : list (obs E) → obs E → Prop) (Q1 Q2 : list (obs E) → A → Prop) h (p : prog E A) :
  safe R G1 Q1 h p → safe R G2 Q2 h p → safe R (fun h o => G1 h o ∧ G2 h o) (fun h a => Q1 h a ∧ Q2 h a) h p.
Proof.
  revert h. induction p as [b|X e k IH]; intros h; simpl; [done|].
  intros H1 H2 x Hx. destruct (H1 x Hx), (H2 x Hx). split; [done|]. by apply IH.
Qed.

(** A weaker guarantee. *)
Lemma safe_weaken {E : Type → Type} {A} (R G G' : list (obs E) → obs E → Prop) (Q : list (obs E) → A → Prop) h (p : prog E A) :
  (∀ h o, G h o → G' h o) → safe R G Q h p → safe R G' Q h p.
Proof.
  intros HG. revert h. induction p as [b|X e k IH]; intros h; simpl; [done|].
  intros H x Hx. destruct (H x Hx). split; [by apply HG|by apply IH].
Qed.

(** A specification by traces, used inside a symbolic execution. *)
Lemma safe_of_runs {E : Type → Type} {A} (R : list (obs E) → obs E → Prop) (Q : list (obs E) → A → Prop) h (p : prog E A) :
  (∀ t a, runs p t a → Q (h ++ t) a) → safe R (fun _ _ => True) Q h p.
Proof.
  revert h. induction p as [b|X e k IH]; intros h Hp; simpl.
  - rewrite <-(app_nil_r h). by apply Hp.
  - intros x _. split; [done|]. apply IH. intros t a Hr. rewrite <-app_assoc. apply Hp. simpl. eauto.
Qed.

(** With no assumption on the environment. *)
Definition any_env {E : Type → Type} (_ : list (obs E)) (_ : obs E) : Prop := True.

Lemma safe_runs_any {E : Type → Type} {A} (G : list (obs E) → obs E → Prop)
    (Q : list (obs E) → A → Prop) (p : prog E A) t a :
  safe any_env G Q [] p → runs p t a →
  Q t a ∧ (∀ t1 o t2, t = t1 ++ o :: t2 → G t1 o).
Proof. intros Hs Hr. apply (safe_runs _ _ _ _ _ _ _ Hs Hr). done. Qed.

(** ** Trace predicates *)

(** [o] is in the trace and satisfies [f]. *)
Definition seen {E : Type → Type} (f : obs E → bool) (t : list (obs E)) : bool := existsb f t.

Definition count {E : Type → Type} (f : obs E → bool) (t : list (obs E)) : nat :=
  length (filter (fun o => f o = true) t).

Definition precedes {E : Type → Type} (f g : obs E → bool) (t : list (obs E)) : Prop :=
  ∀ t1 o t2, t = t1 ++ o :: t2 → g o = true → seen f t1 = true.

Lemma seen_app {E : Type → Type} (f : obs E → bool) t1 t2 :
  seen f (t1 ++ t2) = seen f t1 || seen f t2.
Proof. apply existsb_app. Qed.

Lemma count_app {E : Type → Type} (f : obs E → bool) t1 t2 :
  count f (t1 ++ t2) = count f t1 + count f t2.
Proof. unfold count. by rewrite filter_app, length_app. Qed.

Lemma count_one {E : Type → Type} (f : obs E → bool) o :
  count f [o] = if f o then 1 else 0.
Proof. unfold count. rewrite filter_cons. case_decide as H; destruct (f o) eqn:?; simpl; congruence. Qed.

Lemma seen_one {E : Type → Type} (f : obs E → bool) o : seen f [o] = f o.
Proof. simpl. by rewrite orb_false_r. Qed.

(** [symbolic] executes a program under [safe]: it introduces every answer and
    splits the guarantee from the continuation, then the branches. *)
Ltac symbolic_step :=
  match goal with
  | |- safe _ _ _ _ (bind _ _) => progress simpl
  | |- safe _ _ _ _ (call _) => progress simpl
  | |- safe _ _ _ _ (Ret _) => progress simpl
  | |- safe _ _ _ _ (Vis _ _) => progress simpl
  | |- safe _ _ _ _ (match ?x with _ => _ end) => destruct x eqn:?; simpl
  | |- safe _ _ _ _ (bind (match ?x with _ => _ end) _) => destruct x eqn:?; simpl
  end.

(** ** Executable interpretation *)

Definition handler (E : Type → Type) (S : Type) : Type := ∀ X, E X → S → X * S.

Fixpoint exec {E : Type → Type} {S A} (h : handler E S) (p : prog E A) (s : S) : A * S * list (obs E) :=
  match p with
  | Ret a => (a, s, [])
  | Vis e k =>
      let '(x, s1) := h _ e s in
      let '(a, s2, t) := exec h (k x) s1 in
      (a, s2, Obs e x :: t)
  end.

(** An execution is one of the runs. *)
Lemma exec_runs {E : Type → Type} {S A} (h : handler E S) (p : prog E A) s a s' t :
  exec h p s = (a, s', t) → runs p t a.
Proof.
  revert s t. induction p as [b|X e k IH]; intros s t; simpl.
  - intros [= -> -> ->]. done.
  - destruct (h X e s) as [x s1]. destruct (exec h (k x) s1) as [[a2 s2] t2] eqn:He.
    intros [= -> -> <-]. eauto.
Qed.

(** ** Layers

    [interp h p] runs [p] over another layer: each of its calls is the program [h] makes
    of it.  A run of it is a run of [p] whose calls are each cut out of the trace.   *)
Fixpoint interp {E F : Type → Type} {A} (h : ∀ X, E X → prog F X) (p : prog E A) : prog F A :=
  match p with
  | Ret a => Ret a
  | Vis e k => bind (h _ e) (fun x => interp h (k x))
  end.

(** A call of the upper layer with the calls of the lower layer it made. *)
Definition made {E F : Type → Type} (h : ∀ X, E X → prog F X) (c : obs E * list (obs F)) : Prop :=
  match c.1 with Obs e x => runs (h _ e) c.2 x end.

Lemma runs_interp {E F : Type → Type} {A} (h : ∀ X, E X → prog F X) (p : prog E A) t a :
  runs (interp h p) t a ↔ ∃ cs, t = mjoin cs.*2 ∧ runs p cs.*1 a ∧ Forall (made h) cs.
Proof.
  revert t. induction p as [b|X e k IH]; intros t; simpl.
  - split; [intros [-> ->]; by exists []|]. intros ([|c cs] & -> & [H ->] & _); [done|discriminate].
  - rewrite runs_bind. split.
    + intros (t1 & t2 & x & -> & H1 & (cs & -> & H2 & H3)%IH). exists ((Obs e x, t1) :: cs). split; [done|]. split; [by exists x, cs.*1|by constructor].
    + intros ([|[o t1] cs] & -> & (x & t' & Ho & H2) & H3); [discriminate|]. injection Ho as -> <-. apply Forall_cons in H3 as [H1 H3].
      exists t1, (mjoin cs.*2), x. split; [done|]. split; [exact H1|]. apply IH. eauto.
Qed.

Lemma mjoin_cons {A} (l : list A) ls : mjoin (l :: ls) = l ++ mjoin ls.
Proof. done. Qed.

(** A call of the lower layer lies in exactly one call of the upper layer's run. *)
Lemma made_split {E F : Type → Type} (h : ∀ X, E X → prog F X) cs t1 (o : obs F) t2 :
  Forall (made h) cs → mjoin cs.*2 = t1 ++ o :: t2 →
  ∃ cs1 c cs2 s1 s2, cs = cs1 ++ c :: cs2 ∧ c.2 = s1 ++ o :: s2 ∧ t1 = mjoin cs1.*2 ++ s1 ∧ t2 = s2 ++ mjoin cs2.*2 ∧ made h c.
Proof.
  intros Hcs. revert t1. induction Hcs as [|c cs Hc _ IH]; intros t1; [by destruct t1|]. intros Heq. rewrite fmap_cons, mjoin_cons in Heq.
  destruct (decide (length t1 < length c.2)) as [Hlt|Hge].
  - exists [], c, cs, t1, (drop (S (length t1)) c.2). assert (c.2 = t1 ++ o :: drop (S (length t1)) c.2) as Hc2.
    { rewrite <-(take_drop_middle c.2 (length t1) o) at 1.
      - f_equal. apply (f_equal (take (length t1))) in Heq. rewrite take_app_le, take_app_length in Heq by lia. done.
      - apply (f_equal (.!! length t1)) in Heq. rewrite lookup_app_l, list_lookup_middle in Heq by lia. done. }
    split_and!; [done|done|done| |done]. apply (f_equal (drop (S (length t1)))) in Heq. rewrite drop_app_le in Heq by lia.
    etrans; [|symmetry; exact Heq]. change (o :: t2) with ([o] ++ t2). rewrite app_assoc, drop_app_length' by (rewrite length_app; simpl; lia). done.
  - destruct (IH (drop (length c.2) t1)) as (cs1 & c' & cs2 & s1 & s2 & -> & H2 & H3 & H4 & H5).
    { apply (f_equal (drop (length c.2))) in Heq. rewrite drop_app_length in Heq. rewrite drop_app_le in Heq by lia. done. }
    exists (c :: cs1), c', cs2, s1, s2. split_and!; [done|done| |done|done]. rewrite fmap_cons, mjoin_cons, <-app_assoc, <-H3.
    apply (f_equal (take (length c.2))) in Heq. rewrite take_app_length, take_app_le in Heq by lia. rewrite Heq at 1. by rewrite take_drop.
Qed.

(** ** Program equivalence

    [prog_eq] identifies trees whose continuations agree on every answer; the
    monad laws hold up to it and [bind] respects it. *)

Create HintDb trace.
#[export] Hint Rewrite @seen_app @count_app @seen_one @count_one : trace.

Definition prog_eq {E : Type → Type} {A} (p q : prog E A) : Prop :=
  ∀ t a, runs p t a ↔ runs q t a.

#[export] Instance prog_eq_equivalence {E : Type → Type} {A} : Equivalence (@prog_eq E A).
Proof.
  split.
  - intros p t a. done.
  - intros p q H t a. symmetry. apply H.
  - intros p q r H1 H2 t a. transitivity (runs q t a); [apply H1|apply H2].
Qed.

#[export] Instance bind_proper {E : Type → Type} {A B} :
  Proper (prog_eq ==> pointwise_relation A prog_eq ==> prog_eq) (@bind E A B).
Proof.
  intros p q Hpq f g Hfg t b. rewrite !runs_bind.
  split; intros (t1 & t2 & a & -> & H1 & H2); exists t1, t2, a;
    (split; [done|]; split; [by apply Hpq|by apply Hfg]).
Qed.

#[export] Instance runs_proper {E : Type → Type} {A} :
  Proper (prog_eq ==> eq ==> eq ==> iff) (@runs E A).
Proof. intros p q H t ? <- a ? <-. apply H. Qed.

Lemma bind_ret_l {E : Type → Type} {A B} (a : A) (f : A → prog E B) : bind (Ret a) f = f a.
Proof. done. Qed.

Lemma bind_ret_r {E : Type → Type} {A} (p : prog E A) : prog_eq (bind p Ret) p.
Proof.
  intros t a. rewrite runs_bind. split.
  - intros (t1 & t2 & b & -> & H & -> & ->). by rewrite app_nil_r.
  - intros H. exists t, [], a. by rewrite app_nil_r.
Qed.

Lemma bind_assoc {E : Type → Type} {A B C} (p : prog E A) (f : A → prog E B) (g : B → prog E C) :
  prog_eq (bind (bind p f) g) (bind p (fun a => bind (f a) g)).
Proof.
  intros t c. rewrite !runs_bind. setoid_rewrite runs_bind. split.
  - intros (t12 & t3 & b & -> & (t1 & t2 & a & -> & H1 & H2) & H3).
    exists t1, (t2 ++ t3), a. rewrite <-app_assoc. split_and!; try done. eauto 7.
  - intros (t1 & t23 & a & -> & H1 & (t2 & t3 & b & -> & H2 & H3)).
    exists (t1 ++ t2), t3, b. rewrite <-app_assoc. split_and!; try done. eauto 7.
Qed.
