(* ===== verification/Department.v ===== *)
(** * Department.v: launch targets and their capabilities

    [department/definition.go] and [department/department.go]: the capability
    record, its validation, and the immutable table of launch targets.  A
    [LaunchTarget] is modelled by the two values its accessors answer at
    registration; launching is an effect of [Manager.v].  [Validate] of a
    [sessionwire.AgentID] and the bound [sessionwire.MaxIDBytes] are outside the
    repository and are section variables.                                    *)
From Stdlib Require Import ZArith.
From stdpp Require Import base list strings gmap sorting.
From S2P Require Import Prelude Wire.

Module Department.

(** ** Capabilities *)

Inductive CaptureSafety :=
| CaptureSafetyUnknown
| CaptureSafetyStreaming
| CaptureSafetyBoundedMaterialized
| CaptureSafetyUnboundedMaterialized
| CaptureSafetyOther (s : string).

Record Recovery := mkRecovery { AttemptCloser : bool; PersistenceFaults : bool }.

Definition Complete (r : Recovery) : bool := AttemptCloser r && PersistenceFaults r.

Record Capabilities := mkCapabilities {
  SupportsPooled : bool;
  SupportsDedicated : bool;
  RequiresWorkspace : bool;
  RequiresCheckpoint : bool;
  AdmissionWeight : Z;
  Capture : CaptureSafety;
  Recov : Recovery
}.

(** [Capabilities.PoolingPermitted]. *)
Definition PoolingPermitted (c : Capabilities) : bool :=
  if negb (SupportsPooled c) then false
  else match Capture c with
       | CaptureSafetyStreaming | CaptureSafetyBoundedMaterialized => true
       | _ => false
       end.

Inductive DefinitionErrorCode :=
| DefinitionErrorCodeNoRegistrations
| DefinitionErrorCodeDuplicateAgent
| DefinitionErrorCodeInvalidAgentID
| DefinitionErrorCodeNoTarget
| DefinitionErrorCodeInvalidCompatibilityID
| DefinitionErrorCodeZeroAdmissionWeight
| DefinitionErrorCodeNoPlacement
| DefinitionErrorCodePooledUnsafeCapture.

(** [Capabilities.Validate]: the code of its [*InvalidCapabilitiesError]. *)
Definition Capabilities_Validate (c : Capabilities) : option DefinitionErrorCode :=
  if (AdmissionWeight c =? 0)%Z then Some DefinitionErrorCodeZeroAdmissionWeight
  else if negb (SupportsPooled c) && negb (SupportsDedicated c)
  then Some DefinitionErrorCodeNoPlacement
  else if SupportsPooled c && negb (PoolingPermitted c)
  then Some DefinitionErrorCodePooledUnsafeCapture
  else None.

(** [Capabilities.PermittedPlacements]; [slices.Sort] orders the wire strings
    "dedicated" and "pooled", which is the order they are appended in. *)
Definition PermittedPlacements (c : Capabilities) : list HostPlacement :=
  (if SupportsDedicated c then [HostPlacementDedicated] else []) ++
  (if PoolingPermitted c then [HostPlacementPooled] else []).

(** ** Registrations *)

Section department.
Context (MaxIDBytes : nat) (agent_id_valid : string → bool).

Inductive CompatibilityIDProblem := CompatEmpty | CompatTooLong | CompatNotUTF8.

(** [CompatibilityID.Validate]. *)
Definition CompatibilityID_Validate (id : string) : option CompatibilityIDProblem :=
  if (String.length id =? 0)%nat then Some CompatEmpty
  else if (MaxIDBytes <? String.length id)%nat then Some CompatTooLong
  else if negb (utf8_valid id) then Some CompatNotUTF8
  else None.

(** The answers of a [LaunchTarget]'s two accessors, and its identity. *)
Record LaunchTarget := mkTarget {
  target_name : string;
  target_compatibility : string;
  target_capabilities : Capabilities
}.

(** [Registration]; a nil [Target] is [None]. *)
Record Registration := mkRegistration {
  AgentID : string;
  Target_ : option LaunchTarget
}.

(** [InvalidDepartmentError]: its code and agent. *)
Record InvalidDepartmentError := mkInvalid {
  inv_code : DefinitionErrorCode;
  inv_agent : string
}.

Record Department := mkDepartment {
  targets : gmap string LaunchTarget;
  agents : list string
}.

(** [validateRegistration]. *)
Definition validateRegistration (r : Registration) : option InvalidDepartmentError :=
  if negb (agent_id_valid (AgentID r))
  then Some (mkInvalid DefinitionErrorCodeInvalidAgentID (AgentID r))
  else match Target_ r with
  | None => Some (mkInvalid DefinitionErrorCodeNoTarget (AgentID r))
  | Some t =>
      match CompatibilityID_Validate (target_compatibility t) with
      | Some _ => Some (mkInvalid DefinitionErrorCodeInvalidCompatibilityID (AgentID r))
      | None =>
          match Capabilities_Validate (target_capabilities t) with
          | Some code => Some (mkInvalid code (AgentID r))
          | None => None
          end
      end
  end.

(** The loop of [New] over the registrations. *)
Fixpoint register_all (rs : list Registration) (ts : gmap string LaunchTarget) :
    InvalidDepartmentError + gmap string LaunchTarget :=
  match rs with
  | [] => inr ts
  | r :: rs =>
      match validateRegistration r with
      | Some e => inl e
      | None =>
          match ts !! AgentID r with
          | Some _ => inl (mkInvalid DefinitionErrorCodeDuplicateAgent (AgentID r))
          | None =>
              match Target_ r with
              | Some t => register_all rs (<[AgentID r := t]> ts)
              | None => inl (mkInvalid DefinitionErrorCodeNoTarget (AgentID r))
              end
          end
      end
  end.

(** [New]. *)
Definition New (rs : list Registration) : InvalidDepartmentError + Department :=
  if (length rs =? 0)%nat
  then inl (mkInvalid DefinitionErrorCodeNoRegistrations "")
  else match register_all rs ∅ with
       | inl e => inl e
       | inr ts => inr (mkDepartment ts (sorted_keys ts))
       end.

(** [Department.Target]; [None] is the [*UnknownAgentError]. *)
Definition Target (d : Department) (agent : string) : option LaunchTarget := targets d !! agent.
Definition AgentIDs (d : Department) : list string := agents d.
Definition Len (d : Department) : nat := size (targets d).

(** ** Properties *)

Definition registration_ok (r : Registration) : Prop :=
  agent_id_valid (AgentID r) = true ∧
  ∃ t, Target_ r = Some t ∧ CompatibilityID_Validate (target_compatibility t) = None ∧
       Capabilities_Validate (target_capabilities t) = None.

Lemma validateRegistration_ok r : validateRegistration r = None ↔ registration_ok r.
Proof.
  unfold validateRegistration, registration_ok.
  destruct (agent_id_valid (AgentID r)); simpl; [|naive_solver].
  destruct (Target_ r) as [t|]; [|naive_solver].
  destruct (CompatibilityID_Validate _) eqn:?; [naive_solver|].
  destruct (Capabilities_Validate _) eqn:?; naive_solver.
Qed.

Lemma register_all_inr rs ts0 ts :
  register_all rs ts0 = inr ts →
  (∀ a t, ts !! a = Some t ↔
    ts0 !! a = Some t ∨ mkRegistration a (Some t) ∈ rs) ∧
  Forall registration_ok rs ∧ NoDup (AgentID <$> rs) ∧
  (∀ r, r ∈ rs → ts0 !! AgentID r = None).
Proof.
  revert ts0. induction rs as [|r rs IH]; intros ts0; simpl.
  - intros [= ->]. split_and!; [set_solver|constructor|constructor|set_solver].
  - destruct (validateRegistration r) eqn:Hv; [done|].
    destruct (ts0 !! AgentID r) eqn:Hl; [done|].
    destruct (Target_ r) as [t0|] eqn:Ht; [|done].
    intros (Hts & Hok & Hnd & Hnone)%IH. clear IH.
    assert (AgentID r ∉ AgentID <$> rs) as Hfresh.
    { intros (r' & Heq & Hr')%list_elem_of_fmap. specialize (Hnone r' Hr').
      rewrite <-Heq, lookup_insert_eq in Hnone. done. }
    destruct r as [ag ot]; simpl in *; subst ot. split_and!.
    + intros a t. rewrite Hts, lookup_insert. case_decide; set_solver.
    + constructor; [by apply validateRegistration_ok|done].
    + by constructor.
    + intros r' [->|Hr']%elem_of_cons; [done|].
      specialize (Hnone r' Hr'). apply lookup_insert_None in Hnone. tauto.
Qed.

Lemma register_all_total rs ts0 :
  Forall registration_ok rs → NoDup (AgentID <$> rs) →
  (∀ r, r ∈ rs → ts0 !! AgentID r = None) →
  ∃ ts, register_all rs ts0 = inr ts.
Proof.
  revert ts0. induction rs as [|r rs IH]; intros ts0 Hok Hnd Hfresh; simpl; [eauto|].
  apply Forall_cons in Hok as [Hr Hok]. apply NoDup_cons in Hnd as [Hnin Hnd].
  rewrite (proj2 (validateRegistration_ok r) Hr), (Hfresh r) by set_solver.
  destruct Hr as (_ & t & -> & _ & _). apply IH; [done..|].
  intros r' Hr'. apply lookup_insert_None. split; [set_solver|].
  intros Heq. apply Hnin. rewrite Heq. by apply list_elem_of_fmap_2.
Qed.

(** [New] accepts exactly the non-empty lists of individually valid
    registrations with distinct agents, and then [Target] resolves each
    registered agent to its own target and nothing else, while [AgentIDs]
    lists exactly the registered agents, sorted and without repetition. *)
Theorem New_spec rs :
  (∃ d, New rs = inr d) ↔
  rs ≠ [] ∧ Forall registration_ok rs ∧ NoDup (AgentID <$> rs).
Proof.
  unfold New. destruct rs as [|r rs]; [naive_solver|].
  cbn [length Nat.eqb]. split.
  - intros [d H]. destruct (register_all (r :: rs) ∅) eqn:E; [done|].
    apply register_all_inr in E. naive_solver.
  - intros (_ & Hok & Hnd).
    destruct (register_all_total (r :: rs) ∅) as [ts Hts]; [done..|set_solver|].
    rewrite Hts. eauto.
Qed.

(** A [Department] built by [New] resolves an agent to a target exactly
    when a registration paired the two, and its [AgentIDs] are exactly the
    registered agents, sorted and without repetition; an unregistered agent
    resolves to nothing. *)
Theorem New_resolves rs d (H : New rs = inr d) :
  (∀ a t, Target d a = Some t ↔ mkRegistration a (Some t) ∈ rs) ∧
  (∀ a, a ∈ AgentIDs d ↔ is_Some (Target d a)) ∧
  NoDup (AgentIDs d) ∧ StronglySorted String.le (AgentIDs d).
Proof.
  unfold New in H. destruct (length rs =? 0)%nat; [done|].
  destruct (register_all rs ∅) as [|ts] eqn:E; simplify_eq/=.
  apply register_all_inr in E as (Hts & _).
  unfold Target, AgentIDs; simpl. split_and!.
  - intros a t. rewrite Hts, lookup_empty. naive_solver.
  - apply sorted_keys_elem.
  - apply sorted_keys_NoDup.
  - apply sorted_keys_sorted.
Qed.
End department.

(** A capability record that validates can be launched somewhere: its
    permitted placements are never empty, list each declared placement, and
    list [pooled] only with streaming or bounded capture. *)
Theorem validated_placements c (H : Capabilities_Validate c = None) :
  PermittedPlacements c ≠ [] ∧
  (HostPlacementPooled ∈ PermittedPlacements c ↔ SupportsPooled c = true) ∧
  (HostPlacementDedicated ∈ PermittedPlacements c ↔ SupportsDedicated c = true) ∧
  (SupportsPooled c = true →
     Capture c = CaptureSafetyStreaming ∨ Capture c = CaptureSafetyBoundedMaterialized).
Proof.
  unfold Capabilities_Validate in H. unfold PermittedPlacements.
  destruct c as [p d w k wt cap r]; unfold PoolingPermitted in *; simpl in *.
  destruct (wt =? 0)%Z, p, d, cap; simpl in *; try done; split_and!; set_solver.
Qed.

(** ** Witnesses *)

Definition sample_capabilities : Capabilities :=
  mkCapabilities true true false false 2 CaptureSafetyStreaming (mkRecovery true true).

Definition sample_target : LaunchTarget := mkTarget "coder" "v1" sample_capabilities.

Definition sample_registrations : list Registration :=
  [mkRegistration "b" (Some sample_target); mkRegistration "a" (Some sample_target)].

Definition sample_department : Department :=
  mkDepartment (<["a" := sample_target]> (<["b" := sample_target]> ∅)) ["a"; "b"].

Lemma New_resolves_witness :
  New 128 (fun _ => true) sample_registrations = inr sample_department ∧
  (∀ a, a ∈ ["a"; "b"] ↔ is_Some (Target sample_department a)).
Proof.
  split; [vm_compute; reflexivity|].
  exact (proj1 (proj2 (New_resolves 128 (fun _ => true) sample_registrations sample_department
                         ltac:(vm_compute; reflexivity)))).
Defined.

Lemma validated_placements_witness :
  Capabilities_Validate sample_capabilities = None ∧ PermittedPlacements sample_capabilities ≠ [].
Proof. split; [reflexivity|]. exact (proj1 (validated_placements sample_capabilities eq_refl)). Defined.
End Department.
