(* ===== verification/HostOptions.v ===== *)
(** * HostOptions.v: the configuration of a Host

    [internal/hostconfig/options.go] and [host.go].  Durations are [int64]
    nanoseconds.  An interface-valued option is modelled by whether it is set.
    Outside the repository, hence section variables: [sessionwire]'s identity
    validation and [HostLinkEndpoint], and the standard library's URL parser
    ([url.Parse], which answers the authority and the port) and
    [net.SplitHostPort].                                                      *)
From Stdlib Require Import ZArith Ascii.
From stdpp Require Import base list strings gmap.
From S2P Require Import Prelude Wire.

Module HostOptions.

Definition MinHeartbeatsBeforeExpiry : Z := 3.
Definition MinClaimAttemptsBeforeDeadline : Z := 2.
Definition MaxCommandQueueSize : Z := 65536.
Definition MaxReconcileBatch : Z := 4096.

Record Options := mkOptions {
  HostID : string;
  InternalEndpoint : string;
  IsolationClass : HostIsolationClass;
  has_Department : bool;
  has_SessionStore : bool;
  has_Workspaces : bool;
  has_Clock : bool;
  has_Auth : bool;
  Placement : HostPlacement;
  Capacity : Z;
  FixedSessionID : string;
  WarmTTL : Z;
  RegistryHeartbeat : Z;
  RegistryExpiry : Z;
  ClaimTTL : Z;
  ApplyDeadline : Z;
  CommandQueueSize : Z;
  ReconcileInterval : Z;
  ReconcileBatch : Z
}.

Inductive OptionErrorCode :=
| OptionErrorCodeMissing
| OptionErrorCodeInvalid
| OptionErrorCodeUnknownEnum
| OptionErrorCodeNotPositive
| OptionErrorCodeAboveBound
| OptionErrorCodeHeartbeatMargin
| OptionErrorCodeClaimMargin
| OptionErrorCodeDedicatedFixed
| OptionErrorCodeDedicatedCap
| OptionErrorCodePooledFixed.

(** [InvalidOptionsError]: its code and field. *)
Record InvalidOptionsError := mkInvalid { code : OptionErrorCode; field : string }.

Definition missing (f : string) : InvalidOptionsError := mkInvalid OptionErrorCodeMissing f.

Section options.
Context (host_id_valid session_id_valid : string → bool).
Context (HostLinkEndpoint_ok : string → bool).
Context (url_Parse : string → option (string * string)).
Context (SplitHostPort_ok : string → bool).

Definition validatePresence (o : Options) : option InvalidOptionsError :=
  first_problem
    [refuse_if (bool_decide (HostID o = "")) (missing "HostID");
     refuse_if (bool_decide (InternalEndpoint o = "")) (missing "InternalEndpoint");
     refuse_if (negb (has_Department o)) (missing "Department");
     refuse_if (negb (has_SessionStore o)) (missing "SessionStore");
     refuse_if (negb (has_Workspaces o)) (missing "Workspaces");
     refuse_if (negb (has_Clock o)) (missing "Clock");
     refuse_if (negb (has_Auth o)) (missing "Auth")].

(** Whether a string ends in a colon: [strings.HasSuffix(authority, ":")]. *)
Fixpoint ends_in_colon (s : string) : bool :=
  match s with
  | EmptyString => false
  | String c EmptyString => bool_decide (c = ":"%char)
  | String _ s => ends_in_colon s
  end.

(** [dialableAuthority]: whether it answers nil. *)
Definition dialableAuthority (endpoint : string) : bool :=
  match url_Parse endpoint with
  | None => false
  | Some (authority, port) =>
      if ends_in_colon authority then false
      else if bool_decide (port = "") then true
      else if negb (SplitHostPort_ok authority) then false
      else match ParseUint16 port with
           | None => false
           | Some p => negb (p =? 0)%Z
           end
  end.

Definition validateEndpointBase (endpoint : string) : option InvalidOptionsError :=
  first_problem
    [refuse_if (negb (HostLinkEndpoint_ok endpoint))
       (mkInvalid OptionErrorCodeInvalid "InternalEndpoint");
     refuse_if (negb (dialableAuthority endpoint))
       (mkInvalid OptionErrorCodeInvalid "InternalEndpoint")].

Definition known_isolation (c : HostIsolationClass) : bool :=
  match c with
  | HostIsolationClassCrossTenantIsolated | HostIsolationClassTenantExclusive => true
  | _ => false
  end.

Definition known_placement (p : HostPlacement) : bool :=
  match p with HostPlacementPooled | HostPlacementDedicated => true | _ => false end.

(** The two loops of [validateShape]. *)
Definition duration_check (f : string) (v : Z) : option InvalidOptionsError :=
  refuse_if (v <=? 0)%Z (mkInvalid OptionErrorCodeNotPositive f).

Definition size_check (f : string) (v bound : Z) : option InvalidOptionsError :=
  first_problem
    [refuse_if (v <=? 0)%Z (mkInvalid OptionErrorCodeNotPositive f);
     refuse_if (bound <? v)%Z (mkInvalid OptionErrorCodeAboveBound f)].

Definition validateShape (o : Options) : option InvalidOptionsError :=
  first_problem
    [validateEndpointBase (InternalEndpoint o);
     refuse_if (negb (host_id_valid (HostID o))) (mkInvalid OptionErrorCodeInvalid "HostID");
     refuse_if (negb (known_isolation (IsolationClass o)))
       (mkInvalid OptionErrorCodeUnknownEnum "IsolationClass");
     refuse_if (negb (known_placement (Placement o)))
       (mkInvalid OptionErrorCodeUnknownEnum "Placement");
     refuse_if (Capacity o =? 0)%Z (mkInvalid OptionErrorCodeNotPositive "Capacity");
     duration_check "WarmTTL" (WarmTTL o);
     duration_check "RegistryHeartbeat" (RegistryHeartbeat o);
     duration_check "RegistryExpiry" (RegistryExpiry o);
     duration_check "ClaimTTL" (ClaimTTL o);
     duration_check "ApplyDeadline" (ApplyDeadline o);
     duration_check "ReconcileInterval" (ReconcileInterval o);
     size_check "CommandQueueSize" (CommandQueueSize o) MaxCommandQueueSize;
     size_check "ReconcileBatch" (ReconcileBatch o) MaxReconcileBatch].

(** Go's [/] on [int64] truncates. *)
Definition validateTiming (o : Options) : option InvalidOptionsError :=
  first_problem
    [refuse_if (Z.quot (RegistryExpiry o) MinHeartbeatsBeforeExpiry <? RegistryHeartbeat o)%Z
       (mkInvalid OptionErrorCodeHeartbeatMargin "RegistryExpiry");
     refuse_if (Z.quot (ApplyDeadline o) MinClaimAttemptsBeforeDeadline <? ClaimTTL o)%Z
       (mkInvalid OptionErrorCodeClaimMargin "ApplyDeadline")].

Definition validatePlacement (o : Options) : option InvalidOptionsError :=
  if bool_decide (Placement o = HostPlacementDedicated) then
    first_problem
      [refuse_if (bool_decide (FixedSessionID o = ""))
         (mkInvalid OptionErrorCodeDedicatedFixed "FixedSessionID");
       refuse_if (negb (session_id_valid (FixedSessionID o)))
         (mkInvalid OptionErrorCodeInvalid "FixedSessionID");
       refuse_if (negb (Capacity o =? 1)%Z)
         (mkInvalid OptionErrorCodeDedicatedCap "Capacity")]
  else refuse_if (negb (bool_decide (FixedSessionID o = "")))
         (mkInvalid OptionErrorCodePooledFixed "FixedSessionID").

Definition validate (o : Options) : option InvalidOptionsError :=
  first_problem [validatePresence o; validateShape o; validateTiming o; validatePlacement o].

(** [hostconfig.New]: the Host's accessors answer the options. *)
Definition New (o : Options) : InvalidOptionsError + Options :=
  match validate o with Some e => inl e | None => inr o end.

(** ** What an accepted configuration guarantees *)

Record accepted (o : Options) : Prop := {
  acc_endpoint : InternalEndpoint o ≠ "" ∧ HostLinkEndpoint_ok (InternalEndpoint o) = true ∧
                 dialableAuthority (InternalEndpoint o) = true;
  acc_id : HostID o ≠ "" ∧ host_id_valid (HostID o) = true;
  acc_set : has_Department o = true ∧ has_SessionStore o = true ∧
            has_Workspaces o = true ∧ has_Clock o = true ∧ has_Auth o = true;
  acc_enums : known_isolation (IsolationClass o) = true ∧ known_placement (Placement o) = true;
  acc_durations : (0 < WarmTTL o ∧ 0 < RegistryHeartbeat o ∧ 0 < ClaimTTL o ∧
                   0 < ReconcileInterval o)%Z;
  acc_sizes : (0 < CommandQueueSize o ≤ MaxCommandQueueSize)%Z ∧
              (0 < ReconcileBatch o ≤ MaxReconcileBatch)%Z;
(** Three heartbeats fit before the row expires, two claims before the deadline. *)
  acc_heartbeat : (3 * RegistryHeartbeat o ≤ RegistryExpiry o)%Z;
  acc_claim : (2 * ClaimTTL o ≤ ApplyDeadline o)%Z;
  acc_placement :
    (Placement o = HostPlacementDedicated ∧ FixedSessionID o ≠ "" ∧
     session_id_valid (FixedSessionID o) = true ∧ Capacity o = 1%Z) ∨
    (Placement o = HostPlacementPooled ∧ FixedSessionID o = "" ∧ Capacity o ≠ 0%Z)
  }.

Lemma quot_margin a b n : (0 < n → 0 < b → (Z.quot a n <? b) = false ↔ n * b ≤ a)%Z.
Proof.
  intros Hn Hb. rewrite Z.ltb_ge. split; intros H.
  - destruct (decide (0 <= a)%Z) as [Ha|Ha].
    + rewrite Z.quot_div_nonneg in H by lia.
      pose proof (Z.mul_div_le a n Hn). nia.
    + pose proof (Z.quot_opp_l a n). rewrite Z.quot_div_nonneg in H0 by lia.
      pose proof (Z.div_pos (-a) n). lia.
  - rewrite Z.quot_div_nonneg by nia. apply Z.div_le_lower_bound; lia.
Qed.

Lemma validatePresence_None o :
  validatePresence o = None ↔
  HostID o ≠ "" ∧ InternalEndpoint o ≠ "" ∧ has_Department o = true ∧
  has_SessionStore o = true ∧ has_Workspaces o = true ∧ has_Clock o = true ∧ has_Auth o = true.
Proof. unfold validatePresence. autorewrite with checks. tauto. Qed.

Lemma size_check_None f v bound : size_check f v bound = None ↔ (0 < v ≤ bound)%Z.
Proof. unfold size_check. autorewrite with checks. tauto. Qed.

Lemma validateShape_None o :
  validateShape o = None ↔
  (HostLinkEndpoint_ok (InternalEndpoint o) = true ∧
   dialableAuthority (InternalEndpoint o) = true) ∧
  host_id_valid (HostID o) = true ∧ known_isolation (IsolationClass o) = true ∧
  known_placement (Placement o) = true ∧ Capacity o ≠ 0%Z ∧
  (0 < WarmTTL o)%Z ∧ (0 < RegistryHeartbeat o)%Z ∧ (0 < RegistryExpiry o)%Z ∧
  (0 < ClaimTTL o)%Z ∧ (0 < ApplyDeadline o)%Z ∧ (0 < ReconcileInterval o)%Z ∧
  (0 < CommandQueueSize o ≤ MaxCommandQueueSize)%Z ∧
  (0 < ReconcileBatch o ≤ MaxReconcileBatch)%Z.
Proof.
  unfold validateShape, validateEndpointBase, duration_check.
  autorewrite with checks. rewrite !size_check_None. tauto.
Qed.

Lemma validateTiming_None o :
  (0 < RegistryHeartbeat o)%Z → (0 < ClaimTTL o)%Z →
  validateTiming o = None ↔
  (3 * RegistryHeartbeat o ≤ RegistryExpiry o)%Z ∧ (2 * ClaimTTL o ≤ ApplyDeadline o)%Z.
Proof.
  intros Hh Hc. unfold validateTiming, MinHeartbeatsBeforeExpiry, MinClaimAttemptsBeforeDeadline.
  rewrite first_problem_None, !Forall_cons, Forall_nil, !refuse_if_None, !quot_margin by lia.
  tauto.
Qed.

Lemma validatePlacement_None o :
  validatePlacement o = None ↔
  (Placement o = HostPlacementDedicated ∧ FixedSessionID o ≠ "" ∧
   session_id_valid (FixedSessionID o) = true ∧ Capacity o = 1%Z) ∨
  (Placement o ≠ HostPlacementDedicated ∧ FixedSessionID o = "").
Proof.
  unfold validatePlacement. case_bool_decide; autorewrite with checks; tauto.
Qed.

(** [validate] accepts a configuration exactly when it is complete, its
    endpoint is diallable, its durations and sizes are in range, three
    heartbeats fit before registry expiry and two claims before the apply
    deadline, and dedicated placement is bound to one valid session with
    capacity one while pooled placement is bound to none. *)
Theorem validate_spec o : validate o = None ↔ accepted o.
Proof.
  unfold validate.
  rewrite first_problem_None, !Forall_cons, Forall_nil, validatePresence_None,
    validateShape_None, validatePlacement_None.
  split.
  - intros (? & ? & Ht & Hp & _). destruct_and!.
    apply validateTiming_None in Ht as [? ?]; [|done..]. split; try done.
    destruct Hp as [?|[? ?]]; [by left|right].
    unfold known_placement in *. by destruct (Placement o).
  - intros []. destruct_and!.
    assert (Capacity o ≠ 0)%Z by (destruct acc_placement0; destruct_and!; lia).
    split_and!; try done; try lia.
    + apply validateTiming_None; auto.
    + destruct acc_placement0 as [?|(Hp & ? & ?)]; [by left|right]. by rewrite Hp.
Qed.
End options.

(** A pooled Host of capacity three, used by the witnesses of its clients. *)
Definition sample_options : Options :=
  mkOptions "host-1" "http://host-1:8080" HostIsolationClassTenantExclusive
    true true true true true HostPlacementPooled 3 "" 60 1 3 10 30 16 5 8.
End HostOptions.
