(* ===== verification/Registry.v ===== *)
(** * Registry.v: the index of resident sessions

    [internal/registry/registry.go].  Every method runs under one mutex, so each
    is one atomic function on the state; an interleaving of callers is a list of
    [op]s.  The clock's answer is an argument.  The runtime handle and launch
    target are opaque ([Rt], [Tgt]).                                          *)
From Stdlib Require Import ZArith.
From stdpp Require Import base list strings gmap sorting.
From S2P Require Import Prelude Wire.

Module Registry.

Inductive ResidencyState := StateResident | StateReleasing | StateDraining.

#[export] Instance ResidencyState_eq_dec : EqDecision ResidencyState.
Proof. solve_decision. Defined.

Record Entry {Rt Tgt : Type} := mkEntry {
  eKey : Key;
  AgentID : string;
  Target : Tgt;
  CompatibilityID : string;
  Runtime : Rt;
  LeaseEpoch : Z;
  Generation : Z;
  State : ResidencyState;
  Accepting : bool;
  LastActivity : Z;
  TeardownOwned : bool
}.
Arguments Entry : clear implicits.
Arguments mkEntry {Rt Tgt}.

Record Admission {Rt Tgt : Type} := mkAdmission {
  aAgentID : string;
  aTarget : Tgt;
  aCompatibilityID : string;
  aRuntime : Rt;
  aLeaseEpoch : Z
}.
Arguments Admission : clear implicits.
Arguments mkAdmission {Rt Tgt}.

Record Registry {Rt Tgt : Type} := mkRegistry {
  entries : gmap Key (Entry Rt Tgt);
  nextGeneration : Z
}.
Arguments Registry : clear implicits.
Arguments mkRegistry {Rt Tgt}.

Section registry.
Context {Rt Tgt : Type}.
Implicit Types (r : Registry Rt Tgt) (e : Entry Rt Tgt) (k : Key) (g now : Z).

(** [New]. *)
Definition New : Registry Rt Tgt := mkRegistry ∅ 0.

(** The assignments to [State], [Accepting], [TeardownOwned] and
    [LastActivity] every mutating method makes through the entry pointer. *)
Definition set_status e (st : ResidencyState) (acc owned : bool) now : Entry Rt Tgt :=
  mkEntry (eKey e) (AgentID e) (Target e) (CompatibilityID e) (Runtime e)
    (LeaseEpoch e) (Generation e) st acc now owned.

Definition store r k e : Registry Rt Tgt :=
  mkRegistry (<[k := e]> (entries r)) (nextGeneration r).

(** [Insert]: the entry now held, and whether this call established it. *)
Definition Insert r now k (a : Admission Rt Tgt) : Entry Rt Tgt * bool * Registry Rt Tgt :=
  match entries r !! k with
  | Some existing => (existing, false, r)
  | None =>
      let next := u64 (nextGeneration r + 1) in
      let entry := mkEntry k (aAgentID a) (aTarget a) (aCompatibilityID a) (aRuntime a)
                     (aLeaseEpoch a) next StateResident true now false in
      (entry, true, mkRegistry (<[k := entry]> (entries r)) next)
  end.

Definition Get r k : option (Entry Rt Tgt) := entries r !! k.

(** [current]: the one place staleness is decided. *)
Definition current r k g : option (Entry Rt Tgt) :=
  match entries r !! k with
  | Some e => if bool_decide (Generation e ≠ g) then None else Some e
  | None => None
  end.

Definition StopAdmitting r now k g : option (Entry Rt Tgt) * Registry Rt Tgt :=
  match current r k g with
  | None => (None, r)
  | Some e =>
      let e' := set_status e (State e) false (TeardownOwned e) now in
      (Some e', store r k e')
  end.

Definition MarkReleasing r now k g : option (Entry Rt Tgt) * Registry Rt Tgt :=
  match current r k g with
  | None => (None, r)
  | Some e =>
      let e' := set_status e StateReleasing false (TeardownOwned e) now in
      (Some e', store r k e')
  end.

Definition ResumeResident r now k g : option (Entry Rt Tgt) * Registry Rt Tgt :=
  match current r k g with
  | None => (None, r)
  | Some e =>
    if TeardownOwned e ||
         (bool_decide (State e ≠ StateReleasing) && bool_decide (State e ≠ StateResident))
      then (None, r)
      else
        let e' := set_status e StateResident true (TeardownOwned e) now in
        (Some e', store r k e')
  end.

(** [BeginTeardown]: the entry, and whether this caller won the teardown. *)
Definition BeginTeardown r now k g : option (Entry Rt Tgt) * bool * Registry Rt Tgt :=
  match current r k g with
  | None => (None, false, r)
  | Some e =>
      if TeardownOwned e then (Some e, false, r)
      else
        let e' := set_status e StateDraining false true now in
        (Some e', true, store r k e')
  end.

Definition Touch r now k g : bool * Registry Rt Tgt :=
  match current r k g with
  | None => (false, r)
  | Some e => (true, store r k (set_status e (State e) (Accepting e) (TeardownOwned e) now))
  end.

Definition RemoveByGeneration r k g : bool * Registry Rt Tgt :=
  match current r k g with
  | None => (false, r)
  | Some _ => (true, mkRegistry (delete k (entries r)) (nextGeneration r))
  end.

(** The condition of the sweep in [RemoveStale]. *)
Definition stale (before : Z) e : bool :=
  negb (bool_decide (State e = StateResident) || negb (LastActivity e <? before)%Z).

Definition RemoveStale r (before : Z) : list Key * Registry Rt Tgt :=
  let removed := filter (fun p : Key * Entry Rt Tgt => stale before p.2 = true) (entries r) in
  (merge_sort key_le (map_to_list removed).*1,
   mkRegistry (filter (fun p => stale before p.2 = false) (entries r)) (nextGeneration r)).

Definition entry_le e1 e2 : Prop := key_le (eKey e1) (eKey e2).

#[export] Instance entry_le_dec : RelDecision entry_le.
Proof. intros e1 e2. unfold entry_le. apply _. Defined.
#[export] Instance entry_le_total : Total entry_le.
Proof. intros e1 e2. apply (total key_le). Qed.
#[export] Instance entry_le_trans : Transitive entry_le.
Proof. intros e1 e2 e3. apply (transitivity (R := key_le)). Qed.

Definition Snapshot r : list (Entry Rt Tgt) :=
  merge_sort entry_le (map_to_list (entries r)).*2.

Definition Len r : nat := size (entries r).

(** ** Interleavings *)

Inductive op :=
| OpInsert (now : Z) (k : Key) (a : Admission Rt Tgt)
| OpStopAdmitting (now : Z) (k : Key) (g : Z)
| OpMarkReleasing (now : Z) (k : Key) (g : Z)
| OpResumeResident (now : Z) (k : Key) (g : Z)
| OpBeginTeardown (now : Z) (k : Key) (g : Z)
| OpTouch (now : Z) (k : Key) (g : Z)
| OpRemoveByGeneration (k : Key) (g : Z)
| OpRemoveStale (before : Z).

(** The state after an operation, and whether it reported true. *)
Definition step r (o : op) : bool * Registry Rt Tgt :=
  match o with
  | OpInsert now k a => let '(_, won, r') := Insert r now k a in (won, r')
  | OpStopAdmitting now k g => let '(e, r') := StopAdmitting r now k g in (bool_decide (is_Some e), r')
  | OpMarkReleasing now k g => let '(e, r') := MarkReleasing r now k g in (bool_decide (is_Some e), r')
  | OpResumeResident now k g => let '(e, r') := ResumeResident r now k g in (bool_decide (is_Some e), r')
  | OpBeginTeardown now k g => let '(_, won, r') := BeginTeardown r now k g in (won, r')
  | OpTouch now k g => Touch r now k g
  | OpRemoveByGeneration k g => RemoveByGeneration r k g
  | OpRemoveStale before => (true, (RemoveStale r before).2)
  end.

Fixpoint run r (os : list op) : Registry Rt Tgt :=
  match os with
  | [] => r
  | o :: os => run (step r o).2 os
  end.

(** The operations of [os] that reported true, in order. *)
Fixpoint winners r (os : list op) : list op :=
  match os with
  | [] => []
  | o :: os => (if (step r o).1 then [o] else []) ++ winners (step r o).2 os
  end.

(** ** Abstract specification: the life of one residency

    What callers rely on is the status of one key: absent, or held under a
    generation with a state, an admission flag and a teardown claim.  [life]
    is the only way that status may move. *)
Definition status : Type := ResidencyState * bool * bool.

Definition abs r k : option (Z * status) :=
  (fun e => (Generation e, (State e, Accepting e, TeardownOwned e))) <$> entries r !! k.

Inductive life : option (Z * status) → option (Z * status) → Prop :=
| life_id x : life x x
| life_birth g : life None (Some (g, (StateResident, true, false)))
| life_stop g st acc own : life (Some (g, (st, acc, own))) (Some (g, (st, false, own)))
| life_release g st acc own :
    life (Some (g, (st, acc, own))) (Some (g, (StateReleasing, false, own)))
| life_resume g st acc :
    st = StateReleasing ∨ st = StateResident →
    life (Some (g, (st, acc, false))) (Some (g, (StateResident, true, false)))
| life_teardown g st acc :
    life (Some (g, (st, acc, false))) (Some (g, (StateDraining, false, true)))
| life_death x : life (Some x) None.

Lemma current_Some r k g e :
  current r k g = Some e ↔ entries r !! k = Some e ∧ Generation e = g.
Proof. unfold current. destruct (entries r !! k); [case_bool_decide|]; naive_solver. Qed.

Lemma abs_store_ne r k k' e : k ≠ k' → abs (store r k e) k' = abs r k'.
Proof. intros ?. unfold abs, store; simpl. by rewrite lookup_insert_ne. Qed.

Lemma abs_store_eq r k e :
  abs (store r k e) k = Some (Generation e, (State e, Accepting e, TeardownOwned e)).
Proof. unfold abs, store; simpl. by rewrite lookup_insert_eq. Qed.

Lemma abs_lookup r k e :
  entries r !! k = Some e → abs r k = Some (Generation e, (State e, Accepting e, TeardownOwned e)).
Proof. unfold abs. by intros ->. Qed.

Lemma life_store r k k' e e' :
  entries r !! k = Some e →
  life (Some (Generation e, (State e, Accepting e, TeardownOwned e)))
       (Some (Generation e', (State e', Accepting e', TeardownOwned e'))) →
  life (abs r k') (abs (store r k e') k').
Proof.
  intros Hk Hl. destruct (decide (k = k')) as [<-|Hne].
  - rewrite abs_store_eq, (abs_lookup r k e Hk). done.
  - rewrite abs_store_ne by done. constructor.
Qed.

Lemma life_filter r k next (P : Key * Entry Rt Tgt → Prop) `{!∀ x, Decision (P x)} :
  life (abs r k) (abs (mkRegistry (filter P (entries r)) next) k).
Proof.
  unfold abs; simpl. rewrite map_lookup_filter.
  destruct (entries r !! k) as [e|]; simpl; [|constructor].
  case_guard; simpl; constructor.
Qed.

Lemma step_life r o k : life (abs r k) (abs (step r o).2 k).
Proof.
  destruct o as [now k' a|now k' g|now k' g|now k' g|now k' g|now k' g|k' g|before]; simpl.
  - unfold Insert. destruct (entries r !! k') eqn:Hk; simpl; [constructor|].
    unfold abs; simpl. destruct (decide (k' = k)) as [<-|Hne].
    + rewrite lookup_insert_eq, Hk. constructor.
    + rewrite lookup_insert_ne by done. constructor.
  - unfold StopAdmitting. destruct (current r k' g) eqn:Hc; simpl; [|constructor].
    apply current_Some in Hc as [Hk _]. eapply life_store; [done|]. constructor.
  - unfold MarkReleasing. destruct (current r k' g) eqn:Hc; simpl; [|constructor].
    apply current_Some in Hc as [Hk _]. eapply life_store; [done|]. constructor.
  - unfold ResumeResident. destruct (current r k' g) as [e|] eqn:Hc; simpl; [|constructor].
    apply current_Some in Hc as [Hk _].
    destruct (TeardownOwned e) eqn:Ho; simpl; [constructor|].
    destruct (State e) eqn:Hs; simpl; try constructor;
      (eapply life_store; [done|]; simpl; rewrite Ho, Hs; constructor; auto).
  - unfold BeginTeardown. destruct (current r k' g) as [e|] eqn:Hc; simpl; [|constructor].
    apply current_Some in Hc as [Hk _].
    destruct (TeardownOwned e) eqn:Ho; simpl; [constructor|].
    eapply life_store; [done|]; simpl. rewrite Ho. constructor.
  - unfold Touch. destruct (current r k' g) as [e|] eqn:Hc; simpl; [|constructor].
    apply current_Some in Hc as [Hk _]. eapply life_store; [done|]. constructor.
  - unfold RemoveByGeneration. destruct (current r k' g) as [e|] eqn:Hc; simpl; [|constructor].
    unfold abs; simpl. destruct (decide (k' = k)) as [<-|Hne].
    + rewrite lookup_delete_eq. apply current_Some in Hc as [-> _]. constructor.
    + rewrite lookup_delete_ne by done. constructor.
  - apply (life_filter r).
Qed.

(** ** Well-formed registries *)

Definition status_ok (s : status) : Prop :=
  let '(st, acc, own) := s in
  (acc = true → st = StateResident) ∧
  (own = true → acc = false ∧ st ≠ StateResident) ∧
  (st = StateDraining → own = true).

Lemma life_status_ok x g s :
  life x (Some (g, s)) → (∀ g' s', x = Some (g', s') → status_ok s') → status_ok s.
Proof.
  intros Hl Hx. inversion Hl as [| | g1 st acc own | g1 st acc own | g1 st acc Hst | g1 st acc |];
    subst; try (specialize (Hx _ _ eq_refl)); simpl in *; naive_solver.
Qed.

Record wf r : Prop := {
  wf_next : (0 ≤ nextGeneration r)%Z;
  wf_key k e : entries r !! k = Some e → eKey e = k;
  wf_gen k e : entries r !! k = Some e → (1 ≤ Generation e ≤ nextGeneration r)%Z;
  wf_inj k1 k2 e1 e2 : entries r !! k1 = Some e1 → entries r !! k2 = Some e2 →
    Generation e1 = Generation e2 → k1 = k2;
  wf_status k g s : abs r k = Some (g, s) → status_ok s
}.

(** There is room for [n] more residencies before the counter wraps. *)
Definition room r (n : nat) : Prop := (nextGeneration r + Z.of_nat n < two64)%Z.

Lemma wf_New : wf New.
Proof.
  split; unfold abs; simpl; try done; intros *; rewrite lookup_empty; done.
Qed.

(** Every entry after a step is the old one with a new status, or was just born
    under the next generation. *)
Lemma step_entries r o :
  (∀ k e', entries (step r o).2 !! k = Some e' →
     ∃ e, entries r !! k = Some e ∧ Generation e' = Generation e ∧ eKey e' = eKey e) ∧
  nextGeneration (step r o).2 = nextGeneration r
  ∨ ∃ k0 e0, entries r !! k0 = None ∧ eKey e0 = k0 ∧
      Generation e0 = u64 (nextGeneration r + 1) ∧
      (step r o).2 = mkRegistry (<[k0 := e0]> (entries r)) (u64 (nextGeneration r + 1)).
Proof.
  assert (∀ k e e1, entries r !! k = Some e → Generation e1 = Generation e → eKey e1 = eKey e →
    ∀ k' e', entries (store r k e1) !! k' = Some e' →
     ∃ e2, entries r !! k' = Some e2 ∧ Generation e' = Generation e2 ∧ eKey e' = eKey e2) as Hst.
  { intros k e e1 Hk Hg He k' e'. unfold store; simpl.
    intros [[<- <-]|[_ He']]%lookup_insert_Some; eauto. }
  destruct o as [now k' a|now k' g|now k' g|now k' g|now k' g|now k' g|k' g|before]; simpl.
  - unfold Insert. destruct (entries r !! k') eqn:Hk; simpl; [left; eauto|].
    right. eexists k', _. split_and!; [..|reflexivity]; done.
  - left. unfold StopAdmitting. destruct (current r k' g) eqn:Hc; simpl; [|eauto].
    apply current_Some in Hc as [Hk _]. split; [|done]. by eapply Hst.
  - left. unfold MarkReleasing. destruct (current r k' g) eqn:Hc; simpl; [|eauto].
    apply current_Some in Hc as [Hk _]. split; [|done]. by eapply Hst.
  - left. unfold ResumeResident. destruct (current r k' g) eqn:Hc; simpl; [|eauto].
    apply current_Some in Hc as [Hk _]. destruct (_ || _); simpl; [eauto|].
    split; [|done]. by eapply Hst.
  - left. unfold BeginTeardown. destruct (current r k' g) eqn:Hc; simpl; [|eauto].
    apply current_Some in Hc as [Hk _]. destruct (TeardownOwned _); simpl; [eauto|].
    split; [|done]. by eapply Hst.
  - left. unfold Touch. destruct (current r k' g) eqn:Hc; simpl; [|eauto].
    apply current_Some in Hc as [Hk _]. split; [|done]. by eapply Hst.
  - left. unfold RemoveByGeneration. destruct (current r k' g) eqn:Hc; simpl; [|eauto].
    split; [|done]. intros k e' [_ He]%lookup_delete_Some. eauto.
  - left. split; [|done]. intros k e' [He _]%map_lookup_filter_Some. eauto.
Qed.

Lemma step_wf r o : wf r → room r 1 → wf (step r o).2.
Proof.
  intros Hwf Hroom. pose proof (wf_next r Hwf) as H0.
  assert (u64 (nextGeneration r + 1) = nextGeneration r + 1)%Z as Hu.
  { apply u64_small. unfold is_u64, room in *. lia. }
  assert (∀ k g s, abs (step r o).2 k = Some (g, s) → status_ok s) as Hs.
  { intros k g s Ha. pose proof (step_life r o k) as Hl. rewrite Ha in Hl.
    eapply life_status_ok; [done|]. intros g' s' Hx. by eapply (wf_status r Hwf). }
  destruct (step_entries r o) as [[He Hn]|(k0 & e0 & Hk0 & Hk & Hg & Hr)].
  - split; [by rewrite Hn|..|done].
    + intros k e (e1 & H1 & _ & ->)%He. by apply (wf_key r Hwf).
    + intros k e (e1 & H1 & -> & _)%He. rewrite Hn. by eapply (wf_gen r Hwf).
    + intros k1 k2 e1 e2 (e1' & H1 & -> & _)%He (e2' & H2 & -> & _)%He. by eapply (wf_inj r Hwf).
  - rewrite Hr in *. split; simpl in *; [lia|..|done].
    + intros k e [[<- <-]|[_ H1]]%lookup_insert_Some; [done|]. by apply (wf_key r Hwf).
    + intros k e [[<- <-]|[_ H1]]%lookup_insert_Some; [lia|].
      apply (wf_gen r Hwf) in H1. lia.
    + intros k1 k2 e1 e2 [[<- <-]|[_ H1]]%lookup_insert_Some
        [[<- <-]|[_ H2]]%lookup_insert_Some Heq; try done.
      * apply (wf_gen r Hwf) in H2. lia.
      * apply (wf_gen r Hwf) in H1. lia.
      * by eapply (wf_inj r Hwf).
Qed.

Lemma step_next r o : room r 1 → wf r →
  (nextGeneration r ≤ nextGeneration (step r o).2 ≤ nextGeneration r + 1)%Z.
Proof.
  intros Hroom Hwf. pose proof (wf_next r Hwf). unfold room in *.
  destruct (step_entries r o) as [[_ ->]|(k0 & e0 & _ & _ & _ & ->)]; simpl; [lia|].
  rewrite u64_small; [lia|unfold is_u64; lia].
Qed.

Lemma room_step r o n : wf r → room r (S n) → room (step r o).2 n.
Proof.
  intros Hwf Hroom. pose proof (step_next r o). unfold room in *.
  ospecialize (H _ Hwf); lia.
Qed.

Lemma room_1 r n : room r (S n) → room r 1.
Proof. unfold room. lia. Qed.

#[local] Hint Resolve step_wf room_step room_1 : core.

Lemma run_wf r os : wf r → room r (length os) → wf (run r os).
Proof. revert r. induction os as [|o os IH]; simpl; eauto. Qed.

(** After any interleaving of fewer than 2^64 method calls on a new
    registry, every entry sits under its own key, generations are distinct,
    only a resident entry accepts work, a draining entry is owned, and an owned
    one neither accepts nor is resident. *)
Theorem run_New_wf os (H : (Z.of_nat (length os) < two64)%Z) : wf (run New os).
Proof. apply run_wf; [apply wf_New|]. unfold room; simpl. lia. Qed.

(** [RemoveStale] removes exactly the entries that are not resident and were
    last active before the cutoff, reports exactly their keys in order, and
    leaves every other entry as it was: a resident session is never swept. *)
Theorem RemoveStale_spec r before :
  let '(ks, r') := RemoveStale r before in
  (∀ k, k ∈ ks ↔ ∃ e, entries r !! k = Some e ∧ State e ≠ StateResident ∧
                       (LastActivity e < before)%Z) ∧
  StronglySorted key_le ks ∧ NoDup ks ∧
  (∀ k e, entries r' !! k = Some e ↔ entries r !! k = Some e ∧ k ∉ ks).
Proof.
  unfold RemoveStale.
  assert (∀ k, k ∈ merge_sort key_le
     (map_to_list (filter (fun p : Key * Entry Rt Tgt => stale before p.2 = true) (entries r))).*1
     ↔ ∃ e, entries r !! k = Some e ∧ stale before e = true) as Hin.
  { intros k. rewrite merge_sort_Permutation, list_elem_of_fmap. split.
    - intros ([k' e] & -> & [He Hs]%elem_of_map_to_list%map_lookup_filter_Some). eauto.
    - intros (e & He & Hs). exists (k, e). split; [done|].
      by apply elem_of_map_to_list, map_lookup_filter_Some. }
  assert (∀ e, stale before e = true ↔ State e ≠ StateResident ∧ (LastActivity e < before)%Z) as Hst.
  { intros e. unfold stale. case_bool_decide; simpl; [naive_solver|].
    rewrite negb_involutive, Z.ltb_lt. tauto. }
  split_and!.
  - intros k. rewrite Hin. setoid_rewrite Hst. done.
  - apply (StronglySorted_merge_sort _).
  - rewrite merge_sort_Permutation. apply NoDup_fst_map_to_list.
  - intros k e. simpl. rewrite map_lookup_filter_Some, Hin. simpl. split.
    + intros [He Hs]. split; [done|]. intros (e' & He' & Hs'). congruence.
    + intros [He Hn]. split; [done|]. apply not_true_is_false. intros Hs. apply Hn. eauto.
Qed.

(** What a sweep does at one key. *)
Lemma RemoveStale_at r before k :
  (k ∈ (RemoveStale r before).1 ↔ ∃ e, entries r !! k = Some e ∧ State e ≠ StateResident ∧ (LastActivity e < before)%Z) ∧
  entries (RemoveStale r before).2 !! k =
    match entries r !! k with
    | Some e => if decide (State e ≠ StateResident ∧ (LastActivity e < before)%Z) then None else Some e
    | None => None
    end.
Proof.
  pose proof (RemoveStale_spec r before) as H. destruct (RemoveStale r before) as [ks r'] eqn:Hr. destruct H as (H1 & _ & _ & H4).
  simpl. split; [apply H1|]. apply option_eq. intros e. rewrite H4, H1. destruct (entries r !! k) as [e'|] eqn:He; [|naive_solver].
  case_decide as Hd; naive_solver.
Qed.

(** ** Abstract specification: what each call does to one key

    A key is absent, or holds one residency: its generation, what it was admitted
    with, its status and its last activity.  [does next o k before told given after]
    is the only thing the call [o] may do at [k] when [next] generations were handed
    out: [told] and [given] are what its caller is told about [k], whether it won and
    the residency it is given. *)
Record cell := mkCell { c_gen : Z; c_who : Admission Rt Tgt; c_status : status; c_last : Z }.

(** The key and generation a call names, when it names one. *)
Definition keyed (o : op) : option (Key * Z) :=
  match o with
  | OpStopAdmitting _ k g | OpMarkReleasing _ k g | OpResumeResident _ k g
  | OpBeginTeardown _ k g | OpTouch _ k g | OpRemoveByGeneration k g => Some (k, g)
  | OpInsert _ _ _ | OpRemoveStale _ => None
  end.

(** Whether a call is about this key; a sweep is about every key. *)
Definition about (o : op) k : Prop :=
  match o with
  | OpInsert _ k' _ => k' = k
  | OpRemoveStale _ => True
  | _ => fst <$> keyed o = Some k
  end.

Inductive does (next : Z) k : op → option cell → bool → option cell → option cell → Prop :=
| does_admit now a c :
    c = mkCell (u64 (next + 1)) a (StateResident, true, false) now →
    does next k (OpInsert now k a) None true (Some c) (Some c)
| does_find now a c : does next k (OpInsert now k a) (Some c) false (Some c) (Some c)
| does_stop now g w st acc own last c :
    c = mkCell g w (st, false, own) now →
    does next k (OpStopAdmitting now k g) (Some (mkCell g w (st, acc, own) last)) true (Some c) (Some c)
| does_release now g w st acc own last c :
    c = mkCell g w (StateReleasing, false, own) now →
    does next k (OpMarkReleasing now k g) (Some (mkCell g w (st, acc, own) last)) true (Some c) (Some c)
| does_resume now g w st acc last c :
    st = StateReleasing ∨ st = StateResident → c = mkCell g w (StateResident, true, false) now →
    does next k (OpResumeResident now k g) (Some (mkCell g w (st, acc, false) last)) true (Some c) (Some c)
| does_refuse_resume now g w st acc own last :
    own = true ∨ st = StateDraining →
    does next k (OpResumeResident now k g) (Some (mkCell g w (st, acc, own) last)) false None
      (Some (mkCell g w (st, acc, own) last))
| does_begin now g w st acc last c :
    c = mkCell g w (StateDraining, false, true) now →
    does next k (OpBeginTeardown now k g) (Some (mkCell g w (st, acc, false) last)) true (Some c) (Some c)
| does_lose now g w st acc last c :
    c = mkCell g w (st, acc, true) last →
    does next k (OpBeginTeardown now k g) (Some c) false (Some c) (Some c)
| does_touch now g w st last :
    does next k (OpTouch now k g) (Some (mkCell g w st last)) true None (Some (mkCell g w st now))
| does_remove c : does next k (OpRemoveByGeneration k (c_gen c)) (Some c) true None None
| does_late o g x : keyed o = Some (k, g) → c_gen <$> x ≠ Some g → does next k o x false None x
| does_sweep before g w st acc own last :
    st ≠ StateResident → (last < before)%Z →
    does next k (OpRemoveStale before) (Some (mkCell g w (st, acc, own) last)) true None None
| does_spare before x :
    (∀ g w st acc own last, x = Some (mkCell g w (st, acc, own) last) → st = StateResident ∨ (before ≤ last)%Z) →
    does next k (OpRemoveStale before) x false None x
| does_else o x : ¬ about o k → does next k o x false None x.

(** What a registry shows of a key, and what a call tells its caller of it. *)
Definition cell_of e : cell :=
  mkCell (Generation e) (mkAdmission (AgentID e) (Target e) (CompatibilityID e) (Runtime e) (LeaseEpoch e))
    (State e, Accepting e, TeardownOwned e) (LastActivity e).
Definition view r k : option cell := cell_of <$> entries r !! k.

Definition given r (o : op) : option (Entry Rt Tgt) :=
  match o with
  | OpInsert now k a => Some (Insert r now k a).1.1
  | OpStopAdmitting now k g => (StopAdmitting r now k g).1
  | OpMarkReleasing now k g => (MarkReleasing r now k g).1
  | OpResumeResident now k g => (ResumeResident r now k g).1
  | OpBeginTeardown now k g => (BeginTeardown r now k g).1.1
  | OpTouch _ _ _ | OpRemoveByGeneration _ _ | OpRemoveStale _ => None
  end.

Definition told_at r (o : op) k : bool * option cell :=
  match o with
  | OpRemoveStale before => (bool_decide (k ∈ (RemoveStale r before).1), None)
  | OpInsert _ k' _ => if decide (k' = k) then ((step r o).1, cell_of <$> given r o) else (false, None)
  | _ => if decide (fst <$> keyed o = Some k) then ((step r o).1, cell_of <$> given r o) else (false, None)
  end.

(** The specification leaves a call no choice. *)
Lemma does_functional next k o x b c y b' c' y' :
  does next k o x b c y → does next k o x b' c' y' → b' = b ∧ c' = c ∧ y' = y.
Proof.
  intros H H'. inversion H; subst; inversion H'; subst; simplify_eq/=;
    repeat match goal with H : _ ∨ _ |- _ => destruct H end; simplify_eq/=; try done;
    match goal with
    | H : ∀ g w st acc own last, _ |- _ => destruct (H _ _ _ _ _ _ eq_refl); [congruence|lia]
    | H : ¬ about _ _ |- _ => destruct H; simpl; done
    end.
Qed.

Lemma view_store r k k' e : view (store r k e) k' = if decide (k = k') then Some (cell_of e) else view r k'.
Proof. unfold view, store; simpl. case_decide; [subst; by rewrite lookup_insert_eq|by rewrite lookup_insert_ne]. Qed.

(** A call that names a generation, at the key it names and at every other. *)
Lemma does_keyed r o k g k' next :
  keyed o = Some (k, g) →
  (current r k g = None → (step r o).1 = false ∧ given r o = None ∧ (step r o).2 = r) →
  (∀ e, entries r !! k = Some e → Generation e = g →
     does next k o (Some (cell_of e)) (step r o).1 (cell_of <$> given r o) (view (step r o).2 k) ∧
     ∀ k', k ≠ k' → view (step r o).2 k' = view r k') →
  does next k' o (view r k') (told_at r o k').1 (told_at r o k').2 (view (step r o).2 k').
Proof.
  intros Hk Hnone Hsome.
  assert (told_at r o k' = if decide (k = k') then ((step r o).1, cell_of <$> given r o) else (false, None)) as ->.
  { destruct o; try discriminate Hk; unfold told_at; rewrite Hk; simpl; (destruct (decide (Some k = Some k')), (decide (k = k')); congruence). }
  assert (k ≠ k' → ¬ about o k') as Hab by (intros Hne; destruct o; try discriminate Hk; unfold about; rewrite Hk; simpl; congruence).
  destruct (current r k g) as [e|] eqn:Hc.
  - apply current_Some in Hc as [He Hg]. destruct (Hsome e He Hg) as [Hd Hother]. case_decide as Hkk; simpl.
    + subst k'. unfold view at 1. by rewrite He.
    + rewrite Hother by done. apply does_else. auto.
  - destruct (Hnone eq_refl) as (H1 & H2 & H3). rewrite H1, H2, H3. case_decide as Hkk; simpl; [|apply does_else; auto].
    subst k'. apply (does_late _ _ _ g); [done|]. unfold view. intros Hg. apply fmap_Some in Hg as (c & Hv & Hcg).
    apply fmap_Some in Hv as (e & He & ->). assert (current r k g = Some e); [|congruence]. by apply current_Some.
Qed.

Lemma step_does r o k :
  does (nextGeneration r) k o (view r k) (told_at r o k).1 (told_at r o k).2 (view (step r o).2 k).
Proof.
  destruct o as [now k' a|now k' g|now k' g|now k' g|now k' g|now k' g|k' g|before].
  - unfold told_at, step, given, view, Insert. destruct (decide (k' = k)) as [->|Hne].
    + destruct (entries r !! k) as [e|] eqn:Hk; simpl; rewrite ?Hk, ?lookup_insert_eq; simpl; [apply does_find|].
      destruct a. by apply does_admit.
    + destruct (entries r !! k') as [e|] eqn:Hk; simpl; rewrite ?lookup_insert_ne by done; by apply does_else.
  - apply (does_keyed _ _ k' g); [done|by simpl; unfold StopAdmitting; intros ->|].
    intros e He Hg. assert (current r k' g = Some e) as Hc by (by apply current_Some). simpl. unfold StopAdmitting. rewrite Hc. simpl.
    split; [|intros k0 ?; by rewrite view_store, decide_False]. rewrite view_store, decide_True by done. subst g. by apply does_stop.
  - apply (does_keyed _ _ k' g); [done|by simpl; unfold MarkReleasing; intros ->|].
    intros e He Hg. assert (current r k' g = Some e) as Hc by (by apply current_Some). simpl. unfold MarkReleasing. rewrite Hc. simpl.
    split; [|intros k0 ?; by rewrite view_store, decide_False]. rewrite view_store, decide_True by done. subst g. by apply does_release.
  - apply (does_keyed _ _ k' g); [done|by simpl; unfold ResumeResident; intros ->|].
    intros e He Hg. assert (current r k' g = Some e) as Hc by (by apply current_Some). simpl. unfold ResumeResident. rewrite Hc. subst g.
    assert (TeardownOwned e = true ∨ State e = StateDraining → does (nextGeneration r) k' (OpResumeResident now k' (Generation e)) (Some (cell_of e)) false None (view r k') ∧ ∀ k0, k' ≠ k0 → view r k0 = view r k0) as Hno.
    { intros Hor. split; [|done]. unfold view. rewrite He. by apply does_refuse_resume. }
    destruct (TeardownOwned e) eqn:Ho, (State e) eqn:Hs; simpl; auto.
    all: split; [|intros k0 ?; by rewrite view_store, decide_False]; rewrite view_store, decide_True by done; unfold cell_of at 1; rewrite Ho, Hs; apply does_resume; auto.
  - apply (does_keyed _ _ k' g); [done|by simpl; unfold BeginTeardown; intros ->|].
    intros e He Hg. assert (current r k' g = Some e) as Hc by (by apply current_Some). simpl. unfold BeginTeardown. rewrite Hc. subst g.
    destruct (TeardownOwned e) eqn:Ho; simpl.
    + split; [|done]. unfold view. rewrite He. simpl. unfold cell_of. rewrite Ho. by eapply does_lose.
    + split; [|intros k0 ?; by rewrite view_store, decide_False]. rewrite view_store, decide_True by done. unfold cell_of at 1. rewrite Ho. by apply does_begin.
  - apply (does_keyed _ _ k' g); [done|by simpl; unfold Touch; intros ->|].
    intros e He Hg. assert (current r k' g = Some e) as Hc by (by apply current_Some). simpl. unfold Touch. rewrite Hc. simpl.
    split; [|intros k0 ?; by rewrite view_store, decide_False]. rewrite view_store, decide_True by done. subst g. apply does_touch.
  - apply (does_keyed _ _ k' g); [done|by simpl; unfold RemoveByGeneration; intros ->|].
    intros e He Hg. assert (current r k' g = Some e) as Hc by (by apply current_Some). simpl. unfold RemoveByGeneration. rewrite Hc. simpl.
    split; [|intros k0 ?; unfold view; simpl; by rewrite lookup_delete_ne]. unfold view; simpl. rewrite lookup_delete_eq. subst g.
    exact (does_remove _ k' (cell_of e)).
  - unfold told_at. cbn [fst snd step]. destruct (RemoveStale_at r before k) as [Hin Hout]. unfold view at 2. rewrite Hout. unfold view.
    destruct (entries r !! k) as [e|] eqn:He; simpl.
    + destruct (decide (State e ≠ StateResident ∧ (LastActivity e < before)%Z)) as [[H1 H2]|Hn].
      * rewrite bool_decide_true by (apply Hin; eauto). by apply does_sweep.
      * rewrite bool_decide_false by (rewrite Hin; naive_solver). apply does_spare. intros * [= <- <- <- <- <- <-].
        destruct (decide (State e = StateResident)); [by left|right]. apply Znot_gt_le. intros ?. apply Hn. split; [done|lia].
    + rewrite bool_decide_false by (rewrite Hin; naive_solver). by apply does_spare.
Qed.

(** C9 Refinement: at any point of any history of method calls, a further call does at
    every key exactly what [does] says, to the residency and in what its caller is told
    and given: a residency is born resident and accepting under the next generation; a
    call naming another generation than the one held changes nothing and is told so; a
    teardown is won once and never taken back; a sweep removes the stale residencies
    that are not resident, and no other; a call leaves every key it is not about as it
    was; and a generation is handed out exactly when an insertion wins. *)
Theorem step_refines os o k :
  let r := run New os in
  (∀ told given after, does (nextGeneration r) k o (view r k) told given after ↔
     (told, given) = told_at r o k ∧ after = view (step r o).2 k) ∧
  nextGeneration (step r o).2 =
    match o with OpInsert _ _ _ => if (step r o).1 then u64 (nextGeneration r + 1) else nextGeneration r | _ => nextGeneration r end.
Proof.
  generalize (run New os) as r. intros r. split.
  { intros b c y. pose proof (step_does r o k) as Hd. split.
    - intros H. destruct (does_functional _ _ _ _ _ _ _ _ _ _ Hd H) as (-> & -> & ->). by destruct (told_at r o k).
    - intros [Heq ->]. by rewrite <-Heq in Hd. }
  destruct o as [now k' a|now k' g|now k' g|now k' g|now k' g|now k' g|k' g|before]; simpl.
  - unfold Insert. by destruct (entries r !! k').
  - unfold StopAdmitting. by destruct (current r k' g).
  - unfold MarkReleasing. by destruct (current r k' g).
  - unfold ResumeResident. destruct (current r k' g) as [e|]; [|done]. by destruct (_ || _).
  - unfold BeginTeardown. destruct (current r k' g) as [e|]; [|done]. by destruct (TeardownOwned e).
  - unfold Touch. by destruct (current r k' g).
  - unfold RemoveByGeneration. by destruct (current r k' g).
  - done.
Qed.

(** ** Generations fence late callers *)

Lemma stale_noop r o k g :
  keyed o = Some (k, g) → current r k g = None → step r o = (false, r).
Proof.
  destruct o; simpl; intros [= -> ->] Hc;
    unfold StopAdmitting, MarkReleasing, ResumeResident, BeginTeardown, Touch, RemoveByGeneration;
    rewrite Hc; done.
Qed.

(** The generation was handed out and the residency it named is over. *)
Definition over r k g : Prop := (1 ≤ g ≤ nextGeneration r)%Z ∧ current r k g = None.

Lemma over_step r o k g : wf r → room r 1 → over r k g → over (step r o).2 k g.
Proof.
  intros Hwf Hroom [Hg Hc]. pose proof (step_next r o Hroom Hwf).
  split; [lia|]. apply eq_None_not_Some. intros [e He]. apply current_Some in He as [He Hge].
  destruct (step_entries r o) as [[Hs _]|(k0 & e0 & Hk0 & _ & Hg0 & Hr)].
  - apply Hs in He as (e1 & He1 & Hg1 & _).
    assert (current r k g = Some e1); [|congruence]. apply current_Some. split; congruence.
  - rewrite Hr in He. simpl in He. apply lookup_insert_Some in He as [[<- <-]|[_ He]].
    + rewrite u64_small in Hg0; [lia|]. unfold is_u64, room in *. pose proof (wf_next r Hwf). lia.
    + assert (current r k g = Some e); [|congruence]. by apply current_Some.
Qed.

Lemma over_run r os k g : wf r → room r (length os) → over r k g → over (run r os) k g.
Proof.
  revert r. induction os as [|o os IH]; simpl; [done|]. intros r Hwf Hr Ho.
  apply IH; eauto. apply over_step; eauto.
Qed.

(** Once a residency is over (removed, or replaced under its key), no later
    method call carrying its generation has any effect or reports true, however
    the calls interleave: a generation is never handed out again. *)
Theorem generation_fences r os o k g (Hwf : wf r) (Hroom : room r (length os))
    (Hover : over r k g) (Hk : keyed o = Some (k, g)) :
  step (run r os) o = (false, run r os).
Proof. apply (stale_noop _ _ k g Hk), (over_run r os k g Hwf Hroom Hover). Qed.

(** ** Teardown has one owner *)

(** The residency is over, or somebody owns its teardown. *)
Definition claimed r k g : Prop :=
  (1 ≤ g ≤ nextGeneration r)%Z ∧ ∀ e, current r k g = Some e → TeardownOwned e = true.

Lemma life_owned x g st acc :
  life (Some (g, (st, acc, true))) x → x = None ∨ ∃ st' acc', x = Some (g, (st', acc', true)).
Proof. intros H. inversion H; subst; eauto. Qed.

Lemma claimed_step r o k g : wf r → room r 1 → claimed r k g → claimed (step r o).2 k g.
Proof.
  intros Hwf Hroom [Hg Hc]. destruct (current r k g) as [e|] eqn:Hcur.
  - pose proof (step_next r o Hroom Hwf). split; [lia|]. intros e' He'.
    specialize (Hc e eq_refl). apply current_Some in Hcur as [He Hge].
    apply current_Some in He' as [He' Hge'].
    pose proof (step_life r o k) as Hl.
    rewrite (abs_lookup _ _ _ He), (abs_lookup _ _ _ He'), Hc in Hl.
    apply life_owned in Hl. naive_solver.
  - destruct (over_step r o k g Hwf Hroom) as [? Hn]; [done|]. split; [done|].
    intros e'. by rewrite Hn.
Qed.

Lemma claimed_run r os k g : wf r → room r (length os) → claimed r k g → claimed (run r os) k g.
Proof.
  revert r. induction os as [|o os IH]; simpl; [done|]. intros r Hwf Hr Ho.
  apply IH; eauto. apply claimed_step; eauto.
Qed.

Lemma BeginTeardown_claims r now k g :
  wf r → (step r (OpBeginTeardown now k g)).1 = true →
  claimed (step r (OpBeginTeardown now k g)).2 k g.
Proof.
  simpl. unfold BeginTeardown. intros Hwf.
  destruct (current r k g) as [e|] eqn:Hc; simpl; [|done].
  destruct (TeardownOwned e); simpl; [done|]. intros _.
  apply current_Some in Hc as [He <-]. split.
  - simpl. by eapply (wf_gen r Hwf).
  - intros e' [He' _]%current_Some. unfold store in He'. simpl in He'.
    rewrite lookup_insert_eq in He'. by simplify_eq.
Qed.

Lemma claimed_loses r now k g :
  claimed r k g → (step r (OpBeginTeardown now k g)).1 = false.
Proof.
  intros [_ Hc]. simpl. unfold BeginTeardown.
  destruct (current r k g) as [e|]; [|done]. by rewrite (Hc e eq_refl).
Qed.

Definition is_teardown k g (o : op) : bool :=
  match o with OpBeginTeardown _ k' g' => bool_decide (k = k' ∧ g = g') | _ => false end.

Lemma claimed_no_winner r os k g :
  wf r → room r (length os) → claimed r k g →
  filter (fun o => is_teardown k g o = true) (winners r os) = [].
Proof.
  revert r. induction os as [|o os IH]; simpl; [done|]. intros r Hwf Hr Hc.
  rewrite filter_app, (IH (step r o).2); [|eauto..|by apply claimed_step; eauto].
  destruct (step r o).1 eqn:Hw; [|done]. rewrite app_nil_r.
  rewrite filter_cons_False; [done|]. destruct o; try done. simpl. intros Hd.
  apply bool_decide_eq_true in Hd as [<- <-]. by rewrite claimed_loses in Hw.
Qed.

(** Exactly-once teardown: over any interleaving of method calls, at most
    one [BeginTeardown] for a given key and generation reports that its caller
    owns the teardown. *)
Theorem teardown_once os k g (H : (Z.of_nat (length os) < two64)%Z) :
  length (filter (fun o => is_teardown k g o = true) (winners New os)) ≤ 1.
Proof.
  assert (room New (length os)) as Hroom by (unfold room; simpl; lia). clear H.
  pose proof wf_New as Hwf. revert Hroom Hwf. generalize New as r.
  induction os as [|o os IH]; simpl; [lia|]. intros r Hroom Hwf.
  rewrite filter_app, length_app. destruct (step r o).1 eqn:Hw; [|apply IH; eauto].
  destruct (is_teardown k g o) eqn:Ht.
  - destruct o; try done. simpl in Ht. apply bool_decide_eq_true in Ht as [<- <-].
    rewrite claimed_no_winner; [|eauto..|by apply BeginTeardown_claims].
    rewrite filter_cons. case_decide; simpl; lia.
  - rewrite filter_cons_False by congruence. simpl. apply IH; eauto.
Qed.

(** A claimed teardown is irrevocable: as long as the residency is held,
    through every later interleaving, it neither accepts work nor returns to
    resident, so [ResumeResident] cannot take a drain back. *)
Theorem teardown_irrevocable r os k g e (Hwf : wf r) (Hroom : room r (length os))
    (Hc : claimed r k g) (He : current (run r os) k g = Some e) :
  TeardownOwned e = true ∧ Accepting e = false ∧ State e ≠ StateResident.
Proof.
  destruct (claimed_run r os k g Hwf Hroom Hc) as [_ Ho]. specialize (Ho e He).
  apply current_Some in He as [He _]. apply abs_lookup in He.
  pose proof (wf_status _ (run_wf r os Hwf Hroom) _ _ _ He) as Hs.
  rewrite Ho in Hs. split; [done|]. by apply Hs.
Qed.

(** ** Listing *)

(** [Snapshot] lists every entry once, in the order of the keys. *)
Lemma Snapshot_spec r :
  wf r → Snapshot r ≡ₚ (map_to_list (entries r)).*2 ∧
  StronglySorted entry_le (Snapshot r) ∧ length (Snapshot r) = Len r.
Proof.
  intros Hwf. unfold Snapshot, Len. split_and!.
  - apply merge_sort_Permutation.
  - apply (StronglySorted_merge_sort _).
  - rewrite merge_sort_Permutation, length_fmap. apply length_map_to_list.
Qed.
End registry.
Arguments op : clear implicits.

(** ** Witnesses *)

Definition sample_admission : Admission unit unit := mkAdmission "a" tt "v1" tt 1.

Definition sample_key : Key := mkKey "t" "s".

Definition sample_calls : list (@op unit unit) :=
  [OpInsert 1 sample_key sample_admission; OpBeginTeardown 2 sample_key 1;
   OpBeginTeardown 3 sample_key 1; OpRemoveByGeneration sample_key 1].

Lemma run_New_wf_witness : (Z.of_nat (length sample_calls) < two64)%Z ∧ wf (run New sample_calls).
Proof. split; [reflexivity|]. exact (run_New_wf sample_calls eq_refl). Defined.

Lemma teardown_once_witness :
  winners New sample_calls =
    [OpInsert 1 sample_key sample_admission; OpBeginTeardown 2 sample_key 1;
     OpRemoveByGeneration sample_key 1] ∧
  length (filter (fun o => is_teardown sample_key 1 o = true) (winners New sample_calls)) ≤ 1.
Proof. split; [reflexivity|]. exact (teardown_once sample_calls sample_key 1 eq_refl). Defined.

Lemma generation_fences_witness :
  step (run New (sample_calls ++ [OpInsert 4 sample_key sample_admission]))
    (OpMarkReleasing 5 sample_key 1) =
  (false, run New (sample_calls ++ [OpInsert 4 sample_key sample_admission])).
Proof.
  assert (run New (sample_calls ++ [OpInsert 4 sample_key sample_admission]) =
          run (run New sample_calls) [OpInsert 4 sample_key sample_admission]) as -> by reflexivity.
  apply (generation_fences (run New sample_calls) [OpInsert 4 sample_key sample_admission]
           (OpMarkReleasing 5 sample_key 1) sample_key 1).
  - apply run_wf; [apply wf_New|reflexivity].
  - reflexivity.
  - split; [split; discriminate|reflexivity].
  - reflexivity.
Defined.

Lemma teardown_irrevocable_witness :
  let r := run New (take 2 sample_calls) in
  ∃ e, current (run r [OpResumeResident 3 sample_key 1]) sample_key 1 = Some e ∧
       State e ≠ StateResident.
Proof.
  intros r. eexists. split; [vm_compute; reflexivity|].
  refine (proj2 (proj2 (teardown_irrevocable r [OpResumeResident 3 sample_key 1] sample_key 1 _
                          _ _ _ _))).
  - apply run_wf; [apply wf_New|reflexivity].
  - reflexivity.
  - split; [split; discriminate|]. intros e He. vm_compute in He. injection He as <-. reflexivity.
  - vm_compute. reflexivity.
Defined.
End Registry.
