(* ===== verification/Capacity.v ===== *)
(** * Capacity.v: the admission ledger and its advertisements

    [internal/service/capacity.go].  The ledger is one record under one mutex:
    which sessions are charged, under which residency generation, and the total
    weight consumed.  Arithmetic is [uint64].  [report.Validate] of the
    [sessionwire] record and SHA-256 are section variables.                   *)
From Stdlib Require Import ZArith Ascii.
From stdpp Require Import base list strings gmap sorting pretty.
From S2P Require Import Prelude Wire Errors Department HostOptions.

Module Capacity.

(** [admission]: a charge; [owner] is the residency generation it belongs to. *)
Record admission := mkAdmission { agent : string; weight : Z; owner : Z }.

(** [launchable]: the snapshot of one launch target. *)
Record launchable := mkLaunchable {
  l_agent : string;
  l_compatibility : string;
  l_capabilities : Department.Capabilities;
  l_stableKey : string;
  l_rankingScope : string
}.

Record CapacityPublisher := mkPublisher {
  host : HostOptions.Options;
  generation : Z;
  targets : list launchable;
  byAgent : gmap string launchable;
  admitted : gmap Key admission;
  consumed : Z;
  draining : bool
}.

Implicit Types (p : CapacityPublisher) (k : Key).

(** The assignments made to the ledger under its lock. *)
Definition set_ledger p (adm : gmap Key admission) (c : Z) : CapacityPublisher :=
  mkPublisher (host p) (generation p) (targets p) (byAgent p) adm c (draining p).

Definition BeginDrain p : CapacityPublisher :=
  mkPublisher (host p) (generation p) (targets p) (byAgent p) (admitted p) (consumed p) true.

Definition placementSupported (c : Department.Capabilities) (pl : HostPlacement) : bool :=
  match pl with
  | HostPlacementPooled => Department.PoolingPermitted c
  | HostPlacementDedicated => Department.SupportsDedicated c
  | HostPlacementOther _ => false
  end.

(** [rankOf] saturates instead of wrapping. *)
Definition rankOf (available : Z) : Z :=
  if (MaxInt64 <? available)%Z then MaxInt64 else i64 available.

Definition AdmissionRefusedError (code : HostLinkErrorCode) (ag : string)
    (cause : option error) : error :=
  ETyped (TAdmissionRefusedError code ag) cause.

(** Another tenant is already charged: the loop over [p.admitted]. *)
Definition foreign_tenant p k : bool :=
  existsb (fun k' => bool_decide (TenantID k' ≠ TenantID k)) (map_to_list (admitted p)).*1.

(** [Admit]: the error, and the ledger. *)
Definition Admit p k (ag : string) : option error * CapacityPublisher :=
  match admitted p !! k with
  | Some existing =>
      if bool_decide (agent existing ≠ ag)
      then (Some (ETyped (TAdmissionConflictError k (agent existing) ag) None), p)
      else (None, set_ledger p
              (<[k := mkAdmission (agent existing) (weight existing) 0]> (admitted p)) (consumed p))
  | None =>
      if draining p then (Some (AdmissionRefusedError HostLinkErrorNotAdmitting ag None), p)
      else if bool_decide (HostOptions.IsolationClass (host p)
                           ≠ HostIsolationClassCrossTenantIsolated) && foreign_tenant p k
      then (Some (AdmissionRefusedError HostLinkErrorNotAdmitting ag None), p)
      else match byAgent p !! ag with
      | None => (Some (AdmissionRefusedError HostLinkErrorRuntimeUnavailable ag
                         (Some (ETyped (TUnknownAgentError ag) None))), p)
      | Some target =>
          let w := Department.AdmissionWeight (l_capabilities target) in
          if negb (placementSupported (l_capabilities target) (HostOptions.Placement (host p)))
          then (Some (AdmissionRefusedError HostLinkErrorRuntimeMismatch ag None), p)
          else if (u64 (HostOptions.Capacity (host p) - consumed p) <? w)%Z
          then (Some (AdmissionRefusedError HostLinkErrorNoCapacity ag None), p)
          else (None, set_ledger p (<[k := mkAdmission ag w 0]> (admitted p))
                        (u64 (consumed p + w)))
      end
  end.

Definition Release p k : bool * CapacityPublisher :=
  match admitted p !! k with
  | None => (false, p)
  | Some entry => (true, set_ledger p (delete k (admitted p)) (u64 (consumed p - weight entry)))
  end.

Definition Own p k (gen : Z) : bool * CapacityPublisher :=
  if (gen =? 0)%Z then (false, p)
  else match admitted p !! k with
  | None => (false, p)
  | Some entry =>
      if (owner entry =? 0)%Z
      then (true, set_ledger p
              (<[k := mkAdmission (agent entry) (weight entry) gen]> (admitted p)) (consumed p))
      else (owner entry =? gen, p)%Z
  end.

Definition ReleaseOwned p k (gen : Z) : bool * CapacityPublisher :=
  match admitted p !! k with
  | None => (false, p)
  | Some entry =>
      if (gen =? 0)%Z || negb (owner entry =? gen)%Z then (false, p)
      else (true, set_ledger p (delete k (admitted p)) (u64 (consumed p - weight entry)))
  end.

(** ** Advertisements *)

(** [HostLinkCapacityReport], the fields a target varies. *)
Record Report := mkReport {
  r_AgentID : string;
  r_RuntimeCompatibilityID : string;
  r_Accepting : bool;
  r_AvailableCapacity : Z;
  r_ObservedAt : Z;
  r_ExpiresAt : Z
}.

Record Advertisement := mkAdvertisement {
  a_RankingScope : string;
  a_StableKey : string;
  a_Rank : Z;
  a_Ranked : bool;
  a_DueAt : Z;
  a_Tombstone : bool;
  a_Report : Report
}.

(** [Advertisement.Expired]. *)
Definition Expired (a : Advertisement) (now : Z) : bool :=
  negb (now <? r_ExpiresAt (a_Report a))%Z.

(** The tuple of identities, length-prefixed, that [digest] hashes. *)
Fixpoint encode_parts (parts : list string) : string :=
  match parts with
  | [] => ""
  | part :: parts =>
      pretty (N.of_nat (String.length part)) +:+ ":" +:+ part +:+ encode_parts parts
  end.

Section publish.
Context (report_valid : HostOptions.Options → Z → Report → bool).
Context (sha256_hex : string → string).

Definition digest (parts : list string) : string := sha256_hex (encode_parts parts).

(** Pooled and dedicated as their wire strings. *)
Context (placement_string : HostPlacement → string).

Definition stableKey (ag compat : string) (pl : HostPlacement) (hostID : string) : string :=
  digest [ag; compat; placement_string pl; hostID].

Definition rankingScope (ag compat : string) (pl : HostPlacement) : string :=
  "launchtarget/" +:+ digest [ag; compat; placement_string pl].

(** One iteration of the loop of [Publish]. *)
Definition advertise (h : HostOptions.Options) (gen now cons : Z) (drain : bool)
    (t : launchable) : option Advertisement :=
  let accepting := negb drain && placementSupported (l_capabilities t) (HostOptions.Placement h) in
  let expires := (now + HostOptions.RegistryExpiry h)%Z in
  let available :=
    if accepting
    then (u64 (HostOptions.Capacity h - cons) / Department.AdmissionWeight (l_capabilities t))%Z
    else 0%Z in
  let report := mkReport (l_agent t) (l_compatibility t) accepting available now expires in
  if report_valid h gen report
  then Some (mkAdvertisement (l_rankingScope t) (l_stableKey t) (rankOf available) accepting
               expires drain report)
  else None.

(** [Publish]: [inl agent] is the [*AdvertisementError]. *)
Fixpoint publish_targets (p : CapacityPublisher) (now : Z) (ts : list launchable) :
    string + list Advertisement :=
  match ts with
  | [] => inr []
  | t :: ts =>
      match advertise (host p) (generation p) now (consumed p) (draining p) t with
      | None => inl (l_agent t)
      | Some a => match publish_targets p now ts with
                  | inl e => inl e
                  | inr rest => inr (a :: rest)
                  end
      end
  end.

Definition Publish p (now : Z) : string + list Advertisement := publish_targets p now (targets p).

(** [NewCapacityPublisher]: the snapshot loop, then a trial [Publish]. *)
Inductive InvalidCapacityOptions := InvalidTarget (agent : string) | Underivable (agent : string).

Context (MaxIDBytes : nat).

Fixpoint snapshot_targets (h : HostOptions.Options) (d : Department.Department)
    (agents : list string) : InvalidCapacityOptions + list launchable :=
  match agents with
  | [] => inr []
  | ag :: agents =>
      match Department.Target d ag with
      | None => inl (InvalidTarget ag)
      | Some t =>
          let compat := Department.target_compatibility t in
          let caps := Department.target_capabilities t in
          match Department.CompatibilityID_Validate MaxIDBytes compat,
                Department.Capabilities_Validate caps with
          | None, None =>
              match snapshot_targets h d agents with
              | inl e => inl e
              | inr rest =>
                  inr (mkLaunchable ag compat caps
                         (stableKey ag compat (HostOptions.Placement h) (HostOptions.HostID h))
                         (rankingScope ag compat (HostOptions.Placement h)) :: rest)
              end
          | _, _ => inl (InvalidTarget ag)
          end
      end
  end.

Definition NewCapacityPublisher (h : HostOptions.Options) (d : Department.Department)
    (gen now : Z) : InvalidCapacityOptions + CapacityPublisher :=
  match snapshot_targets h d (Department.AgentIDs d) with
  | inl e => inl e
  | inr ts =>
      let p := mkPublisher h gen ts (list_to_map ((fun t => (l_agent t, t)) <$> ts)) ∅ 0 false in
      match Publish p now with
      | inl ag => inl (Underivable ag)
      | inr _ => inr p
      end
  end.
End publish.

(** ** The ledger invariant *)

Definition total_weight (m : gmap Key admission) : Z :=
  map_fold (fun _ a acc => weight a + acc)%Z 0%Z m.

Lemma total_weight_insert m k a :
  m !! k = None → total_weight (<[k := a]> m) = (weight a + total_weight m)%Z.
Proof.
  intros. unfold total_weight.
  rewrite (map_fold_insert_L (fun _ a acc => weight a + acc)%Z 0%Z k a m); [done|intros; lia|done].
Qed.

Lemma total_weight_delete m k a :
  m !! k = Some a → total_weight m = (weight a + total_weight (delete k m))%Z.
Proof.
  intros. unfold total_weight.
  rewrite (map_fold_delete_L (fun _ a acc => weight a + acc)%Z 0%Z k a m); [done|intros; lia|done].
Qed.

Lemma total_weight_replace m k a b :
  m !! k = Some a → weight a = weight b → total_weight (<[k := b]> m) = total_weight m.
Proof.
  intros Hk Hw. rewrite (total_weight_delete m k a Hk), <-(insert_delete_eq m k b).
  rewrite total_weight_insert by apply lookup_delete_eq. lia.
Qed.

Record ledger_ok p : Prop := {
  lo_capacity : is_u64 (HostOptions.Capacity (host p));
  lo_targets ag t : byAgent p !! ag = Some t →
    (0 < Department.AdmissionWeight (l_capabilities t) < two64)%Z;
  lo_weights k a : admitted p !! k = Some a → (0 < weight a)%Z;
  lo_consumed : consumed p = total_weight (admitted p);
  lo_bound : (consumed p ≤ HostOptions.Capacity (host p))%Z;
  (** A Host that is not cross-tenant isolated holds one tenant at a time. *)
  lo_exclusive k1 k2 :
    HostOptions.IsolationClass (host p) ≠ HostIsolationClassCrossTenantIsolated →
    is_Some (admitted p !! k1) → is_Some (admitted p !! k2) → TenantID k1 = TenantID k2
}.

Lemma total_weight_nonneg m : (∀ k a, m !! k = Some a → (0 < weight a)%Z) → (0 ≤ total_weight m)%Z.
Proof.
  induction m as [|k a m Hk IH] using map_ind; [done|]. intros Hw.
  rewrite total_weight_insert by done.
  assert (0 < weight a)%Z by (apply (Hw k); apply lookup_insert_eq).
  assert (0 ≤ total_weight m)%Z; [|lia].
  apply IH. intros k' a' Hk'. apply (Hw k'). rewrite lookup_insert_ne; congruence.
Qed.

Lemma consumed_nonneg p : ledger_ok p → (0 ≤ consumed p)%Z.
Proof. intros H. rewrite (lo_consumed p H). apply total_weight_nonneg, (lo_weights p H). Qed.

Lemma weight_le_consumed p k a :
  ledger_ok p → admitted p !! k = Some a → (weight a ≤ consumed p)%Z.
Proof.
  intros H Hk. rewrite (lo_consumed p H), (total_weight_delete _ _ _ Hk).
  assert (0 ≤ total_weight (delete k (admitted p)))%Z; [|lia].
  apply total_weight_nonneg. intros k' a' [_ Hk']%lookup_delete_Some. by eapply (lo_weights p H).
Qed.

(** The room [Admit] computes is the true difference: it never wraps. *)
Lemma room_no_wrap p :
  ledger_ok p → u64 (HostOptions.Capacity (host p) - consumed p)
                = (HostOptions.Capacity (host p) - consumed p)%Z.
Proof.
  intros H. apply u64_small. pose proof (consumed_nonneg p H).
  pose proof (lo_bound p H). pose proof (lo_capacity p H). unfold is_u64 in *. lia.
Qed.

Lemma foreign_tenant_false p k :
  foreign_tenant p k = false ↔ ∀ k', is_Some (admitted p !! k') → TenantID k' = TenantID k.
Proof.
  unfold foreign_tenant. rewrite <-not_true_iff_false, existsb_exists. split.
  - intros Hn k' [a Ha]. destruct (decide (TenantID k' = TenantID k)) as [|Hne]; [done|].
    exfalso. apply Hn. exists k'. rewrite <-list_elem_of_In, list_elem_of_fmap.
    split; [|by apply bool_decide_eq_true]. exists (k', a). split; [done|].
    by apply elem_of_map_to_list.
  - intros Hall (k' & Hin & Hne%bool_decide_eq_true). apply Hne, Hall.
    apply list_elem_of_In, list_elem_of_fmap in Hin as ([k1 a] & -> & Hin).
    apply elem_of_map_to_list in Hin. by exists a.
Qed.

Inductive op :=
| OpAdmit (k : Key) (ag : string)
| OpRelease (k : Key)
| OpOwn (k : Key) (gen : Z)
| OpReleaseOwned (k : Key) (gen : Z)
| OpBeginDrain.

Definition step p (o : op) : CapacityPublisher :=
  match o with
  | OpAdmit k ag => (Admit p k ag).2
  | OpRelease k => (Release p k).2
  | OpOwn k gen => (Own p k gen).2
  | OpReleaseOwned k gen => (ReleaseOwned p k gen).2
  | OpBeginDrain => BeginDrain p
  end.

(** Replacing the owner of a charge keeps the ledger's accounting. *)
Lemma ledger_ok_reown p k a b :
  ledger_ok p → admitted p !! k = Some a → weight b = weight a →
  ledger_ok (set_ledger p (<[k := b]> (admitted p)) (consumed p)).
Proof.
  intros H Hk Hw. split; simpl; try apply H.
  - intros k' a' [[<- <-]|[_ ?]]%lookup_insert_Some; [rewrite Hw|]; by eapply (lo_weights p H).
  - rewrite (total_weight_replace _ _ a) by congruence. apply H.
  - intros k1 k2 Hi. rewrite !lookup_insert_is_Some. intros H1 H2.
    assert (∀ k', k = k' ∨ k ≠ k' ∧ is_Some (admitted p !! k') → is_Some (admitted p !! k')) as Hs.
    { intros k' [<-|[_ ?]]; [by exists a|done]. }
    apply (lo_exclusive p H); auto.
Qed.

(** Crediting a charge back keeps the accounting and never underflows. *)
Lemma ledger_ok_credit p k a :
  ledger_ok p → admitted p !! k = Some a →
  ledger_ok (set_ledger p (delete k (admitted p)) (u64 (consumed p - weight a))) ∧
  u64 (consumed p - weight a) = (consumed p - weight a)%Z.
Proof.
  intros H Hk. pose proof (weight_le_consumed p k a H Hk). pose proof (lo_weights p H _ _ Hk).
  pose proof (lo_bound p H). pose proof (lo_capacity p H).
  assert (u64 (consumed p - weight a) = consumed p - weight a)%Z as Hu
    by (apply u64_small; unfold is_u64 in *; lia).
  split; [|done]. split; simpl; try apply H.
  - intros k' a' [_ ?]%lookup_delete_Some. by eapply (lo_weights p H).
  - rewrite Hu, (lo_consumed p H), (total_weight_delete _ _ _ Hk). lia.
  - lia.
  - intros k1 k2 Hi [? [_ Hs1]%lookup_delete_Some] [? [_ Hs2]%lookup_delete_Some].
    apply (lo_exclusive p H); eauto.
Qed.

(** [Admit] of a session not yet charged, when nothing refuses it. *)
Lemma Admit_fresh p k ag p' :
  ledger_ok p → admitted p !! k = None → Admit p k ag = (None, p') →
  ∃ t, byAgent p !! ag = Some t ∧
    placementSupported (l_capabilities t) (HostOptions.Placement (host p)) = true ∧
    (consumed p + Department.AdmissionWeight (l_capabilities t) ≤ HostOptions.Capacity (host p))%Z ∧
    (HostOptions.IsolationClass (host p) ≠ HostIsolationClassCrossTenantIsolated →
     ∀ k', is_Some (admitted p !! k') → TenantID k' = TenantID k) ∧
    p' = set_ledger p
           (<[k := mkAdmission ag (Department.AdmissionWeight (l_capabilities t)) 0]> (admitted p))
           (consumed p + Department.AdmissionWeight (l_capabilities t)).
Proof.
  intros H Hk. unfold Admit. rewrite Hk.
  destruct (draining p); [done|].
  destruct (_ && _) eqn:Hiso; [done|].
  destruct (byAgent p !! ag) as [t|] eqn:Ht; [|done]. cbv zeta.
  destruct (placementSupported _ _) eqn:Hp; [|done]. simpl.
  rewrite room_no_wrap by done.
  destruct (_ <? _)%Z eqn:Hw; [done|]. apply Z.ltb_ge in Hw.
  pose proof (lo_targets p H _ _ Ht). pose proof (lo_capacity p H). pose proof (consumed_nonneg p H).
  rewrite u64_small by (unfold is_u64 in *; lia).
  intros [= <-]. exists t. split_and!; try done; [lia|].
  intros Hi. apply foreign_tenant_false. by rewrite bool_decide_eq_true_2 in Hiso by done.
Qed.

Lemma step_ok p o : ledger_ok p → ledger_ok (step p o).
Proof.
  intros H. destruct o as [k ag|k|k gen|k gen|]; simpl.
  - destruct (admitted p !! k) as [a|] eqn:Hk.
    + unfold Admit. rewrite Hk. case_bool_decide; simpl; [done|]. by apply (ledger_ok_reown p k a).
    + destruct (Admit p k ag) as [[e|] p'] eqn:Ha; simpl.
      * unfold Admit in Ha. rewrite Hk in Ha. repeat (case_match; simplify_eq/=); done.
      * apply Admit_fresh in Ha as (t & Ht & _ & Hc & Hex & ->); [|done..].
        pose proof (lo_targets p H _ _ Ht).
        split; simpl; try apply H; try lia.
        -- intros k' a' [[<- <-]|[_ ?]]%lookup_insert_Some; [simpl; lia|]. by eapply (lo_weights p H).
        -- rewrite total_weight_insert by done. simpl. rewrite (lo_consumed p H). lia.
        -- intros k1 k2 Hi. rewrite !lookup_insert_is_Some. specialize (Hex Hi).
           intros [<-|[_ Hs1]] [<-|[_ Hs2]]; [done|symmetry; by apply Hex|by apply Hex|].
           by apply (lo_exclusive p H).
  - unfold Release. destruct (admitted p !! k) as [a|] eqn:Hk; simpl; [|done].
    by apply (ledger_ok_credit p k a).
  - unfold Own. destruct (gen =? 0)%Z; [done|].
    destruct (admitted p !! k) as [a|] eqn:Hk; simpl; [|done].
    case_match; simpl; [|done]. by apply (ledger_ok_reown p k a).
  - unfold ReleaseOwned. destruct (admitted p !! k) as [a|] eqn:Hk; simpl; [|done].
    destruct (_ || _); simpl; [done|]. by apply (ledger_ok_credit p k a).
  - by destruct H.
Qed.

(** C19 No interleaving of [Admit], [Release], [Own], [ReleaseOwned] and
    [BeginDrain] ever over-admits: the consumed weight stays the exact sum of
    the charges held, never exceeds the capacity, never wraps, and a Host that
    is not cross-tenant isolated never holds two tenants. *)
Theorem ledger_invariant p os (H : ledger_ok p) : ledger_ok (fold_left step os p).
Proof. revert p H. induction os as [|o os IH]; simpl; [done|]. intros p H. by apply IH, step_ok. Qed.

(** A charge a successor's [Admit] has claimed is out of reach of the
    residency that took it: whatever generation its ending path names,
    [ReleaseOwned] credits nothing and changes nothing. *)
Theorem Admit_fences_credit p k ag p' gen (H : Admit p k ag = (None, p')) :
  ReleaseOwned p' k gen = (false, p').
Proof.
  assert (∃ a, admitted p' !! k = Some a ∧ owner a = 0%Z) as (a & Hk & Ho).
  { unfold Admit in H. repeat (case_match; simplify_eq/=); rewrite lookup_insert_eq; eauto. }
  unfold ReleaseOwned. rewrite Hk, Ho.
  destruct (Z.eqb_spec gen 0), (Z.eqb_spec 0 gen); done || lia.
Qed.

(** A residency that owns its charge credits it exactly once: [Own] by a
    non-zero generation followed by [ReleaseOwned] of that generation returns
    the whole weight, a second [ReleaseOwned] or [Release] credits nothing, and
    no other generation could have credited it. *)
Theorem Own_ReleaseOwned p k a gen p1 (H : ledger_ok p) (Ha : admitted p !! k = Some a)
    (Ho : Own p k gen = (true, p1)) :
  (∀ g, g ≠ gen → ReleaseOwned p1 k g = (false, p1)) ∧
  ∃ p2, ReleaseOwned p1 k gen = (true, p2) ∧
    consumed p2 = (consumed p - weight a)%Z ∧ admitted p2 = delete k (admitted p) ∧
    (∀ g, ReleaseOwned p2 k g = (false, p2)) ∧ Release p2 k = (false, p2).
Proof.
  unfold Own in Ho. destruct (gen =? 0)%Z eqn:Hg; [done|]. rewrite Ha in Ho.
  assert (∃ b, admitted p1 !! k = Some b ∧ owner b = gen ∧ weight b = weight a ∧
    delete k (admitted p1) = delete k (admitted p) ∧ consumed p1 = consumed p) as (b & Hk & Hb & Hw & Hd & Hc).
  { destruct (owner a =? 0)%Z; simplify_eq/=.
    - eexists. split_and!; [apply lookup_insert_eq|done..|by rewrite delete_insert_eq|done].
    - match goal with He : (_ =? _)%Z = true |- _ => apply Z.eqb_eq in He end. eauto 6. }
  unfold ReleaseOwned. rewrite Hk, Hb. split.
  - intros g Hne. destruct (g =? 0)%Z; simpl; [done|].
    replace (gen =? g)%Z with false by (symmetry; apply Z.eqb_neq; lia). done.
  - rewrite Hg, Z.eqb_refl. simpl. eexists. split; [done|]. simpl.
    rewrite Hd, Hw, Hc. destruct (ledger_ok_credit p k a H Ha) as [_ ->].
    unfold Release; simpl. rewrite lookup_delete_eq. done.
Qed.

(** ** Advertisements agree with admission *)

Section advertise.
Context (report_valid : HostOptions.Options → Z → Report → bool).

(** An advertisement is honest: with its ledger well-formed, a Host that
    advertises a target with some available capacity admits one more session
    of that agent (for a tenant it may hold), and one that advertises none
    refuses it. *)
Theorem advertise_admits p t now a k (H : ledger_ok p)
    (Ht : byAgent p !! l_agent t = Some t) (Hk : admitted p !! k = None)
    (Htenant : foreign_tenant p k = false)
    (Ha : advertise report_valid (host p) (generation p) now (consumed p) (draining p) t = Some a) :
  (0 < r_AvailableCapacity (a_Report a))%Z ↔ (Admit p k (l_agent t)).1 = None.
Proof.
  unfold advertise in Ha. case_match; simplify_eq/=.
  unfold Admit. rewrite Hk, Ht, Htenant, andb_false_r.
  rewrite room_no_wrap by done.
  pose proof (lo_targets p H _ _ Ht) as Hw. pose proof (lo_bound p H).
  destruct (draining p); simpl; [done|].
  destruct (placementSupported _ _); simpl; [|done].
  set (w := Department.AdmissionWeight _) in *.
  set (room := (HostOptions.Capacity (host p) - consumed p)%Z) in *.
  destruct (room <? w)%Z eqn:Hlt; simpl.
  - apply Z.ltb_lt in Hlt. rewrite Z.div_small by lia. done.
  - apply Z.ltb_ge in Hlt. split; [done|]. intros _. apply Z.div_str_pos. lia.
Qed.

(** A draining Host advertises every target as an unranked tombstone with
    no capacity, and admits no session it does not already hold. *)
Theorem drain_advertises_nothing p now ads
    (Hp : Publish report_valid (BeginDrain p) now = inr ads) :
  length ads = length (targets p) ∧
  Forall (fun a => a_Tombstone a = true ∧ a_Ranked a = false ∧ a_Rank a = 0%Z ∧
                   r_Accepting (a_Report a) = false ∧ r_AvailableCapacity (a_Report a) = 0%Z) ads ∧
  ∀ k ag, admitted p !! k = None → (Admit (BeginDrain p) k ag).1 ≠ None.
Proof.
  split_and!.
  - unfold Publish in Hp. simpl in Hp. revert ads Hp.
    induction (targets p) as [|t ts IH]; simpl; intros ads Hp; [by simplify_eq|].
    repeat (case_match; simplify_eq/=). by rewrite (IH l).
  - unfold Publish in Hp. simpl in Hp. revert ads Hp.
    induction (targets p) as [|t ts IH]; simpl; intros ads Hp; [by simplify_eq|].
    unfold advertise in Hp. repeat (case_match; simplify_eq/=). constructor; auto.
  - intros k ag Hk. unfold Admit. simpl. by rewrite Hk.
Qed.
End advertise.

(** The saturating rank never inverts the placement order: it is monotone in
    the available capacity over the whole unsigned range and fits an [int64]. *)
Theorem rankOf_monotone a b (H : (0 ≤ a ≤ b)%Z) (Hb : is_u64 b) :
  (0 ≤ rankOf a ≤ rankOf b)%Z ∧ (rankOf b ≤ MaxInt64)%Z.
Proof.
  unfold rankOf, is_u64, MaxInt64, two64 in *.
  destruct (Z.ltb_spec 9223372036854775807 a), (Z.ltb_spec 9223372036854775807 b);
    rewrite ?i64_small by (unfold two63; lia); lia.
Qed.

(** ** The digest's encoding is unambiguous *)

Lemma string_length_app s t : String.length (s +:+ t) = String.length s + String.length t.
Proof. induction s; simpl; [done|]. by f_equal. Qed.

Lemma string_app_inj_length s1 s2 t1 t2 :
  String.length s1 = String.length s2 → s1 +:+ t1 = s2 +:+ t2 → s1 = s2 ∧ t1 = t2.
Proof.
  revert s2. induction s1 as [|c s1 IH]; intros [|d s2]; simpl; try done.
  intros [= Hl] [= -> Ht]. apply IH in Ht as [-> ->]; done.
Qed.

Lemma string_app_cons c a b : String c a +:+ b = String c (a +:+ b).
Proof. done. Qed.
Lemma string_app_nil b : "" +:+ b = b.
Proof. done. Qed.

Fixpoint no_colon (s : string) : bool :=
  match s with
  | EmptyString => true
  | String c s => negb (bool_decide (c = ":"%char)) && no_colon s
  end.

Lemma split_at_colon a b x y :
  no_colon a = true → no_colon b = true →
  a +:+ ":" +:+ x = b +:+ ":" +:+ y → a = b ∧ x = y.
Proof.
  revert b. induction a as [|c a IH]; intros [|d b] Ha Hb;
    rewrite ?string_app_cons, ?string_app_nil.
  - by intros [= ->].
  - intros [= <- _]. simpl in Hb. done.
  - intros [= -> _]. simpl in Ha. done.
  - intros [= -> Heq]. simpl in *. apply andb_prop in Ha as [_ Ha], Hb as [_ Hb].
    destruct (IH b Ha Hb Heq) as [-> ->]. done.
Qed.

Lemma pretty_N_char_no_colon n : pretty_N_char n ≠ ":"%char.
Proof. unfold pretty_N_char. repeat case_match; done. Qed.

Lemma pretty_N_go_no_colon n s : no_colon s = true → no_colon (pretty_N_go n s) = true.
Proof.
  revert s. induction (N.lt_wf_0 n) as [n _ IH]; intros s Hs.
  destruct (decide (0 < n)%N).
  - rewrite pretty_N_go_step by done. apply IH; [by apply N.div_lt|].
    simpl. rewrite Hs, bool_decide_eq_false_2; [done|apply pretty_N_char_no_colon].
  - assert (n = 0%N) as -> by lia. done.
Qed.

Lemma pretty_no_colon (n : N) : no_colon (pretty n) = true.
Proof.
  unfold pretty, pretty_N. case_decide; [done|]. by apply pretty_N_go_no_colon.
Qed.

(** The tuple that is hashed into a stable key or ranking scope determines
    its members: whatever bytes the identities contain, the separator included,
    two different tuples have different encodings. *)
Theorem encode_parts_inj ps qs (H : encode_parts ps = encode_parts qs) : ps = qs.
Proof.
  assert (∀ (n : N) x, pretty n +:+ x ≠ "") as Hne.
  { intros n x Heq. destruct (pretty n) eqn:Hp; [|done]. revert Hp.
    unfold pretty, pretty_N. case_decide as Hn; [done|].
    rewrite pretty_N_go_step by lia. intros Hg.
    assert (∀ (m : N) s, s ≠ "" → pretty_N_go m s ≠ "") as Hgo; [|by eapply Hgo in Hg].
    intros m. induction (N.lt_wf_0 m) as [m _ IH]. intros s Hs.
    destruct (decide (0 < m)%N); [|assert (m = 0%N) as -> by lia; done].
    rewrite pretty_N_go_step by done. apply IH; [by apply N.div_lt|done]. }
  revert qs H. induction ps as [|p ps IH]; intros [|q qs]; simpl; intros H; [done|..].
  - by apply eq_sym, Hne in H.
  - by apply Hne in H.
  - apply split_at_colon in H as [Hl H]; [|apply pretty_no_colon..].
    apply (inj pretty) in Hl.
    apply string_app_inj_length in H as [-> H]; [|lia]. by rewrite (IH qs H).
Qed.

(** ** Witnesses *)

Definition sample_launchable : launchable :=
  mkLaunchable "a" "v1" Department.sample_capabilities "key" "scope".

Definition sample_publisher : CapacityPublisher :=
  mkPublisher HostOptions.sample_options 1 [sample_launchable] {["a" := sample_launchable]} ∅ 0 false.

Lemma sample_ok : ledger_ok sample_publisher.
Proof.
  split; simpl; try done.
  - intros ag t [<- <-]%lookup_singleton_Some. done.
  - intros k1 k2 _ [? H]. by rewrite lookup_empty in H.
Qed.

Definition key1 : Key := mkKey "t" "s1".
Definition key2 : Key := mkKey "t" "s2".

Lemma ledger_invariant_witness :
  let os := [OpAdmit key1 "a"; OpAdmit key2 "a"; OpRelease key1] in
  ledger_ok sample_publisher ∧ ledger_ok (fold_left step os sample_publisher).
Proof. split; [exact sample_ok|]. exact (ledger_invariant sample_publisher _ sample_ok). Defined.

Definition sample_admitted : CapacityPublisher := (Admit sample_publisher key1 "a").2.

Lemma Admit_fences_credit_witness :
  Admit sample_publisher key1 "a" = (None, sample_admitted) ∧
  ReleaseOwned sample_admitted key1 0 = (false, sample_admitted).
Proof.
  split; [reflexivity|].
  exact (Admit_fences_credit sample_publisher key1 "a" sample_admitted 0 eq_refl).
Defined.

Lemma Own_ReleaseOwned_witness :
  ∃ p2, ReleaseOwned (Own sample_admitted key1 7).2 key1 7 = (true, p2) ∧ consumed p2 = 0%Z.
Proof.
  destruct (Own_ReleaseOwned sample_admitted key1 (mkAdmission "a" 2 0) 7 (Own sample_admitted key1 7).2)
    as (_ & p2 & H1 & H2 & _).
  - exact (step_ok sample_publisher (OpAdmit key1 "a") sample_ok).
  - reflexivity.
  - reflexivity.
  - exists p2. split; [exact H1|exact H2].
Defined.

Lemma advertise_admits_witness :
  ∃ a, advertise (fun _ _ _ => true) HostOptions.sample_options 1 100 0 false sample_launchable = Some a ∧
       ((0 < r_AvailableCapacity (a_Report a))%Z ↔ (Admit sample_publisher key1 "a").1 = None).
Proof.
  eexists. split; [reflexivity|].
  exact (advertise_admits (fun _ _ _ => true) sample_publisher sample_launchable 100 _ key1
           sample_ok eq_refl eq_refl eq_refl eq_refl).
Defined.

Lemma drain_advertises_nothing_witness :
  ∃ ads, Publish (fun _ _ _ => true) (BeginDrain sample_publisher) 100 = inr ads ∧ length ads = 1.
Proof.
  eexists. split; [reflexivity|].
  exact (proj1 (drain_advertises_nothing (fun _ _ _ => true) sample_publisher 100 _ eq_refl)).
Defined.

Lemma rankOf_monotone_witness :
  (0 ≤ rankOf 5 ≤ rankOf 18446744073709551615)%Z ∧ (rankOf 18446744073709551615 ≤ MaxInt64)%Z.
Proof. apply (rankOf_monotone 5 18446744073709551615); [lia|]. split; [lia|reflexivity]. Defined.

Lemma encode_parts_inj_witness :
  encode_parts ["ab"; "c"] = "2:ab1:c" ∧ ["ab"; "c"] = ["ab"; "c"].
Proof. split; [reflexivity|]. exact (encode_parts_inj ["ab"; "c"] ["ab"; "c"] eq_refl). Defined.
End Capacity.
