(* ===== verification/Fence.v ===== *)
(** * Fence.v: the epoch fence of one attach

    [epochFence] of [internal/residency/heartbeat.go] and its exported view
    [Guard] of [guard.go].  One fence is shared by the heartbeat, the command
    consumer and the release path of a residency, so reading and ending it are
    calls on shared state: [FenceEvents] is the interface a component's calls
    offer, [latch] the state behind it.                                       *)
From Stdlib Require Import ZArith.
From stdpp Require Import base list strings gmap.
From S2P Require Import Prelude Wire Errors Effects.

Module Fence.

Local Open Scope prog_scope.

Definition ErrEpochSuperseded : error := ESentinel "residency.ErrEpochSuperseded".
Definition ErrFenceConflict : error := ESentinel "residency.ErrFenceConflict".
Definition ErrLeaseNotHeld : error := ESentinel "residency.ErrLeaseNotHeld".

Inductive LossReason :=
| LossReasonLeaseLost
| LossReasonEpochSuperseded
| LossReasonFenceConflict.

#[export] Instance LossReason_eq_dec : EqDecision LossReason.
Proof. solve_decision. Defined.

(** ** The latch: the mutable half of [epochFence] *)

Record latch := mkLatch { ended : bool; reason : LossReason }.

Definition newEpochFence : latch := mkLatch false LossReasonLeaseLost.

(** [end]: the first reason wins. *)
Definition end_ (f : latch) (r : LossReason) : latch := if negb (ended f) then mkLatch true r else f.

(** [endedBy]. *)
Definition endedBy (f : latch) : option LossReason := if ended f then Some (reason f) else None.

(** ** The fence as calls *)

Class FenceEvents (E : Type → Type) := {
  ev_endedBy : E (option LossReason);
  (** Whether the lease's [Lost] channel is closed. *)
  ev_lost : E bool;
  ev_end : LossReason → E unit;
  (** Which call an observation is. *)
  as_endedBy : obs E → option (option LossReason);
  as_lost : obs E → option bool;
  as_end : obs E → option LossReason;
  as_endedBy_ev x : as_endedBy (Obs ev_endedBy x) = Some x;
  as_endedBy_lost x : as_endedBy (Obs ev_lost x) = None;
  as_endedBy_end r x : as_endedBy (Obs (ev_end r) x) = None;
  as_lost_ev x : as_lost (Obs ev_lost x) = Some x;
  as_lost_endedBy x : as_lost (Obs ev_endedBy x) = None;
  as_lost_end r x : as_lost (Obs (ev_end r) x) = None;
  as_end_ev r x : as_end (Obs (ev_end r) x) = Some r;
  as_end_endedBy x : as_end (Obs ev_endedBy x) = None;
  as_end_lost x : as_end (Obs ev_lost x) = None
}.

Section fence.
Context {E : Type → Type} `{FE : FenceEvents E}.

(** [held]. *)
Definition held : prog E (option error) :=
  let! ended := call ev_endedBy in
  match ended with
  | Some _ => Ret (Some ErrLeaseNotHeld)
  | None =>
      let! lost := call ev_lost in
      Ret (if lost then Some ErrLeaseNotHeld else None)
  end.

(** [write]. *)
Definition write (run : prog E (option error)) : prog E (option error) :=
  let! refused := held in
  match refused with
  | Some err => Ret (Some err)
  | None =>
      let! err := run in
      match err with
      | Some e =>
          if errors_is e ErrEpochSuperseded then do! call (ev_end LossReasonEpochSuperseded) in Ret err
          else if errors_is e ErrFenceConflict then do! call (ev_end LossReasonFenceConflict) in Ret err
          else Ret err
      | None => Ret err
      end
  end.

(** [write] around a body that also yields a value: the closures that assign a
    captured variable before returning their error. *)
Definition write_value {A} (run : prog E (res A)) : prog E (res A) :=
  let! refused := held in
  match refused with
  | Some err => Ret (Err err)
  | None =>
      let! r := run in
      match r with
      | Err e =>
          if errors_is e ErrEpochSuperseded then do! call (ev_end LossReasonEpochSuperseded) in Ret r
          else if errors_is e ErrFenceConflict then do! call (ev_end LossReasonFenceConflict) in Ret r
          else Ret r
      | Ok _ => Ret r
      end
  end.

(** [Guard]: a view of one fence; the zero value holds none. *)
Inductive Guard := mkGuard (fence : bool).

Definition Guard_Held (g : Guard) : prog E (option error) :=
  match g with mkGuard true => held | mkGuard false => Ret (Some ErrLeaseNotHeld) end.

(** [Lost]: [None] is the nil channel, which never fires. *)
Definition Guard_Lost (g : Guard) : prog E (option bool) :=
  match g with
  | mkGuard true => let! l := call ev_lost in Ret (Some l)
  | mkGuard false => Ret None
  end.

Definition Guard_Write (g : Guard) (run : prog E (option error)) : prog E (option error) :=
  match g with mkGuard true => write run | mkGuard false => Ret (Some ErrLeaseNotHeld) end.

(** ** What a shared latch guarantees to its readers *)

Definition was_ended (h : list (obs E)) : bool :=
  existsb (fun o => bool_decide (is_Some (as_end o))) h.

(** [endedBy] answers nil only if nobody has ended the fence before: the one
    fact the mutex around [ended] provides, whoever else writes it. *)
Definition latch_rely (h : list (obs E)) (o : obs E) : Prop :=
  as_endedBy o = Some None → was_ended h = false.

Definition no_guarantee (h : list (obs E)) (o : obs E) : Prop := True.

(** The fence was consulted by the last two calls and is held. *)
Definition just_held (h : list (obs E)) : Prop :=
  ∃ h0 o1 o2, h = h0 ++ [o1; o2] ∧ as_endedBy o1 = Some None ∧ as_lost o2 = Some false.

Lemma just_held_intro h : just_held (h ++ [Obs ev_endedBy None] ++ [Obs ev_lost false]).
Proof. exists h, (Obs ev_endedBy None), (Obs ev_lost false). by rewrite as_endedBy_ev, as_lost_ev. Qed.

Lemma just_held_snoc h : just_held ((h ++ [Obs ev_endedBy None]) ++ [Obs ev_lost false]).
Proof. rewrite <-app_assoc. apply just_held_intro. Qed.

Lemma was_ended_app h1 h2 : was_ended (h1 ++ h2) = was_ended h1 || was_ended h2.
Proof. apply existsb_app. Qed.

(** A fenced write, for any guarantee that allows the fence's own calls: its
    body starts right after the fence answered that it is held. *)
Lemma write_safe (R G : list (obs E) → obs E → Prop) (Q : list (obs E) → option error → Prop) h run :
  (∀ h' o, (is_Some (as_endedBy o) ∨ is_Some (as_lost o) ∨ is_Some (as_end o)) → R h' o → G h' o) →
  (∀ r, Q (h ++ [Obs ev_endedBy (Some r)]) (Some ErrLeaseNotHeld)) →
  Q (h ++ [Obs ev_endedBy None] ++ [Obs ev_lost true]) (Some ErrLeaseNotHeld) →
  safe R G (fun h' e => Q h' e ∧ ∀ r, Q (h' ++ [Obs (ev_end r) tt]) e)
     (h ++ [Obs ev_endedBy None] ++ [Obs ev_lost false]) run →
  safe R G Q h (write run).
Proof.
  intros HG HQ1 HQ2 Hrun. unfold write, held. simpl.
  intros en Hen. split; [apply HG; [left; by rewrite as_endedBy_ev|done]|].
  destruct en as [lr|]; simpl; [done|].
  intros lo Hlo. split; [apply HG; [right; left; by rewrite as_lost_ev|done]|].
  rewrite <-app_assoc. destruct lo; simpl; [done|].
  eapply safe_bind_spec; [done|]. simpl.
  intros h' [e|] [Hq Hq']; simpl; [|done].
  destruct (errors_is e ErrEpochSuperseded); simpl.
  { intros [] Hx. split; [apply HG; [right; right; by rewrite as_end_ev|done]|]. done. }
  destruct (errors_is e ErrFenceConflict); simpl; [|done].
  intros [] Hx. split; [apply HG; [right; right; by rewrite as_end_ev|done]|]. done.
Qed.

(** Once the fence has been ended, no fenced write runs again: against any
    environment in which an ended latch stays ended, [write run] makes one
    query of the latch, performs none of [run]'s calls and reports that the
    lease is not held. *)
Theorem write_after_end h run t e (Hend : was_ended h = true)
    (Hrun : runs (write run) t e) (Hrel : relied latch_rely h t) :
  e = Some ErrLeaseNotHeld ∧ ∃ r, t = [Obs ev_endedBy (Some r)].
Proof.
  unfold write, held in Hrun. simpl in Hrun. destruct Hrun as (x & t' & -> & Hrun).
  apply relied_cons in Hrel as [Hr _]. unfold latch_rely in Hr. rewrite as_endedBy_ev in Hr.
  destruct x as [r|]; simpl in Hrun.
  - destruct Hrun as [-> ->]. eauto.
  - specialize (Hr eq_refl). congruence.
Qed.

(** A refusal that proves a successor closes the fence: a write whose body
    reports a superseded epoch or a fence conflict has ended the fence by the
    time it returns, and any other outcome of the body leaves the fence
    untouched by the write. *)
Theorem write_ends run t e (Hrun : runs (write run) t e) :
  (∃ r, t = [Obs ev_endedBy (Some r)] ∧ e = Some ErrLeaseNotHeld) ∨
  (t = [Obs ev_endedBy None] ++ [Obs ev_lost true] ∧ e = Some ErrLeaseNotHeld) ∨
  ∃ tr, runs run tr e ∧
    let pre := [Obs ev_endedBy None] ++ [Obs ev_lost false] ++ tr in
    let superseded := match e with Some e => errors_is e ErrEpochSuperseded | None => false end in
    let conflict := match e with Some e => errors_is e ErrFenceConflict | None => false end in
    if superseded then t = pre ++ [Obs (ev_end LossReasonEpochSuperseded) tt]
    else if conflict then t = pre ++ [Obs (ev_end LossReasonFenceConflict) tt]
    else t = pre.
Proof.
  unfold write, held in Hrun. simpl in Hrun. destruct Hrun as (x & t' & -> & Hrun).
  destruct x as [r|]; simpl in Hrun.
  { destruct Hrun as [-> ->]. eauto. }
  destruct Hrun as ([] & t2 & -> & Hrun); simpl in Hrun.
  { destruct Hrun as [-> ->]. eauto. }
  right; right. apply runs_bind in Hrun as (t3 & t4 & e' & -> & Hr & Hrest).
  destruct e' as [e'|]; simpl in Hrest.
  - destruct (errors_is e' ErrEpochSuperseded) eqn:H1; simpl in Hrest.
    { destruct Hrest as ([] & ? & -> & -> & ->). exists t3. cbv zeta. by rewrite H1. }
    destruct (errors_is e' ErrFenceConflict) eqn:H2; simpl in Hrest.
    { destruct Hrest as ([] & ? & -> & -> & ->). exists t3. cbv zeta. by rewrite H1, H2. }
    destruct Hrest as [-> ->]. exists t3. cbv zeta. by rewrite H1, H2, app_nil_r.
  - destruct Hrest as [-> ->]. exists t3. cbv zeta. by rewrite app_nil_r.
Qed.

(** A captured value changes nothing: forgetting it leaves [write]. *)
Lemma write_value_write {A} (run : prog E (res A)) :
  prog_eq (let! r := write_value run in Ret (err_of r)) (write (let! r := run in Ret (err_of r))).
Proof.
  unfold write_value, write, held. intros t a. simpl.
  split; intros (x & t' & -> & H); exists x, t'; (split; [done|]); destruct x; simpl in *; try done.
  all: destruct H as (x & t2 & -> & H); exists x, t2; (split; [done|]); destruct x; simpl in *; try done.
  all: rewrite ?runs_bind in *.
  - destruct H as (t3 & t4 & r & -> & (t5 & t6 & r' & -> & Hr & H5)%runs_bind & H4).
    exists (t5), (t6 ++ t4), (err_of r'). rewrite <-app_assoc. split; [done|]. split.
    { apply runs_bind. exists t5, [], r'. by rewrite app_nil_r. }
    destruct r' as [|e]; simpl in *; [destruct H5 as [-> ->]; done|].
    destruct (errors_is e ErrEpochSuperseded); simpl in *.
    { destruct H5 as ([] & ? & -> & -> & ->). destruct H4 as [-> ->]. by exists tt, []. }
    destruct (errors_is e ErrFenceConflict); simpl in *.
    { destruct H5 as ([] & ? & -> & -> & ->). destruct H4 as [-> ->]. by exists tt, []. }
    destruct H5 as [-> ->]. done.
  - destruct H as (t3 & t4 & r & -> & (t5 & t6 & r' & -> & Hr & [-> ->])%runs_bind & H4).
    rewrite app_nil_r. exists (t5 ++ t4), [], r'. rewrite app_nil_r. split; [done|]. split.
    { apply runs_bind. exists t5, t4, r'. split; [done|]. split; [done|].
      destruct r' as [|e]; simpl in *; [by destruct H4 as [-> ->]|].
      destruct (errors_is e ErrEpochSuperseded); simpl in *.
      { destruct H4 as ([] & ? & -> & -> & ->). by exists tt, []. }
      destruct (errors_is e ErrFenceConflict); simpl in *.
      { destruct H4 as ([] & ? & -> & -> & ->). by exists tt, []. }
      by destruct H4 as [-> ->]. }
    split; [done|]. destruct r' as [|e]; simpl in *; [by destruct H4 as [_ ->]|].
    destruct (errors_is e ErrEpochSuperseded); simpl in *; [by destruct H4 as ([] & ? & _ & _ & ->)|].
    destruct (errors_is e ErrFenceConflict); simpl in *; [by destruct H4 as ([] & ? & _ & _ & ->)|].
    by destruct H4 as [_ ->].
Qed.

(** The zero [Guard] authorizes nothing and performs no call. *)
Lemma zero_guard_refuses run t e :
  runs (Guard_Write (mkGuard false) run) t e → t = [] ∧ e = Some ErrLeaseNotHeld.
Proof. done. Qed.
End fence.

(** ** The latch satisfies the rely *)

(** The calls a latch answers. *)
Inductive fenceE : Type → Type :=
| EndedBy : fenceE (option LossReason)
| Lost : fenceE bool
| End (r : LossReason) : fenceE unit.

#[export] Program Instance fenceE_events : FenceEvents fenceE := {|
  ev_endedBy := EndedBy;
  ev_lost := Lost;
  ev_end := End;
  as_endedBy o := match o with Obs e x =>
    match e in fenceE X return X → _ with EndedBy => Some | _ => fun _ => None end x end;
  as_lost o := match o with Obs e x =>
    match e in fenceE X return X → _ with Lost => Some | _ => fun _ => None end x end;
  as_end o := match o with Obs e x =>
    match e in fenceE X return X → _ with End r => fun _ => Some r | _ => fun _ => None end x end
|}.
Solve Obligations with done.

(** The handler: a latch, and whether the lease has been lost. *)
Definition fence_handler : handler fenceE (latch * bool) := fun X e =>
  match e in fenceE X return latch * bool → X * (latch * bool) with
  | EndedBy => fun s => (endedBy s.1, s)
  | Lost => fun s => (s.2, s)
  | End r => fun s => (tt, (end_ s.1 r, s.2))
  end.

Lemma fence_handler_relied {A} (p : prog fenceE A) s a s' t h :
  (was_ended h = true → ended s.1 = true) →
  exec fence_handler p s = (a, s', t) →
  relied latch_rely h t.
Proof.
  revert s s' t h. induction p as [b|X e k IH]; intros s s' t h Hinv; simpl.
  - intros [= <- <- <-] [|] ? ?; done.
  - destruct (fence_handler X e s) as [x s1] eqn:Hh.
    destruct (exec fence_handler (k x) s1) as [[a2 s2] t2] eqn:He.
    intros [= <- <- <-] t1 o t3 Heq.
    assert (latch_rely h (Obs e x)) as Hfirst.
    { unfold latch_rely. destruct e; simpl in *; try done. intros [= ->].
      destruct (was_ended h) eqn:Hw; [|done]. specialize (Hinv eq_refl).
      unfold endedBy in Hh. rewrite Hinv in Hh. by simplify_eq. }
    assert (was_ended (h ++ [Obs e x]) = true → ended s1.1 = true) as Hinv1.
    { unfold was_ended in *. rewrite existsb_app, orb_true_iff. simpl.
      destruct e; simpl in *; simplify_eq/=.
      1,2: intros [H|H]; [by apply Hinv|done].
      intros _. unfold end_. by destruct (ended s.1) eqn:?. }
    destruct t1 as [|o1 t1]; simplify_eq/=.
    + by rewrite app_nil_r.
    + specialize (IH x s1 s2 _ _ Hinv1 He t1 o t3 eq_refl). by rewrite <-app_assoc in IH.
Qed.

(** ** Witnesses *)

Lemma write_after_end_witness :
  let t := [Obs EndedBy (Some LossReasonLeaseLost)] in
  runs (write (Ret None)) t (Some ErrLeaseNotHeld) ∧
  ∃ r, t = [Obs EndedBy (Some r)].
Proof.
  intros t. assert (runs (write (E := fenceE) (Ret None)) t (Some ErrLeaseNotHeld)) as Hr.
  { exists (Some LossReasonLeaseLost), []. split; [reflexivity|]. split; reflexivity. }
  split; [exact Hr|].
  refine (proj2 (write_after_end [Obs (End LossReasonLeaseLost) tt] (Ret None) t _ eq_refl Hr _)).
  apply relied_cons_2; [intros [=]|apply relied_nil].
Defined.

Lemma write_ends_witness :
  let t := [Obs EndedBy None; Obs Lost false; Obs (End LossReasonEpochSuperseded) tt] in
  runs (write (Ret (Some ErrEpochSuperseded))) t (Some ErrEpochSuperseded) ∧
  ∃ r, t = [Obs EndedBy None; Obs Lost false] ++ [Obs (End r) tt].
Proof.
  intros t.
  assert (runs (write (E := fenceE) (Ret (Some ErrEpochSuperseded))) t (Some ErrEpochSuperseded)) as Hr.
  { exists None, (tail t). split; [reflexivity|]. exists false, [Obs (End LossReasonEpochSuperseded) tt].
    split; [reflexivity|]. exists tt, []. split; [reflexivity|]. split; reflexivity. }
  split; [exact Hr|].
  destruct (write_ends _ _ _ Hr) as [(r & Ht & _)|[[Ht _]|(tr & _ & Ht)]];
    [apply (f_equal length) in Ht; discriminate..|].
  exists LossReasonEpochSuperseded. reflexivity.
Defined.
End Fence.
