(* ===== verification/Heartbeat.v ===== *)
(** * Heartbeat.v: advertising, surrendering and releasing a residency

    [Heartbeat] of [internal/residency/heartbeat.go].  Its collaborators (the
    shared registry, the durable location store, the admission ledger, the
    clock, the fence's latch, its own mutexes and channels) are calls of [HB].
    The release flags, guarded by [releaseMu], and the beat counters, guarded by
    [mu], are passed as state.                                                *)
From Stdlib Require Import ZArith.
From stdpp Require Import base list strings gmap.
From S2P Require Import Prelude Wire Errors Effects HostOptions Registry Fence.

Module Heartbeat.
Import Fence.
Local Open Scope prog_scope.

Definition ErrTeardownOwnedElsewhere : error := ESentinel "residency.ErrTeardownOwnedElsewhere".
Definition ErrNothingToRelease : error := ESentinel "residency.ErrNothingToRelease".

Inductive Mutex := WriteMu | ReleaseMu | Mu.

(** The arms of the loop's [select]. *)
Inductive Arm := ArmCtxDone | ArmStopped | ArmLost | ArmTimer.

(** The non-blocking re-check after the timer fired: [None] is [default]. *)
Inductive Poll := PollCtxDone | PollStopped | PollLost | PollDefault.

Record LostResidency {Rt : Type} := mkLost {
  lr_Key : Key;
  lr_AgentID : string;
  lr_CompatibilityID : string;
  lr_LeaseEpoch : Z;
  lr_Generation : Z;
  lr_Runtime : Rt;
  lr_Reason : LossReason
}.
Arguments LostResidency : clear implicits.
Arguments mkLost {Rt}.

Inductive HB {Rt Tgt : Type} : Type → Type :=
| HLock (m : Mutex) : HB unit
| HUnlock (m : Mutex) : HB unit
| HGet (k : Key) : HB (option (Registry.Entry Rt Tgt))
| HMarkReleasing (k : Key) (g : Z) : HB (option (Registry.Entry Rt Tgt))
| HResumeResident (k : Key) (g : Z) : HB (option (Registry.Entry Rt Tgt))
| HBeginTeardown (k : Key) (g : Z) : HB (option (Registry.Entry Rt Tgt) * bool)
| HRemoveByGeneration (k : Key) (g : Z) : HB bool
| HPublishResidency (o : RegistryObservation) : HB (option error)
| HTombstoneResidency (k : Key) (epoch : Z) : HB (option error)
| HDraining : HB bool
| HNow : HB Z
| HEndedBy : HB (option LossReason)
| HLeaseLost : HB bool
| HEnd (r : LossReason) : HB unit
| HSelect : HB Arm
| HPoll : HB Poll
| HStopAndWait : HB unit
| HCloseDone : HB unit
| HResidencyLost (l : LostResidency Rt) : HB unit
| HCloseSettled : HB unit.
Arguments HB : clear implicits.

#[export] Program Instance HB_fence {Rt Tgt} : FenceEvents (HB Rt Tgt) := {|
  ev_endedBy := HEndedBy;
  ev_lost := HLeaseLost;
  ev_end := HEnd;
  as_endedBy o := match o with Obs e x =>
    match e in HB _ _ X return X → _ with HEndedBy => Some | _ => fun _ => None end x end;
  as_lost o := match o with Obs e x =>
    match e in HB _ _ X return X → _ with HLeaseLost => Some | _ => fun _ => None end x end;
  as_end o := match o with Obs e x =>
    match e in HB _ _ X return X → _ with HEnd r => fun _ => Some r | _ => fun _ => None end x end
|}.
Solve Obligations with done.

(** [residencyOf]: a draining residency advertises releasing. *)
Definition residencyOf (st : Registry.ResidencyState) : SessionResidency :=
  match st with
  | Registry.StateResident => SessionResidencyResident
  | _ => SessionResidencyReleasing
  end.

Record Heartbeat {Rt : Type} := mkHeartbeat {
  hb_host : HostOptions.Options;
  hb_hostGeneration : Z;
  hb_key : Key;
  hb_agent : string;
  hb_compat : string;
  hb_epoch : Z;
  hb_generation : Z;
  hb_runtime : Rt
}.
Arguments Heartbeat : clear implicits.
Arguments mkHeartbeat {Rt}.

(** The fields guarded by [releaseMu]. *)
Record release := mkRelease {
  begun : bool;
  beginErr : option error;
  finished : bool;
  finishErr : option error
}.

(** The fields guarded by [mu]. *)
Record counters := mkCounters { beats : Z; failures : Z }.

Section heartbeat.
Context {Rt Tgt : Type}.
Abbreviation P := (prog (HB Rt Tgt)).
Abbreviation Entry := (Registry.Entry Rt Tgt).
Implicit Types (h : Heartbeat Rt) (r : release) (c : counters).

(** [mu.Lock(); defer mu.Unlock()] around [body]. *)
Definition locked {A} (m : Mutex) (body : P A) : P A :=
  do! call (HLock m) in
  let! a := body in
  do! call (HUnlock m) in
  Ret a.

Definition ReleaseError h (cause : error) : error := ETyped (TReleaseError (hb_key h)) (Some cause).

(** [Heartbeat.observation]. *)
Definition observation h (entry : Entry) (residency : SessionResidency) (accepting : bool) :
    P RegistryObservation :=
  let! now := call HNow in
  Ret (mkObservation (TenantID (hb_key h)) (SessionID (hb_key h))
         (HostOptions.HostID (hb_host h)) (hb_hostGeneration h)
         (Registry.AgentID entry) (Registry.CompatibilityID entry)
         (HostOptions.Placement (hb_host h)) (HostOptions.InternalEndpoint (hb_host h))
         residency accepting (hb_epoch h) now (now + HostOptions.RegistryExpiry (hb_host h))%Z).

Definition leaseHeld : P (option error) := held.

(** [releasable]: nil, or why this release may not go ahead. *)
Definition releasable h : P (option error) :=
  let! got := call (HGet (hb_key h)) in
  match got with
  | None => Ret (Some ErrNothingToRelease)
  | Some entry =>
      if bool_decide (Registry.Generation entry ≠ hb_generation h)
      then Ret (Some ErrNothingToRelease)
      else
        let! lost := leaseHeld in
        match lost with
        | Some err => Ret (Some err)
        | None => Ret (if Registry.TeardownOwned entry then Some ErrTeardownOwnedElsewhere else None)
        end
  end.

(** [beginRelease]. *)
Definition beginRelease h : P (option error) :=
  let! refused := releasable h in
  match refused with
  | Some err => Ret (Some (ReleaseError h err))
  | None =>
      locked WriteMu (
        let! marked := call (HMarkReleasing (hb_key h) (hb_generation h)) in
        match marked with
        | None => Ret (Some (ReleaseError h ErrNothingToRelease))
        | Some entry =>
            let! obs := observation h entry SessionResidencyReleasing false in
            let! err := write (call (HPublishResidency obs)) in
            Ret (match err with Some e => Some (ReleaseError h e) | None => None end)
        end)
  end.

(** [BeginRelease]: once, and its outcome is kept. *)
Definition BeginRelease h r : P (option error * release) :=
  locked ReleaseMu (
    if begun r then Ret (beginErr r, r)
    else
      let! err := beginRelease h in
      Ret (err, mkRelease true err (finished r) (finishErr r))).

(** [AbortRelease]. *)
Definition AbortRelease h r : P (option error * release) :=
  locked ReleaseMu (
    if finished r then Ret (Some (ReleaseError h ErrNothingToRelease), r)
    else
      let! lost := leaseHeld in
      match lost with
      | Some err => Ret (Some (ReleaseError h err), r)
      | None =>
          let! draining := call HDraining in
          if draining then Ret (Some (ReleaseError h ErrNothingToRelease), r)
          else
            locked WriteMu (
              let! resumed := call (HResumeResident (hb_key h) (hb_generation h)) in
              match resumed with
              | None => Ret (Some (ReleaseError h ErrNothingToRelease), r)
              | Some entry =>
                  let r' := mkRelease false None (finished r) (finishErr r) in
                  let! obs := observation h entry SessionResidencyResident true in
                  let! err := write (call (HPublishResidency obs)) in
                  match err with
                  | None => Ret (None, r')
                  | Some e =>
                      let! ended := call HEndedBy in
                      Ret (match ended with Some _ => Some (ReleaseError h e) | None => None end, r')
                  end
              end)
      end).

(** [finishRelease]. *)
Definition finishRelease h : P (option error) :=
  let! refused := releasable h in
  let final :=
    match refused with
    | Some e => errors_is e ErrNothingToRelease || errors_is e ErrTeardownOwnedElsewhere
    | None => false
    end in
  match refused, final with
  | Some e, true => Ret (Some (ReleaseError h e))
  | _, _ =>
      locked WriteMu (
        let! unwritten :=
          match refused with
          | Some e => Ret (Some e)
          | None => write (call (HTombstoneResidency (hb_key h) (hb_epoch h)))
          end in
        do! call (HRemoveByGeneration (hb_key h) (hb_generation h)) in
        Ret (match unwritten with Some e => Some (ReleaseError h e) | None => None end))
  end.

(** [FinishRelease]: stop the beat, then once. *)
Definition FinishRelease h r : P (option error * release) :=
  do! call HStopAndWait in
  locked ReleaseMu (
    if finished r then Ret (finishErr r, r)
    else
      let! err := finishRelease h in
      Ret (err, mkRelease (begun r) (beginErr r) true err)).

(** [surrender]: claim the teardown, end the fence, and say who lost what. *)
Definition surrender h (reason : LossReason) : P (option (LostResidency Rt)) :=
  let! claimed := call (HBeginTeardown (hb_key h) (hb_generation h)) in
  do! call (HEnd reason) in
  match claimed with
  | (Some entry, true) =>
      Ret (Some (mkLost (hb_key h) (hb_agent h) (hb_compat h) (hb_epoch h)
                   (Registry.Generation entry) (hb_runtime h) reason))
  | _ => Ret None
  end.

(** [beat]: whether to keep beating, what was lost, and the counters. *)
Definition beat h c : P (bool * option (LostResidency Rt) * counters) :=
  locked WriteMu (
    let! got := call (HGet (hb_key h)) in
    match got with
    | None => Ret (false, None, c)
    | Some entry =>
        if bool_decide (Registry.Generation entry ≠ hb_generation h) then Ret (false, None, c)
        else
          let! ended := call HEndedBy in
          match ended with
          | Some reason => let! lost := surrender h reason in Ret (false, lost, c)
          | None =>
              let! gone := leaseHeld in
              match gone with
              | Some _ => let! lost := surrender h LossReasonLeaseLost in Ret (false, lost, c)
              | None =>
                  let! accepting :=
                    (if Registry.Accepting entry
                     then let! d := call HDraining in Ret (negb d)
                     else Ret false) in
                  let! obs := observation h entry (residencyOf (Registry.State entry)) accepting in
                  let! err := write (call (HPublishResidency obs)) in
                  match err with
                  | Some _ =>
                      let! ended := call HEndedBy in
                      match ended with
                      | Some reason => let! lost := surrender h reason in Ret (false, lost, c)
                      | None =>
                          do! locked Mu (Ret tt) in
                          Ret (true, None, mkCounters (beats c) (failures c + 1))
                      end
                  | None =>
                      do! locked Mu (Ret tt) in
                      Ret (true, None, mkCounters (beats c + 1) 0)
                  end
              end
          end
    end).

(** [loop]: at most [fuel] iterations; [None] is still beating. *)
Fixpoint loop (fuel : nat) h c : P (option (option (LostResidency Rt)) * counters) :=
  match fuel with
  | O => Ret (None, c)
  | S fuel =>
      let! arm := call HSelect in
      match arm with
      | ArmCtxDone | ArmStopped => Ret (Some None, c)
      | ArmLost => let! lost := surrender h LossReasonLeaseLost in Ret (Some lost, c)
      | ArmTimer =>
          let! poll := call HPoll in
          match poll with
          | PollCtxDone | PollStopped => Ret (Some None, c)
          | PollLost => let! lost := surrender h LossReasonLeaseLost in Ret (Some lost, c)
          | PollDefault =>
              let! kept := beat h c in
              let '(keep, lost, c) := kept in
              if negb keep then Ret (Some lost, c) else loop fuel h c
          end
      end
  end.

(** [run]: [None] when the fuel ran out with the loop still beating. *)
Definition run (fuel : nat) h c : P (option counters) :=
  let! ended := loop fuel h c in
  match ended with
  | (None, _) => Ret None
  | (Some lost, c) =>
      do! call HCloseDone in
      do! match lost with Some l => call (HResidencyLost l) | None => Ret tt end in
      do! call HCloseSettled in
      Ret (Some c)
  end.

(** ** What an observation is *)

Abbreviation O := (obs (HB Rt Tgt)).

Definition is_location_write (o : O) : bool :=
  match o with Obs e _ =>
    match e with HPublishResidency _ | HTombstoneResidency _ _ => true | _ => false end end.

Definition is_tombstone_ok (o : O) : bool :=
  match o with Obs e x =>
    match e in HB _ _ X return X → bool with
    | HTombstoneResidency _ _ => fun err => bool_decide (err = None) | _ => fun _ => false end x end.

Definition is_remove (o : O) : bool :=
  match o with Obs e _ => match e with HRemoveByGeneration _ _ => true | _ => false end end.

(** A [BeginTeardown] this caller won. *)
Definition is_won (o : O) : bool :=
  match o with Obs e x =>
    match e in HB _ _ X return X → bool with
    | HBeginTeardown _ _ => fun (a : option Entry * bool) => bool_decide (is_Some a.1) && a.2 | _ => fun _ => false end x end.

Definition is_teardown (o : O) : bool :=
  match o with Obs e _ => match e with HBeginTeardown _ _ => true | _ => false end end.

Definition is_notified (o : O) : bool :=
  match o with Obs e _ => match e with HResidencyLost _ => true | _ => false end end.

(** [Get] answered that the registry no longer holds this generation. *)
Definition is_replaced (g : Z) (o : O) : bool :=
  match o with Obs e x =>
    match e in HB _ _ X return X → bool with
    | HGet _ => fun a : option Entry => match a with
                         | Some en => bool_decide (Registry.Generation en ≠ g)
                         | None => true
                         end
    | _ => fun _ => false end x end.

Definition mutex_of (o : O) : option (Mutex * bool) :=
  match o with Obs e _ =>
    match e with HLock m => Some (m, true) | HUnlock m => Some (m, false) | _ => None end end.

(** Whether this goroutine holds [writeMu] after the history. *)
Definition holding (t : list O) : bool :=
  fold_left (fun b o => match mutex_of o with
                        | Some (WriteMu, acquired) => acquired
                        | _ => b
                        end) t false.

(** ** Location writes are fenced and serialized *)

Definition fenced_write (t : list O) (o : O) : Prop :=
  is_location_write o = true → just_held t ∧ holding t = true.

Lemma holding_snoc t o :
  holding (t ++ [o]) = match mutex_of o with Some (WriteMu, acquired) => acquired | _ => holding t end.
Proof. unfold holding. by rewrite fold_left_app. Qed.

Ltac fenced :=
  repeat first
    [ symbolic_step
    | progress intros
    | match goal with |- _ ∧ _ => split | |- True => exact I end
    | match goal with |- fenced_write _ _ => unfold fenced_write; simpl end
    | discriminate
    | refine (just_held_snoc _)
    | rewrite !holding_snoc; reflexivity
    | case_match; simpl ].

Abbreviation fenced_safe := (safe any_env fenced_write (fun _ _ => True)).

Lemma BeginRelease_fenced h r t : fenced_safe t (BeginRelease h r).
Proof. unfold BeginRelease, beginRelease, releasable, leaseHeld, write, held, observation, locked. fenced. Qed.

Lemma AbortRelease_fenced h r t : fenced_safe t (AbortRelease h r).
Proof. unfold AbortRelease, leaseHeld, write, held, observation, locked. fenced. Qed.

Lemma FinishRelease_fenced h r t : fenced_safe t (FinishRelease h r).
Proof. unfold FinishRelease, finishRelease, releasable, leaseHeld, write, held, observation, locked. fenced. Qed.

Lemma surrender_fenced h reason t : fenced_safe t (surrender h reason).
Proof. unfold surrender. fenced. Qed.

Lemma beat_fenced h c t : fenced_safe t (beat h c).
Proof. unfold beat, surrender, leaseHeld, write, held, observation, locked. fenced. Qed.

Lemma loop_S fuel h c :
  loop (S fuel) h c =
  (let! arm := call HSelect in
   match arm with
   | ArmCtxDone | ArmStopped => Ret (Some None, c)
   | ArmLost => let! lost := surrender h LossReasonLeaseLost in Ret (Some lost, c)
   | ArmTimer =>
       let! poll := call HPoll in
       match poll with
       | PollCtxDone | PollStopped => Ret (Some None, c)
       | PollLost => let! lost := surrender h LossReasonLeaseLost in Ret (Some lost, c)
       | PollDefault =>
           let! kept := beat h c in
           let '(keep, lost, c) := kept in
           if negb keep then Ret (Some lost, c) else loop fuel h c
       end
   end).
Proof. done. Qed.

#[local] Opaque surrender beat loop.

Lemma loop_fenced fuel h c t : fenced_safe t (loop fuel h c).
Proof.
  revert c t. induction fuel as [|fuel IH]; intros c t; [done|]. rewrite loop_S. simpl.
  intros arm _. split; [done|]. destruct arm; simpl; [done..| |].
  - eapply safe_bind_spec; [apply surrender_fenced|]. done.
  - intros poll _. split; [done|]. destruct poll; simpl; [done..| |].
    + eapply safe_bind_spec; [apply surrender_fenced|]. done.
    + eapply safe_bind_spec; [apply beat_fenced|]. intros t' [[[] lost] c'] _; simpl; [apply IH|done].
Qed.

Lemma run_fenced fuel h c t : fenced_safe t (run fuel h c).
Proof.
  unfold run. eapply safe_bind_spec; [apply loop_fenced|].
  intros t' [[lost|] c'] _; simpl; [|done]. fenced.
Qed.

(** ** Every operation, and what all of them guarantee *)

Inductive operation :=
| OpBeginRelease (r : release)
| OpAbortRelease (r : release)
| OpFinishRelease (r : release)
| OpRun (fuel : nat) (c : counters).

Definition perform h (op : operation) : P unit :=
  match op with
  | OpBeginRelease r => do! BeginRelease h r in Ret tt
  | OpAbortRelease r => do! AbortRelease h r in Ret tt
  | OpFinishRelease r => do! FinishRelease h r in Ret tt
  | OpRun fuel c => do! run fuel h c in Ret tt
  end.

(** C29 Every write of the durable location, by any operation of the heartbeat
    against any collaborators, is made with the write mutex held and right
    after the fence was found held: an ended fence or a lost lease is always
    noticed first, and a beat and a release never write concurrently. *)
Theorem location_writes_fenced h op t (Hrun : runs (perform h op) t tt) t1 o t2
    (Ht : t = t1 ++ o :: t2) (Hw : is_location_write o = true) :
  just_held t1 ∧ holding t1 = true.
Proof.
  assert (fenced_safe [] (perform h op)) as Hs.
  { destruct op; unfold perform; (apply safe_bind_spec with (Q1 := fun _ _ => True); [|done]);
      auto using BeginRelease_fenced, AbortRelease_fenced, FinishRelease_fenced, run_fenced. }
  destruct (safe_runs_any _ _ _ _ _ Hs Hrun) as [_ HG]. by apply (HG _ _ _ Ht).
Qed.

(** ** Loss notifications *)

Definition is_end (o : O) : bool :=
  match o with Obs e _ => match e with HEnd _ => true | _ => false end end.

Definition notified_once (t : list O) (o : O) : Prop :=
  is_notified o = true →
  seen is_won t = true ∧ seen is_end t = true ∧ seen is_notified t = false.

(** [lost] is claimed only once the teardown is won and the fence ended, and
    nothing has been notified yet. *)
Definition claimed_by (t : list O) (lost : option (LostResidency Rt)) : Prop :=
  seen is_notified t = false ∧
  (is_Some lost → seen is_won t = true ∧ seen is_end t = true).

Abbreviation notifying := (safe any_env notified_once).

Lemma surrender_notifies h reason t :
  seen is_notified t = false → notifying claimed_by t (surrender h reason).
Proof.
  intros Ht. Transparent surrender. unfold surrender. simpl. Opaque surrender.
  intros claimed _. split; [done|]. intros [] _. split; [done|].
  destruct claimed as [[e|] []]; simpl; (split; [autorewrite with trace; by rewrite Ht|]);
    intros [? [=]]; autorewrite with trace; simpl; by rewrite !orb_true_r.
Qed.

Lemma beat_notifies h c t :
  seen is_notified t = false →
  notifying (fun t' a => claimed_by t' a.1.2) t (beat h c).
Proof.
  intros Ht. Transparent beat. unfold beat, leaseHeld, write, held, observation, locked. Opaque beat.
  assert (∀ b : bool, b = false → b || false = false) as Hf by (by intros ? ->).
  repeat first
    [ symbolic_step
    | match goal with
      | |- safe _ _ _ _ (bind (bind _ _) _) => apply safe_bind
      | |- safe _ _ _ _ (bind (surrender _ _) _) =>
          eapply safe_bind_spec; [apply surrender_notifies; autorewrite with trace; simpl;
            rewrite ?Ht; reflexivity | simpl; intros ? ? [? ?]]
      | |- ∀ _ : _, _ → _ ∧ _ => intros ? _; split; [done|]
      | |- claimed_by _ _ => split; [autorewrite with trace; simpl; rewrite ?Ht; try done; by rewrite ?orb_false_r|]
      | |- is_Some None → _ => by intros [? ?]
      end
    | case_match; simpl ].
  all: try (intros Hl; autorewrite with trace; simpl; rewrite ?orb_false_r; auto).
Qed.

Lemma loop_notifies fuel h c t :
  seen is_notified t = false →
  notifying (fun t' a => claimed_by t' (default None a.1)) t (loop fuel h c).
Proof.
  assert (∀ t, seen is_notified t = false → claimed_by t None) as Hnone.
  { intros t' ?. split; [done|by intros [? ?]]. }
  revert c t. induction fuel as [|fuel IH]; intros c t Ht; [by apply Hnone|]. rewrite loop_S. simpl.
  intros arm _. split; [done|].
  assert (∀ o, is_notified o = false → seen is_notified (t ++ [o]) = false) as Hsnoc.
  { intros o Ho. autorewrite with trace. by rewrite Ht, Ho. }
  destruct arm; simpl; [auto..| |].
  - eapply safe_bind_spec; [apply surrender_notifies; auto|]. by intros t' lost.
  - intros poll _. split; [done|].
    assert (seen is_notified ((t ++ [Obs HSelect ArmTimer]) ++ [Obs HPoll poll]) = false) as Hp.
    { rewrite seen_app, Hsnoc; done. }
    destruct poll; simpl; [auto..| |].
    + eapply safe_bind_spec; [apply surrender_notifies; auto|]. by intros t' lost.
    + eapply safe_bind_spec; [apply beat_notifies; auto|].
      intros t' [[keep lost] c'] [Hq Hl]; simpl in *. destruct keep; simpl; [by apply IH|done].
Qed.

(** A heartbeat reports the loss of its residency at most once, and only
    after it won the teardown claim on its own generation (so no release tears
    the same runtime down) and ended the fence (so no command is admitted
    under the lost epoch while the loss is handled). *)
Theorem loss_notified_once fuel h c t b (Hrun : runs (run fuel h c) t b) t1 o t2
    (Ht : t = t1 ++ o :: t2) (Hn : is_notified o = true) :
  seen is_won t1 = true ∧ seen is_end t1 = true ∧ seen is_notified t1 = false.
Proof.
  assert (notifying (fun _ _ => True) [] (run fuel h c)) as Hs.
  { unfold run. eapply safe_bind_spec; [by apply loop_notifies|].
    intros t' [[[l|]|] c'] [Hq Hl]; simpl in *; try done.
    intros [] _. split; [done|]. intros [] _. split; [|by intros].
    intros _. autorewrite with trace. rewrite Hq. simpl. rewrite !orb_false_r. naive_solver. }
  destruct (safe_runs_any _ _ _ _ _ Hs Hrun) as [_ HG]. by apply (HG _ _ _ Ht).
Qed.

(** A beat gives the loop up only for cause: the registry no longer holds
    this generation, or the residency was surrendered.  A publish that failed
    without ending the fence is counted and the loop keeps beating. *)
Theorem beat_keeps_on h c t keep lost c' (Hrun : runs (beat h c) t (keep, lost, c')) :
  if keep
  then lost = None ∧ seen is_teardown t = false ∧
       (c' = mkCounters (beats c + 1) 0 ∨ c' = mkCounters (beats c) (failures c + 1))
  else c' = c ∧ (seen (is_replaced (hb_generation h)) t || seen is_teardown t = true).
Proof.
  set (Q := fun (t : list O) (a : bool * option (LostResidency Rt) * counters) =>
    if a.1.1
    then a.1.2 = None ∧ seen is_teardown t = false ∧
         (a.2 = mkCounters (beats c + 1) 0 ∨ a.2 = mkCounters (beats c) (failures c + 1))
    else a.2 = c ∧ (seen (is_replaced (hb_generation h)) t || seen is_teardown t = true)).
  assert (safe any_env (fun _ _ => True) Q [] (beat h c)) as Hs.
  { Transparent beat surrender.
    unfold beat, surrender, leaseHeld, write, held, observation, locked. Opaque beat surrender.
    repeat first
      [ symbolic_step
      | match goal with
        | |- ∀ _ : _, _ → _ ∧ _ => intros ? _; split; [done|]
        end
      | progress case_match; simpl ].
    all: unfold Q; simpl; autorewrite with trace; simpl; rewrite ?orb_true_r; auto.
    all: split; auto; case_bool_decide; naive_solver. }
  apply (safe_runs_any _ _ _ _ _ Hs Hrun).
Qed.

(** ** Releases *)

(** A release that reports success told the truth to every observer: the
    tombstone was accepted by the location store before the residency was
    removed from the process registry, it was removed by its own generation,
    and the beat had been stopped before any of it.  A repeated finish performs
    no registry or store call and reports the first one's outcome. *)
Theorem FinishRelease_order h r t err r' (Hrun : runs (FinishRelease h r) t (err, r')) :
  finished r' = true ∧ finishErr r' = err ∧
  if finished r
  then r' = r ∧ t = [Obs HStopAndWait tt; Obs (HLock ReleaseMu) tt; Obs (HUnlock ReleaseMu) tt]
  else
    begun r' = begun r ∧ hd_error t = Some (Obs HStopAndWait tt) ∧
    (err = None →
     ∃ t1 t2 x, t = t1 ++ [Obs (HTombstoneResidency (hb_key h) (hb_epoch h)) None;
                           Obs (HRemoveByGeneration (hb_key h) (hb_generation h)) x] ++ t2 ∧
                seen is_remove t1 = false).
Proof.
  unfold FinishRelease, finishRelease, releasable, leaseHeld, write, held, locked in Hrun.
  simpl in Hrun. destruct r as [bg be fin fe]; simpl in *.
  repeat first
    [ progress simplify_eq/=
    | match goal with
      | H : ∃ _, _ |- _ => destruct H
      | H : _ ∧ _ |- _ => destruct H
      | H : runs (match ?x with _ => _ end) _ _ |- _ => destruct x eqn:?; simpl in H
      | H : runs (bind (match ?x with _ => _ end) _) _ _ |- _ => destruct x eqn:?; simpl in H
      | x : unit |- _ => destruct x
      end
    | case_match ].
  all: split_and!; try done.
  intros _. by eexists [_; _; _; _; _; _; _; _], _, _.
Qed.
End heartbeat.

(** ** Witnesses *)

Definition sample_entry : Registry.Entry unit unit :=
  Registry.mkEntry (mkKey "t" "s") "a" tt "v1" tt 4 1 Registry.StateResident true 0 false.

Definition sample_heartbeat : Heartbeat unit :=
  mkHeartbeat HostOptions.sample_options 1 (mkKey "t" "s") "a" "v1" 4 1 tt.

(** Collaborators that succeed; the state is the arms the loop's [select] takes. *)
Definition sample_world : handler (HB unit unit) (list Arm) := fun X e =>
  match e in HB _ _ X return list Arm → X * list Arm with
  | HLock _ | HUnlock _ | HEnd _ | HStopAndWait | HCloseDone | HResidencyLost _ | HCloseSettled =>
      fun s => (tt, s)
  | HGet _ | HMarkReleasing _ _ | HResumeResident _ _ => fun s => (Some sample_entry, s)
  | HBeginTeardown _ _ => fun s => ((Some sample_entry, true), s)
  | HRemoveByGeneration _ _ => fun s => (true, s)
  | HPublishResidency _ | HTombstoneResidency _ _ => fun s => (None, s)
  | HDraining | HLeaseLost => fun s => (false, s)
  | HNow => fun s => (10%Z, s)
  | HEndedBy => fun s => (None, s)
  | HSelect => fun s => (hd ArmCtxDone s, tail s)
  | HPoll => fun s => (PollDefault, s)
  end.

Definition sample_release : release := mkRelease true None false None.

Definition sample_run := exec sample_world (run 5 sample_heartbeat (mkCounters 0 0)) [ArmTimer; ArmLost].

Lemma sample_runs : runs (run 5 sample_heartbeat (mkCounters 0 0)) sample_run.2 sample_run.1.1.
Proof. apply (exec_runs sample_world _ [ArmTimer; ArmLost] _ sample_run.1.2). vm_compute. reflexivity. Qed.

Lemma loss_notified_once_witness :
  seen is_won (take 19 sample_run.2) = true ∧ seen is_notified sample_run.2 = true.
Proof.
  split; [|vm_compute; reflexivity].
  refine (proj1 (loss_notified_once 5 sample_heartbeat (mkCounters 0 0) sample_run.2 _ sample_runs
    (take 19 sample_run.2) (nth 19 sample_run.2 (Obs HCloseDone tt)) (drop 20 sample_run.2) _ _)).
  - vm_compute. reflexivity.
  - vm_compute. reflexivity.
Defined.

Definition sample_performed :=
  exec sample_world (perform sample_heartbeat (OpFinishRelease sample_release)) [].

Lemma location_writes_fenced_witness : holding (take 8 sample_performed.2) = true.
Proof.
  refine (proj2 (location_writes_fenced sample_heartbeat (OpFinishRelease sample_release)
    sample_performed.2 _ (take 8 sample_performed.2) (nth 8 sample_performed.2 (Obs HCloseDone tt))
    (drop 9 sample_performed.2) _ _)).
  - apply (exec_runs sample_world _ [] _ []). vm_compute. reflexivity.
  - vm_compute. reflexivity.
  - vm_compute. reflexivity.
Defined.

Definition sample_beat := exec sample_world (beat sample_heartbeat (mkCounters 3 2)) [].

Lemma beat_keeps_on_witness :
  sample_beat.1.1 = (true, None, mkCounters 4 0) ∧ seen is_teardown sample_beat.2 = false.
Proof.
  split; [vm_compute; reflexivity|].
  refine (proj1 (proj2 (beat_keeps_on sample_heartbeat (mkCounters 3 2) sample_beat.2
    true None (mkCounters 4 0) _))).
  apply (exec_runs sample_world _ [] _ []). vm_compute. reflexivity.
Defined.

Definition sample_finish := exec sample_world (FinishRelease sample_heartbeat sample_release) [].

Lemma FinishRelease_order_witness :
  sample_finish.1.1.1 = None ∧ finished sample_finish.1.1.2 = true.
Proof.
  split; [vm_compute; reflexivity|].
  refine (proj1 (FinishRelease_order sample_heartbeat sample_release sample_finish.2 None _ _)).
  apply (exec_runs sample_world _ [] _ []). vm_compute. reflexivity.
Defined.
End Heartbeat.
