(* ===== verification/Commands.v ===== *)
(** * Commands.v: the data of a session's durable commands

    The types [internal/commands] shares between its consumer and its two
    appliers ([consumer.go], [apply.go], [disposition.go]), and the checks of a
    command's private body ([bodyclass], [inputbody], [createbody],
    [controlbody], [gateresponse]).  The JSON decoders and the identifier
    validators belong to other modules: they are parameters of the checks.    *)
From Stdlib Require Import ZArith.
From stdpp Require Import base list strings gmap.
From S2P Require Import Prelude Wire Errors.

Module Commands.

(** ** Durable states and kinds *)

Inductive State :=
| StatePending | StateClaimed | StateApplying | StateApplied | StateRejected
| StateOther (s : string).

#[export] Instance State_eq_dec : EqDecision State.
Proof. solve_decision. Defined.

(** [State.Terminal]. *)
Definition Terminal (s : State) : bool :=
  match s with StateApplied | StateRejected => true | _ => false end.

(** [State.known]. *)
Definition known (s : State) : bool := match s with StateOther _ => false | _ => true end.

Inductive Kind :=
| KindCreate | KindRestore | KindInput | KindInterrupt | KindGateResponse
| KindOther (s : string).

#[export] Instance Kind_eq_dec : EqDecision Kind.
Proof. solve_decision. Defined.

(** [Kind.known]. *)
Definition Kind_known (k : Kind) : bool := match k with KindOther _ => false | _ => true end.

(** ** The inbox's view of a command, and what processing it answered *)

Record Command := mkCommand {
  c_TenantID : string;
  c_SessionID : string;
  c_CommandID : string;
  c_AcceptedOrder : Z;
  c_State : State;
  c_RuntimeCommandID : Z
}.

Record Outcome := mkOutcome { o_State : State; PrefixOwned : bool }.

(** ** Private payloads *)

Record ObjectReference := mkRef { ObjectID : string; Revision : string }.

#[export] Instance ObjectReference_eq_dec : EqDecision ObjectReference.
Proof. solve_decision. Defined.

Definition no_ref : ObjectReference := mkRef "" "".

Record Payload := mkPayload { Body : string; Ref : ObjectReference }.

Definition empty (s : string) : bool := bool_decide (s = "").

(** [Payload.present]. *)
Definition present (p : Payload) : bool := negb (empty (Body p)) || bool_decide (Ref p ≠ no_ref).

(** [Payload.wellFormed]: at most one of the two is set. *)
Definition wellFormed (p : Payload) : bool := empty (Body p) || bool_decide (Ref p = no_ref).

(** ** Gates *)

Record Gate := mkGate {
  GateID : string;
  Open : bool;
  OwnerHostID : string;
  OwnerEpoch : Z;
  OpenedEventID : string;
  OpenedJournalSeq : Z
}.

Definition zero_gate : Gate := mkGate "" false "" 0 "" 0.

(** [department.RuntimeCommand]; a UUID is its 128-bit value, zero when unset. *)
Record RuntimeCommand := mkRuntimeCommand {
  rc_CommandID : string;
  rc_RuntimeCommandID : Z;
  rc_Kind : Kind;
  rc_Payload : string;
  rc_PayloadRef : ObjectReference;
  rc_AttemptID : string;
  rc_Principal : option string;
  rc_Metadata : string
}.

(** ** Attempts *)

Definition MaxAttemptIDBytes : nat := 256.

(** [AttemptID.Validate]. *)
Definition AttemptID_Validate (id : string) : option error :=
  if empty id then Some (ApplyError RefusalInvalidAttempt "" None)
  else if (MaxAttemptIDBytes <? String.length id)%nat then Some (ApplyError RefusalInvalidAttempt "" None)
  else if negb (utf8_valid id) then Some (ApplyError RefusalInvalidAttempt "" None)
  else None.

(** ** Reading a private body *)

(** [bodyclass.Members]. *)
Record Members := mkMembers { m_Principal : option string; m_Metadata : string }.

Definition no_members : Members := mkMembers None "".

(** [bodyclass.Permanent]: whether no Host could ever read the body. *)
Definition Permanent (err : error) : bool :=
  match errors_as (fun t => match t with TRequestValidationError c => Some c | _ => None end) err with
  | Some (RequestValidationCodeInvalidJSON | RequestValidationCodeDuplicateField
         | RequestValidationCodeMissingField | RequestValidationCodeInvalidField) => true
  | Some RequestValidationCodeOther => false
  | None =>
      bool_decide (is_Some (errors_as (fun t => match t with TJSONSyntaxError => Some tt | _ => None end) err))
      || bool_decide (is_Some (errors_as (fun t => match t with TJSONUnmarshalTypeError => Some tt | _ => None end) err))
  end.

Definition MalformedError (pkg : BodyPackage) (cause : error) : error :=
  ETyped (TMalformedError pkg) (Some cause).
Definition UnsupportedError (pkg : BodyPackage) (cause : error) : error :=
  ETyped (TUnsupportedError pkg) (Some cause).

(** Each package's [ErrEmptyBody]. *)
Definition ErrEmptyBody (pkg : BodyPackage) : error :=
  ESentinel (match pkg with
             | PkgCreateBody => "createbody.ErrEmptyBody" | PkgInputBody => "inputbody.ErrEmptyBody"
             | PkgControlBody => "" | PkgGateResponse => "gateresponse.ErrEmptyBody"
             end).
Definition errOtherRecord : error := ESentinel "the body names another session or command".

(** The members of a decoded request the checks read. *)
Record Request := mkRequest {
  r_SessionID : string;
  r_CommandID : string;
  r_Members : Members
}.

(** The gate-response request's own members. *)
Record GateResponseRequest := mkGateResponse {
  g_SessionID : string;
  g_CommandID : string;
  g_GateID : string;
  g_Principal : option string;
  g_ExpectedOpenEventID : string;
  g_ExpectedOpenJournalSeq : Z;
  g_Action : string;
  g_Values : string
}.

(** A decode error is the body's fault or this Host's. *)
Definition classify (pkg : BodyPackage) (err : error) : error :=
  if Permanent err then MalformedError pkg err else UnsupportedError pkg err.

Section bodies.
(** [json.Unmarshal] into each Core request type. *)
Context (decodeInput decodeCreate decodeInterrupt decodeRestore : string → res Request).
Context (decodeGateResponse : string → res GateResponseRequest).
(** [GateResponseRequest.Validate], and [uuid.Parse] followed by the zero check. *)
Context (validateGateResponse : GateResponseRequest → option error).
Context (gate_uuid : string → bool).

(** What the three checks share once their body is not empty. *)
Definition check_request (pkg : BodyPackage) (decoded : res Request) (session command : string) : res Members :=
  match decoded with
  | Err err => Err (classify pkg err)
  | Ok request =>
      if bool_decide (r_SessionID request ≠ session) || bool_decide (r_CommandID request ≠ command)
      then Err (MalformedError pkg errOtherRecord)
      else Ok (r_Members request)
  end.

(** [inputbody.Check]. *)
Definition inputbody_Check (body session command : string) : res Members :=
  if empty body then Err (MalformedError PkgInputBody (ErrEmptyBody PkgInputBody))
  else check_request PkgInputBody (decodeInput body) session command.

(** [createbody.Check]. *)
Definition createbody_Check (body session command : string) : res Members :=
  if empty body then Err (MalformedError PkgCreateBody (ErrEmptyBody PkgCreateBody))
  else check_request PkgCreateBody (decodeCreate body) session command.

(** [controlbody.checkControlBody]: an empty body is allowed, and metadata is
    not read. *)
Definition checkControlBody (decode : string → res Request) (body session command : string) : res Members :=
  if empty body then Ok no_members
  else match check_request PkgControlBody (decode body) session command with
       | Ok m => Ok (mkMembers (m_Principal m) "")
       | Err e => Err e
       end.

Definition CheckInterrupt := checkControlBody decodeInterrupt.
Definition CheckRestore := checkControlBody decodeRestore.

(** [gateresponse.Decode]. *)
Definition gateresponse_Decode (body session command : string) : res GateResponseRequest :=
  if empty body then Err (MalformedError PkgGateResponse (ErrEmptyBody PkgGateResponse))
  else match decodeGateResponse body with
  | Err err => Err (classify PkgGateResponse err)
  | Ok request =>
      match validateGateResponse request with
      | Some err => Err (MalformedError PkgGateResponse err)
      | None =>
          if bool_decide (g_SessionID request ≠ session) || bool_decide (g_CommandID request ≠ command)
          then Err (MalformedError PkgGateResponse errOtherRecord)
          else if negb (gate_uuid (g_GateID request))
          then Err (MalformedError PkgGateResponse (ESentinel "gate identity"))
          else Ok request
      end
  end.

(** ** Which bodies are condemned

    A body is condemned (its command will be rejected for good) or blocked (left
    for a newer Host); [condemned] is [classifyBody]'s test.                   *)

Definition as_malformed (pkg : BodyPackage) (err : error) : bool :=
  bool_decide (is_Some (errors_as (fun t => match t with
    | TMalformedError p => if decide (p = pkg) then Some tt else None | _ => None end) err)).

Definition as_unsupported (pkg : BodyPackage) (err : error) : bool :=
  bool_decide (is_Some (errors_as (fun t => match t with
    | TUnsupportedError p => if decide (p = pkg) then Some tt else None | _ => None end) err)).

Definition condemned (err : error) : bool :=
  as_malformed PkgCreateBody err || as_malformed PkgInputBody err || as_malformed PkgControlBody err.
End bodies.

(** A parse error of the decoder carries none of this repository's body errors:
    what [classify] relies on. *)
Definition foreign_to_bodies (err : error) : Prop :=
  ∀ pkg, as_malformed pkg err = false ∧ as_unsupported pkg err = false.

Lemma as_malformed_Malformed pkg pkg' err :
  as_malformed pkg (MalformedError pkg' err) = bool_decide (pkg' = pkg) || as_malformed pkg err.
Proof.
  unfold as_malformed, MalformedError. simpl. destruct (decide (pkg' = pkg)) as [->|Hne].
  - by rewrite !(bool_decide_eq_true_2 (_ = _)), bool_decide_eq_true_2 by eauto.
  - by rewrite (bool_decide_eq_false_2 (_ = _)).
Qed.

Lemma as_malformed_Unsupported pkg pkg' err :
  as_malformed pkg (UnsupportedError pkg' err) = as_malformed pkg err.
Proof. done. Qed.

Lemma condemned_classify pkg err :
  pkg ≠ PkgGateResponse → foreign_to_bodies err → condemned (classify pkg err) = Permanent err.
Proof.
  intros Hpkg Hf. unfold condemned, classify.
  destruct (Permanent err); rewrite ?as_malformed_Malformed, ?as_malformed_Unsupported;
    rewrite !(proj1 (Hf _)), ?orb_false_r; [|done].
  by destruct pkg.
Qed.

Lemma Terminal_known s : Terminal s = true → known s = true.
Proof. by destruct s. Qed.

Lemma wellFormed_or p : wellFormed p = true ↔ Body p = "" ∨ Ref p = no_ref.
Proof. unfold wellFormed, empty. rewrite orb_true_iff, !bool_decide_eq_true. done. Qed.
End Commands.
