(* ===== verification/Consumer.v ===== *)
(** * Consumer.v: the pull loop over a session's durable commands

    [Consumer] of [internal/commands/consumer.go].  A pass lists the records
    after the durable cursor, checks the page, processes each unsettled record in
    acceptance order, and saves the cursor past the settled prefix.  The inbox,
    the cursor store, the processor, the fence and the channels are calls of
    [CE]; the fields guarded by [mu] and written only by a pass are [cursors].  *)
From Stdlib Require Import ZArith.
From stdpp Require Import base list strings gmap sorting.
From S2P Require Import Prelude Wire Errors Effects Fence Commands.

Module Consumer.
Import Fence Commands.
Local Open Scope prog_scope.

Record BlockedCommand := mkBlocked {
  b_CommandID : string;
  b_AcceptedOrder : Z;
  b_State : State;
  b_Cause : option error
}.

Record PassResult := mkPass {
  Cursor : Z;
  Examined : nat;
  Consumed : nat;
  More : bool;
  Blocked : option BlockedCommand
}.

Inductive PageProblem :=
| PageProblemOverLimit | PageProblemNotAfterCursor | PageProblemNotMonotonic
| PageProblemForeignSession | PageProblemInvalidCommandID | PageProblemUnknownState
| PageProblemDuplicateCommandID.

(** [PageError]; [None] is the index -1 of a problem with the whole page. *)
Record PageError := mkPageError { p_Problem : PageProblem; p_Index : option nat }.

Definition page_error (p : PageError) : error := ETyped (TOtherError "commands.PageError") None.
Definition CursorRegressionError : error := ETyped (TOtherError "commands.CursorRegressionError") None.

(** The arms of the two [select]s of [Run]. *)
Inductive Arm := ArmCtxDone | ArmStopped | ArmLost | ArmHint | ArmTimer | ArmDefault.

Inductive CE : Type → Type :=
| CAcquirePass : CE unit
| CReleasePass : CE unit
| CHalted : CE bool
| CEndedBy : CE (option LossReason)
| CLeaseLost : CE bool
| CEnd (r : LossReason) : CE unit
| CLoadCursor : CE (res Z)
| CListOrdered (after limit : Z) : CE (res (list Command))
| CCtxErr : CE (option error)
| CProcess (command : Command) : CE (Outcome * option error)
| CSaveCursor (epoch order : Z) : CE (option error)
| CPollStop : CE Arm
| CWait : CE Arm.

#[export] Program Instance CE_fence : FenceEvents CE := {|
  ev_endedBy := CEndedBy;
  ev_lost := CLeaseLost;
  ev_end := CEnd;
  as_endedBy o := match o with Obs e x =>
    match e in CE X return X → _ with CEndedBy => Some | _ => fun _ => None end x end;
  as_lost o := match o with Obs e x =>
    match e in CE X return X → _ with CLeaseLost => Some | _ => fun _ => None end x end;
  as_end o := match o with Obs e x =>
    match e in CE X return X → _ with CEnd r => fun _ => Some r | _ => fun _ => None end x end
|}.
Solve Obligations with done.

(** What a consumer was constructed over. *)
Record Consumer := mkConsumer {
  key : Key;
  epoch : Z;
  ReconcileBatch : Z
}.

(** The fields guarded by [mu] a pass writes. *)
Record cursors := mkCursors { cursor : Z; loaded : bool }.

(** [Run]'s bookkeeping: [failures] and [last]. *)
Record stats := mkStats { failures : Z; last_pass : option PassResult }.

Section consumer.
(** [sessionwire.CommandID.Validate]. *)
Context (command_id_valid : string → bool).

Implicit Types (c : Consumer) (s : cursors).

(** The checks of one record of a page, in the order of [validatePage]. *)
Definition validateRecord c (start previous : Z) (index : nat) (seen : gmap string nat)
    (record : Command) : option PageProblem :=
  if bool_decide (c_TenantID record ≠ TenantID (key c)) || bool_decide (c_SessionID record ≠ SessionID (key c))
  then Some PageProblemForeignSession
  else if negb (command_id_valid (c_CommandID record)) then Some PageProblemInvalidCommandID
  else if negb (known (c_State record)) then Some PageProblemUnknownState
  else if (index =? 0)%nat && (c_AcceptedOrder record <=? start)%Z then Some PageProblemNotAfterCursor
  else if negb (index =? 0)%nat && (c_AcceptedOrder record <=? previous)%Z then Some PageProblemNotMonotonic
  else match seen !! c_CommandID record with
       | Some _ => Some PageProblemDuplicateCommandID
       | None => None
       end.

Fixpoint validateRecords c (start previous : Z) (index : nat) (seen : gmap string nat)
    (page : list Command) : option PageError :=
  match page with
  | [] => None
  | record :: page =>
      match validateRecord c start previous index seen record with
      | Some problem => Some (mkPageError problem (Some index))
      | None =>
          validateRecords c start (c_AcceptedOrder record) (S index)
            (<[c_CommandID record := index]> seen) page
      end
  end.

(** [validatePage]. *)
Definition validatePage c (page : list Command) (start limit : Z) : option PageError :=
  if (limit <? Z.of_nat (length page))%Z then Some (mkPageError PageProblemOverLimit None)
  else validateRecords c start start 0 ∅ page.

(** [loadCursor]. *)
Definition loadCursor s : prog CE (res Z * cursors) :=
  let! stored := call CLoadCursor in
  Ret match stored with
      | Err err => (Err err, s)
      | Ok stored =>
          if loaded s && (stored <? cursor s)%Z
          then (Err CursorRegressionError, s)
          else (Ok stored, mkCursors stored true)
      end.

(** Why the loop over the page stopped: it was exhausted, a record blocked it,
    or the pass is abandoned with an error. *)
Inductive stop := Exhausted | BlockedBy (b : BlockedCommand) | Abandoned (err : error).

(** The loop over the page: the order consumed so far and how many. *)
Fixpoint consume (page : list Command) (consumed : Z) (n : nat) : prog CE (Z * nat * stop) :=
  match page with
  | [] => Ret (consumed, n, Exhausted)
  | record :: page =>
      if Terminal (c_State record) then consume page (c_AcceptedOrder record) (S n)
      else
        let! gone := call CCtxErr in
        match gone with
        | Some err => Ret (consumed, n, Abandoned err)
        | None =>
            let! unheld := held in
            match unheld with
            | Some err => Ret (consumed, n, Abandoned err)
            | None =>
                let! processed := call (CProcess record) in
                match processed with
                | (_, Some err) =>
                    Ret (consumed, n, BlockedBy (mkBlocked (c_CommandID record) (c_AcceptedOrder record)
                                                   (c_State record) (Some err)))
                | (outcome, None) =>
                    if negb (Terminal (o_State outcome)) && negb (PrefixOwned outcome)
                    then Ret (consumed, n, BlockedBy (mkBlocked (c_CommandID record) (c_AcceptedOrder record)
                                                        (o_State outcome) None))
                    else consume page (c_AcceptedOrder record) (S n)
                end
            end
        end
  end.

(** [Reconcile], between the acquisition and the release of [passes]. *)
Definition pass c s : prog CE (PassResult * option error * cursors) :=
  let bare cur := mkPass cur 0 0 false None in
  let! halted := call CHalted in
  if (halted : bool) then Ret (bare (cursor s), None, s)
  else
    let! unheld := held in
    match unheld with
    | Some err => Ret (bare (cursor s), Some err, s)
    | None =>
        let! loaded := loadCursor s in
        match loaded with
        | (Err err, s) => Ret (bare (cursor s), Some err, s)
        | (Ok start, s) =>
            let limit := ReconcileBatch c in
            let! listed := call (CListOrdered start limit) in
            match listed with
            | Err err => Ret (bare start, Some err, s)
            | Ok page =>
                match validatePage c page start limit with
                | Some problem => Ret (bare start, Some (page_error problem), s)
                | None =>
                    let! ended := consume page start 0 in
                    let '(consumed, n, why) := ended in
                    let result cur b := mkPass cur (length page) n
                      (bool_decide (b = None) && (Z.of_nat (length page) =? limit)%Z) b in
                    let abandoned b := mkPass start (length page) n false b in
                    match why with
                    | Abandoned err => Ret (abandoned None, Some err, s)
                    | Exhausted | BlockedBy _ =>
                        let blocked := match why with BlockedBy b => Some b | _ => None end in
                        if (start <? consumed)%Z then
                          let! saved := write (call (CSaveCursor (epoch c) consumed)) in
                          match saved with
                          | Some err => Ret (abandoned blocked, Some err, s)
                          | None => Ret (result consumed blocked, None, mkCursors consumed true)
                          end
                        else Ret (result start blocked, None, s)
                    end
                end
            end
        end
    end.

(** [Reconcile]. *)
Definition Reconcile c s : prog CE (PassResult * option error * cursors) :=
  do! call CAcquirePass in
  let! r := pass c s in
  do! call CReleasePass in
  Ret r.

(** [record]. *)
Definition record (st : stats) (result : PassResult) (err : option error) : stats :=
  mkStats (match err with Some _ => failures st + 1 | None => failures st end)%Z (Some result).

(** [Run]: at most [fuel] passes; [None] is still running. *)
Fixpoint Run (fuel : nat) c s (st : stats) : prog CE (option (cursors * stats)) :=
  match fuel with
  | O => Ret None
  | S fuel =>
      let! arm := call CPollStop in
      match arm with
      | ArmCtxDone | ArmStopped | ArmLost => Ret (Some (s, st))
      | _ =>
          let! unheld := held in
          match unheld with
          | Some _ => Ret (Some (s, st))
          | None =>
              let! passed := Reconcile c s in
              let '(result, err, s) := passed in
              let st := record st result err in
              if bool_decide (err = None) && More result then Run fuel c s st
              else
                let! arm := call CWait in
                match arm with
                | ArmCtxDone | ArmStopped | ArmLost => Ret (Some (s, st))
                | _ => Run fuel c s st
                end
          end
      end
  end.

(** ** Conforming pages *)

Definition order_lt (a b : Command) : Prop := (c_AcceptedOrder a < c_AcceptedOrder b)%Z.

(** What [validatePage] guarantees of a page listed after [start]. *)
Record conforming c (page : list Command) (start limit : Z) : Prop := {
  cf_limit : (Z.of_nat (length page) ≤ limit)%Z;
  cf_session : Forall (fun r => c_TenantID r = TenantID (key c) ∧ c_SessionID r = SessionID (key c)) page;
  cf_ids : Forall (fun r => command_id_valid (c_CommandID r) = true) page;
  cf_known : Forall (fun r => known (c_State r) = true) page;
  cf_after : Forall (fun r => (start < c_AcceptedOrder r)%Z) page;
  cf_sorted : StronglySorted order_lt page;
  cf_NoDup : NoDup (c_CommandID <$> page)
}.

Lemma validateRecord_None c start previous index seen r :
  validateRecord c start previous index seen r = None ↔
  (c_TenantID r = TenantID (key c) ∧ c_SessionID r = SessionID (key c)) ∧
  command_id_valid (c_CommandID r) = true ∧ known (c_State r) = true ∧
  ((if (index =? 0)%nat then start else previous) < c_AcceptedOrder r)%Z ∧
  seen !! c_CommandID r = None.
Proof.
  unfold validateRecord.
  destruct (decide (c_TenantID r = TenantID (key c))) as [Ht|Ht];
    [rewrite (bool_decide_eq_false_2 (c_TenantID r ≠ _)) by tauto
    |rewrite (bool_decide_eq_true_2 (c_TenantID r ≠ _)) by done; simpl; naive_solver].
  destruct (decide (c_SessionID r = SessionID (key c))) as [Hs|Hs];
    [rewrite (bool_decide_eq_false_2 (c_SessionID r ≠ _)) by tauto
    |rewrite (bool_decide_eq_true_2 (c_SessionID r ≠ _)) by done; simpl; naive_solver].
  simpl. destruct (command_id_valid _), (known _); simpl; try naive_solver.
  destruct (index =? 0)%nat; simpl; (destruct (Z.leb_spec (c_AcceptedOrder r) start) ||
    destruct (Z.leb_spec (c_AcceptedOrder r) previous)); simpl.
  all: try (destruct (Z.leb_spec (c_AcceptedOrder r) previous)); destruct (seen !! _); naive_solver lia.
Qed.

(** [validateRecords] in the middle of a page. *)
Lemma validateRecords_None c start previous index seen page :
  validateRecords c start previous index seen page = None ↔
  Forall (fun r => c_TenantID r = TenantID (key c) ∧ c_SessionID r = SessionID (key c)) page ∧
  Forall (fun r => command_id_valid (c_CommandID r) = true) page ∧
  Forall (fun r => known (c_State r) = true) page ∧
  Forall (fun r => (if (index =? 0)%nat then start else previous) < c_AcceptedOrder r)%Z page ∧
  StronglySorted order_lt page ∧
  NoDup (c_CommandID <$> page) ∧ Forall (fun r => seen !! c_CommandID r = None) page.
Proof.
  revert previous index seen. induction page as [|r page IH]; intros previous index seen; simpl.
  { split; [|done]. intros _. repeat constructor. }
  destruct (validateRecord c start previous index seen r) eqn:Hr.
  { split; [done|]. intros (H1 & H2 & H3 & H4 & _ & _ & H7).
    enough (validateRecord c start previous index seen r = None) by congruence.
    apply validateRecord_None. rewrite !Forall_cons in *. naive_solver. }
  apply validateRecord_None in Hr as ([Ht Hs] & Hi & Hk & Ho & Hn). rewrite IH. simpl.
  set (floor := if (index =? 0)%nat then start else previous) in *.
  rewrite !Forall_cons, NoDup_cons, list_elem_of_fmap.
  assert (∀ page : list Command, Forall (fun x => <[c_CommandID r:=index]> seen !! c_CommandID x = None) page ↔
    (¬ ∃ y, c_CommandID r = c_CommandID y ∧ y ∈ page) ∧ Forall (fun x => seen !! c_CommandID x = None) page) as ->.
  { intros l. setoid_rewrite lookup_insert_None. rewrite Forall_and, !Forall_forall. naive_solver. }
  split.
  - intros (? & ? & ? & Hafter & Hsort & ? & ? & ?). split_and!; try done.
    + eapply Forall_impl; [exact Hafter|]. simpl. lia.
    + constructor; [done|]. done.
  - intros (? & ? & ? & [_ Hafter] & Hsort & ? & ?). inversion_clear Hsort.
    split_and!; try done; naive_solver.
Qed.

Lemma validatePage_None c page start limit :
  validatePage c page start limit = None ↔ conforming c page start limit.
Proof.
  unfold validatePage. destruct (Z.ltb_spec limit (Z.of_nat (length page))).
  { split; [done|]. intros []. lia. }
  rewrite validateRecords_None. simpl. split.
  - intros (? & ? & ? & ? & ? & ? & _). by split.
  - intros []. split_and!; try done. apply Forall_true. intros r. apply lookup_empty.
Qed.

(** [validatePage] accepts exactly the conforming pages: at most [limit]
    records, all of this session, with valid and distinct command ids, known
    states, and acceptance orders strictly increasing from just above the
    cursor. *)
Theorem validatePage_spec c page start limit :
  validatePage c page start limit = None ↔ conforming c page start limit.
Proof. apply validatePage_None. Qed.

(** ** The cursor never passes an unsettled command *)

(** The record was listed terminal, or this trace processed it to an outcome
    the cursor may pass. *)
Definition settled (t : list (obs CE)) (r : Command) : Prop :=
  Terminal (c_State r) = true ∨
  ∃ out, Obs (CProcess r) (out, None) ∈ t ∧ Terminal (o_State out) || PrefixOwned out = true.

Lemma settled_app t1 t2 r : settled t1 r ∨ settled t2 r → settled (t1 ++ t2) r.
Proof. unfold settled. setoid_rewrite elem_of_app. naive_solver. Qed.

(** The order of the last record of a prefix. *)
Definition last_order (start : Z) (done : list Command) : Z :=
  match last done with Some r => c_AcceptedOrder r | None => start end.

Lemma last_order_cons start r done :
  last_order (c_AcceptedOrder r) done = last_order start (r :: done).
Proof. unfold last_order. rewrite last_cons. by destruct (last done). Qed.

(** The loop consumes a settled prefix of the page, and stops early only with a
    reason. *)
Lemma consume_prefix page start n t consumed n' why :
  runs (consume page start n) t (consumed, n', why) →
  ∃ done rest, page = done ++ rest ∧ consumed = last_order start done ∧
    n' = n + length done ∧ Forall (settled t) done ∧ (why = Exhausted → rest = []).
Proof.
  revert start n t. induction page as [|r page IH]; intros start n t; simpl.
  { intros [-> [= -> -> ->]]. exists [], []. rewrite Nat.add_0_r. by split_and!. }
  assert (∀ why', why' ≠ Exhausted → ∃ done rest : list Command, r :: page = done ++ rest ∧
    start = last_order start done ∧ n = n + length done ∧ Forall (settled t) done ∧
    (why' = Exhausted → rest = [])) as Hstop.
  { intros why' Hwhy. exists [], (r :: page). rewrite Nat.add_0_r. by split_and!. }
  assert (∀ t1 t2, t = t1 ++ t2 → settled t r →
    runs (consume page (c_AcceptedOrder r) (S n)) t2 (consumed, n', why) →
    ∃ done rest : list Command, r :: page = done ++ rest ∧ consumed = last_order start done ∧
      n' = n + length done ∧ Forall (settled t) done ∧ (why = Exhausted → rest = [])) as Hgo.
  { intros t1 t2 -> Hr Hrun. apply IH in Hrun as (done & rest & -> & -> & -> & Hd & Hw).
    exists (r :: done), rest. split_and!; [done|apply last_order_cons|simpl; lia| |done].
    constructor; [done|]. eapply Forall_impl; [exact Hd|]. intros x Hx. apply settled_app. by right. }
  destruct (Terminal (c_State r)) eqn:Hterm; simpl.
  { intros H. eapply (Hgo [] t); [done|by left|done]. }
  intros ([e|] & t1 & -> & H); simpl in H.
  { destruct H as [-> [= -> -> ->]]. by apply Hstop. }
  unfold held in H. simpl in H. destruct H as ([l|] & t2 & -> & H); simpl in H.
  { destruct H as [-> [= -> -> ->]]. by apply Hstop. }
  destruct H as ([] & t3 & -> & H); simpl in H.
  { destruct H as [-> [= -> -> ->]]. by apply Hstop. }
  destruct H as ([out [err|]] & t4 & -> & H); simpl in H.
  { destruct H as [-> [= -> -> ->]]. by apply Hstop. }
  destruct (negb (Terminal (o_State out)) && negb (PrefixOwned out)) eqn:Ho; simpl in H.
  { destruct H as [-> [= -> -> ->]]. by apply Hstop. }
  eapply (Hgo [_; _; _; _] t4); [done| |done]. right. exists out. split; [set_solver|].
  by destruct (Terminal (o_State out)), (PrefixOwned out).
Qed.

(** In a strictly sorted page, the records up to the last of a prefix are the
    prefix. *)
Lemma sorted_prefix start page done rest r :
  Forall (fun x => start < c_AcceptedOrder x)%Z page → StronglySorted order_lt page →
  page = done ++ rest → r ∈ page → (c_AcceptedOrder r ≤ last_order start done)%Z → r ∈ done.
Proof.
  intros Hafter Hsort -> Hr Hle. apply elem_of_app in Hr as [?|Hr]; [done|exfalso].
  unfold last_order in Hle. destruct (last done) as [l|] eqn:Hl.
  - apply last_Some in Hl as [front ->].
    assert (order_lt l r) as Hlr.
    { eapply (StronglySorted_app_1_elem_of order_lt); [exact Hsort|set_solver|done]. }
    unfold order_lt in Hlr. lia.
  - rewrite Forall_forall in Hafter. assert (r ∈ done ++ rest) as Hin by set_solver.
    specialize (Hafter r Hin). simpl in Hafter. lia.
Qed.

(** The [SaveCursor] an observation is. *)
Definition saving (o : obs CE) : option (Z * Z) :=
  match o with Obs e _ => match e with CSaveCursor ep order => Some (ep, order) | _ => None end end.

Lemma consume_no_save page start n t a :
  runs (consume page start n) t a → Forall (fun o => saving o = None) t.
Proof.
  revert start n t. induction page as [|r page IH]; intros start n t; simpl; [by intros [-> _]|].
  destruct (Terminal (c_State r)); [apply IH|]. unfold held; simpl.
  intros ([e|] & t1 & -> & H); simpl in H; [destruct H as [-> _]; by repeat constructor|].
  destruct H as ([l|] & t2 & -> & H); simpl in H; [destruct H as [-> _]; by repeat constructor|].
  destruct H as ([] & t3 & -> & H); simpl in H; [destruct H as [-> _]; by repeat constructor|].
  destruct H as ([out [err|]] & t4 & -> & H); simpl in H; [destruct H as [-> _]; by repeat constructor|].
  destruct (_ && _); simpl in H; [destruct H as [-> _]; by repeat constructor|].
  repeat constructor. by eapply IH.
Qed.

(** A pass either saves nothing, or lists a conforming page, consumes a settled
    prefix of it and makes one fenced save. *)
Record saving_pass c s (t : list (obs CE)) s' (start : Z) (page : list Command)
    (t1 tc tw : list (obs CE)) (consumed : Z) (n : nat) (why : stop) (saved : option error) : Prop := {
  sp_trace : t = t1 ++ tc ++ tw;
  sp_quiet : Forall (fun o => saving o = None) t1;
  sp_listed : Obs (CListOrdered start (ReconcileBatch c)) (Ok page) ∈ t1;
  sp_page : conforming c page start (ReconcileBatch c);
  sp_floor : loaded s = true → (cursor s ≤ start)%Z;
  sp_consumed : runs (consume page start 0) tc (consumed, n, why);
  sp_more : (start < consumed)%Z;
  sp_write : runs (write (call (CSaveCursor (epoch c) consumed))) tw saved;
  sp_state : s' = match saved with None => mkCursors consumed true | Some _ => mkCursors start true end
}.

#[local] Opaque write.

Lemma pass_runs c s t result err s' :
  runs (pass c s) t (result, err, s') →
  (Forall (fun o => saving o = None) t ∧
   (s' = s ∨ ∃ start, s' = mkCursors start true ∧ (loaded s = true → cursor s ≤ start)%Z)) ∨
  ∃ start page t1 tc tw consumed n why saved,
    saving_pass c s t s' start page t1 tc tw consumed n why saved.
Proof.
  unfold pass, held, loadCursor. simpl.
  intros ([] & t1 & -> & H); simpl in H; [destruct H as [-> [= -> -> ->]]; left; by repeat constructor|].
  destruct H as ([l|] & t2 & -> & H); simpl in H; [destruct H as [-> [= -> -> ->]]; left; by repeat constructor|].
  destruct H as ([] & t3 & -> & H); simpl in H; [destruct H as [-> [= -> -> ->]]; left; by repeat constructor|].
  destruct H as ([start|e] & t4 & -> & H); simpl in H;
    [|destruct H as [-> [= -> -> ->]]; left; by repeat constructor].
  destruct (loaded s && (start <? cursor s)%Z) eqn:Hreg; simpl in H;
    [destruct H as [-> [= -> -> ->]]; left; by repeat constructor|].
  assert (loaded s = true → cursor s ≤ start)%Z as Hfloor by (intros Hl; rewrite Hl in Hreg; lia).
  assert (∀ t5, Forall (fun o => saving o = None) t5 → s' = mkCursors start true →
    (Forall (fun o => saving o = None) ([Obs CHalted false; Obs CEndedBy None; Obs CLeaseLost false;
       Obs CLoadCursor (Ok start)] ++ t5) ∧
     (s' = s ∨ ∃ start, s' = mkCursors start true ∧ (loaded s = true → cursor s ≤ start)%Z))) as Hquiet.
  { intros t5 H5 ->. split; [|by right; eauto]. by repeat constructor. }
  destruct H as ([page|e] & t5 & -> & H); simpl in H;
    [|destruct H as [-> [= -> -> ->]]; left; apply (Hquiet [_]); by repeat constructor].
  destruct (validatePage c page start (ReconcileBatch c)) eqn:Hpage; simpl in H;
    [destruct H as [-> [= -> -> ->]]; left; apply (Hquiet [_]); by repeat constructor|].
  apply validatePage_None in Hpage.
  apply runs_bind in H as (tc & tw & [[consumed n] why] & -> & Hc & H).
  assert (Forall (fun o => saving o = None) (Obs (CListOrdered start (ReconcileBatch c)) (Ok page) :: tc)) as Hl.
  { constructor; [done|]. by eapply consume_no_save. }
  destruct why as [|b|e]; simpl in H;
    [..|destruct H as [-> [= -> -> ->]]; left; rewrite app_nil_r; by apply (Hquiet (_ :: _))].
  all: destruct (Z.ltb_spec start consumed) as [Hlt|Hge]; simpl in H;
    [|destruct H as [-> [= -> -> ->]]; left; rewrite app_nil_r; by apply (Hquiet (_ :: _))].
  all: apply runs_bind in H as (tw' & t6 & saved & -> & Hw & H).
  all: right; eexists start, page, [Obs CHalted false; Obs CEndedBy None; Obs CLeaseLost false;
         Obs CLoadCursor (Ok start); Obs (CListOrdered start (ReconcileBatch c)) (Ok page)], tc, tw',
         consumed, n, _, saved.
  all: destruct saved; simpl in H; destruct H as [-> [= -> -> ->]]; rewrite app_nil_r.
  all: split; try done; [by repeat constructor|set_solver].
Qed.

#[local] Transparent write.

(** The write performs at most one save, of the order it was given. *)
Lemma write_saving ep ord t e o :
  runs (write (call (CSaveCursor ep ord))) t e → o ∈ t →
  saving o = None ∨ saving o = Some (ep, ord).
Proof.
  intros Hrun. unfold write, held in Hrun. simpl in Hrun.
  repeat match goal with
    | H : ∃ _, _ |- _ => destruct H
    | H : _ ∧ _ |- _ => destruct H
    | H : runs (match ?x with _ => _ end) _ _ |- _ => destruct x; simpl in H
    | H : runs (bind (match ?x with _ => _ end) _) _ _ |- _ => destruct x; simpl in H
    end; subst; rewrite ?elem_of_cons, ?elem_of_nil; intuition (subst; simpl; auto).
Qed.

#[local] Opaque pass.

Lemma saves_settle c s t a o ep ord (Hrun : runs (Reconcile c s) t a)
    (Ho : o ∈ t) (Hs : saving o = Some (ep, ord)) :
  ep = epoch c ∧ ∃ start page,
    Obs (CListOrdered start (ReconcileBatch c)) (Ok page) ∈ t ∧
    conforming c page start (ReconcileBatch c) ∧ (start < ord)%Z ∧
    ∀ r, r ∈ page → (c_AcceptedOrder r ≤ ord)%Z → settled t r.
Proof.
  unfold Reconcile in Hrun. simpl in Hrun. destruct Hrun as ([] & t1 & -> & Hrun).
  apply runs_bind in Hrun as (tp & tr & [[res err] s'] & -> & Hp & [] & t2 & -> & [-> ->]).
  assert (o ∈ tp) as Hin.
  { apply elem_of_cons in Ho as [->|Ho]; [done|]. apply elem_of_app in Ho as [?|Ho]; [done|].
    apply elem_of_cons in Ho as [->|Ho]; [done|by apply elem_of_nil in Ho]. }
  apply pass_runs in Hp as [[Hq _]|(start & page & t1 & tc & tw & consumed & n & why & saved & [])].
  { rewrite Forall_forall in Hq. specialize (Hq o Hin). congruence. }
  subst tp. apply consume_prefix in sp_consumed0 as Hdone.
  destruct Hdone as (done & rest & Hpage & Hc & _ & Hset & _).
  assert (Some (ep, ord) = Some (epoch c, consumed)) as [= -> ->].
  { rewrite !elem_of_app in Hin. destruct Hin as [Hin|[Hin|Hin]].
    - rewrite Forall_forall in sp_quiet0. specialize (sp_quiet0 o Hin). simpl in *. congruence.
    - apply consume_no_save in sp_consumed0. rewrite Forall_forall in sp_consumed0.
      specialize (sp_consumed0 o Hin). simpl in *. congruence.
    - destruct (write_saving _ _ _ _ _ sp_write0 Hin); congruence. }
  split; [done|]. exists start, page. split_and!; [set_solver|done|done|].
  intros r Hr Hle. apply (settled_app [_]). right. apply settled_app. left.
  apply settled_app. right. apply settled_app. left.
  rewrite Forall_forall in Hset. apply Hset. destruct sp_page0.
  eapply sorted_prefix; [done..|]. by rewrite <-Hc.
Qed.

(** C1 The durable cursor never passes an unsettled command: whatever the inbox,
    the processor and the stores answer, a cursor this consumer tries to save is
    stamped with its own epoch, lies beyond the page's starting cursor, and every
    record of the listed page up to it was already terminal or was processed in
    this very pass to a terminal state or an owned prefix. *)
Theorem cursor_settles c s t a o ep ord (Hrun : runs (Reconcile c s) t a)
    (Ho : o ∈ t) (Hs : saving o = Some (ep, ord)) :
  ep = epoch c ∧ ∃ start page,
    Obs (CListOrdered start (ReconcileBatch c)) (Ok page) ∈ t ∧
    conforming c page start (ReconcileBatch c) ∧ (start < ord)%Z ∧
    ∀ r, r ∈ page → (c_AcceptedOrder r ≤ ord)%Z → settled t r.
Proof. by eapply saves_settle. Qed.

(** A refused save that says the epoch is superseded has ended the fence. *)
Definition save_answer (o : obs CE) : option (option error) :=
  match o with Obs e x => match e in CE X return X → option (option error) with CSaveCursor _ _ => Some | _ => fun _ => None end x end.

Lemma quiet_saves t o : Forall (fun o => saving o = None) t → o ∈ t → save_answer o = None.
Proof. rewrite Forall_forall. intros H Ho. specialize (H o Ho). destruct o as [X e x]. by destruct e. Qed.

#[local] Transparent write.
Lemma write_superseded ep ord t saved o e :
  runs (write (call (CSaveCursor ep ord))) t saved → o ∈ t → save_answer o = Some (Some e) → errors_is e ErrEpochSuperseded = true →
  Obs (CEnd LossReasonEpochSuperseded) tt ∈ t.
Proof.
  intros Hrun. unfold write, held in Hrun. simpl in Hrun.
  repeat match goal with
    | H : ∃ _, _ |- _ => destruct H
    | H : _ ∧ _ |- _ => destruct H
    | H : runs (match ?x with _ => _ end) _ _ |- _ => destruct x eqn:?; simpl in H
    | H : runs (bind (match ?x with _ => _ end) _) _ _ |- _ => destruct x eqn:?; simpl in H
    end; subst; rewrite ?elem_of_cons, ?elem_of_nil; intros Ho Hs He; repeat destruct Ho as [->|Ho]; try done; simpl in Hs; try congruence.
  all: repeat match goal with x : unit |- _ => destruct x end; auto 10.
Qed.
#[local] Opaque write.

Lemma superseded_ends c s t a o e :
  runs (Reconcile c s) t a → o ∈ t → save_answer o = Some (Some e) → errors_is e ErrEpochSuperseded = true →
  Obs (CEnd LossReasonEpochSuperseded) tt ∈ t.
Proof.
  intros Hrun Ho Hs He. unfold Reconcile in Hrun. simpl in Hrun. destruct Hrun as ([] & t1 & -> & Hrun).
  apply runs_bind in Hrun as (tp & tr & [[res err] s'] & -> & Hp & [] & t2 & -> & [-> ->]).
  assert (o ∈ tp) as Hin.
  { apply elem_of_cons in Ho as [->|Ho]; [done|]. apply elem_of_app in Ho as [?|Ho]; [done|].
    apply elem_of_cons in Ho as [->|Ho]; [done|by apply elem_of_nil in Ho]. }
  apply pass_runs in Hp as [[Hq _]|(start & page & t1 & tc & tw & consumed & n & why & saved & [])].
  { by rewrite (quiet_saves _ _ Hq Hin) in Hs. }
  subst tp. rewrite !elem_of_app in Hin. destruct Hin as [Hin|[Hin|Hin]].
  - by rewrite (quiet_saves _ _ sp_quiet0 Hin) in Hs.
  - by rewrite (quiet_saves _ _ (consume_no_save _ _ _ _ _ sp_consumed0) Hin) in Hs.
  - eapply write_superseded in sp_write0; [|done..]. rewrite elem_of_cons, !elem_of_app. auto.
Qed.

(** The cursor a consumer holds never goes backwards, over any number of
    passes: a store that answers an older cursor is refused. *)
Theorem cursor_monotone c s t result err s' (Hrun : runs (Reconcile c s) t (result, err, s'))
    (Hl : loaded s = true) :
  loaded s' = true ∧ (cursor s ≤ cursor s')%Z.
Proof.
  unfold Reconcile in Hrun. simpl in Hrun. destruct Hrun as ([] & t1 & -> & Hrun).
  apply runs_bind in Hrun as (tp & tr & [[res err'] s2] & -> & Hp & [] & t2 & -> & [-> [= -> -> ->]]).
  apply pass_runs in Hp as [[_ [->|(start & -> & H)]]|(start & page & t1 & tc & tw & consumed & n & why & saved & [])].
  - done.
  - simpl. auto.
  - subst s2. specialize (sp_floor0 Hl). destruct saved; simpl; split; done || lia.
Qed.

(** ** Work happens only under the fence *)

Definition is_work (o : obs CE) : bool :=
  match o with Obs e _ => match e with CProcess _ | CSaveCursor _ _ => true | _ => false end end.

Definition fenced_work (t : list (obs CE)) (o : obs CE) : Prop := is_work o = true → just_held t.

Abbreviation working := (safe any_env fenced_work (fun _ _ => True)).

Lemma consume_fenced page start n t : working t (consume page start n).
Proof.
  revert start n t. induction page as [|r page IH]; intros start n t; simpl; [done|].
  destruct (Terminal (c_State r)); [apply IH|]. unfold held; simpl.
  intros [e|] _; split; try done; simpl. intros [l|] _; split; try done; simpl.
  intros [] _; split; try done; simpl.
  intros [out [err|]] _; simpl; (split; [intros _; refine (just_held_snoc _)|]); [done|].
  destruct (_ && _); simpl; [done|apply IH].
Qed.

Lemma save_fenced ep ord t : working t (write (call (CSaveCursor ep ord))).
Proof.
  apply write_safe; [|done|done|].
  - intros h o Ho _. destruct o as [X e x]. destruct e; try done; simpl in Ho;
      by destruct Ho as [[? [=]]|[[? [=]]|[? [=]]]].
  - simpl. intros x _. split; [intros _; refine (just_held_intro _)|done].
Qed.

#[local] Transparent pass.
#[local] Opaque write.

Lemma pass_fenced c s t : working t (pass c s).
Proof.
  unfold pass, held, loadCursor. simpl.
  intros [] _; split; try done; simpl. intros [l|] _; split; try done; simpl.
  intros [] _; split; try done; simpl. intros [start|e] _; split; try done; simpl.
  destruct (_ && _); simpl; [done|]. intros [page|e] _; split; try done; simpl.
  destruct (validatePage _ _ _ _); simpl; [done|].
  eapply safe_bind_spec; [apply consume_fenced|]. intros t' [[consumed n] why] _. simpl.
  destruct why; simpl; try done; (destruct (start <? consumed)%Z; [|done]);
    (eapply safe_bind_spec; [apply save_fenced|]); intros t2 [err|] _; done.
Qed.

#[local] Opaque pass.

Lemma Reconcile_fenced c s t : working t (Reconcile c s).
Proof.
  unfold Reconcile. simpl. intros [] _. split; [done|].
  eapply safe_bind_spec; [apply pass_fenced|]. done.
Qed.

#[local] Opaque Reconcile.

Lemma Run_fenced fuel c s st t : working t (Run fuel c s st).
Proof.
  revert s st t. induction fuel as [|fuel IH]; intros s st t; simpl; [done|].
  intros arm _; destruct arm; (split; [done|]); try done; simpl.
  all: intros [l|] _; split; try done; simpl; intros [] _; split; try done; simpl.
  all: eapply safe_bind_spec; [apply Reconcile_fenced|]; intros h2 [[res err] s'] _; simpl.
  all: destruct (_ && _); [apply IH|]; simpl.
  all: intros [] _; (split; [done|]); (done || apply IH).
Qed.

(** Over the whole life of a consumer's loop, a command is handed to the
    processor, and the cursor saved, only right after the fence was found held:
    losing the lease or the epoch stops the work before the next command. *)
Theorem loop_works_fenced fuel c s st t a (Hrun : runs (Run fuel c s st) t a) t1 o t2
    (Ht : t = t1 ++ o :: t2) (Hw : is_work o = true) : just_held t1.
Proof.
  destruct (safe_runs_any _ _ _ _ _ (Run_fenced fuel c s st []) Hrun) as [_ HG]. by apply (HG _ _ _ Ht).
Qed.

End consumer.

(** ** Halting: passes against [Halt] and [Resume]

    [passes] is a channel of capacity one that every pass and every [Halt] sends
    to before working and receives from afterwards; [hint] is the other one.
    Any number of goroutines (numbered) run passes while one releaser halts and
    resumes, and every interleaving of their steps is a path of [step].        *)

(** Where a goroutine is in [Reconcile]. *)
Inductive phase :=
| Outside            (* not in a pass, or blocked in [acquirePass] *)
| Entered            (* [passes] sent, [halted] not read yet *)
| Working            (* read [halted = false]: listing, processing, saving *)
| Leaving.           (* about to receive from [passes] *)

(** Where the releaser is in [Halt]. *)
Inductive halting :=
| HIdle              (* not halted, or resumed *)
| HFlagged           (* [halted] set, waiting for [passes] *)
| HTaken             (* [passes] sent, not received yet *)
| HReturned.         (* returned nil *)

Inductive holder := ByPass (i : nat) | ByHalt.

Record channels := mkChannels {
  h_halted : bool;
  h_passes : option holder;
  h_hint : bool;
  h_phase : nat → phase;
  h_halt : halting
}.

Definition at_phase (x : channels) (i : nat) (p : phase) (tok : option holder) : channels :=
  mkChannels (h_halted x) tok (h_hint x) (fun j => if decide (j = i) then p else h_phase x j) (h_halt x).

Definition at_halt (x : channels) (b : bool) (tok : option holder) (h : halting) : channels :=
  mkChannels b tok (h_hint x) (h_phase x) h.

Definition set_hint (x : channels) (b : bool) : channels :=
  mkChannels (h_halted x) (h_passes x) b (h_phase x) (h_halt x).

Inductive step : channels → channels → Prop :=
| step_acquire x i : h_phase x i = Outside → h_passes x = None →
    step x (at_phase x i Entered (Some (ByPass i)))
| step_read x i : h_phase x i = Entered →
    step x (at_phase x i (if h_halted x then Leaving else Working) (h_passes x))
| step_worked x i : h_phase x i = Working → step x (at_phase x i Leaving (h_passes x))
| step_release x i : h_phase x i = Leaving → step x (at_phase x i Outside None)
| step_Halt x : h_halt x = HIdle → step x (at_halt x true (h_passes x) HFlagged)
| step_halt_acquire x : h_halt x = HFlagged → h_passes x = None →
    step x (at_halt x true (Some ByHalt) HTaken)
| step_halt_release x : h_halt x = HTaken → step x (at_halt x (h_halted x) None HReturned)
| step_Resume x : h_halt x = HFlagged ∨ h_halt x = HReturned →
    (* after [Halt] returned nil, or gave up on its context *)
    step x (set_hint (at_halt x false (h_passes x) HIdle) true)
| step_Hint x : step x (set_hint x true)
| step_hinted x : h_hint x = true → step x (set_hint x false).

Definition initial : channels := mkChannels false None false (fun _ => Outside) HIdle.

(** Who holds the channel is who is inside, and a returned [Halt] excluded
    everyone who had not read its flag. *)
Record quiet_inv (x : channels) : Prop := {
  qi_pass i : h_phase x i ≠ Outside ↔ h_passes x = Some (ByPass i);
  qi_halt : h_halt x = HTaken ↔ h_passes x = Some ByHalt;
  qi_flag : h_halt x ≠ HIdle → h_halted x = true;
  qi_done i : h_halt x = HTaken ∨ h_halt x = HReturned → h_phase x i ≠ Working
}.

(** The holder of the channel is unique. *)
Lemma pass_holder x i j :
  quiet_inv x → h_phase x i ≠ Outside → h_phase x j ≠ Outside → i = j.
Proof. intros [Hp _ _ _] Hi%Hp Hj%Hp. congruence. Qed.

Lemma pass_excludes_halt x i :
  quiet_inv x → h_phase x i ≠ Outside → h_halt x ≠ HTaken.
Proof. intros [Hp Hh _ _] Hi%Hp Ht%Hh. congruence. Qed.

(** A pass's own step, between two phases inside. *)
Lemma quiet_inside x i p :
  quiet_inv x → h_phase x i ≠ Outside → p ≠ Outside →
  (p = Working → h_halted x = false) → quiet_inv (at_phase x i p (h_passes x)).
Proof.
  intros Hq Hi Hin Hw. pose proof (pass_excludes_halt x i Hq Hi) as Hex.
  pose proof Hq as [Hp Hh Hf Hd]. split; simpl; [|done..|].
  - intros j. case_decide as Hj; [subst j|apply Hp]. by rewrite <-Hp.
  - intros j Hhalt. case_decide as Hj; [subst j|by apply Hd].
    intros ->. rewrite Hf in Hw by (destruct Hhalt; congruence). by specialize (Hw eq_refl).
Qed.

Lemma step_quiet x y : quiet_inv x → step x y → quiet_inv y.
Proof.
  intros Hq Hs. pose proof Hq as [Hp Hh Hf Hd].
  assert (∀ i, h_passes x = None → h_phase x i = Outside) as Hfree.
  { intros i Hn. destruct (h_phase x i) eqn:Hi; [done|..]; exfalso;
      assert (h_phase x i ≠ Outside) as Ho%Hp by congruence; congruence. }
  destruct Hs as [x i Hi Hn|x i Hi|x i Hi|x i Hi|x Hi|x Hi Hn|x Hi|x Hi|x|x Hi].
  - split; simpl; [| |done|].
    + intros j. case_decide as Hj; [subst; done|]. rewrite (Hfree j Hn). naive_solver.
    + rewrite Hh, Hn. done.
    + intros j Hhalt. case_decide; [done|]. by rewrite (Hfree j Hn).
  - apply quiet_inside; [done|congruence|by destruct (h_halted x)|by destruct (h_halted x)].
  - apply quiet_inside; [done|congruence|done|done].
  - assert (h_phase x i ≠ Outside) as Ho by congruence. apply Hp in Ho.
    split; simpl; [| |done|].
    + intros j. case_decide as Hj; [subst; done|]. rewrite Hp, Ho. split; congruence.
    + rewrite Hh, Ho. split; congruence.
    + intros j Hhalt. case_decide; [done|]. by apply Hd.
  - split; simpl; try done.
    + rewrite <-Hh, Hi. done.
    + intros j [|]; done.
  - split; simpl; try done.
    + intros j. rewrite (Hfree j Hn). naive_solver.
    + intros j _. by rewrite (Hfree j Hn).
  - apply Hh in Hi as Hpass. split; simpl; try done.
    + intros j. rewrite Hp, Hpass. split; congruence.
    + intros _. apply Hf. congruence.
    + intros j _. apply Hd. by left.
  - split; simpl; try done.
    + rewrite <-Hh. destruct Hi as [-> | ->]; done.
    + intros j [|]; done.
  - by split.
  - by split.
Qed.

(** Once [Halt] has returned, no pass is at work and none begins, whatever
    passes were running or start concurrently, until [Resume]. *)
Theorem Halt_quiesces x i (Hr : rtc step initial x) (Hh : h_halt x = HReturned) :
  h_halted x = true ∧ h_phase x i ≠ Working.
Proof.
  assert (quiet_inv x) as [_ _ Hf Hd].
  { revert Hr. apply (rtc_ind_r (fun x => quiet_inv x) initial).
    - split; simpl; naive_solver.
    - intros y z _ Hyz Hy. by eapply step_quiet. }
  split; [apply Hf; congruence|]. apply Hd. by right.
Qed.

(** ** Witnesses *)

Definition sample_consumer : Consumer := mkConsumer (mkKey "t" "s") 4 2.

Definition sample_page : list Command :=
  [mkCommand "t" "s" "c1" 6 StateApplied 1; mkCommand "t" "s" "c2" 9 StatePending 2].

(** An inbox of two commands whose processor applies the pending one. *)
Definition sample_world : handler CE unit := fun X e =>
  match e in CE X return unit → X * unit with
  | CAcquirePass | CReleasePass => fun s => (tt, s)
  | CHalted | CLeaseLost => fun s => (false, s)
  | CEndedBy => fun s => (None, s)
  | CEnd _ => fun s => (tt, s)
  | CLoadCursor => fun s => (Ok 5%Z, s)
  | CListOrdered _ _ => fun s => (Ok sample_page, s)
  | CCtxErr => fun s => (None, s)
  | CProcess _ => fun s => ((mkOutcome StateApplied false, None), s)
  | CSaveCursor _ _ => fun s => (None, s)
  | CPollStop => fun s => (ArmDefault, s)
  | CWait => fun s => (ArmStopped, s)
  end.

Definition valid_id (_ : string) : bool := true.

Definition sample_pass := exec sample_world (Reconcile valid_id sample_consumer (mkCursors 5 true)) tt.

Lemma sample_pass_runs :
  runs (Reconcile valid_id sample_consumer (mkCursors 5 true)) sample_pass.2 sample_pass.1.1.
Proof. apply (exec_runs sample_world _ tt _ tt). vm_compute. reflexivity. Qed.

Lemma cursor_settles_witness :
  sample_pass.1.1 = (mkPass 9 2 2 true None, None, mkCursors 9 true) ∧
  nth_error (saving <$> sample_pass.2) 12 = Some (Some (4, 9)%Z) ∧ (4 = epoch sample_consumer)%Z.
Proof.
  split; [vm_compute; reflexivity|]. split; [vm_compute; reflexivity|].
  refine (proj1 (cursor_settles valid_id sample_consumer (mkCursors 5 true) sample_pass.2 _
    (nth 12 sample_pass.2 (Obs CHalted false)) 4 9 sample_pass_runs _ _)).
  - vm_compute. do 12 right. left.
  - vm_compute. reflexivity.
Defined.

Lemma cursor_monotone_witness : (5 ≤ cursor sample_pass.1.1.2)%Z.
Proof.
  exact (proj2 (cursor_monotone valid_id sample_consumer (mkCursors 5 true) sample_pass.2
    sample_pass.1.1.1.1 sample_pass.1.1.1.2 sample_pass.1.1.2 sample_pass_runs eq_refl)).
Defined.

Definition sample_run :=
  exec sample_world (Run valid_id 3 sample_consumer (mkCursors 5 true) (mkStats 0 None)) tt.

Lemma loop_works_fenced_witness : just_held (take 12 sample_run.2).
Proof.
  refine (loop_works_fenced valid_id 3 sample_consumer (mkCursors 5 true) (mkStats 0 None)
    sample_run.2 sample_run.1.1 _ (take 12 sample_run.2) (nth 12 sample_run.2 (Obs CHalted false))
    (drop 13 sample_run.2) _ _).
  - apply (exec_runs sample_world _ tt _ tt). vm_compute. reflexivity.
  - vm_compute. reflexivity.
  - vm_compute. reflexivity.
Defined.

Lemma Halt_quiesces_witness :
  ∃ x, rtc step initial x ∧ h_halt x = HReturned ∧ h_phase x 0 ≠ Working.
Proof.
  set (x1 := at_phase initial 0 Entered (Some (ByPass 0))).
  set (x2 := at_halt x1 true (h_passes x1) HFlagged).
  set (x3 := at_phase x2 0 Leaving (h_passes x2)).
  set (x4 := at_phase x3 0 Outside None).
  set (x5 := at_halt x4 true (Some ByHalt) HTaken).
  set (x6 := at_halt x5 (h_halted x5) None HReturned).
  assert (rtc step initial x6) as Hr.
  { apply (rtc_l _ _ x1); [by constructor|]. apply (rtc_l _ _ x2); [by constructor|].
    apply (rtc_l _ _ x3); [by apply (step_read x2 0)|]. apply (rtc_l _ _ x4); [by constructor|].
    apply (rtc_l _ _ x5); [by constructor|]. apply rtc_once. by constructor. }
  exists x6. split; [exact Hr|]. split; [reflexivity|]. exact (proj2 (Halt_quiesces x6 0 Hr eq_refl)).
Defined.
End Consumer.
