(* ===== verification/Applier.v ===== *)
(** * Applier.v: claiming, applying and settling one command

    [Applier] of [internal/commands/apply.go] and its recovery plan
    ([recovery.go]).  The command store, the journal, the gates, the runtime, the
    clock and the fence are calls of [AE].  Times are nanoseconds since Go's zero
    time.                                                                      *)
From Stdlib Require Import ZArith.
From stdpp Require Import base list strings gmap.
From S2P Require Import Prelude Wire Errors Effects Fence Commands.

Module Applier.
Import Fence Commands.
Local Open Scope prog_scope.

Record Record_ := mkRecord {
  a_TenantID : string;
  a_SessionID : string;
  a_CommandID : string;
  a_RuntimeCommandID : Z;
  a_Kind : Kind;
  a_State : State;
  a_AcceptedOrder : Z;
  a_Revision : Z;
  a_ApplyDeadline : Z;
  a_ClaimEpoch : Z;
  a_ClaimExpiresAt : Z
}.

Record Prefix := mkPrefix {
  pf_CommandID : string;
  pf_RuntimeCommandID : Z;
  pf_Kind : Kind
}.

Record Effect := mkEffect { CompletedAt : Z; EventID : string; JournalSeq : Z }.

Inductive ApplicationOutcome :=
| ApplicationAbsent | ApplicationCommitted | ApplicationAbandoned
| ApplicationUnresolved | ApplicationConflicted | ApplicationOther (s : string).

#[export] Instance ApplicationOutcome_eq_dec : EqDecision ApplicationOutcome.
Proof. solve_decision. Defined.

(** [ApplicationOutcome.known]. *)
Definition outcome_known (o : ApplicationOutcome) : bool :=
  match o with ApplicationOther _ => false | _ => true end.

Record Application := mkApplication {
  ap_CommandID : string;
  ap_RuntimeCommandID : Z;
  ap_Outcome : ApplicationOutcome;
  PrefixEpoch : Z;
  EffectEventID : string;
  EffectSeq : Z;
  SupersedingEpoch : Z
}.

(** [Application.hasPrefix], [provesNoEffect], [fences], [effect]. *)
Definition hasPrefix (a : Application) : bool := bool_decide (ap_Outcome a ≠ ApplicationAbsent).
Definition provesNoEffect (a : Application) : bool :=
  match ap_Outcome a with ApplicationAbsent | ApplicationAbandoned => true | _ => false end.
Definition fences (a : Application) (epoch : Z) : bool := (epoch <? SupersedingEpoch a)%Z.
Definition effect (a : Application) (at_ : Z) : Effect := mkEffect at_ (EffectEventID a) (EffectSeq a).

Record Claim := mkClaim { cl_ExpectedRevision : Z; cl_Epoch : Z; cl_ExpiresAt : Z }.
Record Completion := mkCompletion { co_ExpectedRevision : Z; co_Epoch : Z; co_Effect : Effect }.

(** The [ErrorDetail]s the applier writes. *)
Inductive ErrorCode := ErrorCodeCommandRejected | ErrorCodeGateNotResumable.
Record ErrorDetail := mkDetail { d_Code : ErrorCode; d_Retryable : bool }.
Record Rejection := mkRejection { re_ExpectedRevision : Z; re_Epoch : Z; re_Detail : ErrorDetail }.

Inductive AE : Type → Type :=
| ALoadCommand (id : string) : AE (res Record_)
| ALoadPayload (id : string) : AE (res Payload)
| AFindApplication (id : string) : AE (res Application)
| ALoadGate (gate : string) : AE (res (Gate * bool))
| AClaimCommand (id : string) (claim : Claim) : AE (res Z)
| ABeginApplying (id : string) (applying : Claim) : AE (res Z)
| ACompleteCommand (id : string) (completion : Completion) : AE (option error)
| ARejectCommand (id : string) (rejection : Rejection) : AE (option error)
| AAppendApplicationPrefix (prefix : Prefix) : AE (option error)
| AApplyCommand (command : RuntimeCommand) : AE (option error)
| ANow : AE Z
| AEndedBy : AE (option LossReason)
| ALeaseLost : AE bool
| AEnd (r : LossReason) : AE unit.

#[export] Program Instance AE_fence : FenceEvents AE := {|
  ev_endedBy := AEndedBy;
  ev_lost := ALeaseLost;
  ev_end := AEnd;
  as_endedBy o := match o with Obs e x =>
    match e in AE X return X → _ with AEndedBy => Some | _ => fun _ => None end x end;
  as_lost o := match o with Obs e x =>
    match e in AE X return X → _ with ALeaseLost => Some | _ => fun _ => None end x end;
  as_end o := match o with Obs e x =>
    match e in AE X return X → _ with AEnd r => fun _ => Some r | _ => fun _ => None end x end
|}.
Solve Obligations with done.

(** What an applier was constructed over. *)
Record Applier := mkApplier {
  host_id : string;
  ClaimTTL : Z;
  key : Key;
  epoch : Z
}.

(** ** The recovery plan *)

Inductive step := stepClaim | stepApplyUnderHeldClaim | stepDriveApplyingRecord | stepComplete | stepReject.

Implicit Types (a : Applier) (record : Record_) (application : Application).

Definition refuse record (r : ApplyRefusal) : error := ApplyError r (a_CommandID record) None.

(** [checkApplication]. *)
Definition checkApplication a record application : option error :=
  if negb (outcome_known (ap_Outcome application)) then Some (refuse record RefusalUnresolvedApplication)
  else if bool_decide (ap_Outcome application = ApplicationConflicted) then Some (refuse record RefusalCorrelation)
  else if negb (hasPrefix application) then None
  else if bool_decide (ap_CommandID application ≠ a_CommandID record) then Some (refuse record RefusalCorrelation)
  else if bool_decide (ap_RuntimeCommandID application ≠ a_RuntimeCommandID record)
  then Some (refuse record RefusalCorrelation)
  else if (epoch a <? PrefixEpoch application)%Z then Some (refuse record RefusalStaleEpoch)
  else None.

(** [planApplying]. *)
Definition planApplying a record application : res step :=
  if bool_decide (ap_Outcome application = ApplicationUnresolved)
  then Err (refuse record RefusalUnresolvedApplication)
  else if (a_ClaimEpoch record =? epoch a)%Z then Ok stepDriveApplyingRecord
  else if negb (fences application (a_ClaimEpoch record)) then Err (refuse record RefusalUnfencedApplier)
  else Ok stepReject.

(** [plan]. *)
Definition plan a record application (now : Z) : res step :=
  if (epoch a <? a_ClaimEpoch record)%Z then Err (refuse record RefusalStaleEpoch)
  else if fences application (epoch a) then Err (refuse record RefusalStaleEpoch)
  else match checkApplication a record application with
  | Some err => Err err
  | None =>
      if bool_decide (ap_Outcome application = ApplicationCommitted) then
        if bool_decide (a_State record ≠ StateApplying) then Err (refuse record RefusalCorrelation)
        else Ok stepComplete
      else
        let claimLive := (now <? a_ClaimExpiresAt record)%Z in
        if claimLive && negb (a_ClaimEpoch record =? epoch a)%Z then Err (refuse record RefusalClaimHeld)
        else if bool_decide (a_State record = StateApplying) then planApplying a record application
        else if claimLive then Ok stepApplyUnderHeldClaim
        else if negb (Kind_known (a_Kind record)) then Err (refuse record RefusalUnsupportedKind)
        else if negb (now <? a_ApplyDeadline record)%Z then Err (refuse record RefusalDeadlinePassed)
        else Ok stepClaim
  end.

Section applier.
Context (event_id_valid : string → bool).
(** [ErrorDetail.Validate]. *)
Context (detail_validate : ErrorDetail → option error).
Context (decodeGateResponse : string → res GateResponseRequest).

Abbreviation P := (prog AE).

(** [Effect.Validate]. *)
Definition Effect_Validate (e : Effect) : option error :=
  if (CompletedAt e =? 0)%Z then Some (ApplyError RefusalInvalidEffect "" None)
  else if negb (event_id_valid (EventID e)) then Some (ApplyError RefusalInvalidEffect "" None)
  else if (JournalSeq e =? 0)%Z then Some (ApplyError RefusalInvalidEffect "" None)
  else None.

(** [checkRecord]. *)
Definition checkRecord a record (command : Command) : option error :=
  let problem r := Some (ApplyError r (c_CommandID command) None) in
  if bool_decide (a_TenantID record ≠ TenantID (key a)) || bool_decide (a_SessionID record ≠ SessionID (key a))
  then problem RefusalForeignRecord
  else if bool_decide (a_CommandID record ≠ c_CommandID command) then problem RefusalForeignRecord
  else if negb (a_AcceptedOrder record =? c_AcceptedOrder command)%Z then problem RefusalForeignRecord
  else if negb (known (a_State record)) then problem RefusalUnknownState
  else if (a_Revision record =? 0)%Z then problem RefusalUnrevisionedRecord
  else if (a_RuntimeCommandID record =? 0)%Z then problem RefusalCorrelation
  else None.

(** [checkPayload]. *)
Definition checkPayload record (payload : Payload) : option error :=
  if negb (wellFormed payload) then Some (refuse record RefusalMissingPayload)
  else match a_Kind record with
  | KindInput | KindGateResponse =>
      if negb (present payload) then Some (refuse record RefusalMissingPayload) else None
  | _ => None
  end.

(** [gateResponseTarget]. *)
Definition gateResponseTarget record (payload : Payload) : res string :=
  if empty (Body payload) then Err (refuse record RefusalReferencedGateResponse)
  else match decodeGateResponse (Body payload) with
  | Err err => Err (ApplyError RefusalUnreadableGateResponse (a_CommandID record) (Some err))
  | Ok request =>
      if bool_decide (g_CommandID request ≠ a_CommandID record)
         || bool_decide (g_SessionID request ≠ a_SessionID record)
      then Err (refuse record RefusalCorrelation)
      else Ok (g_GateID request)
  end.

(** [gateResumable]. *)
Definition gateResumable a (gate : Gate) (found : bool) : bool :=
  found && Open gate && bool_decide (OwnerHostID gate = host_id a) && (OwnerEpoch gate =? epoch a)%Z.

(** [gateRejection]. *)
Definition gateRejection a record (payload : Payload) : P (res (option ErrorDetail)) :=
  match gateResponseTarget record payload with
  | Err err => Ret (Err err)
  | Ok gate =>
      let! loaded := call (ALoadGate gate) in
      Ret match loaded with
          | Err err => Err (ApplyError RefusalStore (a_CommandID record) (Some err))
          | Ok (durable, found) =>
              if gateResumable a durable found then Ok None
              else Ok (Some (mkDetail ErrorCodeGateNotResumable false))
          end
  end.

Definition store_error record (err : error) : error :=
  ApplyError RefusalStore (a_CommandID record) (Some err).

(** [complete]. *)
Definition complete a record (revision : Z) application : P (Outcome * option error) :=
  let! now := call ANow in
  let effect := effect application now in
  match Effect_Validate effect with
  | Some err => Ret (mkOutcome StateApplying true, Some err)
  | None =>
      let! err := write (call (ACompleteCommand (a_CommandID record) (mkCompletion revision (epoch a) effect))) in
      match err with
      | Some err =>
          let! lost := held in
          match lost with
          | Some _ => Ret (mkOutcome StateApplying true, None)
          | None => Ret (mkOutcome StateApplying true, Some (store_error record err))
          end
      | None => Ret (mkOutcome StateApplied false, None)
      end
  end.

(** [reject]. *)
Definition reject a record (revision : Z) (detail : ErrorDetail) : P (Outcome * option error) :=
  match detail_validate detail with
  | Some err => Ret (mkOutcome (a_State record) false, Some (store_error record err))
  | None =>
      let! err := write (call (ARejectCommand (a_CommandID record) (mkRejection revision (epoch a) detail))) in
      match err with
      | Some err => Ret (mkOutcome (a_State record) false, Some (store_error record err))
      | None => Ret (mkOutcome StateRejected false, None)
      end
  end.

(** [driveWithPayload]. *)
Definition driveWithPayload a record (revision : Z) (payload : Payload) : P (Outcome * option error) :=
  let! err := write (call (AAppendApplicationPrefix
    (mkPrefix (a_CommandID record) (a_RuntimeCommandID record) (a_Kind record)))) in
  match err with
  | Some err => Ret (mkOutcome StateApplying false, Some (store_error record err))
  | None =>
    let! lost := held in
      match lost with
      | Some err => Ret (mkOutcome StateApplying true, Some (ApplyError RefusalStaleEpoch (a_CommandID record) (Some err)))
      | None =>
          let! err := call (AApplyCommand (mkRuntimeCommand (a_CommandID record) (a_RuntimeCommandID record)
            (a_Kind record) (Body payload) (Ref payload) "" None "")) in
          match err with
          | Some err => Ret (mkOutcome StateApplying true, Some (ApplyError RefusalRuntime (a_CommandID record) (Some err)))
          | None =>
              let! settled := call (AFindApplication (a_CommandID record)) in
              match settled with
              | Err err => Ret (mkOutcome StateApplying true, Some (store_error record err))
              | Ok settled =>
                  if bool_decide (ap_Outcome settled ≠ ApplicationCommitted)
                  then Ret (mkOutcome StateApplying (hasPrefix settled), Some (refuse record RefusalNoCommittedEffect))
                  else complete a record revision settled
              end
          end
      end
  end.

(** [drive]. *)
Definition drive a record (revision : Z) : P (Outcome * option error) :=
  let! loaded := call (ALoadPayload (a_CommandID record)) in
  match loaded with
  | Err err => Ret (mkOutcome StateApplying false, Some (store_error record err))
  | Ok payload =>
      match checkPayload record payload with
      | Some err => Ret (mkOutcome StateApplying false, Some err)
      | None => driveWithPayload a record revision payload
      end
  end.

(** [apply], from the check of the payload on. *)
Definition beginApplying a record (revision : Z) (payload : Payload) : P (Outcome * option error) :=
  let! now := call ANow in
  let! next := write_value (call (ABeginApplying (a_CommandID record)
    (mkClaim revision (epoch a) (now + ClaimTTL a)))) in
  match next with
  | Err err => Ret (mkOutcome StateClaimed false, Some (store_error record err))
  | Ok applyingRevision => driveWithPayload a record applyingRevision payload
  end.

Definition apply a record (revision : Z) : P (Outcome * option error) :=
  let! loaded := call (ALoadPayload (a_CommandID record)) in
  match loaded with
  | Err err => Ret (mkOutcome StateClaimed false, Some (store_error record err))
  | Ok payload =>
      match checkPayload record payload with
      | Some err => Ret (mkOutcome StateClaimed false, Some err)
      | None =>
          let! detail :=
            (if bool_decide (a_Kind record = KindGateResponse) then gateRejection a record payload
             else Ret (Ok None)) in
          match detail with
          | Err err => Ret (mkOutcome StateClaimed false, Some err)
          | Ok (Some detail) => reject a record revision detail
          | Ok None => beginApplying a record revision payload
          end
      end
  end.

(** [claimThenApply]. *)
Definition claimThenApply a record : P (Outcome * option error) :=
  let! now := call ANow in
  let! claimed := write_value (call (AClaimCommand (a_CommandID record)
    (mkClaim (a_Revision record) (epoch a) (now + ClaimTTL a)))) in
  match claimed with
  | Err err => Ret (mkOutcome (a_State record) false, Some (store_error record err))
  | Ok revision => apply a record revision
  end.

(** [Process]. *)
Definition Process a (command : Command) : P (Outcome * option error) :=
  let! loaded := call (ALoadCommand (c_CommandID command)) in
  match loaded with
  | Err err => Ret (mkOutcome (c_State command) false,
                    Some (ApplyError RefusalStore (c_CommandID command) (Some err)))
  | Ok record =>
      match checkRecord a record command with
      | Some problem => Ret (mkOutcome (c_State command) false, Some problem)
      | None =>
          if Terminal (a_State record) then Ret (mkOutcome (a_State record) false, None)
          else
            let! found := call (AFindApplication (a_CommandID record)) in
            match found with
            | Err err => Ret (mkOutcome (a_State record) false, Some (store_error record err))
            | Ok application =>
                let! now := call ANow in
                match plan a record application now with
                | Err err => Ret (mkOutcome (a_State record) (hasPrefix application), Some err)
                | Ok stepComplete => complete a record (a_Revision record) application
                | Ok stepReject =>
                    reject a record (a_Revision record) (mkDetail ErrorCodeCommandRejected true)
                | Ok stepApplyUnderHeldClaim => apply a record (a_Revision record)
                | Ok stepDriveApplyingRecord => drive a record (a_Revision record)
                | Ok stepClaim => claimThenApply a record
                end
            end
      end
  end.

(** ** What an observation is *)

Abbreviation O := (obs AE).

(** Every durable write, in the command store or the journal. *)
Definition is_write (o : O) : bool :=
  match o with Obs e _ =>
    match e with
    | AClaimCommand _ _ | ABeginApplying _ _ | ACompleteCommand _ _ | ARejectCommand _ _
    | AAppendApplicationPrefix _ => true
    | _ => false end end.

Definition is_apply (o : O) : bool :=
  match o with Obs e _ => match e with AApplyCommand _ => true | _ => false end end.

Definition is_complete (o : O) : bool :=
  match o with Obs e _ => match e with ACompleteCommand _ _ => true | _ => false end end.

Definition is_prefix (o : O) : bool :=
  match o with Obs e _ => match e with AAppendApplicationPrefix _ => true | _ => false end end.

Definition prefix_ok (o : O) : bool :=
  match o with Obs e x =>
    match e in AE X return X → bool with
    | AAppendApplicationPrefix _ => fun err => bool_decide (err = None) | _ => fun _ => false end x end.

Definition committed (o : O) : bool :=
  match o with Obs e x =>
    match e in AE X return X → bool with
    | AFindApplication _ => fun r => match r with
        | Ok ap => bool_decide (ap_Outcome ap = ApplicationCommitted) | Err _ => false end
    | _ => fun _ => false end x end.

(** The record is known to be terminal: it was loaded so, or made so. *)
Definition terminal_ok (o : O) : bool :=
  match o with Obs e x =>
    match e in AE X return X → bool with
    | ACompleteCommand _ _ | ARejectCommand _ _ => fun err => bool_decide (err = None)
    | ALoadCommand _ => fun r => match r with Ok rec => Terminal (a_State rec) | Err _ => false end
    | _ => fun _ => false end x end.

(** The revision a call answered, and the one (with its epoch) a call expects. *)
Definition revision_of (o : O) : option Z :=
  match o with Obs e x =>
    match e in AE X return X → option Z with
    | ALoadCommand _ => fun r => match r with Ok rec => Some (a_Revision rec) | Err _ => None end
    | AClaimCommand _ _ | ABeginApplying _ _ => fun r => match r with Ok rev => Some rev | Err _ => None end
    | _ => fun _ => None end x end.

Definition expects (o : O) : option (Z * Z) :=
  match o with Obs e _ =>
    match e with
    | AClaimCommand _ c | ABeginApplying _ c => Some (cl_ExpectedRevision c, cl_Epoch c)
    | ACompleteCommand _ c => Some (co_ExpectedRevision c, co_Epoch c)
    | ARejectCommand _ c => Some (re_ExpectedRevision c, re_Epoch c)
    | _ => None end end.

(** The last revision the store answered. *)
Definition last_revision (t : list O) : option Z :=
  fold_left (fun known o => match revision_of o with Some r => Some r | None => known end) t None.

Lemma last_revision_snoc t o :
  last_revision (t ++ [o]) = match revision_of o with Some r => Some r | None => last_revision t end.
Proof. unfold last_revision. by rewrite fold_left_app. Qed.

(** A rejection the store is asked for. *)
Definition rejects (o : O) : option (string * Rejection) :=
  match o with Obs e _ => match e with ARejectCommand id r => Some (id, r) | _ => None end end.

(** ** The discipline every call obeys *)

(** What this call read of the command, of its record and of the journal: no effect is
    committed, and nothing contradicts the record or is past this applier's epoch. *)
Record judged a (t : list O) record application : Prop := {
  ju_loaded : Obs (ALoadCommand (a_CommandID record)) (Ok record) ∈ t;
  ju_found : Obs (AFindApplication (a_CommandID record)) (Ok application) ∈ t;
  ju_outcome : outcome_known (ap_Outcome application) = true ∧ ap_Outcome application ≠ ApplicationCommitted ∧
               ap_Outcome application ≠ ApplicationConflicted;
  ju_epochs : (a_ClaimEpoch record ≤ epoch a)%Z ∧ (SupersedingEpoch application ≤ epoch a)%Z
}.

(** Why a command may be rejected: as abandoned, when the record is applying under an
    earlier epoch, the journal proves no effect and fences that epoch out; as a gate
    answer, when the command never began applying and its gate is not this Host's to
    resume. *)
Definition grounds a (t : list O) (id : string) (detail : ErrorDetail) : Prop :=
  ∃ record application, a_CommandID record = id ∧ judged a t record application ∧
  match d_Code detail with
  | ErrorCodeCommandRejected =>
      a_State record = StateApplying ∧ (a_ClaimEpoch record < epoch a)%Z ∧
      provesNoEffect application = true ∧ (a_ClaimEpoch record < SupersedingEpoch application)%Z
  | ErrorCodeGateNotResumable =>
      a_State record ≠ StateApplying ∧ a_Kind record = KindGateResponse ∧
      ∃ gate durable found, Obs (ALoadGate gate) (Ok (durable, found)) ∈ t ∧ gateResumable a durable found = false
  end.

Record lawful a (t : list O) (o : O) : Prop := {
  lw_fenced : is_write o = true → just_held t;
  lw_swap rev ep : expects o = Some (rev, ep) → last_revision t = Some rev ∧ ep = epoch a;
  lw_apply : is_apply o = true → just_held t ∧ seen prefix_ok t = true ∧ seen is_apply t = false;
  lw_prefix : is_prefix o = true → seen is_prefix t = false;
  lw_complete : is_complete o = true → seen committed t = true;
  lw_reject id r : rejects o = Some (id, r) → seen is_prefix t = false ∧ grounds a t id (re_Detail r)
}.

(** What an answer without an error means. *)
Definition answered (t : list O) (r : Outcome * option error) : Prop :=
  r.2 = None →
  (Terminal (o_State r.1) = true → seen terminal_ok t = true) ∧
  (PrefixOwned r.1 = true → seen committed t = true).

(** A history in which this command has not been driven, at a known revision. *)
Record fresh (t : list O) (rev : Z) : Prop := {
  fr_apply : seen is_apply t = false;
  fr_prefix : seen is_prefix t = false;
  fr_revision : last_revision t = Some rev
}.

Abbreviation lawfully a := (safe any_env (lawful a) answered).

Ltac lawful_leaf :=
  repeat match goal with H : fresh _ _ |- _ => destruct H end;
  solve
    [ split; simpl; try done; intros;
      try (match goal with H : Some _ = Some _ |- _ => injection H as <- <- end);
      repeat match goal with |- _ ∧ _ => split end;
      rewrite ?last_revision_snoc; autorewrite with trace; simpl;
      rewrite ?orb_true_r, ?orb_false_r; auto; refine (just_held_snoc _)
    | intros ?; simpl in *; split; intros; simplify_eq/=; autorewrite with trace; simpl;
      rewrite ?orb_true_r; auto ].

Ltac lawful_path :=
  repeat first
    [ match goal with H : Some _ = None |- _ => discriminate H end
    | progress symbolic_step
    | match goal with
      | |- ∀ _ : _, any_env _ _ → _ ∧ _ => intros ? _; split; [lawful_leaf|]
      | |- answered _ _ => lawful_leaf
      | |- safe _ _ _ _ (bind (bind _ _) _) => apply safe_bind
      end
    | progress case_match; simpl ].

Lemma complete_lawful a record rev application t :
  last_revision t = Some rev → seen committed t = true →
  lawfully a t (complete a record rev application).
Proof. intros Hr Hc. unfold complete, write, held. lawful_path. Qed.

Lemma judged_app a t t' record application : judged a t record application → judged a (t ++ t') record application.
Proof. intros []. split; try done; apply elem_of_app; by left. Qed.

Lemma grounds_app a t t' id detail : grounds a t id detail → grounds a (t ++ t') id detail.
Proof.
  intros (record & application & Hid & Hj & H). exists record, application. split; [done|]. split; [by apply judged_app|].
  destruct (d_Code detail); [done|]. destruct H as (? & ? & gate & durable & found & Hin & ?). split_and!; [done..|].
  exists gate, durable, found. split; [|done]. apply elem_of_app. by left.
Qed.

Lemma reject_lawful a record rev detail t :
  fresh t rev → grounds a t (a_CommandID record) detail → lawfully a t (reject a record rev detail).
Proof.
  intros [] Hg. unfold reject, write, held.
  repeat first [ progress lawful_path | match goal with
    | |- ∀ _ : _, any_env _ _ → _ ∧ _ => intros ? _; split;
        [split; simpl; try done; intros; simplify_eq/=; rewrite ?last_revision_snoc; autorewrite with trace; simpl;
          rewrite ?orb_false_r; first [refine (just_held_snoc _)|by split|split; [done|by repeat apply grounds_app]]|]
    end ].
Qed.

(** Calls that leave a history fresh. *)
Definition neutral (o : O) : bool :=
  negb (is_apply o) && negb (is_prefix o) && bool_decide (revision_of o = None).

Lemma fresh_snoc t rev o : fresh t rev → neutral o = true → fresh (t ++ [o]) rev.
Proof.
  intros [] Hn. unfold neutral in Hn.
  rewrite !andb_true_iff, !negb_true_iff, bool_decide_eq_true in Hn. destruct Hn as [[Ha Hp] Hr].
  split; autorewrite with trace; rewrite ?last_revision_snoc, ?Hr, ?Ha, ?Hp, ?orb_false_r; auto.
Qed.

Lemma fresh_revised t rev o rev' :
  fresh t rev → is_apply o = false → is_prefix o = false → revision_of o = Some rev' →
  fresh (t ++ [o]) rev'.
Proof.
  intros [] Ha Hp Hr. split; autorewrite with trace; rewrite ?last_revision_snoc, ?Hr, ?Ha, ?Hp, ?orb_false_r; auto.
Qed.

#[local] Opaque complete reject.

Lemma driveWithPayload_lawful a record rev payload t :
  fresh t rev → lawfully a t (driveWithPayload a record rev payload).
Proof.
  intros []. unfold driveWithPayload, write, held. lawful_path.
  apply complete_lawful; autorewrite with trace; simpl.
  - rewrite !last_revision_snoc. done.
  - match goal with H : bool_decide (ap_Outcome ?s ≠ _) = false |- _ =>
      apply bool_decide_eq_false in H; assert (ap_Outcome s = ApplicationCommitted) as -> by (by apply dec_stable)
    end.
    by rewrite !orb_true_r.
Qed.

#[local] Opaque driveWithPayload.

Lemma drive_lawful a record rev t :
  fresh t rev → lawfully a t (drive a record rev).
Proof.
  intros Hf. unfold drive. lawful_path. apply driveWithPayload_lawful.
  by apply fresh_snoc.
Qed.

Ltac stay_fresh :=
  repeat (apply fresh_snoc; [|reflexivity]);
  first [ eassumption | eapply fresh_revised; [stay_fresh|reflexivity..] ].

Lemma beginApplying_lawful a record rev payload t :
  fresh t rev → lawfully a t (beginApplying a record rev payload).
Proof.
  intros Hf. unfold beginApplying, write_value, held. lawful_path.
  apply driveWithPayload_lawful. stay_fresh.
Qed.

#[local] Opaque drive beginApplying.

(** A call of no consequence. *)
Lemma other_lawful a t o :
  is_write o = false → is_apply o = false → lawful a t o.
Proof. intros Hw Ha. destruct o as [X e x]. by split; destruct e. Qed.

Lemma gateRejection_lawful a record application payload rev t :
  fresh t rev → judged a t record application → a_State record ≠ StateApplying → a_Kind record = KindGateResponse →
  safe any_env (lawful a) (fun h r => fresh h rev ∧ ∀ detail, r = Ok (Some detail) → grounds a h (a_CommandID record) detail)
    t (gateRejection a record payload).
Proof.
  intros Hf Hj Hs Hk. unfold gateRejection. destruct (gateResponseTarget record payload) as [gate|err]; [|by split].
  intros loaded _. split; [by apply other_lawful|]. split; [by apply fresh_snoc|]. destruct loaded as [[durable found]|err]; [|done].
  destruct (gateResumable a durable found) eqn:Hg; [done|]. intros detail [= <-]. exists record, application.
  split; [done|]. split; [by apply judged_app|]. split; [done|]. split; [done|]. exists gate, durable, found.
  split; [|done]. apply elem_of_app. right. by left.
Qed.

Lemma apply_lawful a record application rev t :
  fresh t rev → judged a t record application → a_State record ≠ StateApplying → lawfully a t (apply a record rev).
Proof.
  intros Hf Hj Hs. unfold apply. intros loaded _. split; [by apply other_lawful|].
  apply (fresh_snoc _ _ (Obs (ALoadPayload (a_CommandID record)) loaded)) in Hf; [|done].
  apply (judged_app _ _ [Obs (ALoadPayload (a_CommandID record)) loaded]) in Hj.
  destruct loaded as [payload|err]; [|lawful_path]. cbn [bind]. destruct (checkPayload record payload); [lawful_path|].
  eapply safe_bind_spec with (Q1 := fun h r => fresh h rev ∧ ∀ detail, r = Ok (Some detail) → grounds a h (a_CommandID record) detail).
  - case_bool_decide; [by eapply gateRejection_lawful|by split].
  - intros h [[detail|]|err] [Hh Hd]; [|by apply beginApplying_lawful|lawful_path]. apply reject_lawful; auto.
Qed.

#[local] Opaque apply.

Lemma claimThenApply_lawful a record application t :
  fresh t (a_Revision record) → judged a t record application → a_State record ≠ StateApplying →
  lawfully a t (claimThenApply a record).
Proof.
  intros Hf Hj Hs. unfold claimThenApply, write_value, held. lawful_path.
  eapply apply_lawful; [stay_fresh|by repeat apply judged_app|done].
Qed.

#[local] Opaque claimThenApply.

Lemma plan_committed a record application now :
  plan a record application now = Ok stepComplete → ap_Outcome application = ApplicationCommitted.
Proof. unfold plan, planApplying. intros. repeat (case_match; simplify_eq/=); by eapply bool_decide_eq_true_1. Qed.

(** Every guard of the plan, taken apart. *)
Ltac plan_cases H :=
  unfold plan, checkApplication, hasPrefix, planApplying, fences, provesNoEffect, outcome_known in *;
  repeat match type of H with
  | context [Z.ltb ?x ?y] => destruct (Z.ltb_spec x y); simpl in H
  | context [match ap_Outcome ?x with _ => _ end] => destruct (ap_Outcome x) eqn:?; simpl in H
  | context [ap_Outcome ?x] => destruct (ap_Outcome x) eqn:?; simpl in H
  | context [bool_decide ?p] => destruct (bool_decide_reflect p); simpl in H
  | context [Z.eqb ?x ?y] => destruct (Z.eqb_spec x y); simpl in H
  | context [negb ?b] => destruct b eqn:?; simpl in H
  end; simplify_eq/=.

(** What the plan read, for the steps that may reject. *)
Lemma plan_judged a record application now st :
  plan a record application now = Ok st → st ≠ stepComplete →
  (outcome_known (ap_Outcome application) = true ∧ ap_Outcome application ≠ ApplicationCommitted ∧
   ap_Outcome application ≠ ApplicationConflicted) ∧
  ((a_ClaimEpoch record ≤ epoch a)%Z ∧ (SupersedingEpoch application ≤ epoch a)%Z) ∧
  match st with
  | stepReject => a_State record = StateApplying ∧ (a_ClaimEpoch record < epoch a)%Z ∧
      provesNoEffect application = true ∧ (a_ClaimEpoch record < SupersedingEpoch application)%Z
  | stepClaim | stepApplyUnderHeldClaim => a_State record ≠ StateApplying
  | _ => True
  end.
Proof.
  intros H Hst. plan_cases H; try done; split_and!; try done; try lia.
Qed.

Lemma Process_lawful a command : lawfully a [] (Process a command).
Proof.
  unfold Process. intros loaded _. split; [by apply other_lawful|]. simpl. destruct loaded as [record|err]; [|lawful_path].
  destruct (checkRecord a record command) eqn:Hcr; [lawful_path|]. destruct (Terminal (a_State record)) eqn:Hterm; [lawful_path|].
  intros found _. split; [by apply other_lawful|]. simpl. destruct found as [application|err]; [|lawful_path].
  intros now _. split; [by apply other_lawful|]. simpl.
  destruct (plan a record application now) as [st|err] eqn:Hplan; [|lawful_path].
  assert (a_CommandID record = c_CommandID command) as Hid.
  { unfold checkRecord in Hcr. repeat (case_match; simplify_eq/=). by match goal with H : bool_decide (a_CommandID _ ≠ _) = false |- _ => apply bool_decide_eq_false in H; apply dec_stable end. }
  set (t := [Obs (ALoadCommand (c_CommandID command)) (Ok record); Obs (AFindApplication (a_CommandID record)) (Ok application); Obs ANow now]).
  assert (fresh t (a_Revision record)) as Hf by (by split).
  assert (st = stepComplete ∨ st ≠ stepComplete) as [->|Hst] by (destruct st; auto).
  { apply complete_lawful; [done|]. apply plan_committed in Hplan as He. simpl. by rewrite He. }
  destruct (plan_judged _ _ _ _ _ Hplan Hst) as (Ho & He & Hs).
  assert (judged a t record application) as Hj by (split; [rewrite Hid; by left|right; by left|done|done]).
  destruct st; [by eapply claimThenApply_lawful|by eapply apply_lawful|by apply drive_lawful|done|].
  apply reject_lawful; [done|]. exists record, application. by split_and!.
Qed.

Lemma Process_each a command t r :
  runs (Process a command) t r →
  answered t r ∧ ∀ t1 o t2, t = t1 ++ o :: t2 → lawful a t1 o.
Proof. apply safe_runs_any, Process_lawful. Qed.

(** C10 A command is driven at most once, and only after its application prefix
    was durably appended by this very call and the fence was found still held:
    a crash or a lost lease can leave a prefix without an effect, never an
    effect without a prefix. *)
Theorem driven_once_after_prefix a command t r t1 o t2 (Hrun : runs (Process a command) t r)
    (Ht : t = t1 ++ o :: t2) (Ho : is_apply o = true) :
  just_held t1 ∧ seen prefix_ok t1 = true ∧ seen is_apply t1 = false.
Proof. by apply (proj2 (Process_each _ _ _ _ Hrun) _ _ _ Ht). Qed.

(** Every durable write is made right after the fence was found held, and
    every transition of the record is a compare-and-swap on the last revision
    the store answered, stamped with the applier's own epoch. *)
Theorem writes_swap a command t r t1 o t2 (Hrun : runs (Process a command) t r)
    (Ht : t = t1 ++ o :: t2) (Ho : is_write o = true) :
  just_held t1 ∧
  (is_prefix o = true ∨ ∃ rev, expects o = Some (rev, epoch a) ∧ last_revision t1 = Some rev).
Proof.
  destruct (proj2 (Process_each _ _ _ _ Hrun) _ _ _ Ht) as [Hf Hs _ _ _ _].
  split; [by apply Hf|]. destruct o as [X e x]. destruct e; try done; simpl in *; [..|by left].
  all: right; eexists; destruct (Hs _ _ eq_refl) as [? ->]; done.
Qed.

(** C18 Settling is honest, in every run of a command, whatever fails in it.  It is
    completed only after the journal reported its effect committed.  It is rejected
    only by a call that drove nothing and appended no prefix, on what that same call
    read: as abandoned, only when its record was applying under an earlier epoch, the
    journal answered that no effect was committed, and had fenced that epoch out, so
    that none can be; as a gate answer, only when the command never began applying, the
    journal reports no committed effect of it, and its gate is not this Host's to
    resume.  A run without an error reports it terminal only when the store accepted
    the transition or already held a terminal record, and reports an owned prefix only
    when the journal reported the effect committed. *)
Theorem settles_honestly a command t out err (Hrun : runs (Process a command) t (out, err)) :
  (err = None → Terminal (o_State out) = true → seen terminal_ok t = true) ∧
  (err = None → PrefixOwned out = true → seen committed t = true) ∧
  precedes committed is_complete t ∧
  (∀ t1 o t2 id rejection, t = t1 ++ o :: t2 → rejects o = Some (id, rejection) →
     seen is_prefix t1 = false ∧ seen is_apply t1 = false ∧ grounds a t1 id (re_Detail rejection)).
Proof.
  destruct (Process_each _ _ _ _ Hrun) as [Ha Hl]. split_and!.
  - intros ->. by apply Ha.
  - intros ->. by apply Ha.
  - intros t1 o t2 Ht Ho. by apply (Hl _ _ _ Ht).
  - intros t1 o t2 id rejection Ht Ho. destruct (Hl _ _ _ Ht) as [_ _ _ _ _ Hrej]. destruct (Hrej _ _ Ho) as [Hp Hg].
    split; [done|]. split; [|done]. destruct (seen is_apply t1) eqn:Hs; [|done]. exfalso.
    unfold seen in Hs. apply existsb_exists in Hs as (o' & Hin & Ho').
    apply list_elem_of_In, list_elem_of_split in Hin as (t3 & t4 & ->).
    rewrite <-app_assoc in Ht. simpl in Ht. destruct (Hl _ _ _ Ht) as [_ _ Happ _ _ _].
    destruct (Happ Ho') as (_ & Hpo & _). revert Hp. rewrite seen_app.
    assert (seen is_prefix t3 = true) as ->; [|done].
    unfold seen in *. apply existsb_exists in Hpo as (p & Hin & Hpo). apply existsb_exists. exists p.
    split; [done|]. destruct p as [X e x]. by destruct e.
Qed.

(** The record a load answered. *)
Definition loaded_of (o : O) : option (res Record_) :=
  match o with Obs e x =>
    match e in AE X return X → _ with ALoadCommand _ => Some | _ => fun _ => None end x end.

(** A terminal record is never touched again: once loaded and matched to the
    command, it is answered with no further call of any kind. *)
Theorem terminal_untouched a command t r id record t'
    (Hrun : runs (Process a command) t r)
    (Hload : t = Obs (ALoadCommand id) (Ok record) :: t')
    (Hmatch : checkRecord a record command = None) (Hterm : Terminal (a_State record) = true) :
  t' = [] ∧ r = (mkOutcome (a_State record) false, None).
Proof.
  subst t. unfold Process in Hrun. simpl in Hrun. destruct Hrun as (x & t2 & Heq & Hrun).
  pose proof (f_equal tail Heq) as Ht. simpl in Ht. subst t2.
  apply (f_equal (fun l => head l ≫= loaded_of)) in Heq. simpl in Heq. injection Heq as <-.
  rewrite Hmatch, Hterm in Hrun. done.
Qed.

(** ** The recovery plan *)

(** The recovery plan acts only within this applier's authority: never on a
    record claimed under a later epoch nor past a later journal fence; it claims
    afresh only a known kind before its deadline under no live claim; it drives
    or applies only under its own live claim or its own applying record; it
    completes only a committed effect correlated with this very command; and it
    rejects only an abandoned application whose former owner is fenced out, so no
    effect can follow. *)
Theorem plan_authorized a record application now st
    (H : plan a record application now = Ok st) :
  (a_ClaimEpoch record ≤ epoch a)%Z ∧ (SupersedingEpoch application ≤ epoch a)%Z ∧
  match st with
  | stepClaim => Kind_known (a_Kind record) = true ∧ (now < a_ApplyDeadline record)%Z ∧
      (a_ClaimExpiresAt record ≤ now)%Z ∧ a_State record ≠ StateApplying
  | stepApplyUnderHeldClaim => a_ClaimEpoch record = epoch a ∧ (now < a_ClaimExpiresAt record)%Z ∧
      a_State record ≠ StateApplying
  | stepDriveApplyingRecord => a_ClaimEpoch record = epoch a ∧ a_State record = StateApplying ∧
      provesNoEffect application = true
  | stepComplete => ap_Outcome application = ApplicationCommitted ∧ a_State record = StateApplying ∧
      ap_CommandID application = a_CommandID record ∧
      ap_RuntimeCommandID application = a_RuntimeCommandID record
  | stepReject => a_State record = StateApplying ∧ (a_ClaimEpoch record < epoch a)%Z ∧
      (a_ClaimEpoch record < SupersedingEpoch application)%Z ∧ provesNoEffect application = true
  end.
Proof.
  unfold plan in H.
  destruct (Z.ltb_spec (epoch a) (a_ClaimEpoch record)); [done|].
  unfold fences in H. destruct (Z.ltb_spec (epoch a) (SupersedingEpoch application)); [done|].
  split; [done|]. split; [done|].
  unfold checkApplication, hasPrefix, planApplying, fences, provesNoEffect in *.
  destruct (ap_Outcome application); simpl in H; try done;
    repeat match type of H with
    | context [bool_decide ?p] => destruct (bool_decide_reflect p); simpl in H
    | context [Z.ltb ?x ?y] => destruct (Z.ltb_spec x y); simpl in H
    | context [Z.eqb ?x ?y] => destruct (Z.eqb_spec x y); simpl in H
    | context [negb ?b] => destruct b eqn:?; simpl in H
    end; simplify_eq; split_and!; try done; try lia;
    match goal with H : ¬ (_ ≠ _) |- _ => by apply dec_stable in H end.
Qed.

End applier.

(** ** Witnesses *)

Definition sample_applier : Applier := mkApplier "host-1" 30 (Wire.mkKey "t" "s") 4.

Definition sample_record (st : State) : Record_ :=
  mkRecord "t" "s" "c1" 77 KindInput st 6 11 1000 0 0.

Definition sample_command : Command := mkCommand "t" "s" "c1" 6 StatePending 77.

Definition sample_application (o : ApplicationOutcome) : Application :=
  mkApplication "c1" 77 o 4 "event" 21 0.

(** Stores that accept everything; the state is whether the runtime was driven. *)
Definition sample_world (st : State) : handler AE bool := fun X e =>
  match e in AE X return bool → X * bool with
  | ALoadCommand _ => fun s => (Ok (sample_record st), s)
  | ALoadPayload _ => fun s => (Ok (mkPayload "{}" no_ref), s)
  | AFindApplication _ => fun s =>
      (Ok (sample_application (if s then ApplicationCommitted else ApplicationAbsent)), s)
  | ALoadGate _ => fun s => (Ok (zero_gate, false), s)
  | AClaimCommand _ _ => fun s => (Ok 12%Z, s)
  | ABeginApplying _ _ => fun s => (Ok 13%Z, s)
  | ACompleteCommand _ _ | ARejectCommand _ _ | AAppendApplicationPrefix _ => fun s => (None, s)
  | AApplyCommand _ => fun _ => (None, true)
  | ANow => fun s => (100%Z, s)
  | AEndedBy => fun s => (None, s)
  | ALeaseLost => fun s => (false, s)
  | AEnd _ => fun s => (tt, s)
  end.

Definition sample_Process : prog AE (Outcome * option error) :=
  Process (fun _ => true) (fun _ => None) (fun _ => Err (EForeign "json")) sample_applier sample_command.

Definition sample_run := exec (sample_world StatePending) sample_Process false.

Lemma sample_applier_runs : runs sample_Process sample_run.2 (mkOutcome StateApplied false, None).
Proof. apply (exec_runs (sample_world StatePending) _ false _ true). vm_compute. reflexivity. Qed.

(** A predecessor's command, abandoned behind a later fence. *)
Definition sample_abandoned : handler AE bool := fun X e =>
  match e in AE X return bool → X * bool with
  | AFindApplication _ => fun s => (Ok (mkApplication "c1" 77 ApplicationAbandoned 4 "" 0 3), s)
  | e' => sample_world StateApplying _ e'
  end.

Definition sample_rejected := exec sample_abandoned sample_Process false.

Lemma settles_honestly_witness :
  seen terminal_ok sample_rejected.2 = true ∧
  ∃ t1 o t2 rejection, sample_rejected.2 = t1 ++ o :: t2 ∧ rejects o = Some ("c1", rejection) ∧
    grounds sample_applier t1 "c1" (re_Detail rejection).
Proof.
  assert (runs sample_Process sample_rejected.2 (mkOutcome StateRejected false, None)) as Hr.
  { apply (exec_runs sample_abandoned _ false _ false). vm_compute. reflexivity. }
  destruct (settles_honestly (fun _ => true) (fun _ => None) (fun _ => Err (EForeign "json"))
    sample_applier sample_command sample_rejected.2 _ _ Hr) as (H1 & _ & _ & H4).
  split; [exact (H1 eq_refl eq_refl)|]. set (n := length sample_rejected.2 - 1).
  exists (take n sample_rejected.2), (nth n sample_rejected.2 (Obs AEndedBy None)), [], (mkRejection 11 4 (mkDetail ErrorCodeCommandRejected true)).
  assert (sample_rejected.2 = take n sample_rejected.2 ++ [nth n sample_rejected.2 (Obs AEndedBy None)]) as Ht by (vm_compute; reflexivity).
  assert (rejects (nth n sample_rejected.2 (Obs AEndedBy None)) = Some ("c1", mkRejection 11 4 (mkDetail ErrorCodeCommandRejected true))) as Ho
    by (vm_compute; reflexivity).
  split; [exact Ht|]. split; [exact Ho|]. exact (proj2 (proj2 (H4 _ _ [] _ _ Ht Ho))).
Defined.

Lemma driven_once_after_prefix_witness :
  seen is_apply (take 17 sample_run.2) = false ∧ is_apply (nth 17 sample_run.2 (Obs AEndedBy None)) = true.
Proof.
  split; [|vm_compute; reflexivity].
  refine (proj2 (proj2 (driven_once_after_prefix (fun _ => true) (fun _ => None)
    (fun _ => Err (EForeign "json")) sample_applier sample_command sample_run.2 _ (take 17 sample_run.2)
    (nth 17 sample_run.2 (Obs AEndedBy None)) (drop 18 sample_run.2) sample_applier_runs _ _)));
    vm_compute; reflexivity.
Defined.

Lemma writes_swap_witness : just_held (take 6 sample_run.2).
Proof.
  refine (proj1 (writes_swap (fun _ => true) (fun _ => None)
    (fun _ => Err (EForeign "json")) sample_applier sample_command sample_run.2 _ (take 6 sample_run.2)
    (nth 6 sample_run.2 (Obs AEndedBy None)) (drop 7 sample_run.2) sample_applier_runs _ _));
    vm_compute; reflexivity.
Defined.

Lemma terminal_untouched_witness :
  ∃ t r, runs sample_Process (Obs (ALoadCommand "c1") (Ok (sample_record StateRejected)) :: t) r ∧ t = [].
Proof.
  assert (runs sample_Process [Obs (ALoadCommand "c1") (Ok (sample_record StateRejected))]
    (mkOutcome StateRejected false, None)) as Hr.
  { apply (exec_runs (sample_world StateRejected) _ false _ false). vm_compute. reflexivity. }
  exists [], (mkOutcome StateRejected false, None). split; [exact Hr|].
  exact (proj1 (terminal_untouched (fun _ => true) (fun _ => None) (fun _ => Err (EForeign "json"))
    sample_applier sample_command _ _ "c1" (sample_record StateRejected) [] Hr eq_refl eq_refl eq_refl)).
Defined.

Lemma plan_authorized_witness :
  plan sample_applier (sample_record StatePending) (sample_application ApplicationAbsent) 100 = Ok stepClaim ∧
  (100 < 1000)%Z.
Proof.
  split; [reflexivity|].
  exact (proj1 (proj2 (proj2 (proj2 (plan_authorized sample_applier (sample_record StatePending)
    (sample_application ApplicationAbsent) 100 stepClaim eq_refl))))).
Defined.
End Applier.
