(* ===== verification/Disposition.v ===== *)
(** * Disposition.v: dispatching a command under an authorized attempt

    [DispositionApplier] of [internal/commands/disposition_applier.go] with the
    types of [disposition.go].  The disposition store, the object store, the
    gates, the runtime, the journal lease, the closer, the clock and the fence are
    calls of [DE]; the JSON decoders, SHA-256 and the identifier validators are
    parameters.                                                               *)
From Stdlib Require Import ZArith.
From stdpp Require Import base list strings gmap.
From S2P Require Import Prelude Wire Errors Effects Fence Commands.

Module Disposition.
Import Fence Commands.
Local Open Scope prog_scope.

Definition ErrEnduringEffect : error := ESentinel "department.ErrEnduringEffect".
Definition ErrDispositionUnsupported : error := ESentinel "department.ErrDispositionUnsupported".
Definition ErrNoAttemptCloser : error := ESentinel "department.ErrNoAttemptCloser".
Definition ErrPrefixCommitted : error := ESentinel "department.ErrPrefixCommitted".
Definition ErrEvidenceUnroutable : error := ESentinel "commands.ErrEvidenceUnroutable".

Record DispositionRecord := mkRecord {
  d_TenantID : string;
  d_SessionID : string;
  d_CommandID : string;
  d_RuntimeCommandID : Z;
  d_Kind : Kind;
  d_State : State;
  d_AcceptedOrder : Z;
  d_Revision : Z;
  d_ApplyDeadline : Z;
  ClaimResidencyEpoch : Z;
  d_ClaimExpiresAt : Z;
  d_AttemptID : string;
  AttemptJournalEpoch : Z;
  AttemptResidencyEpoch : Z
}.

(** [hasAttempt]. *)
Definition hasAttempt (r : DispositionRecord) : bool := negb (empty (d_AttemptID r)).

Record DispositionClaim := mkClaim { cl_ExpectedRevision : Z; cl_ExpiresAt : Z }.
Record DispositionAttempt := mkAttempt {
  at_ExpectedRevision : Z;
  at_AttemptID : string;
  at_JournalEpoch : Z;
  at_ResidencyEpoch : Z;
  at_StartedAt : Z
}.
Record DispositionSettlement := mkSettlement { se_ExpectedRevision : Z; se_ResidencyEpoch : Z }.
Record DispositionRejection := mkRejection { re_ExpectedRevision : Z; re_ResidencyEpoch : Z }.

(** [sessionwire.ObjectMetadata]. *)
Record ObjectMetadata := mkMetadata { md_Reference : ObjectReference; SizeBytes : Z; Digest : string }.

Inductive DE : Type → Type :=
| DLoadCommand (id : string) : DE (res DispositionRecord)
| DLoadPayload (id : string) : DE (res Payload)
| DClaim (id : string) (claim : DispositionClaim) : DE (res Z)
| DBeginAttempt (id : string) (attempt : DispositionAttempt) : DE (res Z)
| DSettle (id : string) (settlement : DispositionSettlement) : DE (res State)
| DReject (id : string) (rejection : DispositionRejection) : DE (option error)
| DGetObjectMetadata (ref : ObjectReference) : DE (res ObjectMetadata)
| DGetObject (metadata : ObjectMetadata) : DE (option error)
| DCopy (limit : Z) : DE (string * option error) (* io.Copy from the LimitReader *)
| DClose : DE (option error)
| DLoadGate (gate : string) : DE (res (Gate * bool))
| DLeaseEpoch : DE (option Z)
| DNewAttemptID : DE (res string)
| DApplyCommand (command : RuntimeCommand) : DE (option error)
| DCloseAttempt (id : string) (runtime : Z) (kind : Kind) (attempt : string) (epoch : Z) : DE (option error)
| DStranded (id : string) (cause : error) : DE unit
| DCtxErr : DE (option error)
| DNow : DE Z
| DEndedBy : DE (option LossReason)
| DLeaseLost : DE bool
| DEnd (r : LossReason) : DE unit.

#[export] Program Instance DE_fence : FenceEvents DE := {|
  ev_endedBy := DEndedBy;
  ev_lost := DLeaseLost;
  ev_end := DEnd;
  as_endedBy o := match o with Obs e x =>
    match e in DE X return X → _ with DEndedBy => Some | _ => fun _ => None end x end;
  as_lost o := match o with Obs e x =>
    match e in DE X return X → _ with DLeaseLost => Some | _ => fun _ => None end x end;
  as_end o := match o with Obs e x =>
    match e in DE X return X → _ with DEnd r => fun _ => Some r | _ => fun _ => None end x end
|}.
Solve Obligations with done.

(** What an applier was constructed over; the optional collaborators that may be
    nil are flags. *)
Record DispositionApplier := mkApplier {
  ClaimTTL : Z;
  key : Key;
  residency : Z;
  has_objects : bool;
  maxBody : Z;
  has_closer : bool;
  has_gates : bool;
  has_stranded : bool
}.

Implicit Types (a : DispositionApplier) (record : DispositionRecord).

Definition refuse record (r : ApplyRefusal) (cause : option error) : error :=
  ApplyError r (d_CommandID record) cause.

(** [storeRefusal]. *)
Definition storeRefusal record (err : error) : error :=
  match as_apply_error err with
  | Some _ => err
  | None => refuse record RefusalStore (Some err)
  end.

(** [permanentObjectFailure]. *)
Definition permanentObjectFailure (err : error) : bool :=
  let found f := bool_decide (is_Some (errors_as (A := unit) f err)) in
  match errors_as (fun t => match t with TKeyspaceError c => Some c | _ => None end) err with
  | Some (KeyspaceBindingNotFound | KeyspaceScopeInvalid | KeyspaceHashCollision
         | KeyspaceLegacyTenant | KeyspaceLegacySession) => true
  | _ =>
      if found (fun t => match t with TInvalidIdentityError => Some tt | _ => None end) then true
      else match errors_as (fun t => match t with TObjectError c => Some c | _ => None end) err with
      | Some (ObjectErrorInvalid | ObjectErrorSize | ObjectErrorDigest | ObjectErrorIntegrity
             | ObjectErrorMetadataUnavailable) => true
      | _ => found (fun t => match t with TBlobNotFoundError => Some tt | _ => None end)
      end
  end.

(** [strings.HasSuffix] and [strings.TrimPrefix]. *)
Definition has_suffix (suffix s : string) : bool :=
  (String.length suffix <=? String.length s)%nat &&
  bool_decide (String.substring (String.length s - String.length suffix) (String.length suffix) s = suffix).

Definition trim_prefix (prefix s : string) : string :=
  if String.prefix prefix s
  then String.substring (String.length prefix) (String.length s - String.length prefix) s
  else s.

Section disposition.
Context (decodeInput decodeCreate decodeInterrupt decodeRestore : string → res Request).
Context (decodeGateResponse : string → res GateResponseRequest).
Context (validateGateResponse : GateResponseRequest → option error).
Context (gate_uuid : string → bool).
Context (sha256_hex : string → string).

Abbreviation P := (prog DE).

(** [checkDispositionRecord]. *)
Definition checkDispositionRecord a record (command : Command) : option error :=
  let problem r := Some (ApplyError r (c_CommandID command) None) in
  if bool_decide (d_TenantID record ≠ TenantID (key a)) || bool_decide (d_SessionID record ≠ SessionID (key a))
  then problem RefusalForeignRecord
  else if bool_decide (d_CommandID record ≠ c_CommandID command) then problem RefusalForeignRecord
  else if negb (d_AcceptedOrder record =? c_AcceptedOrder command)%Z then problem RefusalForeignRecord
  else if (d_Revision record =? 0)%Z then problem RefusalUnrevisionedRecord
  else if negb (known (d_State record)) then problem RefusalUnknownState
  else if negb (Kind_known (d_Kind record)) then problem RefusalUnsupportedKind
  else None.

(** [reject]: [None] is "rejected". *)
Definition reject a record (revision : Z) : P (option error) :=
  let! err := write (call (DReject (d_CommandID record) (mkRejection revision (residency a)))) in
  Ret (match err with Some err => Some (storeRefusal record err) | None => None end).

(** A check of the body ends in [Err], or in [Ok None] when the command was
    rejected for good, or in what it read. *)
Definition rejecting {A} a record (revision : Z) : P (res (option A)) :=
  let! problem := reject a record revision in
  Ret (match problem with Some err => Err err | None => Ok None end).

(** [dereference]'s [fault]: the permanent failures reject, the others block;
    [consult] is whether the context is asked first. *)
Definition object_fault {A} a record (revision : Z) (err : error) : P (res (option A)) :=
  let! gone := call DCtxErr in
  match gone with
  | Some canceled => Ret (Err (refuse record RefusalStore (Some canceled)))
  | None =>
      if permanentObjectFailure err then rejecting a record revision
      else Ret (Err (refuse record RefusalStore (Some err)))
  end.

(** The bytes read from the object against its metadata. *)
Definition checkObject a record (revision : Z) (metadata : ObjectMetadata) (body : string) :
    P (res (option Payload)) :=
  let n := Z.of_nat (String.length body) in
  if (maxBody a <? n)%Z || negb (n =? SizeBytes metadata)%Z then rejecting a record revision
  else if bool_decide (Digest metadata ≠ "sha256:" +:+ sha256_hex body) then rejecting a record revision
  else Ret (Ok (Some (mkPayload body no_ref))).

(** [dereference]. *)
Definition dereference a record (revision : Z) (payload : Payload) : P (res (option Payload)) :=
  if negb (has_objects a) then Ret (Ok (Some payload))
  else
    let! gone := call DCtxErr in
    match gone with
    | Some err => Ret (Err (refuse record RefusalStore (Some err)))
    | None =>
        let! found := call (DGetObjectMetadata (Ref payload)) in
        match found with
        | Err err => object_fault a record revision err
        | Ok metadata =>
            if bool_decide (md_Reference metadata ≠ Ref payload)
               || (maxBody a <? SizeBytes metadata)%Z
               || empty (Digest metadata)
               || negb (String.prefix "v1:command-payload:" (ObjectID (Ref payload)))
               || negb (has_suffix (":" +:+ trim_prefix "sha256:" (Digest metadata)) (ObjectID (Ref payload)))
            then rejecting a record revision
            else
              let! err := call (DGetObject metadata) in
              match err with
              | Some err => object_fault a record revision err
              | None =>
                  let! copied := call (DCopy (maxBody a + 1)) in
                  let! closed := call DClose in
                  match copied, closed with
                  | (_, Some err), _ | (_, None), Some err => object_fault a record revision err
                  | (body, None), None =>
                      let! gone := call DCtxErr in
                      match gone with
                      | Some err => Ret (Err (refuse record RefusalStore (Some err)))
                      | None => checkObject a record revision metadata body
                      end
                  end
              end
        end
    end.

(** [classifyBody]. *)
Definition classifyBody a record (revision : Z) (read : res Members) (blocked : ApplyRefusal) :
    P (res (option Members)) :=
  match read with
  | Ok members => Ret (Ok (Some members))
  | Err err =>
      if condemned err then rejecting a record revision
      else Ret (Err (refuse record blocked (Some err)))
  end.

(** [checkGateResponse], once the response is decoded. *)
Definition checkGate a record (revision : Z) (request : GateResponseRequest) : P (res (option Members)) :=
  let members := mkMembers (g_Principal request) "" in
  if negb (has_gates a) then Ret (Err (refuse record RefusalNoGateReader None))
  else
    let! loaded := call (DLoadGate (g_GateID request)) in
    match loaded with
    | Err err => Ret (Err (refuse record RefusalStore (Some err)))
    | Ok (gate, found) =>
        if negb (OwnerEpoch gate =? residency a)%Z then Ret (Err (refuse record RefusalGateNotOwned None))
        else if negb found || negb (Open gate) then Ret (Ok (Some members))
        else if (negb (empty (g_ExpectedOpenEventID request))
                 && bool_decide (g_ExpectedOpenEventID request ≠ OpenedEventID gate))
                || (negb (g_ExpectedOpenJournalSeq request =? 0)%Z
                    && negb (g_ExpectedOpenJournalSeq request =? OpenedJournalSeq gate)%Z)
        then rejecting a record revision
        else Ret (Ok (Some members))
    end.

(** [checkGateResponse]. *)
Definition checkGateResponse a record (revision : Z) (payload : Payload) : P (res (option Members)) :=
  if empty (Body payload) && bool_decide (Ref payload ≠ no_ref) then rejecting a record revision
  else match gateresponse_Decode decodeGateResponse validateGateResponse gate_uuid
               (Body payload) (SessionID (key a)) (d_CommandID record) with
  | Err err =>
      if as_unsupported PkgGateResponse err
      then Ret (Err (refuse record RefusalUnreadableGateResponse (Some err)))
      else rejecting a record revision
  | Ok request => checkGate a record revision request
  end.

(** [checkBody]. *)
Definition checkBody a record (revision : Z) (payload : Payload) : P (res (option Members)) :=
  let session := SessionID (key a) in
  let command := d_CommandID record in
  match d_Kind record with
  | KindGateResponse => checkGateResponse a record revision payload
  | KindCreate =>
      if bool_decide (Ref payload ≠ no_ref) then Ret (Err (refuse record RefusalUnreadableCreate None))
      else classifyBody a record revision (createbody_Check decodeCreate (Body payload) session command)
             RefusalUnreadableCreate
  | kind =>
      if bool_decide (Ref payload ≠ no_ref) then Ret (Err (refuse record RefusalUnreadableCommand None))
      else match kind with
      | KindInput => classifyBody a record revision (inputbody_Check decodeInput (Body payload) session command)
                       RefusalUnreadableCommand
      | KindInterrupt => classifyBody a record revision (CheckInterrupt decodeInterrupt (Body payload) session command)
                           RefusalUnreadableCommand
      | KindRestore => classifyBody a record revision (CheckRestore decodeRestore (Body payload) session command)
                         RefusalUnreadableCommand
      | _ => Ret (Err (refuse record RefusalUnreadableCommand None))
      end
  end.

(** [dispatch]. *)
Definition dispatch record (payload : Payload) (attempt : string) (members : Members) : P (option error) :=
  let! err := call (DApplyCommand (mkRuntimeCommand (d_CommandID record) (d_RuntimeCommandID record)
    (d_Kind record) (Body payload) (Ref payload) attempt (m_Principal members) (m_Metadata members))) in
  Ret (match err with
       | None => None
       | Some e =>
           if errors_is e ErrDispositionUnsupported then Some (refuse record RefusalDispositionUnsupported err)
           else Some (refuse record RefusalRuntime err)
       end).

(** [settle]. *)
Definition settle a record (revision : Z) : P (Outcome * option error) :=
  let! settled := write_value (call (DSettle (d_CommandID record) (mkSettlement revision (residency a)))) in
  Ret (match settled with
       | Err err =>
           (mkOutcome StateApplying true,
            Some (refuse record (if errors_is err ErrEvidenceUnroutable then RefusalEvidenceUnroutable
                                 else RefusalEvidenceUnavailable) (Some err)))
       | Ok st => (mkOutcome st true, None)
       end).

(** [afterFailedDispatch]. *)
Definition afterFailedDispatch a record (applying : Z) (problem : error) : P (Outcome * option error) :=
  let unsettled := (mkOutcome StateApplying true, Some problem) in
  let recover :=
    let! settled := settle a record applying in
    match settled with
    | (outcome, None) => Ret (outcome, None)
    | (_, Some _) =>
        if bool_decide (d_Kind record = KindGateResponse) && errors_is problem ErrPrefixCommitted
        then Ret unsettled
        else
          do! (if has_stranded a then call (DStranded (d_CommandID record) problem) else Ret tt) in
          Ret unsettled
    end in
  match as_apply_error problem with
  | Some RefusalRuntime =>
      let! gone := call DCtxErr in
      match gone with
      | Some _ => Ret unsettled
      | None => recover
      end
  | _ => Ret unsettled
  end.

(** [authorizeAndDispatch], from the attempt's identity on. *)
Definition beginAndDispatch a record (revision : Z) (payload : Payload) (members : Members)
    (journalEpoch : Z) (attempt : string) : P (Outcome * option error) :=
  let! begun := write_value (
    let! now := call DNow in
    call (DBeginAttempt (d_CommandID record)
      (mkAttempt revision attempt journalEpoch (residency a) now))) in
  match begun with
  | Err err => Ret (mkOutcome StateClaimed false, Some (storeRefusal record err))
  | Ok applying =>
      let! problem := dispatch record payload attempt members in
      match problem with
      | Some problem => afterFailedDispatch a record applying problem
      | None => settle a record applying
      end
  end.

(** [authorizeAndDispatch], once the body is accepted. *)
Definition authorize a record (revision : Z) (payload : Payload) (members : Members) :
    P (Outcome * option error) :=
  let! lease := call DLeaseEpoch in
  match lease with
  | None => Ret (mkOutcome StateClaimed false, Some (refuse record RefusalNoJournalGrant None))
  | Some journalEpoch =>
      let! minted := call DNewAttemptID in
      match minted with
      | Err err => Ret (mkOutcome StateClaimed false, Some (refuse record RefusalInvalidAttempt (Some err)))
      | Ok attempt =>
          match AttemptID_Validate attempt with
          | Some problem => Ret (mkOutcome StateClaimed false, Some problem)
          | None => beginAndDispatch a record revision payload members journalEpoch attempt
          end
      end
  end.

(** [authorizeAndDispatch], on a well-formed payload. *)
Definition checkAndDispatch a record (revision : Z) (payload : Payload) : P (Outcome * option error) :=
  let! resolved :=
    (if bool_decide (Ref payload ≠ no_ref) then dereference a record revision payload
     else Ret (Ok (Some payload))) in
  match resolved with
  | Err err => Ret (mkOutcome StateClaimed false, Some err)
  | Ok None => Ret (mkOutcome StateRejected false, None)
  | Ok (Some payload) =>
      let! checked := checkBody a record revision payload in
      match checked with
      | Err problem => Ret (mkOutcome StateClaimed false, Some problem)
      | Ok None => Ret (mkOutcome StateRejected false, None)
      | Ok (Some members) => authorize a record revision payload members
      end
  end.

(** [authorizeAndDispatch]. *)
Definition authorizeAndDispatch a record (revision : Z) : P (Outcome * option error) :=
  let! loaded := call (DLoadPayload (d_CommandID record)) in
  match loaded with
  | Err err => Ret (mkOutcome StateClaimed false, Some (refuse record RefusalStore (Some err)))
  | Ok payload =>
      if negb (wellFormed payload) then
        let! problem := reject a record revision in
        Ret (match problem with
             | Some problem => (mkOutcome StateClaimed false, Some problem)
             | None => (mkOutcome StateRejected false, None)
             end)
      else checkAndDispatch a record revision payload
  end.

(** [claimThenDispatch]. *)
Definition claimThenDispatch a record : P (Outcome * option error) :=
  let! claimed := write_value (
    let! now := call DNow in
    call (DClaim (d_CommandID record) (mkClaim (d_Revision record) (now + ClaimTTL a)))) in
  match claimed with
  | Err err => Ret (mkOutcome (d_State record) false, Some (storeRefusal record err))
  | Ok revision => authorizeAndDispatch a record revision
  end.

(** [close]. *)
Definition close a record : P (option error) :=
  if negb (has_closer a) then Ret (Some (refuse record RefusalNoAttemptCloser None))
  else
    let! err := call (DCloseAttempt (d_CommandID record) (d_RuntimeCommandID record) (d_Kind record)
      (d_AttemptID record) (AttemptJournalEpoch record)) in
    Ret (match err with
         | None => None
         | Some e =>
             if errors_is e ErrNoAttemptCloser then Some (refuse record RefusalNoAttemptCloser err)
             else if errors_is e ErrEnduringEffect then Some (refuse record RefusalEnduringEffect err)
             else Some (refuse record RefusalStore err)
         end).

(** [settleOrRecover]. *)
Definition settleOrRecover a record : P (Outcome * option error) :=
  if negb (hasAttempt record)
  then Ret (mkOutcome StateApplying false, Some (refuse record RefusalUnknownState None))
  else
    let! lease := call DLeaseEpoch in
    match lease with
    | None => Ret (mkOutcome StateApplying true, Some (refuse record RefusalNoJournalGrant None))
    | Some journalEpoch =>
        let! settled := settle a record (d_Revision record) in
        match settled with
        | (outcome, None) => Ret (outcome, None)
        | (outcome, Some err) =>
            if (journalEpoch <=? AttemptJournalEpoch record)%Z then Ret (outcome, Some err)
            else
              let! problem := close a record in
              match problem with
              | Some problem => Ret (mkOutcome StateApplying true, Some problem)
              | None => settle a record (d_Revision record)
              end
        end
    end.

(** [Process], on the checked record. *)
Definition process_record a record : P (Outcome * option error) :=
  if Terminal (d_State record) then Ret (mkOutcome (d_State record) (hasAttempt record), None)
  else match d_State record with
  | StateApplying => settleOrRecover a record
  | StateClaimed =>
      if negb (ClaimResidencyEpoch record =? residency a)%Z then claimThenDispatch a record
      else
        let! now := call DNow in
        if negb (now <? d_ClaimExpiresAt record)%Z then claimThenDispatch a record
        else authorizeAndDispatch a record (d_Revision record)
  | _ => claimThenDispatch a record
  end.

(** [Process]. *)
Definition Process a (command : Command) : P (Outcome * option error) :=
  let! loaded := call (DLoadCommand (c_CommandID command)) in
  match loaded with
  | Err err => Ret (mkOutcome (c_State command) false,
                    Some (ApplyError RefusalStore (c_CommandID command) (Some err)))
  | Ok record =>
      match checkDispositionRecord a record command with
      | Some problem => Ret (mkOutcome (c_State command) false, Some problem)
      | None => process_record a record
      end
  end.

(** ** What an observation is *)

Abbreviation O := (obs DE).

Definition is_write (o : O) : bool :=
  match o with Obs e _ =>
    match e with DClaim _ _ | DBeginAttempt _ _ | DSettle _ _ | DReject _ _ => true | _ => false end end.

Definition is_dispatch (o : O) : bool :=
  match o with Obs e _ => match e with DApplyCommand _ => true | _ => false end end.

Definition is_begin (o : O) : bool :=
  match o with Obs e _ => match e with DBeginAttempt _ _ => true | _ => false end end.

Definition settle_ok (o : O) : bool :=
  match o with Obs e x =>
    match e in DE X return X → bool with
    | DSettle _ _ => fun r => is_ok r | _ => fun _ => false end x end.

Definition is_reject (o : O) : bool :=
  match o with Obs e _ => match e with DReject _ _ => true | _ => false end end.

Definition is_stranded (o : O) : bool :=
  match o with Obs e _ => match e with DStranded _ _ => true | _ => false end end.

(** The attempt a dispatch names, and the journal epochs a begin and a closure name. *)
Definition dispatching (o : O) : option string :=
  match o with Obs e _ => match e with DApplyCommand rc => Some (rc_AttemptID rc) | _ => None end end.
Definition beginning (o : O) : option Z :=
  match o with Obs e _ => match e with DBeginAttempt _ at_ => Some (at_JournalEpoch at_) | _ => None end end.
Definition closing (o : O) : option Z :=
  match o with Obs e _ => match e with DCloseAttempt _ _ _ _ ep => Some ep | _ => None end end.

(** The attempt a call durably began, and the lease epoch a call answered. *)
Definition begun_of (o : O) : option string :=
  match o with Obs e x =>
    match e in DE X return X → option string with
    | DBeginAttempt _ at_ => fun r => match r with Ok _ => Some (at_AttemptID at_) | Err _ => None end
    | _ => fun _ => None end x end.
Definition lease_of (o : O) : option Z :=
  match o with Obs e x =>
    match e in DE X return X → option Z with DLeaseEpoch => fun l => l | _ => fun _ => None end x end.

Definition terminal_ok (o : O) : bool :=
  match o with Obs e x =>
    match e in DE X return X → bool with
    | DReject _ _ => fun err => bool_decide (err = None)
    | DSettle _ _ => fun r => match r with Ok st => Terminal st | Err _ => false end
    | DLoadCommand _ => fun r => match r with Ok rec => Terminal (d_State rec) | Err _ => false end
    | _ => fun _ => false end x end.

Definition revision_of (o : O) : option Z :=
  match o with Obs e x =>
    match e in DE X return X → option Z with
    | DLoadCommand _ => fun r => match r with Ok rec => Some (d_Revision rec) | Err _ => None end
    | DClaim _ _ | DBeginAttempt _ _ => fun r => match r with Ok rev => Some rev | Err _ => None end
    | _ => fun _ => None end x end.

Definition expects (o : O) : option Z :=
  match o with Obs e _ =>
    match e with
    | DClaim _ c => Some (cl_ExpectedRevision c)
    | DBeginAttempt _ c => Some (at_ExpectedRevision c)
    | DSettle _ c => Some (se_ExpectedRevision c)
    | DReject _ c => Some (re_ExpectedRevision c)
    | _ => None end end.

(** The residency epoch a write is stamped with. *)
Definition stamped (o : O) : option Z :=
  match o with Obs e _ =>
    match e with
    | DBeginAttempt _ c => Some (at_ResidencyEpoch c)
    | DSettle _ c => Some (se_ResidencyEpoch c)
    | DReject _ c => Some (re_ResidencyEpoch c)
    | _ => None end end.

(** The last answer [f] recognises. *)
Definition latest {A} (f : O → option A) (t : list O) : option A :=
  fold_left (fun known o => match f o with Some r => Some r | None => known end) t None.

Lemma latest_snoc {A} (f : O → option A) t o :
  latest f (t ++ [o]) = match f o with Some r => Some r | None => latest f t end.
Proof. unfold latest. by rewrite fold_left_app. Qed.

(** The fence was just found held; only the clock was read since. *)
Definition held_now (t : list O) : Prop :=
  just_held t ∨ ∃ t' n, t = t' ++ [Obs DNow n] ∧ just_held t'.

(** ** The discipline every call obeys *)

Record lawful a (t : list O) (o : O) : Prop := {
  lw_fenced : is_write o = true → held_now t;
  lw_swap rev : expects o = Some rev → latest revision_of t = Some rev;
  lw_stamp ep : stamped o = Some ep → ep = residency a;
  lw_dispatch at_ : dispatching o = Some at_ →
    seen is_dispatch t = false ∧ latest begun_of t = Some at_ ∧ AttemptID_Validate at_ = None;
  lw_begin ep : beginning o = Some ep → seen is_begin t = false ∧ latest lease_of t = Some ep;
  lw_reject : is_reject o = true → seen is_begin t = false;
  lw_close ep : closing o = Some ep →
    seen is_begin t = false ∧ seen settle_ok t = false ∧
    ∃ lease, latest lease_of t = Some lease ∧ (ep < lease)%Z;
  lw_stranded : is_stranded o = true → seen is_dispatch t = true ∧ seen settle_ok t = false
}.

(** What an answer without an error means. *)
Definition answered (t : list O) (r : Outcome * option error) : Prop :=
  r.2 = None → Terminal (o_State r.1) = true → seen terminal_ok t = true.

(** A history in which no attempt was begun, at a known revision. *)
Record unbegun (t : list O) (rev : Z) : Prop := {
  fr_dispatch : seen is_dispatch t = false;
  fr_begin : seen is_begin t = false;
  fr_settle : seen settle_ok t = false;
  fr_revision : latest revision_of t = Some rev
}.

Definition neutral (o : O) : bool :=
  negb (is_dispatch o) && negb (is_begin o) && negb (settle_ok o) && bool_decide (revision_of o = None).

Lemma unbegun_snoc t rev o : unbegun t rev → neutral o = true → unbegun (t ++ [o]) rev.
Proof.
  intros [] Hn. unfold neutral in Hn.
  rewrite !andb_true_iff, !negb_true_iff, bool_decide_eq_true in Hn. destruct Hn as [[[Ha Hp] Hs] Hr].
  split; autorewrite with trace; rewrite ?latest_snoc, ?Hr, ?Ha, ?Hp, ?Hs, ?orb_false_r; auto.
Qed.

Lemma unbegun_revised t rev o rev' :
  unbegun t rev → is_dispatch o = false → is_begin o = false → settle_ok o = false →
  revision_of o = Some rev' → unbegun (t ++ [o]) rev'.
Proof.
  intros [] Ha Hp Hs Hr.
  split; autorewrite with trace; rewrite ?latest_snoc, ?Hr, ?Ha, ?Hp, ?Hs, ?orb_false_r; auto.
Qed.

Ltac stay_fresh :=
  repeat (apply unbegun_snoc; [|reflexivity]);
  first [ eassumption | eapply unbegun_revised; [stay_fresh|reflexivity..] ].

Ltac lawful_leaf :=
  repeat match goal with H : unbegun _ _ |- _ => destruct H end;
  solve
    [ split; simpl; try done; intros;
      try (match goal with H : Some _ = Some _ |- _ => injection H as <- end);
      repeat match goal with |- _ ∧ _ => split end;
      rewrite ?latest_snoc; autorewrite with trace; simpl;
      rewrite ?orb_true_r, ?orb_false_r; eauto;
      first [ left; refine (just_held_snoc _)
            | right; eexists _, _; split; [reflexivity|refine (just_held_snoc _)] ]
    | intros ?; simpl in *; intros; simplify_eq/=; autorewrite with trace; simpl;
      rewrite ?orb_true_r; auto ].

Ltac lawful_path :=
  repeat first
    [ match goal with H : Some _ = None |- _ => discriminate H end
    | progress symbolic_step
    | match goal with
      | |- ∀ _ : _, any_env _ _ → _ ∧ _ => intros ? _; split; [lawful_leaf|]
      | |- answered _ _ => lawful_leaf
      | |- safe _ _ _ _ (bind (bind _ _) _) => apply safe_bind
      end
    | progress case_match; simpl ].

Abbreviation lawfully a := (safe any_env (lawful a) answered).

(** What a settlement leaves of the history it started from. *)
Record settled_from (t h : list O) (r : Outcome * option error) : Prop := {
  sf_answered : answered h r;
  sf_failed : r.2 ≠ None → seen settle_ok h = seen settle_ok t;
  sf_revision : latest revision_of h = latest revision_of t;
  sf_lease : latest lease_of h = latest lease_of t;
  sf_begin : seen is_begin h = seen is_begin t;
  sf_dispatch : seen is_dispatch h = seen is_dispatch t
}.

Lemma settle_lawful a record rev t :
  latest revision_of t = Some rev →
  safe any_env (lawful a) (settled_from t) t (settle a record rev).
Proof.
  intros Hr. unfold settle, write_value, held. lawful_path.
  all: split; simpl; try (intros ?; simpl in *; intros); try done; autorewrite with trace; simpl;
    rewrite ?latest_snoc, ?orb_false_r, ?orb_true_r; simpl; try done.
  match goal with H : Terminal _ = true |- _ => by rewrite H, orb_true_r end.
Qed.

#[local] Opaque settle.

Lemma afterFailedDispatch_lawful a record applying problem t :
  latest revision_of t = Some applying → seen is_dispatch t = true → seen settle_ok t = false →
  lawfully a t (afterFailedDispatch a record applying problem).
Proof.
  intros Hr Hd Hs. unfold afterFailedDispatch.
  destruct (as_apply_error problem) as [[]|]; try done; simpl.
  intros gone _. split; [lawful_leaf|]. destruct gone; [done|].
  eapply safe_bind_spec.
  - apply settle_lawful. by rewrite latest_snoc.
  - intros h [out [err|]] [Ha Hf _ _ _ Hsd]; simpl in *; [|done].
    assert (seen settle_ok h = false) as Hh.
    { rewrite Hf by done. autorewrite with trace. by rewrite Hs. }
    assert (seen is_dispatch h = true) as Hhd.
    { rewrite Hsd. autorewrite with trace. by rewrite Hd. }
    destruct (_ && _); simpl; [done|]. destruct (has_stranded a); simpl; [|done].
    intros [] _. split; [lawful_leaf|done].
Qed.

#[local] Opaque afterFailedDispatch.

Lemma beginAndDispatch_lawful a record rev payload members lease attempt t :
  unbegun t rev → latest lease_of t = Some lease → AttemptID_Validate attempt = None →
  lawfully a t (beginAndDispatch a record rev payload members lease attempt).
Proof.
  intros Hf Hl Hv. unfold beginAndDispatch, dispatch, write_value, held. lawful_path.
  all: destruct Hf.
  all: try (eapply safe_mono; [|apply settle_lawful]; [intros ? ? []; done|]).
  all: try (eapply safe_mono; [|apply afterFailedDispatch_lawful]; [done|..]).
  all: autorewrite with trace; simpl; rewrite ?latest_snoc, ?orb_true_r, ?orb_false_r; done.
Qed.

#[local] Opaque beginAndDispatch.

Lemma authorize_lawful a record rev payload members t :
  unbegun t rev → lawfully a t (authorize a record rev payload members).
Proof.
  intros Hf. unfold authorize. Opaque AttemptID_Validate. lawful_path. Transparent AttemptID_Validate.
  apply beginAndDispatch_lawful; [stay_fresh|by rewrite !latest_snoc|done].
Qed.

(** What a check that may reject leaves behind. *)
Definition vetted {A} (rev : Z) (h : list O) (r : res (option A)) : Prop :=
  match r with
  | Ok (Some _) => unbegun h rev
  | Ok None => seen terminal_ok h = true
  | Err _ => True
  end.

Lemma rejecting_lawful {A} a record rev t :
  unbegun t rev → safe any_env (lawful a) (vetted (A := A) rev) t (rejecting a record rev).
Proof.
  intros Hf. unfold rejecting, reject, write, held. lawful_path; simpl; try done.
  autorewrite with trace. simpl. by rewrite orb_true_r.
Qed.

#[local] Opaque authorize rejecting.

Ltac vetting :=
  lawful_path; simpl; try done;
  try (apply rejecting_lawful); try (apply rejecting_lawful || stay_fresh).

Lemma object_fault_lawful {A} a record rev err t :
  unbegun t rev → safe any_env (lawful a) (vetted (A := A) rev) t (object_fault a record rev err).
Proof. intros Hf. unfold object_fault. vetting. Qed.

Lemma checkObject_lawful a record rev metadata body t :
  unbegun t rev → safe any_env (lawful a) (vetted rev) t (checkObject a record rev metadata body).
Proof. intros Hf. unfold checkObject. vetting. Qed.

#[local] Opaque object_fault checkObject.

Lemma dereference_lawful a record rev payload t :
  unbegun t rev → safe any_env (lawful a) (vetted rev) t (dereference a record rev payload).
Proof.
  intros Hf. unfold dereference. vetting.
  all: first [ apply object_fault_lawful | apply checkObject_lawful ]; stay_fresh.
Qed.

Lemma checkGate_lawful a record rev request t :
  unbegun t rev → safe any_env (lawful a) (vetted rev) t (checkGate a record rev request).
Proof. intros Hf. unfold checkGate. vetting. Qed.

Lemma classifyBody_lawful a record rev read blocked t :
  unbegun t rev → safe any_env (lawful a) (vetted rev) t (classifyBody a record rev read blocked).
Proof. intros Hf. unfold classifyBody. vetting. Qed.

#[local] Opaque checkGate classifyBody dereference.

Lemma checkBody_lawful a record rev payload t :
  unbegun t rev → safe any_env (lawful a) (vetted rev) t (checkBody a record rev payload).
Proof.
  intros Hf. unfold checkBody, checkGateResponse.
  destruct (d_Kind record); repeat case_match; simpl; try done;
    first [ by apply classifyBody_lawful | by apply rejecting_lawful | by apply checkGate_lawful ].
Qed.

#[local] Opaque checkBody.

Lemma checkAndDispatch_lawful a record rev payload t :
  unbegun t rev → lawfully a t (checkAndDispatch a record rev payload).
Proof.
  intros Hf. unfold checkAndDispatch.
  apply (safe_bind_spec _ _ (vetted rev)).
  { destruct (bool_decide _); [by apply dereference_lawful|done]. }
  intros h [[resolved|]|err] Hv; simpl in *; [|by intros ?..].
  eapply safe_bind_spec; [by apply checkBody_lawful|].
  intros h2 [[members|]|err] Hv2; simpl in *; [by apply authorize_lawful|by intros ?..].
Qed.

#[local] Opaque checkAndDispatch.

Lemma authorizeAndDispatch_lawful a record rev t :
  unbegun t rev → lawfully a t (authorizeAndDispatch a record rev).
Proof.
  intros Hf. unfold authorizeAndDispatch, reject, write, held. lawful_path.
  apply checkAndDispatch_lawful. stay_fresh.
Qed.

#[local] Opaque authorizeAndDispatch.

Lemma claimThenDispatch_lawful a record t :
  unbegun t (d_Revision record) → lawfully a t (claimThenDispatch a record).
Proof.
  intros Hf. unfold claimThenDispatch, write_value, held. lawful_path.
  apply authorizeAndDispatch_lawful. stay_fresh.
Qed.

#[local] Opaque claimThenDispatch.

Lemma settleOrRecover_lawful a record t :
  unbegun t (d_Revision record) → lawfully a t (settleOrRecover a record).
Proof.
  intros [Hd Hb Hs Hr]. unfold settleOrRecover. destruct (hasAttempt record); simpl; [|done].
  intros [lease|] _; (split; [lawful_leaf|]); simpl; [|done].
  eapply safe_bind_spec; [apply settle_lawful; by rewrite latest_snoc|].
  intros h [out [err|]] [Ha Hf Hrev Hl Hbeg Hdis]; simpl in *; [|done].
  rewrite latest_snoc in Hl, Hrev. simpl in Hl, Hrev.
  assert (seen settle_ok h = false) as Hh by (rewrite Hf by done; autorewrite with trace; by rewrite Hs).
  assert (seen is_begin h = false) as Hh2 by (rewrite Hbeg; autorewrite with trace; by rewrite Hb).
  destruct (Z.leb_spec lease (AttemptJournalEpoch record)); simpl; [done|].
  unfold close. destruct (has_closer a); simpl; [|done].
  intros x _. split.
  { split; simpl; try done. intros ep [= <-]. eauto. }
  assert (lawfully a (h ++ [Obs (DCloseAttempt (d_CommandID record) (d_RuntimeCommandID record)
    (d_Kind record) (d_AttemptID record) (AttemptJournalEpoch record)) x]) (settle a record (d_Revision record)))
    as Hlast.
  { eapply safe_mono; [|apply settle_lawful; by rewrite latest_snoc, Hrev]. by intros ? ? []. }
  destruct x; simpl; [|exact Hlast]. by repeat case_match.
Qed.

#[local] Opaque settleOrRecover.

Lemma disposition_lawful a command : lawfully a [] (Process a command).
Proof.
  unfold Process, process_record. lawful_path.
  all: first [ apply claimThenDispatch_lawful | apply authorizeAndDispatch_lawful
             | apply settleOrRecover_lawful | simpl; intros ? ?; simpl in *; subst ].
  all: first [ by split; rewrite ?latest_snoc
             | match goal with H : Terminal _ = true |- _ => by rewrite H end ].
Qed.

Lemma disposition_each a command t r :
  runs (Process a command) t r →
  answered t r ∧ ∀ t1 o t2, t = t1 ++ o :: t2 → lawful a t1 o.
Proof. apply safe_runs_any, disposition_lawful. Qed.

(** C2 At most one dispatch, always authorized: a command is handed to the
    runtime at most once per call, under a validated attempt identity that the
    store durably recorded in this very call, and an attempt is begun at most
    once, under the journal epoch the runtime's lease last answered. *)
Theorem dispatched_once_authorized a command t r t1 o t2 (Hrun : runs (Process a command) t r)
    (Ht : t = t1 ++ o :: t2) :
  (∀ at_, dispatching o = Some at_ →
    seen is_dispatch t1 = false ∧ latest begun_of t1 = Some at_ ∧ AttemptID_Validate at_ = None) ∧
  (∀ ep, beginning o = Some ep → seen is_begin t1 = false ∧ latest lease_of t1 = Some ep).
Proof. destruct (proj2 (disposition_each _ _ _ _ Hrun) _ _ _ Ht); auto. Qed.

(** Every durable write is made with the fence just found held, is a
    compare-and-swap on the last revision the store answered, and is stamped
    with this residency's epoch. *)
Theorem disposition_writes_swap a command t r t1 o t2 (Hrun : runs (Process a command) t r)
    (Ht : t = t1 ++ o :: t2) (Hw : is_write o = true) :
  held_now t1 ∧ (∃ rev, expects o = Some rev ∧ latest revision_of t1 = Some rev) ∧
  (∀ ep, stamped o = Some ep → ep = residency a).
Proof.
  destruct (proj2 (disposition_each _ _ _ _ Hrun) _ _ _ Ht) as [Hf Hs Hst _ _ _ _ _].
  split; [by apply Hf|]. split; [|done].
  destruct o as [X e x]. destruct e; try done; simpl in *; eauto.
Qed.

(** Recovery is conservative: a command is rejected only while this call has
    begun no attempt for it; a predecessor's attempt is closed only after no
    settlement succeeded and under a journal lease strictly later than the one
    the attempt was authored under; the runtime is declared stranded only after
    a dispatch that nothing settled; and a command reported terminal without an
    error is terminal in the store. *)
Theorem recovery_conservative a command t r (Hrun : runs (Process a command) t r) :
  (∀ t1 o t2, t = t1 ++ o :: t2 →
    (is_reject o = true → seen is_begin t1 = false) ∧
    (∀ ep, closing o = Some ep → seen is_begin t1 = false ∧ seen settle_ok t1 = false ∧
       ∃ lease, latest lease_of t1 = Some lease ∧ (ep < lease)%Z) ∧
    (is_stranded o = true → seen is_dispatch t1 = true ∧ seen settle_ok t1 = false)) ∧
  (r.2 = None → Terminal (o_State r.1) = true → seen terminal_ok t = true).
Proof.
  destruct (disposition_each _ _ _ _ Hrun) as [Ha Hl]. split; [|exact Ha].
  intros t1 o t2 Ht. destruct (Hl _ _ _ Ht). auto.
Qed.

(** ** Applying records *)

#[local] Transparent settle settleOrRecover.

Definition quiet (_ : list O) (o : O) : Prop := is_dispatch o = false ∧ is_begin o = false ∧ is_reject o = false.

Lemma settleOrRecover_quiet a record t :
  safe any_env quiet (fun _ _ => True) t (settleOrRecover a record).
Proof.
  unfold settleOrRecover, settle, close, write_value, held.
  repeat first
    [ progress symbolic_step
    | match goal with
      | |- ∀ _ : _, any_env _ _ → _ ∧ _ => intros ? _; split; [done|]
      | |- True => exact I
      | |- safe _ _ _ _ (bind (bind _ _) _) => apply safe_bind
      end
    | progress case_match; simpl ].
Qed.

#[local] Opaque settleOrRecover.

(** The record a load answered. *)
Definition loaded_of (o : O) : option (res DispositionRecord) :=
  match o with Obs e x =>
    match e in DE X return X → _ with DLoadCommand _ => Some | _ => fun _ => None end x end.

(** No command is dispatched twice: a record the store holds as applying is
    only settled or closed, and one it holds as terminal is only reported; in
    neither case is an attempt begun, the runtime driven, or the command
    rejected. *)
Theorem applying_never_redriven a command t r id record t'
    (Hrun : runs (Process a command) t r)
    (Hload : t = Obs (DLoadCommand id) (Ok record) :: t')
    (Hstate : d_State record = StateApplying ∨ Terminal (d_State record) = true) :
  seen is_dispatch t = false ∧ seen is_begin t = false ∧ seen is_reject t = false.
Proof.
  subst t. unfold Process in Hrun. simpl in Hrun. destruct Hrun as (x & t2 & Heq & Hrun).
  pose proof (f_equal tail Heq) as Ht. simpl in Ht. subst t2.
  apply (f_equal (fun l => head l ≫= loaded_of)) in Heq. simpl in Heq. injection Heq as <-.
  assert (∀ p : prog DE (Outcome * option error), safe any_env quiet (fun _ _ => True) [] p →
    runs p t' r → seen is_dispatch t' = false ∧ seen is_begin t' = false ∧ seen is_reject t' = false) as Hq.
  { intros p Hs Hr. destruct (safe_runs_any _ _ _ _ _ Hs Hr) as [_ HG]. clear -HG.
    split_and!; apply not_true_is_false; intros (o & Hin & Ho)%existsb_exists;
      apply list_elem_of_In, list_elem_of_split in Hin as (t1 & t2 & ->);
      destruct (HG t1 o t2 eq_refl) as (? & ? & ?); congruence. }
  simpl. destruct (checkDispositionRecord _ _ _); [by destruct Hrun as [-> _]|].
  unfold process_record in Hrun. destruct Hstate as [Hs|Hs].
  - rewrite Hs in Hrun. simpl in Hrun. eapply Hq; [apply settleOrRecover_quiet|exact Hrun].
  - rewrite Hs in Hrun. by destruct Hrun as [-> _].
Qed.

(** ** Which bodies condemn their command *)

#[local] Transparent checkBody classifyBody.

(** The decoder of a kind that is not a gate response, and the package that
    classifies its errors. *)
Definition decoder (k : Kind) : option ((string → res Request) * BodyPackage) :=
  match k with
  | KindCreate => Some (decodeCreate, PkgCreateBody)
  | KindInput => Some (decodeInput, PkgInputBody)
  | KindInterrupt => Some (decodeInterrupt, PkgControlBody)
  | KindRestore => Some (decodeRestore, PkgControlBody)
  | _ => None
  end.

(** No Host could ever apply this inline body: it is missing where one is
    required, undecodable for good, or names another record. *)
Definition hopeless (k : Kind) (decode : string → res Request) (body session command : string) : bool :=
  if empty body then match k with KindCreate | KindInput => true | _ => false end
  else match decode body with
       | Err err => Permanent err
       | Ok request => bool_decide (r_SessionID request ≠ session) || bool_decide (r_CommandID request ≠ command)
       end.

Lemma condemned_Malformed pkg err :
  pkg ≠ PkgGateResponse → condemned (MalformedError pkg err) = true.
Proof.
  intros Hp. unfold condemned. rewrite !as_malformed_Malformed.
  destruct pkg; try done; simpl; rewrite ?orb_true_r; done.
Qed.

Lemma check_request_condemned pkg decoded session command :
  pkg ≠ PkgGateResponse → (∀ err, decoded = Err err → foreign_to_bodies err) →
  match check_request pkg decoded session command with
  | Err err => condemned err
  | Ok _ => false
  end =
  match decoded with
  | Err err => Permanent err
  | Ok request => bool_decide (r_SessionID request ≠ session) || bool_decide (r_CommandID request ≠ command)
  end.
Proof.
  intros Hpkg Hf. unfold check_request. destruct decoded as [request|err].
  - destruct (_ || _); [by apply condemned_Malformed|done].
  - by apply condemned_classify; [|apply Hf].
Qed.

(** A command is condemned by its body exactly when no Host could ever apply
    it: an inline body that is missing, permanently undecodable or addressed to
    another record is rejected through the fence; any other body this Host cannot
    read is left untouched for a newer Host, with no call made. *)
Theorem body_verdict a record rev body decode pkg t r
    (Hkind : decoder (d_Kind record) = Some (decode, pkg))
    (Hdecode : ∀ err, decode body = Err err → foreign_to_bodies err)
    (Hrun : runs (checkBody a record rev (mkPayload body no_ref)) t r) :
  if hopeless (d_Kind record) decode body (SessionID (key a)) (d_CommandID record)
  then runs (rejecting a record rev) t r
  else t = [].
Proof.
  assert (∀ read blocked,
    runs (classifyBody a record rev read blocked) t r →
    if match read with Err err => condemned err | Ok _ => false end
    then runs (rejecting a record rev) t r else t = []) as Hclass.
  { intros read blocked. unfold classifyBody. destruct read as [m|err]; [by intros [-> _]|].
    destruct (condemned err); [done|]. by intros [-> _]. }
  pose proof (check_request_condemned pkg (decode body) (SessionID (key a)) (d_CommandID record)) as Hreq.
  unfold checkBody, createbody_Check, inputbody_Check, CheckInterrupt, CheckRestore, checkControlBody in Hrun.
  unfold hopeless. simpl in Hrun.
  destruct (d_Kind record); try done; simpl in *; injection Hkind as <- <-;
    apply Hclass in Hrun; destruct (empty body); simpl in *;
    rewrite ?condemned_Malformed in Hrun by done; try done;
    rewrite <-Hreq by done; try exact Hrun.
  all: by destruct (check_request _ _ _ _).
Qed.
End disposition.

(** ** Witnesses *)

Definition sample_applier : DispositionApplier :=
  mkApplier 30 (Wire.mkKey "t" "s") 4 true 8388608 true true true.

Definition sample_record (st : State) : DispositionRecord :=
  mkRecord "t" "s" "c1" 77 KindInput st 6 11 1000 4 500 (if decide (st = StateApplying) then "a0" else "") 2 3.

Definition sample_command : Command := mkCommand "t" "s" "c1" 6 StatePending 77.

(** Collaborators of a command in the given state: stores that accept everything
    and an evidence reader that settles. *)
Definition sample_world (st : State) : handler DE unit := fun X e =>
  match e in DE X return unit → X * unit with
  | DLoadCommand _ => fun s => (Ok (sample_record st), s)
  | DLoadPayload _ => fun s => (Ok (mkPayload "{}" no_ref), s)
  | DClaim _ _ => fun s => (Ok 12%Z, s)
  | DBeginAttempt _ _ => fun s => (Ok 13%Z, s)
  | DSettle _ _ => fun s => (Ok StateApplied, s)
  | DReject _ _ | DGetObject _ | DClose | DApplyCommand _ | DCloseAttempt _ _ _ _ _ | DCtxErr => fun s => (None, s)
  | DGetObjectMetadata r => fun s => (Ok (mkMetadata r 2 "sha256:x"), s)
  | DCopy _ => fun s => (("{}", None), s)
  | DLoadGate _ => fun s => (Ok (zero_gate, false), s)
  | DLeaseEpoch => fun s => (Some 5%Z, s)
  | DNewAttemptID => fun s => (Ok "a1", s)
  | DStranded _ _ => fun s => (tt, s)
  | DNow => fun s => (100%Z, s)
  | DEndedBy => fun s => (None, s)
  | DLeaseLost => fun s => (false, s)
  | DEnd _ => fun s => (tt, s)
  end.

Definition sample_decode (body : string) : res Request :=
  if bool_decide (body = "{}") then Ok (mkRequest "s" "c1" no_members) else Err (ETyped TJSONSyntaxError None).

Definition sample_Process : prog DE (Outcome * option error) :=
  Process sample_decode sample_decode sample_decode sample_decode (fun _ => Err (EForeign "json"))
    (fun _ => None) (fun _ => true) (fun s => s) sample_applier sample_command.

Definition sample_run := exec (sample_world StatePending) sample_Process tt.

Lemma sample_disposition_runs : runs sample_Process sample_run.2 (mkOutcome StateApplied true, None).
Proof. apply (exec_runs (sample_world StatePending) _ tt _ tt). vm_compute. reflexivity. Qed.

Lemma dispatched_once_authorized_witness :
  let o := nth 12 sample_run.2 (Obs DEndedBy None) in
  dispatching o = Some "a1" ∧ latest begun_of (take 12 sample_run.2) = Some "a1".
Proof.
  intros o. split; [vm_compute; reflexivity|].
  refine (proj1 (proj2 (proj1 (dispatched_once_authorized sample_decode sample_decode sample_decode
    sample_decode (fun _ => Err (EForeign "json")) (fun _ => None) (fun _ => true) (fun s => s)
    sample_applier sample_command sample_run.2 _ (take 12 sample_run.2) o (drop 13 sample_run.2)
    sample_disposition_runs _) "a1" _))); vm_compute; reflexivity.
Defined.

Lemma disposition_writes_swap_witness :
  let o := nth 4 sample_run.2 (Obs DEndedBy None) in
  is_write o = true ∧ held_now (take 4 sample_run.2).
Proof.
  intros o. split; [vm_compute; reflexivity|].
  refine (proj1 (disposition_writes_swap sample_decode sample_decode sample_decode
    sample_decode (fun _ => Err (EForeign "json")) (fun _ => None) (fun _ => true) (fun s => s)
    sample_applier sample_command sample_run.2 _ (take 4 sample_run.2) o (drop 5 sample_run.2)
    sample_disposition_runs _ _)); vm_compute; reflexivity.
Defined.

Lemma recovery_conservative_witness : seen terminal_ok sample_run.2 = true.
Proof.
  exact (proj2 (recovery_conservative sample_decode sample_decode sample_decode
    sample_decode (fun _ => Err (EForeign "json")) (fun _ => None) (fun _ => true) (fun s => s)
    sample_applier sample_command sample_run.2 _ sample_disposition_runs) eq_refl eq_refl).
Defined.

Definition sample_recovery := exec (sample_world StateApplying) sample_Process tt.

Lemma applying_never_redriven_witness :
  sample_recovery.1.1 = (mkOutcome StateApplied true, None) ∧ seen is_dispatch sample_recovery.2 = false.
Proof.
  split; [vm_compute; reflexivity|].
  refine (proj1 (applying_never_redriven sample_decode sample_decode sample_decode
    sample_decode (fun _ => Err (EForeign "json")) (fun _ => None) (fun _ => true) (fun s => s)
    sample_applier sample_command sample_recovery.2 sample_recovery.1.1 "c1" (sample_record StateApplying)
    (tail sample_recovery.2) _ _ _)).
  - apply (exec_runs (sample_world StateApplying) _ tt _ tt). vm_compute. reflexivity.
  - vm_compute. reflexivity.
  - left. reflexivity.
Defined.

Definition sample_check := exec (sample_world StateClaimed)
  (checkBody sample_decode sample_decode sample_decode sample_decode (fun _ => Err (EForeign "json"))
     (fun _ => None) (fun _ => true) sample_applier (sample_record StateClaimed) 12 (mkPayload "{" no_ref)) tt.

Lemma body_verdict_witness :
  hopeless KindInput sample_decode "{" "s" "c1" = true ∧
  runs (rejecting (A := Members) sample_applier (sample_record StateClaimed) 12) sample_check.2 (Ok None).
Proof.
  split; [vm_compute; reflexivity|].
  refine (body_verdict sample_decode sample_decode sample_decode sample_decode (fun _ => Err (EForeign "json"))
    (fun _ => None) (fun _ => true) sample_applier (sample_record StateClaimed) 12 "{" sample_decode PkgInputBody
    sample_check.2 (Ok None) eq_refl _ _).
  - intros err He. vm_compute in He. injection He as <-. intros pkg. split; reflexivity.
  - apply (exec_runs (sample_world StateClaimed) _ tt _ tt). vm_compute. reflexivity.
Defined.
End Disposition.
