(* ===== verification/Multiplexer.v ===== *)
(** * Multiplexer.v: the bindings of authenticated links

    [Multiplexer] of [internal/realtime/hostlink/bindings.go] and its drain RPCs
    ([drain.go]).  Every method holds one mutex, so each is a function of the
    state; what it reads from the residencies, the admission ledger, the
    consumers and the drain state machine is an argument, as are Core's
    validators and its channel encoding.                                      *)
From Stdlib Require Import ZArith.
From stdpp Require Import base list strings gmap sorting pretty.
From S2P Require Import Prelude Wire Registry.

Module Multiplexer.
#[local] Existing Instance Registry.ResidencyState_eq_dec.

Inductive Refusal :=
| RefusalForeignTenant | RefusalUnknownSession | RefusalForeignHost | RefusalStaleHostGeneration
| RefusalEpochMismatch | RefusalRuntimeMismatch | RefusalReleasing | RefusalHostNotAdmitting
| RefusalSessionNotAdmitting | RefusalResidencyReleased | RefusalNoLinkCapacity | RefusalNoHostCapacity
| RefusalNotBound | RefusalMalformedRequest | RefusalWrongDrainScope | RefusalDrainUnsupported
| RefusalDrainUnavailable | RefusalNoDrainInProgress
| RefusalAttachUnsupported | RefusalAttachRefused | RefusalAttachFailed | RefusalHolderEpochUnknown
| RefusalMismatchBuildUnknown | RefusalUnpublishableAttach.

(** [BindError]: the refusal, its key, and the Core class it publishes. *)
Record BindError := mkBindError {
  refusal : Refusal;
  be_Key : Key;
  wire : HostLinkErrorCode;
  currentLeaseEpoch : Z;
  be_runtimeCompatibilityID : string
}.

Definition refused (r : Refusal) (k : Key) (w : HostLinkErrorCode) : BindError := mkBindError r k w 0 "".

(** [HostLinkError]: the Core record the refusal is published as. *)
Record HostLinkError := mkHostLinkError {
  he_Code : HostLinkErrorCode;
  he_CurrentLeaseEpoch : Z;
  he_RuntimeCompatibilityID : string
}.

Record Binding := mkBinding {
  Link : string;
  bKey : Key;
  Channel : string;
  bLeaseEpoch : Z;
  IdempotencyKey : string
}.

Record BindRequest := mkBindRequest {
  br_TenantID : string;
  br_SessionID : string;
  br_HostID : string;
  br_HostGeneration : Z;
  br_LeaseEpoch : Z;
  br_RuntimeCompatibilityID : string;
  br_IdempotencyKey : string
}.

Record UnbindRequest := mkUnbindRequest { ur_TenantID : string; ur_SessionID : string; ur_HostID : string }.

(** [sessionwire.HostLinkDrainRequest]; an empty session is the whole tenant. *)
Record DrainRequest := mkDrainRequest {
  dr_TenantID : string;
  dr_SessionID : string;
  dr_HostID : string;
  dr_HostGeneration : Z
}.

Record DrainStatus := mkDrainStatus { ds_Generation : Z; ds_State : HostLinkDrainState }.

Record DrainObservation := mkDrainObservation {
  do_HostID : string;
  do_HostGeneration : Z;
  do_DrainGeneration : Z;
  do_State : HostLinkDrainState;
  do_Key : Key
}.

Record Multiplexer := mkMultiplexer {
  tenant : string;
  hostID : string;
  generation : Z;
  fixedSession : string;
  perLink : Z;
  total : Z;
  links : gmap string (gmap string Binding);
  count : Z
}.

Definition set_links (m : Multiplexer) (ls : gmap string (gmap string Binding)) (n : Z) : Multiplexer :=
  mkMultiplexer (tenant m) (hostID m) (generation m) (fixedSession m) (perLink m) (total m) ls n.

(** What a residency answers a bind with. *)
Record Residency := mkResidency {
  re_LeaseEpoch : Z;
  re_CompatibilityID : string;
  re_State : Registry.ResidencyState;
  re_Accepting : bool
}.

Definition residency_of {Rt Tgt} (e : Registry.Entry Rt Tgt) : Residency :=
  mkResidency (Registry.LeaseEpoch e) (Registry.CompatibilityID e) (Registry.State e) (Registry.Accepting e).

Section multiplexer.
(** [sessionwire.HostLinkChannel] and Core's validators. *)
Context (ChannelFor : Key → string).
Context (bind_valid : BindRequest → bool) (unbind_valid : UnbindRequest → bool).
Context (error_valid : HostLinkError → bool).

Implicit Types (m : Multiplexer) (get : Key → option Residency).

(** [BindError.HostLinkError]. *)
Definition published (e : BindError) : option HostLinkError :=
  if bool_decide (wire e = HostLinkErrorNone) then None
  else
    let w := mkHostLinkError (wire e) (currentLeaseEpoch e) (be_runtimeCompatibilityID e) in
    if error_valid w then Some w else None.

Definition link_bindings m (link : string) : gmap string Binding := default ∅ (links m !! link).

(** [record]. *)
Definition record m (link : string) (k : Key) (epoch : Z) (idem : string) : (BindError + Binding) * Multiplexer :=
  let channel := ChannelFor k in
  let bindings := link_bindings m link in
  let binding := mkBinding link k channel epoch idem in
  let stored n := (inr binding, set_links m (<[link := <[channel := binding]> bindings]> (links m)) n) in
  match bindings !! channel with
  | Some _ => stored (count m)
  | None =>
      if (perLink m <=? Z.of_nat (size bindings))%Z
      then (inl (refused RefusalNoLinkCapacity k HostLinkErrorNoCapacity), m)
      else if (total m <=? count m)%Z
      then (inl (refused RefusalNoHostCapacity k HostLinkErrorNoCapacity), m)
      else stored (count m + 1)%Z
  end.

(** The checks of [Bind], in order, against the residency it read. *)
Definition bind_refusal m (draining : bool) get (r : BindRequest) : option BindError :=
  let k := mkKey (br_TenantID r) (br_SessionID r) in
  if negb (bind_valid r) then Some (refused RefusalMalformedRequest k HostLinkErrorNone)
  else if bool_decide (br_TenantID r ≠ tenant m)
  then Some (refused RefusalForeignTenant k HostLinkErrorRuntimeUnavailable)
  else if draining then Some (refused RefusalHostNotAdmitting k HostLinkErrorNotAdmitting)
  else match get k with
  | None => Some (refused RefusalUnknownSession k HostLinkErrorRuntimeUnavailable)
  | Some entry =>
      if bool_decide (br_HostID r ≠ hostID m)
      then Some (refused RefusalForeignHost k HostLinkErrorRuntimeUnavailable)
      else if negb (br_HostGeneration r =? generation m)%Z
      then Some (refused RefusalStaleHostGeneration k HostLinkErrorRuntimeUnavailable)
    else if negb (br_LeaseEpoch r =? re_LeaseEpoch entry)%Z
      then Some (mkBindError RefusalEpochMismatch k HostLinkErrorEpochMismatch (re_LeaseEpoch entry) "")
      else if bool_decide (br_RuntimeCompatibilityID r ≠ re_CompatibilityID entry)
      then Some (mkBindError RefusalRuntimeMismatch k HostLinkErrorRuntimeMismatch 0 (re_CompatibilityID entry))
      else if bool_decide (re_State entry ≠ Registry.StateResident)
      then Some (refused RefusalReleasing k HostLinkErrorReleasing)
      else if negb (re_Accepting entry)
      then Some (refused RefusalSessionNotAdmitting k HostLinkErrorNotAdmitting)
      else None
  end.

(** [Bind]. *)
Definition Bind m (draining : bool) get (link : string) (r : BindRequest) :
    (BindError + Binding) * Multiplexer :=
  match bind_refusal m draining get r with
  | Some e => (inl e, m)
  | None => record m link (mkKey (br_TenantID r) (br_SessionID r)) (br_LeaseEpoch r) (br_IdempotencyKey r)
  end.

(** [remove]. *)
Definition remove m (link channel : string) : Multiplexer :=
  match links m !! link with
  | None => m
  | Some bindings =>
      match bindings !! channel with
      | None => m
      | Some _ =>
          let bindings := delete channel bindings in
          set_links m
            (if (size bindings =? 0)%nat then delete link (links m) else <[link := bindings]> (links m))
            (count m - 1)%Z
      end
  end.

(** [Unbind]. *)
Definition Unbind m (link : string) (r : UnbindRequest) : option BindError * Multiplexer :=
  let k := mkKey (ur_TenantID r) (ur_SessionID r) in
  if negb (unbind_valid r) then (Some (refused RefusalMalformedRequest k HostLinkErrorNone), m)
  else if bool_decide (ur_TenantID r ≠ tenant m)
  then (Some (refused RefusalForeignTenant k HostLinkErrorRuntimeUnavailable), m)
  else if bool_decide (ur_HostID r ≠ hostID m)
  then (Some (refused RefusalForeignHost k HostLinkErrorRuntimeUnavailable), m)
  else (None, remove m link (ChannelFor k)).

(** [binding] and [MaySubscribe]. *)
Definition binding m (link channel : string) : option Binding := links m !! link ≫= lookup channel.
Definition MaySubscribe m (link channel : string) : bool := bool_decide (is_Some (binding m link channel)).

(** [Deliver]: the key whose consumer is hinted with the command. *)
Definition Deliver m get (running : Key → bool) (link channel : string) (delivery_valid : bool) :
    BindError + Key :=
  match binding m link channel with
  | None => inl (refused RefusalNotBound key_zero HostLinkErrorRuntimeUnavailable)
  | Some b =>
      if negb delivery_valid then inl (refused RefusalMalformedRequest (bKey b) HostLinkErrorNone)
      else match get (bKey b) with
      | None => inl (refused RefusalResidencyReleased (bKey b) HostLinkErrorNotAdmitting)
      | Some entry =>
          if bool_decide (re_State entry ≠ Registry.StateResident)
          then inl (refused RefusalReleasing (bKey b) HostLinkErrorReleasing)
          else if negb (re_Accepting entry)
          then inl (refused RefusalSessionNotAdmitting (bKey b) HostLinkErrorNotAdmitting)
          else if negb (running (bKey b))
          then inl (refused RefusalUnknownSession (bKey b) HostLinkErrorRuntimeUnavailable)
          else inr (bKey b)
      end
  end.

Definition by_channel (a b : Binding) : Prop := String.le (Channel a) (Channel b).
Definition by_link (a b : Binding) : Prop := String.le (Link a) (Link b).
#[export] Instance by_channel_dec : RelDecision by_channel.
Proof. unfold by_channel. solve_decision. Defined.
#[export] Instance by_link_dec : RelDecision by_link.
Proof. unfold by_link. solve_decision. Defined.

(** [sortedBindings]. *)
Definition sortedBindings (bindings : gmap string Binding) : list Binding :=
  merge_sort by_channel ((map_to_list bindings).*2).

(** [CloseLink]. *)
Definition CloseLink m (link : string) : list Binding * Multiplexer :=
  match links m !! link with
  | None => ([], m)
  | Some bindings =>
      (sortedBindings bindings,
       set_links m (delete link (links m)) (count m - Z.of_nat (size bindings))%Z)
  end.

(** One link's turn in [InvalidateSession]. *)
Definition without (channel : string) (bindings : gmap string Binding) : option (gmap string Binding) :=
  match bindings !! channel with
  | None => Some bindings
  | Some _ =>
      let bindings := delete channel bindings in
      if (size bindings =? 0)%nat then None else Some bindings
  end.

Definition bound_to (channel : string) (ls : gmap string (gmap string Binding)) : list Binding :=
  omap (fun p : string * gmap string Binding => p.2 !! channel) (map_to_list ls).

(** [InvalidateSession]. *)
Definition InvalidateSession m (k : Key) : list Binding * Multiplexer :=
  let channel := ChannelFor k in
  let dropped := bound_to channel (links m) in
  (merge_sort by_link dropped,
   set_links m (omap (without channel) (links m)) (count m - Z.of_nat (length dropped))%Z).

(** [LinkBindings], [Replicas] and [Len]. *)
Definition LinkBindings m (link : string) : list Binding := sortedBindings (link_bindings m link).
Definition Replicas m (k : Key) : list string :=
  merge_sort String.le
    (omap (fun p : string * gmap string Binding =>
             match p.2 !! ChannelFor k with Some _ => Some p.1 | None => None end) (map_to_list (links m))).
Definition Len m : Z := count m.

(** ** Drain RPCs *)

Context (drain_valid : DrainRequest → bool) (observation_valid : DrainObservation → bool).

(** [beganDrainFor]: [begun] is the answer of [BegunScope], absent when the
    observer does not report one. *)
Definition beganDrainFor (begun : option Key) (k : Key) : bool := bool_decide (begun = Some k).

(** [drainScope]: the key of the scope. *)
Definition drainScope m get (begun : option Key) (r : DrainRequest) (observing : bool) : BindError + Key :=
  let k := mkKey (dr_TenantID r) (dr_SessionID r) in
  if negb (drain_valid r) then inl (refused RefusalMalformedRequest key_zero HostLinkErrorNone)
  else if bool_decide (dr_HostID r ≠ hostID m)
  then inl (refused RefusalForeignHost key_zero HostLinkErrorRuntimeUnavailable)
  else if negb (dr_HostGeneration r =? generation m)%Z
  then inl (refused RefusalStaleHostGeneration key_zero HostLinkErrorRuntimeUnavailable)
  else if bool_decide (dr_TenantID r = "")
  then inl (refused RefusalWrongDrainScope key_zero HostLinkErrorRuntimeUnavailable)
  else if bool_decide (dr_TenantID r ≠ tenant m)
  then inl (refused RefusalForeignTenant key_zero HostLinkErrorRuntimeUnavailable)
  else if bool_decide (fixedSession m = "")
  then inl (refused RefusalWrongDrainScope k HostLinkErrorRuntimeUnavailable)
  else if bool_decide (dr_SessionID r ≠ fixedSession m)
  then inl (refused RefusalWrongDrainScope k HostLinkErrorRuntimeUnavailable)
  else if bool_decide (get k = None) && negb (observing && beganDrainFor begun k)
  then inl (refused RefusalWrongDrainScope k HostLinkErrorRuntimeUnavailable)
  else inr k.

(** [drainObservation]. *)
Definition drainObservation m (k : Key) (status : DrainStatus) : BindError + DrainObservation :=
  let observation := mkDrainObservation (hostID m) (generation m) (ds_Generation status) (ds_State status) k in
  if observation_valid observation then inr observation
  else inl (refused RefusalDrainUnavailable k HostLinkErrorRuntimeUnavailable).

(** [StartDrain]: the reply, and the scope a drain was started for. *)
Definition StartDrain m get (starter : option (Key → option DrainStatus)) (r : DrainRequest) :
    (BindError + DrainObservation) * option Key :=
  match drainScope m get None r false with
  | inl e => (inl e, None)
  | inr k =>
      match starter with
      | None => (inl (refused RefusalDrainUnsupported k HostLinkErrorRuntimeUnavailable), None)
      | Some start =>
          match start k with
          | None => (inl (refused RefusalDrainUnavailable k HostLinkErrorRuntimeUnavailable), Some k)
          | Some status => (drainObservation m k status, Some k)
          end
      end
  end.

(** [ObserveDrain]. *)
Definition ObserveDrain m get (begun : option Key) (observer : option (Key → option DrainStatus))
    (r : DrainRequest) : BindError + DrainObservation :=
  match drainScope m get begun r true with
  | inl e => inl e
  | inr k =>
      match observer with
      | None => inl (refused RefusalDrainUnsupported k HostLinkErrorRuntimeUnavailable)
      | Some observe =>
          match observe k with
          | None => inl (refused RefusalNoDrainInProgress k HostLinkErrorRuntimeUnavailable)
          | Some status => drainObservation m k status
          end
      end
  end.

(** ** Every interleaving of the methods *)

Inductive op :=
| OpBind (draining : bool) (get : Key → option Residency) (link : string) (r : BindRequest)
| OpUnbind (link : string) (r : UnbindRequest)
| OpCloseLink (link : string)
| OpInvalidateSession (k : Key).

Definition step m (o : op) : Multiplexer :=
  match o with
  | OpBind draining get link r => (Bind m draining get link r).2
  | OpUnbind link r => (Unbind m link r).2
  | OpCloseLink link => (CloseLink m link).2
  | OpInvalidateSession k => (InvalidateSession m k).2
  end.

(** ** Counting bindings *)

Definition bindings_in (ls : gmap string (gmap string Binding)) : nat :=
  map_fold (fun _ bs n => size bs + n) 0 ls.

Lemma bindings_in_insert ls link bs :
  ls !! link = None → bindings_in (<[link := bs]> ls) = size bs + bindings_in ls.
Proof. intros H. unfold bindings_in. rewrite map_fold_insert_L; [done|intros; lia|done]. Qed.

Lemma bindings_in_delete ls link bs :
  ls !! link = Some bs → bindings_in ls = size bs + bindings_in (delete link ls).
Proof. intros H. rewrite <-(bindings_in_insert _ link) by apply lookup_delete_eq. by rewrite insert_delete_id. Qed.

Lemma bindings_in_insert_default ls link bs :
  bindings_in (<[link := bs]> ls) + size (default ∅ (ls !! link)) = size bs + bindings_in ls.
Proof.
  destruct (ls !! link) as [old|] eqn:Hl; simpl.
  - rewrite (bindings_in_delete ls link old Hl), <-(insert_delete_eq ls), bindings_in_insert
      by apply lookup_delete_eq. lia.
  - rewrite bindings_in_insert by done. rewrite map_size_empty. lia.
Qed.

(** The bindings a session's invalidation drops are exactly those it removes. *)
Lemma bindings_in_without channel ls :
  bindings_in (omap (without channel) ls) + length (bound_to channel ls) = bindings_in ls.
Proof.
  induction ls as [|link bs ls Hl IH] using map_ind; [done|].
  assert (length (bound_to channel (<[link:=bs]> ls)) =
    (match bs !! channel with Some _ => 1 | None => 0 end) + length (bound_to channel ls)) as ->.
  { unfold bound_to.
    assert (omap (λ p : string * gmap string Binding, p.2 !! channel) (map_to_list (<[link:=bs]> ls)) ≡ₚ
      omap (λ p : string * gmap string Binding, p.2 !! channel) ((link, bs) :: map_to_list ls)) as ->.
    { by rewrite map_to_list_insert. }
    simpl. by destruct (bs !! channel). }
  rewrite (bindings_in_insert ls link bs Hl), omap_insert.
  assert (omap (without channel) ls !! link = None) as Hl' by (by rewrite lookup_omap, Hl).
  unfold without. destruct (bs !! channel) as [b|] eqn:Hb; simpl.
  - assert (size bs = S (size (delete channel bs))) as Hs.
    { rewrite <-(insert_delete_id bs channel b Hb) at 1. apply map_size_insert_None, lookup_delete_eq. }
    destruct (size (delete channel bs) =? 0)%nat eqn:Hz; simpl.
    + apply Nat.eqb_eq in Hz. rewrite delete_id by done. fold (without channel). lia.
    + rewrite bindings_in_insert by done. fold (without channel). lia.
  - rewrite bindings_in_insert by done. fold (without channel). lia.
Qed.

(** ** The bookkeeping invariant *)

Record wf m : Prop := {
  wf_count : count m = Z.of_nat (bindings_in (links m));
  wf_total : (0 ≤ count m ≤ Z.max 0 (total m))%Z;
  wf_link link bs : links m !! link = Some bs →
    (0 < Z.of_nat (size bs) ≤ perLink m)%Z;
  wf_binding link channel b : binding m link channel = Some b →
    Link b = link ∧ Channel b = channel ∧ ChannelFor (bKey b) = channel ∧ TenantID (bKey b) = tenant m
}.

Lemma binding_set_links m ls n link channel :
  binding (set_links m ls n) link channel = ls !! link ≫= lookup channel.
Proof. done. Qed.

Lemma size_le_bindings_in ls link bs : ls !! link = Some bs → size bs ≤ bindings_in ls.
Proof. intros H. rewrite (bindings_in_delete ls link bs H). lia. Qed.

(** Storing one binding. *)
Lemma stored_wf m link k epoch idem n :
  wf m → TenantID k = tenant m →
  (Z.of_nat (size (<[ChannelFor k := mkBinding link k (ChannelFor k) epoch idem]> (link_bindings m link))) ≤ perLink m)%Z →
  n = (count m + (Z.of_nat (size (<[ChannelFor k := mkBinding link k (ChannelFor k) epoch idem]> (link_bindings m link)))
       - Z.of_nat (size (link_bindings m link))))%Z →
  (0 ≤ n ≤ Z.max 0 (total m))%Z →
  wf (set_links m (<[link := <[ChannelFor k := mkBinding link k (ChannelFor k) epoch idem]> (link_bindings m link)]> (links m)) n).
Proof.
  intros Hwf Ht Hsize -> Hn. set (bs := <[_ := _]> (link_bindings m link)) in *.
  pose proof (bindings_in_insert_default (links m) link bs) as Hcount.
  split; simpl; [|done|..].
  - rewrite (wf_count m Hwf). unfold link_bindings. lia.
  - intros l bs' [[<- <-]|[_ Hl]]%lookup_insert_Some; [|by apply (wf_link m Hwf l)].
    split; [|done]. assert (size bs ≠ 0) by (apply map_size_non_empty_iff, insert_non_empty). lia.
  - intros l channel b. rewrite binding_set_links. destruct (decide (link = l)) as [<-|Hne].
    + rewrite lookup_insert_eq. simpl. intros [[<- <-]|[Hc Hb]]%lookup_insert_Some; [done|].
      apply (wf_binding m Hwf). unfold binding, link_bindings in *. by destruct (links m !! link).
    + rewrite lookup_insert_ne by done. apply (wf_binding m Hwf).
Qed.

Lemma link_bindings_size m link :
  wf m → (perLink m <=? Z.of_nat (size (link_bindings m link)))%Z = false →
  (Z.of_nat (size (link_bindings m link)) < perLink m)%Z.
Proof. intros _ H. by apply Z.leb_gt in H. Qed.

Lemma Bind_wf m draining get link r : wf m → wf (Bind m draining get link r).2.
Proof.
  intros Hwf. unfold Bind. destruct (bind_refusal m draining get r) eqn:Hr; [done|].
  assert (br_TenantID r = tenant m) as Ht.
  { unfold bind_refusal in Hr. destruct (bind_valid r); simpl in Hr; [|done].
    by case_bool_decide. }
  unfold record. set (k := mkKey _ _). destruct (link_bindings m link !! ChannelFor k) eqn:Hb; simpl.
  - apply stored_wf; [done|done|..]; rewrite ?map_size_insert_Some by eauto.
    + unfold link_bindings in *. destruct (links m !! link) eqn:Hl; simpl in *.
      * by apply (wf_link m Hwf) in Hl as [_ ?].
      * by rewrite lookup_empty in Hb.
    + lia.
    + apply (wf_total m Hwf).
  - destruct (Z.leb_spec (perLink m) (Z.of_nat (size (link_bindings m link)))); simpl; [done|].
    destruct (Z.leb_spec (total m) (count m)); simpl; [done|].
    pose proof (wf_total m Hwf). apply stored_wf; try done; rewrite ?map_size_insert_None by done; lia.
Qed.

Lemma remove_wf m link channel : wf m → wf (remove m link channel).
Proof.
  intros Hwf. unfold remove. destruct (links m !! link) as [bs|] eqn:Hl; [|done].
  destruct (bs !! channel) as [b|] eqn:Hb; [|done].
  assert (size bs = S (size (delete channel bs))) as Hs.
  { rewrite <-(insert_delete_id bs channel b Hb) at 1. apply map_size_insert_None, lookup_delete_eq. }
  pose proof (bindings_in_delete _ _ _ Hl) as Hc. pose proof (wf_count m Hwf) as Hcount.
  pose proof (wf_total m Hwf) as Htot. pose proof (wf_link m Hwf _ _ Hl) as Hlink.
  destruct (size (delete channel bs) =? 0)%nat eqn:Hz; [apply Nat.eqb_eq in Hz|apply Nat.eqb_neq in Hz].
  - split; simpl; [lia|lia|..].
    + intros l bs' [_ H]%lookup_delete_Some. by apply (wf_link m Hwf) in H.
    + intros l c b'. rewrite binding_set_links. destruct (links m !! l) as [bs'|] eqn:Hl'.
      * destruct (decide (link = l)) as [->|Hne]; [by rewrite lookup_delete_eq|].
        rewrite lookup_delete_ne, Hl' by done. intros Hb'. apply (wf_binding m Hwf). unfold binding. by rewrite Hl'.
      * intros H. apply bind_Some in H as (? & [_ ?]%lookup_delete_Some & _). congruence.
  - pose proof (bindings_in_insert_default (links m) link (delete channel bs)) as Hi.
    rewrite Hl in Hi. simpl in Hi. split; simpl; [lia|lia|..].
    + intros l bs' [[<- <-]|[_ H]]%lookup_insert_Some; [lia|]. by apply (wf_link m Hwf) in H.
    + intros l c b'. rewrite binding_set_links. destruct (decide (link = l)) as [<-|Hne].
      * rewrite lookup_insert_eq. simpl. intros [_ H]%lookup_delete_Some.
        apply (wf_binding m Hwf). unfold binding. by rewrite Hl.
      * rewrite lookup_insert_ne by done. apply (wf_binding m Hwf).
Qed.

Lemma CloseLink_wf m link : wf m → wf (CloseLink m link).2.
Proof.
  intros Hwf. unfold CloseLink. destruct (links m !! link) as [bs|] eqn:Hl; simpl; [|done].
  pose proof (bindings_in_delete _ _ _ Hl) as Hc. pose proof (wf_count m Hwf) as Hcount.
  pose proof (wf_total m Hwf) as Htot. split; simpl; [lia|lia|..].
  - intros l bs' [_ H]%lookup_delete_Some. by apply (wf_link m Hwf) in H.
  - intros l c b'. rewrite binding_set_links.
    intros (bs' & [_ Hl']%lookup_delete_Some & Hb')%bind_Some.
    apply (wf_binding m Hwf). unfold binding. by rewrite Hl'.
Qed.

Lemma without_Some channel bs bs' c :
  without channel bs = Some bs' → bs' !! c = if decide (c = channel) then None else bs !! c.
Proof.
  unfold without. destruct (bs !! channel) as [b|] eqn:Hb.
  - destruct (_ =? 0)%nat; [done|]. intros [= <-]. case_decide as Hc; [subst; apply lookup_delete_eq|].
    by rewrite lookup_delete_ne.
  - intros [= <-]. case_decide as Hc; [by subst|done].
Qed.

Lemma binding_invalidated m k link c :
  binding (InvalidateSession m k).2 link c = if decide (c = ChannelFor k) then None else binding m link c.
Proof.
  unfold InvalidateSession, binding. simpl. rewrite lookup_omap.
  destruct (links m !! link) as [bs|]; simpl; [|by case_decide].
  destruct (without (ChannelFor k) bs) as [bs'|] eqn:Hw; simpl; [by apply without_Some|].
  unfold without in Hw. destruct (bs !! ChannelFor k) eqn:Hb; [|done].
  destruct (_ =? 0)%nat eqn:Hz; [|done]. apply Nat.eqb_eq, map_size_empty_inv in Hz.
  case_decide as Hc; [done|]. rewrite <-(lookup_delete_ne bs (ChannelFor k) c), Hz by done.
  by rewrite lookup_empty.
Qed.

Lemma InvalidateSession_wf m k : wf m → wf (InvalidateSession m k).2.
Proof.
  intros Hwf. pose proof (bindings_in_without (ChannelFor k) (links m)) as Hc.
  pose proof (wf_count m Hwf) as Hcount. pose proof (wf_total m Hwf) as Htot.
  split; [simpl; lia|simpl; lia|..].
  - intros l bs' H. simpl in H. rewrite lookup_omap in H. apply bind_Some in H as (bs & Hl & Hw).
    apply (wf_link m Hwf) in Hl. unfold without in Hw. destruct (bs !! ChannelFor k) as [b|] eqn:Hb; [|by simplify_eq].
    destruct (size (delete _ _) =? 0)%nat eqn:Hz; [done|]. simplify_eq. apply Nat.eqb_neq in Hz.
    assert (size bs = S (size (delete (ChannelFor k) bs))) as Hs.
    { rewrite <-(insert_delete_id bs (ChannelFor k) b Hb) at 1. apply map_size_insert_None, lookup_delete_eq. }
    simpl. lia.
  - intros l c b. rewrite binding_invalidated. case_decide; [done|]. apply (wf_binding m Hwf).
Qed.

#[local] Hint Resolve Bind_wf remove_wf CloseLink_wf InvalidateSession_wf : core.

Lemma mux_step_wf m o : wf m → wf (step m o).
Proof.
  destruct o as [draining get link r|link r|link|k]; unfold step; auto.
  intros Hwf. unfold Unbind. destruct (negb (unbind_valid r)); simpl; [done|].
  destruct (bool_decide (ur_TenantID r ≠ tenant m)); simpl; [done|].
  destruct (bool_decide (ur_HostID r ≠ hostID m)); simpl; auto.
Qed.

(** The multiplexer's bookkeeping survives every interleaving of its methods:
    the count is the number of bindings held and within the Host's bound, each
    link is within its own, every binding sits under its link and its session's
    channel, and every one of them belongs to the authenticated tenant. *)
Theorem multiplexer_invariant m os (H : wf m) : wf (fold_left step os m).
Proof. revert m H. induction os as [|o os IH]; simpl; [done|]. intros m H. by apply IH, mux_step_wf. Qed.

(** ** What each method authorizes *)

(** C37 A binding exists only by authority: [Bind] succeeds exactly when Core
    accepts the request, the Host is not draining, the link's own tenant asks for
    this very Host incarnation, the session is resident and accepting under the
    named lease epoch and runtime build, and there is room (or the session is
    already bound on the link); it then stores exactly that binding and leaves
    every other binding as it was. *)
Theorem Bind_authorized m draining get link r (Hwf : wf m) :
  let k := mkKey (br_TenantID r) (br_SessionID r) in
  let b := mkBinding link k (ChannelFor k) (br_LeaseEpoch r) (br_IdempotencyKey r) in
  let '(answer, m') := Bind m draining get link r in
  match answer with
  | inl _ => m' = m
  | inr b' => b' = b ∧
      bind_valid r = true ∧ draining = false ∧ br_TenantID r = tenant m ∧ br_HostID r = hostID m ∧
      br_HostGeneration r = generation m ∧
      get k = Some (mkResidency (br_LeaseEpoch r) (br_RuntimeCompatibilityID r) Registry.StateResident true) ∧
      (is_Some (binding m link (ChannelFor k)) ∨
       (Z.of_nat (size (link_bindings m link)) < perLink m)%Z ∧ (count m < total m)%Z) ∧
      ∀ l c, binding m' l c = if decide (l = link ∧ c = ChannelFor k) then Some b else binding m l c
  end.
Proof.
  set (k := mkKey _ _). cbv zeta. unfold Bind. fold k.
  destruct (bind_refusal m draining get r) eqn:Hr; [done|].
  assert (bind_valid r = true ∧ draining = false ∧ br_TenantID r = tenant m ∧ br_HostID r = hostID m ∧
    br_HostGeneration r = generation m ∧
    get k = Some (mkResidency (br_LeaseEpoch r) (br_RuntimeCompatibilityID r) Registry.StateResident true)) as Hauth.
  { unfold bind_refusal in Hr. fold k in Hr. destruct (bind_valid r); simpl in Hr; [|done].
    case_bool_decide; [done|]. destruct draining; [done|]. destruct (get k) as [[ep compat st acc]|]; [|done].
    simpl in Hr. case_bool_decide; [done|].
    destruct (Z.eqb_spec (br_HostGeneration r) (generation m)); simpl in Hr; [|done].
    destruct (Z.eqb_spec (br_LeaseEpoch r) ep); simpl in Hr; [|done].
    case_bool_decide; [done|]. case_bool_decide; [done|]. destruct acc; [|done]. split_and!; congruence. }
  unfold record. set (b := mkBinding _ _ _ _ _).
  assert (∀ n l c, binding (set_links m (<[link := <[ChannelFor k := b]> (link_bindings m link)]> (links m)) n) l c =
    if decide (l = link ∧ c = ChannelFor k) then Some b else binding m l c) as Hstore.
  { intros n l c. rewrite binding_set_links. unfold binding. destruct (decide (l = link)) as [->|Hne].
    - rewrite lookup_insert_eq. simpl. case_decide as Hc.
      + destruct Hc as [_ ->]. apply lookup_insert_eq.
      + rewrite lookup_insert_ne by naive_solver. unfold link_bindings. by destruct (links m !! link).
    - rewrite lookup_insert_ne by done. case_decide; [naive_solver|done]. }
  destruct (link_bindings m link !! ChannelFor k) as [b0|] eqn:Hb.
  - destruct Hauth as (? & ? & ? & ? & ? & ?). split_and!; try done. left.
    exists b0. unfold binding, link_bindings in *. by destruct (links m !! link).
  - destruct (Z.leb_spec (perLink m) (Z.of_nat (size (link_bindings m link)))); [done|].
    destruct (Z.leb_spec (total m) (count m)); [done|].
    destruct Hauth as (? & ? & ? & ? & ? & ?). split_and!; try done. by right.
Qed.

(** A delivered command wakes the right session and no other: [Deliver]
    hints the consumer of the binding's own session, for the link's own tenant,
    and only while that residency is held, resident and accepting; with an
    injective channel encoding the session is the one the channel names. *)
Theorem Deliver_hints m get running link k valid k'
    (Hwf : wf m) (Hinj : ∀ k1 k2, ChannelFor k1 = ChannelFor k2 → k1 = k2)
    (H : Deliver m get running link (ChannelFor k) valid = inr k') :
  k' = k ∧ TenantID k = tenant m ∧ MaySubscribe m link (ChannelFor k) = true ∧ running k = true ∧
  ∃ e, get k = Some e ∧ re_State e = Registry.StateResident ∧ re_Accepting e = true.
Proof.
  unfold Deliver in H. unfold MaySubscribe. destruct (binding m link (ChannelFor k)) as [b|] eqn:Hb; [|done].
  pose proof (wf_binding m Hwf _ _ _ Hb) as (_ & _ & Hc & Ht). apply Hinj in Hc as Hk. rewrite Hk in *.
  destruct valid; [|done]. simpl in H. destruct (get k) as [e|] eqn:Hg; [|done].
  case_bool_decide; [done|]. destruct (re_Accepting e) eqn:Ha; [|done]. simpl in H.
  destruct (running k) eqn:Hrun; [|done]. simpl in H. injection H as <-.
  split_and!; try done. exists e. by split_and!.
Qed.

Lemma Permutation_length_sorted {A} (R : A → A → Prop) `{!RelDecision R} (l : list A) x :
  x ∈ merge_sort R l ↔ x ∈ l.
Proof. by rewrite merge_sort_Permutation. Qed.

(** Losing a residency cuts exactly its own links: after [InvalidateSession]
    no link holds the session's channel, every other binding is untouched, and
    the report lists exactly the bindings that were dropped. *)
Theorem InvalidateSession_exact m k dropped m' (Hwf : wf m)
    (H : InvalidateSession m k = (dropped, m')) :
  (∀ link c, binding m' link c = if decide (c = ChannelFor k) then None else binding m link c) ∧
  (∀ b, b ∈ dropped ↔ binding m (Link b) (ChannelFor k) = Some b) ∧
  count m' = (count m - Z.of_nat (length dropped))%Z.
Proof.
  assert (m' = (InvalidateSession m k).2) as -> by (by rewrite H).
  split; [intros; apply binding_invalidated|].
  unfold InvalidateSession in *. simpl in *. injection H as <-. split.
  - intros b. rewrite Permutation_length_sorted. unfold bound_to. rewrite list_elem_of_omap. split.
    + intros ([link bs] & Hin & Hb). apply elem_of_map_to_list in Hin. simpl in Hb.
      assert (binding m link (ChannelFor k) = Some b) as Hbind by (unfold binding; by rewrite Hin).
      by destruct (wf_binding m Hwf _ _ _ Hbind) as (-> & _).
    + unfold binding. intros (bs & Hl & Hb)%bind_Some. exists (Link b, bs).
      by rewrite elem_of_map_to_list.
  - by rewrite merge_sort_Permutation.
Qed.

(** A link can only ever drain its own tenant's fixed session: a drain is
    started over a link for no other scope, never for the whole Host, and only
    while this Host holds that session's residency. *)
Theorem drain_scoped m get starter r k answer
    (H : StartDrain m get starter r = (answer, Some k)) :
  k = mkKey (tenant m) (fixedSession m) ∧ k ≠ key_zero ∧ is_Some (get k) ∧
  dr_HostID r = hostID m ∧ dr_HostGeneration r = generation m.
Proof.
  unfold StartDrain, drainScope in H. destruct (drain_valid r); [|done]. simpl in H.
  case_bool_decide; [done|]. destruct (Z.eqb_spec (dr_HostGeneration r) (generation m)); simpl in H; [|done].
  case_bool_decide; [done|]. case_bool_decide; [done|]. case_bool_decide; [done|]. case_bool_decide; [done|].
  rewrite andb_true_r in H. case_bool_decide; [done|].
  assert (k = mkKey (dr_TenantID r) (dr_SessionID r)) as -> by (repeat case_match; congruence).
  assert (dr_TenantID r = tenant m) as <- by done.
  assert (dr_SessionID r = fixedSession m) as <- by done.
  split_and!; try done.
  - unfold key_zero. congruence.
  - by apply not_eq_None_Some.
Qed.
End multiplexer.

(** ** Witnesses *)

Definition sample_mux : Multiplexer := mkMultiplexer "t" "host-1" 1 "s" 2 3 ∅ 0.

Lemma sample_wf ch : wf ch sample_mux.
Proof.
  split; [reflexivity|simpl; lia|..].
  - intros l bs H. simpl in H. by rewrite lookup_empty in H.
  - intros l c b H. unfold binding in H. simpl in H. by rewrite lookup_empty in H.
Qed.

(** An injective channel encoding. *)
Definition sample_channel (k : Key) : string := pretty (Npos (encode k)).

Lemma sample_channel_inj k1 k2 : sample_channel k1 = sample_channel k2 → k1 = k2.
Proof.
  intros H. apply (inj pretty) in H. assert (encode k1 = encode k2) as He by congruence.
  by apply (inj encode) in He.
Qed.

Definition sample_get (k : Key) : option Residency :=
  if decide (k = mkKey "t" "s") then Some (mkResidency 4 "v1" Registry.StateResident true) else None.

Definition sample_request : BindRequest := mkBindRequest "t" "s" "host-1" 1 4 "v1" "i1".

Definition yes {A} (_ : A) : bool := true.

Definition sample_bound : Multiplexer := (Bind sample_channel yes sample_mux false sample_get "link-1" sample_request).2.

Lemma Bind_authorized_witness :
  let k := mkKey "t" "s" in
  let '(answer, m') := Bind sample_channel yes sample_mux false sample_get "link-1" sample_request in
  is_Some (binding m' "link-1" (sample_channel k)) ∧
  match answer with inl _ => m' = sample_mux | inr _ => sample_get k = Some (mkResidency 4 "v1" Registry.StateResident true) end.
Proof.
  pose proof (Bind_authorized sample_channel yes sample_mux false sample_get "link-1" sample_request
    (sample_wf _)) as H. cbv zeta in *.
  destruct (Bind _ _ _ _ _ _ _) as [answer m'] eqn:Hb. vm_compute in Hb. injection Hb as <- <-.
  destruct H as (_ & _ & _ & _ & _ & _ & H & _). split; [vm_compute; eauto|]. exact H.
Defined.

Definition sample_ops : list op :=
  [OpBind false sample_get "link-1" sample_request; OpBind false sample_get "link-2" sample_request;
   OpUnbind "link-1" (mkUnbindRequest "t" "s" "host-1"); OpInvalidateSession (mkKey "t" "s")].

Lemma multiplexer_invariant_witness :
  wf sample_channel (fold_left (step sample_channel yes yes) sample_ops sample_mux) ∧
  count (fold_left (step sample_channel yes yes) (take 3 sample_ops) sample_mux) = 1%Z.
Proof.
  split; [|vm_compute; reflexivity].
  exact (multiplexer_invariant sample_channel yes yes sample_mux sample_ops (sample_wf _)).
Defined.

Lemma sample_bound_wf : wf sample_channel sample_bound.
Proof. apply Bind_wf, sample_wf. Qed.

Lemma Deliver_hints_witness :
  Deliver sample_bound sample_get yes "link-1" (sample_channel (mkKey "t" "s")) true = inr (mkKey "t" "s") ∧
  TenantID (mkKey "t" "s") = tenant sample_bound.
Proof.
  split; [vm_compute; reflexivity|].
  exact (proj1 (proj2 (Deliver_hints sample_channel sample_bound sample_get yes "link-1" (mkKey "t" "s") true
    (mkKey "t" "s") sample_bound_wf sample_channel_inj eq_refl))).
Defined.

Lemma InvalidateSession_exact_witness :
  let r := InvalidateSession sample_channel sample_bound (mkKey "t" "s") in
  length r.1 = 1 ∧ count r.2 = (count sample_bound - Z.of_nat (length r.1))%Z.
Proof.
  intros r. split; [vm_compute; reflexivity|].
  exact (proj2 (proj2 (InvalidateSession_exact sample_channel sample_bound (mkKey "t" "s") r.1 r.2
    sample_bound_wf eq_refl))).
Defined.

Lemma drain_scoped_witness :
  let start (_ : Key) := Some (mkDrainStatus 1 HostLinkDrainStateDraining) in
  let r := StartDrain yes yes sample_mux sample_get (Some start) (mkDrainRequest "t" "s" "host-1" 1) in
  r.2 = Some (mkKey "t" "s") ∧ mkKey "t" "s" ≠ key_zero.
Proof.
  intros start r. split; [vm_compute; reflexivity|].
  exact (proj1 (proj2 (drain_scoped yes yes sample_mux sample_get (Some start) (mkDrainRequest "t" "s" "host-1" 1)
    (mkKey "t" "s") r.1 eq_refl))).
Defined.
End Multiplexer.
