(* ===== verification/Drainer.v ===== *)
(** * Drainer.v: draining a Host

    [Drainer] of [internal/lifecycle/drain.go].  [StartDrain] may be called by
    any number of goroutines: its critical sections are the steps of a
    transition system over the fields guarded by [mu].  The release of one
    session ([release], [bounded], [waitIdle], [abandon]) and the settling of
    attaches ([settleAttaches]) are programs whose collaborators, timers and
    [select]s are calls of [RE].                                               *)
From Stdlib Require Import ZArith.
From stdpp Require Import base list strings gmap relations.
From S2P Require Import Prelude Wire Errors Effects.

Module Drainer.
Local Open Scope prog_scope.

Definition ErrResidencyStillHeld : error := ESentinel "department.ErrResidencyStillHeld".
Definition ErrNotAbandonable : error := ESentinel "lifecycle.ErrNotAbandonable".
Definition ErrIdleBoundary : error := ESentinel "lifecycle.ErrIdleBoundary".
Definition ErrWaitAbandoned : error := ESentinel "lifecycle.ErrWaitAbandoned".
Definition ErrPublishBound : error := ESentinel "lifecycle.ErrPublishBound".

Inductive Step :=
| StepHaltConsumption | StepBeginRelease | StepWaitIdle | StepCheckpoint
| StepReleaseResidency | StepFinishRelease | StepAbandonResidency
| StepSettleAttaches | StepUnreleased | StepCloseLink.

#[export] Instance Step_eq_dec : EqDecision Step.
Proof. solve_decision. Defined.

Record Failure := mkFailure { f_Key : Key; f_Step : Step; f_Err : error; f_ResidencyEpoch : Z }.

(** [settledState]. *)
Definition undrained (f : Failure) : bool :=
  match f_Step f with
  | StepFinishRelease | StepSettleAttaches | StepUnreleased => true
  | _ => errors_is (f_Err f) ErrResidencyStillHeld
  end.

Definition settledState (failures : list Failure) : HostLinkDrainState :=
  if existsb undrained failures then HostLinkDrainStateDraining else HostLinkDrainStateDrained.

(** ** Starting a drain

    [calls i] is where goroutine [i] is inside [StartDrain].                   *)

Inductive answer :=
| Status (st : HostLinkDrainState)      (* the status, and a nil error *)
| Failed (err : error)                  (* the zero status, and an error *)
| Nothing.                              (* the zero status, and a nil error *)

Inductive at_call :=
| Outside
| Waiting (n : nat)                     (* blocked on the [settled] of attempt [n] *)
| Publishing (n : nat) (scope : Key)    (* publishing, outside the mutex *)
| Closing (n : nat) (a : answer)        (* about to close its [settled] *)
| Returned (a : answer).

Record Drainer := mkDrainer {
  begun : bool;
  drainState : HostLinkDrainState;
  failures : list Failure;
  begunScope : Key;
  ledgerStopped : bool;
  starting : bool;
  startErr : option error;
  attempt : nat;                        (* how many [settled] channels were made *)
  closed : gset nat;                    (* which of them are closed *)
  running : nat;                        (* [go d.run] started *)
  begins : nat;                         (* [Admissions.BeginDrain] called *)
  published : bool;                     (* a nonaccepting publication succeeded *)
  calls : nat → at_call
}.

Definition NewDrainer : Drainer :=
  mkDrainer false HostLinkDrainStateDraining [] key_zero false false None 0 ∅ 0 0 false (fun _ => Outside).

Definition goto (calls : nat → at_call) (i : nat) (c : at_call) : nat → at_call :=
  fun j => if decide (j = i) then c else calls j.

(** The first critical section of [StartDrain]. *)
Definition enter (d : Drainer) (i : nat) (scope : Key) : Drainer :=
  let at_ c := mkDrainer (begun d) (drainState d) (failures d) (begunScope d) (ledgerStopped d) (starting d)
                 (startErr d) (attempt d) (closed d) (running d) (begins d) (published d) (goto (calls d) i c) in
  if begun d then at_ (Returned (Status (drainState d)))
  else if starting d then at_ (Waiting (attempt d))
  else
    mkDrainer (begun d) (drainState d) (failures d) (begunScope d) true true (startErr d)
      (S (attempt d)) (closed d) (running d)
      (if ledgerStopped d then begins d else S (begins d)) (published d)
      (goto (calls d) i (Publishing (S (attempt d)) scope)).

(** The second, with what [publish] answered. *)
Definition publish_returns (d : Drainer) (i n : nat) (scope : Key) (err : option error) : Drainer :=
  match err with
  | Some e =>
      mkDrainer (begun d) (drainState d) (failures d) (begunScope d) (ledgerStopped d) false (Some e)
        (attempt d) (closed d) (running d) (begins d) (published d) (goto (calls d) i (Closing n (Failed e)))
  | None =>
      mkDrainer true (drainState d) (failures d) scope (ledgerStopped d) false None
        (attempt d) (closed d) (S (running d)) (begins d) true
        (goto (calls d) i (Closing n (Status (drainState d))))
  end.

Definition close_settled (d : Drainer) (i n : nat) (a : answer) : Drainer :=
  mkDrainer (begun d) (drainState d) (failures d) (begunScope d) (ledgerStopped d) (starting d) (startErr d)
    (attempt d) ({[n]} ∪ closed d) (running d) (begins d) (published d) (goto (calls d) i (Returned a)).

(** The wake-up of a caller that waited. *)
Definition wake (d : Drainer) (i : nat) : Drainer :=
  mkDrainer (begun d) (drainState d) (failures d) (begunScope d) (ledgerStopped d) (starting d) (startErr d)
    (attempt d) (closed d) (running d) (begins d) (published d)
    (goto (calls d) i (Returned (if begun d then Status (drainState d)
                                 else match startErr d with Some e => Failed e | None => Nothing end))).

(** [record], by a goroutine of [run], and the end of [run]. *)
Definition record_failure (d : Drainer) (f : Failure) : Drainer :=
  mkDrainer (begun d) (drainState d) (failures d ++ [f]) (begunScope d) (ledgerStopped d) (starting d)
    (startErr d) (attempt d) (closed d) (running d) (begins d) (published d) (calls d).

Definition run_ends (d : Drainer) : Drainer :=
  mkDrainer (begun d) (settledState (failures d)) (failures d) (begunScope d) (ledgerStopped d) (starting d)
    (startErr d) (attempt d) (closed d) (running d) (begins d) (published d) (calls d).

(** Returned goroutines may call again. *)
Definition forget (d : Drainer) (i : nat) : Drainer :=
  mkDrainer (begun d) (drainState d) (failures d) (begunScope d) (ledgerStopped d) (starting d) (startErr d)
    (attempt d) (closed d) (running d) (begins d) (published d) (goto (calls d) i Outside).

Inductive step : Drainer → Drainer → Prop :=
| step_enter d i scope : calls d i = Outside → step d (enter d i scope)
| step_publish d i n scope err : calls d i = Publishing n scope → step d (publish_returns d i n scope err)
| step_close d i n a : calls d i = Closing n a → step d (close_settled d i n a)
| step_wake d i n : calls d i = Waiting n → n ∈ closed d → step d (wake d i)
| step_again d i a : calls d i = Returned a → step d (forget d i)
| step_record d f : 0 < running d → step d (record_failure d f)
| step_ends d : 0 < running d → step d (run_ends d).

(** [ObserveDrain] and [BegunScope]. *)
Definition ObserveDrain (d : Drainer) : option HostLinkDrainState :=
  if begun d then Some (drainState d) else None.
Definition BegunScope (d : Drainer) : option Key :=
  if negb (begun d) || bool_decide (begunScope d = key_zero) then None else Some (begunScope d).

(** ** One drain, started once *)

(** What an answer means, given the fields it was read from. *)
Definition honest (b : bool) (e : option error) (a : answer) : Prop :=
  match a with
  | Status _ => b = true
  | Failed _ => b = true ∨ e ≠ None
  | Nothing => False
  end.

Record start_inv (d : Drainer) : Prop := {
  si_begun : running d = (if begun d then 1 else 0) ∧ published d = begun d;
  si_ledger : begins d = (if ledgerStopped d then 1 else 0);
  si_started : starting d = true ∨ begun d = true → ledgerStopped d = true;
  si_excl : begun d = true → starting d = false;
  si_pub i n scope : calls d i = Publishing n scope → starting d = true;
  si_one i j n m s1 s2 : calls d i = Publishing n s1 → calls d j = Publishing m s2 → i = j;
  si_closed n : n ∈ closed d → begun d = true ∨ startErr d ≠ None;
  si_closing i n a : calls d i = Closing n a → honest (begun d) (startErr d) a;
  si_returned i a : calls d i = Returned a → a ≠ Nothing ∧ ∀ st, a = Status st → begun d = true
}.

Lemma goto_eq c i x j y : goto c i x j = y → (j = i ∧ x = y) ∨ (j ≠ i ∧ c j = y).
Proof. unfold goto. case_decide; auto. Qed.

(** A step that moves one goroutine between calls that neither publish nor close. *)
Ltac moved :=
  repeat match goal with
    | H : goto _ _ _ _ = _ |- _ => apply goto_eq in H as [[? ?]|[? ?]]; simplify_eq
    end.

Lemma start_inv_move d i c :
  start_inv d → (∀ n s, c ≠ Publishing n s) → (∀ n a, c = Closing n a → honest (begun d) (startErr d) a) →
  (∀ a, c = Returned a → a ≠ Nothing ∧ ∀ st, a = Status st → begun d = true) →
  start_inv (mkDrainer (begun d) (drainState d) (failures d) (begunScope d) (ledgerStopped d) (starting d)
    (startErr d) (attempt d) (closed d) (running d) (begins d) (published d) (goto (calls d) i c)).
Proof.
  intros [Hrun Hled Hst Hex Hp Hone Hcl Hcg Hret] H1 H2 H3.
  split; simpl; try done; intros *.
  - intros H. apply goto_eq in H as [[-> H]|[_ H]]; [by apply H1 in H|by eapply Hp].
  - intros Ha Hb. apply goto_eq in Ha as [[-> Ha]|[_ Ha]]; [by apply H1 in Ha|].
    apply goto_eq in Hb as [[-> Hb]|[_ Hb]]; [by apply H1 in Hb|by eapply Hone].
  - intros H. apply goto_eq in H as [[-> H]|[_ H]]; [by eapply H2|by eapply Hcg].
  - intros H. apply goto_eq in H as [[-> H]|[_ H]]; [by eapply H3|by eapply Hret].
Qed.

Lemma enter_inv d i scope : start_inv d → calls d i = Outside → start_inv (enter d i scope).
Proof.
  intros Hinv Hi. unfold enter. destruct (begun d) eqn:Hb; [|destruct (starting d) eqn:Hs].
  - rewrite <-Hb. apply start_inv_move; [done..|]. intros a [= <-]. split; [done|]. by intros ? [= <-].
  - rewrite <-Hs, <-Hb. by apply start_inv_move.
  - destruct Hinv as [Hrun Hled Hst Hex Hp Hone Hcl Hcg Hret].
    assert (∀ j n s, calls d j = Publishing n s → False) as Hnone.
    { intros j n s H%Hp. congruence. }
    rewrite Hb in *. split; simpl; try done; intros *.
    + rewrite Hled. by destruct (ledgerStopped d).
    + intros Ha Hb'. apply goto_eq in Ha as [[-> _]|[_ Ha]]; [|by apply Hnone in Ha].
      apply goto_eq in Hb' as [[-> _]|[_ Hb']]; [done|by apply Hnone in Hb'].
    + intros H. apply goto_eq in H as [[-> H]|[_ H]]; [done|by eapply Hcg].
    + intros H. apply goto_eq in H as [[-> H]|[_ H]]; [done|by eapply Hret].
Qed.

Lemma publish_inv d i n scope err :
  start_inv d → calls d i = Publishing n scope → start_inv (publish_returns d i n scope err).
Proof.
  intros [[Hrun Hpub] Hled Hst Hex Hp Hone Hcl Hcg Hret] Hi. pose proof (Hp _ _ _ Hi) as Hs.
  assert (begun d = false) as Hb.
  { destruct (begun d); [|done]. specialize (Hex eq_refl). congruence. }
  assert (∀ j m s, j ≠ i → calls d j = Publishing m s → False) as Hnone.
  { intros j m s Hne H. apply Hne. by eapply Hone. }
  rewrite Hb in *. unfold publish_returns. destruct err as [e|]; split; simpl; try rewrite ?Hb; try done; try (intros *).
  - intros [|]; [done|]. naive_solver.
  - intros H. apply goto_eq in H as [[-> H]|[Hne H]]; [done|by apply Hnone in H].
  - intros H. apply goto_eq in H as [[-> H]|[Hne H]]; [done|by apply Hnone in H].
  - by right.
  - intros H. apply goto_eq in H as [[-> [= <- <-]]|[Hne H]]; [by right|].
    apply Hcg in H. destruct a; simpl in *; [done|by right|done].
  - intros H. apply goto_eq in H as [[-> H]|[Hne H]]; [done|by eapply Hret].
  - by rewrite Hrun.
  - intros _. apply Hst. by left.
  - intros H. apply goto_eq in H as [[-> H]|[Hne H]]; [done|by apply Hnone in H].
  - intros H. apply goto_eq in H as [[-> H]|[Hne H]]; [done|by apply Hnone in H].
  - by left.
  - intros H. apply goto_eq in H as [[-> [= <- <-]]|[Hne H]]; [done|].
    apply Hcg in H. destruct a; simpl in *; [done|by left|done].
  - intros H. apply goto_eq in H as [[-> H]|[Hne H]]; [done|]. apply Hret in H as [H _]. by split.
Qed.

Lemma step_inv d d' : start_inv d → step d d' → start_inv d'.
Proof.
  intros Hinv Hs. destruct Hs as [d i scope Hi|d i n scope err Hi|d i n a Hi|d i n Hi Hn|d i a Hi|d f Hf|d Hf].
  - by apply enter_inv.
  - by apply publish_inv.
  - pose proof (si_closing d Hinv _ _ _ Hi) as Ha.
    pose proof (start_inv_move d i (Returned a) Hinv) as [Hrun Hled Hst Hex Hp Hone Hcl Hcg Hret]; try done.
    { intros a' [= <-]. destruct a; simpl in *; split; naive_solver. }
    split; simpl in *; try done. intros m [->%elem_of_singleton|Hm]%elem_of_union; [|by eapply Hcl].
    destruct a; simpl in *; [by left|done|done].
  - pose proof (si_closed d Hinv n Hn) as Hor. apply start_inv_move; try done.
    intros a [= <-]. destruct (begun d); [split; naive_solver|].
    destruct (startErr d); [split; naive_solver|]. naive_solver.
  - by apply start_inv_move.
  - by destruct Hinv.
  - by destruct Hinv.
Qed.

Lemma reachable_inv d : rtc step NewDrainer d → start_inv d.
Proof.
  apply (rtc_ind_r start_inv NewDrainer).
  - split; simpl; try done; first [naive_solver | set_solver].
  - intros y z _ Hyz Hy. by eapply step_inv.
Qed.

(** However many goroutines call [StartDrain], the admission ledger is told
    to drain at most once, at most one publication is in flight, and at most one
    drain runs; the ledger is stopped before any drain begins; and a caller is
    answered with a status only once a nonaccepting publication has succeeded,
    and never with an empty success. *)
Theorem drain_starts_once d (Hr : rtc step NewDrainer d) :
  begins d ≤ 1 ∧ running d ≤ 1 ∧
  (∀ i j n m s1 s2, calls d i = Publishing n s1 → calls d j = Publishing m s2 → i = j) ∧
  (0 < running d → begins d = 1 ∧ published d = true) ∧
  (∀ i, calls d i ≠ Returned Nothing) ∧
  (∀ i st, calls d i = Returned (Status st) → running d = 1 ∧ published d = true).
Proof.
  apply reachable_inv in Hr as [[Hrun Hpub] Hled Hst Hex Hp Hone Hcl Hcg Hret].
  rewrite Hrun, Hpub, Hled. split_and!.
  - destruct (ledgerStopped d); lia.
  - destruct (begun d); lia.
  - done.
  - destruct (begun d) eqn:Hb; [|lia]. intros _. by rewrite Hst by auto.
  - intros i H. by apply Hret in H as [? _].
  - intros i st H. apply Hret in H as [_ H]. by rewrite (H st eq_refl).
Qed.

(** A drain that has begun is forever the same drain: no later call, however
    interleaved, restarts it, changes its scope, or hides it from an observer. *)
Theorem drain_is_forever d d' (Hr : rtc step NewDrainer d) (Hs : rtc step d d') (Hb : begun d = true) :
  is_Some (ObserveDrain d') ∧ running d' = running d ∧ BegunScope d' = BegunScope d.
Proof.
  assert (start_inv d ∧ begun d = true) as [Hinv _] by (split; [by apply reachable_inv|done]).
  revert Hinv Hb. clear Hr. induction Hs as [d|d1 d2 d3 H12 _ IH]; intros Hinv Hb.
  { unfold ObserveDrain. rewrite Hb. eauto. }
  pose proof (step_inv _ _ Hinv H12) as Hinv2.
  assert (begun d2 = true ∧ running d2 = running d1 ∧ begunScope d2 = begunScope d1) as (Hb2 & Hr2 & Hsc).
  { destruct H12 as [d i scope Hi|d i n scope err Hi| | | | |]; try done.
    - unfold enter. rewrite Hb. done.
    - pose proof (si_pub d Hinv _ _ _ Hi). pose proof (si_excl d Hinv Hb). congruence. }
  destruct (IH Hinv2 Hb2) as (H1 & H2 & H3). split; [done|]. split; [congruence|].
  rewrite H3. unfold BegunScope. by rewrite Hb, Hb2, Hsc.
Qed.

(** The state a drain settles on is honest: it is drained exactly when no
    recorded failure left a residency held, an attach unsettled or a release
    unfinished. *)
Theorem settledState_spec fs :
  settledState fs = HostLinkDrainStateDrained ↔
  Forall (fun f => f_Step f ≠ StepFinishRelease ∧ f_Step f ≠ StepSettleAttaches ∧ f_Step f ≠ StepUnreleased ∧
                   errors_is (f_Err f) ErrResidencyStillHeld = false) fs.
Proof.
  unfold settledState. induction fs as [|f fs IH]; simpl; [done|]. rewrite Forall_cons.
  unfold undrained at 1. destruct (f_Step f); simpl; try (destruct (errors_is _ _); simpl); naive_solver.
Qed.

(** ** Releasing one session *)

(** The first [select] of a bounded wait, and the second one. *)
Inductive Select := Answered (err : option error) | TimerFired | GraceDone.

Inductive RE : Type → Type :=
| REpoch : RE Z
| RAwaitSessionAttaches : RE (option error)
| REnded : RE bool
| RCall (s : Step) : RE (option error)        (* a synchronous call of the session *)
| RStart (s : Step) : RE unit                 (* the call made on a goroutine of its own *)
| RSelect : RE Select
| RCancel : RE unit
| RSelectAgain : RE Select
| RPoll : RE (option (option error))          (* a select with a default arm *)
| RRecord (f : Failure) : RE unit
| RBook (abandoned parked : option Key) : RE unit
| RAwaitAttaches (patience : bool) : RE (option error)
| RCancelAttaches : RE unit.

Definition P : Type → Type := prog RE.

(** Which optional interfaces the residents and the session implement. *)
Record Session := mkSession {
  s_Key : Key;
  has_attaches : bool;
  has_epoch : bool;
  has_ender : bool;
  has_halter : bool;
  has_abandoner : bool
}.

Definition join_boundary (err : error) : error := EJoin [ErrIdleBoundary; err].

(** The wait, after cancellation, for an answer or the end of the grace. *)
Definition after_cancel : prog RE error :=
  do! call RCancel in
  let! again := call RSelectAgain in
  let! err :=
    match again with
    | Answered err => Ret err
    | _ =>
        let! polled := call RPoll in
        Ret (match polled with Some err => err | None => Some ErrWaitAbandoned end)
    end in
  Ret (join_boundary (default context_DeadlineExceeded err)).

(** [bounded]. *)
Definition bounded (s : Step) : prog RE (option error) :=
  do! call (RStart s) in
  let! first := call RSelect in
  match first with
  | Answered err => Ret err
  | TimerFired | GraceDone => let! err := after_cancel in Ret (Some err)
  end.

Definition record (s : Session) (epoch : Z) (st : Step) (err : error) : prog RE unit :=
  call (RRecord (mkFailure (s_Key s) st err epoch)).

Definition record_if (s : Session) (epoch : Z) (st : Step) (err : option error) : prog RE unit :=
  match err with Some err => record s epoch st err | None => Ret tt end.

(** [release]'s [run]. *)
Definition run_step (s : Session) (epoch : Z) (st : Step) : prog RE unit :=
  let! err := call (RCall st) in
  record_if s epoch st err.

(** [waitIdle]: [bounded]'s wait, recorded. *)
Definition waitIdle (s : Session) (epoch : Z) : prog RE unit :=
  let! err := bounded StepWaitIdle in
  record_if s epoch StepWaitIdle err.

(** [abandon]: the two waits are bounded by timers, not by the grace. *)
Definition abandon (s : Session) (epoch : Z) : prog RE unit :=
  let park := call (RBook None (Some (s_Key s))) in
  if negb (has_abandoner s) then park
  else
    do! call (RStart StepAbandonResidency) in
    let! first := call RSelect in
    let! err :=
      match first with
      | Answered err => Ret err
      | _ =>
          do! call RCancel in
          let! again := call RSelectAgain in
          Ret (match again with
               | Answered err => Some (join_boundary (default context_Canceled err))
               | _ => Some (EJoin [ErrIdleBoundary; ErrWaitAbandoned])
               end)
      end in
    match err with
    | None => call (RBook (Some (s_Key s)) None)
    | Some e =>
        if errors_is e ErrNotAbandonable then park
        else do! record s epoch StepAbandonResidency e in park
    end.

(** [release], from its residency release on. *)
Definition release_residency (s : Session) (epoch : Z) : prog RE unit :=
  let! err := call (RCall StepReleaseResidency) in
  match err with
  | None => Ret tt
  | Some e =>
      do! record s epoch StepReleaseResidency e in
      if errors_is e ErrResidencyStillHeld then call (RBook None (Some (s_Key s)))
      else abandon s epoch
  end.

(** [release], once its attaches are settled and it has not ended. *)
Definition release_session (s : Session) (epoch : Z) : prog RE unit :=
  do! (if has_halter s
       then let! err := bounded StepHaltConsumption in record_if s epoch StepHaltConsumption err
       else Ret tt) in
  do! run_step s epoch StepBeginRelease in
  do! waitIdle s epoch in
  do! run_step s epoch StepCheckpoint in
  do! release_residency s epoch in
  run_step s epoch StepFinishRelease.

(** [release]. *)
Definition release (s : Session) : prog RE unit :=
  let! epoch := if has_epoch s then call REpoch else Ret 0%Z in
  let! unsettled := if has_attaches s then call RAwaitSessionAttaches else Ret None in
  match unsettled with
  | Some err => record s epoch StepSettleAttaches (EJoin [ErrWaitAbandoned; err])
  | None =>
      let! ended := if has_ender s then call REnded else Ret false in
      if ended then Ret tt else release_session s epoch
  end.

(** [settleAttaches], and the instant it cancels at. *)
Definition cancelAt (grace idleBoundary : Z) : Z :=
  let at_ := (grace - idleBoundary)%Z in
  let floor := Z.quot grace 2 in
  if (at_ <? floor)%Z then floor else at_.

Definition settleAttaches : prog RE unit :=
  let! err := call (RAwaitAttaches true) in
  match err with
  | None => Ret tt
  | Some _ =>
      do! call RCancelAttaches in
      let! err := call (RAwaitAttaches false) in
      match err with
      | None => Ret tt
      | Some err => call (RRecord (mkFailure key_zero StepSettleAttaches (EJoin [ErrWaitAbandoned; err]) 0))
      end
  end.

(** ** The order of a release *)

(** The step a call takes. *)
Definition step_of (o : obs RE) : option Step :=
  match o with Obs e _ => match e with RCall s | RStart s => Some s | _ => None end end.

Definition booking (o : obs RE) : option (option Key * option Key) :=
  match o with Obs e _ => match e with RBook a p => Some (a, p) | _ => None end end.

(** The residency was released without an error. *)
Definition released (o : obs RE) : bool :=
  match o with Obs e x =>
    match e in RE X return X → bool with
    | RCall StepReleaseResidency => fun err => bool_decide (err = None) | _ => fun _ => false end x end.

Definition steps (t : list (obs RE)) : list Step := omap step_of t.
Definition bookings (t : list (obs RE)) : list (option Key * option Key) := omap booking t.

Definition silent (_ : list (obs RE)) (_ : obs RE) : Prop := True.

(** [p] adds these steps and bookings to any history, and no release. *)
Definition adds {A} (sts : list Step) (p : prog RE A) : Prop :=
  ∀ t, safe any_env silent (fun h _ => steps h = steps t ++ sts ∧ bookings h = bookings t ∧
                                       seen released h = seen released t) t p.

Lemma adds_bind {A B} s1 s2 (p : prog RE A) (f : A → prog RE B) :
  adds s1 p → (∀ a, adds s2 (f a)) → adds (s1 ++ s2) (bind p f).
Proof.
  intros Hp Hf t. eapply safe_bind_spec; [apply Hp|]. intros h a (H1 & H2 & H3).
  eapply safe_mono; [|apply Hf]. simpl. intros h' _ (H4 & H5 & H6). split_and!; [|congruence..].
  by rewrite H4, H1, app_assoc.
Qed.

Lemma steps_app t1 t2 : steps (t1 ++ t2) = steps t1 ++ steps t2.
Proof. apply omap_app. Qed.
Lemma bookings_app t1 t2 : bookings (t1 ++ t2) = bookings t1 ++ bookings t2.
Proof. apply omap_app. Qed.
#[local] Hint Rewrite steps_app bookings_app : trace.

Ltac adding :=
  intros t; repeat first [ symbolic_step | match goal with
    | |- ∀ _ : _, any_env _ _ → _ ∧ _ => intros ? _; split; [exact I|]
    | |- safe _ _ _ _ (bind (bind _ _) _) => apply safe_bind
    end | progress case_match; simpl ];
  autorewrite with trace; simpl; rewrite ?app_nil_r, ?orb_false_r; done.

Lemma record_if_adds s epoch st err : adds [] (record_if s epoch st err).
Proof. unfold record_if, record. adding. Qed.

Lemma bounded_adds st : adds [st] (bounded st).
Proof. unfold bounded, after_cancel. adding. Qed.

Lemma run_step_adds s epoch st : st ≠ StepReleaseResidency → adds [st] (run_step s epoch st).
Proof.
  intros Hst. unfold run_step. apply (adds_bind [st] []); [|intros; apply record_if_adds].
  intros t x _. simpl. split; [exact I|]. autorewrite with trace. simpl. rewrite app_nil_r.
  by destruct st; rewrite ?orb_false_r.
Qed.

Lemma waitIdle_adds s epoch : adds [StepWaitIdle] (waitIdle s epoch).
Proof. apply (adds_bind [_] []); [apply bounded_adds|intros; apply record_if_adds]. Qed.

(** What releasing the residency adds: an abandonment only after a failure, and
    exactly one booking exactly when the release failed. *)
Definition released_spec (s : Session) (t h : list (obs RE)) : Prop :=
  ∃ ab bk, steps h = steps t ++ StepReleaseResidency :: ab ∧ bookings h = bookings t ++ bk ∧
    if seen released h
    then ab = [] ∧ bk = []
    else (bk = [(None, Some (s_Key s))] ∧ (ab = [] ∨ ab = [StepAbandonResidency])) ∨
         (bk = [(Some (s_Key s), None)] ∧ ab = [StepAbandonResidency]).

Lemma release_residency_spec s epoch t :
  seen released t = false →
  safe any_env silent (fun h _ => released_spec s t h) t (release_residency s epoch).
Proof.
  intros Ht. unfold release_residency, abandon, record.
  repeat first [ symbolic_step | match goal with
    | |- ∀ _ : _, any_env _ _ → _ ∧ _ => intros ? _; split; [exact I|]
    | |- safe _ _ _ _ (bind (bind _ _) _) => apply safe_bind
    end | progress case_match; simpl ].
  all: unfold released_spec; autorewrite with trace; simpl; rewrite ?app_nil_r, ?Ht; simpl.
  all: rewrite <-?app_assoc; simpl;
    first [ solve [exists [], []; rewrite ?app_nil_r; auto]
          | do 2 eexists; split; [reflexivity|]; split; [reflexivity|]; auto ].
Qed.

Lemma halting_adds s epoch :
  adds (if has_halter s then [StepHaltConsumption] else [])
    (if has_halter s then let! err := bounded StepHaltConsumption in record_if s epoch StepHaltConsumption err
     else Ret tt).
Proof.
  destruct (has_halter s); [|intros t; by rewrite app_nil_r].
  apply (adds_bind [_] []); [apply bounded_adds|intros; apply record_if_adds].
Qed.

(** The steps of a whole release, around what its residency release adds. *)
Definition before_release (s : Session) : list Step :=
  (if has_halter s then [StepHaltConsumption] else []) ++ [StepBeginRelease; StepWaitIdle; StepCheckpoint].

Lemma before_release_adds s epoch {A} (p : prog RE A) (Q : list (obs RE) → A → Prop) t :
  (∀ h, steps h = steps t ++ before_release s → bookings h = bookings t → seen released h = seen released t →
        safe any_env silent Q h p) →
  safe any_env silent Q t (
    do! (if has_halter s
         then let! err := bounded StepHaltConsumption in record_if s epoch StepHaltConsumption err
         else Ret tt) in
    do! run_step s epoch StepBeginRelease in
    do! waitIdle s epoch in
    do! run_step s epoch StepCheckpoint in p).
Proof.
  intros Hp. eapply safe_bind_spec; [apply halting_adds|]. intros h1 _ (H1 & B1 & R1).
  eapply safe_bind_spec; [by apply run_step_adds|]. intros h2 _ (H2 & B2 & R2).
  eapply safe_bind_spec; [by apply waitIdle_adds|]. intros h3 _ (H3 & B3 & R3).
  eapply safe_bind_spec; [by apply run_step_adds|]. intros h4 _ (H4 & B4 & R4).
  apply Hp; [|congruence..]. rewrite H4, H3, H2, H1. unfold before_release. by rewrite <-!app_assoc.
Qed.

Lemma release_session_spec s epoch t :
  steps t = [] → bookings t = [] → seen released t = false →
  safe any_env silent (fun h _ => ∃ ab bk,
    steps h = before_release s ++ StepReleaseResidency :: ab ++ [StepFinishRelease] ∧ bookings h = bk ∧
    if seen released h
    then ab = [] ∧ bk = []
    else (bk = [(None, Some (s_Key s))] ∧ (ab = [] ∨ ab = [StepAbandonResidency])) ∨
         (bk = [(Some (s_Key s), None)] ∧ ab = [StepAbandonResidency])) t (release_session s epoch).
Proof.
  intros Hs Hb Hr. unfold release_session. apply before_release_adds. intros h1 H1 B1 R1.
  eapply safe_bind_spec; [apply release_residency_spec; congruence|].
  intros h2 _ (ab & bk & H2 & B2 & Hcase).
  eapply safe_mono; [|by apply run_step_adds]. simpl. intros h3 _ (H3 & B3 & R3).
  exists ab, bk. rewrite H3, H2, H1, Hs, B3, B2, B1, Hb, R3. split_and!; [|done..].
  simpl. by rewrite <-app_assoc.
Qed.

#[local] Opaque release_session.

(** A drained session is released in one order: consumption is halted, the
    release begun, idleness awaited and a checkpoint taken before the residency
    is given up, and the release is always finished after it; the residency is
    booked abandoned or parked exactly once when giving it up failed, and never
    when it succeeded, and abandoning is tried only after that failure.  A session
    with an unsettled attach, or already ended, is not touched at all. *)
Theorem release_order s t (Hrun : runs (release s) t tt) :
  (steps t = [] ∧ bookings t = []) ∨
  ∃ ab, steps t = before_release s ++ StepReleaseResidency :: ab ++ [StepFinishRelease] ∧
    if seen released t
    then ab = [] ∧ bookings t = []
    else (bookings t = [(None, Some (s_Key s))] ∧ (ab = [] ∨ ab = [StepAbandonResidency])) ∨
         (bookings t = [(Some (s_Key s), None)] ∧ ab = [StepAbandonResidency]).
Proof.
  assert (safe any_env silent (fun h _ => (steps h = [] ∧ bookings h = []) ∨
    ∃ ab bk, steps h = before_release s ++ StepReleaseResidency :: ab ++ [StepFinishRelease] ∧ bookings h = bk ∧
      if seen released h
      then ab = [] ∧ bk = []
      else (bk = [(None, Some (s_Key s))] ∧ (ab = [] ∨ ab = [StepAbandonResidency])) ∨
           (bk = [(Some (s_Key s), None)] ∧ ab = [StepAbandonResidency])) [] (release s)) as Hs.
  { unfold release, record.
    repeat first [ symbolic_step | match goal with
      | |- ∀ _ : _, any_env _ _ → _ ∧ _ => intros ? _; split; [exact I|]
      | |- (_ ∧ _) ∨ _ => by left
      | |- safe _ _ _ _ (release_session _ _) =>
          eapply safe_mono; [|by apply release_session_spec]; intros; by right
      end | progress case_match; simpl ]. }
  destruct (safe_runs_any _ _ _ _ _ Hs Hrun) as [[H|(ab & bk & H1 & <- & H2)] _]; [by left|].
  right. eauto.
Qed.

(** ** Settling the attaches *)

(** The attaches are cancelled strictly inside the grace: whatever the idle
    boundary, at least half of the grace is spent waiting for them before they
    are cancelled, never more than the whole of it, and a boundary of at most
    half the grace leaves exactly that boundary for their unwinding. *)
Theorem cancelAt_bounds grace idle (Hg : (0 < grace)%Z) (Hi : (0 < idle ≤ grace)%Z) :
  (Z.quot grace 2 ≤ cancelAt grace idle < grace)%Z ∧
  ((2 * idle ≤ grace)%Z → cancelAt grace idle = (grace - idle)%Z).
Proof.
  unfold cancelAt. rewrite Z.quot_div_nonneg by lia.
  pose proof (Z.div_mod grace 2 ltac:(lia)). pose proof (Z.mod_pos_bound grace 2 ltac:(lia)).
  destruct (Z.ltb_spec (grace - idle) (grace / 2)); lia.
Qed.

(** ** Witnesses *)

Definition run_start : Drainer :=
  close_settled (publish_returns (enter NewDrainer 0 key_zero) 0 1 key_zero None) 0 1 (Status HostLinkDrainStateDraining).

Lemma run_start_reached : rtc step NewDrainer run_start.
Proof.
  apply (rtc_l _ _ (enter NewDrainer 0 key_zero)); [by constructor|].
  apply (rtc_l _ _ (publish_returns (enter NewDrainer 0 key_zero) 0 1 key_zero None)); [by constructor|].
  apply rtc_once. by constructor.
Qed.

Lemma drain_starts_once_witness :
  calls run_start 0 = Returned (Status HostLinkDrainStateDraining) ∧ begins run_start ≤ 1.
Proof. split; [reflexivity|]. exact (proj1 (drain_starts_once run_start run_start_reached)). Defined.

Lemma drain_is_forever_witness : is_Some (ObserveDrain (run_ends run_start)).
Proof.
  refine (proj1 (drain_is_forever run_start (run_ends run_start) run_start_reached _ eq_refl)).
  apply rtc_once. constructor. vm_compute. auto.
Defined.

Definition sample_session : Session := mkSession (mkKey "t" "s") true true true true true.

(** A session whose residency release fails and which can be abandoned. *)
Definition sample_world : handler RE unit := fun X e =>
  match e in RE X return unit → X * unit with
  | REpoch => fun s => (4%Z, s)
  | RAwaitSessionAttaches => fun s => (None, s)
  | REnded => fun s => (false, s)
  | RCall st => fun s => ((if decide (st = StepReleaseResidency) then Some (EForeign "store") else None), s)
  | RStart _ | RCancel | RRecord _ | RBook _ _ | RCancelAttaches => fun s => (tt, s)
  | RSelect | RSelectAgain => fun s => (Answered None, s)
  | RPoll => fun s => (None, s)
  | RAwaitAttaches _ => fun s => (None, s)
  end.

Definition sample_release := exec sample_world (release sample_session) tt.

Lemma release_order_witness :
  bookings sample_release.2 = [(Some (mkKey "t" "s"), None)] ∧
  ((steps sample_release.2 = [] ∧ bookings sample_release.2 = []) ∨
   ∃ ab, steps sample_release.2 =
     before_release sample_session ++ StepReleaseResidency :: ab ++ [StepFinishRelease]).
Proof.
  split; [vm_compute; reflexivity|].
  destruct (release_order sample_session sample_release.2) as [H|(ab & H & _)].
  - apply (exec_runs sample_world _ tt _ tt). vm_compute. reflexivity.
  - left. exact H.
  - right. exists ab. exact H.
Defined.

Lemma cancelAt_bounds_witness : cancelAt 20 5 = 15%Z ∧ (Z.quot 20 2 ≤ cancelAt 20 5 < 20)%Z.
Proof. split; [reflexivity|]. apply (cancelAt_bounds 20 5); lia. Defined.
End Drainer.
