(* ===== verification/DrainRun.v ===== *)
(** * DrainRun.v: a whole drain and its report

    [run] and [Wait] of [internal/lifecycle/drain.go], over the programs of
    [Drainer.v]: the settlement of the attaches and the release of every session run at
    once, what they record and book is appended to the drainer's fields as it is
    reported, and the state the drain settles on is decided after the last of them.  An
    execution is the sequence of their calls, each with the task that made it: every
    interleaving of the tasks is such a sequence.                                 *)
From Stdlib Require Import ZArith.
From stdpp Require Import base list strings gmap.
From S2P Require Import Prelude Wire Errors Effects Drainer.

Module DrainRun.
Import Drainer.

(** [Report], without the Host's generation. *)
Record Report := mkReport { State : HostLinkDrainState; Failures : list Failure; Abandoned : list Key; Parked : list Key }.

(** What the tasks append to under [mu]. *)
Record fields := mkFields { failures : list Failure; abandoned : list Key; parked : list Key }.

Definition option_list {A} (o : option A) : list A := match o with Some a => [a] | None => [] end.

(** [record] and [book]. *)
Definition recorded (o : obs RE) : list Failure := match o with Obs e _ => match e with RRecord f => [f] | _ => [] end end.
Definition booked_abandoned (o : obs RE) : list Key := match o with Obs e _ => match e with RBook a _ => option_list a | _ => [] end end.
Definition booked_parked (o : obs RE) : list Key := match o with Obs e _ => match e with RBook _ p => option_list p | _ => [] end end.

Definition append (d : fields) (o : obs RE) : fields :=
  mkFields (failures d ++ recorded o) (abandoned d ++ booked_abandoned o) (parked d ++ booked_parked o).

(** A call of the run, with the task that made it: 0 settles the attaches, [S i] releases
    the session at [i]. *)
Abbreviation event := (nat * obs RE)%type.

Definition task_calls (i : nat) (tr : list event) : list (obs RE) := omap (fun e => if decide (e.1 = i) then Some e.2 else None) tr.

(** What the tasks of a run do. *)
Record executes (sessions : list Session) (attaches : bool) (tr : list event) : Prop := {
  ex_residents : Forall (fun s => has_attaches s = attaches) sessions;
  ex_attaches : if attaches then runs settleAttaches (task_calls 0 tr) tt else task_calls 0 tr = [];
  ex_session i s : sessions !! i = Some s → runs (release s) (task_calls (S i) tr) tt;
  ex_tasks : Forall (fun e => e.1 ≤ length sessions) tr
}.

(** [run] once its tasks are done, and [Wait]: [unreleased] is what a ledger of releases
    answers, nothing when the residents keep none. *)
Definition report_of (tr : list event) (unreleased : option error) : Report :=
  let d := foldl append (mkFields [] [] []) tr.*2 in
  let fs := failures d ++ match unreleased with Some err => [mkFailure key_zero StepUnreleased err 0] | None => [] end in
  mkReport (settledState fs) fs (abandoned d) (parked d).

(** ** What the report holds *)

Lemma foldl_append d os :
  foldl append d os = mkFields (failures d ++ (os ≫= recorded)) (abandoned d ++ (os ≫= booked_abandoned)) (parked d ++ (os ≫= booked_parked)).
Proof.
  revert d. induction os as [|o os IH]; intros [fs ab pk]; simpl; [by rewrite !app_nil_r|]. rewrite IH. simpl. by rewrite <-!app_assoc.
Qed.

Definition unreleased_failure (unreleased : option error) : list Failure :=
  match unreleased with Some err => [mkFailure key_zero StepUnreleased err 0] | None => [] end.

Lemma report_fields tr u :
  report_of tr u =
  mkReport (settledState ((tr.*2 ≫= recorded) ++ unreleased_failure u)) ((tr.*2 ≫= recorded) ++ unreleased_failure u)
    (tr.*2 ≫= booked_abandoned) (tr.*2 ≫= booked_parked).
Proof. unfold report_of. by rewrite foldl_append. Qed.

Lemma task_calls_cons i e tr : task_calls i (e :: tr) = (if decide (e.1 = i) then [e.2] else []) ++ task_calls i tr.
Proof. unfold task_calls. simpl. by case_decide. Qed.

Lemma task_elem {A} (g : obs RE → list A) i tr x : x ∈ task_calls i tr ≫= g → x ∈ tr.*2 ≫= g.
Proof.
  rewrite !list_elem_of_bind. intros (o & Hx & Ho). exists o. split; [done|]. unfold task_calls in Ho.
  apply list_elem_of_omap in Ho as ([j o'] & Hin & Hj). simpl in Hj. case_decide; simplify_eq. apply list_elem_of_fmap. by exists (i, o).
Qed.

Lemma elem_task {A} (g : obs RE → list A) tr x : x ∈ tr.*2 ≫= g → ∃ i, x ∈ task_calls i tr ≫= g ∧ i ∈ tr.*1.
Proof.
  rewrite list_elem_of_bind. intros (o & Hx & Ho). apply list_elem_of_fmap in Ho as ([i o'] & -> & Hin). exists i. split.
  - apply list_elem_of_bind. exists o'. split; [done|]. apply list_elem_of_omap. exists (i, o'). split; [done|]. simpl. by rewrite decide_True.
  - apply list_elem_of_fmap. by exists (i, o').
Qed.

(** What one task alone mentions is mentioned as often by the whole run. *)
Lemma times_task (g : obs RE → list Key) i tr k :
  (∀ j, j ≠ i → k ∉ task_calls j tr ≫= g) → filter (eq k) (tr.*2 ≫= g) = filter (eq k) (task_calls i tr ≫= g).
Proof.
  induction tr as [|[j o] tr IH]; intros Hj; [done|]. rewrite fmap_cons, bind_cons, filter_app, IH, task_calls_cons.
  - simpl. case_decide as Hji; [by rewrite bind_app, filter_app, bind_cons, app_nil_r|]. rewrite app_nil_l.
    rewrite (list_filter_none (eq k) (g o)); [done|]. apply Forall_forall. intros k' Hk' <-. apply (Hj j Hji).
    rewrite task_calls_cons, bind_app. rewrite decide_True by done. apply elem_of_app. left. by rewrite bind_singleton.
  - intros j' Hne Hk. apply (Hj j' Hne). rewrite task_calls_cons, bind_app, elem_of_app. by right.
Qed.

Lemma settle_books_nothing t : runs settleAttaches t tt → t ≫= booked_abandoned = [] ∧ t ≫= booked_parked = [].
Proof.
  intros (x & t1 & -> & H). destruct x; simpl in H; [|by destruct H as [-> _]].
  destruct H as (y & t2 & -> & z & t3 & -> & H). destruct z; simpl in H; [destruct H as (w & t4 & -> & -> & _)|destruct H as [-> _]]; done.
Qed.

Lemma bookings_fields t : t ≫= booked_abandoned = omap fst (bookings t) ∧ t ≫= booked_parked = omap snd (bookings t).
Proof.
  induction t as [|[X e x] t [IH1 IH2]]; [done|]. rewrite !bind_cons, IH1, IH2.
  change (bookings (Obs e x :: t)) with (match booking (Obs e x) with Some b => b :: bookings t | None => bookings t end).
  destruct e as [| | | | | | | | | |a p| |]; try done. destruct a, p; done.
Qed.

Lemma release_books s t :
  runs (release s) t tt →
  Forall (eq (s_Key s)) (t ≫= booked_abandoned) ∧ Forall (eq (s_Key s)) (t ≫= booked_parked) ∧
  length (t ≫= booked_abandoned) + length (t ≫= booked_parked) = if bool_decide (steps t = []) || seen released t then 0 else 1.
Proof.
  intros Hr. destruct (bookings_fields t) as [-> ->]. destruct (release_order s t Hr) as [[-> ->]|(ab & -> & H)]; [done|].
  rewrite bool_decide_false by (unfold before_release; by destruct (has_halter s)). simpl.
  destruct (seen released t); [by destruct H as [_ ->]|]. destruct H as [[-> _]|[-> _]]; simpl; auto.
Qed.

(** C33 Every session of a drain is accounted for once: one whose residency was released, or
    that was not touched, is booked neither abandoned nor parked, and one whose release
    was refused is booked exactly once, whatever the other sessions do meanwhile; and
    nothing else is booked. *)
Theorem drain_accounts sessions attaches tr u
    (Hex : executes sessions attaches tr) (Hkeys : NoDup (s_Key <$> sessions)) :
  (∀ i s, sessions !! i = Some s →
    let t := task_calls (S i) tr in
    let times l := length (filter (eq (s_Key s)) l) in
    times (Abandoned (report_of tr u)) + times (Parked (report_of tr u)) = if bool_decide (steps t = []) || seen released t then 0 else 1) ∧
  (∀ k, k ∈ Abandoned (report_of tr u) ++ Parked (report_of tr u) → k ∈ s_Key <$> sessions).
Proof.
  assert (∀ j k g, (g = booked_abandoned ∨ g = booked_parked) → k ∈ task_calls j tr ≫= g → ∃ i s, j = S i ∧ sessions !! i = Some s ∧ k = s_Key s) as Howner.
  { intros [|i] k g Hg Hk.
    - pose proof (ex_attaches _ _ _ Hex) as H0. destruct attaches.
      + destruct (settle_books_nothing _ H0) as [E1 E2]. destruct Hg as [-> | ->]; [rewrite E1 in Hk|rewrite E2 in Hk]; by apply elem_of_nil in Hk.
      + rewrite H0 in Hk. by apply elem_of_nil in Hk.
    - destruct (sessions !! i) as [s|] eqn:Hs.
      + destruct (release_books s _ (ex_session _ _ _ Hex i s Hs)) as (H1 & H2 & _). exists i, s. split_and!; [done|done|].
        destruct Hg as [-> | ->]; [rewrite Forall_forall in H1; symmetry; by apply H1|rewrite Forall_forall in H2; symmetry; by apply H2].
      + exfalso. assert (task_calls (S i) tr = []) as Hnil; [|rewrite Hnil in Hk; by apply elem_of_nil in Hk].
        pose proof (ex_tasks _ _ _ Hex) as Ht. clear Hk Hex. apply lookup_ge_None in Hs. induction Ht as [|[j o] tr' Hj _ IH]; [done|].
        rewrite task_calls_cons. simpl in *. rewrite decide_False by lia. apply IH. }
  rewrite report_fields. simpl. split.
  - intros i s Hs. assert (∀ g, (g = booked_abandoned ∨ g = booked_parked) → filter (eq (s_Key s)) (tr.*2 ≫= g) = filter (eq (s_Key s)) (task_calls (S i) tr ≫= g)) as Hown.
    { intros g Hg. apply times_task. intros j Hj Hk. destruct (Howner j _ g Hg Hk) as (i' & s' & -> & Hs' & Heq). apply Hj. f_equal.
      apply (NoDup_lookup _ _ _ (s_Key s) Hkeys); rewrite list_lookup_fmap; [by rewrite Hs', Heq|by rewrite Hs]. }
    rewrite !Hown by auto. destruct (release_books s _ (ex_session _ _ _ Hex i s Hs)) as (H1 & H2 & H3).
    by rewrite (list_filter_all (eq (s_Key s)) _ H1), (list_filter_all (eq (s_Key s)) _ H2).
  - intros k [Hk|Hk]%elem_of_app; apply elem_task in Hk as (j & Hk & _); (eapply Howner in Hk as (i & s & _ & Hs & ->); [|by auto]);
      apply list_elem_of_fmap; exists s; (split; [done|by eapply list_elem_of_lookup_2]).
Qed.

(** ** What a drained Host has settled *)

Definition ended (o : obs RE) : bool :=
  match o with Obs e x => match e in RE X return X → bool with REnded => id | _ => fun _ => false end x end.
Definition finished (o : obs RE) : bool :=
  match o with Obs e x => match e in RE X return X → bool with RCall StepFinishRelease => fun err => bool_decide (err = None) | _ => fun _ => false end x end.
Definition kept_lease (o : obs RE) : bool :=
  match o with Obs e x => match e in RE X return X → bool with
    | RCall StepReleaseResidency => fun err => match err with Some e => errors_is e ErrResidencyStillHeld | None => false end
    | _ => fun _ => false end x end.
Definition attaches_settled (o : obs RE) : bool :=
  match o with Obs e x => match e in RE X return X → bool with RAwaitAttaches _ => fun err => bool_decide (err = None) | _ => fun _ => false end x end.

Definition clean (t : list (obs RE)) : Prop := Forall (fun f => undrained f = false) (t ≫= recorded).

Lemma clean_app t1 t2 : clean (t1 ++ t2) ↔ clean t1 ∧ clean t2.
Proof. unfold clean. by rewrite bind_app, Forall_app. Qed.

Lemma settle_settles t : runs settleAttaches t tt → clean t → seen attaches_settled t = true.
Proof.
  intros (x & t1 & -> & H). destruct x; simpl in H; [|by destruct H as [-> _]].
  destruct H as (y & t2 & -> & z & t3 & -> & H). destruct z; simpl in H; [|by destruct H as [-> _]].
  destruct H as (w & t4 & -> & -> & _). intros Hc. apply Forall_inv in Hc. done.
Qed.

(** A piece of a release that takes other steps than these makes none of their calls. *)
Lemma seen_step (p : obs RE → bool) st t :
  (∀ o, p o = true → step_of o = Some st) → st ∉ steps t → seen p t = false.
Proof.
  intros Hp Hst. induction t as [|o t IH]; [done|]. simpl. unfold steps in Hst. simpl in Hst.
  destruct (p o) eqn:Ho; [rewrite (Hp o Ho) in Hst; set_solver|]. apply IH. destruct (step_of o); set_solver.
Qed.

Lemma kept_lease_step o : kept_lease o = true → step_of o = Some StepReleaseResidency.
Proof. destruct o as [X e x]. destruct e as [| | |[]| | | | | | | | |]; done. Qed.

Lemma adds_steps {A} sts (p : prog RE A) t a : adds sts p → runs p t a → steps t = sts.
Proof. intros Hp Hr. destruct (safe_runs_any _ _ _ _ _ (Hp []) Hr) as [(H & _) _]. exact H. Qed.

Lemma clean_release_residency s epoch t : runs (release_residency s epoch) t tt → clean t → seen kept_lease t = false.
Proof.
  intros Hr Hc. destruct (safe_runs_any _ _ _ _ _ (release_residency_spec s epoch [] eq_refl) Hr) as [(ab & bk & Hsteps & _ & Hab) _].
  simpl in Hsteps. assert (StepReleaseResidency ∉ ab) as Hnot.
  { destruct (seen released t); [destruct Hab as [-> _]|destruct Hab as [[_ [-> | ->]]|[_ ->]]]; set_solver. }
  destruct Hr as (x & t1 & -> & H). injection Hsteps as <-.
  simpl. rewrite (seen_step kept_lease StepReleaseResidency t1 kept_lease_step Hnot).
  rewrite orb_false_r. destruct x as [e|]; [|done]. destruct H as (y & t2 & -> & _).
  unfold clean in Hc. rewrite !bind_cons, app_nil_l in Hc. apply Forall_app in Hc as [Hc _]. by apply Forall_inv in Hc.
Qed.

(** The piece of a release that finishes it. *)
Lemma clean_finish s epoch t : runs (run_step s epoch StepFinishRelease) t tt → clean t → seen finished t = true ∧ seen kept_lease t = false.
Proof.
  intros (x & t1 & -> & H) Hc. destruct x as [e|]; [|by destruct H as [-> _]].
  destruct H as ([] & t2 & -> & -> & _). apply Forall_inv in Hc. done.
Qed.

Lemma release_session_settles s epoch t :
  runs (release_session s epoch) t tt → clean t → seen finished t = true ∧ seen kept_lease t = false.
Proof.
  unfold release_session. intros (t1 & r1 & [] & -> & H1 & (t2 & r2 & [] & -> & H2 & (t3 & r3 & [] & -> & H3 &
    (t4 & r4 & [] & -> & H4 & (t5 & t6 & [] & -> & H5 & H6)%runs_bind)%runs_bind)%runs_bind)%runs_bind)%runs_bind.
  rewrite !clean_app. intros (_ & _ & _ & _ & C5 & C6). destruct (clean_finish _ _ _ H6 C6) as [F6 K6].
  rewrite !seen_app, F6, K6, (clean_release_residency _ _ _ H5 C5).
  apply (adds_steps _ _ _ _ (halting_adds s epoch)) in H1. apply (adds_steps [StepBeginRelease]) in H2; [|by apply run_step_adds].
  apply (adds_steps _ _ _ _ (waitIdle_adds s epoch)) in H3. apply (adds_steps [StepCheckpoint]) in H4; [|by apply run_step_adds].
  rewrite !(seen_step kept_lease StepReleaseResidency _ kept_lease_step); [by rewrite !orb_true_r|..].
  all: rewrite ?H1, ?H2, ?H3, ?H4; try (destruct (has_halter s)); set_solver.
Qed.

Lemma release_settles s t : runs (release s) t tt → clean t → seen ended t = true ∨ seen finished t = true ∧ seen kept_lease t = false.
Proof.
  unfold release. intros (t1 & r1 & epoch & -> & H1 & (t2 & r2 & unsettled & -> & H2 & H3)%runs_bind)%runs_bind.
  rewrite !clean_app. intros (_ & _ & Hc).
  assert (seen kept_lease t1 = false ∧ seen kept_lease t2 = false) as [K1 K2].
  { split; [destruct (has_epoch s)|destruct (has_attaches s)]; first [by destruct H1 as [-> _]|by destruct H1 as (? & ? & -> & -> & _)|
      by destruct H2 as [-> _]|by destruct H2 as (? & ? & -> & -> & _)]. }
  destruct unsettled as [err|].
  { destruct H3 as ([] & t3 & -> & -> & _). apply Forall_inv in Hc. done. }
  apply runs_bind in H3 as (t3 & t4 & e & -> & H3 & H4). rewrite clean_app in Hc. destruct Hc as [_ Hc]. rewrite !seen_app.
  assert (seen kept_lease t3 = false ∧ (e = true → seen ended t3 = true)) as [K3 He].
  { destruct (has_ender s); [destruct H3 as (x & ? & -> & -> & [= ->]); by destruct x|destruct H3 as [-> [= ->]]; done]. }
  destruct e; [left; rewrite He by done; by rewrite !orb_true_r|]. right.
  destruct (release_session_settles _ _ _ H4 Hc) as [-> ->]. by rewrite K1, K2, K3, !orb_true_r.
Qed.

(** *** What became of each runtime *)

(** The runtime was abandoned, crash-equivalently, and answered so without an error. *)
Definition gave_up (t : list (obs RE)) : Prop :=
  ∃ t1 t2, t = t1 ++ Obs (RStart StepAbandonResidency) tt :: Obs RSelect (Answered None) :: t2.

Lemma gave_up_middle t1 t t2 : gave_up t → gave_up (t1 ++ t ++ t2).
Proof. intros (u1 & u2 & ->). exists (t1 ++ u1), (u2 ++ t2). by rewrite <-!app_assoc. Qed.

(** An abandonment is booked abandoned when it succeeded, and parked otherwise. *)
Lemma abandon_booked s epoch t :
  runs (abandon s epoch) t tt →
  (s_Key s ∈ t ≫= booked_abandoned ∧ gave_up t) ∨ s_Key s ∈ t ≫= booked_parked.
Proof.
  unfold abandon. destruct (has_abandoner s); cbn [negb]; [|intros ([] & ? & -> & -> & _); right; simpl; by left].
  intros ([] & t1 & -> & first & t2 & -> & H).
  assert (∀ err t, runs (match err with
    | None => call (RBook (Some (s_Key s)) None)
    | Some e => if errors_is e ErrNotAbandonable then call (RBook None (Some (s_Key s)))
                else do! record s epoch StepAbandonResidency e in call (RBook None (Some (s_Key s)))
    end) t tt → (err = None ∧ s_Key s ∈ t ≫= booked_abandoned) ∨ s_Key s ∈ t ≫= booked_parked) as Hbook.
  { intros [e|] t; [|intros ([] & ? & -> & -> & _); left; split; [done|by left]]. destruct (errors_is e ErrNotAbandonable).
    - intros ([] & ? & -> & -> & _). right. by left.
    - intros ([] & ? & -> & [] & ? & -> & -> & _). right. by left. }
  destruct first as [err| |]; cbn [bind] in H.
  - destruct (Hbook err t2 H) as [[-> Hb]|Hb]; [left|right]; [split; [exact Hb|by exists [], t2]|exact Hb].
  - right. destruct H as ([] & t3 & -> & again & t4 & -> & H). destruct again; cbn [bind] in H;
      match type of H with runs (if errors_is ?e _ then _ else _) _ _ => by destruct (Hbook (Some e) _ H) as [[? _]|Hb] end.
  - right. destruct H as ([] & t3 & -> & again & t4 & -> & H). destruct again; cbn [bind] in H;
      match type of H with runs (if errors_is ?e _ then _ else _) _ _ => by destruct (Hbook (Some e) _ H) as [[? _]|Hb] end.
Qed.

(** The three ways a residency's release goes. *)
Definition disposed s (t : list (obs RE)) : Prop :=
  seen released t = true ∨ (s_Key s ∈ t ≫= booked_abandoned ∧ gave_up t) ∨ s_Key s ∈ t ≫= booked_parked.

Lemma disposed_middle s t1 t t2 : disposed s t → disposed s (t1 ++ t ++ t2).
Proof.
  unfold disposed. rewrite !seen_app, !bind_app, !elem_of_app. intros [->|[[Hb Hg]|Hb]].
  - left. by rewrite orb_true_r.
  - right. left. split; [by right; left|by apply gave_up_middle].
  - right. right. by right; left.
Qed.

Lemma residency_disposed s epoch t : runs (release_residency s epoch) t tt → disposed s t.
Proof.
  intros (x & t1 & -> & H). destruct x as [e|]; [|by left]. destruct H as ([] & t2 & -> & H). right.
  destruct (errors_is e ErrResidencyStillHeld); [destruct H as ([] & ? & -> & -> & _); right; by left|].
  destruct (abandon_booked s epoch t2 H) as [[Hb Hg]|Hb]; [left|right; exact Hb]. split; [exact Hb|].
  pose proof (gave_up_middle [Obs (RCall StepReleaseResidency) (Some e); Obs (RRecord (mkFailure (s_Key s) StepReleaseResidency e epoch)) tt] _ [] Hg) as Hm.
  by rewrite app_nil_r in Hm.
Qed.

Lemma release_disposed s t : runs (release s) t tt → clean t → seen ended t = true ∨ seen finished t = true ∧ seen kept_lease t = false ∧ disposed s t.
Proof.
  intros Hr Hc. destruct (release_settles s t Hr Hc) as [He|[Hf Hk]]; [by left|]. destruct (seen ended t) eqn:Hended; [by left|right].
  split; [done|]. split; [done|]. unfold release in Hr. apply runs_bind in Hr as (t1 & r1 & epoch & -> & _ & (t2 & r2 & unsettled & -> & _ & H3)%runs_bind).
  destruct unsettled as [err|].
  { exfalso. rewrite !clean_app in Hc. destruct Hc as (_ & _ & Hc), H3 as ([] & ? & -> & -> & _). by apply Forall_inv in Hc. }
  apply runs_bind in H3 as (t3 & t4 & e & -> & H3 & H4). destruct e.
  { exfalso. rewrite !seen_app in Hended. assert (seen ended t3 = true) as E; [|by rewrite E, !orb_true_r in Hended].
    destruct (has_ender s); [destruct H3 as (x & ? & -> & -> & [= <-]); done|by destruct H3 as [_ ?]]. }
  unfold release_session in H4. apply runs_bind in H4 as (u1 & v1 & [] & -> & _ & (u2 & v2 & [] & -> & _ & (u3 & v3 & [] & -> & _ &
    (u4 & v4 & [] & -> & _ & (u5 & u6 & [] & -> & H5 & _)%runs_bind)%runs_bind)%runs_bind)%runs_bind).
  replace (t1 ++ t2 ++ t3 ++ u1 ++ u2 ++ u3 ++ u4 ++ u5 ++ u6) with ((t1 ++ t2 ++ t3 ++ u1 ++ u2 ++ u3 ++ u4) ++ u5 ++ u6) by by rewrite <-!app_assoc.
  by eapply disposed_middle, residency_disposed.
Qed.

(** C15 What a report of drained promises: the attaches are settled, the ledger of
    releases holds nothing, and every session had already ended, or its release finished
    without its runtime saying it kept its lease and one of three things holds: the
    runtime released its residency, or it was abandoned, without an error and within its
    bound, and is listed Abandoned, or it is listed Parked.  A parked runtime could be
    neither released nor abandoned and may hold its journal lease still: the drain is
    drained all the same, and only a report with nobody parked says that every session
    was given back. *)
Theorem drained_or_parked sessions attaches tr u
    (Hex : executes sessions attaches tr) (Hdrained : State (report_of tr u) = HostLinkDrainStateDrained) :
  u = None ∧ (attaches = true → seen attaches_settled (task_calls 0 tr) = true) ∧
  (∀ i s, sessions !! i = Some s → let t := task_calls (S i) tr in
    seen ended t = true ∨
    seen finished t = true ∧ seen kept_lease t = false ∧
    (seen released t = true ∨ s_Key s ∈ Abandoned (report_of tr u) ∧ gave_up t ∨ s_Key s ∈ Parked (report_of tr u))) ∧
  Forall (fun f => errors_is (f_Err f) ErrResidencyStillHeld = false) (Failures (report_of tr u)).
Proof.
  rewrite report_fields in *. simpl in *. apply settledState_spec in Hdrained as Hall. unfold settledState in Hdrained.
  destruct (existsb undrained _) eqn:He; [done|]. rewrite <-not_true_iff_false, existsb_exists in He.
  assert (∀ i, clean (task_calls i tr)) as Hclean.
  { intros i. apply Forall_forall. intros f Hf. apply not_true_iff_false. intros Hu. apply He. exists f. split; [|done].
    apply list_elem_of_In, elem_of_app. left. by eapply task_elem. }
  split_and!.
  - destruct u as [err|]; [|done]. exfalso. apply He. exists (mkFailure key_zero StepUnreleased err 0). split; [|done].
    apply list_elem_of_In, elem_of_app. right. by left.
  - intros ->. apply settle_settles; [exact (ex_attaches _ _ _ Hex)|apply Hclean].
  - intros i s Hs. destruct (release_disposed s _ (ex_session _ _ _ Hex i s Hs) (Hclean _)) as [?|(Hf & Hk & Hd)]; [by left|right].
    split_and!; [done..|]. destruct Hd as [?|[[Hb Hg]|Hb]]; [by left|right; left|right; right]; [split; [|done]|]; by eapply task_elem.
  - eapply Forall_impl; [exact Hall|]. by intros f (_ & _ & _ & Hf).
Qed.

(** ** Witnesses *)

(** Two sessions whose releases are refused and which are abandoned, at once. *)
Definition sample_sessions : list Session := [sample_session; mkSession (mkKey "t" "other") true true true true true].

Fixpoint merged (ts : list (list event)) (rounds : nat) : list event :=
  match rounds with 0 => [] | S rounds => (ts ≫= take 1) ++ merged (drop 1 <$> ts) rounds end.

Definition calls_of (i : nat) (p : prog RE unit) : list event := (fun o => (i, o)) <$> (exec sample_world p tt).2.
Definition sample_drain : list event :=
  merged (calls_of 0 settleAttaches :: imap (fun i s => calls_of (S i) (release s)) sample_sessions) 40.

Lemma sample_drain_runs p t : task_calls t sample_drain = (exec sample_world p tt).2 → runs p (task_calls t sample_drain) tt.
Proof. intros ->. apply (exec_runs sample_world p tt tt tt). by destruct (exec sample_world p tt) as [[[] []] ?]. Qed.

Lemma sample_executes : executes sample_sessions true sample_drain.
Proof.
  split.
  - by repeat constructor.
  - apply sample_drain_runs. vm_compute. reflexivity.
  - intros [|[|i]] s Hs; [injection Hs as <-..|done]; apply sample_drain_runs; vm_compute; reflexivity.
  - apply (bool_decide_unpack _). vm_compute. done.
Qed.

Lemma drain_accounts_witness :
  length (filter (eq (mkKey "t" "s")) (Abandoned (report_of sample_drain None))) +
  length (filter (eq (mkKey "t" "s")) (Parked (report_of sample_drain None))) = 1.
Proof.
  assert (NoDup (s_Key <$> sample_sessions)) as Hkeys by (apply (bool_decide_unpack _); vm_compute; exact I).
  pose proof (proj1 (drain_accounts _ _ _ None sample_executes Hkeys) 0 sample_session eq_refl) as H. vm_compute in H |- *. exact H.
Defined.

Lemma drained_or_parked_witness :
  seen attaches_settled (task_calls 0 sample_drain) = true ∧ seen finished (task_calls 2 sample_drain) = true ∧
  gave_up (task_calls 2 sample_drain).
Proof.
  assert (State (report_of sample_drain None) = HostLinkDrainStateDrained) as Hd by (vm_compute; reflexivity).
  destruct (drained_or_parked _ _ _ None sample_executes Hd) as (_ & H1 & H2 & _). split; [exact (H1 eq_refl)|].
  destruct (H2 1 _ eq_refl) as [H|(H & _ & [H3|[[_ H3]|H3]])]; [vm_compute in H; discriminate H|vm_compute in H3; discriminate H3|by split|].
  exfalso. vm_compute in H3. by apply elem_of_nil in H3.
Defined.

End DrainRun.
