(* ===== verification/Manager.v ===== *)
(** * Manager.v: making a session resident

    [Manager] of [internal/residency/manager.go]: the validation of an attach
    request, the fixed sequence of [attach], the unwinder that gives back what it
    took, and [Observe].  The stores, the launch target, the runtime, the registry,
    the ledger and the manager's own tables are calls of [ME]; the tables
    themselves are in [Residents.v].                                          *)
From Stdlib Require Import ZArith.
From stdpp Require Import base list strings gmap.
From S2P Require Import Prelude Wire Errors Effects Department HostOptions Registry Fence Heartbeat.

Module Manager.
Import Fence.
Local Open Scope prog_scope.

Definition ErrLeaseHeld : error := ESentinel "residency.ErrLeaseHeld".
Definition ErrInvalidRuntimeIdentity : error := ESentinel "residency.ErrInvalidRuntimeIdentity".

Inductive RuntimeJournal :=
| RuntimeJournalUnknown | RuntimeJournalAbsent | RuntimeJournalPresent | RuntimeJournalOther (n : Z).

#[export] Instance RuntimeJournal_eq_dec : EqDecision RuntimeJournal.
Proof. solve_decision. Defined.

(** [SessionState]; the zero [RigSessionID] is [None]. *)
Record SessionState := mkState {
  Exists_ : bool;
  Namespace : string;
  st_CompatibilityID : string;
  RigSessionID : option string;
  st_RuntimeJournal : RuntimeJournal;
  HasCheckpoint : bool;
  CheckpointSequence : Z
}.

Inductive Mode := ModeCreate | ModeRestore | ModeOther (s : string).

#[export] Instance Mode_eq_dec : EqDecision Mode.
Proof. solve_decision. Defined.

Record Principal := mkPrincipal { p_TenantID : string; ActorID : string; TraceID : string }.

Record Request := mkRequest {
  r_TenantID : string;
  r_SessionID : string;
  r_AgentID : string;
  r_Mode : Mode;
  r_CompatibilityID : string;
  r_Principal : Principal
}.

Inductive Step :=
| StepValidate | StepLease | StepHydrate | StepCapabilities | StepInstall | StepPublish | StepOwnership | StepAttached.

(** What an attach takes, by the name its compensation is recorded under. *)
Inductive Hold :=
| HoldAdmission | HoldContext | HoldRefusedLease | HoldLease | HoldWorkspace | HoldRuntime
| HoldEntry | HoldLocation | HoldOwnership.

#[export] Instance Hold_eq_dec : EqDecision Hold.
Proof. solve_decision. Defined.

(** [AttachError]. *)
Record AttachError := mkAttachError {
  ae_Step : Step;
  ae_Code : HostLinkErrorCode;
  ae_Key : Key;
  ae_Cause : option error;
  ae_RuntimeCompatibilityID : string;
  ae_Unreleased : list Hold;
  ae_UnreleasedCauses : list error
}.

Record Residency {Rt : Type} := mkResidency {
  rs_Key : Key;
  rs_AgentID : string;
  rs_CompatibilityID : string;
  rs_Generation : Z;
  rs_Runtime : Rt;
  rs_LeaseEpoch : Z;
  rs_JournalEpoch : Z;
  rs_JournalEpochHeld : bool;
  Attached : bool
}.
Arguments Residency : clear implicits.
Arguments mkResidency {Rt}.

(** [department.CreateRequest] and [department.RestoreRequest]. *)
Record Launch := mkLaunch {
  la_Key : Key;
  la_AgentID : string;
  la_Placement : HostPlacement;
  la_WorkspaceRoot : string;
  la_Namespace : string;
  la_CompatibilityID : option string;  (* a restore's *)
  la_RigSessionID : option string
}.

(** What [AcquireSessionLease] answers; the lease is the attach's only one. *)
Inductive LeaseAnswer := LeaseGranted | LeaseNothing | LeaseRefused (e : error).

(** What [BeginOwnership] answers: a handle, and whether it is a [ReleaseAuthority]. *)
Inductive OwnershipAnswer := OwnershipBegun (authority : bool) | OwnershipNothing | OwnershipRefused (e : error).

Record OwnershipRequest {Rt : Type} := mkOwnership {
  ow_Key : Key;
  ow_AgentID : string;
  ow_CompatibilityID : string;
  ow_LeaseEpoch : Z;
  ow_Generation : Z;
  ow_Runtime : Rt
}.
Arguments OwnershipRequest : clear implicits.
Arguments mkOwnership {Rt}.

Inductive ME {Rt Tgt : Type} : Type → Type :=
| MSession (k : Key) : ME (option Z)                (* the record's generation, under [mu] *)
| MAcquireKey (k : Key) : ME unit
| MReleaseKey (k : Key) : ME unit
| MGet (k : Key) : ME (option (Registry.Entry Rt Tgt))
| MCompatibilityID (t : Tgt) : ME string
| MCapabilities (t : Tgt) : ME Department.Capabilities
| MAdmit (k : Key) (agent : string) : ME (option error)
| MReleaseAdmission (k : Key) : ME bool
| MOwn (k : Key) (g : Z) : ME bool
| MDraining : ME bool
| MNewContext (p : Principal) : ME unit
| MCancelSession : ME unit
| MPend (k : Key) : ME unit
| MForgetPending (k : Key) : ME unit
| MAcquireLease (k : Key) : ME LeaseAnswer
| MLeaseEpoch : ME Z
| MLeaseRelease : ME (option error)
| MLeaseCleanup : ME (option error)
| MLoadState (k : Key) : ME (res SessionState)
| MEnsureWorkspace (k : Key) : ME (res string)
| MReleaseWorkspace (k : Key) : ME (option error)
| MCreate (t : Tgt) (l : Launch) : ME (res (option Rt))
| MRestore (t : Tgt) (l : Launch) : ME (res (option Rt))
| MRuntimeSession (r : Rt) : ME string
| MRuntimeAgent (r : Rt) : ME string
| MRuntimeDone (r : Rt) : ME bool
| MRuntimeLeaseEpoch (r : Rt) : ME (Z * bool)
| MReleaseRuntime (r : Rt) : ME (option error)
| MInsert (k : Key) (a : Registry.Admission Rt Tgt) : ME (Registry.Entry Rt Tgt * bool)
| MRemoveByGeneration (k : Key) (g : Z) : ME bool
| MNow : ME Z
| MPublishResidency (o : RegistryObservation) : ME (option error)
| MTombstoneResidency (k : Key) (epoch : Z) : ME (option error)
| MBeginOwnership (r : OwnershipRequest Rt) : ME OwnershipAnswer
| MStopOwnership : ME (option error)
| MAuthority (h : Hold) : ME (option error)          (* the [ReleaseAuthority]'s method *)
| MInstallSession (k : Key) (g : Z) : ME unit
| MEndedBy : ME (option LossReason)
| MLeaseLost : ME bool
| MEnd (r : LossReason) : ME unit.
Arguments ME : clear implicits.

#[export] Program Instance ME_fence {Rt Tgt} : FenceEvents (ME Rt Tgt) := {|
  ev_endedBy := MEndedBy;
  ev_lost := MLeaseLost;
  ev_end := MEnd;
  as_endedBy o := match o with Obs e x =>
    match e in ME _ _ X return X → _ with MEndedBy => Some | _ => fun _ => None end x end;
  as_lost o := match o with Obs e x =>
    match e in ME _ _ X return X → _ with MLeaseLost => Some | _ => fun _ => None end x end;
  as_end o := match o with Obs e x =>
    match e in ME _ _ X return X → _ with MEnd r => fun _ => Some r | _ => fun _ => None end x end
|}.
Solve Obligations with done.

(** The manager's fixed fields: the host's options, its incarnation, and the
    department's launch targets. *)
Record Manager {Tgt : Type} := mkManager {
  mg_host : HostOptions.Options;
  mg_generation : Z;
  mg_targets : gmap string Tgt
}.
Arguments Manager : clear implicits.
Arguments mkManager {Tgt}.

(** [snapshotTarget]. *)
Record snapshotTarget {Tgt : Type} := mkSnapshot {
  target : Tgt;
  compatibility : string;
  capabilities : Department.Capabilities
}.
Arguments snapshotTarget : clear implicits.
Arguments mkSnapshot {Tgt}.
Section manager.
Context {Rt Tgt : Type}.
(** Core's identity validators, [Principal.validate]'s bound, and the validators of
    a launch target's answers. *)
Context (MaxIDBytes : nat) (tenant_valid session_valid agent_valid : string → bool).

Abbreviation P := (prog (ME Rt Tgt)).
Abbreviation Entry := (Registry.Entry Rt Tgt).
Implicit Types (m : Manager Tgt) (k : Key) (request : Request) (snap : snapshotTarget Tgt).

(** ** Refusals *)

Definition AttachErr (step : Step) (code : HostLinkErrorCode) k (cause : option error) (build : string) : AttachError :=
  mkAttachError step code k cause build [] [].

(** The error value an [AttachError] is, as far as [errors.As] reads it. *)
Definition to_error (e : AttachError) : error := ETyped (TAttachError (ae_Code e) (ae_RuntimeCompatibilityID e)) (ae_Cause e).

Definition mismatchBuild (code : HostLinkErrorCode) (build : string) : string :=
  if bool_decide (code = HostLinkErrorRuntimeMismatch) then build else "".

Definition admissionCode (e : error) : HostLinkErrorCode :=
  default HostLinkErrorNone (errors_as (fun t => match t with TAdmissionRefusedError code _ => Some code | _ => None end) e).

Definition launchCode (e : error) : HostLinkErrorCode :=
  match errors_as (fun t => match t with TCompatibilityMismatchError => Some tt | _ => None end) e with
  | Some _ => HostLinkErrorRuntimeMismatch
  | None => HostLinkErrorNone
  end.

(** [Principal.validate]: whether it refuses. *)
Definition principal_refused (p : Principal) (tenant : string) : bool :=
  bool_decide (p_TenantID p ≠ tenant) || bool_decide (ActorID p = "") ||
  (MaxIDBytes <? String.length (ActorID p))%nat || negb (utf8_valid (ActorID p)) ||
  (MaxIDBytes <? String.length (TraceID p))%nat || negb (utf8_valid (TraceID p)).

Definition compat_refused (id : string) : bool := bool_decide (is_Some (Department.CompatibilityID_Validate MaxIDBytes id)).

(** [refuseForeignSession]. *)
Definition refuseForeignSession m k (agent : string) : P AttachError :=
  match mg_targets m !! agent with
  | None => Ret (AttachErr StepValidate HostLinkErrorRuntimeUnavailable k (Some (ETyped (TUnknownAgentError agent) None)) "")
  | Some t =>
      let! build := call (MCompatibilityID t) in
      Ret (if compat_refused build
           then AttachErr StepValidate HostLinkErrorRuntimeUnavailable k (Some (EForeign "CompatibilityID.Validate")) ""
           else AttachErr StepValidate HostLinkErrorRuntimeMismatch k None build)
  end.

(** [validateRequest]. *)
Definition validateRequest m k request : P (option AttachError) :=
  let refuse e := Ret (Some (AttachErr StepValidate HostLinkErrorNone k e "")) in
  if negb (tenant_valid (r_TenantID request)) then refuse (Some (EForeign "TenantID.Validate"))
  else if negb (session_valid (r_SessionID request)) then refuse (Some (EForeign "SessionID.Validate"))
  else if bool_decide (HostOptions.FixedSessionID (mg_host m) ≠ "") && bool_decide (HostOptions.FixedSessionID (mg_host m) ≠ r_SessionID request)
  then let! e := refuseForeignSession m k (r_AgentID request) in Ret (Some e)
  else if negb (agent_valid (r_AgentID request)) then refuse (Some (EForeign "AgentID.Validate"))
  else match r_Mode request with
  | ModeOther _ => refuse None
  | ModeCreate | ModeRestore =>
      if principal_refused (r_Principal request) (r_TenantID request) then refuse (Some (EForeign "Principal.validate"))
      else match mg_targets m !! r_AgentID request with
      | None => Ret (Some (AttachErr StepValidate HostLinkErrorRuntimeUnavailable k
                             (Some (ETyped (TUnknownAgentError (r_AgentID request)) None)) ""))
      | Some _ => Ret None
      end
  end.

(** [resolveTarget]. *)
Definition resolveTarget m k request : P (AttachError + snapshotTarget Tgt) :=
  match mg_targets m !! r_AgentID request with
  | None => Ret (inl (AttachErr StepValidate HostLinkErrorRuntimeUnavailable k
                        (Some (ETyped (TUnknownAgentError (r_AgentID request)) None)) ""))
  | Some t =>
      let! build := call (MCompatibilityID t) in
      let! caps := call (MCapabilities t) in
      Ret (if compat_refused build
           then inl (AttachErr StepValidate HostLinkErrorRuntimeUnavailable k (Some (EForeign "CompatibilityID.Validate")) "")
           else if bool_decide (is_Some (Department.Capabilities_Validate caps))
           then inl (AttachErr StepValidate HostLinkErrorRuntimeUnavailable k (Some (EForeign "Capabilities.Validate")) "")
           else inr (mkSnapshot t build caps))
  end.

(** [attachedResidency]. *)
Definition attachedResidency k : P (option Entry) :=
  let! known := call (MSession k) in
  match known with
  | None => Ret None
  | Some g =>
      let! entry := call (MGet k) in
      Ret (match entry with
           | Some e => if bool_decide (Registry.Generation e ≠ g) then None else Some e
           | None => None
           end)
  end.

(** [existingResidency]. *)
Definition existingResidency (e : Entry) k request : P (AttachError + Residency Rt) :=
  let mismatch := AttachErr StepValidate HostLinkErrorRuntimeMismatch k None (Registry.CompatibilityID e) in
  if Registry.TeardownOwned e then Ret (inl (AttachErr StepValidate HostLinkErrorNotAdmitting k None ""))
  else if bool_decide (Registry.AgentID e ≠ r_AgentID request) then Ret (inl mismatch)
  else if bool_decide (r_CompatibilityID request ≠ "") && bool_decide (r_CompatibilityID request ≠ Registry.CompatibilityID e)
  then Ret (inl mismatch)
  else
    let! epoch := call (MRuntimeLeaseEpoch (Registry.Runtime e)) in
    Ret (inr (mkResidency (Registry.eKey e) (Registry.AgentID e) (Registry.CompatibilityID e)
                (Registry.Generation e) (Registry.Runtime e) (Registry.LeaseEpoch e) epoch.1 epoch.2 false)).

(** [observation]. *)
Definition observation m k (agent build : string) (epoch : Z) (residency : SessionResidency) (accepting : bool) :
    P RegistryObservation :=
  let! now := call MNow in
  Ret (mkObservation (Wire.TenantID k) (Wire.SessionID k) (HostOptions.HostID (mg_host m)) (mg_generation m) agent build
         (HostOptions.Placement (mg_host m)) (HostOptions.InternalEndpoint (mg_host m)) residency accepting epoch now
         (now + HostOptions.RegistryExpiry (mg_host m))%Z).

(** [Observe]. *)
Definition Observe m k : P (option RegistryObservation) :=
  let! entry := call (MGet k) in
  match entry with
  | None => Ret None
  | Some e =>
      let! o := observation m k (Registry.AgentID e) (Registry.CompatibilityID e) (Registry.LeaseEpoch e)
                  (Heartbeat.residencyOf (Registry.State e)) (Registry.Accepting e) in
      Ret (Some o)
  end.

(** ** The unwinder *)

(** A [compensation]: what it gives back, with what its closure captured. *)
Inductive compensation :=
| CompAdmission | CompContext | CompRefusedLease (cleanup : bool) | CompLease | CompWorkspace
| CompRuntime (r : Rt) | CompEntry (g : Z) | CompLocation (epoch : Z) | CompOwnership.

Definition hold_of (c : compensation) : Hold :=
  match c with
  | CompAdmission => HoldAdmission | CompContext => HoldContext | CompRefusedLease _ => HoldRefusedLease
  | CompLease => HoldLease | CompWorkspace => HoldWorkspace | CompRuntime _ => HoldRuntime
  | CompEntry _ => HoldEntry | CompLocation _ => HoldLocation | CompOwnership => HoldOwnership
  end.

(** Recorded with [shared] rather than [own]. *)
Definition shared (h : Hold) : bool :=
  match h with HoldAdmission | HoldWorkspace => true | _ => false end.

(** A compensation's closure; [authority] is the variable it reads when it runs. *)
Definition run_comp k (authority : bool) (c : compensation) : P (option error) :=
  let delegate h (run : P (option error)) := if authority then call (MAuthority h) else run in
  match c with
  | CompAdmission =>
      delegate HoldAdmission (
        let! credited := call (MReleaseAdmission k) in
        Ret (if credited then None else Some (EForeign "the ledger reports this session was not charged")))
  | CompContext => do! call MCancelSession in Ret None
  | CompRefusedLease cleanup => if cleanup then call MLeaseCleanup else Ret None
  | CompLease => delegate HoldLease (call MLeaseRelease)
  | CompWorkspace => delegate HoldWorkspace (call (MReleaseWorkspace k))
  | CompRuntime r => delegate HoldRuntime (call (MReleaseRuntime r))
  | CompEntry g =>
      if authority then Ret None
      else
        let! removed := call (MRemoveByGeneration k g) in
        Ret (if removed then None else Some (EForeign "the residency was replaced under this generation"))
  | CompLocation epoch =>
      delegate HoldLocation (
        let! err := write (call (MTombstoneResidency k epoch)) in
        Ret (match err with
             | Some e => if errors_is e ErrLeaseNotHeld then Some (ETyped (TReleaseError k) (Some e)) else Some e
             | None => None
             end))
  | CompOwnership => call MStopOwnership
  end.

(** [unwind]: from the last recorded to the first, past failures. *)
Fixpoint unwind_ k (authority includeShared : bool) (cs : list compensation) : P (list Hold * list error) :=
  match cs with
  | [] => Ret ([], [])
  | c :: cs =>
      if shared (hold_of c) && negb includeShared then unwind_ k authority includeShared cs
      else
        let! err := run_comp k authority c in
        let! rest := unwind_ k authority includeShared cs in
        Ret (match err with
           | Some e => (hold_of c :: rest.1, ETyped TWrapError (Some e) :: rest.2)
             | None => rest
             end)
  end.

Definition unwind k (authority includeShared : bool) (actions : list compensation) : P (list Hold * list error) :=
  unwind_ k authority includeShared (reverse actions).

Definition sharedHeld (actions : list compensation) : list Hold := filter (fun h => shared h = true) (hold_of <$> actions).

(** [attach]'s [fail]. *)
Definition fail k snap (authority : bool) (actions : list compensation)
    (step : Step) (code : HostLinkErrorCode) (cause : option error) : P (AttachError + Residency Rt) :=
  let! unreleased := unwind k authority true actions in
  Ret (inl (mkAttachError step code k cause (mismatchBuild code (compatibility snap)) unreleased.1 unreleased.2)).
(** ** The sequence of [attach]

    Its steps, last first; [actions] are the unwinder's, in the order they were
    recorded.                                                                *)

(** 8, and the session record. *)
Definition attach_report m k request snap (authority : bool) (actions : list compensation) (epoch g : Z)
    (runtime : Rt) (journal : Z * bool) : P (AttachError + Residency Rt) :=
  let fail := fail k snap authority actions in
  let! live := call (MGet k) in
  match live with
  | None => fail StepAttached HostLinkErrorNone None
  | Some e =>
      if bool_decide (Registry.Generation e ≠ g) then fail StepAttached HostLinkErrorNone None
      else
        let! accepting := (if Registry.Accepting e then let! d := call MDraining in Ret (negb d) else Ret false) in
        let! resident := observation m k (r_AgentID request) (compatibility snap) epoch
                           (Heartbeat.residencyOf (Registry.State e)) accepting in
        let! err := write (call (MPublishResidency resident)) in
        match err with
        | Some e => fail StepAttached HostLinkErrorNone (Some e)
        | None =>
            do! call (MInstallSession k g) in
            Ret (inr (mkResidency k (r_AgentID request) (compatibility snap) g runtime epoch journal.1 journal.2 true))
        end
  end.

(** 6 and 7: the projection and the ownership. *)
Definition attach_publish m k request snap (actions : list compensation) (epoch g : Z)
    (runtime : Rt) (journal : Z * bool) : P (AttachError + Residency Rt) :=
  let! attaching := observation m k (r_AgentID request) (compatibility snap) epoch SessionResidencyAttaching false in
  let! err := write (call (MPublishResidency attaching)) in
  match err with
  | Some e => fail k snap false actions StepPublish HostLinkErrorNone (Some e)
  | None =>
      let actions := actions ++ [CompLocation epoch] in
      let! begun := call (MBeginOwnership (mkOwnership k (r_AgentID request) (compatibility snap) epoch g runtime)) in
      match begun with
      | OwnershipRefused e => fail k snap false actions StepOwnership (admissionCode e) (Some e)
      | OwnershipNothing => fail k snap false actions StepOwnership HostLinkErrorNone None
      | OwnershipBegun authority =>
          attach_report m k request snap authority (actions ++ [CompOwnership]) epoch g runtime journal
      end
  end.

(** 5, lost: the session is resident under another attach. *)
Definition attach_lost k request (actions : list compensation) (e : Entry) : P (AttachError + Residency Rt) :=
  do! call (MOwn k (Registry.Generation e)) in
  let! unreleased := unwind k false false actions in
  let! existing := existingResidency e k request in
  match existing with
  | inl mismatch =>
      Ret (inl (mkAttachError StepInstall (ae_Code mismatch) k (Some (to_error mismatch))
                  (ae_RuntimeCompatibilityID mismatch) (unreleased.1 ++ sharedHeld actions) unreleased.2))
  | inr residency =>
      if bool_decide (unreleased.1 ≠ [])
      then Ret (inl (mkAttachError StepInstall HostLinkErrorNone k None "" unreleased.1 unreleased.2))
      else Ret (inr residency)
  end.

(** 4 and 5: the runtime's identity, its journal grant, and the registry winner. *)
Definition attach_install m k request snap (actions : list compensation) (epoch : Z) (runtime : Rt) :
    P (AttachError + Residency Rt) :=
  let fail := fail k snap false in
  let! session := call (MRuntimeSession runtime) in
  let! foreign := (if bool_decide (session ≠ Wire.SessionID k) then Ret true
                   else let! agent := call (MRuntimeAgent runtime) in Ret (bool_decide (agent ≠ r_AgentID request))) in
  if foreign then fail actions StepCapabilities HostLinkErrorRuntimeMismatch None
  else
    let! stopped := call (MRuntimeDone runtime) in
    if stopped then fail actions StepCapabilities HostLinkErrorRuntimeUnavailable None
    else
      let! journal := call (MRuntimeLeaseEpoch runtime) in
      let! inserted := call (MInsert k (Registry.mkAdmission (r_AgentID request) (target snap) (compatibility snap) runtime epoch)) in
      let '(e, won) := inserted in
      if negb won then attach_lost k request actions e
      else
        let g := Registry.Generation e in
        let actions := actions ++ [CompEntry g] in
        let! owned := call (MOwn k g) in
        if negb owned then fail actions StepInstall HostLinkErrorNone None
        else attach_publish m k request snap actions epoch g runtime journal.

(** 3: the runtime. *)
Definition attach_launch m k request snap (actions : list compensation) (epoch : Z) (state : SessionState)
    (launch : Mode) (root : string) : P (AttachError + Residency Rt) :=
  let fail := fail k snap false in
  let! draining := call MDraining in
  if draining then fail actions StepValidate HostLinkErrorNotAdmitting None
  else
    let l restored := mkLaunch k (r_AgentID request) (HostOptions.Placement (mg_host m)) root (Namespace state) restored
                        (RigSessionID state) in
    let! launched := call (if bool_decide (launch = ModeCreate) then MCreate (target snap) (l None)
                           else MRestore (target snap) (l (Some (compatibility snap)))) in
    match launched with
    | Err e => fail actions StepHydrate (launchCode e) (Some e)
    | Ok None => fail actions StepHydrate HostLinkErrorNone None
    | Ok (Some runtime) => attach_install m k request snap (actions ++ [CompRuntime runtime]) epoch runtime
    end.

(** 3: how the durable state lets the runtime be launched, or the refusal's class. *)
Definition launch_mode request snap (state : SessionState) : HostLinkErrorCode + Mode :=
  let caps := capabilities snap in
  if bool_decide (Namespace state = "") then inl HostLinkErrorNone
  else if Exists_ state && bool_decide (st_CompatibilityID state ≠ compatibility snap)
  then inl HostLinkErrorRuntimeMismatch
  else if bool_decide (r_Mode request = ModeRestore) && negb (Exists_ state) then inl HostLinkErrorRuntimeUnavailable
  else if bool_decide (r_Mode request = ModeRestore) && Department.RequiresCheckpoint caps && negb (HasCheckpoint state)
  then inl HostLinkErrorRuntimeUnavailable
  else if bool_decide (r_Mode request = ModeCreate) && bool_decide (RigSessionID state ≠ None) then
    match st_RuntimeJournal state with
    | RuntimeJournalAbsent => inr (r_Mode request)
    | RuntimeJournalPresent =>
        if Department.RequiresCheckpoint caps && negb (HasCheckpoint state) then inl HostLinkErrorRuntimeUnavailable
        else inr ModeRestore
    | _ => inl HostLinkErrorRuntimeUnavailable
    end
  else inr (r_Mode request).

(** 3: the durable state and the workspace. *)
Definition attach_hydrate m k request snap (actions : list compensation) (epoch : Z) : P (AttachError + Residency Rt) :=
  let fail := fail k snap false in
  let! loaded := call (MLoadState k) in
  match loaded with
  | Err e =>
      if errors_is e ErrInvalidRuntimeIdentity
      then fail actions StepHydrate HostLinkErrorRuntimeUnavailable (Some e)
      else fail actions StepHydrate HostLinkErrorNone (Some e)
  | Ok state =>
      match launch_mode request snap state with
      | inl code => fail actions StepHydrate code None
      | inr launch =>
          if Department.RequiresWorkspace (capabilities snap) then
            let! ensured := call (MEnsureWorkspace k) in
            match ensured with
            | Err e => fail actions StepHydrate HostLinkErrorNone (Some e)
            | Ok root => attach_launch m k request snap (actions ++ [CompWorkspace]) epoch state launch root
            end
          else attach_launch m k request snap actions epoch state launch ""
      end
  end.

(** 2: the lease and its epoch. *)
Definition attach_lease m k request snap (actions : list compensation) : P (AttachError + Residency Rt) :=
  let fail := fail k snap false in
  let! lease := call (MAcquireLease k) in
  match lease with
  | LeaseRefused e =>
      let cleanup := errors_as (fun t => match t with TLeaseCleanupError c => Some c | _ => None end) e in
      let actions := match cleanup with Some c => actions ++ [CompRefusedLease c] | None => actions end in
      let code := if errors_is e ErrLeaseHeld then HostLinkErrorEpochMismatch else HostLinkErrorNone in
      fail actions StepLease code (Some e)
  | LeaseNothing => fail actions StepLease HostLinkErrorNone None
  | LeaseGranted =>
      let actions := actions ++ [CompLease] in
      let! epoch := call MLeaseEpoch in
      if (epoch =? 0)%Z then fail actions StepLease HostLinkErrorNone None
      else attach_hydrate m k request snap actions epoch
  end.

(** [attach]. *)
Definition attach m k request snap : P (AttachError + Residency Rt) :=
  if bool_decide (r_CompatibilityID request ≠ "") && bool_decide (r_CompatibilityID request ≠ compatibility snap)
  then Ret (inl (AttachErr StepValidate HostLinkErrorRuntimeMismatch k None (compatibility snap)))
  else
    let! refused := call (MAdmit k (r_AgentID request)) in
    match refused with
    | Some e =>
        Ret (inl (AttachErr StepValidate (admissionCode e) k (Some e) (mismatchBuild (admissionCode e) (compatibility snap))))
    | None =>
        do! call (MNewContext (r_Principal request)) in
        do! call (MPend k) in
        let! r := attach_lease m k request snap [CompAdmission; CompContext] in
        do! call (MForgetPending k) in
        Ret r
    end.

(** [Attach]: under the session's key, after a re-check. *)
Definition attach_keyed m k request : P (AttachError + Residency Rt) :=
  let! existing := attachedResidency k in
  match existing with
  | Some e => existingResidency e k request
  | None =>
      let! resolved := resolveTarget m k request in
      match resolved with
      | inl e => Ret (inl e)
      | inr snap => attach m k request snap
      end
  end.

Definition Attach m request : P (AttachError + Residency Rt) :=
  let k := mkKey (r_TenantID request) (r_SessionID request) in
  let! refused := validateRequest m k request in
  match refused with
  | Some e => Ret (inl e)
  | None =>
      let! existing := attachedResidency k in
      match existing with
      | Some e => existingResidency e k request
      | None =>
          do! call (MAcquireKey k) in
          let! r := attach_keyed m k request in
          do! call (MReleaseKey k) in
          Ret r
      end
  end.

(** ** What an attach takes and gives back *)

Abbreviation O := (obs (ME Rt Tgt)).

Definition take_of (o : O) : option Hold :=
  match o with Obs e x =>
    match e in ME _ _ X return X → option Hold with
    | MAdmit _ _ => fun err => match err with None => Some HoldAdmission | Some _ => None end
    | MNewContext _ => fun _ => Some HoldContext
    | MAcquireLease _ => fun a => match a with
        | LeaseGranted => Some HoldLease
        | LeaseNothing => None
        | LeaseRefused e =>
            match errors_as (fun t => match t with TLeaseCleanupError c => Some c | _ => None end) e with
            | Some _ => Some HoldRefusedLease | None => None end
        end
    | MEnsureWorkspace _ => fun r => if is_ok r then Some HoldWorkspace else None
    | MCreate _ _ | MRestore _ _ => fun r => match r with Ok (Some _) => Some HoldRuntime | _ => None end
    | MInsert _ _ => fun r => if r.2 then Some HoldEntry else None
    | MPublishResidency o => fun err => match o_Residency o, err with
        | SessionResidencyAttaching, None => Some HoldLocation | _, _ => None end
    | MBeginOwnership _ => fun a => match a with OwnershipBegun _ => Some HoldOwnership | _ => None end
    | _ => fun _ => None
    end x end.

(** A call that gives something back, and whether it was answered that it did. *)
Definition give_of (o : O) : option (Hold * bool) :=
  match o with Obs e x =>
    match e in ME _ _ X return X → option (Hold * bool) with
    | MReleaseAdmission _ => fun b => Some (HoldAdmission, b)
    | MCancelSession => fun _ => Some (HoldContext, true)
    | MLeaseCleanup => fun err => Some (HoldRefusedLease, bool_decide (err = None))
    | MLeaseRelease => fun err => Some (HoldLease, bool_decide (err = None))
    | MReleaseWorkspace _ => fun err => Some (HoldWorkspace, bool_decide (err = None))
    | MReleaseRuntime _ => fun err => Some (HoldRuntime, bool_decide (err = None))
    | MRemoveByGeneration _ _ => fun b => Some (HoldEntry, b)
    | MTombstoneResidency _ _ => fun err => Some (HoldLocation, bool_decide (err = None))
    | MStopOwnership => fun err => Some (HoldOwnership, bool_decide (err = None))
    | MAuthority h => fun err => Some (h, bool_decide (err = None))
    | _ => fun _ => None
    end x end.

Definition takes (t : list O) : list Hold := omap take_of t.
Definition gives (t : list O) : list (Hold * bool) := omap give_of t.

(** The ownership begun is a [ReleaseAuthority]. *)
Definition delegated (o : O) : bool :=
  match o with Obs e x =>
    match e in ME _ _ X return X → bool with
    | MBeginOwnership _ => fun a => match a with OwnershipBegun authority => authority | _ => false end
    | _ => fun _ => false end x end.

(** The registry already held the session. *)
Definition lost (o : O) : bool :=
  match o with Obs e x =>
    match e in ME _ _ X return X → bool with MInsert _ _ => fun r => negb r.2 | _ => fun _ => false end x end.

(** The refused acquisition left a grant with nothing to release it by. *)
Definition uncleanable (o : O) : bool :=
  match o with Obs e x =>
    match e in ME _ _ X return X → bool with
    | MAcquireLease _ => fun a => match a with
        | LeaseRefused e =>
            bool_decide (errors_as (fun t => match t with TLeaseCleanupError c => Some c | _ => None end) e = Some false)
        | _ => false end
    | _ => fun _ => false end x end.

Lemma takes_app t1 t2 : takes (t1 ++ t2) = takes t1 ++ takes t2.
Proof. apply omap_app. Qed.
Lemma gives_app t1 t2 : gives (t1 ++ t2) = gives t1 ++ gives t2.
Proof. apply omap_app. Qed.

(** What running one compensation is. *)
Record ran (authority : bool) (c : compensation) (t : list O) (err : option error) : Prop := {
  ran_takes : takes t = [];
  ran_gives : gives t = [] ∨ ∃ b, gives t = [(hold_of c, b)];
  ran_back : err = None → gives t = [(hold_of c, true)] ∨ (hold_of c = HoldEntry ∧ authority = true) ∨ c = CompRefusedLease false
}.

Ltac unrun := repeat match goal with
  | H : ∃ _, _ |- _ => destruct H
  | H : _ ∧ _ |- _ => destruct H
  | H : runs ?p _ _ |- _ => match p with context [match ?x with _ => _ end] => destruct x eqn:?; simpl in H end
  | _ => progress simplify_eq/=
  end.

Lemma location_ran k epoch t err :
  runs (run_comp k false (CompLocation epoch)) t err → ran false (CompLocation epoch) t err.
Proof.
  unfold run_comp, write, held; simpl. intros H. unrun.
  all: split; simpl; eauto; repeat case_match; simplify_eq/=; intros; simplify_eq; eauto.
Qed.

Lemma run_comp_ran k authority c t err : runs (run_comp k authority c) t err → ran authority c t err.
Proof.
  destruct c, authority; try apply location_ran; unfold run_comp; simpl; intros H; unrun.
  all: split; simpl; eauto; intros; simplify_eq/=; eauto; repeat case_match; simplify_eq; eauto.
Qed.

(** What unwinding [cs], first to last, is. *)
Record unwound (authority includeShared : bool) (cs : list compensation) (t : list O) (r : list Hold * list error) : Prop := {
  un_takes : takes t = [];
  un_gives : (gives t).*1 `sublist_of` hold_of <$> cs;
  un_back : ∀ c, c ∈ cs → (shared (hold_of c) = true ∧ includeShared = false) ∨ (hold_of c, true) ∈ gives t ∨
    hold_of c ∈ r.1 ∨ (hold_of c = HoldEntry ∧ authority = true) ∨ c = CompRefusedLease false;
  un_named : r.1 `sublist_of` hold_of <$> cs;
  un_private : includeShared = false → Forall (fun h => shared h = false) (gives t).*1
}.

Lemma unwind_unwound k authority includeShared cs t r :
  runs (unwind_ k authority includeShared cs) t r → unwound authority includeShared cs t r.
Proof.
  revert t r. induction cs as [|c cs IH]; intros t r; simpl.
  - intros [-> ->]. split; simpl; try done. by intros ? ?%elem_of_nil.
  - destruct (shared (hold_of c) && negb includeShared) eqn:Hsk.
    + apply andb_true_iff in Hsk as [Hsh Hinc%negb_true_iff]. intros [H1 H2 H3 H4 H5]%IH. split; try done.
      * by apply sublist_cons.
      * intros c' [->|Hc]%elem_of_cons; [by left|]. by apply H3.
      * by apply sublist_cons.
    + intros (t1 & t2 & err & -> & [Ht1 Hg1 Hb1]%run_comp_ran & H)%runs_bind.
      apply runs_bind in H as (t3 & t4 & rest & -> & [H1 H2 H3 H4 H5]%IH & H). simpl in H. destruct H as [-> ->].
      rewrite app_nil_r. split; rewrite ?takes_app, ?gives_app, ?Ht1, ?H1; try done.
      * rewrite fmap_app. simpl. destruct Hg1 as [->|[b ->]]; simpl; [by apply sublist_cons|by apply sublist_skip].
      * intros c' [->|Hc]%elem_of_cons.
        -- right. destruct err as [e|]; simpl; [right; left; by left|].
           destruct (Hb1 eq_refl) as [->|Hb]; [left; by left|auto].
        -- destruct (H3 c' Hc) as [?|[Hg|[Hr|?]]]; [by left|right..]; rewrite ?elem_of_app; [auto| |auto].
           right. left. destruct err; [by right|done].
      * destruct err; [by apply sublist_skip|by apply sublist_cons].
      * intros Hi. rewrite fmap_app, Forall_app. split; [|by apply H5].
        assert (shared (hold_of c) = false) as Hsc by (rewrite Hi in Hsk; by destruct (shared (hold_of c))).
        destruct Hg1 as [->|[b ->]]; repeat constructor. done.
Qed.

(** ** Every failure gives back what was taken *)

(** What an attach holds after the history [h], as its unwinder records it. *)
Record holding (authority : bool) (actions : list compensation) (h : list O) : Prop := {
  ho_takes : takes h = hold_of <$> actions;
  ho_gives : gives h = [];
  ho_delegated : authority = true → seen delegated h = true;
  ho_uncleanable : CompRefusedLease false ∈ actions → seen uncleanable h = true
}.

(** How one thing taken is accounted for: given back, named as unreleased, the
    entry the authority removes with the location, or a refused lease that came with
    nothing to release. *)
Definition accounted (h : list O) (named : list Hold) (x : Hold) : Prop :=
  (x, true) ∈ gives h ∨ x ∈ named ∨ (x = HoldEntry ∧ seen delegated h = true) ∨
  (x = HoldRefusedLease ∧ seen uncleanable h = true).

Record settled (h : list O) (e : AttachError) : Prop := {
  se_order : (gives h).*1 `sublist_of` reverse (takes h);
  se_all : ∀ x, x ∈ takes h → accounted h (ae_Unreleased e) x ∨ (shared x = true ∧ seen lost h = true)
}.

(** What an attached session holds. *)
Definition everything : list Hold :=
  [HoldAdmission; HoldContext; HoldLease; HoldRuntime; HoldEntry; HoldLocation; HoldOwnership].

(** What a result promises of the whole attach. *)
Definition outcome (h : list O) (r : AttachError + Residency Rt) : Prop :=
  match r with
  | inl e => settled h e
  | inr rs =>
      if Attached rs
      then gives h = [] ∧ everything ⊆ takes h
      else seen lost h = true ∧ ∀ x, x ∈ takes h → shared x = true ∨ (x, true) ∈ gives h
  end.

Abbreviation ending := (safe any_env (fun _ _ => True) outcome).

Lemma holding_settled authority includeShared actions h t r e :
  holding authority actions h → unwound authority includeShared (reverse actions) t r →
  (includeShared = false → seen lost h = true) → (∀ x, x ∈ r.1 → x ∈ ae_Unreleased e) →
  settled (h ++ t) e.
Proof.
  intros [H1 H2 H3 H4] [U1 U2 U3 U4 U5] Hl Hr. split.
  - rewrite gives_app, H2, takes_app, U1, app_nil_r, H1. simpl. by rewrite <-fmap_reverse.
  - intros x. rewrite takes_app, U1, app_nil_r, H1. intros (c & -> & Hc)%list_elem_of_fmap.
    unfold accounted. rewrite gives_app, H2. simpl. rewrite !seen_app.
    destruct (U3 c) as [[? Hi]|[?|[?|[[? Ha]| ->]]]]; [by apply elem_of_reverse| | | | |]; auto.
    + right. by rewrite Hl.
    + left. right. right. left. by rewrite H3.
    + left. right. right. right. by rewrite H4.
Qed.

Lemma fail_ending k snap authority actions step code cause h :
  holding authority actions h → ending h (fail k snap authority actions step code cause).
Proof.
  intros Hh. apply safe_of_runs. intros t r. unfold fail.
  intros (t1 & t2 & un & -> & Hu & H)%runs_bind. simpl in H. destruct H as [-> ->]. rewrite app_nil_r.
  apply unwind_unwound in Hu. simpl. eapply holding_settled; eauto. done.
Qed.
Lemma holding_quiet authority actions h t :
  holding authority actions h → takes t = [] → gives t = [] → holding authority actions (h ++ t).
Proof.
  intros [H1 H2 H3 H4] Ht Hg. split; rewrite ?takes_app, ?gives_app, ?Ht, ?Hg, ?app_nil_r, ?seen_app; auto.
  - intros Ha. by rewrite H3.
  - intros Hc. by rewrite H4.
Qed.

Lemma holding_take authority authority' actions c h t :
  holding authority actions h → takes t = [hold_of c] → gives t = [] →
  (authority' = true → authority = true ∨ seen delegated t = true) →
  (c = CompRefusedLease false → seen uncleanable t = true) →
  holding authority' (actions ++ [c]) (h ++ t).
Proof.
  intros [H1 H2 H3 H4] Ht Hg Ha Hu. split; rewrite ?takes_app, ?gives_app, ?Ht, ?Hg, ?app_nil_r, ?seen_app; auto.
  - by rewrite H1, fmap_app.
  - intros [Hx|Hx]%Ha; [by rewrite H3|by rewrite Hx, orb_true_r].
  - intros [Hc|Hc%list_elem_of_singleton]%elem_of_app; [by rewrite H4|]. rewrite Hu by done. apply orb_true_r.
Qed.

(** [residencyOf] never answers attaching, so the second projection takes nothing. *)
Lemma residencyOf_not_attaching st (X Y : option Hold) :
  match Heartbeat.residencyOf st with SessionResidencyAttaching => X | _ => Y end = Y.
Proof. by destruct st. Qed.

(** [quiet]: the calls since [h] took and gave nothing. *)
Ltac quiet H :=
  rewrite <-?app_assoc; simpl;
  first [ exact H | apply (holding_quiet _ _ _ _ H); [by (simpl; rewrite ?residencyOf_not_attaching)|reflexivity] ].

Ltac walk :=
  repeat first
    [ symbolic_step
    | match goal with
      | |- ∀ _ : _, any_env _ _ → _ ∧ _ => intros ? _; split; [exact I|]
      | |- safe _ _ _ _ (bind (bind _ _) _) => apply safe_bind
      end
    | match goal with |- safe _ _ _ _ _ => progress case_match end; simplify_eq/=; simpl ].

(** Each step is walked call by call, from one [holding] history to the next. *)
Lemma holding_call authority actions h X (e : ME Rt Tgt X) x :
  holding authority actions h → take_of (Obs e x) = None → give_of (Obs e x) = None →
  holding authority actions (h ++ [Obs e x]).
Proof.
  intros Hh Ht Hg. apply holding_quiet; [done| |].
  - change (match take_of (Obs e x) with Some y => [y] | None => [] end = []). by rewrite Ht.
  - change (match give_of (Obs e x) with Some y => [y] | None => [] end = []). by rewrite Hg.
Qed.

Lemma held_holding authority actions h :
  holding authority actions h → safe any_env (fun _ _ => True) (fun h' _ => holding authority actions h') h held.
Proof. intros Hh. unfold held. walk; quiet Hh. Qed.

Lemma publish_holding authority actions h o :
  holding authority actions h →
  safe any_env (fun _ _ => True) (fun h' err =>
    match err with
    | None => ∀ epoch, holding authority
        (if decide (o_Residency o = SessionResidencyAttaching) then actions ++ [CompLocation epoch] else actions) h'
    | Some _ => holding authority actions h' end) h (write (call (MPublishResidency o))).
Proof.
  intros Hh. unfold write. eapply safe_bind_spec; [by apply held_holding|]. intros h1 [e|] H1; [done|].
  intros err _. split; [exact I|]. simpl. destruct err as [e|].
  - walk; rewrite <-?app_assoc; apply (holding_quiet _ _ _ _ H1); simpl; by destruct (o_Residency o).
  - intros epoch. case_decide as Hd.
    + by apply (holding_take authority); simpl; rewrite ?Hd; auto.
    + apply (holding_quiet _ _ _ _ H1); simpl; [|done]. by destruct (o_Residency o).
Qed.

Lemma observation_holding authority actions h m k agent build epoch residency accepting :
  holding authority actions h →
  safe any_env (fun _ _ => True) (fun h' o => o_Residency o = residency ∧ holding authority actions h') h
    (observation m k agent build epoch residency accepting).
Proof. intros Hh x _. split; [exact I|]. split; [done|]. by apply holding_call. Qed.

#[local] Opaque fail write observation.

Lemma attach_report_ending m k request snap authority actions epoch g runtime journal h :
  holding authority actions h → everything ⊆ hold_of <$> actions →
  ending h (attach_report m k request snap authority actions epoch g runtime journal).
Proof.
  intros Hh Hall. unfold attach_report. intros live _. split; [exact I|].
  apply (holding_call _ _ _ _ (MGet k) live) in Hh; [|done..]. simpl.
  destruct live as [e|]; [|by apply fail_ending]. case_bool_decide; [by apply fail_ending|].
  eapply safe_bind_spec with (Q1 := fun h' _ => holding authority actions h').
  { destruct (Registry.Accepting e); [|done]. intros d _. split; [exact I|]. by apply holding_call. }
  intros h1 accepting H1. eapply safe_bind_spec; [by apply observation_holding|]. intros h2 o [Ho H2].
  eapply safe_bind_spec; [by apply publish_holding|]. intros h3 [err|] H3; [by apply fail_ending|].
  specialize (H3 0%Z). rewrite Ho, decide_False in H3 by (by destruct (Registry.State e)).
  intros u _. split; [exact I|]. apply (holding_call _ _ _ _ (MInstallSession k g) u) in H3; [|done..].
  destruct H3 as [Ht Hg _ _]. split; [done|]. by rewrite Ht.
Qed.

Lemma attach_publish_ending m k request snap actions epoch g runtime journal h :
  holding false actions h → [HoldAdmission; HoldContext; HoldLease; HoldRuntime; HoldEntry] ⊆ hold_of <$> actions →
  ending h (attach_publish m k request snap actions epoch g runtime journal).
Proof.
  intros Hh Hall. unfold attach_publish.
  eapply safe_bind_spec; [by apply observation_holding|]. intros h1 o [Ho H1].
  eapply safe_bind_spec; [by apply publish_holding|]. intros h2 [err|] H2; [by apply fail_ending|].
  specialize (H2 epoch). rewrite decide_True in H2 by done.
  intros begun _. split; [exact I|]. simpl. destruct begun as [authority| |e].
  - apply attach_report_ending.
    + apply (holding_take false); [done..| |done]. intros ->. by right.
    + rewrite !fmap_app. simpl. set_solver.
  - apply fail_ending. by apply holding_call.
  - apply fail_ending. by apply holding_call.
Qed.
Lemma settled_quiet h t e : settled h e → takes t = [] → gives t = [] → settled (h ++ t) e.
Proof.
  intros [H1 H2] Ht Hg. split; rewrite ?takes_app, ?gives_app, ?Ht, ?Hg, ?app_nil_r; [done|].
  intros x Hx. unfold accounted. rewrite gives_app, Hg, app_nil_r, !seen_app.
  destruct (H2 x Hx) as [[?|[?|[[? ->]|[? ->]]]]|[? ->]]; simpl; auto 6.
Qed.

Lemma existing_runs e k request t r :
  runs (existingResidency e k request) t r →
  takes t = [] ∧ gives t = [] ∧ match r with inr rs => Attached rs = false | inl _ => True end.
Proof.
  unfold existingResidency. intros H.
  repeat match type of H with runs (if ?b then _ else _) _ _ => destruct b; [destruct H as [-> ->]; done|] end.
  destruct H as (x & t' & -> & -> & ->). done.
Qed.

Lemma attach_lost_ending k request actions e h :
  holding false actions h → seen lost h = true → CompRefusedLease false ∉ actions →
  ending h (attach_lost k request actions e).
Proof.
  intros Hh Hlost Hc. unfold attach_lost. intros owned _. split; [exact I|]. simpl.
  apply (holding_call _ _ _ _ (MOwn k (Registry.Generation e)) owned) in Hh; [|done..].
  assert (seen lost (h ++ [Obs (MOwn k (Registry.Generation e)) owned]) = true) as Hl by (by rewrite seen_app, Hlost).
  revert Hh Hl. generalize (h ++ [Obs (MOwn k (Registry.Generation e)) owned]). clear h Hlost owned. intros h Hh Hl.
  apply safe_of_runs. intros t r (t1 & t2 & un & -> & Hu%unwind_unwound & H)%runs_bind.
  apply runs_bind in H as (t3 & t4 & existing & -> & (Ht3 & Hg3 & Hex)%existing_runs & H).
  rewrite !app_assoc.
  assert (∀ err t', (∀ x, x ∈ un.1 → x ∈ ae_Unreleased err) → takes t' = [] → gives t' = [] →
    settled (((h ++ t1) ++ t3) ++ t') err) as Hset.
  { intros err t' Hin Ht' Hg'. apply settled_quiet; [|done..]. apply settled_quiet; [|done..].
    eapply holding_settled; eauto. }
  destruct existing as [mismatch|residency]; simpl in H.
  - destruct H as [-> ->]. apply Hset; [|done..]. simpl. intros x Hx. apply elem_of_app. by left.
  - case_bool_decide as Hne; simpl in H; destruct H as [-> ->].
    + apply Hset; [|done..]. simpl. done.
    + simpl. rewrite Hex, app_nil_r. rewrite !seen_app, Hl. split; [done|].
      rewrite !takes_app, !gives_app, Ht3, Hg3, !app_nil_r. destruct Hh as [Ht Hg _ _]. rewrite Ht, Hg.
      destruct Hu as [Hu1 _ Hu3 _ _]. rewrite Hu1, app_nil_r. simpl.
      intros x (c & -> & Hcin)%list_elem_of_fmap.
      destruct (Hu3 c) as [[? _]|[?|[Hr|[[? ?]| ->]]]]; [by apply elem_of_reverse|by left|by right| |done|done].
      exfalso. rewrite Hne in Hr. by apply elem_of_nil in Hr.
Qed.

#[local] Opaque attach_report attach_publish attach_lost.

Lemma attach_install_ending m k request snap actions epoch runtime h :
  holding false actions h → [HoldAdmission; HoldContext; HoldLease; HoldRuntime] ⊆ hold_of <$> actions →
  CompRefusedLease false ∉ actions →
  ending h (attach_install m k request snap actions epoch runtime).
Proof.
  intros Hh Hall Hc. unfold attach_install. intros session _. split; [exact I|]. simpl.
  apply (holding_call _ _ _ _ (MRuntimeSession runtime) session) in Hh; [|done..].
  eapply safe_bind_spec with (Q1 := fun h' _ => holding false actions h').
  { case_bool_decide; [done|]. intros agent _. split; [exact I|]. by apply holding_call. }
  clear h Hh. intros h foreign Hh. destruct foreign; [by apply fail_ending|].
  intros stopped _. split; [exact I|]. simpl.
  apply (holding_call _ _ _ _ (MRuntimeDone runtime) stopped) in Hh; [|done..].
  destruct stopped; [by apply fail_ending|].
  intros journal _. split; [exact I|]. simpl.
  apply (holding_call _ _ _ _ (MRuntimeLeaseEpoch runtime) journal) in Hh; [|done..].
  intros [e won] _. split; [exact I|]. simpl. destruct won; simpl.
  - match goal with |- ∀ _, any_env ?h0 _ → _ => assert (holding false (actions ++ [CompEntry (Registry.Generation e)]) h0) as H1
      by (by apply (holding_take false)) end.
    intros owned _. split; [exact I|].
    apply (holding_call _ _ _ _ (MOwn k (Registry.Generation e)) owned) in H1; [|done..]. simpl.
    destruct owned; simpl; [|by apply fail_ending].
    apply attach_publish_ending; [done|]. rewrite fmap_app. simpl. set_solver.
  - apply attach_lost_ending; [by apply holding_call|by rewrite seen_app, orb_true_r|done].
Qed.

#[local] Opaque attach_install.

Lemma attach_launch_ending m k request snap actions epoch state launch root h :
  holding false actions h → [HoldAdmission; HoldContext; HoldLease] ⊆ hold_of <$> actions →
  CompRefusedLease false ∉ actions →
  ending h (attach_launch m k request snap actions epoch state launch root).
Proof.
  intros Hh Hall Hc. unfold attach_launch. intros draining _. split; [exact I|]. simpl.
  apply (holding_call _ _ _ _ MDraining draining) in Hh; [|done..].
  destruct draining; [by apply fail_ending|].
  case_bool_decide; intros launched _; (split; [exact I|]); simpl.
  all: destruct launched as [[runtime|]|e]; [|apply fail_ending; by apply holding_call..].
  all: apply attach_install_ending;
    [by apply (holding_take false)|rewrite fmap_app; simpl; set_solver|].
  all: intros [?|Hx%list_elem_of_singleton]%elem_of_app; done.
Qed.

#[local] Opaque attach_launch.

Lemma attach_hydrate_ending m k request snap actions epoch h :
  holding false actions h → [HoldAdmission; HoldContext; HoldLease] ⊆ hold_of <$> actions →
  CompRefusedLease false ∉ actions →
  ending h (attach_hydrate m k request snap actions epoch).
Proof.
  intros Hh Hall Hc. unfold attach_hydrate. intros loaded _. split; [exact I|]. simpl.
  apply (holding_call _ _ _ _ (MLoadState k) loaded) in Hh; [|done..].
  destruct loaded as [state|e]; [|destruct (errors_is _ _); by apply fail_ending].
  destruct (launch_mode request snap state) as [code|launch]; [by apply fail_ending|].
  destruct (Department.RequiresWorkspace _); [|by apply attach_launch_ending].
  intros [root|e] _; (split; [exact I|]); simpl; [|apply fail_ending; by apply holding_call].
  apply attach_launch_ending; [by apply (holding_take false)|rewrite fmap_app; simpl; set_solver|].
  intros [?|Hx%list_elem_of_singleton]%elem_of_app; done.
Qed.

#[local] Opaque attach_hydrate.

Lemma attach_lease_ending m k request snap h :
  holding false [CompAdmission; CompContext] h →
  ending h (attach_lease m k request snap [CompAdmission; CompContext]).
Proof.
  intros Hh. unfold attach_lease. intros [| |e] _; (split; [exact I|]); simpl.
  - match goal with |- ∀ _, any_env ?h0 _ → _ => assert (holding false ([CompAdmission; CompContext] ++ [CompLease]) h0) as H1
      by (by apply (holding_take false)) end.
    intros epoch _. split; [exact I|]. apply (holding_call _ _ _ _ MLeaseEpoch epoch) in H1; [|done..].
    destruct (epoch =? 0)%Z; [by apply fail_ending|]. apply attach_hydrate_ending; [done|simpl; set_solver|].
    simpl. intros Hx. repeat (apply elem_of_cons in Hx as [Hx|Hx]; [done|]). by apply elem_of_nil in Hx.
  - apply fail_ending. by apply holding_call.
  - apply fail_ending. destruct (errors_as _ e) as [c|] eqn:He; [|apply holding_call; [done|simpl; by rewrite He|done]].
    apply (holding_take false _ [CompAdmission; CompContext]); [done|simpl; by rewrite He|done|done|].
    intros [= ->]. simpl. rewrite He. by rewrite bool_decide_eq_true_2.
Qed.
Lemma outcome_quiet h t r : outcome h r → takes t = [] → gives t = [] → outcome (h ++ t) r.
Proof.
  intros Ho Ht Hg. destruct r as [e|rs]; simpl in *; [by apply settled_quiet|].
  destruct (Attached rs); rewrite takes_app, gives_app, Ht, Hg, !app_nil_r; [done|].
  destruct Ho as [Hl Ho]. by rewrite seen_app, Hl.
Qed.

#[local] Opaque attach_lease.

Lemma attach_ending m k request snap h :
  takes h = [] → gives h = [] → ending h (attach m k request snap).
Proof.
  intros Ht Hg. unfold attach.
  assert (∀ t e, takes t = [] → gives t = [] → settled (h ++ t) e) as Hnone.
  { intros t e Ht' Hg'. split; rewrite ?takes_app, ?gives_app, ?Ht, ?Hg, ?Ht', ?Hg'; [done|]. by intros ? ?%elem_of_nil. }
  case_bool_decide; [case_bool_decide; simpl; [rewrite <-(app_nil_r h); by apply Hnone|]|simpl].
  all: intros refused _; (split; [exact I|]); destruct refused as [e|]; simpl; [by apply Hnone|].
  all: intros u _; (split; [exact I|]); intros v _; (split; [exact I|]).
  all: apply safe_bind; (eapply safe_mono; [|apply attach_lease_ending]).
  1,3: intros h' r Ho w _; (split; [exact I|]); simpl; by apply outcome_quiet.
  all: apply holding_call; [|done..]; split; rewrite ?takes_app, ?gives_app, ?Ht, ?Hg; simpl; try done.
  all: by intros Hx; repeat (apply elem_of_cons in Hx as [Hx|Hx]; [done|]); apply elem_of_nil in Hx.
Qed.
#[local] Transparent observation write.

(** The programs around [attach] take and give nothing. *)
Definition idle {A} (p : P A) : Prop :=
  ∀ h, takes h = [] → gives h = [] → safe any_env (fun _ _ => True) (fun h' _ => takes h' = [] ∧ gives h' = []) h p.

Ltac idling :=
  let h := fresh "h" in let H1 := fresh in let H2 := fresh in
  intros h H1 H2; walk; rewrite ?takes_app, ?gives_app, ?H1, ?H2; done.

Lemma validateRequest_idle m k request : idle (validateRequest m k request).
Proof. unfold validateRequest, refuseForeignSession. idling. Qed.
Lemma resolveTarget_idle m k request : idle (resolveTarget m k request).
Proof. unfold resolveTarget. idling. Qed.
Lemma attachedResidency_idle k : idle (attachedResidency k).
Proof. unfold attachedResidency. idling. Qed.

Definition attach_outcome (t : list O) (r : AttachError + Residency Rt) : Prop :=
  match r with
  | inl e => settled t e
  | inr rs =>
      if Attached rs
      then gives t = [] ∧ everything ⊆ takes t
      else takes t = [] ∨ (seen lost t = true ∧ ∀ x, x ∈ takes t → shared x = true ∨ (x, true) ∈ gives t)
  end.

Abbreviation concluding := (safe any_env (fun _ _ => True) attach_outcome).

Lemma attach_outcome_quiet h t r :
  attach_outcome h r → takes t = [] → gives t = [] → attach_outcome (h ++ t) r.
Proof.
  intros Ho Ht Hg. destruct r as [e|rs]; simpl in *; [by apply settled_quiet|].
  rewrite takes_app, gives_app, Ht, Hg, !app_nil_r, seen_app.
  destruct (Attached rs); [done|]. destruct Ho as [?|[-> ?]]; auto.
Qed.

Lemma untouched_settled h e : takes h = [] → gives h = [] → settled h e.
Proof. intros Ht Hg. split; rewrite ?Ht, ?Hg; [done|]. by intros ? ?%elem_of_nil. Qed.

Lemma existing_concluding e k request h :
  takes h = [] → gives h = [] → concluding h (existingResidency e k request).
Proof.
  intros Ht Hg. apply safe_of_runs. intros t r (Ht' & Hg' & Hr)%existing_runs.
  destruct r as [err|rs]; simpl.
  - apply untouched_settled; by rewrite ?takes_app, ?gives_app, ?Ht, ?Hg, ?Ht', ?Hg'.
  - rewrite Hr. left. by rewrite takes_app, Ht, Ht'.
Qed.

Lemma attach_keyed_concluding m k request h :
  takes h = [] → gives h = [] → concluding h (attach_keyed m k request).
Proof.
  intros Ht Hg. unfold attach_keyed.
  eapply safe_bind_spec; [by apply attachedResidency_idle|]. intros h1 [e|] [Ht1 Hg1]; [by apply existing_concluding|].
  eapply safe_bind_spec; [by apply resolveTarget_idle|]. intros h2 [e|snap] [Ht2 Hg2]; [by apply untouched_settled|].
  eapply safe_mono; [|by apply attach_ending]. intros h' [e|rs]; simpl; [done|].
  destruct (Attached rs); [done|by right].
Qed.

#[local] Opaque attach_keyed.

Lemma Attach_concluding m request : concluding [] (Attach m request).
Proof.
  unfold Attach. eapply safe_bind_spec; [by apply validateRequest_idle|].
  intros h1 [e|] [Ht1 Hg1]; [by apply untouched_settled|].
  eapply safe_bind_spec; [by apply attachedResidency_idle|].
  intros h2 [e|] [Ht2 Hg2]; [by apply existing_concluding|].
  intros u _. split; [exact I|]. simpl. apply safe_bind. eapply safe_mono; [|apply attach_keyed_concluding].
  - intros h3 r Ho w _. split; [exact I|]. by apply attach_outcome_quiet.
  - by rewrite takes_app, Ht2.
  - by rewrite gives_app, Hg2.
Qed.

(** C7 An attach that returns an error took nothing that is still held: every
    resource it took is given back, most recent first, or is named on the error; the
    exceptions are the registry entry, which the ownership's release authority
    removes with the location, a refused lease that came with nothing to release,
    and, when another attach won the session, the admission and the workspace the
    winner shares.  An attach that succeeded holds everything a residency needs and
    gave nothing back; one that found the session resident holds nothing of its own. *)
Theorem attach_gives_back m request t r (Hrun : runs (Attach m request) t r) :
  match r with
  | inl e =>
      (gives t).*1 `sublist_of` reverse (takes t) ∧
      ∀ x, x ∈ takes t →
        (x, true) ∈ gives t ∨ x ∈ ae_Unreleased e ∨ (x = HoldEntry ∧ seen delegated t = true) ∨
        (x = HoldRefusedLease ∧ seen uncleanable t = true) ∨ (shared x = true ∧ seen lost t = true)
  | inr rs =>
      if Attached rs
      then gives t = [] ∧ everything ⊆ takes t
      else takes t = [] ∨ (seen lost t = true ∧ ∀ x, x ∈ takes t → shared x = true ∨ (x, true) ∈ gives t)
  end.
Proof.
  destruct (safe_runs_any _ _ _ _ _ (Attach_concluding m request) Hrun) as [Ho _].
  destruct r as [e|rs]; [|exact Ho]. destruct Ho as [H1 H2]. split; [done|].
  intros x Hx. destruct (H2 x Hx) as [[?|[?|[?|?]]]|?]; auto 6.
Qed.

(** ** Location writes are fenced, and a launch is authorized *)

Definition is_location_write (o : O) : bool :=
  match o with Obs e _ => match e with MPublishResidency _ | MTombstoneResidency _ _ => true | _ => false end end.

(** A launch of the runtime: whether it creates, and what it launches. *)
Definition launch_of (o : O) : option (bool * Launch) :=
  match o with Obs e _ => match e with MCreate _ l => Some (true, l) | MRestore _ l => Some (false, l) | _ => None end end.

Definition fenced_write (t : list O) (o : O) : Prop := is_location_write o = true → just_held t.

(** The guarantee of everything but the launch. *)
Definition inert (t : list O) (o : O) : Prop := fenced_write t o ∧ launch_of o = None.

Abbreviation fenced_safe := (safe any_env inert (fun _ _ => True)).

Create HintDb fenced.

Ltac fencing :=
  repeat first
    [ symbolic_step
    | match goal with H : (if ?b then Some _ else None) = None |- _ => destruct b; [discriminate H|clear H] end
    | match goal with
      | |- safe _ _ _ _ (bind (bind _ _) _) => apply safe_bind
      | |- ∀ _ : _, any_env _ _ → _ ∧ _ => intros ? _; split; [split; [unfold fenced_write; simpl; intros ?; first [discriminate|refine (just_held_snoc _)]|reflexivity]|]
      | |- safe _ _ _ _ (fail _ _ _ _ _ _ _) => progress eauto with fenced
      | |- safe _ _ _ _ _ => progress eauto with fenced
      | |- safe _ _ _ _ _ => progress case_match; simplify_eq/=; simpl
      end
    | exact I ].

#[local] Transparent fail.

Lemma unwind_fenced k authority includeShared cs h : fenced_safe h (unwind_ k authority includeShared cs).
Proof.
  revert h. induction cs as [|c cs IH]; intros h; simpl; [done|].
  destruct (_ && _); [apply IH|]. eapply safe_bind_spec with (Q1 := fun _ _ => True).
  { destruct c, authority; unfold run_comp, write, held; fencing. }
  intros h1 err _. eapply safe_bind_spec; [apply IH|]. done.
Qed.

Lemma fail_fenced k snap authority actions step code cause h :
  fenced_safe h (fail k snap authority actions step code cause).
Proof. unfold fail, unwind. eapply safe_bind_spec; [apply unwind_fenced|]. done. Qed.
#[local] Hint Resolve fail_fenced unwind_fenced : fenced.
#[local] Opaque fail.

Lemma existing_fenced e k request h : fenced_safe h (existingResidency e k request).
Proof. unfold existingResidency. fencing. Qed.
#[local] Hint Resolve existing_fenced : fenced.

#[local] Transparent attach_report attach_publish attach_lost attach_install attach_launch attach_hydrate
  attach_lease attach_keyed.

Lemma attach_report_fenced m k request snap authority actions epoch g runtime journal h :
  fenced_safe h (attach_report m k request snap authority actions epoch g runtime journal).
Proof. unfold attach_report, observation, write, held. fencing. Qed.
#[local] Hint Resolve attach_report_fenced : fenced.
#[local] Opaque attach_report.

Lemma attach_publish_fenced m k request snap actions epoch g runtime journal h :
  fenced_safe h (attach_publish m k request snap actions epoch g runtime journal).
Proof. unfold attach_publish, observation, write, held. fencing. Qed.
#[local] Hint Resolve attach_publish_fenced : fenced.
#[local] Opaque attach_publish.

Lemma attach_lost_fenced k request actions e h : fenced_safe h (attach_lost k request actions e).
Proof.
  unfold attach_lost. intros u _. split; [done|]. simpl.
  eapply safe_bind_spec; [apply unwind_fenced|]. intros h1 un _.
  eapply safe_bind_spec; [apply existing_fenced|]. intros h2 r _. by repeat case_match.
Qed.
#[local] Hint Resolve attach_lost_fenced : fenced.
#[local] Opaque attach_lost.

Lemma attach_install_fenced m k request snap actions epoch runtime h :
  fenced_safe h (attach_install m k request snap actions epoch runtime).
Proof. unfold attach_install. fencing. Qed.
#[local] Hint Resolve attach_install_fenced : fenced.
#[local] Opaque attach_install.

Lemma validateRequest_fenced m k request h : fenced_safe h (validateRequest m k request).
Proof. unfold validateRequest, refuseForeignSession. fencing. Qed.
Lemma resolveTarget_fenced m k request h : fenced_safe h (resolveTarget m k request).
Proof. unfold resolveTarget. fencing. Qed.
Lemma attachedResidency_fenced k h : fenced_safe h (attachedResidency k).
Proof. unfold attachedResidency. fencing. Qed.

(** What the launch target answered, once and for the whole attach. *)
Record snapped m request snap (h : list O) : Prop := {
  sn_target : mg_targets m !! r_AgentID request = Some (target snap);
  sn_compat : Obs (MCompatibilityID (target snap)) (compatibility snap) ∈ h;
  sn_caps : Obs (MCapabilities (target snap)) (capabilities snap) ∈ h
}.

(** The session's state was loaded under the session's own lease, before anything was
    given back. *)
Definition loaded_leased k st (h : list O) : Prop :=
  ∃ before after, h = before ++ Obs (MLoadState k) (Ok st) :: after ∧ HoldLease ∈ takes before ∧ gives before = [].

Lemma loaded_leased_app k st h t : loaded_leased k st h → loaded_leased k st (h ++ t).
Proof. intros (t1 & t2 & -> & H). exists t1, (t2 ++ t). split; [by rewrite <-app_assoc|done]. Qed.

(** What must have happened before the runtime is launched. *)
Record launchable m request (h : list O) (create : bool) (l : Launch) : Prop := {
  lc_once : Forall (fun o => launch_of o = None) h;
  lc_held : [HoldAdmission; HoldContext; HoldLease] ⊆ takes h ∧ gives h = [];
  lc_draining : last h = Some (Obs MDraining false);
  lc_state : ∃ snap st, snapped m request snap h ∧ loaded_leased (la_Key l) st h ∧
    la_Namespace l = Namespace st ∧ Namespace st ≠ "" ∧ la_RigSessionID l = RigSessionID st ∧
    (Exists_ st = true → st_CompatibilityID st = compatibility snap) ∧
    if create
    then r_Mode request = ModeCreate ∧ (RigSessionID st = None ∨ st_RuntimeJournal st = RuntimeJournalAbsent)
    else (Department.RequiresCheckpoint (capabilities snap) = true → HasCheckpoint st = true) ∧
      (r_Mode request = ModeRestore ∧ Exists_ st = true ∨
       r_Mode request = ModeCreate ∧ RigSessionID st ≠ None ∧ st_RuntimeJournal st = RuntimeJournalPresent)
}.

Definition lawful m request (t : list O) (o : O) : Prop :=
  fenced_write t o ∧ ∀ create l, launch_of o = Some (create, l) → launchable m request t create l.

Abbreviation lawfully m request := (safe any_env (lawful m request) (fun _ _ => True)).

Lemma inert_lawful {A} m request h (p : P A) : fenced_safe h p → lawfully m request h p.
Proof. apply safe_weaken. intros h' o [H1 H2]. split; [done|]. intros create l. by rewrite H2. Qed.

(** The history of an attach that has not launched yet. *)
Record preparing m request snap (actions : list compensation) (h : list O) : Prop := {
  pr_holding : holding false actions h;
  pr_snapped : snapped m request snap h;
  pr_unlaunched : Forall (fun o => launch_of o = None) h
}.

Lemma snapped_app m request snap h t : snapped m request snap h → snapped m request snap (h ++ t).
Proof. intros [H1 H2 H3]. split; [done|..]; apply elem_of_app; by left. Qed.

Lemma preparing_quiet m request snap actions h X (e : ME Rt Tgt X) x :
  preparing m request snap actions h → take_of (Obs e x) = None → give_of (Obs e x) = None →
  launch_of (Obs e x) = None → preparing m request snap actions (h ++ [Obs e x]).
Proof.
  intros [H1 H2 H3] Ht Hg Hl. split; [by apply holding_call|by apply snapped_app|].
  apply Forall_app. split; [done|]. by constructor.
Qed.

Lemma preparing_take m request snap actions c h X (e : ME Rt Tgt X) x :
  preparing m request snap actions h → takes [Obs e x] = [hold_of c] → give_of (Obs e x) = None →
  launch_of (Obs e x) = None → (c = CompRefusedLease false → False) →
  preparing m request snap (actions ++ [c]) (h ++ [Obs e x]).
Proof.
  intros [H1 H2 H3] Ht Hg Hl Hc. split; [|by apply snapped_app|apply Forall_app; split; [done|by constructor]].
  apply (holding_take false); [done|done| |done|intros ?; by destruct Hc].
  change (match give_of (Obs e x) with Some y => [y] | None => [] end = []). by rewrite Hg.
Qed.

(** A call of no consequence for either law. *)
Lemma lawful_other m request h (o : O) : is_location_write o = false → launch_of o = None → lawful m request h o.
Proof. intros H1 H2. split; [by intros H; rewrite H1 in H|]. intros create l. by rewrite H2. Qed.

(** [launch_mode] decides as [launchable] asks. *)
Lemma launch_mode_spec request snap st launch :
  launch_mode request snap st = inr launch → r_Mode request = ModeCreate ∨ r_Mode request = ModeRestore →
  Namespace st ≠ "" ∧ (Exists_ st = true → st_CompatibilityID st = compatibility snap) ∧
  if bool_decide (launch = ModeCreate)
  then r_Mode request = ModeCreate ∧ (RigSessionID st = None ∨ st_RuntimeJournal st = RuntimeJournalAbsent)
  else (Department.RequiresCheckpoint (capabilities snap) = true → HasCheckpoint st = true) ∧
    (r_Mode request = ModeRestore ∧ Exists_ st = true ∨
     r_Mode request = ModeCreate ∧ RigSessionID st ≠ None ∧ st_RuntimeJournal st = RuntimeJournalPresent).
Proof.
  unfold launch_mode. case_bool_decide as Hn; [done|].
  destruct (Exists_ st) eqn:Hex; simpl.
  - case_bool_decide as Hc; [done|]. intros H Hm. split; [done|]. split; [done|]. revert H.
    destruct Hm as [Hm|Hm]; rewrite Hm; simpl.
    + case_bool_decide as Hr; simpl; [|intros [= <-]; simpl; rewrite ?Hr; eauto].
      destruct (st_RuntimeJournal st) eqn:Hj; try done; [intros [= <-]; simpl; auto|].
      destruct (Department.RequiresCheckpoint _) eqn:Hq, (HasCheckpoint st) eqn:Hk; simpl; intros [= <-]; simpl; auto.
    + destruct (Department.RequiresCheckpoint _) eqn:Hq, (HasCheckpoint st) eqn:Hk; simpl; intros [= <-]; simpl; auto.
  - intros H Hm. split; [done|]. split; [done|]. revert H. destruct Hm as [Hm|Hm]; rewrite Hm; simpl; [|done].
    case_bool_decide as Hr; simpl; [|intros [= <-]; simpl; rewrite ?Hr; eauto].
    destruct (st_RuntimeJournal st) eqn:Hj; try done; [intros [= <-]; simpl; auto|].
    destruct (Department.RequiresCheckpoint _) eqn:Hq, (HasCheckpoint st) eqn:Hk; simpl; intros [= <-]; simpl; auto.
Qed.

Lemma attach_launch_lawful m k request snap actions epoch state launch root h :
  preparing m request snap actions h → [HoldAdmission; HoldContext; HoldLease] ⊆ hold_of <$> actions →
  loaded_leased k state h → launch_mode request snap state = inr launch →
  r_Mode request = ModeCreate ∨ r_Mode request = ModeRestore →
  lawfully m request h (attach_launch m k request snap actions epoch state launch root).
Proof.
  intros Hp Hall Hst Hmode Hreq. unfold attach_launch. intros draining _. split; [by apply lawful_other|]. simpl.
  destruct draining; [apply inert_lawful, fail_fenced|].
  apply (preparing_quiet _ _ _ _ _ _ MDraining false) in Hp; [|done..].
  destruct (launch_mode_spec _ _ _ _ Hmode Hreq) as (Hn & Hc & Hl).
  assert (∀ create restored, create = bool_decide (launch = ModeCreate) →
    launchable m request (h ++ [Obs MDraining false]) create
      (mkLaunch k (r_AgentID request) (HostOptions.Placement (mg_host m)) root (Namespace state) restored (RigSessionID state))) as Hla.
  { intros create restored ->. destruct Hp as [[H1 H2 _ _] H3 H4]. split; [done| |by apply last_snoc|].
    - split; [by rewrite H1|done].
    - exists snap, state. simpl. split; [done|]. split; [by apply loaded_leased_app|]. done. }
  case_bool_decide; intros launched _; (split; [split; [done|]|]);
    try (intros create l [= <- <-]; by apply Hla).
  all: simpl; destruct launched as [[runtime|]|e]; [|apply inert_lawful, fail_fenced..].
  all: apply inert_lawful, attach_install_fenced.
Qed.

#[local] Opaque attach_launch.

Lemma attach_hydrate_lawful m k request snap actions epoch h :
  preparing m request snap actions h → [HoldAdmission; HoldContext; HoldLease] ⊆ hold_of <$> actions →
  r_Mode request = ModeCreate ∨ r_Mode request = ModeRestore →
  lawfully m request h (attach_hydrate m k request snap actions epoch).
Proof.
  intros Hp Hall Hreq. unfold attach_hydrate. intros loaded _. split; [by apply lawful_other|]. simpl.
  pose proof Hp as [[Ht Hg _ _] _ _]. apply (preparing_quiet _ _ _ _ _ _ (MLoadState k) loaded) in Hp; [|done..].
  destruct loaded as [state|e]; [|destruct (errors_is _ _); apply inert_lawful, fail_fenced].
  destruct (launch_mode request snap state) as [code|launch] eqn:Hmode; [apply inert_lawful, fail_fenced|].
  assert (loaded_leased k state (h ++ [Obs (MLoadState k) (Ok state)])) as Hst.
  { exists h, []. split; [done|]. split; [rewrite Ht; set_solver|done]. }
  destruct (Department.RequiresWorkspace _); [|by eapply attach_launch_lawful].
  intros [root|e] _; (split; [by apply lawful_other|]); simpl; [|apply inert_lawful, fail_fenced].
  eapply attach_launch_lawful; [by apply preparing_take|rewrite fmap_app; simpl; set_solver| |done..].
  by apply loaded_leased_app.
Qed.

#[local] Opaque attach_hydrate.

Lemma attach_lease_lawful m k request snap h :
  preparing m request snap [CompAdmission; CompContext] h →
  r_Mode request = ModeCreate ∨ r_Mode request = ModeRestore →
  lawfully m request h (attach_lease m k request snap [CompAdmission; CompContext]).
Proof.
  intros Hp Hreq. unfold attach_lease. intros [| |e] _; (split; [by apply lawful_other|]); simpl.
  - apply (preparing_take _ _ _ _ CompLease _ _ (MAcquireLease k) LeaseGranted) in Hp; [|done..].
    intros epoch _. split; [by apply lawful_other|].
    apply (preparing_quiet _ _ _ _ _ _ MLeaseEpoch epoch) in Hp; [|done..].
    destruct (epoch =? 0)%Z; [apply inert_lawful, fail_fenced|]. apply attach_hydrate_lawful; [done|simpl; set_solver|done].
  - apply inert_lawful, fail_fenced.
  - apply inert_lawful, fail_fenced.
Qed.

#[local] Opaque attach_lease.

Lemma attach_lawful m k request snap h :
  takes h = [] → gives h = [] → Forall (fun o => launch_of o = None) h → snapped m request snap h →
  r_Mode request = ModeCreate ∨ r_Mode request = ModeRestore →
  lawfully m request h (attach m k request snap).
Proof.
  intros Ht Hg Hl Hs Hreq. unfold attach. case_match; [done|].
  intros [e|] _; (split; [by apply lawful_other|]); simpl; [done|].
  intros u _. split; [by apply lawful_other|]. intros v _. split; [by apply lawful_other|].
  eapply safe_bind_spec with (Q1 := fun _ _ => True).
  2:{ intros h' r _ w _. split; [by apply lawful_other|done]. }
  apply attach_lease_lawful; [|done]. apply preparing_quiet; [|done..].
  apply (preparing_take _ _ _ [CompAdmission] CompContext); [|done..].
  apply (preparing_take _ _ _ [] CompAdmission); [|done..].
  split; [|done..]. split; [by rewrite Ht|done|done|by intros ?%elem_of_nil].
Qed.

#[local] Opaque attach.

(** What the programs before [attach] leave. *)
Definition unlaunched (h : list O) : Prop := takes h = [] ∧ gives h = [] ∧ Forall (fun o => launch_of o = None) h.

Lemma unlaunched_call h X (e : ME Rt Tgt X) x :
  unlaunched h → take_of (Obs e x) = None → give_of (Obs e x) = None → launch_of (Obs e x) = None →
  unlaunched (h ++ [Obs e x]).
Proof.
  intros (H1 & H2 & H3) Ht Hg Hl. unfold unlaunched. rewrite takes_app, gives_app, H1, H2, Forall_app.
  split_and!; [|..|done|by constructor].
  - change (match take_of (Obs e x) with Some y => [y] | None => [] end = []). by rewrite Ht.
  - change (match give_of (Obs e x) with Some y => [y] | None => [] end = []). by rewrite Hg.
Qed.

(** One of their calls. *)
Ltac other_call x := intros x _; (split; [by apply lawful_other|]); simpl.

Lemma attachedResidency_lawful m request k h :
  unlaunched h → safe any_env (lawful m request) (fun h' _ => unlaunched h') h (attachedResidency k).
Proof.
  intros Hh. unfold attachedResidency. other_call known.
  apply (unlaunched_call _ _ (MSession k) known) in Hh; [|done..].
  destruct known; [|done]. other_call entry. by apply unlaunched_call.
Qed.

Lemma resolveTarget_lawful m request k h :
  unlaunched h →
  safe any_env (lawful m request) (fun h' r => unlaunched h' ∧ ∀ snap, r = inr snap →
    snapped m request snap h' ∧ compat_refused (compatibility snap) = false) h (resolveTarget m k request).
Proof.
  intros Hh. unfold resolveTarget. destruct (mg_targets m !! r_AgentID request) as [tg|] eqn:Htg; [|done].
  other_call build. apply (unlaunched_call _ _ (MCompatibilityID tg) build) in Hh; [|done..].
  other_call caps. apply (unlaunched_call _ _ (MCapabilities tg) caps) in Hh; [|done..].
  split; [done|]. intros snap. destruct (compat_refused build) eqn:Hc; [done|].
  case_bool_decide; [done|]. intros [= <-]. split; [|done]. split; simpl; [done|set_solver|set_solver].
Qed.

Lemma validateRequest_lawful m request k h :
  unlaunched h →
  safe any_env (lawful m request) (fun h' r => unlaunched h' ∧
    (r = None → r_Mode request = ModeCreate ∨ r_Mode request = ModeRestore)) h (validateRequest m k request).
Proof.
  intros Hh. unfold validateRequest.
  destruct (tenant_valid _); simpl; [|done]. destruct (session_valid _); simpl; [|done].
  destruct (bool_decide (HostOptions.FixedSessionID _ ≠ "") && _).
  { unfold refuseForeignSession. destruct (mg_targets m !! _) as [tg|]; [|done]. other_call build.
    split; [by apply unlaunched_call|done]. }
  destruct (agent_valid _); simpl; [|done].
  destruct (r_Mode request); [| |done]; (destruct (principal_refused _ _); simpl; [done|]);
    (destruct (mg_targets m !! _); simpl; split; auto; done).
Qed.

Lemma attach_keyed_lawful m k request h :
  unlaunched h → r_Mode request = ModeCreate ∨ r_Mode request = ModeRestore →
  lawfully m request h (attach_keyed m k request).
Proof.
  intros Hh Hreq. unfold attach_keyed. eapply safe_bind_spec; [by apply attachedResidency_lawful|].
  intros h1 [e|] H1; [apply inert_lawful, existing_fenced|].
  eapply safe_bind_spec; [by apply resolveTarget_lawful|]. intros h2 [e|snap] [(H2 & H3 & H4) Hs]; [done|].
  apply attach_lawful; [done..|by apply Hs|done].
Qed.

#[local] Opaque attach_keyed.

Lemma Attach_lawful m request : lawfully m request [] (Attach m request).
Proof.
  unfold Attach. eapply safe_bind_spec; [by apply validateRequest_lawful; repeat constructor|].
  intros h1 [e|] [H1 Hmode]; [done|]. specialize (Hmode eq_refl).
  eapply safe_bind_spec; [by apply attachedResidency_lawful|].
  intros h2 [e|] H2; [apply inert_lawful, existing_fenced|].
  other_call u. eapply safe_bind_spec; [apply attach_keyed_lawful; [by apply unlaunched_call|done]|].
  intros h3 r _. other_call w. done.
Qed.

(** Every write of the durable location an attach makes, on the way in or on the
    way back, is made right after its fence was found held: a Host whose grant is
    gone neither advertises the session nor removes its successor's route. *)
Theorem attach_writes_fenced m request t r (Hrun : runs (Attach m request) t r) t1 o t2
    (Ht : t = t1 ++ o :: t2) (Hw : is_location_write o = true) : just_held t1.
Proof.
  destruct (safe_runs_any _ _ _ _ _ (Attach_lawful m request) Hrun) as [_ HG].
  by apply (proj1 (HG _ _ _ Ht)).
Qed.

(** C3 A runtime is launched at most once by an attach, with the admission and the
    lease held and nothing given back, right after the Host was found not draining,
    for the build and the capabilities its target answered, and from a durable state
    of that build that this attach loaded once it held the session's lease.  It is
    created only by a create whose runtime session that load found without a journal,
    and restored only from an existing state, or by a create that found a journal, with
    a checkpoint where the target requires one.  The evidence is as old as the load: a
    Host that stalls inside the launch and loses its lease can still create over a
    conversation its successor began meanwhile, which no check of the Host's closes. *)
Theorem launch_authorized m request t r (Hrun : runs (Attach m request) t r) t1 o t2
    (Ht : t = t1 ++ o :: t2) create l (Hl : launch_of o = Some (create, l)) :
  Forall (fun o => launch_of o = None) t1 ∧
  [HoldAdmission; HoldContext; HoldLease] ⊆ takes t1 ∧ gives t1 = [] ∧
  last t1 = Some (Obs MDraining false) ∧
  ∃ snap st, snapped m request snap t1 ∧ loaded_leased (la_Key l) st t1 ∧
    la_Namespace l = Namespace st ∧ Namespace st ≠ "" ∧ la_RigSessionID l = RigSessionID st ∧
    (Exists_ st = true → st_CompatibilityID st = compatibility snap) ∧
    if create
    then r_Mode request = ModeCreate ∧ (RigSessionID st = None ∨ st_RuntimeJournal st = RuntimeJournalAbsent)
    else (Department.RequiresCheckpoint (capabilities snap) = true → HasCheckpoint st = true) ∧
      (r_Mode request = ModeRestore ∧ Exists_ st = true ∨
       r_Mode request = ModeCreate ∧ RigSessionID st ≠ None ∧ st_RuntimeJournal st = RuntimeJournalPresent).
Proof.
  destruct (safe_runs_any _ _ _ _ _ (Attach_lawful m request) Hrun) as [_ HG].
  destruct (proj2 (HG _ _ _ Ht) _ _ Hl) as [H1 [H2 H3] H4 H5]. done.
Qed.

(** ** A refusal of the runtime names a build *)

(** The registry answered with [e]. *)
Definition answered (e : Entry) (h : list O) : Prop :=
  ∃ k, Obs (MGet k) (Some e) ∈ h ∨ ∃ a, Obs (MInsert k a) (e, false) ∈ h.

Definition named (h : list O) (err : AttachError) : Prop :=
  ae_Code err = HostLinkErrorRuntimeMismatch →
  compat_refused (ae_RuntimeCompatibilityID err) = false ∨
  ∃ e, answered e h ∧ ae_RuntimeCompatibilityID err = Registry.CompatibilityID e.

Definition result_named (h : list O) (r : AttachError + Residency Rt) : Prop :=
  match r with inl err => named h err | inr _ => True end.

Abbreviation naming := (safe any_env (fun _ _ => True) result_named).

Lemma answered_app e h t : answered e h → answered e (h ++ t).
Proof. intros [k [H|[a H]]]; exists k; [left|right; exists a]; apply elem_of_app; by left. Qed.

Lemma named_app h t r : result_named h r → result_named (h ++ t) r.
Proof.
  destruct r as [err|]; [|done]. intros H Hc. destruct (H Hc) as [?|(e & He & ?)]; [by left|].
  right. exists e. split; [by apply answered_app|done].
Qed.

Section naming.
Context (snap : snapshotTarget Tgt) (Hsnap : compat_refused (compatibility snap) = false).

#[local] Transparent fail attach_lost.

Lemma fail_naming k authority actions step code cause h : naming h (fail k snap authority actions step code cause).
Proof.
  apply safe_of_runs. intros t r (t1 & t2 & un & -> & _ & H)%runs_bind. destruct H as [_ ->].
  intros Hc. left. simpl in *. unfold mismatchBuild. by rewrite bool_decide_eq_true_2.
Qed.

#[local] Opaque fail.

Lemma existing_naming e k request h : answered e h → naming h (existingResidency e k request).
Proof.
  intros He. unfold existingResidency.
  destruct (Registry.TeardownOwned e); [done|].
  destruct (bool_decide (Registry.AgentID e ≠ _)); [right; eauto|].
  destruct (bool_decide (_ ≠ "") && _); [right; eauto|]. done.
Qed.

Lemma attach_lost_naming k request actions e h : answered e h → naming h (attach_lost k request actions e).
Proof.
  intros He. apply safe_of_runs. intros t r H. unfold attach_lost in H. destruct H as (owned & t1 & -> & H). simpl in H.
  apply runs_bind in H as (t2 & t3 & un & -> & _ & H).
  apply runs_bind in H as (t4 & t5 & existing & -> & Hex & H).
  assert (result_named h existing) as Hn.
  { unfold existingResidency in Hex. revert Hex.
    destruct (Registry.TeardownOwned e); [by intros [_ ->]|].
    destruct (bool_decide (Registry.AgentID e ≠ _)); [intros [_ ->]; right; eauto|].
    destruct (bool_decide (_ ≠ "") && _); [intros [_ ->]; right; eauto|].
    intros (x & t' & _ & _ & ->). done. }
  destruct existing as [err|rs]; simpl in H.
  - destruct H as [_ ->]. simpl. intros Hc. destruct (Hn Hc) as [?|(e' & He' & ?)]; [by left|].
    right. exists e'. split; [by apply answered_app|done].
  - case_bool_decide; simpl in H; destruct H as [_ ->]; done.
Qed.

Ltac name_call x := intros x _; (split; [exact I|]); simpl.

#[local] Transparent attach_report attach_publish attach_install attach_launch attach_hydrate attach_lease.

#[local] Opaque observation write.

Lemma attach_report_naming m k request authority actions epoch g runtime journal h :
  naming h (attach_report m k request snap authority actions epoch g runtime journal).
Proof.
  unfold attach_report. name_call live. destruct live as [e|]; [|apply fail_naming].
  case_bool_decide; [apply fail_naming|].
  eapply safe_bind_spec with (Q1 := fun _ _ => True); [by apply safe_of_runs|]. intros h3 acc _.
  eapply safe_bind_spec with (Q1 := fun _ _ => True); [by apply safe_of_runs|]. intros h4 o2 _.
  eapply safe_bind_spec with (Q1 := fun _ _ => True); [by apply safe_of_runs|].
  intros h5 [e'|] _; [apply fail_naming|]. by name_call u.
Qed.

#[local] Opaque attach_report.

Lemma attach_publish_naming m k request actions epoch g runtime journal h :
  naming h (attach_publish m k request snap actions epoch g runtime journal).
Proof.
  unfold attach_publish. eapply safe_bind_spec with (Q1 := fun _ _ => True); [by apply safe_of_runs|].
  intros h1 o _. eapply safe_bind_spec with (Q1 := fun _ _ => True); [by apply safe_of_runs|].
  intros h2 [e|] _; [apply fail_naming|]. name_call begun.
  destruct begun as [authority| |e]; [apply attach_report_naming|apply fail_naming..].
Qed.

#[local] Opaque attach_publish attach_lost.

Lemma attach_install_naming m k request actions epoch runtime h :
  naming h (attach_install m k request snap actions epoch runtime).
Proof.
  unfold attach_install. name_call session.
  eapply safe_bind_spec with (Q1 := fun _ _ => True); [by apply safe_of_runs|]. intros h1 [] _; [apply fail_naming|].
  name_call stopped. destruct stopped; [apply fail_naming|]. name_call journal. intros [e won] _. split; [exact I|].
  destruct won; simpl.
  - name_call owned. destruct owned; simpl; [apply attach_publish_naming|apply fail_naming].
  - apply attach_lost_naming. exists k. right. eexists. apply elem_of_app. right. by left.
Qed.

#[local] Opaque attach_install.

Lemma attach_launch_naming m k request actions epoch state launch root h :
  naming h (attach_launch m k request snap actions epoch state launch root).
Proof.
  unfold attach_launch. name_call draining. destruct draining; [apply fail_naming|].
  case_bool_decide; name_call launched;
    (destruct launched as [[runtime|]|e]; [apply attach_install_naming|apply fail_naming..]).
Qed.

#[local] Opaque attach_launch.

Lemma attach_lease_naming m k request actions h : naming h (attach_lease m k request snap actions).
Proof.
  unfold attach_lease. intros [| |e] _; (split; [exact I|]); simpl; [|apply fail_naming..].
  name_call epoch. destruct (epoch =? 0)%Z; [apply fail_naming|].
  unfold attach_hydrate. intros [state|e] _; (split; [exact I|]); simpl; [|destruct (errors_is _ _); apply fail_naming].
  destruct (launch_mode request snap state); [apply fail_naming|].
  destruct (Department.RequiresWorkspace _); [|apply attach_launch_naming].
  intros [root|e] _; (split; [exact I|]); simpl; [apply attach_launch_naming|apply fail_naming].
Qed.

#[local] Opaque attach_lease.
#[local] Transparent attach.

Lemma attach_naming m k request h : naming h (attach m k request snap).
Proof.
  unfold attach.
  destruct (bool_decide (r_CompatibilityID request ≠ "") && _); [simpl; intros _; by left|].
  intros [e|] _; (split; [exact I|]); simpl.
  { intros Hc. left. simpl in *. unfold mismatchBuild. by rewrite Hc. }
  name_call u. name_call v. eapply safe_bind_spec with (Q1 := result_named).
  2:{ intros h' r Hr w _. split; [exact I|]. simpl. by apply named_app. }
  apply attach_lease_naming.
Qed.
End naming.

#[local] Transparent attach_keyed.
#[local] Opaque attach.

Lemma validateRequest_naming m request k h :
  safe any_env (fun _ _ => True) (fun h' r => ∀ e, r = Some e → named h' e) h (validateRequest m k request).
Proof.
  unfold validateRequest. destruct (negb (tenant_valid _)); [by intros ? [= <-]|].
  destruct (negb (session_valid _)); [by intros ? [= <-]|].
  destruct (bool_decide (HostOptions.FixedSessionID _ ≠ "") && _).
  { unfold refuseForeignSession. destruct (mg_targets m !! _) as [tg|]; [|by intros ? [= <-]].
    intros build _. split; [exact I|]. intros e [= <-].
    destruct (compat_refused build) eqn:Hc; [done|]. intros _. by left. }
  destruct (negb (agent_valid _)); [by intros ? [= <-]|].
  destruct (r_Mode request); [| |by intros ? [= <-]]; (destruct (principal_refused _ _); [by intros ? [= <-]|]);
    (destruct (mg_targets m !! _); [done|by intros ? [= <-]]).
Qed.

Lemma attachedResidency_answered k h :
  safe any_env (fun _ _ => True) (fun h' r => ∀ e, r = Some e → answered e h') h (attachedResidency k).
Proof.
  unfold attachedResidency. intros known _. split; [exact I|]. destruct known as [g|]; [|done].
  intros entry _. split; [exact I|]. intros e. simpl. destruct entry as [e'|]; [|done].
  case_bool_decide; [done|]. intros [= ->]. exists k. left. apply elem_of_app. right. by left.
Qed.

Lemma resolveTarget_naming m request k h :
  safe any_env (fun _ _ => True) (fun h' r =>
    match r with inl e => named h' e | inr snap => compat_refused (compatibility snap) = false end) h
    (resolveTarget m k request).
Proof.
  unfold resolveTarget. destruct (mg_targets m !! r_AgentID request) as [tg|]; [|done].
  intros build _. split; [exact I|]. intros caps _. split; [exact I|]. simpl.
  destruct (compat_refused build) eqn:Hc; [done|]. by case_bool_decide.
Qed.

Lemma attach_keyed_naming m k request h : naming h (attach_keyed m k request).
Proof.
  unfold attach_keyed. eapply safe_bind_spec; [apply attachedResidency_answered|].
  intros h3 [e|] H3; [by apply existing_naming, H3|].
  eapply safe_bind_spec; [apply resolveTarget_naming|]. intros h4 [e|snap] H4; [done|by apply attach_naming].
Qed.

#[local] Opaque attach_keyed.

Lemma Attach_naming m request : naming [] (Attach m request).
Proof.
  unfold Attach. eapply safe_bind_spec; [apply validateRequest_naming|].
  intros h1 [e|] H1; [by apply (H1 e)|].
  eapply safe_bind_spec; [apply attachedResidency_answered|].
  intros h2 [e|] H2; [by apply existing_naming, H2|].
  intros u _. split; [exact I|]. simpl. eapply safe_bind_spec; [apply attach_keyed_naming|].
  intros h' r Hr w _. split; [exact I|]. by apply named_app.
Qed.

(** A refusal for running another build always names one: the validated build of
    the target this Host launches, or the build the registry answered the session is
    resident on, so the caller can be told which build it disagrees with. *)
Theorem attach_mismatch_named m request t err (Hrun : runs (Attach m request) t (inl err))
    (Hc : ae_Code err = HostLinkErrorRuntimeMismatch) :
  Department.CompatibilityID_Validate MaxIDBytes (ae_RuntimeCompatibilityID err) = None ∨
  ∃ e, answered e t ∧ ae_RuntimeCompatibilityID err = Registry.CompatibilityID e.
Proof.
  destruct (safe_runs_any _ _ _ _ _ (Attach_naming m request) Hrun) as [Hn _].
  destruct (Hn Hc) as [H|?]; [left|by right]. unfold compat_refused in H.
  apply bool_decide_eq_false in H. by destruct (Department.CompatibilityID_Validate _ _); [destruct H|].
Qed.
End manager.

(** ** Witnesses *)

Definition sample_key : Key := mkKey "t" "s".
Definition sample_manager : Manager string := mkManager HostOptions.sample_options 1 {[ "agent" := "target" ]}.
Definition sample_request : Request :=
  mkRequest "t" "s" "agent" ModeCreate "" (mkPrincipal "t" "actor" "").

Definition sample_caps : Department.Capabilities :=
  Department.mkCapabilities true true true false 1 Department.CaptureSafetyStreaming (Department.mkRecovery true true).

Definition sample_entry (k : Key) (a : Registry.Admission nat string) : Registry.Entry nat string :=
  Registry.mkEntry k (Registry.aAgentID a) (Registry.aTarget a) (Registry.aCompatibilityID a) (Registry.aRuntime a)
    (Registry.aLeaseEpoch a) 5 Registry.StateResident true 0 false.

(** An environment whose targets run [build] and whose ownership answers [own]. *)
Definition sample_env (build : string) (own : OwnershipAnswer) : handler (ME nat string) unit := fun X e u =>
  match e in ME _ _ X return X * unit with
  | MSession _ => (None, u) | MAcquireKey _ | MReleaseKey _ => (tt, u) | MGet k =>
      (Some (sample_entry k (Registry.mkAdmission "agent" "target" build 7%nat 4)), u)
  | MCompatibilityID _ => (build, u) | MCapabilities _ => (sample_caps, u)
  | MAdmit _ _ => (None, u) | MReleaseAdmission _ => (true, u) | MOwn _ _ => (true, u) | MDraining => (false, u)
  | MNewContext _ | MCancelSession | MPend _ | MForgetPending _ => (tt, u)
  | MAcquireLease _ => (LeaseGranted, u) | MLeaseEpoch => (4%Z, u) | MLeaseRelease => (None, u)
  | MLeaseCleanup => (None, u)
  | MLoadState _ => (Ok (mkState true "ns" "v1" (Some "rig") RuntimeJournalAbsent false 0), u)
  | MEnsureWorkspace _ => (Ok "/work", u) | MReleaseWorkspace _ => (Some (EForeign "busy"), u)
  | MCreate _ _ | MRestore _ _ => (Ok (Some 7%nat), u)
  | MRuntimeSession _ => ("s", u) | MRuntimeAgent _ => ("agent", u) | MRuntimeDone _ => (false, u)
  | MRuntimeLeaseEpoch _ => ((9%Z, true), u) | MReleaseRuntime _ => (None, u)
  | MInsert k a => ((sample_entry k a, true), u) | MRemoveByGeneration _ _ => (true, u) | MNow => (100%Z, u)
  | MPublishResidency _ => (None, u) | MTombstoneResidency _ _ => (None, u)
  | MBeginOwnership _ => (own, u) | MStopOwnership => (None, u) | MAuthority _ => (None, u)
  | MInstallSession _ _ => (tt, u) | MEndedBy => (None, u) | MLeaseLost => (false, u) | MEnd _ => (tt, u)
  end.

Definition sample_attach (build : string) (own : OwnershipAnswer) :=
  exec (sample_env build own)
    (Attach 255 (fun _ => true) (fun _ => true) (fun _ => true) sample_manager sample_request) tt.

(** An attach whose ownership is refused, with a workspace that cannot be released. *)
Definition sample_failed := sample_attach "v1" (OwnershipRefused (EForeign "refused")).
Definition sample_failed_trace : list (obs (ME nat string)) := sample_failed.2.
Definition sample_error : AttachError :=
  match sample_failed.1.1 with inl e => e | inr _ => AttachErr StepValidate HostLinkErrorNone sample_key None "" end.

Lemma attach_gives_back_witness :
  (gives sample_failed_trace).*1 `sublist_of` reverse (takes sample_failed_trace) ∧
  ∀ x, x ∈ takes sample_failed_trace →
    (x, true) ∈ gives sample_failed_trace ∨ x ∈ ae_Unreleased sample_error ∨
    (x = HoldEntry ∧ seen delegated sample_failed_trace = true) ∨
    (x = HoldRefusedLease ∧ seen uncleanable sample_failed_trace = true) ∨
    (shared x = true ∧ seen lost sample_failed_trace = true).
Proof.
  apply (attach_gives_back 255 (fun _ => true) (fun _ => true) (fun _ => true) sample_manager sample_request
    sample_failed_trace (inl sample_error)).
  apply (exec_runs (sample_env "v1" (OwnershipRefused (EForeign "refused"))) _ tt _ tt). vm_compute. reflexivity.
Defined.

(** One that succeeds. *)
Definition sample_attached := sample_attach "v1" (OwnershipBegun true).

Lemma sample_attached_runs :
  runs (Attach 255 (fun _ => true) (fun _ => true) (fun _ => true) sample_manager sample_request)
    sample_attached.2 sample_attached.1.1.
Proof. apply (exec_runs (sample_env "v1" (OwnershipBegun true)) _ tt _ tt). vm_compute. reflexivity. Qed.

Definition is_launch (o : obs (ME nat string)) : bool := bool_decide (is_Some (launch_of o)).
Definition before {E : Type → Type} (f : obs E → bool) (t : list (obs E)) : list (obs E) :=
  (fix go t := match t with [] => [] | o :: t => if f o then [] else o :: go t end) t.

Lemma launch_authorized_witness :
  last (before is_launch sample_attached.2) = Some (Obs MDraining false) ∧
  gives (before is_launch sample_attached.2) = [].
Proof.
  destruct (launch_authorized 255 (fun _ => true) (fun _ => true) (fun _ => true) sample_manager sample_request
    sample_attached.2 sample_attached.1.1 sample_attached_runs (before is_launch sample_attached.2)
    (Obs (MCreate "target" (mkLaunch sample_key "agent" HostPlacementPooled "/work" "ns" None (Some "rig"))) (Ok (Some 7%nat)))
    (drop (S (length (before is_launch sample_attached.2))) sample_attached.2)
    ltac:(vm_compute; reflexivity) true _ ltac:(vm_compute; reflexivity)) as (_ & _ & H1 & H2 & _).
  split; [exact H2|exact H1].
Defined.

Lemma attach_writes_fenced_witness :
  just_held (before (is_location_write (Tgt := string)) sample_attached.2).
Proof.
  apply (attach_writes_fenced 255 (fun _ => true) (fun _ => true) (fun _ => true) sample_manager sample_request
    sample_attached.2 sample_attached.1.1 sample_attached_runs _
    (Obs (MPublishResidency (mkObservation "t" "s" "host-1" 1 "agent" "v1" HostPlacementPooled
       (HostOptions.InternalEndpoint HostOptions.sample_options) SessionResidencyAttaching false 4 100
       (100 + HostOptions.RegistryExpiry HostOptions.sample_options))) None)
    (drop (S (length (before (is_location_write (Tgt := string)) sample_attached.2))) sample_attached.2));
    vm_compute; reflexivity.
Defined.

(** A durable state written by another build. *)
Definition sample_mismatch := sample_attach "v2" (OwnershipBegun true).

Lemma attach_mismatch_named_witness :
  Department.CompatibilityID_Validate 255 "v2" = None ∨
  ∃ e : Registry.Entry nat string, answered e sample_mismatch.2 ∧ "v2"%string = Registry.CompatibilityID e.
Proof.
  apply (attach_mismatch_named 255 (fun _ => true) (fun _ => true) (fun _ => true) sample_manager sample_request
    sample_mismatch.2 (mkAttachError StepHydrate HostLinkErrorRuntimeMismatch sample_key None "v2" [] [])); [|reflexivity].
  apply (exec_runs (sample_env "v2" (OwnershipBegun true)) _ tt _ tt). vm_compute. reflexivity.
Defined.
End Manager.
