(* ===== verification/Residents.v ===== *)
(** * Residents.v: the manager's tables

    The tables [Manager] of [internal/residency/manager.go] guards with [mu]: the
    session records ([sessions] and [overtaken]), the attaches [CancelAttaches] can
    still reach ([pending]) and the attach each key is in ([attaching]).  Each
    operation is what one critical section does.                              *)
From Stdlib Require Import ZArith.
From stdpp Require Import base list strings gmap.
From S2P Require Import Prelude Wire.

Module Residents.

(** ** Session records *)

(** [sessionRecord]: its generation and the session context its [cancel] ends. *)
Record sessionRecord := mkRecord { generation : Z; ctx : nat }.

Record tables := mkTables {
  sessions : gmap Key sessionRecord;
  overtaken : gmap (Key * Z) sessionRecord
}.

Definition no_tables : tables := mkTables ∅ ∅.

Implicit Types (t : tables) (k : Key) (g : Z).

(** The end of [attach]: install the record, keeping an older one aside. *)
Definition install k g (c : nat) t : tables :=
  let aside := match sessions t !! k with
               | Some older => if bool_decide (generation older ≠ g)
                               then <[(k, generation older) := older]> (overtaken t) else overtaken t
               | None => overtaken t
               end in
  mkTables (<[k := mkRecord g c]> (sessions t)) aside.

(** [PruneResidency]: the context its answer cancels, if it held the record. *)
Definition PruneResidency k g t : option nat * tables :=
  let aside :=
    match overtaken t !! (k, g) with
    | Some r => (Some (ctx r), mkTables (sessions t) (delete (k, g) (overtaken t)))
    | None => (None, t)
    end in
  match sessions t !! k with
  | Some r => if bool_decide (generation r = g)
              then (Some (ctx r), mkTables (delete k (sessions t)) (overtaken t)) else aside
  | None => aside
  end.

(** [EndResidency]: whether it pruned, and the context it cancelled. *)
Definition EndResidency k g (runtimeReleased : bool) t : bool * option nat * tables :=
  let '(cancel, t) := PruneResidency k g t in
  (bool_decide (is_Some cancel), if runtimeReleased then cancel else None, t).

Definition SessionContext k t : option nat := ctx <$> sessions t !! k.
Definition Records t : nat := size (sessions t) + size (overtaken t).

Inductive op := OpInstall (k : Key) (g : Z) (c : nat) | OpPrune (k : Key) (g : Z).

Definition step t (o : op) : tables :=
  match o with OpInstall k g c => install k g c t | OpPrune k g => (PruneResidency k g t).2 end.

Definition run (os : list op) : tables := fold_left step os no_tables.

(** The residencies installed and not pruned, as a set of calls would have them. *)
Definition live_step (live : gmap (Key * Z) nat) (o : op) : gmap (Key * Z) nat :=
  match o with OpInstall k g c => <[(k, g) := c]> live | OpPrune k g => delete (k, g) live end.

Definition live (os : list op) : gmap (Key * Z) nat := fold_left live_step os ∅.

(** The record of one residency, wherever it is. *)
Definition find t k g : option nat :=
  match sessions t !! k with
  | Some r => if bool_decide (generation r = g) then Some (ctx r) else ctx <$> overtaken t !! (k, g)
  | None => ctx <$> overtaken t !! (k, g)
  end.

(** The tables hold each residency once. *)
Record wf t : Prop := {
  wf_aside : ∀ k g r, overtaken t !! (k, g) = Some r → generation r = g;
  wf_once : ∀ k r, sessions t !! k = Some r → overtaken t !! (k, generation r) = None
}.

Lemma find_install k g c t k' g' :
  find t k g = None → find (install k g c t) k' g' = if decide ((k', g') = (k, g)) then Some c else find t k' g'.
Proof.
  unfold find, install. simpl. intros Hn. destruct (decide (k' = k)) as [->|Hk].
  - rewrite lookup_insert_eq. simpl. case_bool_decide as Hg; [subst g'; by rewrite decide_True|].
    rewrite decide_False by congruence. destruct (sessions t !! k) as [older|]; [|done].
    case_bool_decide as Ho; [done|]. rewrite bool_decide_true by done.
    case_bool_decide as Ho'; [subst g'; by rewrite lookup_insert_eq|].
    by rewrite lookup_insert_ne by congruence.
  - rewrite lookup_insert_ne by done. rewrite decide_False by congruence.
    assert (∀ g0, (match sessions t !! k with
       | Some older => if bool_decide (generation older ≠ g) then <[(k, generation older):=older]> (overtaken t) else overtaken t
       | None => overtaken t end) !! (k', g0) = overtaken t !! (k', g0)) as ->; [|done].
    intros g0. repeat case_match; try done. by rewrite lookup_insert_ne by congruence.
Qed.

Lemma install_wf k g c t :
  wf t → find t k g = None → wf (install k g c t) ∧ Records (install k g c t) = S (Records t).
Proof.
  intros [Ha Ho] Hn. unfold find, install, Records in *. simpl in *.
  destruct (sessions t !! k) as [older|] eqn:Hk.
  - case_bool_decide as Hg; [done|]. rewrite bool_decide_true by done. split; [split; simpl|].
    + intros k' g' r. rewrite lookup_insert_Some. intros [[Heq ->]|[_ H]]; [by injection Heq|by eapply Ha].
    + intros k' r. rewrite lookup_insert_Some. intros [[-> <-]|[Hne H]]; simpl.
      * rewrite lookup_insert_ne by congruence. by destruct (overtaken t !! (k', g)).
      * rewrite lookup_insert_ne by congruence. by apply Ho.
    + rewrite map_size_insert_Some by (by rewrite Hk). rewrite map_size_insert_None by (by apply Ho). lia.
  - split; [split; simpl; [done|]|].
    + intros k' r. rewrite lookup_insert_Some. intros [[-> <-]|[Hne H]]; simpl; [|by apply Ho].
      by destruct (overtaken t !! (k', g)).
    + rewrite map_size_insert_None by done. lia.
Qed.

Lemma PruneResidency_find k g t : (PruneResidency k g t).1 = find t k g.
Proof. unfold PruneResidency, find. repeat case_match; simpl; done. Qed.

Lemma find_prune k g t k' g' :
  wf t → find (PruneResidency k g t).2 k' g' = if decide ((k', g') = (k, g)) then None else find t k' g'.
Proof.
  intros [Ha Ho]. unfold PruneResidency, find.
  destruct (sessions t !! k) as [r|] eqn:Hk.
  - case_bool_decide as Hg; simpl.
    + destruct (decide (k' = k)) as [->|Hne].
      * rewrite lookup_delete_eq, Hk. pose proof (Ho k r Hk) as Hn. rewrite Hg in Hn.
        case_decide as Hd; simplify_eq; [by rewrite Hn|]. by rewrite bool_decide_false by congruence.
      * rewrite lookup_delete_ne by done. by rewrite decide_False by congruence.
    + destruct (overtaken t !! (k, g)) as [o|] eqn:Hov; simpl.
      * case_decide as Hd; simplify_eq.
        -- rewrite Hk, bool_decide_false by done. by rewrite lookup_delete_eq.
        -- by rewrite lookup_delete_ne by congruence.
      * case_decide as Hd; simplify_eq; [|done]. rewrite Hk, bool_decide_false by done. by rewrite Hov.
  - destruct (overtaken t !! (k, g)) as [o|] eqn:Hov; simpl.
    + case_decide as Hd; simplify_eq.
      * by rewrite Hk, lookup_delete_eq.
      * by rewrite lookup_delete_ne by congruence.
    + case_decide as Hd; simplify_eq; [|done]. by rewrite Hk, Hov.
Qed.

Lemma prune_wf k g t :
  wf t → wf (PruneResidency k g t).2 ∧
  Records (PruneResidency k g t).2 + (if find t k g is Some _ then 1 else 0) = Records t.
Proof.
  intros Hwf. pose proof Hwf as [Ha Ho]. unfold PruneResidency, find, Records.
  assert (∀ o, overtaken t !! (k, g) = Some o →
    wf (mkTables (sessions t) (delete (k, g) (overtaken t))) ∧
    size (sessions t) + size (delete (k, g) (overtaken t)) + 1 = size (sessions t) + size (overtaken t)) as Hdel.
  { intros o Hov. split; [split; simpl|].
    - intros k' g' r [_ H]%lookup_delete_Some. by eapply Ha.
    - intros k' r H. apply lookup_delete_None. right. by apply Ho.
    - rewrite map_size_delete_Some by done. assert (size (overtaken t) ≠ 0).
      { intros H0%map_size_empty_inv. by rewrite H0, lookup_empty in Hov. } lia. }
  destruct (sessions t !! k) as [r|] eqn:Hk; [case_bool_decide as Hg|]; simpl.
  - split; [split; simpl; [done|]|].
    + intros k' r' [_ H]%lookup_delete_Some. by apply Ho.
    + rewrite map_size_delete_Some by done. assert (size (sessions t) ≠ 0).
      { intros H0%map_size_empty_inv. by rewrite H0, lookup_empty in Hk. } lia.
  - destruct (overtaken t !! (k, g)) as [o|] eqn:Hov; simpl; [by eapply Hdel|]. split; [done|lia].
  - destruct (overtaken t !! (k, g)) as [o|] eqn:Hov; simpl; [by eapply Hdel|]. split; [done|lia].
Qed.

(** The residencies a history installs, in order. *)
Definition installed (os : list op) : list (Key * Z) :=
  omap (fun o => match o with OpInstall k g _ => Some (k, g) | OpPrune _ _ => None end) os.

Lemma installed_app os1 os2 : installed (os1 ++ os2) = installed os1 ++ installed os2.
Proof. apply omap_app. Qed.

Record tracks (os : list op) (t : tables) : Prop := {
  tr_wf : wf t;
  tr_find : ∀ k g, find t k g = live os !! (k, g);
  tr_size : Records t = size (live os);
  tr_dom : ∀ k g, is_Some (live os !! (k, g)) → (k, g) ∈ installed os
}.

Lemma run_tracks os : NoDup (installed os) → tracks os (run os).
Proof.
  induction os as [|o os IH] using rev_ind.
  { intros _. split.
    - by split.
    - done.
    - done.
    - by intros k g [? ?]. }
  rewrite installed_app, NoDup_app. intros (Hnd & Hnew & _). destruct (IH Hnd) as [Hwf Hf Hs Hd].
  assert (run (os ++ [o]) = step (run os) o) as -> by (unfold run; by rewrite fold_left_app).
  assert (live (os ++ [o]) = live_step (live os) o) as Hlive by (unfold live; by rewrite fold_left_app).
  destruct o as [k g c|k g].
  - assert (find (run os) k g = None) as Hn.
    { rewrite Hf. destruct (live os !! (k, g)) eqn:Hl; [|done]. exfalso.
      eapply (Hnew (k, g)); [by apply Hd|by left]. }
    destruct (install_wf k g c _ Hwf Hn) as [Hwf' Hs']. split; [done|..]; rewrite ?Hlive; simpl.
    + intros k' g'. rewrite find_install by done. case_decide as He; simplify_eq; [by rewrite lookup_insert_eq|].
      by rewrite lookup_insert_ne by congruence.
    + rewrite Hs', Hs. rewrite map_size_insert_None; [done|]. by rewrite <-Hf.
    + intros k' g'. rewrite installed_app, elem_of_app. intros [x [[? _]|[_ Hx]]%lookup_insert_Some].
      * simplify_eq. right. by left.
      * left. apply Hd. eauto.
  - destruct (prune_wf k g _ Hwf) as [Hwf' Hs']. split; [done|..]; rewrite ?Hlive; simpl.
    + intros k' g'. rewrite find_prune by done. case_decide as He; simplify_eq; [by rewrite lookup_delete_eq|].
      by rewrite lookup_delete_ne by congruence.
    + rewrite Hf, Hs in Hs'. destruct (live os !! (k, g)) eqn:Hl.
      * rewrite map_size_delete_Some by done. simpl in Hs'. lia.
      * rewrite delete_id by done. lia.
    + intros k' g'. rewrite installed_app, elem_of_app. intros [x [_ Hx]%lookup_delete_Some]. left. apply Hd. eauto.
Qed.

(** No session record is lost or leaked: over every history that installs each
    residency once, as its registry generation makes sure of, the tables hold exactly
    the residencies installed and not pruned, an overtaken one included, and ending
    a residency answers that it did, and cancels its own session context when the
    runtime was released, exactly when it is one of them. *)
Theorem residents_exact os k g released (Hfresh : NoDup (installed os)) :
  find (run os) k g = live os !! (k, g) ∧
  Records (run os) = size (live os) ∧
  (EndResidency k g released (run os)).1 =
    (bool_decide (is_Some (live os !! (k, g))), if released then live os !! (k, g) else None) ∧
  find (EndResidency k g released (run os)).2 k g = None.
Proof.
  destruct (run_tracks os Hfresh) as [Hwf Hf Hs _]. split; [done|]. split; [done|].
  unfold EndResidency. pose proof (PruneResidency_find k g (run os)) as Hp.
  pose proof (find_prune k g (run os) k g Hwf) as Hg. rewrite decide_True in Hg by done.
  destruct (PruneResidency k g (run os)) as [cancel t']. simpl in *. rewrite Hp, Hf. done.
Qed.

(** ** Attaches a drain can still cancel

    A pending attach is the pointer of its session context, fresh for each attach. *)
Record attaches := mkAttaches { pending : gmap Key nat; cancelled : gset nat }.

Definition no_attaches : attaches := mkAttaches ∅ ∅.

Inductive attach_op :=
| APend (k : Key) (p : nat)
| ACommit (k : Key) (p : nat)
| ACancelAttaches
| AForget (k : Key) (p : nat)
| ACancel (p : nat).                  (* the session's own [cancel], or [Close] *)

(** [commit]'s answer. *)
Definition commits (a : attaches) k (p : nat) : bool :=
  bool_decide (pending a !! k = Some p) && bool_decide (p ∉ cancelled a).

(** [CancelAttaches] reaches [p]. *)
Definition sweeps (a : attaches) (p : nat) : bool := bool_decide (map_Exists (fun _ q => q = p) (pending a)).

(** [forgetPending]. *)
Definition attach_forget (a : attaches) k (p : nat) : attaches :=
  if bool_decide (pending a !! k = Some p) then mkAttaches (delete k (pending a)) (cancelled a) else a.

Definition attach_step (a : attaches) (o : attach_op) : attaches :=
  match o with
  | APend k p => mkAttaches (<[k := p]> (pending a)) (cancelled a)
  | ACommit k p => if commits a k p then mkAttaches (delete k (pending a)) (cancelled a) else a
  | ACancelAttaches => mkAttaches ∅ (cancelled a ∪ map_to_set (fun _ p => p) (pending a))
  | AForget k p => attach_forget a k p
  | ACancel p => mkAttaches (pending a) ({[p]} ∪ cancelled a)
  end.

Definition attach_run (os : list attach_op) : attaches := fold_left attach_step os no_attaches.

(** Whether the operation, in the state it finds, settles the attach [p]. *)
Definition settles (p : nat) (a : attaches) (o : attach_op) : bool :=
  match o with
  | ACommit k q => bool_decide (q = p) && commits a k q
  | ACancelAttaches => sweeps a p
  | _ => false
  end.

Fixpoint settlements (p : nat) (a : attaches) (os : list attach_op) : nat :=
  match os with
  | [] => 0
  | o :: os => (if settles p a o then 1 else 0) + settlements p (attach_step a o) os
  end.

Definition pended (os : list attach_op) : list nat :=
  omap (fun o => match o with APend _ p => Some p | _ => None end) os.

Lemma settlements_snoc p a os o :
  settlements p a (os ++ [o]) =
  settlements p a os + (if settles p (fold_left attach_step os a) o then 1 else 0).
Proof.
  revert a. induction os as [|o' os IH]; intros a; simpl; [lia|]. rewrite IH. lia.
Qed.

(** What a history leaves of the attach [p], which it settled [n] times. *)
Record attach_inv (p n : nat) (seen : bool) (a : attaches) : Prop := {
  ai_once : n ≤ 1;
  ai_new : seen = false → n = 0 ∧ ∀ k, pending a !! k ≠ Some p;
  ai_pending : ∀ k, pending a !! k = Some p → n = 0 ∧ ∀ k', pending a !! k' = Some p → k' = k
}.

(** A step that only takes pending attaches away. *)
Lemma attach_inv_shrink p n seen a a' :
  attach_inv p n seen a → (∀ k, pending a' !! k = Some p → pending a !! k = Some p) → attach_inv p n seen a'.
Proof.
  intros [H1 H2 H3] Hsub. split; [done| |].
  - intros Hs. destruct (H2 Hs). split; [done|]. intros k Hk. naive_solver.
  - intros k Hk. destruct (H3 k (Hsub k Hk)) as [? Hu]. split; [done|]. intros k' Hk'. by apply Hu, Hsub.
Qed.

(** A step that settles [p]. *)
Lemma attach_inv_settle p n seen a a' k :
  attach_inv p n seen a → pending a !! k = Some p → (∀ k', pending a' !! k' ≠ Some p) → attach_inv p (S n) seen a'.
Proof.
  intros [H1 H2 H3] Hk Hn. destruct (H3 k Hk) as [-> _]. split; [done| |].
  - intros Hs. destruct (H2 Hs) as [_ Hno]. by destruct (Hno k).
  - intros k' Hk'. by destruct (Hn k').
Qed.

Lemma attach_step_inv p n seen a o :
  attach_inv p n seen a →
  (∀ k, o = APend k p → seen = false) →
  attach_inv p (n + (if settles p a o then 1 else 0))
    (seen || match o with APend _ q => bool_decide (q = p) | _ => false end) (attach_step a o).
Proof.
  intros Hi Hfresh. destruct o as [k q|k q| |k q|q]; simpl; rewrite ?Nat.add_0_r, ?orb_false_r.
  - destruct Hi as [H1 H2 H3]. case_bool_decide as Hq.
    + subst q. destruct (H2 (Hfresh k eq_refl)) as [-> Hno]. rewrite orb_true_r. split; [lia|done|].
      intros k'. simpl. rewrite lookup_insert_Some. intros [[-> _]|[_ Hk']]; [|by destruct (Hno k')].
      split; [done|]. intros k0. simpl. rewrite lookup_insert_Some. intros [[-> _]|[_ H]]; [done|by destruct (Hno k0)].
    + rewrite orb_false_r. apply (attach_inv_shrink _ _ _ a); [done|]. intros k'. simpl.
      rewrite lookup_insert_Some. intros [[_ ?]|[_ ?]]; done.
  - unfold commits. destruct (bool_decide (q ∉ cancelled a)); rewrite ?andb_true_r, ?andb_false_r;
      [|by rewrite Nat.add_0_r].
    case_bool_decide as Hq; case_bool_decide as Hk; simpl; rewrite ?Nat.add_0_r; try done.
    + subst q. rewrite Nat.add_1_r. destruct Hi as [H1 H2 H3]. destruct (H3 k Hk) as [_ Hu].
      apply (attach_inv_settle _ _ _ a _ k); [by split|done|]. intros k'. simpl.
      rewrite lookup_delete_Some. intros [Hne Hk']. by apply Hne, eq_sym, Hu.
    + apply (attach_inv_shrink _ _ _ a); [done|]. intros k'. simpl. by rewrite lookup_delete_Some; intros [].
  - unfold sweeps. case_bool_decide as Hs.
    + destruct Hs as (k & q & Hk & ->). rewrite Nat.add_1_r. apply (attach_inv_settle _ _ _ a _ k); [done..|].
      intros k'. simpl. by rewrite lookup_empty.
    + rewrite Nat.add_0_r. apply (attach_inv_shrink _ _ _ a); [done|]. intros k'. simpl. by rewrite lookup_empty.
  - unfold attach_forget. case_bool_decide; [|done]. apply (attach_inv_shrink _ _ _ a); [done|]. intros k'. simpl.
    by rewrite lookup_delete_Some; intros [].
  - by apply (attach_inv_shrink _ _ _ a).
Qed.

Lemma attach_run_inv p os :
  NoDup (pended os) → attach_inv p (settlements p no_attaches os) (bool_decide (p ∈ pended os)) (attach_run os).
Proof.
  induction os as [|o os IH] using rev_ind.
  { intros _. unfold attach_run. split; simpl; [lia| |]; intros; [split; [done|intros k]|]; by rewrite ?lookup_empty in *. }
  assert (pended (os ++ [o]) = pended os ++ pended [o]) as Hp by apply omap_app.
  rewrite Hp, NoDup_app. intros (Hnd & Hnew & _).
  assert (attach_run (os ++ [o]) = attach_step (attach_run os) o) as -> by (unfold attach_run; by rewrite fold_left_app).
  rewrite settlements_snoc. fold (attach_run os).
  assert (bool_decide (p ∈ pended os ++ pended [o]) = bool_decide (p ∈ pended os) ||
    match o with APend _ q => bool_decide (q = p) | _ => false end) as ->.
  { destruct o as [k q|k q| |k q|q]; simpl; rewrite ?app_nil_r, ?orb_false_r; try done.
    rewrite <- bool_decide_or. apply bool_decide_ext. rewrite elem_of_app, list_elem_of_singleton. naive_solver. }
  apply attach_step_inv; [by apply IH|]. intros k ->. apply bool_decide_eq_false.
  intros Hin. apply (Hnew p Hin). by left.
Qed.

(** A drain and an attach agree on which of them has a session: every attach is
    settled at most once, either because its ownership committed it, after which no
    [CancelAttaches] reaches it, or because one reached it, after which it never
    commits. *)
Theorem attach_settled_once p os (Hfresh : NoDup (pended os)) : settlements p no_attaches os ≤ 1.
Proof. apply (ai_once _ _ _ _ (attach_run_inv p os Hfresh)). Qed.

(** ** Witnesses *)

Definition demo_key : Key := mkKey "tenant" "s1".

(** A successor attaches before the residency it overtook is pruned. *)
Definition demo_history : list op := [OpInstall demo_key 1 7; OpInstall demo_key 2 8].

Lemma residents_exact_witness :
  NoDup (installed demo_history) ∧
  EndResidency demo_key 1 true (run demo_history) =
    (true, Some 7, (EndResidency demo_key 1 true (run demo_history)).2) ∧
  Records (run demo_history) = 2.
Proof.
  assert (NoDup (installed demo_history)) as Hn by (apply (bool_decide_unpack _); vm_compute; done).
  destruct (residents_exact demo_history demo_key 1 true Hn) as (_ & Hr & He & _).
  split; [exact Hn|]. split; [|rewrite Hr; vm_compute; reflexivity].
  rewrite (surjective_pairing (EndResidency _ _ _ _)) at 1. rewrite He. vm_compute. reflexivity.
Defined.

(** A drain cancels the first attach, and the second commits under the same key. *)
Definition demo_attaches : list attach_op :=
  [APend demo_key 1; ACancelAttaches; ACommit demo_key 1; APend demo_key 2; ACommit demo_key 2; ACancelAttaches].

Lemma attach_settled_once_witness :
  NoDup (pended demo_attaches) ∧ settlements 1 no_attaches demo_attaches ≤ 1 ∧
  settlements 1 no_attaches demo_attaches = 1 ∧ settlements 2 no_attaches demo_attaches = 1.
Proof.
  assert (NoDup (pended demo_attaches)) as Hn by (apply (bool_decide_unpack _); vm_compute; done).
  split; [exact Hn|]. split; [apply (attach_settled_once 1 demo_attaches Hn)|].
  split; vm_compute; reflexivity.
Defined.
End Residents.
