(* ===== verification/AttachKey.v ===== *)
(** * AttachKey.v: one attach of a session at a time

    [acquireKey] of [internal/residency/manager.go] and the release it returns, as
    a step relation over the goroutines attaching through one [Manager]: [attaching]
    maps a key to the channel of the attach that holds it, and a goroutine that
    finds one parks on it until it is closed.  A channel is the number [make] gave
    it; a step is what one critical section, one receive or one close does.       *)
From Stdlib Require Import ZArith.
From stdpp Require Import base list strings gmap relations.
From S2P Require Import Prelude Wire.

Module AttachKey.

(** Where a goroutine is: not in [acquireKey], at the head of its loop, parked on a
    channel, between [acquireKey] and the release, or inside the release with the key
    given up and its channel still open. *)
Inductive phase :=
| Outside
| Entering (k : Key)
| Parked (k : Key) (c : nat)
| Holding (k : Key) (c : nat)
| Releasing (k : Key) (c : nat).

Record state := mkState {
  attaching : gmap Key nat;
  closed : gset nat;
  next : nat;                      (* the next channel [make] returns *)
  who : list phase
}.

Implicit Types (s : state) (k : Key) (c i : nat).

Definition at_ s i (p : phase) : Prop := who s !! i = Some p.
Definition moved s i (p : phase) : state := mkState (attaching s) (closed s) (next s) (<[i := p]> (who s)).

(** Idle goroutines, and none of them attaching anything. *)
Definition start (n : nat) : state := mkState ∅ ∅ 0 (replicate n Outside).

(** One step of a goroutine already in [acquireKey] or its release. *)
Inductive step s : state → Prop :=
| step_park i k c :
    at_ s i (Entering k) → attaching s !! k = Some c → step s (moved s i (Parked k c))
| step_acquire i k :
    at_ s i (Entering k) → attaching s !! k = None →
    step s (mkState (<[k := next s]> (attaching s)) (closed s) (S (next s)) (<[i := Holding k (next s)]> (who s)))
| step_wake i k c :
    at_ s i (Parked k c) → c ∈ closed s → step s (moved s i (Entering k))
| step_release i k c :
    at_ s i (Holding k c) →
    step s (mkState (delete k (attaching s)) (closed s) (next s) (<[i := Releasing k c]> (who s)))
| step_close i k c :
    at_ s i (Releasing k c) →
    step s (mkState (attaching s) ({[c]} ∪ closed s) (next s) (<[i := Outside]> (who s))).

#[export] Instance phase_eq_dec : EqDecision phase.
Proof. solve_decision. Defined.

(** A new call of [acquireKey]. *)
Inductive call s : state → Prop :=
| call_enters i k : at_ s i Outside → call s (moved s i (Entering k)).

Inductive reachable (n : nat) : state → Prop :=
| reach_start : reachable n (start n)
| reach_call s s' : reachable n s → call s s' → reachable n s'
| reach_step s s' : reachable n s → step s s' → reachable n s'.

(** ** The invariant *)

(** The channel a goroutine has yet to close. *)
Definition owes s i k c : Prop := at_ s i (Holding k c) ∨ at_ s i (Releasing k c).

Record wf s : Prop := {
  wf_held : ∀ k c, attaching s !! k = Some c → ∃ i, at_ s i (Holding k c);
  wf_holds : ∀ i k c, at_ s i (Holding k c) → attaching s !! k = Some c;
  wf_open : ∀ i k c, owes s i k c → c < next s ∧ c ∉ closed s;
  wf_mine : ∀ i j k k' c, owes s i k c → owes s j k' c → i = j;
  wf_parked : ∀ i k c, at_ s i (Parked k c) → c ∈ closed s ∨ ∃ j, owes s j k c;
  wf_closed : ∀ c, c ∈ closed s → c < next s
}.

Lemma at_insert (l : list phase) i j p q :
  <[i := p]> l !! j = Some q → (j = i ∧ q = p) ∨ (j ≠ i ∧ l !! j = Some q).
Proof. rewrite list_lookup_insert_Some. naive_solver. Qed.

Lemma at_moved (l : list phase) i p q : l !! i = Some q → <[i := p]> l !! i = Some p.
Proof. intros. by eapply list_lookup_insert_eq, lookup_lt_Some. Qed.

Lemma at_other (l : list phase) i j p q : i ≠ j → l !! j = Some q → <[i := p]> l !! j = Some q.
Proof. intros. by rewrite list_lookup_insert_ne. Qed.

(** A goroutine in phase [p] that owes no channel moves to one that owes none. *)
Definition quiet (p : phase) : Prop :=
  match p with Holding _ _ | Releasing _ _ => False | _ => True end.

Lemma wf_moved s i p q :
  wf s → at_ s i p → quiet p → quiet q →
  (∀ k c, q = Parked k c → attaching s !! k = Some c) → wf (moved s i q).
Proof.
  intros [H1 H2 H3 H4 H5 H6] Hp Qp Qq Hpark. unfold moved, owes, at_ in *.
  assert (∀ j r, ¬ quiet r → who s !! j = Some r → <[i:=q]> (who s) !! j = Some r) as Hkeep.
  { intros j r Hr Hj. apply at_other; [|done]. by intros ->; simplify_eq. }
  assert (∀ j r, ¬ quiet r → <[i:=q]> (who s) !! j = Some r → who s !! j = Some r) as Hback.
  { intros j r Hr [[-> ->]|[_ ?]]%at_insert; done. }
  assert (∀ j k c, <[i:=q]> (who s) !! j = Some (Holding k c) ∨ <[i:=q]> (who s) !! j = Some (Releasing k c) →
    who s !! j = Some (Holding k c) ∨ who s !! j = Some (Releasing k c)) as Hb2.
  { intros j k c [?|?]; [left|right]; by apply Hback; [intros []|]. }
  split; simpl; unfold owes, at_; simpl.
  - intros k c [j Hj]%H1. exists j. by apply Hkeep; [intros []|].
  - intros j k c Hj. apply (H2 j). by apply Hback; [intros []|].
  - eauto.
  - intros j j' k k' c Hj Hj'. eapply H4; by eapply Hb2.
  - intros j k c [[-> <-]|[_ Hj]]%at_insert.
    + right. destruct (H1 k c (Hpark k c eq_refl)) as [j Hj]. exists j. left. by apply Hkeep; [intros []|].
    + destruct (H5 _ _ _ Hj) as [|[j' [H|H]]]; [by left|right..]; exists j'; [left|right]; by apply Hkeep; [intros []|].
  - done.
Qed.

Lemma wf_acquire s i k :
  wf s → at_ s i (Entering k) → attaching s !! k = None →
  wf (mkState (<[k := next s]> (attaching s)) (closed s) (S (next s)) (<[i := Holding k (next s)]> (who s))).
Proof.
  intros [H1 H2 H3 H4 H5 H6] Hi Hk. unfold owes, at_ in *.
  split; simpl; unfold owes, at_; simpl.
  - intros k' c [[<- <-]|[Hne Hc]]%lookup_insert_Some.
    + exists i. by eapply at_moved.
    + destruct (H1 _ _ Hc) as [j Hj]. exists j. apply at_other; [|done]. intros ->; simplify_eq.
  - intros j k' c [[-> ?]|[_ Hj]]%at_insert; [simplify_eq; by rewrite lookup_insert_eq|].
    rewrite lookup_insert_ne; [by eapply H2|]. intros <-. by rewrite (H2 _ _ _ Hj) in Hk.
  - intros j k' c [Hj|Hj]; apply at_insert in Hj as [[-> ?]|[_ Hj]]; simplify_eq.
    + split; [lia|]. intros ?%H6. lia.
    + destruct (H3 j k' c) as [? ?]; [by left|]. split; [lia|done].
    + destruct (H3 j k' c) as [? ?]; [by right|]. split; [lia|done].
  - intros j j' k1 k2 c Hj Hj'.
    assert (∀ j k', <[i:=Holding k (next s)]> (who s) !! j = Some (Holding k' c) ∨
      <[i:=Holding k (next s)]> (who s) !! j = Some (Releasing k' c) →
      (j = i ∧ c = next s) ∨ (who s !! j = Some (Holding k' c) ∨ who s !! j = Some (Releasing k' c)) ∧ c < next s) as Hcase.
    { intros l k' [Hl|Hl]; apply at_insert in Hl as [[-> ?]|[_ Hl]]; simplify_eq; [by left| |];
        right; (split; [by auto|]); [eapply (H3 l k'); by left|eapply (H3 l k'); by right]. }
    destruct (Hcase _ _ Hj) as [[-> ?]|[? ?]], (Hcase _ _ Hj') as [[-> ?]|[? ?]]; [done|lia|lia|]. by eapply H4.
  - intros j k' c [[-> ?]|[_ Hj]]%at_insert; [done|].
    destruct (H5 _ _ _ Hj) as [?|[j' Hj']]; [by left|right; exists j'].
    destruct (decide (i = j')) as [<-|]; [by destruct Hj' as [?|?]; simplify_eq|].
    destruct Hj'; [left|right]; by apply at_other.
  - intros c ?%H6. lia.
Qed.

(** The holder gives the key up and is left with the channel. *)
Lemma wf_release s i k c :
  wf s → at_ s i (Holding k c) →
  wf (mkState (delete k (attaching s)) (closed s) (next s) (<[i := Releasing k c]> (who s))).
Proof.
  intros [H1 H2 H3 H4 H5 H6] Hi. unfold owes, at_ in *.
  assert (∀ j k' c', <[i:=Releasing k c]> (who s) !! j = Some (Holding k' c') ∨
    <[i:=Releasing k c]> (who s) !! j = Some (Releasing k' c') →
    who s !! j = Some (Holding k' c') ∨ who s !! j = Some (Releasing k' c')) as Hback.
  { intros j k' c' [Hj|Hj]; apply at_insert in Hj as [[-> ?]|[_ ?]]; simplify_eq; auto. }
  split; simpl; unfold owes, at_; simpl.
  - intros k' c' [Hne Hc]%lookup_delete_Some. destruct (H1 _ _ Hc) as [j Hj]. exists j.
    apply at_other; [|done]. intros ->. rewrite Hi in Hj. simplify_eq.
  - intros j k' c' [[-> ?]|[Hji Hj]]%at_insert; [done|].
    rewrite lookup_delete_ne; [by eapply H2|]. intros <-. apply Hji.
    assert (c' = c) as -> by (apply H2 in Hj, Hi; simplify_eq; done).
    by apply (H4 j i k k c); left.
  - eauto.
  - intros j j' k1 k2 c' Hj Hj'. eapply H4; by apply Hback.
  - intros j k' c' [[-> ?]|[_ Hj]]%at_insert; [done|].
    destruct (H5 _ _ _ Hj) as [?|[j' Hj']]; [by left|right; exists j'].
    destruct (decide (i = j')) as [<-|]; [|by destruct Hj'; [left|right]; apply at_other].
    destruct Hj' as [?|?]; simplify_eq. right. by eapply at_moved.
  - done.
Qed.

(** It closes the channel, and every goroutine parked on it may wake. *)
Lemma wf_close s i k c :
  wf s → at_ s i (Releasing k c) →
  wf (mkState (attaching s) ({[c]} ∪ closed s) (next s) (<[i := Outside]> (who s))).
Proof.
  intros [H1 H2 H3 H4 H5 H6] Hi. unfold owes, at_ in *.
  assert (∀ j k' c', <[i:=Outside]> (who s) !! j = Some (Holding k' c') ∨
    <[i:=Outside]> (who s) !! j = Some (Releasing k' c') →
    j ≠ i ∧ (who s !! j = Some (Holding k' c') ∨ who s !! j = Some (Releasing k' c'))) as Hback.
  { intros j k' c' [Hj|Hj]; apply at_insert in Hj as [[-> ?]|[? ?]]; simplify_eq; auto. }
  split; simpl; unfold owes, at_; simpl.
  - intros k' c' [j Hj]%H1. exists j. apply at_other; [|done]. intros ->; simplify_eq.
  - intros j k' c' [[-> ?]|[_ Hj]]%at_insert; [done|by eapply H2].
  - intros j k' c' [Hji Hj]%Hback. destruct (H3 _ _ _ Hj) as [? ?]. split; [done|].
    intros [->%elem_of_singleton|?]%elem_of_union; [|done]. apply Hji. eapply (H4 j i); [done|by right].
  - intros j j' k1 k2 c' [_ Hj]%Hback [_ Hj']%Hback. by eapply H4.
  - intros j k' c' [[-> ?]|[_ Hj]]%at_insert; [done|].
    destruct (H5 _ _ _ Hj) as [?|[j' Hj']]; [left; set_solver|].
    destruct (decide (i = j')) as [<-|]; [left|right; exists j'; by destruct Hj'; [left|right]; apply at_other].
    destruct Hj' as [?|?]; simplify_eq. set_solver.
  - intros c' [->%elem_of_singleton|?%H6]%elem_of_union; [|done].
    eapply (H3 i k c). by right.
Qed.

Lemma key_wf_step s s' : wf s → step s s' → wf s'.
Proof.
  intros Hwf [i k c Hi Hk|i k Hi Hk|i k c Hi Hc|i k c Hi|i k c Hi].
  - apply (wf_moved s i (Entering k)); [done..|]. intros ?? [= <- <-]. done.
  - by apply wf_acquire.
  - by apply (wf_moved s i (Parked k c)).
  - by apply wf_release.
  - by apply (wf_close s i k).
Qed.

Lemma key_reachable_wf n s : reachable n s → wf s.
Proof.
  induction 1 as [|s s' Hr IH [i k Hi]|s s' Hr IH Hs].
  - split; unfold owes, at_; simpl; intros *; rewrite ?lookup_empty, ?lookup_replicate; try naive_solver; set_solver.
  - by apply (wf_moved s i Outside).
  - by eapply key_wf_step.
Qed.

(** One attach of a session runs at a time and no waiter is forgotten: in every
    reachable state at most one goroutine holds a key, the channel a goroutine is
    parked on is closed or is owed by a goroutine that has yet to close it, and the
    release never closes a channel that is closed already. *)
Theorem key_exclusive n s (Hr : reachable n s) :
  (∀ i j k c c', at_ s i (Holding k c) → at_ s j (Holding k c') → i = j) ∧
  (∀ i k c, at_ s i (Parked k c) → c ∈ closed s ∨ ∃ j, owes s j k c) ∧
  (∀ i k c, at_ s i (Releasing k c) → c ∉ closed s).
Proof.
  destruct (key_reachable_wf n s Hr) as [H1 H2 H3 H4 H5 H6]. split_and!; [|done|].
  - intros i j k c c' Hi Hj. pose proof (H2 _ _ _ Hi). pose proof (H2 _ _ _ Hj). simplify_eq.
    by apply (H4 i j k k c); left.
  - intros i k c Hi. apply (H3 i k c). by right.
Qed.

(** ** Every attach gets its turn once the calls run out *)

Definition busy (p : phase) : nat := match p with Outside => 0 | _ => 1 end.

(** How many more steps the goroutine may take before the next close. *)
Definition rest (cl : gset nat) (p : phase) : nat :=
  match p with
  | Outside => 0
  | Releasing _ _ => 1
  | Holding _ _ => 2
  | Parked _ c => if bool_decide (c ∈ cl) then 5 else 3
  | Entering _ => 4
  end.

Lemma total_close c cl l : sum_of (rest ({[c]} ∪ cl)) l ≤ sum_of (rest cl) l + 2 * length l.
Proof.
  induction l as [|x l IH]; simpl; [lia|]. unfold sum_of in *. simpl.
  assert (rest ({[c]} ∪ cl) x ≤ rest cl x + 2); [|lia].
  destruct x; simpl; try lia. repeat case_bool_decide; lia.
Qed.

Definition measure s : nat :=
  sum_of busy (who s) * (2 * length (who s) + 1) + sum_of (rest (closed s)) (who s).

Lemma step_measure s s' : wf s → step s s' → measure s' < measure s.
Proof.
  intros Hwf [i k c Hi Hk|i k Hi Hk|i k c Hi Hc|i k c Hi|i k c Hi]; unfold measure, at_ in *; simpl;
    rewrite length_insert.
  - assert (c ∉ closed s) as Hc. { destruct (wf_held s Hwf k c Hk) as [j Hj]. eapply (wf_open s Hwf j k). by left. }
    pose proof (sum_of_insert busy _ _ (Parked k c) _ Hi). pose proof (sum_of_insert (rest (closed s)) _ _ (Parked k c) _ Hi) as Hr.
    simpl in *. rewrite bool_decide_false in Hr by done. nia.
  - pose proof (sum_of_insert busy _ _ (Holding k (next s)) _ Hi).
    pose proof (sum_of_insert (rest (closed s)) _ _ (Holding k (next s)) _ Hi). simpl in *. nia.
  - pose proof (sum_of_insert busy _ _ (Entering k) _ Hi). pose proof (sum_of_insert (rest (closed s)) _ _ (Entering k) _ Hi) as Hr.
    simpl in *. rewrite bool_decide_true in Hr by done. nia.
  - pose proof (sum_of_insert busy _ _ (Releasing k c) _ Hi).
    pose proof (sum_of_insert (rest (closed s)) _ _ (Releasing k c) _ Hi). simpl in *. nia.
  - pose proof (sum_of_insert busy _ _ Outside _ Hi). pose proof (sum_of_insert (rest (closed s)) _ _ Outside _ Hi).
    pose proof (total_close c (closed s) (<[i:=Outside]> (who s))) as Hc. rewrite length_insert in Hc. simpl in *. nia.
Qed.

Lemma step_terminates m s : wf s → measure s < m → Acc (λ s2 s1, step s1 s2) s.
Proof.
  revert s. induction m as [|m IH]; intros s Hwf Hm; [lia|]. constructor. intros s' Hs.
  apply IH; [by eapply key_wf_step|]. pose proof (step_measure s s' Hwf Hs). lia.
Qed.

(** A goroutine that is not done lets one move. *)
Lemma busy_moves s i p : wf s → at_ s i p → p ≠ Outside → ∃ s', step s s'.
Proof.
  intros Hwf Hi Hp. destruct p as [|k|k c|k c|k c]; [done|..].
  - destruct (attaching s !! k) as [c|] eqn:Hk; eexists; [by eapply step_park|by eapply step_acquire].
  - destruct (wf_parked s Hwf i k c Hi) as [Hc|[j [Hj|Hj]]]; eexists;
      [by eapply step_wake|by eapply step_release|by eapply step_close].
  - eexists. by eapply step_release.
  - eexists. by eapply step_close.
Qed.

(** The moves while [m] more calls may arrive. *)
Inductive move : nat * state → nat * state → Prop :=
| move_step m s s' : step s s' → move (m, s) (m, s')
| move_call m s s' : call s s' → move (S m, s) (m, s').

Lemma call_wf s s' : wf s → call s s' → wf s'.
Proof. intros Hwf [i k Hi]. by apply (wf_moved s i Outside). Qed.

Lemma move_wf x y : wf x.2 → move x y → wf y.2.
Proof. intros Hwf Hm. inversion Hm; subst; simpl in *; [by eapply key_wf_step|by eapply call_wf]. Qed.

Lemma move_terminates m s : wf s → Acc (λ y x, move x y) (m, s).
Proof.
  revert s. induction m as [|m IHm]; intros s Hwf;
    induction (step_terminates _ s Hwf (Nat.lt_succ_diag_r _)) as [s _ IHs]; constructor; intros y Hy; inversion Hy; subst.
  - apply IHs; [done|]. by eapply key_wf_step.
  - apply IHs; [done|]. by eapply key_wf_step.
  - apply IHm. by eapply call_wf.
Qed.

(** C39 Every attach gets its turn once the calls run out: from any reachable state,
    whoever is parked and however many more calls [m] arrive, the goroutines take
    finitely many steps, and they can stop only when every one of them has held its key
    and returned.  The bound is on the calls and not on a waiter's wait: the key barges,
    so under arrivals that never end a waiter may wait forever, and a holder keeps the
    key for as long as its attach runs. *)
Theorem key_served n s m (Hr : reachable n s) :
  Acc (λ y x, move x y) (m, s) ∧
  ∀ m' s', rtc move (m, s) (m', s') → (∀ s'', ¬ step s' s'') → ∀ i p, at_ s' i p → p = Outside.
Proof.
  apply key_reachable_wf in Hr. split; [by apply move_terminates|].
  intros m' s' Hs Hstuck i p Hi. assert (wf s') as Hwf.
  { apply (rtc_ind_r (fun x => wf x.2) (m, s)) in Hs; [done..|]. intros y z _ Hm Hy. by eapply move_wf. }
  destruct (decide (p = Outside)) as [|Hp]; [done|].
  destruct (busy_moves s' i p Hwf Hi Hp) as [s'' Hs'']. by destruct (Hstuck s'').
Qed.

(** And it does barge: a waiter is parked, the holder returns, and a call that arrives
    after takes the key before the waiter does. *)
Lemma key_barges (k : Key) :
  ∃ s s', reachable 3 s ∧ at_ s 1 (Parked k 0) ∧ at_ s 2 Outside ∧ rtc move (1, s) (0, s') ∧ at_ s' 1 (Parked k 0) ∧ at_ s' 2 (Holding k 1).
Proof.
  set (s1 := mkState ∅ ∅ 0 [Entering k; Outside; Outside]). set (s2 := mkState {[k := 0]} ∅ 1 [Holding k 0; Outside; Outside]).
  set (s3 := mkState {[k := 0]} ∅ 1 [Holding k 0; Entering k; Outside]). set (s4 := mkState {[k := 0]} ∅ 1 [Holding k 0; Parked k 0; Outside]).
  set (s5 := mkState (delete k {[k := 0]}) ∅ 1 [Releasing k 0; Parked k 0; Outside]).
  set (s6 := mkState (delete k {[k := 0]}) ∅ 1 [Releasing k 0; Parked k 0; Entering k]).
  assert (reachable 3 s4) as Hr.
  { apply (reach_step _ s3); [|exact (step_park s3 1 k 0 eq_refl (lookup_singleton_eq k 0))]. apply (reach_call _ s2); [|exact (call_enters s2 1 k eq_refl)].
    apply (reach_step _ s1); [|exact (step_acquire s1 0 k eq_refl (lookup_empty k))].
    apply (reach_call _ (start 3)); [constructor|exact (call_enters (start 3) 0 k eq_refl)]. }
  exists s4, (mkState (<[k := 1]> (delete k {[k := 0]})) ∅ 2 [Releasing k 0; Parked k 0; Holding k 1]). split_and!; [done..| |done|done].
  apply (rtc_l _ _ (1, s5)); [apply move_step; exact (step_release s4 0 k 0 eq_refl)|].
  apply (rtc_l _ _ (0, s6)); [apply move_call; exact (call_enters s5 2 k eq_refl)|].
  apply rtc_once, move_step. exact (step_acquire s6 2 k eq_refl (lookup_delete_eq _ _)).
Qed.

(** ** Witnesses *)

Definition demo_key : Key := mkKey "tenant" "s1".

(** Two goroutines attach one session: the first holds the key, the second parks. *)
Definition demo0 : state := mkState ∅ ∅ 0 [Entering demo_key; Entering demo_key].
Definition demo1 : state := mkState {[demo_key := 0]} ∅ 1 [Holding demo_key 0; Entering demo_key].
Definition demo : state := mkState {[demo_key := 0]} ∅ 1 [Holding demo_key 0; Parked demo_key 0].

Lemma demo_reachable : reachable 2 demo.
Proof.
  assert (reachable 2 demo0) as H0.
  { apply (reach_call 2 (mkState ∅ ∅ 0 [Entering demo_key; Outside])); [|exact (call_enters (mkState ∅ ∅ 0 [Entering demo_key; Outside]) 1 demo_key eq_refl)].
    apply (reach_call 2 (start 2)); [constructor|exact (call_enters (start 2) 0 demo_key eq_refl)]. }
  assert (step demo0 demo1) as S1 by exact (step_acquire demo0 0 demo_key eq_refl eq_refl).
  assert (step demo1 demo) as S2 by exact (step_park demo1 1 demo_key 0 eq_refl eq_refl).
  exact (reach_step 2 _ _ (reach_step 2 _ _ H0 S1) S2).
Defined.

Lemma key_exclusive_witness :
  reachable 2 demo ∧ at_ demo 1 (Parked demo_key 0) ∧ ∃ j, owes demo j demo_key 0.
Proof.
  split; [apply demo_reachable|]. split; [reflexivity|].
  destruct (key_exclusive 2 demo demo_reachable) as (_ & H & _).
  destruct (H 1 demo_key 0 eq_refl) as [Hc|Ho]; [|exact Ho]. by apply elem_of_empty in Hc.
Defined.

Lemma key_served_witness :
  reachable 2 demo ∧ Acc (λ y x, move x y) (5, demo) ∧
  ∀ s', rtc move (5, demo) (0, s') → (∀ s'', ¬ step s' s'') → at_ s' 1 (Parked demo_key 0) → False.
Proof.
  destruct (key_served 2 demo 5 demo_reachable) as [Ha Hd].
  split; [apply demo_reachable|]. split; [exact Ha|].
  intros s' Hs Hstuck Hp. discriminate (Hd 0 s' Hs Hstuck 1 _ Hp).
Defined.
End AttachKey.
