(* ===== verification/Gates.v ===== *)
(** * Gates.v: publishing a session's open gates

    [Publisher] of [internal/gates/gates.go]: the fold of the runtime journal into
    the set of open gates, the convergence of the durable projection on it, and the
    loop that runs a pass after every hint.  The store, the journal, the committed
    stream and the clock are calls of [GE]; harness's [ProjectGatePage] is an
    argument.  A gate identity is the text of its UUID, and log records are left
    out.                                                                      *)
From Stdlib Require Import ZArith.
From stdpp Require Import base list strings gmap sorting.
From S2P Require Import Prelude Wire Errors Effects Fence.

Module Gates.
Import Fence.
Local Open Scope prog_scope.

Definition FenceGateID : string := "host.residency-fence".
Definition ErrUnpublishable : error := ESentinel "gates.ErrUnpublishable".
Definition ErrProjectionFull : error := ESentinel "gates.ErrProjectionFull".

Inductive Kind := KindPermission | KindOpenURL | KindOther (s : string).

(** [event.GateOpened], as far as this package reads it; [g_Body] is the rest of it. *)
Record GateOpened := mkGateOpened {
  g_ID : string; g_Kind : Kind; g_Timeout : Z; g_CreatedAt : Z; g_Body : string
}.

Inductive Event := EvGateOpened (g : GateOpened) | EvGateResolved (id : string) | EvOther.

Record Scope := mkScope {
  s_TenantID : string; s_SessionID : string; s_AgentID : string; s_RuntimeSessionID : string
}.

(** [openGate]: the event and its ledger sequence. *)
Abbreviation openGate := (GateOpened * Z)%type.
Abbreviation journal := (list (Event * Z)).

(** ** Deadlines, in nanoseconds *)

Definition Minute : Z := 60000000000.
Definition Hour : Z := 3600000000000.

Definition TTL (kind : Kind) : Z :=
  match kind with KindPermission => 5 * Minute | KindOpenURL => Hour | KindOther _ => 24 * Hour end.

Definition Deadline (opened : GateOpened) : Z :=
  if (g_Timeout opened >? 0)%Z then (g_CreatedAt opened + g_Timeout opened)%Z
  else (g_CreatedAt opened + TTL (g_Kind opened))%Z.

(** ** The publisher's state *)

Record Publisher := mkPublisher {
  scope : option Scope;              (* [scoped] is whether there is one *)
  fenced : bool;
  open : gmap string openGate;
  next : Z;
  dirty : bool;
  unpublishable : gset string;
  full : gset string;
  superseded : bool;
  passes : nat;
  folded : bool;
  openCount : nat;
  foldedNext : Z
}.

(** The state [Start] runs the publisher from. *)
Definition started : Publisher :=
  mkPublisher None false ∅ 1 true ∅ ∅ false 0 false 0 0.

Implicit Types (p : Publisher) (s : Scope) (id : string).

Definition with_scope p s : Publisher :=
  mkPublisher (Some s) (fenced p) (open p) (next p) (dirty p) (unpublishable p) (full p) (superseded p) (passes p)
    (folded p) (openCount p) (foldedNext p).
Definition with_fence p : Publisher :=
  mkPublisher (scope p) true (open p) (next p) (dirty p) (unpublishable p) (full p) (superseded p) (passes p)
    (folded p) (openCount p) (foldedNext p).
Definition with_fold p (o : gmap string openGate) (n : Z) (d : bool) : Publisher :=
  mkPublisher (scope p) (fenced p) o n d (unpublishable p) (full p) (superseded p) (passes p)
    (folded p) (openCount p) (foldedNext p).
Definition with_refused p (u f : gset string) : Publisher :=
  mkPublisher (scope p) (fenced p) (open p) (next p) (dirty p) u f (superseded p) (passes p)
    (folded p) (openCount p) (foldedNext p).
Definition with_superseded p : Publisher :=
  mkPublisher (scope p) (fenced p) (open p) (next p) (dirty p) (unpublishable p) (full p) true (passes p)
    (folded p) (openCount p) (foldedNext p).
(** What a fold publishes for [Activity]. *)
Definition with_activity p : Publisher :=
  mkPublisher (scope p) (fenced p) (open p) (next p) (dirty p) (unpublishable p) (full p) (superseded p) (passes p)
    true (size (open p)) (next p).
Definition with_pass p : Publisher :=
  mkPublisher (scope p) (fenced p) (open p) (next p) false (unpublishable p) (full p) (superseded p) (S (passes p))
    (folded p) (openCount p) (foldedNext p).

Definition Activity p : nat * Z * bool := (openCount p, foldedNext p, folded p).
Definition Converged p : nat := passes p.

(** ** The fold *)

(** [fold]'s visitor. *)
Definition visit p (x : Event * Z) : Publisher :=
  let '(ev, seq) := x in
  let p := match ev with
           | EvGateOpened g => with_fold p (<[g_ID g := (g, seq)]> (open p)) (next p) true
           | EvGateResolved id => with_fold p (delete id (open p)) (next p) true
           | EvOther => p
           end in
  if (next p <=? seq)%Z then with_fold p (open p) (u64 (seq + 1)) (dirty p) else p.

(** What a wait in [run] ends with: [ctx.Done], the retry timer, a hint, or the
    end of the subscription. *)
Inductive Arm := ArmDone | ArmRetry | ArmHint | ArmClosed.

Inductive GE {Proj : Type} : Type → Type :=
| GSubscribe : GE (option error)
| GScope : GE (res Scope)
| GProjected : GE (res (list Proj))
| GOpen (pr : Proj) : GE (option error)
| GResolve (id : string) : GE (option error)
| GReplay (from : Z) : GE (journal * option error)    (* what it visits, and its error *)
| GOnConverged : GE unit
| GCtxErr : GE bool
| GWait (hints retry : bool) : GE Arm
| GDrainHints : GE unit
| GRetryWait : GE bool.                                (* whether the timer came first *)
Arguments GE : clear implicits.

Section publisher.
Context {Proj : Type} (GateID : Proj → string).
(** [harnesswire.ProjectGatePage] of one open gate, with its deadline. *)
Context (ProjectGatePage : Scope → GateOpened → Z → Z → res Proj).

Abbreviation P := (prog (GE Proj)).

Definition Project s (opened : GateOpened) (seq : Z) : res Proj := ProjectGatePage s opened seq (Deadline opened).

(** [fold]. *)
Definition fold p : P (option error * Publisher) :=
  let! replayed := call (GReplay (next p)) in
  Ret (replayed.2, fold_left visit replayed.1 p).

(** ** Convergence *)

Definition older (a b : string * openGate) : Prop := (a.2.2 ≤ b.2.2)%Z.
#[local] Instance older_dec a b : Decision (older a b) := Z_le_dec _ _.

(** [errors.Join]. *)
Definition join (failures : list error) : option error :=
  match failures with [] => None | _ => Some (EJoin failures) end.

(** The gates [converge] has to open, oldest first. *)
Definition pending_gates p (have : gset string) : list (string * openGate) :=
  merge_sort older (filter (fun x => x.1 ∉ have ∧ x.1 ∉ unpublishable p) (map_to_list (open p))).

(** The resolves: the failures so far, or the supersession that ends the pass. *)
Fixpoint resolves (want : gset string) (projected : list Proj) (failures : list error) : P (error + list error) :=
  match projected with
  | [] => Ret (inr failures)
  | pr :: projected =>
      if bool_decide (GateID pr ∈ want) then resolves want projected failures
      else
        let! err := call (GResolve (GateID pr)) in
        match err with
        | Some e => if errors_is e ErrEpochSuperseded then Ret (inl e)
                    else resolves want projected (failures ++ [e])
        | None => resolves want projected failures
        end
  end.

(** The opens. *)
Fixpoint opens s (pending : list (string * openGate)) p (failures : list error) : P ((error + list error) * Publisher) :=
  match pending with
  | [] => Ret (inr failures, p)
  | (id, (g, seq)) :: pending =>
      let! err := match Project s g seq with
                  | Err e => Ret (Some e)
                  | Ok pr => call (GOpen pr)
                  end in
      match err with
      | None => opens s pending p failures
      | Some e =>
          if errors_is e ErrEpochSuperseded then Ret (inl e, p)
          else if errors_is e ErrUnpublishable
          then opens s pending (with_refused p ({[id]} ∪ unpublishable p) (full p)) failures
          else if errors_is e ErrProjectionFull
          then opens s pending (with_refused p (unpublishable p) ({[id]} ∪ full p)) failures
          else opens s pending p (failures ++ [e])
      end
  end.

(** [converge]. *)
Definition converge s p : P (option error * Publisher) :=
  let! projected := call GProjected in
  match projected with
  | Err e => Ret (Some e, p)
  | Ok projected =>
      let pending := pending_gates p (list_to_set (GateID <$> projected)) in
      let! resolved := resolves (dom (open p)) projected [] in
      match resolved with
      | inl e => Ret (Some e, p)
      | inr failures =>
          let! opened := opens s pending p failures in
          Ret (match opened.1 with inl e => Some e | inr failures => join failures end, opened.2)
      end
  end.

(** ** A pass *)

Definition pass_folded s p : P (option error * Publisher) :=
  let! result := fold p in
  let '(err, p) := result in
  match err with
  | Some e => Ret (Some e, p)
  | None =>
      let p := with_activity p in
      if negb (dirty p) then Ret (None, p)
      else
        let! result := converge s p in
        let '(err, p) := result in
        match err with
        | Some e => Ret (Some e, p)
        | None => do! call GOnConverged in Ret (None, with_pass p)
        end
  end.

Definition pass_fenced s p : P (option error * Publisher) :=
  if fenced p then pass_folded s p
  else
    let! err := call (GResolve FenceGateID) in
    match err with
    | Some e => Ret (Some e, p)
    | None => pass_folded s (with_fence p)
    end.

Definition pass p : P (option error * Publisher) :=
  match scope p with
  | Some s => pass_fenced s p
  | None =>
      let! read := call GScope in
      match read with
      | Err e => Ret (Some e, p)
      | Ok s => pass_fenced s (with_scope p s)
      end
  end.

(** ** The loop *)

(** [run], from the head of its loop; [hints] is whether it is subscribed. *)
Fixpoint run (fuel : nat) p (hints : bool) : P (option Publisher) :=
  match fuel with
  | O => Ret None
  | S fuel =>
      let! hints := (if hints then Ret true
                     else let! err := call GSubscribe in Ret (match err with None => true | Some _ => false end)) in
      let! passed := pass p in
      let '(err, p) := passed in
      let! stopped := match err with
                      | None => Ret None
                      | Some e =>
                          let! done := call GCtxErr in
                          Ret (if done then Some p
                               else if errors_is e ErrEpochSuperseded then Some (with_superseded p) else None)
                      end in
      match stopped with
      | Some p => Ret (Some p)
      | None =>
          let failed := bool_decide (is_Some err) in
          let! arm := call (GWait hints (failed || negb hints)) in
          match arm with
          | ArmDone => Ret (Some p)
          | ArmRetry => run fuel p hints
          | ArmHint => do! call GDrainHints in run fuel p hints
          | ArmClosed =>
              let! again := call GRetryWait in
              if again then run fuel p false else Ret (Some p)
          end
      end
  end.

(** ** What the publisher writes

    The observations of a run that matter to its writes. *)

Abbreviation O := (obs (GE Proj)).

Definition replayed_of (o : O) : journal :=
  match o with Obs e x =>
    match e in GE _ X return X → journal with GReplay _ => fst | _ => fun _ => [] end x end.

(** What the journal has delivered to the fold, in order. *)
Definition read_of (t : list O) : journal := t ≫= replayed_of.

Definition open_step (m : gmap string openGate) (x : Event * Z) : gmap string openGate :=
  match x.1 with
  | EvGateOpened g => <[g_ID g := (g, x.2)]> m
  | EvGateResolved id => delete id m
  | EvOther => m
  end.

(** The gates a journal holds open: opened and not resolved since. *)
Definition open_of (j : journal) : gmap string openGate := fold_left open_step j ∅.

(** The last answer of [Projected]. *)
Definition projected_at (o : O) : option (list Proj) :=
  match o with Obs e x =>
    match e in GE _ X return X → option (list Proj) with
    | GProjected => fun r => match r with Ok l => Some l | Err _ => None end
    | _ => fun _ => None
    end x end.

Definition projected_of (t : list O) : option (list Proj) := last (omap projected_at t).

Definition is_write (o : O) : bool :=
  match o with Obs e _ => match e with GOpen _ | GResolve _ => true | _ => false end end.

(** The session's surface answered that a successor's grant fences this one. *)
Definition superseding (o : O) : bool :=
  match o with Obs e x =>
    match e in GE _ X return X → bool with
    | GScope => fun r => match r with Err e => errors_is e ErrEpochSuperseded | Ok _ => false end
    | GProjected => fun r => match r with Err e => errors_is e ErrEpochSuperseded | Ok _ => false end
    | GOpen _ => fun r => match r with Some e => errors_is e ErrEpochSuperseded | None => false end
    | GResolve _ => fun r => match r with Some e => errors_is e ErrEpochSuperseded | None => false end
    | GReplay _ => fun r => match r.2 with Some e => errors_is e ErrEpochSuperseded | None => false end
    | _ => fun _ => false
    end x end.

Definition quiet (h : list O) : Prop := seen superseding h = false.
Definition fenced_in (h : list O) : Prop := Obs (GResolve FenceGateID) None ∈ h.

(** What a write needs of the history it comes after. *)
Definition lawful (h : list O) (o : O) : Prop :=
  (is_write o = true → quiet h) ∧
  match o with Obs e _ =>
    match e with
    | GResolve id =>
        id = FenceGateID ∨
        fenced_in h ∧ open_of (read_of h) !! id = None ∧
        ∃ prs, projected_of h = Some prs ∧ id ∈ GateID <$> prs
    | GOpen pr =>
        fenced_in h ∧ ∃ s g seq prs,
          Obs GScope (Ok s) ∈ h ∧ open_of (read_of h) !! g_ID g = Some (g, seq) ∧
          projected_of h = Some prs ∧ g_ID g ∉ GateID <$> prs ∧ Project s g seq = Ok pr
    | _ => True
    end
  end.

Lemma read_of_app t1 t2 : read_of (t1 ++ t2) = read_of t1 ++ read_of t2.
Proof. apply bind_app. Qed.

Lemma projected_of_snoc t o :
  projected_of (t ++ [o]) = match projected_at o with Some l => Some l | None => projected_of t end.
Proof.
  unfold projected_of. rewrite omap_app. simpl. destruct (projected_at o); simpl.
  - by rewrite last_snoc.
  - by rewrite app_nil_r.
Qed.

Lemma quiet_snoc h o : quiet h → superseding o = false → quiet (h ++ [o]).
Proof. unfold quiet. rewrite seen_app, seen_one. by intros -> ->. Qed.

Lemma open_step_visit p x : open (visit p x) = open_step (open p) x.
Proof. destruct x as [[g|id|] seq]; unfold visit, open_step; simpl; by case_match. Qed.

Lemma visit_rest p x :
  scope (visit p x) = scope p ∧ fenced (visit p x) = fenced p ∧
  unpublishable (visit p x) = unpublishable p ∧ full (visit p x) = full p.
Proof. destruct x as [[g|id|] seq]; unfold visit; simpl; by case_match. Qed.

Lemma visits_open j p : open (fold_left visit j p) = fold_left open_step j (open p).
Proof. revert p. induction j as [|x j IH]; intros p; simpl; [done|]. by rewrite IH, open_step_visit. Qed.

Lemma visits_rest j p : scope (fold_left visit j p) = scope p ∧ fenced (fold_left visit j p) = fenced p.
Proof.
  revert p. induction j as [|x j IH]; intros p; simpl; [done|].
  destruct (IH (visit p x)) as [-> ->]. by destruct (visit_rest p x) as (-> & -> & _).
Qed.

Lemma open_of_app j1 j2 : open_of (j1 ++ j2) = fold_left open_step j2 (open_of j1).
Proof. apply fold_left_app. Qed.

(** A folded gate is under its own identity. *)
Lemma open_of_key j : map_Forall (fun id x => id = g_ID x.1) (open_of j).
Proof.
  unfold open_of. induction j as [|x j IH] using rev_ind; [apply map_Forall_empty|].
  rewrite fold_left_app. simpl. unfold open_step. destruct (x.1) as [g|id|]; [| |done].
  - by apply map_Forall_insert_2.
  - by apply map_Forall_delete.
Qed.

(** ** The invariant of the fold state *)

Record tracks p (h : list O) : Prop := {
  tr_open : open p = open_of (read_of h);
  tr_scope : ∀ s, scope p = Some s → Obs GScope (Ok s) ∈ h;
  tr_fenced : fenced p = true → fenced_in h
}.

Lemma tracks_snoc p h o : tracks p h → replayed_of o = [] → tracks p (h ++ [o]).
Proof.
  intros [H1 H2 H3] Ho. split.
  - rewrite read_of_app. unfold read_of at 2. simpl. by rewrite Ho, !app_nil_r.
  - intros s Hs. apply elem_of_app. left. by apply H2.
  - intros Hf. apply elem_of_app. left. by apply H3.
Qed.

Lemma tracks_same p p' h :
  tracks p h → scope p' = scope p → fenced p' = fenced p → open p' = open p → tracks p' h.
Proof. intros [H1 H2 H3] Hs Hf Ho. split; [by rewrite Ho|intros s; rewrite Hs; apply H2|by rewrite Hf]. Qed.

(** The state in the middle of a convergence on the projection [prs]. *)
Record converging s p (prs : list Proj) (h : list O) : Prop := {
  cv_tracks : tracks p h;
  cv_scope : scope p = Some s;
  cv_fenced : fenced p = true;
  cv_projected : projected_of h = Some prs
}.

Lemma converging_snoc s p prs h o :
  converging s p prs h → replayed_of o = [] → projected_at o = None → converging s p prs (h ++ [o]).
Proof. intros [H1 H2 H3 H4] Hr Hp. split; [by apply tracks_snoc|done..|]. by rewrite projected_of_snoc, Hp. Qed.

(** What a stage of a pass ends with. *)
Definition staged {A} (final : A → option error) (keep : list O → Prop) (h : list O) (r : A) : Prop :=
  keep h ∧ (quiet h ∨ ∃ e, final r = Some e ∧ errors_is e ErrEpochSuperseded = true).

Lemma resolves_lawful s p prs want projected failures h :
  converging s p prs h → quiet h → want = dom (open p) → GateID <$> projected ⊆ GateID <$> prs →
  safe any_env lawful (staged (fun r => match r with inl e => Some e | inr _ => None end) (converging s p prs))
    h (resolves want projected failures).
Proof.
  intros Hc Hq Hw. revert failures h Hc Hq. induction projected as [|pr projected IH]; intros failures h Hc Hq Hsub; simpl.
  { split; [done|by left]. }
  assert (GateID <$> projected ⊆ GateID <$> prs) as Hsub' by set_solver.
  case_bool_decide as Hin; [by apply IH|]. simpl. intros x _.
  assert (converging s p prs (h ++ [Obs (GResolve (GateID pr)) x])) as Hc' by by apply converging_snoc.
  split.
  - split; [done|]. right. destruct Hc as [Ht Hs Hf Hp]. split; [by apply (tr_fenced _ _ Ht)|]. split.
    + rewrite <-(tr_open _ _ Ht). apply not_elem_of_dom. by rewrite <-Hw.
    + exists prs. split; [done|]. apply Hsub. set_solver.
  - destruct x as [e|]; [destruct (errors_is e ErrEpochSuperseded) eqn:He|].
    + split; [done|]. right. eauto.
    + apply IH; [done|by apply quiet_snoc|done].
    + apply IH; [done|by apply quiet_snoc|done].
Qed.

Lemma pending_gates_elem p have x :
  x ∈ pending_gates p have ↔ x.1 ∉ have ∧ x.1 ∉ unpublishable p ∧ open p !! x.1 = Some x.2.
Proof.
  unfold pending_gates. rewrite merge_sort_Permutation, list_elem_of_filter. destruct x as [id y].
  rewrite elem_of_map_to_list. simpl. tauto.
Qed.

Lemma pending_gates_NoDup p have : NoDup (pending_gates p have).*1.
Proof.
  unfold pending_gates. rewrite merge_sort_Permutation.
  eapply sublist_NoDup; [apply (NoDup_fst_map_to_list (open p))|apply fmap_sublist, sublist_filter].
Qed.

Lemma with_refused_converging s p prs h u f : converging s p prs h → converging s (with_refused p u f) prs h.
Proof. intros [H1 H2 H3 H4]. split; [by eapply tracks_same|done..]. Qed.

Lemma opens_lawful s prs pending p failures h :
  converging s p prs h → quiet h →
  Forall (fun x => x.1 ∉ GateID <$> prs ∧ open p !! x.1 = Some x.2) pending →
  safe any_env lawful (fun h' r => staged (fun r => match r.1 with inl e => Some e | inr _ => None end)
      (converging s r.2 prs) h' r) h (opens s pending p failures).
Proof.
  revert p failures h. induction pending as [|[id [g seq]] pending IH]; intros p failures h Hc Hq Hp; simpl.
  { split; [done|by left]. }
  apply Forall_cons in Hp as [[Hn Ho] Hp]. simpl in Hn, Ho.
  eapply safe_bind_spec with (Q1 := fun h' r => converging s p prs h' ∧
    (quiet h' ∨ ∃ e, r = Some e ∧ errors_is e ErrEpochSuperseded = true)).
  - destruct (Project s g seq) as [pr|e] eqn:Hpr; simpl; [|by eauto]. intros x _. split.
    + split; [done|]. destruct Hc as [Ht Hs Hf Hprs]. split; [by apply (tr_fenced _ _ Ht)|].
      assert (id = g_ID g) as -> by (rewrite (tr_open _ _ Ht) in Ho; by apply (open_of_key _ _ _ Ho)).
      exists s, g, seq, prs. rewrite <-(tr_open _ _ Ht). split_and!; try done. by apply (tr_scope _ _ Ht).
    + split; [by apply converging_snoc|]. destruct x as [e|]; [|left; by apply quiet_snoc].
      destruct (errors_is e ErrEpochSuperseded) eqn:He; [right; eauto|left; by apply quiet_snoc].
  - intros h' err [Hc' Hend]. destruct err as [e|].
    2: { apply IH; [done| |done]. by destruct Hend as [?|(? & [=] & _)]. }
    destruct (errors_is e ErrEpochSuperseded) eqn:He; [simpl; split; [done|]; right; eauto|].
    assert (quiet h') as Hq' by (destruct Hend as [?|(? & [= <-] & ?)]; congruence).
    repeat case_match; (apply IH; [by try apply with_refused_converging|done|done]).
Qed.

Lemma join_not_superseded failures e :
  Forall (fun e => errors_is e ErrEpochSuperseded = false) failures → join failures = Some e →
  errors_is e ErrEpochSuperseded = false.
Proof.
  intros Hf. unfold join. destruct failures as [|f fs]; [done|]. intros [= <-].
  unfold errors_is, ErrEpochSuperseded in *. simpl. apply orb_false_iff. apply Forall_cons in Hf as [? Hf]. split; [done|].
  induction Hf as [|g gs ? Hf IH]; simpl; [done|]. by apply orb_false_iff.
Qed.

(** What a pass ends with: the state still tracks the history, and a supersession
    it met is its error. *)
Definition passed (h : list O) (r : option error * Publisher) : Prop := staged fst (tracks r.2) h r.

Lemma converge_lawful s p h :
  tracks p h → quiet h → scope p = Some s → fenced p = true →
  safe any_env lawful passed h (converge s p).
Proof.
  intros Ht Hq Hs Hf. unfold converge. simpl. intros [prs|e] _; (split; [done|]).
  2: { simpl. split; [by apply tracks_snoc|]. simpl.
    destruct (errors_is e ErrEpochSuperseded) eqn:He; [right; eauto|left; by apply quiet_snoc]. }
  simpl. assert (converging s p prs (h ++ [Obs GProjected (Ok prs)])) as Hc.
  { split; [by apply tracks_snoc|done..|by rewrite projected_of_snoc]. }
  eapply safe_bind_spec; [by apply resolves_lawful; [|by apply quiet_snoc|..]|].
  intros h1 [e|failures] [Hc1 Hend].
  { simpl. split; [by apply Hc1|]. destruct Hend as [?|(? & [= <-] & ?)]; [by left|right; eauto]. }
  assert (quiet h1) as Hq1 by by destruct Hend as [?|(? & [=] & ?)].
  eapply safe_bind_spec; [apply opens_lawful; [done..|]|].
  - apply Forall_forall. intros x Hx. apply pending_gates_elem in Hx as (Hx & _ & Ho). split; [set_solver|done].
  - intros h2 [[e|failures'] p'] [Hc2 Hend2]; simpl in *; (split; [by apply Hc2|]); simpl.
    + destruct Hend2 as [?|(? & [= <-] & ?)]; [by left|right; eauto].
    + left. by destruct Hend2 as [?|(? & [=] & ?)].
Qed.

#[local] Opaque converge.

Lemma pass_folded_lawful s p h :
  tracks p h → quiet h → scope p = Some s → fenced p = true →
  safe any_env lawful passed h (pass_folded s p).
Proof.
  intros Ht Hq Hs Hf. unfold pass_folded. simpl. intros [j err] _. split; [done|]. simpl.
  set (p1 := fold_left visit j p). destruct (visits_rest j p) as [Hs1 Hf1]. fold p1 in Hs1, Hf1.
  assert (tracks p1 (h ++ [Obs (GReplay (next p)) (j, err)])) as Ht1.
  { destruct Ht as [H1 H2 H3]. split.
    - rewrite read_of_app, open_of_app, <-H1. simpl. unfold read_of. simpl. rewrite app_nil_r. apply visits_open.
    - intros s' Hs'. apply elem_of_app. left. apply H2. by rewrite <-Hs1.
    - intros Hf'. apply elem_of_app. left. apply H3. by rewrite <-Hf1. }
  destruct err as [e|].
  { simpl. split; [done|]. destruct (errors_is e ErrEpochSuperseded) eqn:He; [right; eauto|left; by apply quiet_snoc]. }
  assert (quiet (h ++ [Obs (GReplay (next p)) (j, None)])) as Hq1 by by apply quiet_snoc.
  destruct (negb (dirty p1)); simpl; [split; [by eapply tracks_same|by left]|].
  eapply safe_bind_spec; [apply converge_lawful; [by eapply tracks_same|done|by rewrite <-Hs, <-Hs1|by rewrite <-Hf, <-Hf1]|].
  intros h2 [[e|] p2] [Ht2 Hend]; simpl in *; [by split|]. intros u _. split; [done|].
  split; simpl; [eapply tracks_same; [by apply tracks_snoc|done..]|]. left.
  apply quiet_snoc; [|done]. by destruct Hend as [?|(? & [=] & ?)].
Qed.

Lemma pass_fenced_lawful s p h :
  tracks p h → quiet h → scope p = Some s → safe any_env lawful passed h (pass_fenced s p).
Proof.
  intros Ht Hq Hs. unfold pass_fenced. destruct (fenced p) eqn:Hf; [by apply pass_folded_lawful|].
  simpl. intros [e|] _; (split; [by split; [|left]|]).
  - simpl. split; [by apply tracks_snoc|].
    destruct (errors_is e ErrEpochSuperseded) eqn:He; [right; eauto|left; by apply quiet_snoc].
  - apply pass_folded_lawful; [|by apply quiet_snoc|done..].
    destruct (tracks_snoc _ _ (Obs (GResolve FenceGateID) None) Ht eq_refl) as [H1 H2 H3].
    split; [done|done|]. intros _. apply elem_of_app. right. by left.
Qed.

Lemma pass_lawful p h : tracks p h → quiet h → safe any_env lawful passed h (pass p).
Proof.
  intros Ht Hq. unfold pass. destruct (scope p) as [s|] eqn:Hs; [by apply pass_fenced_lawful|].
  simpl. intros [s|e] _; (split; [done|]).
  - apply pass_fenced_lawful; [|by apply quiet_snoc|done].
    destruct (tracks_snoc _ _ (Obs GScope (Ok s)) Ht eq_refl) as [H1 H2 H3]. split; [done| |done].
    intros s' [= <-]. apply elem_of_app. right. by left.
  - simpl. split; [by apply tracks_snoc|].
    destruct (errors_is e ErrEpochSuperseded) eqn:He; [right; eauto|left; by apply quiet_snoc].
Qed.

#[local] Opaque pass.

Lemma run_lawful fuel p hints h :
  tracks p h → quiet h → safe any_env lawful (fun _ _ => True) h (run fuel p hints).
Proof.
  revert p hints h. induction fuel as [|fuel IH]; intros p hints h Ht Hq; simpl; [done|].
  eapply safe_bind_spec with (Q1 := fun h' _ => tracks p h' ∧ quiet h').
  { destruct hints; simpl; [done|]. intros x _. split; [done|]. split; [by apply tracks_snoc|by apply quiet_snoc]. }
  intros h1 subscribed [Ht1 Hq1]. eapply safe_bind_spec; [by apply pass_lawful|].
  intros h2 [err p2] [Ht2 Hend]. simpl in Ht2, Hend.
  eapply safe_bind_spec with (Q1 := fun h' r => r = None → tracks p2 h' ∧ quiet h').
  { destruct err as [e|]; simpl.
    - intros b _. split; [done|]. destruct b; [done|]. destruct (errors_is e ErrEpochSuperseded) eqn:He; [done|].
      intros _. split; [by apply tracks_snoc|]. apply quiet_snoc; [|done]. destruct Hend as [?|(? & [= <-] & ?)]; congruence.
    - intros _. split; [done|]. by destruct Hend as [?|(? & [=] & ?)]. }
  intros h3 [p3|] H3; [done|]. destruct (H3 eq_refl) as [Ht3 Hq3]. simpl. intros arm _. split; [done|].
  assert (∀ o, replayed_of o = [] → superseding o = false →
    tracks p2 (h3 ++ [Obs (GWait subscribed (bool_decide (is_Some err) || negb subscribed)) arm] ++ [o]) ∧
    quiet (h3 ++ [Obs (GWait subscribed (bool_decide (is_Some err) || negb subscribed)) arm] ++ [o])) as Hnext.
  { intros o Hr Ho. rewrite app_assoc. split; [by apply tracks_snoc; [apply tracks_snoc|]|by apply quiet_snoc; [apply quiet_snoc|]]. }
  destruct arm; simpl; [done| | |].
  - apply IH; [by apply tracks_snoc|by apply quiet_snoc].
  - intros u _. split; [done|]. rewrite <-app_assoc. by apply IH; apply Hnext.
  - intros b _. split; [done|]. destruct b; [|done]. rewrite <-app_assoc. by apply IH; apply Hnext.
Qed.

(** C26 The publisher writes on the journal's evidence alone: whatever its store, its
    journal and its stream answer and however long it runs, it opens only a gate
    that the events it has read hold open and the projection it has just read lacks,
    and resolves only one the projection holds and those events do not; it does
    either only after its fencing write succeeded, and writes nothing once it was
    told a successor's grant fences it. *)
Theorem gate_writes_lawful fuel t a (Hrun : runs (run fuel started false) t a) t1 o t2
    (Ht : t = t1 ++ o :: t2) : lawful t1 o.
Proof.
  assert (tracks started []) as H0 by by split.
  destruct (safe_runs_any _ _ _ _ _ (run_lawful fuel started false [] H0 eq_refl) Hrun) as [_ HG].
  by apply (HG _ _ _ Ht).
Qed.

(** ** The journal is read once, in order *)

#[local] Transparent converge pass.

(** Every replay visits events of the one journal [J], in order and from the
    position it was asked for, and may stop early. *)
Definition journal_env (J : journal) (_ : list O) (o : O) : Prop :=
  match o with Obs e x =>
    match e in GE _ X return X → Prop with
    | GReplay from => fun r => r.1 `prefix_of` filter (fun x => (from ≤ x.2)%Z) J
    | _ => fun _ => True
    end x end.

(** Ledger sequences start at 1, increase, and leave room for the next. *)
Record sequenced (J : journal) : Prop := {
  sq_sorted : StronglySorted (fun a b => (a.2 < b.2)%Z) J;
  sq_range : Forall (fun x => (1 ≤ x.2 < two64 - 1)%Z) J
}.

(** The next unread sequence after [j]. *)
Definition position (j : journal) : Z := match last j with Some x => (x.2 + 1)%Z | None => 1%Z end.

Lemma sequenced_app j1 j2 : sequenced (j1 ++ j2) → sequenced j1 ∧ sequenced j2 ∧ ∀ x y, x ∈ j1 → y ∈ j2 → (x.2 < y.2)%Z.
Proof.
  intros [Hs Hr]. apply Forall_app in Hr as [? ?]. apply StronglySorted_app in Hs as (? & ? & ?).
  split_and!; [by split..|]. naive_solver.
Qed.

Lemma position_bound j x : sequenced j → x ∈ j → (x.2 < position j)%Z.
Proof.
  induction j as [|y j _] using rev_ind; intros Hs Hx; [by apply elem_of_nil in Hx|].
  unfold position. rewrite last_snoc. apply sequenced_app in Hs as (_ & _ & Hs).
  apply elem_of_app in Hx as [Hx| ->%list_elem_of_singleton]; [|lia].
  specialize (Hs x y Hx). rewrite list_elem_of_singleton in Hs. specialize (Hs eq_refl). lia.
Qed.

(** What is left to read starts at the position. *)
Lemma filter_position j1 j2 :
  sequenced (j1 ++ j2) → filter (fun x => (position j1 ≤ x.2)%Z) (j1 ++ j2) = j2.
Proof.
  intros Hs. pose proof Hs as (H1 & H2 & H12)%sequenced_app. rewrite filter_app.
  rewrite (list_filter_none _ j1), (list_filter_all _ j2); [done| |].
  - apply Forall_forall. intros y Hy. unfold position. destruct (last j1) as [x|] eqn:Hx.
    + apply last_Some in Hx as [j ->]. assert (x.2 < y.2)%Z; [|lia]. apply H12; [|done]. set_solver.
    + destruct H2 as [_ Hr]. rewrite Forall_forall in Hr. by apply Hr.
  - apply Forall_forall. intros x Hx. pose proof (position_bound j1 x H1 Hx). lia.
Qed.

#[local] Arguments visit : simpl never.

Lemma visits_next j1 j2 p :
  sequenced (j1 ++ j2) → next p = position j1 → next (fold_left visit j2 p) = position (j1 ++ j2).
Proof.
  revert p j1. induction j2 as [|[ev seq] j2 IH]; intros p j1 Hs Hn; simpl; [by rewrite app_nil_r|].
  rewrite (cons_middle _ j1), app_assoc. rewrite (cons_middle _ j1), app_assoc in Hs.
  apply IH; [done|]. apply sequenced_app in Hs as (Hs & _ & _). pose proof Hs as (_ & [_ Hr] & Hlt)%sequenced_app.
  assert (next p ≤ seq)%Z as Hle.
  { rewrite Hn. unfold position. destruct (last j1) as [x|] eqn:Hx.
    - apply last_Some in Hx as [j ->]. assert (x.2 < seq)%Z; [|lia]. apply (Hlt x (ev, seq)); set_solver.
    - apply Forall_cons in Hr as [Hr _]. simpl in Hr. lia. }
  apply Forall_cons in Hr as [Hr _]. simpl in Hr. unfold position. rewrite last_snoc.
  assert (next (visit p (ev, seq)) = u64 (seq + 1)) as ->; [|apply u64_small; unfold is_u64; simpl; lia].
  unfold visit. destruct ev; simpl; (destruct (Z.leb_spec (next p) seq); [done|lia]).
Qed.

(** A stage that reads no journal. *)
Definition unread {A} (state : A → Publisher) (h : list O) p (h' : list O) (r : A) : Prop :=
  read_of h' = read_of h ∧ next (state r) = next p ∧ open (state r) = open p.

Lemma read_of_snoc (h : list O) o : replayed_of o = [] → read_of (h ++ [o]) = read_of h.
Proof. intros Ho. rewrite read_of_app. unfold read_of at 2. simpl. by rewrite Ho, !app_nil_r. Qed.

Lemma resolves_unread R want projected failures h :
  safe R (fun _ _ => True) (fun h' _ => read_of h' = read_of h) h (resolves want projected failures).
Proof.
  revert failures h. induction projected as [|pr projected IH]; intros failures h; simpl; [done|].
  case_bool_decide; [done|]. simpl. intros x _. split; [done|].
  assert (read_of (h ++ [Obs (GResolve (GateID pr)) x]) = read_of h) as Hr by by apply read_of_snoc.
  destruct x as [e|]; [destruct (errors_is e ErrEpochSuperseded); [done|]|];
    (eapply safe_mono; [|apply IH]; simpl; congruence).
Qed.

Lemma opens_unread R s pending p failures h :
  safe R (fun _ _ => True) (unread snd h p) h (opens s pending p failures).
Proof.
  revert p failures h. induction pending as [|[id [g seq]] pending IH]; intros p failures h; simpl; [done|].
  eapply safe_bind_spec with (Q1 := fun h' _ => read_of h' = read_of h).
  { destruct (Project s g seq); simpl; [|done]. intros x _. split; [done|]. by apply read_of_snoc. }
  intros h' r Hh.
  assert (∀ p' fs, next p' = next p → open p' = open p →
    safe R (fun _ _ => True) (unread snd h p) h' (opens s pending p' fs)) as Hrest.
  { intros p' fs Hn Ho. eapply safe_mono; [|apply IH]. intros h2 r2 (? & ? & ?). split_and!; congruence. }
  destruct r as [e|]; [|by apply Hrest]. repeat (case_match; [first [done|by apply Hrest]|]). by apply Hrest.
Qed.

Lemma converge_unread R s p h : safe R (fun _ _ => True) (unread snd h p) h (converge s p).
Proof.
  unfold converge. simpl. intros [prs|e] _; (split; [done|]); simpl; [|by split; [apply read_of_snoc|]].
  eapply safe_bind_spec; [apply resolves_unread|]. intros h1 [e|failures] Hh1; simpl.
  { split; [|done]. by rewrite Hh1, read_of_snoc. }
  eapply safe_bind_spec; [apply opens_unread|]. intros h2 [r p2] (Hh2 & Hn & Ho); simpl in *.
  split; [|done]. by rewrite Hh2, Hh1, read_of_snoc.
Qed.

(** The state after reading a prefix of the journal. *)
Record reading (J : journal) p (h : list O) : Prop := {
  rd_prefix : read_of h `prefix_of` J;
  rd_next : next p = position (read_of h);
  rd_open : open p = open_of (read_of h)
}.

Lemma reading_same J p p' h : reading J p h → next p' = next p → open p' = open p → reading J p' h.
Proof. intros [H1 H2 H3] Hn Ho. split; [done|by rewrite Hn|by rewrite Ho]. Qed.

Lemma reading_snoc J p h o : reading J p h → replayed_of o = [] → reading J p (h ++ [o]).
Proof. intros [H1 H2 H3] Ho. split; by rewrite read_of_snoc. Qed.

Section journal.
Context (J : journal) (HJ : sequenced J).

Abbreviation reads h p := (safe (journal_env J) (fun _ _ => True) (fun h' r => reading J r.2 h') h p).

#[local] Opaque converge.

Lemma pass_folded_reads s p h : reading J p h → reads h (pass_folded s p).
Proof.
  intros Hr. unfold pass_folded. simpl. intros [j err] Hj. split; [done|]. simpl in Hj. simpl.
  destruct Hr as [[rest Hp] Hn Ho]. rewrite Hn, Hp, filter_position in Hj by by rewrite <-Hp.
  destruct Hj as [rest' ->]. rewrite Hp in HJ.
  assert (reading J (fold_left visit j p) (h ++ [Obs (GReplay (next p)) (j, err)])) as Hr.
  { assert (read_of (h ++ [Obs (GReplay (next p)) (j, err)]) = read_of h ++ j) as Hread
      by (rewrite read_of_app; unfold read_of at 2; simpl; by rewrite app_nil_r).
    split; rewrite Hread.
    - rewrite Hp, app_assoc. by exists rest'.
    - apply visits_next; [|done]. rewrite app_assoc in HJ. by apply sequenced_app in HJ as (? & _ & _).
    - rewrite visits_open, Ho. symmetry. apply open_of_app. }
  destruct err as [e|]; [done|]. destruct (negb (dirty (fold_left visit j p))); simpl; [by eapply reading_same|].
  eapply safe_bind_spec; [apply converge_unread|]. intros h2 [e p2] (H1 & H2 & H3). simpl in H1, H2, H3.
  assert (reading J p2 h2) as Hr2.
  { destruct Hr as [Ha Hb Hc]. split; rewrite H1; [done|by rewrite H2|by rewrite H3]. }
  destruct e as [e|]; simpl; [done|]. intros u _. split; [done|].
  eapply reading_same; [by apply reading_snoc|done..].
Qed.

Lemma pass_reads p h : reading J p h → reads h (pass p).
Proof.
  assert (∀ s p h, reading J p h → reads h (pass_fenced s p)) as Hf.
  { clear p h. intros s p h Hr. unfold pass_fenced. destruct (fenced p); [by apply pass_folded_reads|].
    simpl. intros [e|] _; (split; [done|]); [by apply reading_snoc|].
    apply pass_folded_reads. eapply reading_same; [by apply reading_snoc|done..]. }
  intros Hr. unfold pass. destruct (scope p); [by apply Hf|]. simpl. intros [s|e] _; (split; [done|]).
  - apply Hf. eapply reading_same; [by apply reading_snoc|done..].
  - by apply reading_snoc.
Qed.

#[local] Opaque pass.

Lemma run_reads fuel p hints h :
  reading J p h →
  safe (journal_env J) (fun _ _ => True)
    (fun h' r => read_of h' `prefix_of` J ∧ ∀ p, r = Some p → reading J p h') h (run fuel p hints).
Proof.
  revert p hints h. induction fuel as [|fuel IH]; intros p hints h Hr; simpl; [by split; [apply Hr|]|].
  eapply safe_bind_spec with (Q1 := fun h' _ => reading J p h').
  { destruct hints; simpl; [done|]. intros x _. split; [done|]. by apply reading_snoc. }
  intros h1 subscribed Hr1. eapply safe_bind_spec; [by apply pass_reads|].
  intros h2 [err p2] Hr2. simpl in Hr2.
  eapply safe_bind_spec with (Q1 := fun h' r => reading J p2 h' ∧ ∀ p, r = Some p → reading J p h').
  { destruct err as [e|]; simpl; [|done]. intros b _. split; [done|].
    assert (reading J p2 (h2 ++ [Obs GCtxErr b])) by by apply reading_snoc. split; [done|].
    intros p3. destruct b; [|destruct (errors_is e ErrEpochSuperseded)]; intros [= <-]; [done|by eapply reading_same]. }
  intros h3 [p3|] [Hr3 Hs3]; simpl; [split; [by apply Hr3|]; naive_solver|]. intros arm _. split; [done|].
  assert (reading J p2 (h3 ++ [Obs (GWait subscribed (bool_decide (is_Some err) || negb subscribed)) arm])) as Hr4
    by by apply reading_snoc.
  destruct arm; simpl.
  - split; [by apply Hr4|]. by intros ? [= <-].
  - by apply IH.
  - intros u _. split; [done|]. by apply IH, reading_snoc.
  - intros b _. split; [done|]. destruct b; simpl; [by apply IH, reading_snoc|].
    assert (reading J p2 ((h3 ++ [Obs (GWait subscribed (bool_decide (is_Some err) || negb subscribed)) ArmClosed]) ++
      [Obs GRetryWait false])) as Hr5 by by apply reading_snoc.
    split; [by apply Hr5|]. by intros ? [= <-].
Qed.
End journal.

(** The fold reads every event of the journal once and in order, across failed
    passes, lost subscriptions and replays cut short: what it has read is a prefix
    of the journal, it resumes right after it, and the gates it holds open are
    exactly those that prefix opened and did not resolve. *)
Theorem journal_read_once J fuel t a (HJ : sequenced J) (Hrun : runs (run fuel started false) t a)
    (Henv : relied (journal_env J) [] t) :
  read_of t `prefix_of` J ∧
  ∀ p, a = Some p → next p = position (read_of t) ∧ open p = open_of (read_of t).
Proof.
  assert (reading J started []) as H0 by by split; [apply prefix_nil|..].
  destruct (safe_runs _ _ _ _ _ _ _ (run_reads J HJ fuel started false [] H0) Hrun Henv) as [[H1 H2] _].
  split; [done|]. intros p Hp. by destruct (H2 p Hp).
Qed.

(** ** What a convergence leaves projected *)

#[local] Transparent converge pass.

(** The projection after a write, for a store that keeps what it accepted. *)
Definition store_step (m : gmap string Proj) (o : O) : gmap string Proj :=
  match o with Obs e x =>
    match e in GE _ X return X → gmap string Proj with
    | GOpen pr => fun r => match r with None => <[GateID pr := pr]> m | Some _ => m end
    | GResolve id => fun r => match r with None => delete id m | Some _ => m end
    | _ => fun _ => m
    end x end.

Definition store_after (m : gmap string Proj) (t : list O) : gmap string Proj := fold_left store_step t m.

(** The open of the folded gate answered [e]. *)
Definition open_answered s (g : GateOpened) (seq : Z) (t : list O) (e : error) : Prop :=
  match Project s g seq with Ok pr => Obs (GOpen pr) (Some e) ∈ t | Err e' => e' = e end.

Definition is_open (o : O) : bool :=
  match o with Obs e _ => match e with GOpen _ => true | _ => false end end.

(** Resolves that end without a failure resolved everything unwanted. *)
Lemma resolves_done want projected failures t :
  runs (resolves want projected failures) t (inr []) →
  failures = [] ∧ Forall (fun o => is_open o = false) t ∧
  ∀ m id, (id ∈ GateID <$> projected → id ∉ want → store_after m t !! id = None) ∧
          (id ∉ GateID <$> projected ∨ id ∈ want → store_after m t !! id = m !! id).
Proof.
  revert failures t. induction projected as [|pr projected IH]; intros failures t; simpl.
  { intros [-> [= <-]]. split_and!; [done..|]. intros m id. split; [by intros ?%elem_of_nil|done]. }
  case_bool_decide as Hin; simpl.
  - intros (Hf & Ho & Hm)%IH. split_and!; [done..|]. intros m id. destruct (Hm m id) as [H1 H2].
    rewrite elem_of_cons. split; [|naive_solver]. intros [->|?] ?; [done|by apply H1].
  - intros (x & t' & -> & Hr).
    assert (x = None ∧ runs (resolves want projected failures) t' (inr [])) as [-> Hr'].
    { destruct x as [e|]; [|done]. destruct (errors_is e ErrEpochSuperseded); [by destruct Hr as [_ [=]]|].
      apply IH in Hr as [Hf _]. by destruct failures. }
    apply IH in Hr' as (Hf & Ho & Hm). split_and!; [done|by constructor|]. intros m id. simpl.
    destruct (Hm (delete (GateID pr) m) id) as [H1 H2]. rewrite elem_of_cons. split.
    + intros [->|?] Hw; [|by apply H1]. destruct (decide (GateID pr ∈ GateID <$> projected)); [by apply H1|].
      rewrite H2 by by left. apply lookup_delete_eq.
    + intros Hn. rewrite H2 by naive_solver. apply lookup_delete_ne. intros <-. naive_solver.
Qed.

Section opens_done.
(** Harness projects a gate under its own identity. *)
Context (Hid : ∀ s g seq deadline pr, ProjectGatePage s g seq deadline = Ok pr → GateID pr = g_ID g).

(** What became of one folded gate. *)
Definition opened_or_refused s (p' : Publisher) t (m m' : gmap string Proj) (x : string * openGate) : Prop :=
  (∃ pr, Project s x.2.1 x.2.2 = Ok pr ∧ m' !! x.1 = Some pr) ∨
  m' !! x.1 = m !! x.1 ∧
    (x.1 ∈ unpublishable p' ∨ ∃ e, open_answered s x.2.1 x.2.2 t e ∧ errors_is e ErrProjectionFull = true).

Lemma opened_or_refused_cons s p' o t m m' x :
  opened_or_refused s p' t m m' x → opened_or_refused s p' (o :: t) m m' x.
Proof.
  intros [?|[? [?|(e & He & ?)]]]; [by left|right; split; [done|]; by left|right; split; [done|]; right].
  exists e. split; [|done]. unfold open_answered in *. case_match; [by right|done].
Qed.

(** Opens that end without a failure opened every gate or have a reason not to. *)
Lemma opens_done s pending p failures t p' :
  runs (opens s pending p failures) t (inr [], p') →
  NoDup pending.*1 → Forall (fun x => x.1 = g_ID x.2.1) pending →
  failures = [] ∧ open p' = open p ∧ unpublishable p ⊆ unpublishable p' ∧ Forall (fun o => is_open o = true) t ∧
  ∀ m, (∀ id, id ∉ pending.*1 → store_after m t !! id = m !! id) ∧
       Forall (opened_or_refused s p' t m (store_after m t)) pending.
Proof.
  revert p failures t. induction pending as [|[id [g seq]] pending IH]; intros p failures t; simpl.
  { intros [-> [= <- <-]] _ _. done. }
  intros Hr Hnd Hkey. apply NoDup_cons in Hnd as [Hnew Hnd]. apply Forall_cons in Hkey as [Hk Hkey]. simpl in Hk.
  apply runs_bind in Hr as (t1 & t2 & err & -> & H1 & H2).
  assert (∃ q, runs (opens s pending q failures) t2 (inr [], p') ∧ open q = open p ∧ unpublishable p ⊆ unpublishable q ∧
    (err = None ∨ id ∈ unpublishable q ∨ ∃ e, err = Some e ∧ errors_is e ErrProjectionFull = true)) as (q & Hq & Ho & Hu & Hwhy).
  { destruct err as [e|]; [|by exists p; auto].
    destruct (errors_is e ErrEpochSuperseded); [by destruct H2 as [_ [=]]|].
    destruct (errors_is e ErrUnpublishable).
    { eexists. split; [exact H2|]. split_and!; [done|apply union_subseteq_r|]. right. left.
      apply elem_of_union. left. by apply elem_of_singleton. }
    destruct (errors_is e ErrProjectionFull) eqn:He; [eexists; split; [done|]; split_and!; [done..|]; eauto|].
    apply IH in H2 as (Hf & _); [|done..]. by destruct failures. }
  destruct (IH _ _ _ Hq Hnd Hkey) as (Hf & Ho' & Hu' & Hopen & Hm).
  assert (∀ pr, Project s g seq = Ok pr → GateID pr = id) as Hpid by (intros pr Hpr; rewrite Hk; by eapply Hid).
  split_and!; [done|congruence|by etrans| |].
  - apply Forall_app. split; [|done]. destruct (Project s g seq); [destruct H1 as (x & t' & -> & -> & _)|destruct H1 as [-> _]];
      by repeat constructor.
  - intros m. unfold store_after. rewrite fold_left_app. fold (store_after m t1). fold (store_after (store_after m t1) t2).
    destruct (Hm (store_after m t1)) as [Hsame Hdone].
    assert (∀ id', id' ≠ id → store_after m t1 !! id' = m !! id') as Hother.
    { intros id' Hne. destruct (Project s g seq) as [pr|e]; [|by destruct H1 as [-> _]].
      destruct H1 as (x & t' & -> & -> & _). simpl. destruct x; [done|].
      rewrite Hpid by done. by rewrite lookup_insert_ne. }
    split; [intros id' [Hne Hn]%not_elem_of_cons; rewrite Hsame by done; by apply Hother|]. constructor.
    + unfold opened_or_refused. simpl. rewrite Hsame by done. unfold open_answered.
      destruct (Project s g seq) as [pr|e] eqn:Hpr.
      * destruct H1 as (x & t' & -> & -> & ->). simpl. rewrite <-(Hpid pr) by done.
        destruct x as [e|]; [right; split; [done|]|left; exists pr; by rewrite lookup_insert_eq].
        rewrite (Hpid pr) by done.
        destruct Hwhy as [[=]|[?|(e' & [= <-] & ?)]]; [left; by apply Hu'|right; exists e; split; [by left|done]].
      * destruct H1 as [-> ->]. right. split; [done|].
        destruct Hwhy as [[=]|[?|(e' & [= <-] & ?)]]; [left; by apply Hu'|right; by exists e].
    + apply Forall_forall. intros y Hy. rewrite Forall_forall in Hdone. specialize (Hdone y Hy).
      assert (y.1 ≠ id) as Hne by (intros <-; apply Hnew, list_elem_of_fmap; by exists y).
      unfold opened_or_refused in *. rewrite Hother in Hdone by done.
      destruct Hdone as [?|[? [?|(e & He & ?)]]]; [by left|right; split; [done|]; by left|right; split; [done|]; right].
      exists e. split; [|done]. unfold open_answered in *. case_match; [apply elem_of_app; by right|done].
Qed.

(** C27 A pass that converges leaves the projection as the fold has it: every gate the
    journal has closed is gone, every gate it holds open is there, projected from its
    own event, unless the store said it never can be or has no room, and a gate that
    was projected already is left as it stands.  Every resolve comes before every
    open, so the room a closed gate frees is there for the opens of the same pass. *)
Theorem converge_projects s p t p' prs (m : gmap string Proj)
    (Hrun : runs (converge s p) (Obs GProjected (Ok prs) :: t) (None, p'))
    (Hstore : list_to_set (GateID <$> prs) = dom m)
    (Hkeys : map_Forall (fun id x => id = g_ID x.1) (open p)) :
  open p' = open p ∧
  (∀ id, open p !! id = None → store_after m t !! id = None) ∧
  (∀ id g seq, open p !! id = Some (g, seq) →
     (is_Some (m !! id) ∧ store_after m t !! id = m !! id) ∨
     (∃ pr, Project s g seq = Ok pr ∧ store_after m t !! id = Some pr) ∨
     id ∈ unpublishable p' ∨ ∃ e, open_answered s g seq t e ∧ errors_is e ErrProjectionFull = true) ∧
  ∃ t1 t2, t = t1 ++ t2 ∧ Forall (fun o => is_open o = false) t1 ∧ Forall (fun o => is_open o = true) t2.
Proof.
  destruct Hrun as (r & t' & Heq & Hrun).
  assert (r = Ok prs) as ->.
  { apply (f_equal (fun l => head l ≫= projected_at)) in Heq. simpl in Heq. by destruct r; simplify_eq. }
  injection Heq as <-.
  simpl in Hrun. apply runs_bind in Hrun as (t1 & t2 & [e|failures] & -> & H1 & H2); [by destruct H2 as [_ [=]]|].
  apply runs_bind in H2 as (t3 & t4 & [[e|fs] q] & -> & H2 & [-> Hend]); simpl in Hend; [done|].
  injection Hend as Hj <-. assert (fs = []) as -> by by destruct fs.
  set (pending := pending_gates p (list_to_set (GateID <$> prs))) in H2.
  assert (∀ x, x ∈ pending ↔ m !! x.1 = None ∧ x.1 ∉ unpublishable p ∧ open p !! x.1 = Some x.2) as Hin.
  { intros x. unfold pending. rewrite pending_gates_elem, Hstore, not_elem_of_dom. done. }
  apply opens_done in H2 as (-> & Ho & Hu & Hopen & Hm).
  2: { by apply pending_gates_NoDup. }
  2: { apply Forall_forall. intros x (_ & _ & Hx)%Hin. by apply (Hkeys _ _ Hx). }
  apply resolves_done in H1 as (_ & Hclosed & Hgone).
  assert (∀ id, id ∈ GateID <$> prs ↔ is_Some (m !! id)) as Hprs.
  { intros id. rewrite <-elem_of_dom, <-Hstore. by rewrite elem_of_list_to_set. }
  assert (∀ id, id ∉ pending.*1 → store_after m (t1 ++ t3 ++ []) !! id = store_after m t1 !! id) as Hrest.
  { intros id Hn. unfold store_after. rewrite app_nil_r, fold_left_app. by apply (Hm (store_after m t1)). }
  split_and!; [done| | |exists t1, (t3 ++ []); by rewrite app_nil_r].
  - intros id Hn. rewrite Hrest by (intros (x & -> & (_ & _ & Hx)%Hin)%list_elem_of_fmap; congruence).
    destruct (Hgone m id) as [H1 H2]. destruct (m !! id) eqn:Hid'; [|by rewrite H2; [|left; rewrite Hprs, Hid'; intros []]].
    apply H1; [apply Hprs; eauto|by apply not_elem_of_dom].
  - intros id g seq Hx. pose proof (elem_of_dom_2 _ _ _ Hx) as Hd. destruct (Hgone m id) as [_ H2].
    specialize (H2 (or_intror Hd)). destruct (m !! id) as [pr|] eqn:Hid'.
    { left. split; [by eexists|]. rewrite Hrest, H2, <-Hid' by
        (intros (x & -> & (Hno & _ & _)%Hin)%list_elem_of_fmap; congruence). done. }
    right. destruct (decide (id ∈ unpublishable p)) as [Hbad|Hok]; [right; left; set_solver|].
    destruct (Hm (store_after m t1)) as [_ Hall]. rewrite Forall_forall in Hall.
    destruct (Hall (id, (g, seq))) as [(pr & Hpr & Hp)|[_ [?|(e & He & ?)]]]; [by apply Hin| | |]; simpl in *.
    + left. exists pr. split; [done|]. unfold store_after. by rewrite app_nil_r, fold_left_app.
    + by right; left.
    + right. right. exists e. split; [|done]. unfold open_answered in *. rewrite app_nil_r.
      case_match; [apply elem_of_app; by right|done].
Qed.
End opens_done.
End publisher.

(** ** Witnesses *)

Definition gate_a : GateOpened := mkGateOpened "a" KindPermission 0 100 "".
Definition gate_b : GateOpened := mkGateOpened "b" (KindOther "ask_user") 7 200 "".
Definition sample_scope : Scope := mkScope "t" "s" "agent" "rig".

(** A projection is its identity and its deadline. *)
Definition sample_project (_ : Scope) (g : GateOpened) (_ deadline : Z) : res (string * Z) := Ok (g_ID g, deadline).

Definition sample_journal : journal :=
  [(EvGateOpened gate_a, 1%Z); (EvOther, 2%Z); (EvGateOpened gate_b, 3%Z); (EvGateResolved "a", 5%Z)].

(** The store's projection, the replays and the waits so far. *)
Record world := mkWorld { w_store : gmap string (string * Z); w_replays : nat; w_waits : nat }.

(** The first replay is cut short after two events, the second after the third. *)
Definition sample_env : handler (GE (string * Z)) world := fun X e w =>
  match e in GE _ X return X * world with
  | GSubscribe => (None, w)
  | GScope => (Ok sample_scope, w)
  | GProjected => (Ok (snd <$> map_to_list (w_store w)), w)
  | GOpen pr => (None, mkWorld (<[pr.1 := pr]> (w_store w)) (w_replays w) (w_waits w))
  | GResolve id => (None, mkWorld (delete id (w_store w)) (w_replays w) (w_waits w))
  | GReplay from =>
      let rest := filter (fun x => (from ≤ x.2)%Z) sample_journal in
      (match w_replays w with
       | O => (take 2 rest, Some (EForeign "cut"))
       | S O => (take 1 rest, None)
       | _ => (rest, None)
       end, mkWorld (w_store w) (S (w_replays w)) (w_waits w))
  | GOnConverged => (tt, w)
  | GCtxErr => (false, w)
  | GWait _ _ =>
      (match w_waits w with O => ArmRetry | S O => ArmHint | _ => ArmDone end,
       mkWorld (w_store w) (w_replays w) (S (w_waits w)))
  | GDrainHints => (tt, w)
  | GRetryWait => (true, w)
  end.

Definition sample_run := exec sample_env (run fst sample_project 5 started false) (mkWorld ∅ 0 0).
Definition sample_trace : list (obs (GE (string * Z))) := Eval vm_compute in sample_run.2.

Lemma gates_sample_runs : runs (run fst sample_project 5 started false) sample_trace sample_run.1.1.
Proof. refine (exec_runs sample_env _ (mkWorld ∅ 0 0) _ sample_run.1.2 _ _). vm_compute. reflexivity. Defined.

(** Both gates are open after the second replay; the third closes the first. *)
Example sample_store : w_store sample_run.1.2 = {["b" := ("b", 207%Z)]}.
Proof. vm_compute. reflexivity. Qed.

Lemma gate_writes_lawful_witness :
  lawful fst sample_project (take 15 sample_trace) (Obs (GResolve "a") None) ∧
  open_of (read_of (take 15 sample_trace)) !! "a" = None.
Proof.
  split; [|vm_compute; reflexivity].
  refine (gate_writes_lawful fst sample_project 5 sample_trace _ gates_sample_runs _ _ (drop 16 sample_trace) _).
  vm_compute. reflexivity.
Defined.

Lemma sample_sequenced : sequenced sample_journal.
Proof. split; repeat constructor; simpl; unfold two64; lia. Qed.

Lemma sample_relied : relied (journal_env sample_journal) [] sample_trace.
Proof.
  repeat (apply relied_cons_2; [first [exact I|eexists; vm_compute; reflexivity]|]). apply relied_nil.
Qed.

Lemma journal_read_once_witness :
  read_of sample_trace `prefix_of` sample_journal ∧ read_of sample_trace = sample_journal ∧
  match sample_run.1.1 with
  | Some p => open p = open_of sample_journal ∧ next p = 6%Z
  | None => False
  end.
Proof.
  destruct (journal_read_once fst sample_project sample_journal 5 sample_trace _ sample_sequenced gates_sample_runs
    sample_relied) as [H1 H2].
  split; [exact H1|]. split; [vm_compute; reflexivity|].
  destruct (sample_run.1.1) as [p|] eqn:Hp; [|vm_compute in Hp; discriminate].
  destruct (H2 p eq_refl) as [Hn Ho]. rewrite Hn, Ho. split; vm_compute; reflexivity.
Defined.

(** A closed gate is projected and an open one is not. *)
Definition sample_state : Publisher := fold_left visit [(EvGateOpened gate_b, 3%Z)] started.
Definition sample_projection : gmap string (string * Z) := {["a" := ("a", 1%Z)]}.
Definition sample_pass : list (obs (GE (string * Z))) :=
  [Obs (GResolve "a") None; Obs (GOpen ("b", 207%Z)) None].

Lemma converge_projects_witness :
  runs (converge fst sample_project sample_scope sample_state)
    (Obs GProjected (Ok [("a", 1%Z)]) :: sample_pass) (None, sample_state) ∧
  store_after fst sample_projection sample_pass !! "a" = None ∧
  (∃ pr, store_after fst sample_projection sample_pass !! "b" = Some pr).
Proof.
  assert (runs (converge fst sample_project sample_scope sample_state)
    (Obs GProjected (Ok [("a", 1%Z)]) :: sample_pass) (None, sample_state)) as Hr.
  { simpl. do 2 eexists. split; [reflexivity|]. vm_compute. do 2 eexists. split; [reflexivity|].
    do 2 eexists. split; [reflexivity|]. split; reflexivity. }
  assert (map_Forall (fun id x => id = g_ID x.1) (open sample_state)) as Hkeys
    by (apply map_Forall_insert_2; [reflexivity|apply map_Forall_empty]).
  assert (list_to_set (fst <$> [("a", 1%Z)]) =@{gset string} dom sample_projection) as Hstore by (vm_compute; reflexivity).
  split; [exact Hr|].
  destruct (converge_projects fst sample_project (fun _ _ _ _ _ H => ltac:(by injection H as <-))
    sample_scope sample_state sample_pass sample_state [("a", 1%Z)] sample_projection Hr
    Hstore Hkeys) as (_ & Hclosed & _ & _).
  split; [by apply Hclosed|]. exists ("b", 207%Z). vm_compute. reflexivity.
Defined.
End Gates.
