(* ===== verification/Teardown.v ===== *)
(** * Teardown.v: one residency's runtime teardown

    [teardown] of [internal/compose/teardown.go]: the graceful release and the
    crash-equivalent abandon of a runtime as one state machine, with any number of
    callers of [release] and [abandon] waiting on its flights.  A step is what one
    critical section, one runtime call's return or one end of a wait does; what the
    runtime answers, when it stops and when a caller's context ends are the
    environment's.                                                            *)
From Stdlib Require Import ZArith.
From stdpp Require Import base list strings gmap relations.
From S2P Require Import Prelude Wire Errors.

Module Teardown.

Inductive teardownKind := kindGraceful | kindAbandon.

Inductive teardownPhase := phaseResident | phaseReleasing | phaseAbandoning | phaseReleased | phaseFailed.

#[export] Instance teardownKind_eq_dec : EqDecision teardownKind.
Proof. solve_decision. Defined.

#[export] Instance teardownPhase_eq_dec : EqDecision teardownPhase.
Proof. solve_decision. Defined.

(** How far a flight's goroutine is: in the runtime's call, past it, or with [done]
    closed, [err] and [handedTo] set. *)
Inductive progress := Calling | Returned (err : option error) | Done (err : option error) (handedTo : option nat).

(** [teardownFlight]; a flight is named by its place among all of them. *)
Record teardownFlight := mkFlight { fkind : teardownKind; cancelled : bool; at_ : progress }.

(** Where a caller of [release] or [abandon] is.  [RWait] and [AWait] are their
    waits on a flight they may have to look past, [Wait] the last one. *)
Inductive caller :=
| Idle
| RStart | RWait (f : nat)
| AStart | AWait (f : nat)
| Wait (f : nat)
| Answered (err : option error)
| StillInFlight
| Crashed.                          (* a nil flight dereferenced *)

Record teardown := mkTeardown {
  phase : teardownPhase;
  current : option nat;
  flights : list teardownFlight;     (* every flight elected so far *)
  pendingAbandon : bool;
  onReleased : list nat;
  queued : list nat;                 (* callbacks on their way, the lock given up *)
  ran : list nat;
  stopped : bool;                    (* the runtime's [Done] is closed *)
  callers : list caller
}.

Implicit Types (t : teardown) (f i : nat) (c : caller).

(** A residency's teardown when it is made, with [n] goroutines that may call it. *)
Definition fresh (n : nat) : teardown := mkTeardown phaseResident None [] false [] [] [] false (replicate n Idle).

Definition with_caller t i c : teardown :=
  mkTeardown (phase t) (current t) (flights t) (pendingAbandon t) (onReleased t) (queued t) (ran t) (stopped t)
    (<[i := c]> (callers t)).

(** [electLocked]: the flight is elected and its goroutine calls the runtime. *)
Definition electLocked (kind : teardownKind) t : teardown :=
  mkTeardown (match kind with kindGraceful => phaseReleasing | kindAbandon => phaseAbandoning end)
    (Some (length (flights t))) (flights t ++ [mkFlight kind false Calling]) (pendingAbandon t) (onReleased t)
    (queued t) (ran t) (stopped t) (callers t).

Definition waiting (wait : nat → caller) t : caller :=
  match current t with Some f => wait f | None => Crashed end.

(** [release]'s critical section: where its caller goes from it. *)
Definition release t : caller * teardown :=
  match phase t with
  | phaseReleased => (Answered None, t)
  | phaseAbandoning | phaseFailed => (waiting Wait t, t)
  | phaseReleasing => (waiting RWait t, t)
  | phaseResident => (RWait (length (flights t)), electLocked kindGraceful t)
  end.

(** [flight.cancel()]. *)
Definition cancel f t : teardown :=
  mkTeardown (phase t) (current t) (alter (fun x => mkFlight (fkind x) true (at_ x)) f (flights t)) (pendingAbandon t)
    (onReleased t) (queued t) (ran t) (stopped t) (callers t).

Definition with_pending (b : bool) t : teardown :=
  mkTeardown (phase t) (current t) (flights t) b (onReleased t) (queued t) (ran t) (stopped t) (callers t).

(** [abandon]'s critical section, each time around its loop. *)
Definition abandon t : caller * teardown :=
  match phase t with
  | phaseReleased => (Answered None, t)
  | phaseAbandoning | phaseFailed => (waiting Wait t, t)
  | phaseReleasing =>
      match current t with
      | Some f => (AWait f, cancel f (with_pending true t))
      | None => (Crashed, t)
      end
  | phaseResident => (Wait (length (flights t)), electLocked kindAbandon t)
  end.

Definition with_flight f (p : progress) t : teardown :=
  mkTeardown (phase t) (current t) (alter (fun x => mkFlight (fkind x) (cancelled x) p) f (flights t)) (pendingAbandon t)
    (onReleased t) (queued t) (ran t) (stopped t) (callers t).

Definition with_phase (p : teardownPhase) t : teardown :=
  mkTeardown p (current t) (flights t) (pendingAbandon t) (onReleased t) (queued t) (ran t) (stopped t) (callers t).

(** What a terminal success does with the registered callbacks. *)
Definition take_callbacks t : teardown :=
  mkTeardown (phase t) (current t) (flights t) (pendingAbandon t) [] (queued t ++ onReleased t) (ran t) (stopped t) (callers t).

(** The end of [run], its call having returned [err]: the phase moves on and [done]
    closes. *)
Definition complete f (kind : teardownKind) (err : option error) t : teardown :=
  let pending := pendingAbandon t in
  let t := with_pending false t in
  match err with
  | None => with_flight f (Done None None) (take_callbacks (with_phase phaseReleased t))
  | Some e =>
      if bool_decide (kind = kindGraceful) && negb (stopped t) then
        if pending
        then with_flight f (Done (Some e) (Some (length (flights t)))) (electLocked kindAbandon t)
        else with_flight f (Done (Some e) None) (with_phase phaseResident t)
      else with_flight f (Done (Some e) None) (with_phase phaseFailed t)
  end.

(** [whenReleased]. *)
Definition whenReleased (callback : nat) t : teardown :=
  match phase t with
  | phaseReleased => mkTeardown (phase t) (current t) (flights t) (pendingAbandon t) (onReleased t)
                       (queued t ++ [callback]) (ran t) (stopped t) (callers t)
  | _ => mkTeardown (phase t) (current t) (flights t) (pendingAbandon t) (onReleased t ++ [callback])
           (queued t) (ran t) (stopped t) (callers t)
  end.

Definition released t : bool := bool_decide (phase t = phaseReleased).

(** What a wait on a finished flight goes on with. *)
Definition waited c (err : option error) (handedTo : option nat) : caller :=
  match c with
  | RWait _ => match err, handedTo with
               | Some _, Some g => Wait g
               | _, _ => Answered err
               end
  | AWait _ => AStart
  | _ => Answered err
  end.

Definition waits_on c : option nat :=
  match c with RWait f | AWait f | Wait f => Some f | _ => None end.

Inductive step t : teardown → Prop :=
| step_release i c t' :
    callers t !! i = Some RStart → release t = (c, t') → step t (with_caller t' i c)
| step_abandon i c t' :
    callers t !! i = Some AStart → abandon t = (c, t') → step t (with_caller t' i c)
| step_waited i c f x err handed :
    callers t !! i = Some c → waits_on c = Some f → flights t !! f = Some x → at_ x = Done err handed →
    step t (with_caller t i (waited c err handed))
| step_return f x err :                                 (* the runtime's call returns *)
    flights t !! f = Some x → at_ x = Calling → step t (with_flight f (Returned err) t)
| step_complete f x err :
    flights t !! f = Some x → at_ x = Returned err → step t (complete f (fkind x) err t)
| step_callback b q :
    queued t = b :: q →
    step t (mkTeardown (phase t) (current t) (flights t) (pendingAbandon t) (onReleased t) q (ran t ++ [b])
              (stopped t) (callers t))
| step_stop :                                           (* the runtime's liveness ends *)
    stopped t = false →
    step t (mkTeardown (phase t) (current t) (flights t) (pendingAbandon t) (onReleased t) (queued t) (ran t)
              true (callers t)).

(** What comes from outside: a call of [release] or [abandon], or a callback. *)
Inductive arrive t : teardown → Prop :=
| arrive_release i : callers t !! i = Some Idle → arrive t (with_caller t i RStart)
| arrive_abandon i : callers t !! i = Some Idle → arrive t (with_caller t i AStart)
| arrive_callback b : arrive t (whenReleased b t).

(** A waiting caller's context ends first. *)
Inductive expire t : teardown → Prop :=
| expired i c f : callers t !! i = Some c → waits_on c = Some f → expire t (with_caller t i StillInFlight).

Definition moves t t' : Prop := step t t' ∨ expire t t' ∨ arrive t t'.

Definition reachable (n : nat) t : Prop := rtc moves (fresh n) t.
(** ** What a teardown may become

    Flights only get done, and once an abandon was asked for nothing but it is ever
    elected. *)
Definition is_done (x : teardownFlight) : bool := match at_ x with Done _ _ => true | _ => false end.

Definition asked t : Prop :=
  pendingAbandon t = true ∨ phase t = phaseAbandoning ∨ phase t = phaseReleased ∨ phase t = phaseFailed.

Definition flights_le (l k : list teardownFlight) : Prop :=
  ∀ f x, l !! f = Some x → ∃ y, k !! f = Some y ∧ fkind y = fkind x ∧ ∀ e h, at_ x = Done e h → at_ y = Done e h.

Record evolves t t' : Prop := {
  ev_flights : flights_le (flights t) (flights t');
  ev_asked : asked t → asked t';
  ev_dominates : asked t → ∀ f x, flights t' !! f = Some x → fkind x = kindGraceful → f < length (flights t);
  ev_released : phase t = phaseReleased → phase t' = phaseReleased ∧ length (flights t') = length (flights t);
  ev_failed : phase t = phaseFailed → phase t' = phaseFailed ∧ length (flights t') = length (flights t)
}.

Lemma flights_le_length l k : flights_le l k → length l ≤ length k.
Proof.
  intros Hle. destruct l as [|x l _] using rev_ind; simpl; [lia|]. rewrite length_app. simpl.
  destruct (Hle (length l) x) as (y & Hy & _); [by apply list_lookup_middle|].
  apply lookup_lt_Some in Hy. lia.
Qed.

Lemma flights_le_refl l : flights_le l l.
Proof. intros f x Hx. by exists x. Qed.

Lemma flights_le_trans l1 l2 l3 : flights_le l1 l2 → flights_le l2 l3 → flights_le l1 l3.
Proof.
  intros H1 H2 f x (y & (z & Hz & Hk & Hd)%H2 & Hk' & Hd')%H1. exists z. split_and!; [done|congruence|auto].
Qed.

Lemma flights_le_alter g f l :
  (∀ x, fkind (g x) = fkind x) → (∀ x e h, l !! f = Some x → at_ x = Done e h → at_ (g x) = Done e h) →
  flights_le l (alter g f l).
Proof.
  intros Hk Hd f' x Hx. rewrite list_lookup_alter. case_decide as He; [|by exists x]. subst f'. rewrite Hx. simpl.
  exists (g x). split_and!; [done|done|eauto].
Qed.

Lemma flights_le_app l k : flights_le l (l ++ k).
Proof. intros f x Hx. exists x. split; [by apply lookup_app_l_Some|done]. Qed.

Lemma evolves_refl t : evolves t t.
Proof. split; [apply flights_le_refl|done| |done|done]. intros _ f x Hx _. by eapply lookup_lt_Some. Qed.

Lemma evolves_trans t1 t2 t3 : evolves t1 t2 → evolves t2 t3 → evolves t1 t3.
Proof.
  intros [F1 A1 D1 R1 B1] [F2 A2 D2 R2 B2]. split.
  - by eapply flights_le_trans.
  - auto.
  - intros Ha f x Hx Hk. pose proof (D2 (A1 Ha) f x Hx Hk) as Hlt.
    apply lookup_lt_is_Some in Hlt as [y Hy]. destruct (F2 f y Hy) as (z & Hz & Hzk & _). simplify_eq.
    eapply (D1 Ha f y); [done|congruence].
  - intros Hp. destruct (R1 Hp) as [Hp' Hl]. destruct (R2 Hp'). split; [done|lia].
  - intros Hp. destruct (B1 Hp) as [Hp' Hl]. destruct (B2 Hp'). split; [done|lia].
Qed.

(** ** The invariant *)

(** A flight before the last is a graceful release that failed. *)
Definition retried (x : teardownFlight) : Prop :=
  fkind x = kindGraceful ∧ ∃ e h, at_ x = Done (Some e) h.

(** The last flight, phase by phase. *)
Definition last_ok (ph : teardownPhase) (x : teardownFlight) : Prop :=
  match ph with
  | phaseResident => fkind x = kindGraceful ∧ ∃ e, at_ x = Done (Some e) None
  | phaseReleasing => fkind x = kindGraceful ∧ is_done x = false
  | phaseAbandoning => fkind x = kindAbandon ∧ is_done x = false
  | phaseReleased => at_ x = Done None None
  | phaseFailed => ∃ e, at_ x = Done (Some e) None
  end.

Inductive shape : teardownPhase → list teardownFlight → option nat → Prop :=
| shape_none : shape phaseResident [] None
| shape_some ph fs x : Forall retried fs → last_ok ph x → shape ph (fs ++ [x]) (Some (length fs)).

Record core t : Prop := {
  co_shape : shape (phase t) (flights t) (current t);
  co_handed : ∀ f x e g, flights t !! f = Some x → at_ x = Done e (Some g) →
                ∃ y, flights t !! g = Some y ∧ fkind y = kindAbandon;
  co_pending : pendingAbandon t = true → phase t = phaseReleasing;
  co_callbacks : queued t ++ ran t ≠ [] → phase t = phaseReleased;
  co_taken : phase t = phaseReleased → onReleased t = []
}.

Definition caller_ok t c : Prop :=
  match c with
  | RWait f => ∃ x, flights t !! f = Some x ∧ fkind x = kindGraceful
  | AWait f => asked t ∧ ∃ x, flights t !! f = Some x ∧ fkind x = kindGraceful
  | Wait f => is_Some (flights t !! f)
  | Answered None => phase t = phaseReleased
  | Answered (Some e) => ∃ f x h, flights t !! f = Some x ∧ at_ x = Done (Some e) h
  | Crashed => False
  | Idle | RStart | AStart | StillInFlight => True
  end.

Lemma caller_ok_evolves t t' c : evolves t t' → caller_ok t c → caller_ok t' c.
Proof.
  intros [F A _ R _]. destruct c as [| |f| |f|f|[e|]| |]; simpl; try done.
  - intros (x & (y & ? & ? & _)%F & ?). exists y. split; [done|congruence].
  - intros (? & x & (y & ? & ? & _)%F & ?). split; [auto|]. exists y. split; [done|congruence].
  - intros [x (y & ? & _)%F]. by exists y.
  - intros (f & x & h & (y & ? & _ & Hd)%F & ?). exists f, y, h. auto.
  - intros Hp. by apply R.
Qed.

(** The flight that is not done is the last, and the current one. *)
Lemma shape_running ph l cur f x :
  shape ph l cur → l !! f = Some x → is_done x = false →
  ∃ fs, l = fs ++ [x] ∧ f = length fs ∧ cur = Some f ∧ Forall retried fs ∧ last_ok ph x.
Proof.
  intros [|ph' fs y Hfs Hy]; [done|]. intros [[Hlt Hx]|[-> ->]]%lookup_snoc_Some Hd; [|by exists fs].
  rewrite Forall_lookup in Hfs. destruct (Hfs _ _ Hx) as (_ & e & h & Ha). unfold is_done in Hd. by rewrite Ha in Hd.
Qed.

Lemma last_ok_running ph x : last_ok ph x → is_done x = false → ph = phaseReleasing ∨ ph = phaseAbandoning.
Proof.
  unfold is_done. destruct ph; simpl; auto.
  - intros (_ & e & ->). done.
  - by intros ->.
  - intros (e & ->). done.
Qed.

Lemma electLocked_core kind t :
  core t → phase t = phaseResident → core (electLocked kind t) ∧ evolves t (electLocked kind t) ∧
  flights (electLocked kind t) !! length (flights t) = Some (mkFlight kind false Calling).
Proof.
  intros [Hs Hh Hp Hc Ht] Hr. split; [|split].
  - split; simpl.
    + assert (Forall retried (flights t)) as Hfs.
      { rewrite Hr in Hs. inversion Hs as [|? fs x Hfs Hx]; subst; [done|]. apply Forall_app. split; [done|].
        destruct Hx as (? & e & ?). repeat constructor; eauto. }
      destruct kind; (constructor; [done|by split]).
    + intros f x e g. rewrite lookup_app_Some. intros [Hx|[_ Hx]] Hd.
      * destruct (Hh f x e g Hx Hd) as (y & ? & ?). exists y. split; [by apply lookup_app_l_Some|done].
      * apply list_lookup_singleton_Some in Hx as [_ <-]. done.
    + intros Hpa. rewrite Hp in Hr by done. done.
    + intros Hq. rewrite Hc in Hr by done. done.
    + by destruct kind.
  - split; simpl.
    + apply flights_le_app.
    + intros [Ha|[Ha|[Ha|Ha]]]; [rewrite Hp in Hr by done|..]; congruence.
    + intros [Ha|[Ha|[Ha|Ha]]]; [rewrite Hp in Hr by done|..]; congruence.
    + congruence.
    + congruence.
  - by apply list_lookup_middle.
Qed.

Lemma waiting_current t : core t → phase t ≠ phaseResident → ∃ f x, current t = Some f ∧ flights t !! f = Some x ∧ last_ok (phase t) x.
Proof.
  intros [Hs _ _ _ _] Hp. destruct Hs as [|ph fs x Hfs Hx]; [done|]. exists (length fs), x.
  split_and!; [done|by apply list_lookup_middle|done].
Qed.

Lemma release_ok t c t' : core t → release t = (c, t') → core t' ∧ evolves t t' ∧ caller_ok t' c.
Proof.
  intros Hc. unfold release, waiting. destruct (phase t) eqn:Hp.
  - intros [= <- <-]. destruct (electLocked_core kindGraceful t Hc Hp) as (H1 & H2 & H3). split_and!; [done..|].
    simpl. eexists. by split.
  - destruct (waiting_current t Hc) as (f & x & -> & Hx & Hl); [congruence|]. intros [= <- <-].
    split_and!; [done|apply evolves_refl|]. simpl. exists x. split; [done|]. rewrite Hp in Hl. apply Hl.
  - destruct (waiting_current t Hc) as (f & x & -> & Hx & Hl); [congruence|]. intros [= <- <-].
    split_and!; [done|apply evolves_refl|]. simpl. eauto.
  - intros [= <- <-]. split_and!; [done|apply evolves_refl|done].
  - destruct (waiting_current t Hc) as (f & x & -> & Hx & Hl); [congruence|]. intros [= <- <-].
    split_and!; [done|apply evolves_refl|]. simpl. eauto.
Qed.

Lemma abandon_releasing t f :
  core t → phase t = phaseReleasing → current t = Some f →
  core (cancel f (with_pending true t)) ∧ evolves t (cancel f (with_pending true t)) ∧
  caller_ok (cancel f (with_pending true t)) (AWait f).
Proof.
  intros [Hs Hh Hp Hc Ht] Hr Hf. rewrite Hr, Hf in Hs. inversion Hs as [|? fs x Hfs Hx Hph Hfl Hlen]; subst.
  assert (flights (cancel (length fs) (with_pending true t)) = fs ++ [mkFlight (fkind x) true (at_ x)]) as Hnew.
  { simpl. rewrite <-Hfl. rewrite alter_app_r_alt by lia. by rewrite Nat.sub_diag. }
  split_and!.
  - split; rewrite ?Hnew; simpl.
    + rewrite Hr, Hf. by constructor.
    + intros g y e h Hy Hd. assert (∃ y', flights t !! g = Some y' ∧ at_ y' = Done e (Some h)) as (y' & Hy' & Hd').
      { rewrite <-Hfl. apply lookup_snoc_Some in Hy as [[? Hy]|[-> <-]]; [exists y|exists x]; (split; [|done]);
          [by apply lookup_app_l_Some|by apply list_lookup_middle]. }
      destruct (Hh _ _ _ _ Hy' Hd') as (z & Hz & Hk). rewrite <-Hfl in Hz.
      apply lookup_snoc_Some in Hz as [[? Hz]|[-> <-]]; [exists z|exists (mkFlight (fkind x) true (at_ x))]; (split; [|done]);
        [by apply lookup_app_l_Some|by apply list_lookup_middle].
    + done.
    + done.
    + done.
  - split; simpl.
    + apply flights_le_alter; done.
    + intros _. by left.
    + intros _ g y Hy _. apply lookup_lt_Some in Hy. by rewrite length_alter in Hy.
    + rewrite length_alter. done.
    + rewrite length_alter. done.
  - simpl. split; [by left|]. exists (mkFlight (fkind x) true (at_ x)). split; [|apply Hx].
    change (flights (cancel (length fs) (with_pending true t)) !! length fs = Some (mkFlight (fkind x) true (at_ x))).
    rewrite Hnew. by apply list_lookup_middle.
Qed.

Lemma abandon_ok t c t' : core t → abandon t = (c, t') → core t' ∧ evolves t t' ∧ caller_ok t' c.
Proof.
  intros Hc. unfold abandon, waiting. destruct (phase t) eqn:Hp.
  - intros [= <- <-]. destruct (electLocked_core kindAbandon t Hc Hp) as (H1 & H2 & H3). split_and!; [done..|].
    simpl. eauto.
  - destruct (waiting_current t Hc) as (f & x & Hf & Hx & Hl); [congruence|]. rewrite Hf. intros [= <- <-].
    by apply abandon_releasing.
  - destruct (waiting_current t Hc) as (f & x & -> & Hx & Hl); [congruence|]. intros [= <- <-].
    split_and!; [done|apply evolves_refl|]. simpl. eauto.
  - intros [= <- <-]. split_and!; [done|apply evolves_refl|done].
  - destruct (waiting_current t Hc) as (f & x & -> & Hx & Hl); [congruence|]. intros [= <- <-].
    split_and!; [done|apply evolves_refl|]. simpl. eauto.
Qed.

(** A handed-over flight keeps naming an abandon. *)
Definition handed_ok (l : list teardownFlight) : Prop :=
  ∀ f x e g, l !! f = Some x → at_ x = Done e (Some g) → ∃ y, l !! g = Some y ∧ fkind y = kindAbandon.

Lemma handed_alter fs x x' k :
  handed_ok (fs ++ [x]) → fkind x' = fkind x →
  (∀ e g, at_ x' = Done e (Some g) → ∃ y, (fs ++ [x'] ++ k) !! g = Some y ∧ fkind y = kindAbandon) →
  (∀ y, y ∈ k → is_done y = false) →
  handed_ok (fs ++ [x'] ++ k).
Proof.
  intros Hh Hk Hx Hn f y e g. rewrite lookup_app_Some. intros [Hy|[Hlen Hy]] Hd.
  - destruct (Hh f y e g) as (z & Hz & Hkz); [by apply lookup_app_l_Some|done|].
    apply lookup_snoc_Some in Hz as [[? Hz]|[-> <-]]; [exists z; split; [by apply lookup_app_l_Some|done]|].
    exists x'. split; [by apply list_lookup_middle|congruence].
  - destruct (f - length fs) as [|j]; simpl in Hy; [injection Hy as <-; by eapply Hx|].
    apply list_elem_of_lookup_2, Hn in Hy. unfold is_done in Hy. by rewrite Hd in Hy.
Qed.

Lemma step_return_ok t f x err :
  core t → flights t !! f = Some x → at_ x = Calling →
  core (with_flight f (Returned err) t) ∧ evolves t (with_flight f (Returned err) t).
Proof.
  intros [Hs Hh Hp Hc Ht] Hx Ha. assert (is_done x = false) as Hd by (unfold is_done; by rewrite Ha).
  destruct (shape_running _ _ _ _ _ Hs Hx Hd) as (fs & Hfl & -> & Hcur & Hfs & Hl).
  assert (flights (with_flight (length fs) (Returned err) t) = fs ++ [mkFlight (fkind x) (cancelled x) (Returned err)]) as Hnew.
  { simpl. rewrite Hfl, alter_app_r_alt by lia. by rewrite Nat.sub_diag. }
  split.
  - split; rewrite ?Hnew; simpl; [| |done..].
    + rewrite Hcur. constructor; [done|]. destruct (last_ok_running _ _ Hl Hd) as [Hph|Hph]; rewrite Hph in *;
        (split; [apply Hl|done]).
    + rewrite Hfl in Hh. apply (handed_alter fs x _ []); [done|done|done|]. by intros ? ?%elem_of_nil.
  - split; simpl.
    + apply flights_le_alter; [done|]. intros y e h Hy. rewrite Hx in Hy. injection Hy as <-. congruence.
    + done.
    + intros _ g y Hy _. apply lookup_lt_Some in Hy. by rewrite length_alter in Hy.
    + by rewrite length_alter.
    + by rewrite length_alter.
Qed.

(** [complete] on the shape: the flights before the last, and what follows them. *)
Lemma complete_flights t fs x err :
  flights t = fs ++ [x] →
  flights (complete (length fs) (fkind x) err t) =
  fs ++ match err with
        | Some e => if bool_decide (fkind x = kindGraceful) && negb (stopped t) && pendingAbandon t
                    then [mkFlight (fkind x) (cancelled x) (Done err (Some (S (length fs)))); mkFlight kindAbandon false Calling]
                    else [mkFlight (fkind x) (cancelled x) (Done err None)]
        | None => [mkFlight (fkind x) (cancelled x) (Done None None)]
        end.
Proof.
  intros Hfl. unfold complete. destruct err as [e|]; simpl.
  2: { rewrite Hfl, alter_app_r_alt by lia. by rewrite Nat.sub_diag. }
  destruct (bool_decide (fkind x = kindGraceful)), (stopped t), (pendingAbandon t); simpl;
    rewrite Hfl, <-?app_assoc, alter_app_r_alt by lia; rewrite Nat.sub_diag; simpl;
    rewrite ?length_app; simpl; by rewrite ?Nat.add_1_r.
Qed.

Lemma complete_phase f kind err t :
  phase (complete f kind err t) =
  match err with
  | None => phaseReleased
  | Some _ => if bool_decide (kind = kindGraceful) && negb (stopped t)
              then if pendingAbandon t then phaseAbandoning else phaseResident
              else phaseFailed
  end.
Proof. unfold complete. destruct err; simpl; [|done]. by repeat case_match. Qed.

Lemma complete_rest f kind err t :
  pendingAbandon (complete f kind err t) = false ∧
  current (complete f kind err t) =
    match err with
    | Some _ => if bool_decide (kind = kindGraceful) && negb (stopped t) && pendingAbandon t
                then Some (length (flights t)) else current t
    | None => current t
    end ∧
  onReleased (complete f kind err t) = match err with None => [] | Some _ => onReleased t end ∧
  queued (complete f kind err t) = match err with None => queued t ++ onReleased t | Some _ => queued t end ∧
  ran (complete f kind err t) = ran t ∧ stopped (complete f kind err t) = stopped t ∧
  callers (complete f kind err t) = callers t.
Proof.
  unfold complete. destruct err; simpl; [|done].
  destruct (bool_decide (kind = kindGraceful)), (stopped t) eqn:?, (pendingAbandon t) eqn:?; simpl; split_and!; congruence.
Qed.

(** The last flight gets done and nothing is elected. *)
Lemma settle_ok t t' fs x x' :
  core t → flights t = fs ++ [x] → is_done x = false → Forall retried fs →
  flights t' = fs ++ [x'] → fkind x' = fkind x → (∀ e g, at_ x' ≠ Done e (Some g)) →
  last_ok (phase t') x' → current t' = current t → pendingAbandon t' = false →
  (asked t → asked t') → (phase t' = phaseReleased ∨ queued t' ++ ran t' = []) →
  (phase t' = phaseReleased → onReleased t' = []) → core t' ∧ evolves t t'.
Proof.
  intros [Hs Hh Hp Hc Ht] Hfl Hd Hfs Hfl' Hk Hno Hl Hcur Hpa Hask Hq Hon.
  assert (current t = Some (length fs)) as Hcu.
  { destruct (shape_running _ _ _ (length fs) x Hs) as (fs' & Heq & Hlen & ? & _); [|done|congruence].
    rewrite Hfl. by apply list_lookup_middle. }
  assert (phase t ≠ phaseReleased ∧ phase t ≠ phaseFailed) as [Hnr Hnf].
  { destruct (shape_running _ _ _ (length fs) x Hs) as (_ & _ & _ & _ & _ & Hlx); [|done|].
    - rewrite Hfl. by apply list_lookup_middle.
    - destruct (last_ok_running _ _ Hlx Hd) as [->| ->]; done. }
  split.
  - split.
    + rewrite Hfl', Hcur, Hcu. by constructor.
    + rewrite Hfl in Hh. rewrite Hfl'. apply (handed_alter fs x x' []); [done|done|by intros e g ?%Hno|].
      by intros ? ?%elem_of_nil.
    + congruence.
    + intros Hne. by destruct Hq.
    + done.
  - split; [|done| |done|done].
    + rewrite Hfl, Hfl'. intros g y. rewrite lookup_snoc_Some. intros [[Hlt Hy]|[-> ->]].
      * exists y. split; [by apply lookup_app_l_Some|done].
      * exists x'. split; [by apply list_lookup_middle|]. split; [done|]. intros e h He.
        unfold is_done in Hd. by rewrite He in Hd.
    + intros _ g y Hy _. apply lookup_lt_Some in Hy. rewrite Hfl, length_app. by rewrite Hfl', length_app in Hy.
Qed.

(** The failed release hands over to the abandon asked for. *)
Lemma hand_over_ok t t' fs x e :
  core t → flights t = fs ++ [x] → is_done x = false → Forall retried fs → fkind x = kindGraceful →
  flights t' = fs ++ [mkFlight (fkind x) (cancelled x) (Done (Some e) (Some (S (length fs))));
                      mkFlight kindAbandon false Calling] →
  phase t' = phaseAbandoning → current t' = Some (S (length fs)) → pendingAbandon t' = false →
  queued t' ++ ran t' = [] → phase t = phaseReleasing → core t' ∧ evolves t t'.
Proof.
  intros [Hs Hh Hp Hc Ht] Hfl Hd Hfs Hk Hfl' Hph Hcur Hpa Hq Hph0.
  split.
  - split; rewrite ?Hph; try done.
    + rewrite Hfl', Hcur. set (y := mkFlight (fkind x) _ _). set (z := mkFlight kindAbandon _ _).
      assert (S (length fs) = length (fs ++ [y])) as -> by (rewrite length_app; simpl; lia).
      change [y; z] with ([y] ++ [z]). rewrite app_assoc. constructor; [|done].
      apply Forall_app. split; [done|]. repeat constructor; simpl; eauto.
    + rewrite Hfl in Hh. rewrite Hfl'. refine (handed_alter fs x _ [_] Hh _ _ _); [done| |].
      * intros e' g [= <- <-]. eexists. rewrite lookup_app_r by lia.
        replace (S (length fs) - length fs) with 1 by lia. by split.
      * by intros y ->%list_elem_of_singleton.
    + congruence.
  - split; try congruence.
    + rewrite Hfl, Hfl'. intros g y. rewrite lookup_snoc_Some. intros [[Hlt Hy]|[-> ->]].
      * exists y. split; [by apply lookup_app_l_Some|done].
      * eexists. split; [by apply list_lookup_middle|]. split; [done|]. intros e' h He.
        unfold is_done in Hd. by rewrite He in Hd.
    + intros _. right. by left.
    + intros _ g y Hy Hky. rewrite Hfl, length_app. simpl. rewrite Hfl' in Hy.
      apply lookup_app_Some in Hy as [?%lookup_lt_Some|[_ Hy]]; [lia|].
      destruct (g - length fs) as [|[|j]] eqn:Hg; simpl in Hy; [lia|by simplify_eq|done].
Qed.

Lemma step_complete_ok t f x err :
  core t → flights t !! f = Some x → at_ x = Returned err →
  core (complete f (fkind x) err t) ∧ evolves t (complete f (fkind x) err t).
Proof.
  intros Hcore Hx Ha. pose proof Hcore as [Hs Hh Hp Hc Ht].
  assert (is_done x = false) as Hd by (unfold is_done; by rewrite Ha).
  destruct (shape_running _ _ _ _ _ Hs Hx Hd) as (fs & Hfl & -> & Hcur & Hfs & Hl).
  pose proof (complete_flights t fs x err Hfl) as Hnew.
  destruct (complete_rest (length fs) (fkind x) err t) as (Rp & Rc & Ro & Rq & Rr & _ & _).
  pose proof (complete_phase (length fs) (fkind x) err t) as Rph.
  set (t' := complete (length fs) (fkind x) err t) in *. clearbody t'.
  assert (phase t ≠ phaseReleased) as Hnr by (intros Hph; rewrite Hph in Hl; simpl in Hl; congruence).
  assert (queued t ++ ran t = []) as Hq0 by (destruct (queued t ++ ran t) eqn:Hq; [done|by destruct Hnr; apply Hc]).
  destruct err as [e|].
  2: { apply (settle_ok t t' fs x _ Hcore Hfl Hd Hfs Hnew); rewrite ?Rph; try done; [|by left].
    intros _. right. rewrite Rph. auto. }
  destruct (bool_decide (fkind x = kindGraceful) && negb (stopped t)) eqn:Hg; simpl in *.
  - apply andb_true_iff in Hg as [Hg _]. apply bool_decide_eq_true in Hg.
    destruct (last_ok_running _ _ Hl Hd) as [Hph|Hph]; rewrite Hph in Hl; [|destruct Hl; congruence].
    destruct (pendingAbandon t) eqn:Hpa.
    + apply (hand_over_ok t t' fs x e Hcore Hfl Hd Hfs Hg Hnew); try done; [|by rewrite Rq, Rr].
      by rewrite Rc, Hfl, length_app, Nat.add_1_r.
    + apply (settle_ok t t' fs x _ Hcore Hfl Hd Hfs Hnew); rewrite ?Rph; try done; [by simpl; eauto| |right; by rewrite Rq, Rr].
      intros [?|[?|[?|?]]]; congruence.
  - apply (settle_ok t t' fs x _ Hcore Hfl Hd Hfs Hnew); rewrite ?Rph; try done; [by simpl; eauto| |right; by rewrite Rq, Rr].
    intros _. right. rewrite Rph. auto.
Qed.

(** Neither the phase nor the flights change. *)
Lemma evolves_same t t' :
  flights t' = flights t → phase t' = phase t → pendingAbandon t' = pendingAbandon t → evolves t t'.
Proof.
  intros Hf Hph Hpa. split; rewrite ?Hf, ?Hph; [apply flights_le_refl| | |done|done].
  - intros [?|[?|[?|?]]]; unfold asked; rewrite Hph, Hpa; auto.
  - intros _ g y Hy _. by eapply lookup_lt_Some.
Qed.

Record wf t : Prop := {
  wf_core : core t;
  wf_callers : Forall (caller_ok t) (callers t)
}.

Lemma callers_evolve t t' cs : evolves t t' → Forall (caller_ok t) cs → Forall (caller_ok t') cs.
Proof. intros He Hcs. eapply Forall_impl; [exact Hcs|]. intros c. by apply caller_ok_evolves. Qed.

Lemma with_caller_ok t i c : core t → Forall (caller_ok t) (callers t) → caller_ok t c → wf (with_caller t i c).
Proof.
  intros Hc Hcs Hcc. assert (evolves t (with_caller t i c)) as He by by apply evolves_same.
  split; [destruct Hc; by split|]. simpl. apply (callers_evolve t); [done|]. by apply Forall_insert.
Qed.

(** A finished flight's waiter goes on soundly. *)
Lemma waited_ok t c f x err handed :
  core t → caller_ok t c → waits_on c = Some f → flights t !! f = Some x → at_ x = Done err handed →
  caller_ok t (waited c err handed).
Proof.
  intros Hcore Hc Hw Hx Hd.
  assert (caller_ok t (Answered err)) as Hans.
  { destruct err as [e|]; simpl; [eauto|]. destruct Hcore as [Hs _ _ _ _]. destruct Hs as [|ph fs y Hfs Hy]; [done|].
    apply lookup_snoc_Some in Hx as [[_ Hx]|[_ ->]].
    - rewrite Forall_lookup in Hfs. destruct (Hfs _ _ Hx) as (_ & ? & ? & ?). congruence.
    - destruct ph; simpl in Hy; try done; unfold is_done in Hy; rewrite Hd in Hy; naive_solver. }
  destruct c; simpl in Hw; try done. simpl.
  destruct err as [e|]; [|done]. destruct handed as [g|]; [|done].
  destruct (co_handed t Hcore f x (Some e) g Hx Hd) as (y & Hy & _). by exists y.
Qed.

Lemma moves_wf t t' : wf t → moves t t' → wf t' ∧ evolves t t'.
Proof.
  intros [Hcore Hcs] Hm. pose proof Hcs as Hcs'. rewrite Forall_lookup in Hcs'.
  destruct Hm as [[i c u Hi Hr|i c u Hi Hr|i c f x err handed Hi Hw Hx Hd|f x err Hx Ha|f x err Hx Ha|b q Hq|Hst]|
    [[i c f Hi Hw]|[i Hi|i Hi|b]]].
  - destruct (release_ok t c u Hcore Hr) as (H1 & H2 & H3).
    assert (callers u = callers t) as Heq.
    { unfold release, waiting in Hr. by destruct (phase t), (current t); simplify_eq. }
    split; [|by eapply evolves_trans, evolves_same]. apply with_caller_ok; [done|rewrite Heq|done]. by eapply callers_evolve.
  - destruct (abandon_ok t c u Hcore Hr) as (H1 & H2 & H3).
    assert (callers u = callers t) as Heq.
    { unfold abandon, waiting in Hr. by destruct (phase t), (current t); simplify_eq. }
    split; [|by eapply evolves_trans, evolves_same]. apply with_caller_ok; [done|rewrite Heq|done]. by eapply callers_evolve.
  - split; [|by apply evolves_same]. apply with_caller_ok; [done..|]. eapply waited_ok; eauto.
  - destruct (step_return_ok t f x err Hcore Hx Ha) as [H1 H2]. split; [|done]. split; [done|]. by apply (callers_evolve t).
  - destruct (step_complete_ok t f x err Hcore Hx Ha) as [H1 H2]. split; [|done]. split; [done|].
    destruct (complete_rest f (fkind x) err t) as (_ & _ & _ & _ & _ & _ & ->). by apply (callers_evolve t).
  - set (u := mkTeardown _ _ _ _ _ _ _ _ _). assert (evolves t u) as He by by apply evolves_same.
    split; [|done]. split; [|by apply (callers_evolve t)]. destruct Hcore as [H1 H2 H3 H4 H5]. split; simpl; try done.
    intros _. apply H4. by rewrite Hq.
  - set (u := mkTeardown _ _ _ _ _ _ _ _ _). assert (evolves t u) as He by by apply evolves_same.
    split; [|done]. split; [|by apply (callers_evolve t)]. destruct Hcore as [H1 H2 H3 H4 H5]. by split.
  - split; [|by apply evolves_same]. by apply with_caller_ok.
  - split; [|by apply evolves_same]. by apply with_caller_ok.
  - split; [|by apply evolves_same]. by apply with_caller_ok.
  - assert (evolves t (whenReleased b t)) as He by (unfold whenReleased; by case_match; apply evolves_same).
    split; [|done]. unfold whenReleased in *. destruct Hcore as [H1 H2 H3 H4 H5].
    destruct (phase t) eqn:Hph; (split; [|by apply (callers_evolve t)]); split; simpl; rewrite ?Hph in *; try done;
      intros Hne; try (by apply H4). 
Qed.

Lemma reachable_ok n t : reachable n t → wf t.
Proof.
  unfold reachable. intros Hr. assert (wf (fresh n)) as H0.
  { split; [split; simpl; try done; constructor|]. by apply Forall_replicate. }
  induction Hr as [t|t t' t'' Hm Hr IH]; [done|]. apply IH. by eapply moves_wf.
Qed.

Lemma moves_evolve t t' : wf t → rtc moves t t' → wf t' ∧ evolves t t'.
Proof.
  intros Hwf Hr. induction Hr as [t|t t' t'' Hm Hr IH]; [by split; [|apply evolves_refl]|].
  destruct (moves_wf t t' Hwf Hm) as [Hwf' He]. destruct (IH Hwf') as [? ?]. split; [done|by eapply evolves_trans].
Qed.

(** ** What the state machine promises *)

(** C16 The runtime's teardown calls never overlap and none follows a success: in every
    reachable state every flight but the last is a graceful release that has already
    returned an error, an abandon is the last flight there ever is, the residency is
    released exactly when its last call returned success, and a failed teardown is
    one whose last call failed.  A registered callback runs only once it is released. *)
Theorem teardown_exclusive n t (Hr : reachable n t) :
  (∀ f x, flights t !! f = Some x → S f < length (flights t) →
     fkind x = kindGraceful ∧ ∃ e h, at_ x = Done (Some e) h) ∧
  (released t = true ↔ ∃ f x h, flights t !! f = Some x ∧ at_ x = Done None h) ∧
  (phase t = phaseFailed → ∃ x e, last (flights t) = Some x ∧ at_ x = Done (Some e) None) ∧
  (∀ b, b ∈ ran t → released t = true).
Proof.
  destruct (reachable_ok n t Hr) as [[Hs _ _ Hran _] _]. unfold released. rewrite bool_decide_eq_true.
  assert (∀ b, b ∈ ran t → phase t = phaseReleased) as Hran'.
  { intros b Hb. apply Hran. intros [_ Hnil]%app_eq_nil. rewrite Hnil in Hb. by apply elem_of_nil in Hb. }
  clear Hran. revert Hran'. destruct Hs as [|ph fs x Hfs Hx]; intros Hran; simpl.
  { split_and!; [done| |done|by intros b Hb%Hran]. split; [done|]. by intros (? & ? & ? & [=] & _). }
  rewrite Forall_lookup in Hfs. rewrite length_app, last_snoc. simpl. split_and!; [| | |intros b Hb; by apply bool_decide_eq_true, (Hran b)].
  - intros f y Hy Hlt. apply (Hfs f). apply lookup_snoc_Some in Hy as [[_ Hy]|[-> _]]; [done|lia].
  - split.
    + intros ->. exists (length fs), x, None. split; [by apply list_lookup_middle|done].
    + intros (f & y & h & [[_ Hy]|[_ <-]]%lookup_snoc_Some & Hd).
      * destruct (Hfs f y Hy) as (_ & ? & ? & ?). congruence.
      * destruct ph; simpl in Hx; unfold is_done in Hx; rewrite ?Hd in Hx; naive_solver.
  - intros ->. destruct Hx as [e He]. eauto.
Qed.

(** An abandon dominates: once a caller has asked for one, whether it runs at once,
    waits on a graceful release or its caller gave up waiting, no graceful release is
    ever elected again, and the residency does not return to resident; a released or
    a failed teardown stays so and calls the runtime no more. *)
Theorem abandon_dominates n t t' (Hr : reachable n t) (Hm : rtc moves t t') :
  (asked t → asked t' ∧ phase t' ≠ phaseResident ∧
     ∀ f x, flights t' !! f = Some x → fkind x = kindGraceful → f < length (flights t)) ∧
  (phase t = phaseReleased ∨ phase t = phaseFailed → phase t' = phase t ∧ length (flights t') = length (flights t)).
Proof.
  destruct (moves_evolve t t' (reachable_ok n t Hr) Hm) as [[[_ _ Hp _ _] _] [_ Ha Hd Hrel Hf]].
  split; [|intros [H|H]; rewrite H; [by apply Hrel|by apply Hf]]. intros Hask. split; [by apply Ha|]. split; [|by apply Hd].
  intros Hres. destruct (Ha Hask) as [H|[?|[?|?]]]; [rewrite Hp in Hres by done; done|congruence..].
Qed.

(** No caller is told a release that did not happen: a nil answer is given only
    once the runtime's own call returned success, an error answer is one that a
    finished call returned, and no caller meets a missing flight.  What a finished
    flight returned is never overwritten. *)
Theorem teardown_honest n t (Hr : reachable n t) :
  (∀ i, callers t !! i = Some (Answered None) → released t = true) ∧
  (∀ i e, callers t !! i = Some (Answered (Some e)) →
     ∃ f x h, flights t !! f = Some x ∧ at_ x = Done (Some e) h) ∧
  (∀ i, callers t !! i ≠ Some Crashed) ∧
  ∀ t' f x e h, rtc moves t t' → flights t !! f = Some x → at_ x = Done e h →
    ∃ y, flights t' !! f = Some y ∧ at_ y = Done e h.
Proof.
  pose proof (reachable_ok n t Hr) as [Hc Hcs]. rewrite Forall_lookup in Hcs.
  unfold released. split_and!.
  - intros i Hi. apply bool_decide_eq_true. apply (Hcs i _ Hi).
  - intros i e Hi. apply (Hcs i _ Hi).
  - intros i Hi. apply (Hcs i _ Hi).
  - intros t' f x e h Hm Hx Hd. destruct (moves_evolve t t') as [_ [Hle _ _ _ _]]; [by apply (reachable_ok n)|done|].
    destruct (Hle f x Hx) as (y & Hy & _ & Hy'). eauto.
Qed.

(** ** Every wait ends *)

















(** *** The cost of a step *)








(** *** How a residency ends failed *)












(** ** Witnesses

    A release is in flight when an abandon is asked for; the release fails, hands
    over, and its caller learns how the abandon ended. *)
Definition busy_error : error := ESentinel "runtime busy".

Definition d1 : teardown := Eval vm_compute in with_caller (fresh 2) 0 RStart.
Definition d2 : teardown := Eval vm_compute in with_caller (release d1).2 0 (release d1).1.
Definition d3 : teardown := Eval vm_compute in with_caller d2 1 AStart.
Definition d4 : teardown := Eval vm_compute in with_caller (abandon d3).2 1 (abandon d3).1.
Definition d5 : teardown := Eval vm_compute in with_flight 0 (Returned (Some busy_error)) d4.
Definition d6 : teardown := Eval vm_compute in complete 0 kindGraceful (Some busy_error) d5.
Definition d7 : teardown := Eval vm_compute in with_caller d6 0 (waited (RWait 0) (Some busy_error) (Some 1)).
Definition d8 : teardown := Eval vm_compute in with_flight 1 (Returned None) d7.
Definition d9 : teardown := Eval vm_compute in complete 1 kindAbandon None d8.
Definition d10 : teardown := Eval vm_compute in with_caller d9 0 (waited (Wait 1) None None).

Lemma d4_reachable : reachable 2 d4.
Proof.
  apply (rtc_l _ _ d1); [right; right; exact (arrive_release (fresh 2) 0 eq_refl)|].
  apply (rtc_l _ _ d2); [left; exact (step_release d1 0 _ _ eq_refl eq_refl)|].
  apply (rtc_l _ _ d3); [right; right; exact (arrive_abandon d2 1 eq_refl)|].
  apply (rtc_l _ _ d4); [left; exact (step_abandon d3 1 _ _ eq_refl eq_refl)|]. apply rtc_refl.
Defined.

Lemma d4_d10 : rtc moves d4 d10.
Proof.
  apply (rtc_l _ _ d5); [left; exact (step_return d4 0 _ (Some busy_error) eq_refl eq_refl)|].
  apply (rtc_l _ _ d6); [left; exact (step_complete d5 0 _ (Some busy_error) eq_refl eq_refl)|].
  apply (rtc_l _ _ d7); [left; exact (step_waited d6 0 _ 0 _ _ _ eq_refl eq_refl eq_refl eq_refl)|].
  apply (rtc_l _ _ d8); [left; exact (step_return d7 1 _ None eq_refl eq_refl)|].
  apply (rtc_l _ _ d9); [left; exact (step_complete d8 1 _ None eq_refl eq_refl)|].
  apply (rtc_l _ _ d10); [left; exact (step_waited d9 0 _ 1 _ _ _ eq_refl eq_refl eq_refl eq_refl)|]. apply rtc_refl.
Defined.

Lemma d10_reachable : reachable 2 d10.
Proof. unfold reachable. etrans; [exact d4_reachable|exact d4_d10]. Defined.

Lemma teardown_exclusive_witness :
  reachable 2 d10 ∧ released d10 = true ∧
  ∀ x, flights d10 !! 0 = Some x → fkind x = kindGraceful ∧ ∃ e h, at_ x = Done (Some e) h.
Proof.
  split; [exact d10_reachable|]. split; [vm_compute; reflexivity|].
  intros x Hx. apply (proj1 (teardown_exclusive 2 d10 d10_reachable) 0 x Hx). vm_compute. lia.
Defined.

Lemma abandon_dominates_witness :
  reachable 2 d4 ∧ asked d4 ∧ asked d10 ∧ phase d10 ≠ phaseResident.
Proof.
  split; [exact d4_reachable|]. assert (asked d4) as Ha by (left; reflexivity). split; [exact Ha|].
  destruct (proj1 (abandon_dominates 2 d4 d10 d4_reachable d4_d10) Ha) as (H1 & H2 & _). by split.
Defined.

Lemma teardown_honest_witness : callers d10 !! 0 = Some (Answered None) ∧ released d10 = true.
Proof.
  assert (callers d10 !! 0 = Some (Answered None)) as Hc by reflexivity. split; [exact Hc|].
  exact (proj1 (teardown_honest 2 d10 d10_reachable) 0 Hc).
Defined.




End Teardown.
