(* ===== verification/Latches.v ===== *)
(** * Latches.v: one release authority per residency

    The once-guards of a [resident] of [internal/compose/session.go].  The drain, a
    warm release, an attach's rollback and a give-up may all reach the same step of
    one residency's release; [sharedOnce] lets a step that hands something back run
    once and gives every caller its outcome, [onceOnSuccess] lets a durable step run
    again until it succeeds.  Each call holds the guard while its action runs, so a
    history of calls is a sequence.                                             *)
From Stdlib Require Import ZArith.
From stdpp Require Import base list strings gmap.
From S2P Require Import Prelude Wire Errors.

Module Latches.

(** The guarded steps of a [resident]. *)
Inductive guarded :=
| ownershipStop | leaseRelease | stateDrop | admissionCredit      (* [sharedOnce] *)
| beginOnce | checkpointOnce | finishOnce.                        (* [onceOnSuccess] *)

#[export] Instance guarded_eq_dec : EqDecision guarded.
Proof. solve_decision. Defined.

#[export] Instance guarded_countable : Countable guarded.
Proof.
  refine (inj_countable' (fun g => match g with
      | ownershipStop => 0 | leaseRelease => 1 | stateDrop => 2 | admissionCredit => 3
      | beginOnce => 4 | checkpointOnce => 5 | finishOnce => 6 end)
    (fun n => match n with
      | 0 => ownershipStop | 1 => leaseRelease | 2 => stateDrop | 3 => admissionCredit
      | 4 => beginOnce | 5 => checkpointOnce | _ => finishOnce end) _).
  by intros [].
Defined.

Definition is_shared (g : guarded) : bool :=
  match g with ownershipStop | leaseRelease | stateDrop | admissionCredit => true | _ => false end.

(** [sharedOnce.err] where it has run, and the [onceOnSuccess] guards that are done. *)
Record latches := mkLatches { outcomes : gmap guarded (option error); done_ : gset guarded }.

Definition unlatched : latches := mkLatches ∅ ∅.

Implicit Types (l : latches) (g : guarded) (answer : option error).

(** [sharedOnce.run]: what it returns, whether it performs the action, which would
    answer [answer]. *)
Definition shared_run g answer l : option error * bool * latches :=
  match outcomes l !! g with
  | Some err => (err, false, l)
  | None => (answer, true, mkLatches (<[g := answer]> (outcomes l)) (done_ l))
  end.

(** [onceOnSuccess.run]. *)
Definition success_run g answer l : option error * bool * latches :=
  if bool_decide (g ∈ done_ l) then (None, false, l)
  else match answer with
       | Some err => (Some err, true, l)
       | None => (None, true, mkLatches (outcomes l) ({[g]} ∪ done_ l))
       end.

Definition run_guard g answer l : option error * bool * latches :=
  if is_shared g then shared_run g answer l else success_run g answer l.

(** [forgetReleaseProgress]. *)
Definition forgetReleaseProgress l : latches := mkLatches (outcomes l) (done_ l ∖ {[beginOnce; checkpointOnce]}).

Inductive op := OpRun (g : guarded) (answer : option error) | OpForget.

Definition step l (o : op) : latches :=
  match o with OpRun g answer => (run_guard g answer l).2 | OpForget => forgetReleaseProgress l end.

Definition after (os : list op) : latches := fold_left step os unlatched.

(** ** What a history settles *)

(** The outcome of the first call of a shared step. *)
Definition first_outcome g (os : list op) : option (option error) :=
  head (omap (fun o => match o with OpRun g' a => if bool_decide (g' = g) then Some a else None | OpForget => None end) os).

(** A durable step has succeeded, and its success has not been forgotten. *)
Definition forgettable g : bool := match g with beginOnce | checkpointOnce => true | _ => false end.

Definition succeeded_step g (b : bool) (o : op) : bool :=
  match o with
  | OpRun g' None => b || bool_decide (g' = g)
  | OpRun _ (Some _) => b
  | OpForget => b && negb (forgettable g)
  end.

Definition succeeded g (os : list op) : bool := fold_left (succeeded_step g) os false.

Lemma first_outcome_snoc g os o :
  first_outcome g (os ++ [o]) =
  match first_outcome g os with
  | Some r => Some r
  | None => match o with OpRun g' a => if bool_decide (g' = g) then Some a else None | OpForget => None end
  end.
Proof.
  unfold first_outcome. rewrite omap_app. destruct (omap _ os) as [|r rs]; simpl; [|done].
  destruct o as [g' a|]; [by case_bool_decide|done].
Qed.

Lemma succeeded_snoc g os o : succeeded g (os ++ [o]) = succeeded_step g (succeeded g os) o.
Proof. apply fold_left_app. Qed.

Lemma step_outcomes l o g :
  is_shared g = true →
  outcomes (step l o) !! g =
  match outcomes l !! g with
  | Some r => Some r
  | None => match o with OpRun g' a => if bool_decide (g' = g) then Some a else None | OpForget => None end
  end.
Proof.
  intros Hg. destruct o as [g' a|]; simpl; [|by destruct (outcomes l !! g)].
  unfold run_guard, shared_run, success_run. destruct (decide (g' = g)) as [->|Hne].
  - rewrite Hg, (bool_decide_true (g = g)) by done. destruct (outcomes l !! g) eqn:Hl; simpl; [by rewrite Hl|].
    by rewrite lookup_insert_eq.
  - rewrite (bool_decide_false (g' = g)) by done. trans (outcomes l !! g); [|by destruct (outcomes l !! g)].
    destruct (is_shared g'); [destruct (outcomes l !! g')|destruct (bool_decide _), a]; simpl; try done.
    by rewrite lookup_insert_ne.
Qed.

Lemma step_done l o g :
  is_shared g = false → (g ∈ done_ (step l o) ↔ succeeded_step g (bool_decide (g ∈ done_ l)) o = true).
Proof.
  intros Hg. destruct o as [g' [e|]|]; simpl.
  - rewrite bool_decide_eq_true. unfold run_guard, shared_run, success_run. by repeat case_match.
  - rewrite orb_true_iff, !bool_decide_eq_true. unfold run_guard, shared_run, success_run.
    destruct (is_shared g') eqn:Hs.
    + assert (g' ≠ g) by congruence. destruct (outcomes l !! g'); simpl; naive_solver.
    + case_bool_decide; simpl; [naive_solver|]. rewrite elem_of_union, elem_of_singleton. naive_solver.
  - rewrite andb_true_iff, bool_decide_eq_true, negb_true_iff, elem_of_difference, elem_of_union, !elem_of_singleton.
    destruct g; simpl; naive_solver.
Qed.

(** The guards hold exactly what the history settled. *)
Lemma after_spec os :
  (∀ g, is_shared g = true → outcomes (after os) !! g = first_outcome g os) ∧
  (∀ g, is_shared g = false → (g ∈ done_ (after os) ↔ succeeded g os = true)).
Proof.
  induction os as [|o os [IH1 IH2]] using rev_ind; [split; [done|]; intros g _; split; [by intros ?%elem_of_empty|done]|].
  assert (after (os ++ [o]) = step (after os) o) as -> by apply fold_left_app. split; intros g Hg.
  - by rewrite step_outcomes, IH1, first_outcome_snoc.
  - rewrite step_done, succeeded_snoc by done. assert (bool_decide (g ∈ done_ (after os)) = succeeded g os) as ->; [|done].
    specialize (IH2 g Hg). case_bool_decide; destruct (succeeded g os); naive_solver.
Qed.

(** A step that hands something back runs once, and every caller of it, at any
    point of any history, is given that one run's own outcome; a durable step is
    skipped, and answered nil, exactly when a run of it has succeeded and no abort
    has taken that release back since, and otherwise runs and answers its action's
    outcome. *)
Theorem release_authority os g answer :
  let '(returned, performed, _) := run_guard g answer (after os) in
  if is_shared g
  then performed = bool_decide (first_outcome g os = None) ∧
       returned = default answer (first_outcome g os) ∧
       first_outcome g (os ++ [OpRun g answer]) = Some returned
  else performed = negb (succeeded g os) ∧
       returned = (if succeeded g os then None else answer) ∧
       (returned = None ↔ succeeded g (os ++ [OpRun g answer]) = true).
Proof.
  destruct (after_spec os) as [H1 H2]. unfold run_guard. destruct (is_shared g) eqn:Hg.
  - unfold shared_run. rewrite first_outcome_snoc, H1 by done. rewrite (bool_decide_true (g = g)) by done.
    by destruct (first_outcome g os).
  - unfold success_run. rewrite succeeded_snoc. specialize (H2 g Hg). case_bool_decide as Hin.
    + apply H2 in Hin. rewrite Hin. simpl. destruct answer; by rewrite ?orb_true_l.
    + assert (succeeded g os = false) as -> by (apply not_true_is_false; intros Hs; by apply Hin, H2).
      destruct answer; simpl; [naive_solver|]. rewrite bool_decide_true by done. naive_solver.
Qed.

(** A warm release fails to hand the lease back, and a racing drain is told so. *)
Example release_shared :
  let busy : option error := Some (ESentinel "busy") in
  (run_guard leaseRelease None (after [OpRun leaseRelease busy])).1 = (busy, false) ∧
  (run_guard finishOnce None (after [OpRun finishOnce busy])).1 = (None, true) ∧
  (run_guard checkpointOnce busy (after [OpRun checkpointOnce None; OpForget])).1 = (busy, true).
Proof. by vm_compute. Qed.
End Latches.
