(* ===== verification/Attach.v ===== *)
(** * Attach.v: the attach RPC

    [Attach], its scope check, the mapping of an attacher's refusal and the reply,
    of [internal/realtime/hostlink/attach.go].  The attacher is an argument; Core's
    validators and the JSON decoder are parameters.                            *)
From Stdlib Require Import ZArith.
From stdpp Require Import base list strings gmap.
From S2P Require Import Prelude Wire Multiplexer.

Module Attach.
Import Multiplexer.

(** [sessionwire.HostLinkAttachRequest], its mode as the string it is. *)
Record HostLinkAttachRequest := mkWireRequest {
  wr_TenantID : string;
  wr_SessionID : string;
  wr_HostID : string;
  wr_HostGeneration : Z;
  wr_AgentID : string;
  wr_RuntimeCompatibilityID : string;
  wr_Mode : string;
  wr_ActorID : string;
  wr_TraceID : string;
  wr_IdempotencyKey : string
}.

Record AttachRequest := mkAttachRequest {
  ar_Key : Key;
  ar_AgentID : string;
  ar_RuntimeCompatibilityID : string;
  ar_Mode : string;
  ar_ActorID : string;
  ar_TraceID : string;
  ar_IdempotencyKey : string
}.

(** [AttachRefusal]; its reason is a text. *)
Record AttachRefusal := mkAttachRefusal {
  Code : HostLinkErrorCode;
  CurrentLeaseEpoch : Z;
  RuntimeCompatibilityID : string
}.

(** An attacher's answer: an error is its [AttachRefusal], if [errors.As] finds one. *)
Definition Attacher : Type := AttachRequest → option AttachRefusal + RegistryObservation.

#[export] Instance Refusal_eq_dec : EqDecision Refusal.
Proof. solve_decision. Defined.

(** What leaves at the transport. *)
Inductive Reply :=
| ReplyObservation (observation : RegistryObservation)
| ReplyRefusal (wire : HostLinkError)
| ReplyUnroutable          (* [errUnroutableRPC] *)
| ReplyAttachFailed.       (* [errAttachFailed] *)

Section attach.
Context (request_valid : HostLinkAttachRequest → bool).
Context (error_valid : HostLinkError → bool) (observation_valid : RegistryObservation → bool).

Implicit Types (m : Multiplexer).

(** [attachScope]. *)
Definition attachScope m (r : HostLinkAttachRequest) : BindError + AttachRequest :=
  let k := mkKey (wr_TenantID r) (wr_SessionID r) in
  if negb (request_valid r) then inl (refused RefusalMalformedRequest k HostLinkErrorNone)
  else if bool_decide (wr_TenantID r ≠ tenant m)
  then inl (refused RefusalForeignTenant k HostLinkErrorRuntimeUnavailable)
  else if bool_decide (wr_HostID r ≠ hostID m)
  then inl (refused RefusalForeignHost k HostLinkErrorRuntimeUnavailable)
  else if negb (wr_HostGeneration r =? generation m)%Z
  then inl (refused RefusalStaleHostGeneration k HostLinkErrorRuntimeUnavailable)
  else inr (mkAttachRequest k (wr_AgentID r) (wr_RuntimeCompatibilityID r) (wr_Mode r)
              (wr_ActorID r) (wr_TraceID r) (wr_IdempotencyKey r)).

(** [attachRefusal]. *)
Definition attachRefusal (k : Key) (err : option AttachRefusal) : BindError :=
  match err with
  | None => refused RefusalAttachFailed k HostLinkErrorNone
  | Some r =>
      if bool_decide (Code r = HostLinkErrorNone) then refused RefusalAttachFailed k HostLinkErrorNone
      else if bool_decide (Code r = HostLinkErrorEpochMismatch) && (CurrentLeaseEpoch r =? 0)%Z
      then refused RefusalHolderEpochUnknown k HostLinkErrorRuntimeUnavailable
      else if bool_decide (Code r = HostLinkErrorRuntimeMismatch) &&
              negb (error_valid (mkHostLinkError (Code r) 0 (RuntimeCompatibilityID r)))
      then refused RefusalMismatchBuildUnknown k HostLinkErrorRuntimeUnavailable
      else mkBindError RefusalAttachRefused k (Code r)
             (if bool_decide (Code r = HostLinkErrorEpochMismatch) then CurrentLeaseEpoch r else 0%Z)
             (if bool_decide (Code r = HostLinkErrorRuntimeMismatch) then RuntimeCompatibilityID r else "")
  end.

(** [Attach]: its result, and what the attacher was asked, if it was. *)
Definition Attach m (attacher : option Attacher) (r : HostLinkAttachRequest) :
    (BindError + RegistryObservation) * option AttachRequest :=
  match attachScope m r with
  | inl e => (inl e, None)
  | inr resolved =>
      match attacher with
      | None => (inl (refused RefusalAttachUnsupported (ar_Key resolved) HostLinkErrorRuntimeUnavailable), None)
      | Some attach =>
          match attach resolved with
          | inl err => (inl (attachRefusal (ar_Key resolved) err), Some resolved)
          | inr observation =>
              if observation_valid observation then (inr observation, Some resolved)
              else (inl (refused RefusalUnpublishableAttach (ar_Key resolved) HostLinkErrorNone), Some resolved)
          end
      end
  end.

(** [attachReply]. *)
Definition attachReply (result : BindError + RegistryObservation) : Reply :=
  match result with
  | inr observation => ReplyObservation observation
  | inl e =>
      match published error_valid e with
      | Some wire => ReplyRefusal wire
      | None =>
          if bool_decide (refusal e = RefusalMalformedRequest) then ReplyUnroutable else ReplyAttachFailed
      end
  end.

(** [dispatchAttach], on what the decoder made of the body. *)
Definition dispatchAttach m (attacher : option Attacher) (decoded : option HostLinkAttachRequest) :
    Reply * option AttachRequest :=
  match decoded with
  | None => (attachReply (inl (refused RefusalMalformedRequest key_zero HostLinkErrorNone)), None)
  | Some r => let '(result, asked) := Attach m attacher r in (attachReply result, asked)
  end.

(** What the scope check establishes, and the two kinds of its refusals. *)
Lemma attachScope_inr m r a :
  attachScope m r = inr a →
  request_valid r = true ∧ wr_TenantID r = tenant m ∧ wr_HostID r = hostID m ∧ wr_HostGeneration r = generation m ∧
  a = mkAttachRequest (mkKey (tenant m) (wr_SessionID r)) (wr_AgentID r) (wr_RuntimeCompatibilityID r)
        (wr_Mode r) (wr_ActorID r) (wr_TraceID r) (wr_IdempotencyKey r).
Proof.
  unfold attachScope. destruct (request_valid r); simpl; [|done].
  case_bool_decide as Ht; [done|]. case_bool_decide as Hh; [done|].
  destruct (wr_HostGeneration r =? generation m)%Z eqn:Hg; simpl; [|done].
  apply Z.eqb_eq in Hg. intros [= <-]. rewrite Ht. done.
Qed.

Lemma attachScope_inl m r e :
  attachScope m r = inl e →
  (request_valid r = false ∧ e = refused RefusalMalformedRequest (mkKey (wr_TenantID r) (wr_SessionID r)) HostLinkErrorNone) ∨
  (request_valid r = true ∧ ∃ f k, f ≠ RefusalMalformedRequest ∧ e = refused f k HostLinkErrorRuntimeUnavailable).
Proof.
  unfold attachScope. destruct (request_valid r); simpl; [|intros [= <-]; by left].
  intros H. right. split; [done|]. repeat case_match; simplify_eq; by do 2 eexists; split; [|reflexivity].
Qed.

Lemma attachReply_observation result o :
  attachReply result = ReplyObservation o → result = inr o.
Proof. destruct result; simpl; repeat case_match; naive_solver. Qed.

(** The attacher is asked only for a session of the link's tenant, by a request
    addressed to this incarnation of this Host and valid under Core, and is asked
    exactly what the request says; an observation is replied only when the attacher
    answered it and Core publishes it. *)
Theorem attach_scoped m attacher decoded reply asked (H : dispatchAttach m attacher decoded = (reply, asked)) :
  (∀ a, asked = Some a → ∃ r, decoded = Some r ∧ request_valid r = true ∧ wr_TenantID r = tenant m ∧
     wr_HostID r = hostID m ∧ wr_HostGeneration r = generation m ∧ is_Some attacher ∧
     a = mkAttachRequest (mkKey (tenant m) (wr_SessionID r)) (wr_AgentID r) (wr_RuntimeCompatibilityID r)
           (wr_Mode r) (wr_ActorID r) (wr_TraceID r) (wr_IdempotencyKey r)) ∧
  (∀ o, reply = ReplyObservation o → observation_valid o = true ∧
     ∃ attach a, attacher = Some attach ∧ asked = Some a ∧ attach a = inr o).
Proof.
  destruct decoded as [r|]; simpl in H; [|by simplify_eq].
  destruct (Attach m attacher r) as [result asked'] eqn:Ha. injection H as <- <-.
  unfold Attach in Ha. destruct (attachScope m r) as [e|resolved] eqn:Hs.
  { simplify_eq. split; [done|]. by intros o Ho%attachReply_observation. }
  apply attachScope_inr in Hs as (H1 & H2 & H3 & H4 & H5).
  destruct attacher as [attach|]; [|simplify_eq; split; [done|]; by intros o Ho%attachReply_observation].
  destruct (attach resolved) as [err|observation] eqn:Hat; [|destruct (observation_valid observation) eqn:Hv];
    simplify_eq; (split; [intros a [= <-]; exists r; done|]); intros o Ho%attachReply_observation; simplify_eq.
  eauto 6.
Qed.

(** What Core's [HostLinkError.Validate] says of the classes whose members the
    mapping does not check: [epoch_mismatch] needs its epoch and nothing else, and
    the classes without members are valid without them. *)
Definition core_classes : Prop :=
  (∀ e, e ≠ 0%Z → error_valid (mkHostLinkError HostLinkErrorEpochMismatch e "") = true) ∧
  (∀ c, c ∈ [HostLinkErrorNotAdmitting; HostLinkErrorRuntimeUnavailable; HostLinkErrorNoCapacity; HostLinkErrorReleasing] →
     error_valid (mkHostLinkError c 0 "") = true).

(** A class Core knows. *)
Definition known (c : HostLinkErrorCode) : Prop :=
  match c with HostLinkErrorNone | HostLinkErrorOther _ => False | _ => True end.

Lemma attachRefusal_published (Hcore : core_classes) k c :
  known (Code c) →
  ∃ w, attachReply (inl (attachRefusal k (Some c))) = ReplyRefusal w ∧ error_valid w = true ∧
    (he_Code w = Code c ∨
     he_Code w = HostLinkErrorRuntimeUnavailable ∧
     (Code c = HostLinkErrorEpochMismatch ∧ CurrentLeaseEpoch c = 0%Z ∨
      Code c = HostLinkErrorRuntimeMismatch ∧
      error_valid (mkHostLinkError HostLinkErrorRuntimeMismatch 0 (RuntimeCompatibilityID c)) = false)).
Proof.
  destruct Hcore as [Hep Hcl]. destruct c as [code epoch build].
  unfold attachReply, published, attachRefusal. destruct code; simpl; try done.
  all: try (rewrite Hcl by set_solver; eexists; split; [reflexivity|]; split; [apply Hcl; set_solver|by left]).
  - destruct (error_valid _) eqn:He; simpl.
    + rewrite He. eexists. split; [reflexivity|]. split; [done|by left].
    + rewrite Hcl by set_solver. eexists. split; [reflexivity|]. split; [apply Hcl; set_solver|]. right. auto.
  - destruct (epoch =? 0)%Z eqn:He; simpl.
    + rewrite Hcl by set_solver. eexists. split; [reflexivity|]. split; [apply Hcl; set_solver|].
      apply Z.eqb_eq in He. right. auto.
    + apply Z.eqb_neq in He. rewrite Hep by done. eexists. split; [reflexivity|]. split; [by apply Hep|by left].
Qed.

(** A placement outcome always reaches the caller: when the attacher refuses
    with a class of Core's, a refusal Core accepts is published, of that class or, where the
    attacher could not supply the class's member, of [runtime_unavailable]; a
    failure with no class never is; and only a request that could not be read is
    answered as the caller's fault. *)
Theorem attach_outcome_published m attacher decoded reply asked (Hcore : core_classes)
    (H : dispatchAttach m attacher decoded = (reply, asked)) :
  (∀ attach a r, attacher = Some attach → asked = Some a → attach a = inl (Some r) → known (Code r) →
     ∃ w, reply = ReplyRefusal w ∧ error_valid w = true ∧
       (he_Code w = Code r ∨
        he_Code w = HostLinkErrorRuntimeUnavailable ∧
        (Code r = HostLinkErrorEpochMismatch ∧ CurrentLeaseEpoch r = 0%Z ∨
         Code r = HostLinkErrorRuntimeMismatch ∧
         error_valid (mkHostLinkError HostLinkErrorRuntimeMismatch 0 (RuntimeCompatibilityID r)) = false))) ∧
  (∀ attach a err, attacher = Some attach → asked = Some a → attach a = inl err →
     (∀ r, err = Some r → Code r = HostLinkErrorNone) → reply = ReplyAttachFailed) ∧
  (reply = ReplyUnroutable ↔ ∀ r, decoded = Some r → request_valid r = false).
Proof.
  destruct Hcore as [Hep Hcl].
  assert (∀ f k, attachReply (inl (refused f k HostLinkErrorRuntimeUnavailable)) =
    ReplyRefusal (mkHostLinkError HostLinkErrorRuntimeUnavailable 0 "")) as Hrun.
  { intros f k. unfold attachReply, published. simpl. rewrite Hcl; [done|set_solver]. }
  destruct decoded as [r|]; simpl in H; [|by simplify_eq].
  destruct (Attach m attacher r) as [result asked'] eqn:Ha. injection H as <- <-.
  unfold Attach in Ha. destruct (attachScope m r) as [e|resolved] eqn:Hs.
  { injection Ha as <- <-. split; [done|]. split; [done|].
    apply attachScope_inl in Hs as [[Hv ->]|(Hv & f & k & Hf & ->)].
    - split; [by intros _ ? [= <-]|done].
    - rewrite Hrun. split; [done|]. intros Hn. specialize (Hn r eq_refl). congruence. }
  apply attachScope_inr in Hs as (Hv & _ & _ & _ & _).
  assert (∀ P : Prop, (∀ r0, Some r = Some r0 → request_valid r0 = false) → P) as Hno.
  { intros P Hn. specialize (Hn r eq_refl). congruence. }
  destruct attacher as [attach|]; [|injection Ha as <- <-; rewrite Hrun; split_and!; try done; split; [done|apply Hno]].
  destruct (attach resolved) as [err|observation] eqn:Hat.
  - injection Ha as <- <-. split_and!.
    + intros attach' a c [= <-] [= <-] Hat' Hk. rewrite Hat in Hat'. injection Hat' as ->.
      by apply attachRefusal_published.
    + intros attach' a err' [= <-] [= <-] Hat' Hk. rewrite Hat in Hat'. injection Hat' as ->.
      destruct err' as [c|]; simpl; [|done]. rewrite (Hk c eq_refl). done.
    + split; [|apply Hno]. intros Hr. exfalso. revert Hr. unfold attachReply.
      case_match; [done|]. rewrite bool_decide_eq_false_2; [done|].
      unfold attachRefusal. destruct err as [c|]; [|done]. repeat case_match; done.
  - destruct (observation_valid observation); injection Ha as <- <-;
      split_and!; try (intros; simplify_eq; congruence); (split; [done|apply Hno]).
Qed.
End attach.

(** ** Witnesses *)

Definition sample_request_valid (r : HostLinkAttachRequest) : bool := negb (bool_decide (wr_AgentID r = "")).

(** [HostLinkError.Validate], on the classes Core defines. *)
Definition sample_error_valid (w : HostLinkError) : bool :=
  match he_Code w with
  | HostLinkErrorNone | HostLinkErrorOther _ => false
  | HostLinkErrorEpochMismatch => negb (he_CurrentLeaseEpoch w =? 0)%Z && bool_decide (he_RuntimeCompatibilityID w = "")
  | HostLinkErrorRuntimeMismatch => (he_CurrentLeaseEpoch w =? 0)%Z && negb (bool_decide (he_RuntimeCompatibilityID w = ""))
  | _ => (he_CurrentLeaseEpoch w =? 0)%Z && bool_decide (he_RuntimeCompatibilityID w = "")
  end.

Definition sample_mux : Multiplexer := mkMultiplexer "t" "host-1" 1 "s" 2 3 ∅ 0.
Definition sample_attach : HostLinkAttachRequest := mkWireRequest "t" "s" "host-1" 1 "agent" "build" "create" "" "" "k".
Definition sample_observation (a : AttachRequest) : RegistryObservation :=
  mkObservation (TenantID (ar_Key a)) (SessionID (ar_Key a)) "host-1" 1 (ar_AgentID a)
    (ar_RuntimeCompatibilityID a) HostPlacementPooled "http://host-1" SessionResidencyResident true 4 0 10.

Definition sample_attacher : Attacher := fun a => inr (sample_observation a).
Definition sample_refuser : Attacher := fun _ => inl (Some (mkAttachRefusal HostLinkErrorEpochMismatch 0 "")).

Lemma attach_scoped_witness :
  let a := mkAttachRequest (mkKey "t" "s") "agent" "build" "create" "" "" "k" in
  sample_request_valid sample_attach = true ∧
  ((∀ a', Some a = Some a' → ∃ r, Some sample_attach = Some r ∧ sample_request_valid r = true ∧
      wr_TenantID r = tenant sample_mux ∧ wr_HostID r = hostID sample_mux ∧
      wr_HostGeneration r = generation sample_mux ∧ is_Some (Some sample_attacher) ∧
      a' = mkAttachRequest (mkKey (tenant sample_mux) (wr_SessionID r)) (wr_AgentID r)
             (wr_RuntimeCompatibilityID r) (wr_Mode r) (wr_ActorID r) (wr_TraceID r) (wr_IdempotencyKey r)) ∧
   (∀ o, ReplyObservation (sample_observation a) = ReplyObservation o → true = true ∧
      ∃ attach a', Some sample_attacher = Some attach ∧ Some a = Some a' ∧ attach a' = inr o)).
Proof.
  intros a. split; [reflexivity|].
  apply (attach_scoped sample_request_valid sample_error_valid (fun _ => true)). vm_compute. reflexivity.
Defined.

Lemma sample_core : core_classes sample_error_valid.
Proof.
  split; [intros e He; unfold sample_error_valid; simpl; by rewrite (proj2 (Z.eqb_neq _ _) He)|].
  intros c Hc. repeat (apply elem_of_cons in Hc as [->|Hc]; [reflexivity|]). by apply elem_of_nil in Hc.
Qed.

Lemma attach_outcome_published_witness :
  ReplyRefusal (mkHostLinkError HostLinkErrorRuntimeUnavailable 0 "") = ReplyUnroutable ↔
  ∀ r, Some sample_attach = Some r → sample_request_valid r = false.
Proof.
  apply (attach_outcome_published sample_request_valid sample_error_valid (fun _ => true)
    sample_mux (Some sample_refuser) (Some sample_attach) _
    (Some (mkAttachRequest (mkKey "t" "s") "agent" "build" "create" "" "" "k")) sample_core).
  vm_compute. reflexivity.
Defined.
End Attach.
