(* ===== verification/Dispatch.v ===== *)
(** * Dispatch.v: the RPCs of a HostLink connection

    [NewMultiplexer], [dispatch], [install]'s handlers and [dispatchDrain] of
    [internal/realtime/hostlink/bindings.go] and [drain.go]: which method a request
    reaches, and how its answer leaves at the transport.  The decoders and encoders of
    Core's records and the names of its methods are arguments, as in [Attach.v]; what the
    handlers read of the Host is an [environment].                                   *)
From Stdlib Require Import ZArith.
From stdpp Require Import base list strings gmap.
From S2P Require Import Prelude Wire Multiplexer Attach.

Module Dispatch.
Import Multiplexer Attach.

(** [MultiplexerOptions], and the first field [NewMultiplexer] refuses. *)
Record MultiplexerOptions := mkOptions {
  o_TenantID : string; o_HostID : string; o_HostGeneration : Z; has_Residencies : bool; has_Admission : bool; has_Consumers : bool;
  has_DrainStarter : bool; has_DrainObserver : bool; o_FixedSessionID : string; o_MaxBindingsPerLink : Z; o_MaxBindings : Z
}.

(** What leaves at the transport: a reply with its body, or one of Centrifuge's errors. *)
Inductive body := NoBody | RefusalBody (wire : HostLinkError) | DrainBody (observation : DrainObservation) | AttachBody (observation : RegistryObservation).
Inductive rpc_error := errUnroutableRPC | errUnpublishableRefusal | errAttachFailed | OtherError.
Inductive rpc_reply := RPCReply (b : body) | ErrorInternal | ErrorBadRequest.

(** What a handler reads: the admission ledger, the residencies, the running consumers,
    the attacher, the drain state machine and the scope it reports. *)
Record environment := mkEnvironment {
  draining : bool; get : Key → option Residency; running : Key → bool; attacher : option Attacher;
  starter : option (Key → option DrainStatus); begun : option Key; observer : option (Key → option DrainStatus)
}.

(** What a request did beside its answer. *)
Record effects := mkEffects { hinted : option Key; started : option Key; asked : option AttachRequest }.
Definition no_effects : effects := mkEffects None None None.

Section constructing.
Context (tenant_valid host_valid session_valid : string → bool).

Definition NewMultiplexer (o : MultiplexerOptions) : string + Multiplexer :=
  if negb (tenant_valid (o_TenantID o)) then inl "TenantID"
  else if negb (host_valid (o_HostID o)) then inl "HostID"
  else if (o_HostGeneration o =? 0)%Z then inl "HostGeneration"
  else if negb (has_Residencies o) then inl "Residencies"
  else if negb (has_Admission o) then inl "Admission"
  else if negb (has_Consumers o) then inl "Consumers"
  else if (o_MaxBindingsPerLink o <=? 0)%Z then inl "MaxBindingsPerLink"
  else if (o_MaxBindings o <=? 0)%Z then inl "MaxBindings"
  else if has_DrainStarter o && negb (has_DrainObserver o) then inl "DrainObserver"
  else if has_DrainObserver o && negb (has_DrainStarter o) then inl "DrainStarter"
  else if negb (bool_decide (o_FixedSessionID o = "")) && negb (session_valid (o_FixedSessionID o)) then inl "FixedSessionID"
  else inr (mkMultiplexer (o_TenantID o) (o_HostID o) (o_HostGeneration o) (o_FixedSessionID o) (o_MaxBindingsPerLink o) (o_MaxBindings o) ∅ 0).

End constructing.

Section dispatch.
Context (ChannelFor : Key → string).
Context (bind_valid : BindRequest → bool) (unbind_valid : UnbindRequest → bool) (error_valid : HostLinkError → bool).
Context (drain_valid : DrainRequest → bool) (drain_observation_valid : DrainObservation → bool).
Context (request_valid : HostLinkAttachRequest → bool) (observation_valid : RegistryObservation → bool).
(** Core's decoders; of a delivery, whether it is valid. *)
Context (decode_bind : string → option BindRequest) (decode_unbind : string → option UnbindRequest) (decode_drain : string → option DrainRequest)
        (decode_attach : string → option HostLinkAttachRequest) (decode_delivery : string → option bool).
(** [json.Marshal] of the three records, whether it succeeds. *)
Context (encodes_error : HostLinkError → bool) (encodes_drain : DrainObservation → bool) (encodes_attach : RegistryObservation → bool).
Context (MethodBind MethodUnbind MethodAttach MethodDrain MethodDrainStatus : string).

Implicit Types (m : Multiplexer) (env : environment) (link method data : string).

Definition advertisedMethods : list string := [MethodBind; MethodUnbind; MethodAttach; MethodDrain; MethodDrainStatus].

(** [unpublished] and [encodeRefusal]. *)
Definition unpublished (e : BindError) : rpc_error := if bool_decide (wire e ≠ HostLinkErrorNone) then errUnpublishableRefusal else errUnroutableRPC.
Definition encodeRefusal (wire : HostLinkError) : rpc_error + body := if encodes_error wire then inr (RefusalBody wire) else inl errUnpublishableRefusal.
Definition refusal_reply (e : BindError) : rpc_error + body :=
  match published error_valid e with Some wire => encodeRefusal wire | None => inl (unpublished e) end.

(** [drainReply] and [dispatchDrain]. *)
Definition drainReply (result : BindError + DrainObservation) : rpc_error + body :=
  match result with
  | inr observation => if encodes_drain observation then inr (DrainBody observation) else inl OtherError
  | inl e => refusal_reply e
  end.
Definition dispatchDrain m env method data : (rpc_error + body) * effects :=
  match decode_drain data with
  | None => (drainReply (inl (refused RefusalMalformedRequest key_zero HostLinkErrorNone)), no_effects)
  | Some request =>
      if bool_decide (method = MethodDrainStatus)
      then (drainReply (ObserveDrain drain_valid drain_observation_valid m (get env) (begun env) (observer env) request), no_effects)
      else let '(result, scope) := StartDrain drain_valid drain_observation_valid m (get env) (starter env) request in
           (drainReply result, mkEffects None scope None)
  end.

(** The bytes of an attach's reply. *)
Definition attach_bytes (r : Reply) : rpc_error + body :=
  match r with
  | ReplyObservation observation => if encodes_attach observation then inr (AttachBody observation) else inl OtherError
  | ReplyRefusal wire => encodeRefusal wire
  | ReplyUnroutable => inl errUnroutableRPC
  | ReplyAttachFailed => inl errAttachFailed
  end.

(** The tail of [dispatch], of a method whose success has no body. *)
Definition plain_reply (err : option BindError) : rpc_error + body := match err with None => inr NoBody | Some e => refusal_reply e end.
Definition malformed_bind : BindError := refused RefusalMalformedRequest key_zero HostLinkErrorNone.

(** [dispatch]. *)
Definition dispatch m env link method data : (rpc_error + body) * effects * Multiplexer :=
  if bool_decide (method = MethodDrain) || bool_decide (method = MethodDrainStatus) then (dispatchDrain m env method data, m)
  else if bool_decide (method = MethodAttach) then
    let '(reply, asked) := dispatchAttach request_valid error_valid observation_valid m (attacher env) (decode_attach data) in
    (attach_bytes reply, mkEffects None None asked, m)
  else if bool_decide (method = MethodBind) then
    match decode_bind data with
    | None => (plain_reply (Some malformed_bind), no_effects, m)
    | Some request =>
        let '(result, m) := Bind ChannelFor bind_valid m (draining env) (get env) link request in
        (plain_reply (match result with inl e => Some e | inr _ => None end), no_effects, m)
    end
  else if bool_decide (method = MethodUnbind) then
    match decode_unbind data with
    | None => (plain_reply (Some malformed_bind), no_effects, m)
    | Some request => let '(err, m) := Unbind ChannelFor unbind_valid m link request in (plain_reply err, no_effects, m)
    end
  else
    match decode_delivery data with
    | None =>
        (plain_reply (Some (match binding m link method with
                            | None => refused RefusalNotBound key_zero HostLinkErrorRuntimeUnavailable
                            | Some _ => malformed_bind end)), no_effects, m)
    | Some valid =>
        match Deliver m (get env) (running env) link method valid with
        | inl e => (plain_reply (Some e), no_effects, m)
        | inr k => (plain_reply None, mkEffects (Some k) None None, m)
        end
    end.

(** The handler of [OnRPC]. *)
Definition answer m env link method data : rpc_reply * effects * Multiplexer :=
  let '(result, eff, m) := dispatch m env link method data in
  (match result with
   | inl (errAttachFailed | errUnpublishableRefusal) => ErrorInternal
   | inl _ => ErrorBadRequest
   | inr b => RPCReply b
   end, eff, m).

(** ** What a request may be blamed for *)

(** A body the addressed method cannot read: it does not decode, or Core's validation
    refuses it.  On a channel it is the caller's only if the link is bound there. *)
Definition malformed m link method data : Prop :=
  if bool_decide (method = MethodDrain) || bool_decide (method = MethodDrainStatus) then ∀ r, decode_drain data = Some r → drain_valid r = false
  else if bool_decide (method = MethodAttach) then ∀ r, decode_attach data = Some r → request_valid r = false
  else if bool_decide (method = MethodBind) then ∀ r, decode_bind data = Some r → bind_valid r = false
  else if bool_decide (method = MethodUnbind) then ∀ r, decode_unbind data = Some r → unbind_valid r = false
  else is_Some (binding m link method) ∧ ∀ valid, decode_delivery data = Some valid → valid = false.

Definition blamed (r : rpc_error + body) : bool := match r with inl (errUnroutableRPC | OtherError) => true | _ => false end.

Lemma blamed_refusal e : blamed (refusal_reply e) = bool_decide (wire e = HostLinkErrorNone).
Proof.
  unfold refusal_reply, published, encodeRefusal, unpublished. case_bool_decide as Hw; simpl.
  - rewrite bool_decide_eq_false_2 by (intros Hn; by apply Hn). done.
  - destruct (error_valid _); simpl; [by destruct (encodes_error _)|]. by rewrite bool_decide_eq_true_2.
Qed.

Lemma blamed_spared e : wire e ≠ HostLinkErrorNone → blamed (refusal_reply e) = false.
Proof. intros H. rewrite blamed_refusal. by apply bool_decide_eq_false_2. Qed.

Lemma plain_blamed err : blamed (plain_reply err) = match err with Some e => bool_decide (wire e = HostLinkErrorNone) | None => false end.
Proof. destruct err; [apply blamed_refusal|done]. Qed.

Lemma malformed_blamed : blamed (refusal_reply malformed_bind) = true.
Proof. rewrite blamed_refusal. by apply bool_decide_eq_true_2. Qed.

Lemma bind_blamed m d g link r :
  match (Bind ChannelFor bind_valid m d g link r).1 with inl e => wire e = HostLinkErrorNone | inr _ => False end ↔ bind_valid r = false.
Proof.
  unfold Bind, bind_refusal, record. destruct (bind_valid r); simpl; [|done]. repeat case_match; simplify_eq/=; try done.
Qed.

Lemma unbind_blamed m link r :
  match (Unbind ChannelFor unbind_valid m link r).1 with Some e => wire e = HostLinkErrorNone | None => False end ↔ unbind_valid r = false.
Proof. unfold Unbind. destruct (unbind_valid r); simpl; [|done]. repeat case_match; simplify_eq/=; done. Qed.

Lemma deliver_blamed m g run link method valid :
  match Deliver m g run link method valid with inl e => wire e = HostLinkErrorNone | inr _ => False end ↔ is_Some (binding m link method) ∧ valid = false.
Proof.
  unfold Deliver. destruct (binding m link method) as [b|]; simpl; [|by split; [|intros [[? [=]] _]]]. destruct valid; simpl.
  - split; [|by intros [_ ?]]. repeat case_match; simplify_eq/=; done.
  - split; [|done]. intros _. split; [by eexists|done].
Qed.

Lemma scope_blamed m g b r o :
  match drainScope drain_valid m g b r o with inl e => wire e = HostLinkErrorNone | inr _ => False end ↔ drain_valid r = false.
Proof. unfold drainScope. destruct (drain_valid r); simpl; [|done]. repeat case_match; simplify_eq/=; done. Qed.

Context (Hdrain : ∀ o, drain_observation_valid o = true → encodes_drain o = true) (Hattach : ∀ o, observation_valid o = true → encodes_attach o = true).

Lemma drain_blamed m env method data :
  blamed (dispatchDrain m env method data).1 = true ↔ ∀ r, decode_drain data = Some r → drain_valid r = false.
Proof.
  assert (∀ k status, blamed (drainReply (drainObservation drain_observation_valid m k status)) = false) as Hobs.
  { intros k status. unfold drainObservation, drainReply. destruct (drain_observation_valid _) eqn:Hv; [by rewrite Hdrain|]. apply blamed_spared. done. }
  assert (∀ f k, blamed (refusal_reply (refused f k HostLinkErrorRuntimeUnavailable)) = false) as Href by (intros; by apply blamed_spared).
  unfold dispatchDrain. destruct (decode_drain data) as [r|]; [|cbn [fst drainReply]; rewrite blamed_refusal; split; [done|]; intros _; by apply bool_decide_eq_true_2].
  assert (∀ b, (∀ r', Some r = Some r' → drain_valid r' = false) ↔ (if b : bool then drain_valid r = false else drain_valid r = false)) as Hr.
  { intros []; (split; [by intros H; apply H|by intros H ? [= <-]]). }
  rewrite (Hr true). case_bool_decide as Hm; cbn [fst].
  - unfold ObserveDrain. pose proof (scope_blamed m (get env) (begun env) r true) as Hs. destruct (drainScope _ _ _ _ _ _) as [e|k]; cbn [fst drainReply].
    + rewrite blamed_refusal, bool_decide_eq_true. done.
    + destruct (observer env) as [observe|]; cbn [drainReply]; rewrite ?Href; [|by split; [|intros Hv%Hs]]. destruct (observe k); cbn [drainReply]; rewrite ?Hobs, ?Href; by split; [|intros Hv%Hs].
  - unfold StartDrain. pose proof (scope_blamed m (get env) None r false) as Hs. destruct (drainScope _ _ _ _ _ _) as [e|k]; cbn [fst drainReply].
    + rewrite blamed_refusal, bool_decide_eq_true. done.
    + destruct (starter env) as [start|]; cbn [fst drainReply]; rewrite ?Href; [|by split; [|intros Hv%Hs]]. destruct (start k); cbn [fst drainReply]; rewrite ?Hobs, ?Href; by split; [|intros Hv%Hs].
Qed.

Lemma attachReply_spared e : refusal e ≠ RefusalMalformedRequest → blamed (attach_bytes (attachReply error_valid (inl e))) = false.
Proof.
  intros He. unfold attachReply. destruct (published error_valid e) as [w|]; simpl.
  - unfold encodeRefusal. by destruct (encodes_error w).
  - by rewrite bool_decide_eq_false_2.
Qed.

Lemma attachRefusal_spared k err : refusal (Attach.attachRefusal error_valid k err) ≠ RefusalMalformedRequest.
Proof. unfold Attach.attachRefusal. destruct err as [c|]; [|done]. repeat case_match; done. Qed.

Lemma attach_blamed m a data :
  blamed (attach_bytes (dispatchAttach request_valid error_valid observation_valid m a (decode_attach data)).1) = true ↔
  ∀ r, decode_attach data = Some r → request_valid r = false.
Proof.
  destruct (decode_attach data) as [r|]; [|by split]. assert (∀ P : Prop, P ↔ P ∧ true = true) as _ by tauto.
  unfold dispatchAttach, Attach.Attach. destruct (attachScope request_valid m r) as [e|resolved] eqn:Hs.
  - apply attachScope_inl in Hs as [[Hv ->]|(Hv & f & k & Hf & ->)].
    + split; [by intros _ ? [= <-]|done].
    + cbn [fst]. rewrite attachReply_spared by done. split; [done|]. intros H. rewrite (H r eq_refl) in Hv. done.
  - apply attachScope_inr in Hs as (Hv & _). assert (∀ x, x = false → x = true ↔ ∀ r0, Some r = Some r0 → request_valid r0 = false) as Hno.
    { intros x ->. split; [done|]. intros H. rewrite (H r eq_refl) in Hv. done. }
    apply Hno. destruct a as [attach|]; [|by apply attachReply_spared]. destruct (attach resolved) as [err|observation].
    + apply attachReply_spared, attachRefusal_spared.
    + destruct (observation_valid observation) eqn:Ho; cbn [fst].
      * simpl. by rewrite Hattach.
      * by apply attachReply_spared.
Qed.

(** C38 A caller is blamed for its own body and for nothing else.  A request is answered as a
    bad request exactly when its body is one the addressed method cannot read: it does
    not decode into the method's record, or Core's validation refuses it (on a channel,
    only where the link is bound).  Every other failure is a published refusal or this
    Host's own error. *)
Theorem bad_request_is_callers m env link method data :
  (answer m env link method data).1.1 = ErrorBadRequest ↔ malformed m link method data.
Proof.
  assert (∀ r, match r with inl (errAttachFailed | errUnpublishableRefusal) => ErrorInternal | inl _ => ErrorBadRequest | inr b => RPCReply b end = ErrorBadRequest ↔ blamed r = true) as Hb.
  { intros [[]|]; done. }
  unfold answer. destruct (dispatch m env link method data) as [[result eff] m'] eqn:Hd. cbn [fst]. rewrite Hb. unfold dispatch in Hd. unfold malformed.
  destruct (bool_decide (method = MethodDrain) || bool_decide (method = MethodDrainStatus)).
  { injection Hd as Hd _. rewrite <-(drain_blamed m env method data), Hd. done. }
  destruct (bool_decide (method = MethodAttach)).
  { pose proof (attach_blamed m (attacher env) data) as Ha. destruct (dispatchAttach _ _ _ _ _ _) as [reply asked']. injection Hd as <- <- <-. exact Ha. }
  destruct (bool_decide (method = MethodBind)).
  { destruct (decode_bind data) as [r|]; [|injection Hd as <- <- <-; rewrite malformed_blamed; by split].
    pose proof (bind_blamed m (draining env) (get env) link r) as H. destruct (Bind _ _ _ _ _ _ _) as [res m2]. injection Hd as <- <- <-. rewrite plain_blamed.
    destruct res as [e|]; simpl in H.
    - rewrite bool_decide_eq_true, H. split; [by intros ? ? [= <-]|intros Hv; by apply Hv].
    - split; [done|]. intros Hv. exfalso. apply H. by apply Hv. }
  destruct (bool_decide (method = MethodUnbind)).
  { destruct (decode_unbind data) as [r|]; [|injection Hd as <- <- <-; rewrite malformed_blamed; by split].
    pose proof (unbind_blamed m link r) as H. destruct (Unbind _ _ _ _ _) as [res m2]. injection Hd as <- <- <-. rewrite plain_blamed.
    destruct res as [e|]; simpl in H.
    - rewrite bool_decide_eq_true, H. split; [by intros ? ? [= <-]|intros Hv; by apply Hv].
    - split; [done|]. intros Hv. exfalso. apply H. by apply Hv. }
  destruct (decode_delivery data) as [valid|].
  2:{ destruct (binding m link method) as [b|] eqn:Hbd; injection Hd as <- <- <-; [rewrite malformed_blamed; by split; [split|]|].
      rewrite blamed_spared by done. by split; [|intros [[? [=]] _]]. }
  pose proof (deliver_blamed m (get env) (running env) link method valid) as H. destruct (Deliver _ _ _ _ _ _) as [e|k]; injection Hd as <- <- <-.
  - rewrite blamed_refusal, bool_decide_eq_true, H. split; [intros [? ->]; split; [done|by intros ? [= <-]]|intros [? Hv]; split; [done|by apply Hv]].
  - split; [done|]. intros [? Hv]. exfalso. apply H. split; [done|by apply Hv].
Qed.

(** A request reaches its method and nothing else.  A consumer is hinted only by a method
    that is no reserved name and is a channel this link is bound on, for the session of
    that binding; a drain is begun only by the drain method, and never by the status
    method; the attacher is asked only by the attach method; and the table of bindings
    moves only under bind and unbind. *)
Theorem dispatch_confined m env link method data reply eff m'
    (Hrun : answer m env link method data = (reply, eff, m')) :
  (∀ k, hinted eff = Some k → method ∉ advertisedMethods ∧ ∃ b, binding m link method = Some b ∧ bKey b = k) ∧
  (∀ k, started eff = Some k → method = MethodDrain ∧ method ≠ MethodDrainStatus ∧ TenantID k = tenant m) ∧
  (∀ a, asked eff = Some a → method = MethodAttach ∧ TenantID (ar_Key a) = tenant m) ∧
  (m' ≠ m → method = MethodBind ∨ method = MethodUnbind).
Proof.
  unfold answer in Hrun. destruct (dispatch m env link method data) as [[result eff'] m''] eqn:Hd. injection Hrun as _ <- <-. unfold dispatch in Hd.
  destruct (bool_decide (method = MethodDrain) || bool_decide (method = MethodDrainStatus)) eqn:Hdm.
  { injection Hd as Hd <-. unfold dispatchDrain in Hd. destruct (decode_drain data) as [r|]; [|by injection Hd as _ <-].
    case_bool_decide as Hst; [by injection Hd as _ <-|]. destruct (StartDrain _ _ _ _ _ _) as [res scope] eqn:Hs. injection Hd as _ <-. split_and!; try done.
    intros k. simpl. intros ->. rewrite orb_false_r in Hdm. apply bool_decide_eq_true in Hdm. split_and!; [done|done|].
    unfold StartDrain in Hs. destruct (drainScope _ _ _ _ _ _) as [|k'] eqn:Hk; [done|]. assert (k' = k) as ->.
    { destruct (starter env) as [start|]; [|done]. by destruct (start k'); injection Hs as _ <-. }
    unfold drainScope in Hk. destruct (negb (drain_valid r)); [done|]. case_bool_decide; [done|]. destruct (negb _); [done|]. case_bool_decide; [done|].
    case_bool_decide as Ht; [done|]. case_bool_decide; [done|]. case_bool_decide; [done|]. destruct (_ && _); [done|]. injection Hk as <-. exact Ht. }
  destruct (bool_decide (method = MethodAttach)) eqn:Ham.
  { apply bool_decide_eq_true in Ham. destruct (dispatchAttach _ _ _ _ _ _) as [reply' asked'] eqn:Ha. injection Hd as _ <- <-. split_and!; try done. intros a. simpl. intros ->. split; [done|].
    unfold dispatchAttach in Ha. destruct (decode_attach data) as [r|]; [|done]. unfold Attach.Attach in Ha. destruct (attachScope request_valid m r) as [|resolved] eqn:Hs; [by injection Ha|].
    apply attachScope_inr in Hs as (_ & _ & _ & _ & ->). destruct (attacher env) as [attach|]; [|by injection Ha]. destruct (attach _); [|destruct (observation_valid _)]; injection Ha as _ <-; done. }
  destruct (bool_decide (method = MethodBind)) eqn:Hbm.
  { apply bool_decide_eq_true in Hbm. destruct (decode_bind data); [destruct (Bind _ _ _ _ _ _ _)|]; injection Hd as _ <- <-; split_and!; try done; by left. }
  destruct (bool_decide (method = MethodUnbind)) eqn:Hum.
  { apply bool_decide_eq_true in Hum. destruct (decode_unbind data); [destruct (Unbind _ _ _ _ _)|]; injection Hd as _ <- <-; split_and!; try done; by right. }
  apply orb_false_iff in Hdm as [H1%bool_decide_eq_false H2%bool_decide_eq_false]. apply bool_decide_eq_false in Ham, Hbm, Hum.
  destruct (decode_delivery data) as [valid|]; [|by injection Hd as _ <- <-]. destruct (Deliver _ _ _ _ _ _) as [e|k'] eqn:Hdel; [by injection Hd as _ <- <-|].
  injection Hd as _ <- <-. split_and!; try done. intros k [= <-]. split.
  - unfold advertisedMethods. rewrite !elem_of_cons, elem_of_nil. tauto.
  - unfold Deliver in Hdel. destruct (binding m link method) as [b|]; [|done]. exists b. split; [done|]. repeat case_match; simplify_eq/=; done.
Qed.

Inductive event := ERequest (env : environment) (link method data : string) | EDisconnect (link : string) | EInvalidate (k : Key).
Definition happen m (e : event) : Multiplexer :=
  match e with
  | ERequest env link method data => (answer m env link method data).2
  | EDisconnect link => (CloseLink m link).2
  | EInvalidate k => (InvalidateSession ChannelFor m k).2
  end.

Lemma Bind_tenant m d g link r : tenant (Bind ChannelFor bind_valid m d g link r).2 = tenant m.
Proof.
  unfold Bind, record. destruct (bind_refusal _ _ _ _ _); [done|]. cbv zeta. destruct (_ !! _); [done|]. destruct (_ <=? _)%Z; [done|]. by destruct (_ <=? _)%Z.
Qed.

Lemma Unbind_tenant m link r : tenant (Unbind ChannelFor unbind_valid m link r).2 = tenant m.
Proof.
  unfold Unbind, remove. destruct (negb _); [done|]. destruct (bool_decide _); [done|]. destruct (bool_decide _); [done|]. simpl.
  destruct (links m !! link) as [bindings|]; [|done]. by destruct (bindings !! _).
Qed.

(** The table moves by one step of the multiplexer, or not. *)
Lemma answer_moves m env link method data :
  (answer m env link method data).2 = m ∨
  (∃ r, (answer m env link method data).2 = (Bind ChannelFor bind_valid m (draining env) (get env) link r).2) ∨
  (∃ r, (answer m env link method data).2 = (Unbind ChannelFor unbind_valid m link r).2).
Proof.
  unfold answer, dispatch. destruct (_ || _); [destruct (dispatchDrain _ _ _ _); by left|]. destruct (bool_decide _); [destruct (dispatchAttach _ _ _ _ _ _); by left|].
  destruct (bool_decide _).
  { destruct (decode_bind data) as [r|]; [|by left]. right; left. exists r. by destruct (Bind _ _ _ _ _ _ _). }
  destruct (bool_decide _).
  { destruct (decode_unbind data) as [r|]; [|by left]. right; right. exists r. by destruct (Unbind _ _ _ _ _). }
  left. destruct (decode_delivery data); [|done]. by destruct (Deliver _ _ _ _ _ _).
Qed.

Lemma happen_tenant m e : tenant (happen m e) = tenant m.
Proof.
  destruct e as [env link method data|link|k]; simpl; [|unfold CloseLink; by destruct (links m !! link)|done].
  destruct (answer_moves m env link method data) as [->|[[r ->]|[r ->]]]; [done|apply Bind_tenant|apply Unbind_tenant].
Qed.

(** A multiplexer that was constructed serves one tenant within its budgets: over every
    sequence of requests, disconnections and invalidations its table stays well formed,
    and its tenant is the one it was constructed for. *)
Theorem constructed_well_formed tenant_valid host_valid session_valid o m0 es (Hnew : NewMultiplexer tenant_valid host_valid session_valid o = inr m0) :
  wf ChannelFor (fold_left happen es m0) ∧ (0 < perLink m0)%Z ∧ (0 < total m0)%Z ∧ tenant (fold_left happen es m0) = o_TenantID o.
Proof.
  assert (wf ChannelFor m0 ∧ (0 < perLink m0)%Z ∧ (0 < total m0)%Z ∧ tenant m0 = o_TenantID o) as (H0 & H1 & H2 & H3).
  { unfold NewMultiplexer in Hnew. repeat match type of Hnew with (if ?b then _ else _) = _ => destruct b eqn:?; [done|] end. injection Hnew as <-.
    split_and!; simpl; try lia; [|done]. split; simpl; [done|lia|intros ? ?; by rewrite lookup_empty|]. intros link channel b. unfold binding. simpl. by rewrite lookup_empty. }
  split; [|split_and!; [done|done|]].
  - clear Hnew H1 H2 H3. revert m0 H0. induction es as [|e es IH]; intros m0 H0; simpl; [done|]. apply IH. destruct e as [env link method data|link|k]; simpl;
      [|by apply CloseLink_wf|by apply InvalidateSession_wf].
    destruct (answer_moves m0 env link method data) as [->|[[r ->]|[r ->]]]; [done|by apply Bind_wf|].
    by apply (mux_step_wf ChannelFor bind_valid unbind_valid m0 (OpUnbind link r)).
  - rewrite <-H3. clear. revert m0. induction es as [|e es IH]; intros m0; [done|]. simpl. rewrite IH. apply happen_tenant.
Qed.
End dispatch.

(** ** Witnesses *)

Definition sample_options : MultiplexerOptions := mkOptions "t" "host-1" 1 true true true false false "" 2 3.
Definition sample_env : environment := mkEnvironment false sample_get (fun _ => true) None None None None.
Definition sample_decode (data : string) : option BindRequest := if bool_decide (data = "{}") then Some Multiplexer.sample_request else None.
Definition none {A} (_ : string) : option A := None.
Definition sample_answer (data : string) : rpc_reply * effects * Multiplexer :=
  answer sample_channel yes yes yes yes yes yes yes sample_decode none none none none yes yes yes "b" "u" "a" "d" "ds" Multiplexer.sample_mux sample_env "link-1" "b" data.

Lemma bad_request_is_callers_witness : (sample_answer "[").1.1 = ErrorBadRequest ∧ (sample_answer "{}").1.1 = RPCReply NoBody.
Proof.
  split; [|vm_compute; reflexivity].
  apply (bad_request_is_callers sample_channel yes yes yes yes yes yes yes sample_decode none none none none yes yes yes "b" "u" "a" "d" "ds"
    (fun _ _ => eq_refl) (fun _ _ => eq_refl) Multiplexer.sample_mux sample_env "link-1" "b" "["). intros r Hr. vm_compute in Hr. discriminate.
Defined.

Lemma dispatch_confined_witness : (sample_answer "{}").2 ≠ Multiplexer.sample_mux ∧ ("b" = "b" ∨ "b" = "u").
Proof.
  assert ((sample_answer "{}").2 ≠ Multiplexer.sample_mux) as Hne by (intros H; apply (f_equal count) in H; vm_compute in H; discriminate). split; [exact Hne|].
  refine (proj2 (proj2 (proj2 (dispatch_confined sample_channel yes yes yes yes yes yes yes sample_decode none none none none yes yes yes "b" "u" "a" "d" "ds"
    Multiplexer.sample_mux sample_env "link-1" "b" "{}" (sample_answer "{}").1.1 (sample_answer "{}").1.2 (sample_answer "{}").2 _))) Hne).
  unfold sample_answer. destruct (answer _ _ _ _ _ _ _ _ _ _ _ _ _ _ _ _ _ _ _ _ _ _ _ _ _ _) as [[reply eff] m']. reflexivity.
Defined.

Lemma constructed_well_formed_witness : ∃ m0, NewMultiplexer yes yes yes sample_options = inr m0 ∧ (0 < perLink m0)%Z.
Proof.
  eexists. split; [vm_compute; reflexivity|].
  refine (proj1 (proj2 (constructed_well_formed sample_channel yes yes yes yes yes yes yes sample_decode none none none none yes yes yes "b" "u" "a" "d" "ds"
    yes yes yes sample_options _ [] _))). vm_compute. reflexivity.
Defined.
End Dispatch.
