(* ===== verification/Warm.v ===== *)
(** * Warm.v: releasing an idle session

    [WarmReleaser] of [internal/residency/warm.go]: the release a warm timer runs
    ([release]), the watch goroutine ([run], [finish]) and the arming of the
    countdown ([Observe]).  The session, the inbox, the consumption, the
    registry, the ledger and the timers are calls of [WE].                     *)
From Stdlib Require Import ZArith.
From stdpp Require Import base list strings gmap.
From S2P Require Import Prelude Wire Errors Effects.

Module Warm.
Local Open Scope prog_scope.

Inductive WarmStep :=
| WarmStepHaltConsumption | WarmStepInbox | WarmStepStopAdmitting | WarmStepBeginRelease
| WarmStepCheckpoint | WarmStepReleaseResidency | WarmStepFinishRelease
| WarmStepReleaseLease | WarmStepDropState | WarmStepAbortRelease.

Record WarmFailure := mkWarmFailure { wf_Step : WarmStep; wf_Err : error }.

Inductive WarmOutcomeKind :=
| WarmOutcomeReleased | WarmOutcomeAborted | WarmOutcomeResumed | WarmOutcomeHeld | WarmOutcomeAbandoned.

#[export] Instance WarmOutcomeKind_eq_dec : EqDecision WarmOutcomeKind.
Proof. solve_decision. Defined.

Record WarmOutcome := mkOutcome { Kind : WarmOutcomeKind; Failures : list WarmFailure }.

(** The arms of the watch goroutine's [select]. *)
Inductive Arm := ArmStopped | ArmDone | ArmLost | ArmTimer.

Inductive WE : Type → Type :=
| WHalt : WE (option error)
| WResume : WE unit
| WConfirmIdle : WE bool
| WAcceptedWork : WE (res bool)
| WWake : WE unit
| WStopAdmitting (generation : Z) : WE bool
| WStep (s : WarmStep) : WE (option error)       (* the session's own method *)
| WReleaseOwned (generation : Z) : WE bool
| WSelect : WE Arm
| WTakeArmed : WE bool                            (* take [armed] and set [releasing] *)
| WUnsetReleasing : WE unit
| WForgetWatch : WE unit
| WReport (o : WarmOutcome) : WE unit.

(** A releaser and its session: which optional collaborators are set. *)
Record WarmReleaser := mkReleaser { has_halter : bool; has_confirm : bool; generation : Z }.

Implicit Types (w : WarmReleaser).

(** [release]'s [run], on the failures recorded so far. *)
Definition run_step (s : WarmStep) (fs : list WarmFailure) : prog WE (list WarmFailure) :=
  let! err := call (WStep s) in
  Ret (match err with Some e => fs ++ [mkWarmFailure s e] | None => fs end).

Definition resume w : prog WE unit := if has_halter w then call WResume else Ret tt.

(** [release], once admission has been stopped. *)
Definition release_session w : prog WE WarmOutcome :=
  let! fs := run_step WarmStepBeginRelease [] in
  let! fs := run_step WarmStepCheckpoint fs in
  let! err := call (WStep WarmStepReleaseResidency) in
  match err with
  | Some e =>
      let fs := fs ++ [mkWarmFailure WarmStepReleaseResidency e] in
      let! aborted := call (WStep WarmStepAbortRelease) in
      match aborted with
      | None => do! resume w in Ret (mkOutcome WarmOutcomeResumed fs)
      | Some e =>
          do! resume w in
          Ret (mkOutcome WarmOutcomeHeld (fs ++ [mkWarmFailure WarmStepAbortRelease e]))
      end
  | None =>
      let! fs := run_step WarmStepFinishRelease fs in
      let! fs := run_step WarmStepReleaseLease fs in
      do! call (WReleaseOwned (generation w)) in
      let! fs := run_step WarmStepDropState fs in
      Ret (mkOutcome WarmOutcomeReleased fs)
  end.

(** [release], once consumption is halted: confirmation, the inbox, admission. *)
Definition release_halted w : prog WE WarmOutcome :=
  let! idle := if has_confirm w then call WConfirmIdle else Ret true in
  if negb idle then do! resume w in Ret (mkOutcome WarmOutcomeAborted [])
  else
    let! accepted := call WAcceptedWork in
    match accepted with
    | Err e =>
        do! resume w in
        do! call WWake in
        Ret (mkOutcome WarmOutcomeAborted [mkWarmFailure WarmStepInbox e])
    | Ok true =>
        do! resume w in
        do! call WWake in
        Ret (mkOutcome WarmOutcomeAborted [])
    | Ok false =>
        let! current := call (WStopAdmitting (generation w)) in
        if negb current then do! resume w in Ret (mkOutcome WarmOutcomeAbandoned [])
        else release_session w
    end.

(** [release]. *)
Definition release w : prog WE WarmOutcome :=
  let! err := if has_halter w then call WHalt else Ret None in
  match err with
  | Some e =>
      do! resume w in
      Ret (mkOutcome WarmOutcomeAborted [mkWarmFailure WarmStepHaltConsumption e])
  | None => release_halted w
  end.

(** [finish]. *)
Definition finish (o : WarmOutcome) : prog WE unit :=
  do! call WForgetWatch in
  call (WReport o).

(** [run]: at most [fuel] iterations; [false] is still watching. *)
Fixpoint run (fuel : nat) w : prog WE bool :=
  match fuel with
  | O => Ret false
  | S fuel =>
      let! arm := call WSelect in
      match arm with
      | ArmStopped | ArmDone => Ret true
      | ArmLost => do! finish (mkOutcome WarmOutcomeAbandoned []) in Ret true
      | ArmTimer =>
          let! armed := call WTakeArmed in
          if negb armed then run fuel w
          else
            let! outcome := release w in
            if bool_decide (Kind outcome = WarmOutcomeAborted) || bool_decide (Kind outcome = WarmOutcomeResumed)
            then
              do! call WUnsetReleasing in
              do! call (WReport outcome) in
              run fuel w
            else do! finish outcome in Ret true
      end
  end.

(** ** The releaser's watches

    [Watch], [Forget], [Observe], [Stop] and the goroutines, as the operations on
    the two locks: a watch is a pointer into [slots], and what one goroutine does
    between two acquisitions is a step of its own.                              *)
Inductive WorkState := WorkStateWorking | WorkStateGateWaiting | WorkStateIdle.

(** Where a watch's goroutine is. *)
Inductive Phase := Selecting | Releasing | Finishing | Finished | Exited.

#[export] Instance Phase_eq_dec : EqDecision Phase.
Proof. solve_decision. Defined.

(** [warmWatch]; [owed] and [disarmed] say how far a caller that took it out of
    the map is in its [stop]. *)
Record warmWatch := mkWatch {
  wKey : Key;
  armed : bool;
  releasing : bool;
  done : bool;
  phase : Phase;
  owed : bool;
  disarmed : bool
}.

Definition set_armed (b : bool) (x : warmWatch) : warmWatch :=
  mkWatch (wKey x) b (releasing x) (done x) (phase x) (owed x) (disarmed x).
Definition set_phase (p : Phase) (x : warmWatch) : warmWatch :=
  mkWatch (wKey x) (armed x) (releasing x) (done x) p (owed x) (disarmed x).
Definition set_done (x : warmWatch) : warmWatch :=
  mkWatch (wKey x) (armed x) (releasing x) true (phase x) (owed x) (disarmed x).
Definition set_owed (x : warmWatch) : warmWatch :=
  mkWatch (wKey x) (armed x) (releasing x) (done x) (phase x) true (disarmed x).

(** [Observe], under the watch's lock. *)
Definition Observe (state : WorkState) (x : warmWatch) : warmWatch :=
  if releasing x then x
  else match state with
  | WorkStateIdle => if armed x then x else set_armed true x
  | WorkStateWorking | WorkStateGateWaiting => set_armed false x
  end.

(** The timer's arm of [run]: take [armed], or wait again. *)
Definition fire (x : warmWatch) : bool * warmWatch :=
  if armed x
  then (true, mkWatch (wKey x) false true (done x) Releasing (owed x) (disarmed x))
  else (false, x).

(** [warmWatch.stop], its locked half. *)
Definition disarm (x : warmWatch) : warmWatch :=
  mkWatch (wKey x) false (releasing x) (done x) (phase x) (owed x) true.

(** What [run] does with the outcome of the release it ran. *)
Definition returned (k : WarmOutcomeKind) (x : warmWatch) : warmWatch :=
  match k with
  | WarmOutcomeAborted | WarmOutcomeResumed =>
      mkWatch (wKey x) (armed x) false (done x) Selecting (owed x) (disarmed x)
  | WarmOutcomeReleased | WarmOutcomeHeld | WarmOutcomeAbandoned => set_phase Finishing x
  end.

Record Watches := mkWatches { stopped : bool; watches : gmap Key nat; slots : gmap nat warmWatch }.

Definition NewWatches : Watches := mkWatches false ∅ ∅.

Inductive Label :=
| LWatch (k : Key) (i : nat)          (* [Watch] admits it: [i] is the fresh pointer *)
| LStop                               (* [Stop] closes [stopped] *)
| LUnwatch (k : Key)                  (* [Forget], or one round of [Stop]'s loop *)
| LDisarm (i : nat)                   (* [warmWatch.stop]: under the lock *)
| LClose (i : nat)                    (* [warmWatch.stop]: close [done] *)
| LObserve (i : nat) (s : WorkState)
| LTimer (i : nat) (released : bool)  (* the timer's arm, and whether it releases *)
| LReturned (i : nat) (k : WarmOutcomeKind)
| LLost (i : nat)                     (* the grant's arm *)
| LDone (i : nat)                     (* the two arms that return at once *)
| LUnwatchOwn (i : nat)               (* [finish]: under the releaser's lock *)
| LFinish (i : nat)                   (* [finish]: close [done], report, return *)
| LStopped.                           (* [Stop] returns *)

Definition set_slot (i : nat) (x : warmWatch) (r : Watches) : Watches :=
  mkWatches (stopped r) (watches r) (<[i := x]> (slots r)).

(** Do [f] to the slot [i], where [guard] holds of it. *)
Definition at_slot (i : nat) (guard : warmWatch → bool) (f : warmWatch → warmWatch) (r : Watches) : option Watches :=
  match slots r !! i with
  | Some x => if guard x then Some (set_slot i (f x) r) else None
  | None => None
  end.

Definition in_phase (p : Phase) (x : warmWatch) : bool := bool_decide (phase x = p).
Definition exited (x : warmWatch) : bool := in_phase Exited x.

(** [Watch]'s refusals. *)
Inductive WatchError := ErrWarmSessionWatched | ErrWarmReleaserStopped.
Definition watch_refusal (k : Key) (r : Watches) : option WatchError :=
  match watches r !! k with
  | Some _ => Some ErrWarmSessionWatched
  | None => if stopped r then Some ErrWarmReleaserStopped else None
  end.

Definition step (l : Label) (r : Watches) : option Watches :=
  match l with
  | LWatch k i =>
      match watch_refusal k r, slots r !! i with
      | None, None =>
          Some (mkWatches (stopped r) (<[k := i]> (watches r))
                  (<[i := mkWatch k false false false Selecting false false]> (slots r)))
      | _, _ => None
      end
  | LStop => Some (mkWatches true (watches r) (slots r))
  | LUnwatch k =>
      match watches r !! k with
      | Some i => at_slot i (fun _ => true) set_owed (mkWatches (stopped r) (delete k (watches r)) (slots r))
      | None => Some r
      end
  | LDisarm i => at_slot i owed disarm r
  | LClose i => at_slot i disarmed set_done r
  | LObserve i s => at_slot i (fun _ => true) (Observe s) r
  | LTimer i b => at_slot i (fun x => in_phase Selecting x && eqb (fire x).1 b) (fun x => (fire x).2) r
  | LReturned i k => at_slot i (in_phase Releasing) (returned k) r
  | LLost i => at_slot i (in_phase Selecting) (set_phase Finishing) r
  | LDone i => at_slot i (fun x => in_phase Selecting x && (done x || stopped r)) (set_phase Exited) r
  | LUnwatchOwn i =>
      match slots r !! i with
      | Some x =>
          if in_phase Finishing x then
            let own := bool_decide (watches r !! wKey x = Some i) in
            Some (set_slot i (set_phase Finished x)
                    (mkWatches (stopped r) (if own then delete (wKey x) (watches r) else watches r) (slots r)))
          else None
      | None => None
      end
  | LFinish i => at_slot i (in_phase Finished) (fun x => set_phase Exited (set_done x)) r
  | LStopped =>
      if stopped r && bool_decide (watches r = ∅) && bool_decide (map_Forall (fun _ x => exited x = true) (slots r)) then Some r else None
  end.

Fixpoint steps_to (ls : list Label) (r : Watches) : option Watches :=
  match ls with
  | [] => Some r
  | l :: ls => match step l r with Some r => steps_to ls r | None => None end
  end.

#[local] Hint Rewrite andb_true_iff orb_true_iff : checks.

(** ** What a release does *)

Definition step_of (o : obs WE) : option WarmStep :=
  match o with Obs e _ => match e with WStep s => Some s | _ => None end end.

Definition failed_of (o : obs WE) : option WarmFailure :=
  match o with Obs e x =>
    match e in WE X return X → option WarmFailure with
    | WStep s => fun err => match err with Some e => Some (mkWarmFailure s e) | None => None end
    | WHalt => fun err => match err with Some e => Some (mkWarmFailure WarmStepHaltConsumption e) | None => None end
    | WAcceptedWork => fun r => match r with Err e => Some (mkWarmFailure WarmStepInbox e) | Ok _ => None end
    | _ => fun _ => None end x end.

Definition is_resume (o : obs WE) : bool := match o with Obs e _ => match e with WResume => true | _ => false end end.
Definition is_credit (o : obs WE) : bool := match o with Obs e _ => match e with WReleaseOwned _ => true | _ => false end end.

Definition steps (t : list (obs WE)) : list WarmStep := omap step_of t.

(** [AcceptedWork] answered that no work was accepted. *)
Definition inbox_empty (o : obs WE) : bool :=
  match o with Obs e x =>
    match e in WE X return X → bool with
    | WAcceptedWork => fun r => match r with Ok b => negb b | Err _ => false end | _ => fun _ => false end x end.

(** [StopAdmitting] answered that the residency is current. *)
Definition admission_stopped (o : obs WE) : bool :=
  match o with Obs e x =>
    match e in WE X return X → bool with WStopAdmitting _ => fun b => b | _ => fun _ => false end x end.

(** The reports made of a residency that is over, or can no longer be released warm. *)
Definition is_final (o : obs WE) : bool :=
  match o with Obs e _ =>
    match e with
    | WReport o => match Kind o with WarmOutcomeAborted | WarmOutcomeResumed => false | _ => true end
    | _ => false end end.

(** The session's own steps, by outcome. *)
Definition expected (k : WarmOutcomeKind) : list WarmStep :=
  match k with
  | WarmOutcomeAborted | WarmOutcomeAbandoned => []
  | WarmOutcomeResumed | WarmOutcomeHeld =>
      [WarmStepBeginRelease; WarmStepCheckpoint; WarmStepReleaseResidency; WarmStepAbortRelease]
  | WarmOutcomeReleased =>
      [WarmStepBeginRelease; WarmStepCheckpoint; WarmStepReleaseResidency; WarmStepFinishRelease;
       WarmStepReleaseLease; WarmStepDropState]
  end.

Record released_as w (t : list (obs WE)) (o : WarmOutcome) : Prop := {
  ra_steps : steps t = expected (Kind o);
  ra_failures : Failures o = omap failed_of t;
  ra_resume : has_halter w = true → seen is_resume t = bool_decide (Kind o ≠ WarmOutcomeReleased);
  ra_credit : count is_credit t = if decide (Kind o = WarmOutcomeReleased) then 1 else 0;
  ra_idle : steps t ≠ [] → seen inbox_empty t = true ∧ seen admission_stopped t = true
}.

Ltac released :=
  repeat first [ symbolic_step | match goal with
    | |- ∀ _ : _, any_env _ _ → _ ∧ _ => intros ? _; split; [exact I|]
    | |- safe _ _ _ _ (bind (bind _ _) _) => apply safe_bind
    end | progress case_match; simpl ].

(** A warm release does exactly what its outcome says: an aborted or abandoned
    one calls none of the session's own methods, a resumed or held one stops
    after trying to take the release back, and a released one runs the whole
    sequence in order; the ledger is credited once and only by a released one;
    consumption is resumed after every other outcome; the recorded failures are
    exactly the calls that failed, in order; and the session is touched only
    after the inbox was re-read empty and admission stopped. *)
Theorem warm_release_exact w t o (Hrun : runs (release w) t o) : released_as w t o.
Proof.
  assert (safe any_env (fun _ _ => True) (released_as w) [] (release w)) as Hs.
  { unfold release, release_halted, release_session, resume, run_step. destruct w as [h c g]; simpl.
    released.
    all: repeat match goal with H : negb ?b = _ |- _ => first [destruct b; [|discriminate H]|destruct b; [discriminate H|]] end.
    all: simplify_eq.
    all: try solve [split; simpl; intros; done]. }
  apply (safe_runs_any _ _ _ _ _ Hs Hrun).
Qed.
Lemma release_reports_nothing w t o :
  runs (release w) t o → Forall (fun x => is_final x = false) t.
Proof.
  intros Hrun.
  assert (safe any_env (fun _ o => is_final o = false) (fun _ _ => True) [] (release w)) as Hs.
  { unfold release, release_halted, release_session, resume, run_step. destruct w as [h c g]; simpl.
    repeat first [symbolic_step | match goal with
      | |- ∀ _ : _, any_env _ _ → _ ∧ _ => intros ? _; split; [done|]
      | |- safe _ _ _ _ (bind (bind _ _) _) => apply safe_bind
      end | progress case_match; simpl]; done. }
  destruct (safe_runs_any _ _ _ _ _ Hs Hrun) as [_ HG].
  apply Forall_forall. intros x (t1 & t2 & ->)%list_elem_of_split. eauto.
Qed.

(** A trace whose only final report, if it has one, is its last call. *)
Definition reported_last (t : list (obs WE)) (ended : bool) : Prop :=
  Forall (fun x => is_final x = false) t ∨
  ∃ t0 x, t = t0 ++ [x] ∧ is_final x = true ∧ ended = true ∧ Forall (fun x => is_final x = false) t0.

Lemma reported_last_app t1 t2 b :
  Forall (fun x => is_final x = false) t1 → reported_last t2 b → reported_last (t1 ++ t2) b.
Proof.
  intros H1 [H2|(t0 & x & -> & Hx & Hb & H0)]; [left; by apply Forall_app|].
  right. exists (t1 ++ t0), x. rewrite <-app_assoc. split_and!; try done. by apply Forall_app.
Qed.

(** A watch ends with one report: for every number of iterations, a final
    outcome (released, held or abandoned) is reported at most once, as the last
    call the goroutine makes, and an aborted or resumed release leaves it
    watching. *)
Theorem run_reports_once fuel w t ended (Hrun : runs (run fuel w) t ended) : reported_last t ended.
Proof.
  revert t ended Hrun. induction fuel as [|fuel IH]; intros t ended; simpl; [intros [-> ->]; left; by constructor|].
  intros (arm & t1 & -> & H). apply (reported_last_app [_]); [by repeat constructor|].
  destruct arm; simpl in H.
  1,2: destruct H as [-> _]; left; by constructor.
  - destruct H as (? & t2 & -> & ? & t3 & -> & -> & ->). right. eexists [_], _. split; [reflexivity|].
    split_and!; try done. by repeat constructor.
  - destruct H as (a & t2 & -> & H). apply (reported_last_app [_]); [by repeat constructor|].
    destruct a; simpl in H; [|by apply IH].
    apply runs_bind in H as (t3 & t4 & o & -> & Hrel & H).
    apply reported_last_app; [by eapply release_reports_nothing|].
    destruct (bool_decide (Kind o = WarmOutcomeAborted) || bool_decide (Kind o = WarmOutcomeResumed)) eqn:Hk.
    + destruct H as (? & t5 & -> & ? & t6 & -> & H). apply (reported_last_app [_; _]); [|by apply IH].
      autorewrite with checks in Hk. repeat constructor. simpl. by destruct Hk as [-> | ->].
    + destruct H as (? & t5 & -> & ? & t6 & -> & -> & ->). right. eexists [_], _. split; [reflexivity|].
      split_and!; try done; [|by repeat constructor]. simpl.
      apply orb_false_iff in Hk as [?%bool_decide_eq_false ?%bool_decide_eq_false]. by destruct (Kind o).
Qed.

(** ** The countdown *)

Definition reachable (ls : list Label) (r : Watches) : Prop := steps_to ls NewWatches = Some r.

Lemma steps_to_app ls1 ls2 r r1 :
  steps_to ls1 r = Some r1 → steps_to (ls1 ++ ls2) r = steps_to ls2 r1.
Proof.
  revert r. induction ls1 as [|l ls1 IH]; intros r; simpl; [by intros [= ->]|].
  destruct (step l r); [apply IH|done].
Qed.

Lemma steps_to_snoc ls l r r2 :
  steps_to (ls ++ [l]) r = Some r2 ↔ ∃ r1, steps_to ls r = Some r1 ∧ step l r1 = Some r2.
Proof.
  revert r. induction ls as [|l' ls IH]; intros r; simpl.
  - destruct (step l r) eqn:?; naive_solver.
  - destruct (step l' r) as [r'|]; [apply IH|naive_solver].
Qed.

(** An invariant of traces, by their last step. *)
Lemma reachable_ind (P : list Label → Watches → Prop) :
  P [] NewWatches →
  (∀ ls r l r', reachable ls r → P ls r → step l r = Some r' → P (ls ++ [l]) r') →
  ∀ ls r, reachable ls r → P ls r.
Proof.
  intros H0 Hs ls. induction ls as [|l ls IH] using rev_ind; intros r.
  - by intros [= <-].
  - intros (r1 & H1 & H2)%steps_to_snoc. eauto.
Qed.

Lemma at_slot_Some i g f r r' :
  at_slot i g f r = Some r' ↔ ∃ x, slots r !! i = Some x ∧ g x = true ∧ r' = set_slot i (f x) r.
Proof.
  unfold at_slot. split.
  - intros H. destruct (slots r !! i) as [x|]; [|discriminate].
    destruct (g x) eqn:?; simplify_eq. eauto.
  - intros (x & -> & -> & ->). reflexivity.
Qed.

Definition watched (r : Watches) (i : nat) (x : warmWatch) : Prop := watches r !! wKey x = Some i.

Record slot_ok (r : Watches) (i : nat) (x : warmWatch) : Prop := {
  so_armed : armed x = true → releasing x = false;
  so_selecting : phase x = Selecting → releasing x = false;
  so_releasing : phase x = Releasing → releasing x = true;
  so_disarmed : disarmed x = true → owed x = true;
  so_owed : owed x = true → ¬ watched r i x;
  so_done : done x = true → ¬ watched r i x;
  so_finished : phase x = Finished → ¬ watched r i x;
  so_exited : phase x = Exited → watched r i x → stopped r = true
}.

Definition wf (r : Watches) : Prop :=
  map_Forall (slot_ok r) (slots r) ∧
  (∀ k i, watches r !! k = Some i → ∃ x, slots r !! i = Some x ∧ wKey x = k).

Lemma slot_ok_weaken r r' i x :
  slot_ok r i x → (watched r' i x → watched r i x) → (stopped r = true → stopped r' = true) → slot_ok r' i x.
Proof. intros [] ? ?. split; tauto. Qed.

(** A step at a slot that keeps its key and the map. *)
Lemma wf_set_slot r i x x' :
  wf r → slots r !! i = Some x → wKey x' = wKey x → slot_ok r i x' → wf (set_slot i x' r).
Proof.
  intros [Hs Hw] Hi Hk Hx. split; simpl.
  - intros j y. rewrite lookup_insert_Some. intros [[<- <-]|[Hne Hj]].
    + by eapply slot_ok_weaken.
    + by eapply slot_ok_weaken; [apply Hs|..].
  - intros k j Hkj. destruct (Hw k j Hkj) as (y & Hy & <-).
    destruct (decide (i = j)) as [->|]; [|by exists y; rewrite lookup_insert_ne].
    exists x'. rewrite lookup_insert_eq. naive_solver.
Qed.

(** A step that only shrinks the map, or stops the releaser. *)
Lemma wf_shrink b ws r :
  wf r → ws ⊆ watches r → (stopped r = true → b = true) → wf (mkWatches b ws (slots r)).
Proof.
  intros [Hs Hw] Hsub Hb. split; simpl.
  - intros i x Hx. eapply slot_ok_weaken; [by apply Hs| |done].
    intros Hi. exact (lookup_weaken _ _ _ _ Hi Hsub).
  - intros k i Hk. exact (Hw k i (lookup_weaken _ _ _ _ Hk Hsub)).
Qed.

Lemma wf_watch r k i :
  wf r → watches r !! k = None → slots r !! i = None →
  wf (mkWatches (stopped r) (<[k := i]> (watches r))
        (<[i := mkWatch k false false false Selecting false false]> (slots r))).
Proof.
  intros [Hs Hw] Hk Hi. split; simpl.
  - intros j y. rewrite lookup_insert_Some. intros [[<- <-]|[Hne Hj]]; [by split|].
    eapply slot_ok_weaken; [by apply Hs| |done].
    unfold watched; simpl. rewrite lookup_insert_Some. naive_solver.
  - intros k' j. rewrite lookup_insert_Some. intros [[<- <-]|[Hne Hj]].
    + rewrite lookup_insert_eq. eauto.
    + destruct (Hw k' j Hj) as (y & Hy & <-). exists y. split; [|done].
      by rewrite lookup_insert_ne by congruence.
Qed.

Lemma in_phase_true p x : in_phase p x = true ↔ phase x = p.
Proof. apply bool_decide_eq_true. Qed.
#[local] Hint Rewrite in_phase_true : checks.

Lemma wf_step l r r' : wf r → step l r = Some r' → wf r'.
Proof.
  intros Hwf.
  assert (∀ i g f, (∀ x, g x = true → slot_ok r i x → wKey (f x) = wKey x ∧ slot_ok r i (f x)) →
      at_slot i g f r = Some r' → wf r') as Hat.
  { intros i g f Hf (x & Hx & Hg & ->)%at_slot_Some.
    destruct (Hf x Hg (proj1 Hwf i x Hx)). eapply wf_set_slot; eauto. }
  destruct l as [k i| |k|i|i|i s|i b|i k|i|i|i|i|]; simpl.
  - unfold watch_refusal. destruct (watches r !! k) eqn:?; [done|]. destruct (stopped r) eqn:Hst; [done|].
    destruct (slots r !! i) eqn:?; [done|]. intros [= <-]. pose proof (wf_watch r k i Hwf) as Hww. rewrite Hst in Hww. auto.
  - intros [= <-]. by apply wf_shrink.
  - destruct (watches r !! k) as [i|] eqn:Hk; [|by intros [= <-]].
    intros (x & Hx & _ & ->)%at_slot_Some. simpl in Hx.
    destruct (proj2 Hwf k i Hk) as (x' & Hx' & <-). simplify_eq.
    pose proof (wf_shrink (stopped r) (delete (wKey x) (watches r)) r Hwf (delete_subseteq _ _) id) as Hwf1.
    eapply wf_set_slot; [exact Hwf1|exact Hx|done|].
    destruct (proj1 Hwf1 i x Hx).
    match goal with |- slot_ok ?r1 _ _ => assert (¬ watched r1 i x) as Hn end.
    { unfold watched; simpl. by rewrite lookup_delete_eq. }
    split; try done; tauto.
  - apply Hat. intros x Hg []. split; [done|]. by split.
  - apply Hat. intros x Hg []. split; [done|]. split; eauto.
  - apply Hat. intros [k' ar re dn ph ow dis] _ []; destruct re, ar, s;
    (split; [done|]); split; simpl in *; intuition congruence.
  - apply Hat. intros x Hg []. autorewrite with checks in Hg. unfold fire in *.
    split; [by case_match|]. case_match; split; naive_solver.
  - apply Hat. intros x Hg []. autorewrite with checks in Hg. unfold returned, set_phase.
    split; [by case_match|]. case_match; split; naive_solver.
  - apply Hat. intros x Hg []. autorewrite with checks in Hg.
    split; [done|]. split; naive_solver.
  - apply Hat. intros x Hg []. autorewrite with checks in Hg.
    split; [done|]. split; naive_solver.
  - destruct (slots r !! i) as [x|] eqn:Hx; [|done]. destruct (in_phase Finishing x) eqn:Hg; [|done].
    autorewrite with checks in Hg. intros [= <-].
    match goal with |- wf (set_slot _ _ ?r1) => assert (wf r1) as Hwf1 end.
    { apply wf_shrink; [done| |done]. case_match; [apply delete_subseteq|done]. }
    eapply wf_set_slot; [exact Hwf1|exact Hx|done|]. destruct (proj1 Hwf1 i x Hx).
    split; simpl; try done. intros _. unfold watched; simpl.
    case_bool_decide; [by rewrite lookup_delete_eq|done].
  - apply Hat. intros x Hg []. autorewrite with checks in Hg.
    split; [done|]. split; naive_solver.
  - destruct (_ && _); [by intros [= <-]|done].
Qed.
Lemma reachable_wf ls r : reachable ls r → wf r.
Proof.
  apply (reachable_ind (fun _ r => wf r)); [|eauto using wf_step].
  split; intros ? ?; simpl; by rewrite lookup_empty.
Qed.

(** The labels that disturb a countdown at [i], or spend it. *)
Definition disturbs (i : nat) (l : Label) : bool :=
  match l with
  | LObserve j WorkStateWorking | LObserve j WorkStateGateWaiting => bool_decide (j = i)
  | LDisarm j | LReturned j _ | LTimer j true => bool_decide (j = i)
  | _ => false
  end.

Definition releases (i : nat) (l : Label) : bool :=
  match l with LTimer j true => bool_decide (j = i) | _ => false end.
Definition returns (i : nat) (l : Label) : bool :=
  match l with LReturned j _ => bool_decide (j = i) | _ => false end.

(** An undisturbed observation of idleness ends [ls]. *)
Definition counting (i : nat) (ls : list Label) : Prop :=
  ∃ t1 t2, ls = t1 ++ LObserve i WorkStateIdle :: t2 ∧ Forall (fun l => disturbs i l = false) t2.

Definition number (f : Label → bool) (ls : list Label) : nat := length (filter (fun l => f l = true) ls).

Lemma number_snoc f ls l : number f (ls ++ [l]) = number f ls + (if f l then 1 else 0).
Proof. unfold number. rewrite filter_app, length_app, filter_cons. case_decide; destruct (f l); simpl; congruence. Qed.

Lemma counting_snoc i ls l : counting i ls → disturbs i l = false → counting i (ls ++ [l]).
Proof.
  intros (t1 & t2 & -> & H) Hl. exists t1, (t2 ++ [l]). split; [by rewrite <-app_assoc|].
  apply Forall_app. eauto.
Qed.

Lemma counting_now i ls : counting i (ls ++ [LObserve i WorkStateIdle]).
Proof. exists ls, []. eauto. Qed.

(** What a trace says of a watch. *)
Record told (i : nat) (ls : list Label) (x : warmWatch) : Prop := {
  to_counting : armed x = true → counting i ls;
  to_number : number (releases i) ls = number (returns i) ls + (if in_phase Releasing x then 1 else 0)
}.

Definition history (i : nat) (ls : list Label) (r : Watches) : Prop :=
  match slots r !! i with
  | Some x => told i ls x
  | None => number (releases i) ls = 0 ∧ number (returns i) ls = 0
  end.

(** A label that leaves a watch alone. *)
Definition elsewhere (i : nat) (l : Label) : Prop :=
  disturbs i l = false ∧ releases i l = false ∧ returns i l = false.

Lemma history_other i ls l r r' :
  history i ls r → elsewhere i l → slots r' !! i = slots r !! i → history i (ls ++ [l]) r'.
Proof.
  unfold history. intros H (Hd & Hl & Ht) ->.
  destruct (slots r !! i) as [x|]; [destruct H as [Hc Hn]; split|];
    rewrite ?number_snoc, ?Hl, ?Ht; [eauto using counting_snoc|lia|lia].
Qed.

(** A step at one watch. *)
Lemma history_at i j ls l r g f r' :
  wf r → history i ls r →
  at_slot j g f r = Some r' → (i ≠ j → elsewhere i l) →
  (i = j → ∀ x, g x = true → slot_ok r i x → told i ls x → told i (ls ++ [l]) (f x)) →
  history i (ls ++ [l]) r'.
Proof.
  intros [Hok _] H (x & Hx & Hg & ->)%at_slot_Some He Ht.
  destruct (decide (i = j)) as [->|Hne].
  - unfold history in *. simpl. rewrite lookup_insert_eq. rewrite Hx in H. auto.
  - eapply history_other; eauto. simpl. by rewrite lookup_insert_ne.
Qed.

Ltac at_other := intros ?; repeat split; simpl; repeat case_match; try done; by apply bool_decide_eq_false.

(** A label of this watch that is neither a release nor its return. *)
Lemma told_quiet i ls l x x' :
  told i ls x → releases i l = false → returns i l = false → in_phase Releasing x' = in_phase Releasing x →
  (armed x' = true → counting i (ls ++ [l])) → told i (ls ++ [l]) x'.
Proof. intros [Hc Hn] Hl Ht Hp Ha. split; [done|]. rewrite !number_snoc, Hl, Ht, Hp. lia. Qed.

Lemma told_observe r i ls st x :
  slot_ok r i x → told i ls x → told i (ls ++ [LObserve i st]) (Observe st x).
Proof.
  intros Hok Ht. eapply told_quiet; [exact Ht|done|done|unfold Observe; repeat case_match; done|].
  destruct Hok as [Har _ _ _ _ _ _ _]. unfold Observe.
  destruct (releasing x) eqn:Hre; [intros Hx; by specialize (Har Hx)|].
  destruct st; try done. intros _. apply counting_now.
Qed.

Lemma told_timer i ls b x :
  phase x = Selecting → (fire x).1 = b → told i ls x → told i (ls ++ [LTimer i b]) (fire x).2.
Proof.
  intros Hp <- Ht. pose proof Ht as [Hc Hn]. unfold fire. destruct (armed x) eqn:Har; simpl.
  - split; [done|]. rewrite !number_snoc. unfold in_phase in *. rewrite Hp in Hn. simpl in *.
    rewrite (bool_decide_eq_true_2 (i = i) eq_refl). lia.
  - eapply told_quiet; try done. congruence.
Qed.

Lemma told_returned i ls k x :
  releasing x = true → (armed x = true → releasing x = false) → phase x = Releasing →
  told i ls x → told i (ls ++ [LReturned i k]) (returned k x).
Proof.
  intros Hre Har Hp [Hc Hn].
  assert (armed (returned k x) = false) as Hna by (destruct k; simpl; destruct (armed x); intuition congruence).
  split; [congruence|]. rewrite !number_snoc. simpl.
  rewrite (bool_decide_eq_true_2 (i = i) eq_refl). unfold in_phase in *. rewrite Hp in Hn.
  destruct k; simpl in *; lia.
Qed.

Lemma history_step i ls l r r' :
  wf r → history i ls r → step l r = Some r' → history i (ls ++ [l]) r'.
Proof.
  intros Hwf H. destruct l as [k j| |k|j|j|j st|j b|j k|j|j|j|j|]; simpl.
  4-10,12: intros Hs; eapply (history_at i j); [exact Hwf|exact H|exact Hs|at_other|];
    intros -> x Hg Hok Ht; autorewrite with checks in Hg.
  all: try solve [eapply told_quiet; [exact Ht|done|done|..]; unfold in_phase; simpl;
    [try rewrite Hg; try rewrite (proj1 Hg); done|]; destruct Ht;
    first [done|intros Ha; apply counting_snoc; auto]].
  - unfold watch_refusal. destruct (watches r !! k); [done|]. destruct (stopped r); [done|].
    destruct (slots r !! j) eqn:Hj; [done|]. intros [= <-].
    destruct (decide (i = j)) as [->|Hne].
    + unfold history in *. rewrite Hj in H. destruct H as [Hl Ht]. simpl. rewrite lookup_insert_eq.
      split; [done|]. rewrite !number_snoc. simpl. lia.
    + eapply history_other; [exact H|done|]. simpl. by rewrite lookup_insert_ne.
  - intros [= <-]. by eapply history_other; [exact H| |].
  - destruct (watches r !! k) as [j|].
    + intros (x & Hx & _ & ->)%at_slot_Some. simpl in Hx.
      destruct (decide (i = j)) as [->|Hne].
      * unfold history in *. rewrite Hx in H. simpl. rewrite lookup_insert_eq.
        eapply told_quiet; [exact H|done..|]. destruct H. intros Ha. apply counting_snoc; auto.
      * eapply history_other; [exact H|done|]. simpl. by rewrite lookup_insert_ne.
    + intros [= <-]. by eapply history_other; [exact H| |].
  - eapply told_observe; eauto.
  - apply told_timer; [tauto| |done]. destruct Hg as [_ Hb]. by apply eqb_prop in Hb.
  - destruct Hok. apply told_returned; auto.
  - destruct (slots r !! j) as [x|] eqn:Hx; [|done]. destruct (in_phase Finishing x) eqn:Hg; [|done].
    autorewrite with checks in Hg. intros [= <-]. destruct (decide (i = j)) as [->|Hne].
    + unfold history in *. rewrite Hx in H. simpl. rewrite lookup_insert_eq.
      eapply told_quiet; [exact H|done|done|unfold in_phase; by rewrite Hg|].
      destruct H. intros Ha. apply counting_snoc; auto.
    + eapply history_other; [exact H|done|]. simpl. by rewrite lookup_insert_ne.
  - destruct (_ && _); [|done]. intros [= <-]. by eapply history_other; [exact H| |].
Qed.

Lemma reachable_history ls r i : reachable ls r → history i ls r.
Proof.
  apply (reachable_ind (fun ls r => history i ls r)).
  - unfold history. simpl. by rewrite lookup_empty.
  - intros ls' r0 l r' Hr Hh Hs. eapply history_step; eauto using reachable_wf.
Qed.

(** A warm release begins only where a countdown ran out undisturbed: the
    session was last observed idle, no other state of it was observed since, its
    watch was not stopped since, and no release was begun since; and every release
    begun before it of the same watch has returned. *)
Theorem release_countdown ls r i (Hr : reachable (ls ++ [LTimer i true]) r) :
  counting i ls ∧ number (releases i) ls = number (returns i) ls.
Proof.
  apply steps_to_snoc in Hr as (r1 & H1 & H2). simpl in H2.
  apply at_slot_Some in H2 as (x & Hx & Hg & _). autorewrite with checks in Hg. destruct Hg as [Hp Hf].
  pose proof (reachable_history _ _ i H1) as Hh. unfold history in Hh. rewrite Hx in Hh.
  destruct Hh as [Hc Hn]. unfold in_phase in Hn. rewrite Hp in Hn. simpl in Hn.
  split; [|lia]. apply Hc. unfold fire in Hf. by destruct (armed x).
Qed.

(** A watched session's goroutine is running: whatever the releaser's map holds
    is an open watch of that session, whose goroutine has neither finished nor,
    unless the releaser was stopped, returned. *)
Theorem watched_session_runs ls r k i (Hr : reachable ls r) (Hk : watches r !! k = Some i) :
  ∃ x, slots r !! i = Some x ∧ wKey x = k ∧ done x = false ∧
    (stopped r = false → phase x ∈ [Selecting; Releasing; Finishing]).
Proof.
  destruct (reachable_wf _ _ Hr) as [Hs Hw]. destruct (Hw k i Hk) as (x & Hx & <-).
  exists x. destruct (Hs i x Hx) as [_ _ _ _ _ Hd Hf He].
  split; [done|]. split; [done|]. split.
  - destruct (done x); [|done]. by destruct Hd.
  - intros Hns. rewrite !elem_of_cons. destruct (phase x) eqn:Hp; eauto.
    + by destruct Hf.
    + rewrite (He eq_refl Hk) in Hns. done.
Qed.

(** What a goroutine of the releaser does. *)
Definition works (l : Label) : bool :=
  match l with
  | LWatch _ _ | LTimer _ _ | LReturned _ _ | LLost _ | LDone _ | LUnwatchOwn _ | LFinish _ => true
  | _ => false
  end.

Definition quiet (r : Watches) : Prop :=
  stopped r = true ∧ map_Forall (fun _ x => phase x = Exited) (slots r).

Lemma quiet_step l r r' : quiet r → step l r = Some r' → works l = false ∧ quiet r'.
Proof.
  intros [Hst Hq].
  assert (∀ i g f r0, slots r0 = slots r → stopped r0 = true →
      (∀ x, phase x = Exited → phase (f x) = Exited) → at_slot i g f r0 = Some r' → quiet r') as Hat.
  { intros i g f r0 Heq Hst0 Hf (x & Hx & _ & ->)%at_slot_Some. rewrite Heq in Hx.
    split; simpl; [done|]. rewrite Heq. apply map_Forall_insert_2; [|done]. apply Hf. by eapply Hq. }
  assert (∀ i p g f, p ≠ Exited → (∀ x, g x = true → phase x = p) → at_slot i g f r = Some r' → False) as Hno.
  { intros i p g f Hp Hg (x & Hx & Hgx & _)%at_slot_Some. apply Hg in Hgx. specialize (Hq i x Hx). simpl in Hq. congruence. }
  destruct l as [k i| |k|i|i|i s|i b|i k|i|i|i|i|]; simpl.
  - unfold watch_refusal. rewrite Hst. by destruct (watches r !! k).
  - intros [= <-]. done.
  - destruct (watches r !! k); [|by intros [= <-]]. split; [done|]. by eapply Hat; [| | |done].
  - split; [done|]. by eapply Hat; [| | |done].
  - split; [done|]. by eapply Hat; [| | |done].
  - split; [done|]. eapply Hat; [| | |done]; try done. intros x. unfold Observe, set_armed. by repeat case_match.
  - intros []%(Hno _ Selecting); [done|]. intros x. autorewrite with checks. tauto.
  - intros []%(Hno _ Releasing); [done|]. intros x. by autorewrite with checks.
  - intros []%(Hno _ Selecting); [done|]. intros x. by autorewrite with checks.
  - intros []%(Hno _ Selecting); [done|]. intros x. autorewrite with checks. tauto.
  - destruct (slots r !! i) as [x|] eqn:Hx; [|done]. specialize (Hq i x Hx). simpl in Hq.
    unfold in_phase. by rewrite Hq.
  - intros []%(Hno _ Finished); [done|]. intros x. by autorewrite with checks.
  - destruct (_ && _); [|done]. by intros [= <-].
Qed.

(** Once [Stop] has returned the releaser does nothing more, whoever still
    calls it: no session is watched, no release begins and none is in flight. *)
Theorem Stop_quiesces ls r ls' r' (Hr : reachable ls r) (Hs : step LStopped r = Some r)
    (Hs' : steps_to ls' r = Some r') :
  watches r = ∅ ∧ Forall (fun l => works l = false) ls' ∧
  map_Forall (fun _ x => phase x = Exited) (slots r').
Proof.
  simpl in Hs. destruct (_ && _) eqn:Hg; [|done].
  rewrite !andb_true_iff, !bool_decide_eq_true in Hg.
  destruct Hg as [[Hst Hw] Hq]. split; [done|].
  assert (quiet r) as Hqr.
  { split; [done|]. intros i x Hx. apply in_phase_true, (Hq i x Hx). }
  clear Hr Hs Hst Hw Hq. revert r Hqr Hs'. induction ls' as [|l ls' IH]; intros r Hqr; simpl.
  - intros [= <-]. split; [by constructor|]. apply Hqr.
  - destruct (step l r) as [r1|] eqn:Hl; [|done]. intros Hs'.
    destruct (quiet_step _ _ _ Hqr Hl) as [Hn Hq1]. destruct (IH r1 Hq1 Hs') as [Hf Hx].
    split; [by constructor|done].
Qed.

(** ** Witnesses *)

Definition sample_releaser : WarmReleaser := mkReleaser true true 7.

(** An environment that lets every release through. *)
Definition sample_env : handler WE nat := fun X e n =>
  match e in WE X return X * nat with
  | WHalt => (None, n) | WResume => (tt, n) | WConfirmIdle => (true, n) | WAcceptedWork => (Ok false, n)
  | WWake => (tt, n) | WStopAdmitting _ => (true, n)
  | WStep s => (match s with WarmStepCheckpoint => Some (EForeign "checkpoint") | _ => None end, n)
  | WReleaseOwned _ => (true, n) | WSelect => (ArmTimer, n) | WTakeArmed => (true, n)
  | WUnsetReleasing => (tt, n) | WForgetWatch => (tt, n) | WReport _ => (tt, n)
  end.

Lemma warm_release_exact_witness :
  released_as sample_releaser (exec sample_env (release sample_releaser) 0).2
    (mkOutcome WarmOutcomeReleased [mkWarmFailure WarmStepCheckpoint (EForeign "checkpoint")]).
Proof.
  apply (warm_release_exact sample_releaser).
  apply (exec_runs sample_env _ 0 _ 0). vm_compute. reflexivity.
Defined.

Lemma run_reports_once_witness :
  reported_last (exec sample_env (run 2 sample_releaser) 0).2 true.
Proof.
  apply (run_reports_once 2 sample_releaser).
  apply (exec_runs sample_env _ 0 _ 0). vm_compute. reflexivity.
Defined.

(** A session observed idle, then busy, then idle again, and released. *)
Definition sample_trace : list Label :=
  [LWatch (mkKey "t" "s") 0; LObserve 0 WorkStateIdle; LObserve 0 WorkStateWorking; LObserve 0 WorkStateIdle].

Definition sample_released : list Label :=
  sample_trace ++ [LTimer 0 true; LReturned 0 WarmOutcomeReleased; LUnwatchOwn 0; LFinish 0].

Definition after (ls : list Label) : Watches := default NewWatches (steps_to ls NewWatches).

Lemma release_countdown_witness :
  counting 0 sample_trace ∧ number (releases 0) sample_trace = number (returns 0) sample_trace.
Proof. apply (release_countdown sample_trace (after (sample_trace ++ [LTimer 0 true]))). vm_compute. reflexivity. Defined.

Lemma watched_session_runs_witness :
  ∃ x, slots (after sample_trace) !! 0%nat = Some x ∧ wKey x = mkKey "t" "s" ∧ done x = false ∧
    (stopped (after sample_trace) = false → phase x ∈ [Selecting; Releasing; Finishing]).
Proof. apply (watched_session_runs sample_trace); vm_compute; reflexivity. Defined.

Lemma Stop_quiesces_witness :
  let r := after (sample_released ++ [LStop]) in
  watches r = ∅ ∧ Forall (fun l => works l = false) [LObserve 0 WorkStateIdle] ∧
  map_Forall (fun _ x => phase x = Exited) (slots (default r (steps_to [LObserve 0 WorkStateIdle] r))).
Proof. intros r. apply (Stop_quiesces (sample_released ++ [LStop]) r); vm_compute; reflexivity. Defined.
End Warm.
