(* ===== verification/Resident.v ===== *)
(** * Resident.v: releasing and giving up a residency

    The release views of a [resident] ([internal/compose/session.go]), the give-up of
    a lost or unusable one ([internal/compose/adapters.go], [faults.go]) and the
    classification of what a release could not write.  The once-guarded steps
    ([Latches.v]) and the runtime's teardown ([Teardown.v]) are calls of [RV], as are
    the service's maps and the manager's record.  Log records are left out.        *)
From Stdlib Require Import ZArith.
From stdpp Require Import base list strings gmap.
From S2P Require Import Prelude Wire Errors Effects Fence Drainer Warm.

Module Resident.
Import Fence Drainer.
Local Open Scope prog_scope.

Definition errWorkAlreadyStopped : error := ESentinel "compose.errWorkAlreadyStopped".

(** [fmt.Errorf] with one [%w]. *)
Definition wrap (e : error) : error := ETyped TWrapError (Some e).

(** ** An expected refusal of a lost grant *)

(** [flatten]: the parts of nested joins. *)
Fixpoint flatten (e : error) : list error :=
  match e with EJoin es => flat_map flatten es | _ => [e] end.

(** A part [withoutLostGrant] drops: a [ReleaseError] over [ErrLeaseNotHeld]. *)
Definition expected (part : error) : bool :=
  bool_decide (is_Some (errors_as (fun t => match t with TReleaseError k => Some k | _ => None end) part)) &&
  errors_is part ErrLeaseNotHeld.

Definition withoutLostGrant (err : option error) : option error :=
  match err with
  | None => None
  | Some e => errors_join ((fun part => if expected part then None else Some part) <$> flatten e)
  end.

(** ** The calls *)

Inductive RV : Type → Type :=
| VBegin : RV (option error)              (* the guarded steps *)
| VCheckpoint : RV (option error)
| VFinish : RV (option error)
| VStopOwnership : RV (option error)
| VReleaseLease : RV (option error)
| VDropState : RV (option error)
| VCredit : RV (option error)
| VStopWork : RV unit
| VWorkDone : RV bool
| VAbortHalves : RV (option error)
| VForgetProgress : RV unit
| VWaitIdle : RV (option error)
| VTeardownRelease : RV (option error)
| VTeardownAbandon : RV (option error)
| VFaults : RV bool                       (* [persistenceFaultsFor] *)
| VReleased : RV bool
| VIsResident : RV bool                   (* [residentFor(key) == held] *)
| VHalt : RV (option error)
| VForgetWarm : RV unit
| VDropSession : RV unit                  (* delete [sessions\[key\]] if it is [held] *)
| VPrune : RV bool                        (* the manager's record *)
| VCancelSession : RV unit
| VWhenReleased : RV unit                 (* cancel the session once the runtime has released *)
| VUnreleased (e : error) : RV unit       (* [recordUnreleased] *)
| VGiveUpOnce : RV bool.                  (* whether [giveUpOnce] runs its function *)

Abbreviation P := (prog RV).

(** ** The resident's own steps *)

Definition ReleaseResidency : P (option error) := do! call VStopWork in call VTeardownRelease.

Definition endResidency : P unit :=
  let! pruned := call VPrune in
  if negb pruned then Ret tt
  else
    let! released := call VReleased in
    if released then call VCancelSession else call VWhenReleased.

Definition forgetResident : P unit := do! call VDropSession in endResidency.

(** ** The drain's view: [releaseSession] *)

(** [FinishRelease]; [service] is whether the view has one. *)
Definition FinishRelease (service : bool) : P (option error) :=
  let! e1 := call VFinish in
  let! e2 := call VStopOwnership in
  let! e3 := call VReleaseLease in
  let! e4 := call VDropState in
  let failures := withoutLostGrant (errors_join [e1; e2; e3; e4]) in
  do! (if service then endResidency else Ret tt) in
  Ret (errors_join [failures]).

Definition AbandonResidency : P (option error) :=
  let! faults := call VFaults in
  if negb faults then Ret (Some ErrNotAbandonable) else call VTeardownAbandon.

(** ** The warm view: [warmSession] *)

Definition warm_ReleaseResidency : P (option error) :=
  let! idle := call VWaitIdle in
  match idle with Some e => Ret (Some e) | None => ReleaseResidency end.

Definition warm_AbortRelease : P (option error) :=
  let! stopped := call VWorkDone in
  if stopped then Ret (Some errWorkAlreadyStopped)
  else
    let! err := call VAbortHalves in
    match err with
    | Some e => Ret (Some e)
    | None => do! call VForgetProgress in Ret None
    end.

Definition warm_FinishRelease : P (option error) :=
  let! err := call VFinish in
  match err with Some e => Ret (Some e) | None => call VStopOwnership end.

(** ** Giving a residency up *)

(** The consumer's halt, while the session is still this residency's. *)
Definition halt_mine : P (option error) :=
  let! mine := call VIsResident in
  if mine then let! err := call VHalt in Ret (wrap <$> err) else Ret None.

(** The end of both give-ups: the release, the ledger, the countdown and the maps. *)
Definition give_up_end (failures : list (option error)) : P (list (option error)) :=
  let! err := FinishRelease false in
  let failures := failures ++ [err] in
  do! (match err with Some e => call (VUnreleased (wrap e)) | None => Ret tt end) in
  let! mine := call VIsResident in
  do! (if mine then do! call VCredit in call VForgetWarm else Ret tt) in
  do! forgetResident in
  Ret failures.

(** [releaseLost]: what it could not do. *)
Definition releaseLost : P (list (option error)) :=
  let! e1 := halt_mine in
  do! call VStopWork in
  let! faults := call VFaults in
  let! e2 := (if faults then call VTeardownAbandon
              else let! err := ReleaseResidency in Ret (wrap <$> err)) in
  do! (match errors_join [e1; e2] with
       | Some e => if errors_is e ErrResidencyStillHeld then call (VUnreleased (wrap e)) else Ret tt
       | None => Ret tt
       end) in
  give_up_end [e1; e2].

(** [releaseUnusable]. *)
Definition releaseUnusable : P (list (option error)) :=
  let! e0 := call VBegin in
  let! e1 := halt_mine in
  do! call VStopWork in
  let! e2 := call VTeardownAbandon in
  do! (match e2 with
       | Some e => if errors_is e ErrResidencyStillHeld then call (VUnreleased (wrap e)) else Ret tt
       | None => Ret tt
       end) in
  give_up_end [e0; e1; e2].

(** [giveUp]. *)
Definition giveUp : P unit :=
  let! faults := call VFaults in
  if negb faults then Ret tt
  else
    let! first := call VGiveUpOnce in
    if first then do! releaseUnusable in Ret tt else Ret tt.

(** [ResidencyLost] of a residency that is still here. *)
Definition ResidencyLost : P unit :=
  let! first := call VGiveUpOnce in
  if first then do! releaseLost in Ret tt else Ret tt.

(** ** A warm release's outcome *)

Definition counts_unfinished (s : Warm.WarmStep) : bool :=
  match s with
  | Warm.WarmStepFinishRelease | Warm.WarmStepReleaseLease | Warm.WarmStepDropState => true
  | _ => false
  end.

(** [unfinishedWarmRelease]. *)
Definition unfinishedWarmRelease (outcome : Warm.WarmOutcome) : option error :=
  let failures := (fun f => if counts_unfinished (Warm.wf_Step f)
                            then wrap <$> withoutLostGrant (Some (Warm.wf_Err f)) else None)
                  <$> Warm.Failures outcome in
  wrap <$> errors_join failures.

(** ** What is kept of an error *)

Lemma flatten_parts e : Forall (fun part => flatten part = [part]) (flatten e).
Proof.
  induction e as [n|t|t c|es IH] using error_parts_ind; simpl; try (by repeat constructor).
  induction IH as [|e es He _ IH]; simpl; [done|]. by apply Forall_app.
Qed.

Lemma flatten_concat l : Forall (fun part => flatten part = [part]) l → flat_map flatten l = l.
Proof. induction 1 as [|x l Hx _ IH]; simpl; [done|]. by rewrite Hx, IH. Qed.

Lemma omap_keep (f : error → bool) (l : list error) :
  omap id ((fun part => if f part then None else Some part) <$> l) = filter (fun part => f part = false) l.
Proof.
  induction l as [|x l IH]; [done|]. rewrite fmap_cons, filter_cons. destruct (f x) eqn:Hx.
  - rewrite decide_False by done. exact IH.
  - rewrite decide_True by done. simpl. f_equal. exact IH.
Qed.

Lemma withoutLostGrant_None e :
  withoutLostGrant (Some e) = None ↔ Forall (fun part => expected part = true) (flatten e).
Proof.
  unfold withoutLostGrant. rewrite errors_join_None, Forall_fmap. apply Forall_iff. intros part. simpl.
  by destruct (expected part).
Qed.

(** What is left of a release's error once the expected refusals of a lost grant are
    dropped: exactly the other parts, in order, whatever joins they were nested in,
    and nothing at all exactly when every part was such a refusal. *)
Theorem withoutLostGrant_spec e :
  match withoutLostGrant (Some e) with
  | None => Forall (fun part => expected part = true) (flatten e)
  | Some kept => flatten kept = filter (fun part => expected part = false) (flatten e) ∧
                 ¬ Forall (fun part => expected part = true) (flatten e)
  end.
Proof.
  unfold withoutLostGrant, errors_join. rewrite omap_keep.
  destruct (filter (fun part => expected part = false) (flatten e)) as [|x l] eqn:Hf.
  - apply Forall_forall. intros part Hp. destruct (expected part) eqn:Hx; [done|].
    assert (part ∈ filter (fun part => expected part = false) (flatten e)) as Hin by by apply list_elem_of_filter.
    rewrite Hf in Hin. by apply elem_of_nil in Hin.
  - assert (∀ part, part ∈ x :: l → part ∈ flatten e ∧ expected part = false) as Hin.
    { intros part Hp. rewrite <-Hf in Hp. apply list_elem_of_filter in Hp. tauto. }
    split.
    + apply flatten_concat. apply Forall_forall. intros part Hp. pose proof (flatten_parts e) as Hall.
      rewrite Forall_forall in Hall. by apply Hall, Hin.
    + rewrite Forall_forall. intros Hall. destruct (Hin x) as [Hx Hfalse]; [by left|]. rewrite Hall in Hfalse by done. done.
Qed.

(** ** What a release and a give-up do *)

Abbreviation O := (obs RV).

(** The steps that end a residency, as they appear in a trace. *)
Inductive ending :=
| EndHalt | EndWork | EndRuntime | EndLocation | EndOwnership | EndLease | EndState | EndCharge | EndCountdown
| EndSession | EndRecord.

Definition ending_of (o : O) : option ending :=
  match o with Obs e _ =>
    match e with
    | VHalt => Some EndHalt | VStopWork => Some EndWork
    | VTeardownRelease | VTeardownAbandon => Some EndRuntime
    | VFinish => Some EndLocation | VStopOwnership => Some EndOwnership
    | VReleaseLease => Some EndLease | VDropState => Some EndState
    | VCredit => Some EndCharge | VForgetWarm => Some EndCountdown
    | VDropSession => Some EndSession | VPrune => Some EndRecord
    | _ => None
    end end.

Definition endings (t : list O) : list ending := omap ending_of t.

(** What one of [FinishRelease]'s four steps answered. *)
Definition finish_error (o : O) : option error :=
  match o with Obs e x =>
    match e in RV X return X → option error with
    | VFinish | VStopOwnership | VReleaseLease | VDropState => id
    | _ => fun _ => None
    end x end.

Definition runtime_error (o : O) : option error :=
  match o with Obs e x =>
    match e in RV X return X → option error with
    | VTeardownRelease | VTeardownAbandon => id
    | _ => fun _ => None
    end x end.

Definition is_unreleased (o : O) : bool :=
  match o with Obs e _ => match e with VUnreleased _ => true | _ => false end end.

(** Nothing but expected refusals of a lost grant. *)
Definition excused (err : option error) : Prop := withoutLostGrant err = None.

#[local] Arguments withoutLostGrant : simpl never.

Lemma excused_join es : excused (errors_join es) ↔ Forall excused es.
Proof.
  unfold excused, errors_join. trans (Forall (fun e => withoutLostGrant (Some e) = None) (omap id es)).
  - destruct (omap id es) as [|e l]; [by split; [constructor|]|]. rewrite withoutLostGrant_None.
    change (flatten (EJoin (e :: l))) with (flat_map flatten (e :: l)). generalize (e :: l). clear e l. intros l.
    induction l as [|e l IH]; simpl; [by split|]. rewrite Forall_app, Forall_cons, IH. simpl. by rewrite withoutLostGrant_None.
  - induction es as [|[e|] es IH]; simpl; [by split; constructor|by rewrite !Forall_cons, IH|].
    rewrite Forall_cons, IH. naive_solver.
Qed.

Lemma endings_app t1 t2 : endings (t1 ++ t2) = endings t1 ++ endings t2.
Proof. apply omap_app. Qed.

Lemma endings_cons o t : endings (o :: t) = option_list (ending_of o) ++ endings t.
Proof. apply omap_cons_app. Qed.

(** [FinishRelease] as a trace. *)
Lemma FinishRelease_runs b t r :
  runs (FinishRelease b) t r →
  ∃ e1 e2 e3 e4 rest,
    t = [Obs VFinish e1; Obs VStopOwnership e2; Obs VReleaseLease e3; Obs VDropState e4] ++ rest ∧
    r = errors_join [withoutLostGrant (errors_join [e1; e2; e3; e4])] ∧
    runs (if b then endResidency else Ret tt) rest tt.
Proof.
  intros (e1 & ? & -> & e2 & ? & -> & e3 & ? & -> & e4 & rest & -> & Hr).
  apply runs_bind in Hr as (t0 & t' & ? & -> & [-> ->] & Hr).
  apply runs_bind in Hr as (t1 & t2 & [] & -> & H1 & [-> ->]). exists e1, e2, e3, e4, t1.
  by rewrite app_nil_r.
Qed.

Lemma endResidency_runs t u : runs endResidency t u → endings t = [EndRecord] ∧ omap finish_error t = [] ∧ omap runtime_error t = [].
Proof.
  intros ([] & ? & -> & H); simpl in H; [|by destruct H as [-> _]].
  destruct H as ([] & ? & -> & H); simpl in H; destruct H as (? & ? & -> & [-> _]); done.
Qed.

Lemma FinishRelease_exact b t r :
  runs (FinishRelease b) t r →
  endings t = [EndLocation; EndOwnership; EndLease; EndState] ++ (if b then [EndRecord] else []) ∧
  (r = None ↔ Forall excused (Some <$> omap finish_error t)).
Proof.
  intros (e1 & e2 & e3 & e4 & rest & -> & -> & Hrest)%FinishRelease_runs.
  assert (endings rest = (if b then [EndRecord] else []) ∧ omap finish_error rest = []) as [He Hf].
  { destruct b; [|by destruct Hrest as [-> _]]. by apply endResidency_runs in Hrest as (? & ? & _). }
  split; [by rewrite endings_app, He|].
  rewrite errors_join_singleton. fold (excused (errors_join [e1; e2; e3; e4])). rewrite excused_join, omap_app, Hf.
  rewrite !Forall_cons. unfold excused. destruct e1, e2, e3, e4; simpl; rewrite ?Forall_cons; naive_solver.
Qed.

(** The drain's end of a residency is complete and honest: it writes the tombstone,
    stops the ownership, hands the lease back and drops the local state, in this
    order and each once, whatever any of them answers, and it answers nil exactly
    when none of them failed by more than the refusals a lost grant explains. *)
Theorem FinishRelease_complete b t r (Hrun : runs (FinishRelease b) t r) :
  endings t = [EndLocation; EndOwnership; EndLease; EndState] ++ (if b then [EndRecord] else []) ∧
  (r = None ↔ Forall excused (Some <$> omap finish_error t)).
Proof.
  by apply FinishRelease_exact.
Qed.

Lemma halt_mine_runs t r :
  runs halt_mine t r → (endings t = [] ∨ endings t = [EndHalt]) ∧ omap finish_error t = [] ∧ omap runtime_error t = [].
Proof.
  intros ([] & ? & -> & H); simpl in H; [|by destruct H as [-> _]; auto].
  destruct H as (e & ? & -> & -> & _). simpl. auto.
Qed.

(** The last steps of a give-up, and that a failure of them is recorded. *)
Lemma give_up_end_runs fs t r :
  runs (give_up_end fs) t r →
  (∃ mine : bool, endings t = [EndLocation; EndOwnership; EndLease; EndState] ++
     (if mine then [EndCharge; EndCountdown] else []) ++ [EndSession; EndRecord]) ∧
  omap runtime_error t = [] ∧
  (¬ Forall excused (Some <$> omap finish_error t) → seen is_unreleased t = true).
Proof.
  intros Hr. apply runs_bind in Hr as (t1 & t2 & err & -> & H1 & Hr).
  destruct (FinishRelease_exact _ _ _ H1) as [He Hx]. rewrite app_nil_r in He.
  apply FinishRelease_runs in H1 as (e1 & e2 & e3 & e4 & rest & Ht1 & _ & [-> _]).
  apply runs_bind in Hr as (t3 & t4 & [] & -> & H3 & Hr). apply runs_call in Hr as (mine & t6 & -> & Hr).
  apply runs_bind in Hr as (t7 & t8 & [] & -> & H7 & Hr).
  apply runs_bind in Hr as (t9 & t10 & [] & -> & H9 & [-> _]). apply runs_call in H9 as ([] & t11 & -> & H9).
  apply endResidency_runs in H9 as (E11 & F11 & R11).
  assert (endings t3 = [] ∧ omap finish_error t3 = [] ∧ omap runtime_error t3 = [] ∧ (err ≠ None → seen is_unreleased t3 = true)) as (E3 & F3 & R3 & U3).
  { destruct err as [e|]; [destruct H3 as (? & ? & -> & -> & _)|destruct H3 as [-> _]]; done. }
  assert (endings t7 = (if mine then [EndCharge; EndCountdown] else []) ∧ omap finish_error t7 = [] ∧ omap runtime_error t7 = []) as (E7 & F7 & R7).
  { destruct mine; [destruct H7 as (? & ? & -> & ? & ? & -> & -> & _)|destruct H7 as [-> _]]; done. }
  split_and!.
  - exists mine. repeat (rewrite endings_app || rewrite endings_cons). by rewrite He, E3, E7, E11.
  - repeat (rewrite omap_app || rewrite omap_cons_app). by rewrite R3, R7, R11, Ht1.
  - intros Hn. rewrite seen_app, seen_app, U3, orb_true_l, orb_true_r; [done|]. intros ->. apply Hn.
    repeat (rewrite omap_app || rewrite omap_cons_app). rewrite F3, F7, F11. simpl. rewrite app_nil_r. by apply Hx.
Qed.

(** What both give-ups do with a residency. *)
Definition gave_up (t : list O) : Prop :=
  (∃ (halted twice mine : bool),
     endings t = (if halted then [EndHalt] else []) ++ [EndWork] ++ (if twice then [EndWork] else []) ++
       [EndRuntime; EndLocation; EndOwnership; EndLease; EndState] ++
       (if mine then [EndCharge; EndCountdown] else []) ++ [EndSession; EndRecord]) ∧
  (¬ Forall excused (Some <$> omap finish_error t) ∨
   Exists (fun e => errors_is e ErrResidencyStillHeld = true) (omap runtime_error t) → seen is_unreleased t = true).

(** The record of a runtime that kept its lease. *)
Lemma kept_recorded x t u :
  runs (match x with
        | Some e => if errors_is e ErrResidencyStillHeld then call (VUnreleased (wrap e)) else Ret tt
        | None => Ret tt
        end) t u →
  endings t = [] ∧ omap finish_error t = [] ∧ omap runtime_error t = [] ∧
  ∀ e, x = Some e → errors_is e ErrResidencyStillHeld = true → seen is_unreleased t = true.
Proof.
  destruct x as [e|]; [destruct (errors_is e ErrResidencyStillHeld) eqn:He|]; simpl.
  - intros (? & ? & -> & -> & _). done.
  - intros [-> _]. split_and!; [done..|]. intros e' [= <-]. congruence.
  - intros [-> _]. done.
Qed.

(** A give-up in its pieces: the halt, the work, the runtime, the record, the end. *)
Lemma gave_up_pieces t1 t5 t7 t8 err (twice mine : bool) :
  endings t1 = [] ∨ endings t1 = [EndHalt] → omap finish_error t1 = [] → omap runtime_error t1 = [] →
  endings t5 = (if twice then [EndWork] else []) ++ [EndRuntime] → omap finish_error t5 = [] →
  omap runtime_error t5 = option_list err →
  endings t7 = [] → omap finish_error t7 = [] → omap runtime_error t7 = [] →
  (∀ e, err = Some e → errors_is e ErrResidencyStillHeld = true → seen is_unreleased t7 = true) →
  endings t8 = [EndLocation; EndOwnership; EndLease; EndState] ++
    (if mine then [EndCharge; EndCountdown] else []) ++ [EndSession; EndRecord] →
  omap runtime_error t8 = [] →
  (¬ Forall excused (Some <$> omap finish_error t8) → seen is_unreleased t8 = true) →
  gave_up (t1 ++ [Obs VStopWork tt] ++ t5 ++ t7 ++ t8).
Proof.
  intros E1 F1 R1 E5 F5 R5 E7 F7 R7 U7 E8 R8 U8. split.
  - assert (∃ halted : bool, endings t1 = if halted then [EndHalt] else []) as [halted Hh]
      by (destruct E1; [by exists false|by exists true]).
    exists halted, twice, mine. rewrite !endings_app, Hh, E5, E7, E8. by destruct halted, twice, mine.
  - rewrite !omap_app, !seen_app, F1, F5, F7, R1, R5, R7, R8, !app_nil_r. intros [Hn|Hx].
    + simpl in Hn. by rewrite U8, !orb_true_r.
    + apply Exists_exists in Hx as (e & He & Hh). destruct err as [e'|]; simpl in He; [|by apply elem_of_nil in He].
      apply list_elem_of_singleton in He as ->. by rewrite (U7 e'), !orb_true_r.
Qed.

Lemma releaseLost_runs t r : runs releaseLost t r → gave_up t.
Proof.
  intros Hr. apply runs_bind in Hr as (t1 & t2 & e1 & -> & H1 & Hr). apply halt_mine_runs in H1 as (E1 & F1 & R1).
  apply runs_call in Hr as ([] & t3 & -> & Hr). apply runs_call in Hr as (faults & t4 & -> & Hr).
  apply runs_bind in Hr as (t5 & t6 & e2 & -> & H5 & Hr).
  apply runs_bind in Hr as (t7 & t8 & [] & -> & H7 & Hr). apply give_up_end_runs in Hr as ((mine & E8) & R8 & U8).
  assert (∃ err, endings t5 = (if negb faults then [EndWork] else []) ++ [EndRuntime] ∧ omap finish_error t5 = [] ∧
    omap runtime_error t5 = option_list err ∧ (e2 = err ∨ e2 = (wrap <$> err))) as (err & E5 & F5 & R5 & Hw).
  { destruct faults.
    - destruct H5 as (err & ? & -> & -> & ->). exists err. destruct err; auto.
    - destruct H5 as ([] & ? & -> & err & ? & -> & -> & ->). exists err. destruct err; auto 6. }
  apply kept_recorded in H7 as (E7 & F7 & R7 & U7).
  apply (gave_up_pieces t1 (Obs VFaults faults :: t5) t7 t8 err (negb faults) mine); try done.
  intros e -> He. destruct Hw as [-> | ->]; (destruct e1 as [e1|]; simpl in *;
    (eapply U7; [done|]; unfold errors_is, ErrResidencyStillHeld in *; simpl in *; by rewrite He, ?orb_true_r)).
Qed.

Lemma releaseUnusable_runs t r : runs releaseUnusable t r → gave_up t.
Proof.
  intros Hr. apply runs_call in Hr as (e0 & t0 & -> & Hr).
  apply runs_bind in Hr as (t1 & t2 & e1 & -> & H1 & Hr). apply halt_mine_runs in H1 as (E1 & F1 & R1).
  apply runs_call in Hr as ([] & t3 & -> & Hr). apply runs_call in Hr as (e2 & t4 & -> & Hr).
  apply runs_bind in Hr as (t7 & t8 & [] & -> & H7 & Hr). apply give_up_end_runs in Hr as ((mine & E8) & R8 & U8).
  apply kept_recorded in H7 as (E7 & F7 & R7 & U7).
  apply (gave_up_pieces (Obs VBegin e0 :: t1) [Obs VTeardownAbandon e2] t7 t8 e2 false mine); try done.

Qed.

(** Giving a residency up leaves nothing behind unsaid: whatever fails on the way,
    a lost or unusable session has its consumer halted if it is still this
    residency's, then its work stopped, its runtime given up, its tombstone written,
    its ownership stopped, its lease handed back, its local state dropped and its
    maps cleared, in this order; and a runtime that kept its lease, or a step that
    failed by more than a lost grant explains, is recorded as unreleased. *)
Theorem give_up_complete p t r (Hp : p = releaseLost ∨ p = releaseUnusable) (Hrun : runs p t r) : gave_up t.
Proof. destruct Hp as [-> | ->]; [by eapply releaseLost_runs|by eapply releaseUnusable_runs]. Qed.

(** A warm release counts as unfinished exactly when one of its durable steps, the
    tombstone, the lease or the local state, failed by more than a lost grant
    explains. *)
Theorem unfinishedWarmRelease_spec outcome :
  unfinishedWarmRelease outcome = None ↔
  Forall (fun f => counts_unfinished (Warm.wf_Step f) = true → excused (Some (Warm.wf_Err f))) (Warm.Failures outcome).
Proof.
  unfold unfinishedWarmRelease. rewrite fmap_None, errors_join_None, Forall_fmap. apply Forall_iff. intros f. simpl.
  unfold excused. destruct (counts_unfinished _); [rewrite fmap_None; naive_solver|naive_solver].
Qed.

(** ** Witnesses

    The grant is gone, so the tombstone is refused as expected, and the runtime keeps
    its lease. *)
Definition lost_grant : error := ETyped (TReleaseError (mkKey "t" "s")) (Some ErrLeaseNotHeld).

Definition sample_env : handler RV unit := fun X e u =>
  match e in RV X return X * unit with
  | VFinish => (Some lost_grant, u)
  | VBegin | VCheckpoint | VStopOwnership | VReleaseLease | VDropState | VCredit | VAbortHalves | VWaitIdle | VHalt => (None, u)
  | VTeardownRelease | VTeardownAbandon => (Some ErrResidencyStillHeld, u)
  | VStopWork | VForgetProgress | VForgetWarm | VDropSession | VCancelSession | VWhenReleased => (tt, u)
  | VUnreleased _ => (tt, u)
  | VWorkDone | VReleased => (false, u)
  | VFaults | VIsResident | VPrune | VGiveUpOnce => (true, u)
  end.

Definition sample_lost : list O := Eval vm_compute in (exec sample_env releaseLost tt).2.
Definition sample_finish : list O := Eval vm_compute in (exec sample_env (FinishRelease true) tt).2.

Lemma FinishRelease_complete_witness :
  runs (FinishRelease true) sample_finish None ∧
  endings sample_finish = [EndLocation; EndOwnership; EndLease; EndState; EndRecord].
Proof.
  assert (runs (FinishRelease true) sample_finish None) as Hr.
  { refine (exec_runs sample_env _ tt _ tt _ _). vm_compute. reflexivity. }
  split; [exact Hr|]. exact (proj1 (FinishRelease_complete true sample_finish None Hr)).
Defined.

Lemma give_up_complete_witness : gave_up sample_lost ∧ seen is_unreleased sample_lost = true.
Proof.
  assert (runs releaseLost sample_lost (exec sample_env releaseLost tt).1.1) as Hr.
  { refine (exec_runs sample_env _ tt _ tt _ _). vm_compute. reflexivity. }
  split; [|vm_compute; reflexivity].
  exact (give_up_complete releaseLost sample_lost _ (or_introl eq_refl) Hr).
Defined.
End Resident.
