(* ===== verification/Outcomes.v ===== *)
(** * Outcomes.v: what the service does about a residency it is told of

    The service's answers to what others report of a residency by its key and
    generation: a warm release's outcome ([WarmRelease], [forgetReleased]), a lost grant
    ([ResidencyLost], [forget]), a stranded attempt and a persistence fault
    ([strandedAttempt], [superviseFaults]), of [internal/compose/adapters.go] and
    [faults.go].  The session maps are asked for the generation they hold; what is then
    done to that residency is [Resident.v]'s, each of its calls passed through.     *)
From Stdlib Require Import ZArith.
From stdpp Require Import base list strings gmap.
From S2P Require Import Prelude Wire Errors Effects Warm Resident.

Module Outcomes.
Import Resident.
#[local] Existing Instance Warm.WarmOutcomeKind_eq_dec.
Local Open Scope prog_scope.

(** The arms of [superviseFaults]'s select. *)
Inductive Arm := ArmCtxDone | ArmRuntimeDone | ArmFaulted.

Inductive OV : Type → Type :=
| OMetrics (o : Warm.WarmOutcome) : OV unit
| OUnreleased (e : error) : OV unit                     (* [recordUnreleased] *)
| OLookup : OV (option Z)                               (* the generation the maps hold for the key *)
| ODrop (generation : Z) : OV bool                      (* the locked region of [forget]: whether it was this one *)
| OEndRecord (generation : Z) (released : bool) : OV unit   (* [manager.EndResidency] *)
| OForgetWarm : OV unit
| OHeldFaults : OV (option bool)                        (* [persistenceFaultsFor]: whether its channel is set *)
| OSelect : OV Arm
| OOn {X} (e : RV X) : OV X.                            (* a call on the residency held *)

Abbreviation P := (prog OV).

(** A step of [Resident.v], on the residency held. *)
Definition on {A} (p : prog RV A) : P A := interp (fun X e => call (OOn e)) p.

(** [forget] and [forgetReleased]. *)
Definition forget (generation : Z) (released : bool) : P unit :=
  let! current := call (ODrop generation) in
  if current then on endResidency else call (OEndRecord generation released).

Definition current (held : option Z) (generation : Z) : bool := bool_decide (held = Some generation).

(** [Service.WarmRelease], of an outcome for a generation. *)
Definition WarmRelease (generation : Z) (outcome : Warm.WarmOutcome) : P unit :=
  do! call (OMetrics outcome) in
  match Warm.Kind outcome with
  | Warm.WarmOutcomeReleased =>
      do! (match unfinishedWarmRelease outcome with Some e => call (OUnreleased e) | None => Ret tt end) in
      forget generation true
  | Warm.WarmOutcomeHeld =>
      let! held := call OLookup in
      if current held generation then call (OOn VForgetProgress) else Ret tt
  | _ => Ret tt
  end.

(** [ResidencyLost]. *)
Definition ResidencyLost (generation : Z) : P unit :=
  let! held := call OLookup in
  if negb (current held generation) then do! call OForgetWarm in forget generation false
  else on Resident.ResidencyLost.

(** [strandedAttempt], whose give-up runs on a goroutine of its own. *)
Definition strandedAttempt (generation : Z) : P unit :=
  let! held := call OLookup in
  if current held generation then on giveUp else Ret tt.

(** [superviseFaults], of the residency that was just made resident. *)
Definition superviseFaults : P unit :=
  let! faults := call OHeldFaults in
  match faults with
  | Some true =>
      let! arm := call OSelect in
      match arm with ArmFaulted => on giveUp | _ => Ret tt end
  | _ => Ret tt
  end.

(** The authority a committed attach's rollback releases through: each step of
    [committedOwnership] but [Stop] is a step of the residency. *)
Inductive Authority := ReleaseRuntime | ReleaseLease | ReleaseWorkspace | ReleaseLocation | ReleaseAdmission.

Definition committed (a : Authority) : P (option error) :=
  on match a with
     | ReleaseRuntime => ReleaseResidency
     | ReleaseLease => call VReleaseLease
     | ReleaseWorkspace => call VDropState
     | ReleaseLocation => call VFinish
     | ReleaseAdmission => call VCredit
     end.

(** ** A report for another generation ends nothing *)

(** The maps said they hold this generation. *)
Definition says_current (generation : Z) (o : obs OV) : bool :=
  match o with Obs e x =>
    match e in OV X return X → bool with OLookup => fun held => current held generation | ODrop _ => id | _ => fun _ => false end x end.

Definition touches (o : obs OV) : bool := match o with Obs e _ => match e with OOn _ => true | _ => false end end.
Definition drops (o : obs OV) : bool := match o with Obs e _ => match e with ODrop _ => true | _ => false end end.
Definition ledgers (o : obs OV) : bool := match o with Obs e _ => match e with OUnreleased _ => true | _ => false end end.

(** A step of the residency neither drops nor writes to the ledger of the service's own. *)
Lemma on_runs {A} (p : prog RV A) t a : runs (on p) t a → seen ledgers t = false ∧ seen drops t = false.
Proof.
  unfold on. rewrite runs_interp. intros (cs & -> & _ & Hm).
  induction Hm as [|[[X e x] l] cs Ho _ IH]; [done|]. unfold made in Ho. simpl in Ho. destruct Ho as (x' & t' & -> & -> & ->). exact IH.
Qed.

Lemma forget_runs generation released t :
  runs (forget generation released) t tt →
  ∃ b rest, t = Obs (ODrop generation) b :: rest ∧ (b = false → seen touches rest = false) ∧ seen ledgers rest = false ∧ seen drops rest = false.
Proof.
  intros (b & rest & -> & H). exists b, rest. split; [done|]. destruct b.
  - split; [done|]. by apply (on_runs endResidency _ tt).
  - destruct H as ([] & ? & -> & -> & _). done.
Qed.

(** What touches nothing, and what touches only after the maps said so. *)
Lemma untouched f t : seen touches t = false → precedes f touches t.
Proof. intros Ht t1 o t2 -> Ho. rewrite seen_app in Ht. simpl in Ht. by rewrite Ho, orb_true_r in Ht. Qed.

Lemma touched_after f t1 o t2 : seen touches t1 = false → touches o = false → f o = true → precedes f touches (t1 ++ o :: t2).
Proof.
  intros H1 Ho Hf s1 o' s2 Heq Ho'. apply (f_equal (take (length s1))) in Heq as Ht.
  rewrite take_app_length in Ht. destruct (decide (length s1 ≤ length t1)) as [Hle|Hgt].
  - exfalso. assert ((t1 ++ o :: t2) !! length s1 = Some o') as Hl by by rewrite Heq, list_lookup_middle.
    destruct (decide (length s1 = length t1)) as [He|He].
    + rewrite He, list_lookup_middle in Hl by done. congruence.
    + rewrite lookup_app_l in Hl by lia. apply list_elem_of_lookup_2 in Hl. apply list_elem_of_split in Hl as (u1 & u2 & ->).
      rewrite seen_app in H1. simpl in H1. by rewrite Ho', orb_true_r in H1.
  - rewrite <-Ht, take_app, seen_app. destruct (length s1 - length t1) as [|n] eqn:Hn; [lia|]. simpl. by rewrite Hf, orb_true_r.
Qed.

Lemma forget_fenced generation released t : runs (forget generation released) t tt → precedes (says_current generation) touches t.
Proof.
  intros (b & rest & -> & H & _)%forget_runs. destruct b; [by apply (touched_after _ [])|]. apply untouched. simpl. by apply H.
Qed.

Lemma precedes_cons f o t : touches o = false → precedes f touches t → precedes f touches (o :: t).
Proof.
  intros Ho Ht [|o' s1] x s2 [= -> ->] Hx; [congruence|]. simpl. rewrite (Ht s1 x s2 eq_refl Hx). apply orb_true_r.
Qed.

Lemma count_cons (f : obs OV → bool) o t : count f (o :: t) = (if f o then 1 else 0) + count f t.
Proof. change (o :: t) with ([o] ++ t). by rewrite count_app, count_one. Qed.

Lemma count_unseen (f : obs OV → bool) t : seen f t = false → count f t = 0.
Proof. induction t as [|o t IH]; [done|]. simpl. intros [Ho Ht]%orb_false_iff. by rewrite count_cons, Ho, IH. Qed.

(** A report acts on the residency held only when the maps said, in that very call, that
    it is the generation reported: a warm outcome, a lost grant or a stranded attempt of
    an earlier residency of the same session leaves its successor alone. *)
Theorem reports_fenced generation (p : P unit) t
    (Hp : (∃ o, p = WarmRelease generation o) ∨ p = ResidencyLost generation ∨ p = strandedAttempt generation)
    (Hrun : runs p t tt) :
  precedes (says_current generation) touches t.
Proof.
  destruct Hp as [[o ->]|[-> | ->]].
  - destruct Hrun as ([] & t1 & -> & H). apply precedes_cons; [done|]. destruct (Warm.Kind o).
    + destruct (unfinishedWarmRelease o); [destruct H as ([] & t2 & -> & H); apply precedes_cons; [done|]|]; by eapply forget_fenced.
    + destruct H as [-> _]. by apply untouched.
    + destruct H as [-> _]. by apply untouched.
    + destruct H as (held & t2 & -> & H). cbn [bind] in H. destruct (current held generation) eqn:Hc; [by apply (touched_after _ [])|].
      destruct H as [-> _]. by apply untouched.
    + destruct H as [-> _]. by apply untouched.
  - destruct Hrun as (held & t1 & -> & H). cbn [bind] in H. destruct (current held generation) eqn:Hc; [by apply (touched_after _ [])|].
    apply precedes_cons; [done|]. destruct H as ([] & t2 & -> & H). apply precedes_cons; [done|]. by eapply forget_fenced.
  - destruct Hrun as (held & t1 & -> & H). cbn [bind] in H. destruct (current held generation) eqn:Hc; [by apply (touched_after _ [])|].
    destruct H as [-> _]. by apply untouched.
Qed.

(** A warm release that left something of the grant held is on the service's ledger, once
    and before the service lets go of the session; one that did not is not on it at all,
    and a resumed, aborted or held session is never let go. *)
Theorem warm_outcome_recorded generation outcome t (Hrun : runs (WarmRelease generation outcome) t tt) :
  count drops t = (if bool_decide (Warm.Kind outcome = Warm.WarmOutcomeReleased) then 1 else 0) ∧
  (Warm.Kind outcome = Warm.WarmOutcomeReleased →
    count ledgers t = (if unfinishedWarmRelease outcome is Some _ then 1 else 0) ∧ (is_Some (unfinishedWarmRelease outcome) → precedes ledgers drops t)).
Proof.
  destruct Hrun as ([] & t1 & -> & H). destruct (Warm.Kind outcome) eqn:Hk.
  - rewrite bool_decide_true by done. destruct (unfinishedWarmRelease outcome) as [e|].
    + destruct H as ([] & t2 & -> & (b & rest & -> & _ & Hl & Hd)%forget_runs).
      rewrite !(count_cons drops), !(count_cons ledgers), (count_unseen _ _ Hl), (count_unseen _ _ Hd). split; [done|]. intros _. split; [done|].
      intros _ s1 o s2 Heq Ho. destruct s1 as [|o1 [|o2 s1]]; [injection Heq as <- _; done|injection Heq as <- <- _; done|].
      injection Heq as <- <- _. done.
    + apply forget_runs in H as (b & rest & -> & _ & Hl & Hd).
      rewrite !(count_cons drops), !(count_cons ledgers), (count_unseen _ _ Hl), (count_unseen _ _ Hd). split; [done|]. intros _. by split; [|intros [? ?]].
  - rewrite bool_decide_false by done. by destruct H as [-> _].
  - rewrite bool_decide_false by done. by destruct H as [-> _].
  - rewrite bool_decide_false by done. destruct H as (held & t2 & -> & H). cbn [bind] in H.
    destruct (current held generation); [destruct H as (? & ? & -> & -> & _)|destruct H as [-> _]]; done.
  - rewrite bool_decide_false by done. by destruct H as [-> _].
Qed.

(** ** Witnesses *)

(** A service that holds generation 8 and whose residency answers with no errors. *)
Definition sample_world (holds : Z) : handler OV unit := fun X e u =>
  match e in OV X return X * unit with
  | OMetrics _ | OUnreleased _ | OEndRecord _ _ | OForgetWarm => (tt, u)
  | OLookup => (Some holds, u) | ODrop generation => (bool_decide (generation = holds), u)
  | OHeldFaults => (Some true, u) | OSelect => (ArmFaulted, u)
  | OOn e =>
      match e in RV X return X * unit with
      | VBegin | VCheckpoint | VFinish | VStopOwnership | VReleaseLease | VDropState | VCredit | VAbortHalves | VWaitIdle
      | VTeardownRelease | VTeardownAbandon | VHalt => (None, u)
      | VStopWork | VForgetProgress | VForgetWarm | VDropSession | VCancelSession | VWhenReleased | VUnreleased _ => (tt, u)
      | VWorkDone | VFaults | VReleased | VIsResident | VPrune | VGiveUpOnce => (true, u)
      end
  end.

Definition sample_failure : Warm.WarmOutcome :=
  Warm.mkOutcome Warm.WarmOutcomeReleased [Warm.mkWarmFailure Warm.WarmStepReleaseLease (EForeign "store")].

Lemma exec_sample holds (p : P unit) : runs p (exec (sample_world holds) p tt).2 tt.
Proof. apply (exec_runs (sample_world holds) p tt tt tt). by destruct (exec _ p tt) as [[[] []] ?]. Qed.

Lemma reports_fenced_witness :
  seen touches (exec (sample_world 8) (ResidencyLost 8) tt).2 = true ∧
  precedes (says_current 8) touches (exec (sample_world 8) (ResidencyLost 8) tt).2 ∧
  seen touches (exec (sample_world 9) (ResidencyLost 8) tt).2 = false.
Proof.
  split; [vm_compute; reflexivity|]. split; [|vm_compute; reflexivity].
  exact (reports_fenced 8 (ResidencyLost 8) _ (or_intror (or_introl eq_refl)) (exec_sample 8 _)).
Defined.

Lemma warm_outcome_recorded_witness :
  count drops (exec (sample_world 8) (WarmRelease 8 sample_failure) tt).2 = 1 ∧
  count ledgers (exec (sample_world 8) (WarmRelease 8 sample_failure) tt).2 = 1.
Proof.
  destruct (warm_outcome_recorded 8 sample_failure _ (exec_sample 8 _)) as [H1 H2]. split; [exact H1|].
  destruct (H2 eq_refl) as [H3 _]. exact H3.
Defined.

End Outcomes.
