(* ===== verification/Lifetime.v ===== *)
(** * Lifetime.v: the composed service

    [Service] of [internal/compose]: what its mutex guards ([compose.go],
    [adapters.go], [workstates.go]), as one state and the regions that change it, in
    any interleaving of starts, attaches, drains, warm releases and disposals.  A
    caller's own program order is the guard of its step.  The registry, the manager,
    the warm releaser and the drainer behind it are modelled in their own files.   *)
From Stdlib Require Import ZArith.
From stdpp Require Import base list strings gmap relations.
From S2P Require Import Prelude Wire Errors Effects.

Module Lifetime.

Definition ErrServiceDisposed : error := ETyped (TOtherError "ServiceLifecycleError") (Some (ESentinel "disposed")).
Definition ErrServiceActive : error := ETyped (TOtherError "ServiceLifecycleError") (Some (ESentinel "active")).
Definition ErrServiceNotStarted : error := ETyped (TOtherError "ServiceLifecycleError") (Some (ESentinel "not started")).
Definition errStartsOnce : error := ESentinel "compose: a Service starts once".

(** How far one [Attach] is: admitted, its consumer recorded, refused by
    [trackResident] or by the warm releaser, the owner of a residency, returned. *)
Inductive phase := Entered | Working | Refused | Owner (r : nat) | Undone | Left.

#[export] Instance phase_eq_dec : EqDecision phase.
Proof. solve_decision. Defined.

(** [inflightAttach], by its [done] channel, and the goroutine that closes it. *)
Record attach := mkAttach { a_Key : Key; a_id : Z; a_phase : phase }.

(** What of a [resident] the service's mutex or the release guards decide. *)
Record resident := mkResident { r_Key : Key; r_Generation : Z; workDone : bool; drainHalted : bool }.

(** [Service].  Consumers are numbered as they are built; [halted] are those told to
    halt, [halting] those a drain has latched and not yet told. *)
Record Service := mkService {
  started : bool; starting : bool; draining : bool; stopped : bool; disposed : bool;
  disposeErr : option (option error);        (* once [disposeDone] is closed *)
  attachSeq : Z;
  attaching : gmap Z nat;
  attaches : list attach;
  residents : list resident;
  sessions : gmap Key nat;
  consumers : gmap Key nat;
  built : nat;
  halted : gset nat;
  halting : gset nat
}.

Implicit Types (s : Service).

(** [New]. *)
Definition New : Service := mkService false false false false false None 0 ∅ [] [] ∅ ∅ 0 ∅ ∅.

Definition with_flags (st sg dr sp di : bool) s : Service :=
  mkService st sg dr sp di (disposeErr s) (attachSeq s) (attaching s) (attaches s) (residents s) (sessions s)
    (consumers s) (built s) (halted s) (halting s).
Definition with_attaches n m l s : Service :=
  mkService (started s) (starting s) (draining s) (stopped s) (disposed s) (disposeErr s) n m l (residents s)
    (sessions s) (consumers s) (built s) (halted s) (halting s).
Definition with_residents l m s : Service :=
  mkService (started s) (starting s) (draining s) (stopped s) (disposed s) (disposeErr s) (attachSeq s) (attaching s)
    (attaches s) l m (consumers s) (built s) (halted s) (halting s).
Definition with_consumers m n s : Service :=
  mkService (started s) (starting s) (draining s) (stopped s) (disposed s) (disposeErr s) (attachSeq s) (attaching s)
    (attaches s) (residents s) (sessions s) m n (halted s) (halting s).
Definition with_halts h g s : Service :=
  mkService (started s) (starting s) (draining s) (stopped s) (disposed s) (disposeErr s) (attachSeq s) (attaching s)
    (attaches s) (residents s) (sessions s) (consumers s) (built s) h g.

(** ** Starting, draining and disposing *)

(** [Start], up to its publication. *)
Definition Start s : option error * Service :=
  if disposed s then (Some ErrServiceDisposed, s)
  else if started s || stopped s || starting s || draining s then (Some errStartsOnce, s)
  else (None, with_flags (started s) true (draining s) (stopped s) (disposed s) s).

(** [Start], once the first advertisement was published, or was not. *)
Definition Started (err : option error) s : Service :=
  match err with
  | Some _ => with_flags (started s) false (draining s) (stopped s) (disposed s) s
  | None => with_flags true false (draining s) (stopped s) (disposed s) s
  end.

(** [StartDrain], before it reaches the drainer. *)
Definition StartDrain s : option error * Service :=
  if disposed s then (Some ErrServiceDisposed, s)
  else if starting s then (Some ErrServiceActive, s)
  else if negb (started s) then (Some ErrServiceNotStarted, s)
  else (None, with_flags (started s) (starting s) true (stopped s) (disposed s) s).

(** [Stop]'s locked region. *)
Definition MarkStopped s : Service := with_flags (started s) (starting s) (draining s) true (disposed s) s.

(** [CloseUnstarted]: [registered] is whether the registry has entries.  A nil answer
    is a caller that goes on to wait for [disposeDone]; the worker is started by the
    call that sets [disposed]. *)
Definition CloseUnstarted (registered : bool) s : option error * Service :=
  if disposed s then (None, s)
  else if starting s || draining s || started s || stopped s || negb (bool_decide (attaching s = ∅))
          || negb (bool_decide (sessions s = ∅)) || registered
  then (Some ErrServiceActive, s)
  else (None, with_flags (started s) (starting s) (draining s) (stopped s) true s).

(** The worker's last region. *)
Definition Disposed (err : option error) s : Service :=
  mkService (started s) (starting s) (draining s) (stopped s) (disposed s) (Some err) (attachSeq s) (attaching s)
    (attaches s) (residents s) (sessions s) (consumers s) (built s) (halted s) (halting s).

Definition Ready (capacityDraining : bool) s : bool := started s && negb (stopped s) && negb capacityDraining.
Definition Live s : bool := started s && negb (stopped s).

(** ** Attaching *)

(** [Attach], before it calls the manager. *)
Definition Attach (k : Key) s : option error * Service :=
  if disposed s then (Some ErrServiceDisposed, s)
  else if negb (started s) then (Some ErrServiceNotStarted, s)
  else
    let id := u64 (attachSeq s + 1) in
    (None, with_attaches id (<[id := length (attaches s)]> (attaching s)) (attaches s ++ [mkAttach k id Entered]) s).

Definition set_phase (i : nat) (p : phase) s : Service :=
  with_attaches (attachSeq s) (attaching s) (alter (fun a => mkAttach (a_Key a) (a_id a) p) i (attaches s)) s.

(** Its deferred end. *)
Definition Leave (i : nat) (a : attach) s : Service :=
  let s := set_phase i Left s in
  with_attaches (attachSeq s) (delete (a_id a) (attaching s)) (attaches s) s.

(** [recordConsumer], in [beginWork]. *)
Definition recordConsumer (i : nat) (a : attach) s : Service :=
  set_phase i Working (with_consumers (<[a_Key a := built s]> (consumers s)) (S (built s)) s).

Definition forgetConsumer (k : Key) s : Service := with_consumers (delete k (consumers s)) (built s) s.

(** [trackResident], up to [warm.Watch]: [commit] is what [request.Commit] answers. *)
Definition trackResident (i : nat) (a : attach) (generation : Z) (commit : bool) s : Service :=
  if draining s || negb commit then set_phase i Refused s
  else
    let r := length (residents s) in
    set_phase i (Owner r)
      (with_residents (residents s ++ [mkResident (a_Key a) generation false false]) (<[a_Key a := r]> (sessions s)) s).

(** [forgetResident]: the map's part. *)
Definition forgetResident (r : nat) (held : resident) s : Service :=
  if bool_decide (sessions s !! r_Key held = Some r)
  then with_residents (residents s) (delete (r_Key held) (sessions s)) s else s.

(** [trackResident], when the warm releaser refuses the watch. *)
Definition Unwatched (i r : nat) (held : resident) s : Service := set_phase i Refused (forgetResident r held s).

(** ** Releasing *)

Definition at_resident (r : nat) (f : resident → resident) s : Service :=
  with_residents (alter f r (residents s)) (sessions s) s.

(** [stopWork], which forgets the consumer. *)
Definition stopWork (r : nat) (held : resident) s : Service :=
  if workDone held then s
  else forgetConsumer (r_Key held)
         (at_resident r (fun x => mkResident (r_Key x) (r_Generation x) true (drainHalted x)) s).

(** [forget] and [forgetReleased]: the map's part. *)
Definition forget (k : Key) (generation : Z) s : Service :=
  match sessions s !! k ≫= fun r => residents s !! r with
  | Some held => if (r_Generation held =? generation)%Z then with_residents (residents s) (delete k (sessions s)) s else s
  | None => s
  end.

(** The consumer of [Halt], and [Consumer.Halt]'s flag. *)
Definition Halt (k : Key) s : option nat := consumers s !! k.
Definition halt (c : nat) s : Service := with_halts ({[c]} ∪ halted s) (halting s) s.

(** [Resume], with [Consumer.Resume]'s flag. *)
Definition Resume (k : Key) s : Service :=
  match sessions s !! k ≫= fun r => residents s !! r with
  | Some held =>
      if drainHalted held then s
      else match consumers s !! k with Some c => with_halts (halted s ∖ {[c]}) (halting s) s | None => s end
  | None => match consumers s !! k with Some c => with_halts (halted s ∖ {[c]}) (halting s) s | None => s end
  end.

(** [haltForDrain]: the latch, and the halt of the consumer it took. *)
Definition latch (r : nat) (held : resident) s : Service :=
  let s := at_resident r (fun x => mkResident (r_Key x) (r_Generation x) (workDone x) true) s in
  match consumers s !! r_Key held with
  | Some c => with_halts (halted s) ({[c]} ∪ halting s) s
  | None => s
  end.
Definition halt_latched (c : nat) s : Service := with_halts ({[c]} ∪ halted s) (halting s ∖ {[c]}) s.

(** [ResidentSessions]. *)
Definition ResidentSessions s : gset nat := map_img (sessions s).

(** ** Interleavings *)

Inductive Label :=
| LStart | LStarted (err : option error) | LStartDrain | LMarkStopped
| LCloseUnstarted (registered : bool) | LDisposed (err : option error)
| LAttach (k : Key) | LRecord (i : nat) | LTrack (i : nat) (generation : Z) (commit : bool)
| LUnwatched (i r : nat) | LUndo (i : nat) | LLeave (i : nat)
| LStopWork (r : nat) | LForgetResident (r : nat) | LForget (r : nat)
| LHalt (k : Key) | LResume (k : Key) | LLatch (r : nat) | LHalted (c : nat).

Definition in_attach (i : nat) (p : phase → bool) (f : attach → Service) s : option Service :=
  match attaches s !! i with
  | Some a => if p (a_phase a) then Some (f a) else None
  | None => None
  end.

Definition in_resident (r : nat) (p : resident → bool) (f : resident → Service) s : option Service :=
  match residents s !! r with
  | Some held => if p held then Some (f held) else None
  | None => None
  end.

Definition is_phase (p q : phase) : bool := bool_decide (p = q).

(** The registry gives a generation once (Registry.v). *)
Definition fresh_generation (k : Key) (generation : Z) s : bool :=
  forallb (fun x => negb (bool_decide (r_Key x = k) && (r_Generation x =? generation)%Z)) (residents s).

(** A step, and where the caller's own program order allows it: the publication of
    the one [Start] in progress; the worker of the one disposal; an attach's regions
    in order, under a generation the registry has not given before; a residency
    forgotten once its work has stopped; a drain's latch once draining. *)
Definition step (l : Label) s : option Service :=
  match l with
  | LStart => Some (Start s).2
  | LStarted err => if starting s then Some (Started err s) else None
  | LStartDrain => Some (StartDrain s).2
  | LMarkStopped => if draining s then Some (MarkStopped s) else None
  | LCloseUnstarted registered => Some (CloseUnstarted registered s).2
  | LDisposed err => if disposed s && bool_decide (disposeErr s = None) then Some (Disposed err s) else None
  | LAttach k => Some (Attach k s).2
  | LRecord i => in_attach i (is_phase Entered) (fun a => recordConsumer i a s) s
  | LTrack i generation commit =>
      in_attach i (is_phase Working) (fun a => trackResident i a generation commit s) s ≫= fun s' =>
      if from_option (fun a => fresh_generation (a_Key a) generation s) false (attaches s !! i) then Some s' else None
  | LUnwatched i r => in_attach i (is_phase (Owner r)) (fun _ => from_option (fun held => Unwatched i r held s) s (residents s !! r)) s
  | LUndo i => in_attach i (is_phase Refused) (fun a => set_phase i Undone (forgetConsumer (a_Key a) s)) s
  | LLeave i => in_attach i (fun p => negb (is_phase Working p || is_phase Refused p || is_phase Left p)) (fun a => Leave i a s) s
  | LStopWork r => in_resident r (fun _ => true) (fun held => stopWork r held s) s
  | LForgetResident r => in_resident r workDone (fun held => forgetResident r held s) s
  | LForget r => in_resident r workDone (fun held => forget (r_Key held) (r_Generation held) s) s
  | LHalt k => Some (match Halt k s with Some c => halt c s | None => s end)
  | LResume k => Some (Resume k s)
  | LLatch r => in_resident r (fun _ => draining s) (fun held => latch r held s) s
  | LHalted c => if bool_decide (c ∈ halting s) then Some (halt_latched c s) else None
  end.

Fixpoint steps_to (ls : list Label) s : option Service :=
  match ls with [] => Some s | l :: ls => match step l s with Some s => steps_to ls s | None => None end end.

Definition reachable s : Prop := ∃ ls, steps_to ls New = Some s.

(** ** What stays true *)

Record wf s : Prop := {
  wf_idle : started s = false → attaches s = [] ∧ residents s = [] ∧ attaching s = ∅ ∧ sessions s = ∅ ∧ consumers s = ∅;
  wf_disposed : disposed s = true → started s = false ∧ starting s = false ∧ draining s = false;
  wf_sessions : ∀ k r, sessions s !! k = Some r → ∃ x, residents s !! r = Some x ∧ r_Key x = k;
  wf_built : ∀ k c, consumers s !! k = Some c → c < built s;
  wf_inj : ∀ k k' c, consumers s !! k = Some c → consumers s !! k' = Some c → k = k';
  wf_generation : ∀ r r' x x', residents s !! r = Some x → residents s !! r' = Some x' →
    r_Key x = r_Key x' → r_Generation x = r_Generation x' → r = r';
  wf_owner : ∀ i a r, attaches s !! i = Some a → a_phase a = Owner r → r < length (residents s)
}.

(** The cases of one step, each with its guard. *)
Ltac step_cases H :=
  unfold step, in_attach, in_resident, Start, Started, StartDrain, MarkStopped, CloseUnstarted, Disposed, Attach,
    recordConsumer, trackResident, Unwatched, Leave, stopWork, forgetResident, forget, forgetConsumer, halt,
    Halt, Resume, latch, halt_latched, at_resident, from_option in H;
  simpl in H; repeat (case_match; simplify_eq/=).

(** What is never undone: phases move on and the rest grows. *)
Lemma service_New_wf : wf New.
Proof. split; simpl; intros; try done; by rewrite ?lookup_empty, ?lookup_nil in *. Qed.

Lemma alter_resident r r' (f : resident → resident) (l : list resident) x :
  (∀ y, r_Key (f y) = r_Key y ∧ r_Generation (f y) = r_Generation y) →
  alter f r l !! r' = Some x → ∃ y, l !! r' = Some y ∧ r_Key x = r_Key y ∧ r_Generation x = r_Generation y.
Proof.
  intros Hf. destruct (decide (r = r')) as [->|Hne].
  - rewrite list_lookup_alter_eq. destruct (l !! r') as [y|]; simpl; [|done]. intros [= <-]. exists y. destruct (Hf y). auto.
  - rewrite list_lookup_alter_ne by done. eauto.
Qed.

Lemma wf_flags st sg dr sp di s :
  wf s → (st = false → started s = false) → (di = true → st = false ∧ sg = false ∧ dr = false) → wf (with_flags st sg dr sp di s).
Proof. intros [] H1 H2. by split; simpl; auto. Qed.

Lemma wf_with_halts h g s : wf s → wf (with_halts h g s).
Proof. by intros []; split. Qed.

Lemma wf_attached s i a : wf s → attaches s !! i = Some a → started s = true.
Proof.
  intros Hw Ha. destruct (started s) eqn:Hs; [done|]. destruct (wf_idle s Hw Hs) as [Hn _]. by rewrite Hn in Ha.
Qed.

Lemma wf_set_phase i p s : wf s → (∀ r, p = Owner r → r < length (residents s)) → wf (set_phase i p s).
Proof.
  intros [] Hp. split; simpl; auto.
  - intros Hs. destruct (wf_idle0 Hs) as (-> & ? & ? & ? & ?). split_and!; [|done..]. by destruct i.
  - intros j a r Ha Hr. destruct (decide (i = j)) as [->|Hne].
    + rewrite list_lookup_alter_eq in Ha. destruct (attaches s !! j); simplify_eq/=. by apply Hp.
    + rewrite list_lookup_alter_ne in Ha by done. eauto.
Qed.

Lemma wf_forgetConsumer k s : wf s → wf (forgetConsumer k s).
Proof.
  intros []. split; simpl; auto.
  - intros Hs. destruct (wf_idle0 Hs) as (? & ? & ? & ? & ->). by split_and!.
  - intros k' c [_ Hc]%lookup_delete_Some. eauto.
  - intros k1 k2 c [_ Hc]%lookup_delete_Some [_ Hc']%lookup_delete_Some. eauto.
Qed.

Lemma wf_drop_session k s : wf s → wf (with_residents (residents s) (delete k (sessions s)) s).
Proof.
  intros []. split; simpl; auto.
  - intros Hs. destruct (wf_idle0 Hs) as (? & ? & ? & -> & ?). by split_and!.
  - intros k' r [_ Hr]%lookup_delete_Some. eauto.
Qed.

Lemma wf_at_resident r f s :
  wf s → (∀ y, r_Key (f y) = r_Key y ∧ r_Generation (f y) = r_Generation y) → wf (at_resident r f s).
Proof.
  intros [] Hf. split; simpl; auto.
  - intros Hs. destruct (wf_idle0 Hs) as (? & -> & ? & ? & ?). by destruct r.
  - intros k r' Hr. destruct (wf_sessions0 k r' Hr) as (x & Hx & Hk). destruct (decide (r = r')) as [->|Hne].
    + exists (f x). rewrite list_lookup_alter_eq, Hx. destruct (Hf x) as [-> _]. done.
    + exists x. by rewrite list_lookup_alter_ne.
  - intros r1 r2 x1 x2 (y1 & H1 & -> & ->)%alter_resident (y2 & H2 & -> & ->)%alter_resident; eauto.
  - intros i a r' Ha Hr. rewrite length_alter. eauto.
Qed.

Lemma wf_forgetResident r held s : wf s → wf (forgetResident r held s).
Proof. intros Hw. unfold forgetResident. case_bool_decide; [by apply wf_drop_session|done]. Qed.

Lemma wf_recordConsumer i a s : wf s → attaches s !! i = Some a → wf (recordConsumer i a s).
Proof.
  intros Hw Ha. pose proof (wf_attached _ _ _ Hw Ha) as Hs. apply wf_set_phase; [|done].
  destruct Hw. split; simpl; auto; try congruence.
  - intros k c [[_ <-]|[_ Hc]]%lookup_insert_Some; [lia|]. apply wf_built0 in Hc. lia.
  - intros k1 k2 c [[<- <-]|[? H1]]%lookup_insert_Some [[<- Hc]|[? H2]]%lookup_insert_Some; eauto.
    + apply wf_built0 in H2. lia.
    + apply wf_built0 in H1. lia.
Qed.

Lemma wf_trackResident i a g b s :
  wf s → attaches s !! i = Some a → fresh_generation (a_Key a) g s = true → wf (trackResident i a g b s).
Proof.
  intros Hw Ha Hg. unfold trackResident. destruct (draining s || negb b); [by apply wf_set_phase|].
  pose proof (wf_attached _ _ _ Hw Ha) as Hs. apply wf_set_phase; [|simpl; intros ? [= <-]; rewrite length_app; simpl; lia].
  assert (∀ r x, residents s !! r = Some x → ¬ (r_Key x = a_Key a ∧ r_Generation x = g)) as Hf.
  { intros r x Hx [Hk Hn]. unfold fresh_generation in Hg. rewrite forallb_forall in Hg.
    specialize (Hg x (proj1 (list_elem_of_In _ _) (list_elem_of_lookup_2 _ _ _ Hx))).
    rewrite bool_decide_true, Hn, Z.eqb_refl in Hg by done. done. }
  destruct Hw. split; simpl; auto; try congruence.
  - intros k r [[<- <-]|[_ Hr]]%lookup_insert_Some.
    + eexists. rewrite lookup_app_r by lia. by rewrite Nat.sub_diag.
    + destruct (wf_sessions0 k r Hr) as (x & Hx & Hk). exists x. split; [|done]. by apply lookup_app_l_Some.
  - intros r1 r2 x1 x2 [H1|[? H1]]%lookup_app_Some [H2|[? H2]]%lookup_app_Some Hk Hn;
      rewrite ?list_lookup_singleton_Some in *; [by eapply wf_generation0| | |lia].
    + destruct H2 as [_ <-]. destruct (Hf _ _ H1). done.
    + destruct H1 as [_ <-]. destruct (Hf _ _ H2). done.
  - intros j a' r Ha' Hr. rewrite length_app. specialize (wf_owner0 j a' r Ha' Hr). lia.
Qed.

Lemma wf_Leave i a s : wf s → wf (Leave i a s).
Proof.
  intros Hw%(wf_set_phase i Left); [|done]. destruct Hw. split; simpl in *; auto.
  intros Hs. destruct (wf_idle0 Hs) as (? & ? & -> & ? & ?). by split_and!.
Qed.

Lemma wf_Attach k s : wf s → wf (Attach k s).2.
Proof.
  intros Hw. unfold Attach. destruct (disposed s); [done|]. destruct (started s) eqn:Hs; [|done]. simpl.
  destruct Hw. split; simpl; auto; try congruence.
  intros i a r [Ha|[_ Ha]]%lookup_app_Some Hr; [eauto|]. apply list_lookup_singleton_Some in Ha as [_ <-]. done.
Qed.

Lemma service_step_wf l s s' : step l s = Some s' → wf s → wf s'.
Proof.
  intros H Hw. pose proof (wf_disposed s Hw) as Hd. destruct l; simpl in H; unfold in_attach, in_resident in H.
  - unfold Start in H. repeat (case_match; simplify_eq/=); try done. apply wf_flags; [done..|].
    intros Hx. congruence.
  - destruct (starting s) eqn:Hsg; [|done]. simplify_eq. destruct err; apply wf_flags; try done; intros Hx; destruct (Hd Hx) as (? & ? & ?); congruence.
  - unfold StartDrain in H. repeat (case_match; simplify_eq/=); try done. apply wf_flags; [done..|]. congruence.
  - case_match; simplify_eq. apply wf_flags; [done..|]. intros Hx. naive_solver.
  - unfold CloseUnstarted in H. repeat (case_match; simplify_eq/=); try done. apply wf_flags; [done..|].
    repeat match goal with H : _ || _ = false |- _ => apply orb_false_iff in H as [H ?] end. intros _. done.
  - case_match; simplify_eq. by destruct Hw; split.
  - simplify_eq. by apply wf_Attach.
  - repeat case_match; simplify_eq. by apply wf_recordConsumer.
  - destruct (attaches s !! i) as [a|] eqn:Ha; [|done]. simpl in H. repeat (case_match; simplify_eq/=); try done. by apply wf_trackResident.
  - repeat case_match; simplify_eq. destruct (residents s !! r) eqn:Hr; simpl; [|done].
    apply wf_set_phase; [by apply wf_forgetResident|done].
  - repeat case_match; simplify_eq. apply wf_set_phase; [by apply wf_forgetConsumer|done].
  - repeat case_match; simplify_eq. by apply wf_Leave.
  - repeat case_match; simplify_eq. unfold stopWork. case_match; [done|]. by apply wf_forgetConsumer, wf_at_resident.
  - repeat case_match; simplify_eq. by apply wf_forgetResident.
  - repeat case_match; simplify_eq. unfold forget. repeat case_match; try done. by apply wf_drop_session.
  - simplify_eq. unfold Halt. case_match; [|done]. by apply wf_with_halts.
  - simplify_eq. unfold Resume. repeat case_match; try done; by apply wf_with_halts.
  - repeat case_match; simplify_eq. unfold latch. case_match; [apply wf_with_halts|]; by apply wf_at_resident.
  - case_match; simplify_eq. by apply wf_with_halts.
Qed.

Lemma service_steps_app ls1 ls2 s : steps_to (ls1 ++ ls2) s = steps_to ls1 s ≫= steps_to ls2.
Proof. revert s. induction ls1 as [|l ls1 IH]; intros s; simpl; [done|]. destruct (step l s); [apply IH|done]. Qed.

(** An invariant of the steps, from any state that has it. *)
Lemma steps_keep (I : Service → Prop) ls s s' :
  (∀ l s s', step l s = Some s' → I s → I s') → steps_to ls s = Some s' → I s → I s'.
Proof.
  intros HI. revert s. induction ls as [|l ls IH]; intros s; simpl; [by intros [= <-]|].
  destruct (step l s) as [s1|] eqn:Hs; [|done]. intros H Hi. apply (IH s1 H), (HI l s s1 Hs Hi).
Qed.

Lemma service_wf s : reachable s → wf s.
Proof. intros [ls H]. eapply (steps_keep wf); [apply service_step_wf|exact H|apply service_New_wf]. Qed.

(** ** A drain's snapshot *)

Lemma sessions_shrink k (m : gmap Key nat) : delete k m ⊆ m.
Proof. apply delete_subseteq. Qed.

Lemma forgetResident_sessions r held s : sessions (forgetResident r held s) ⊆ sessions s ∧ draining (forgetResident r held s) = draining s.
Proof. unfold forgetResident. case_bool_decide; simpl; [split; [apply sessions_shrink|done]|done]. Qed.

Lemma draining_step l s s' :
  step l s = Some s' → draining s = true → draining s' = true ∧ sessions s' ⊆ sessions s.
Proof.
  intros H Hd. destruct l; simpl in H; unfold in_attach, in_resident in H; repeat (case_match; simplify_eq/=); try done.
  all: unfold Start, StartDrain, CloseUnstarted, Attach, trackResident, stopWork, forget, Halt, Resume, latch in *;
    try (rewrite Hd; done); try (repeat case_match; simplify_eq/=; done).
  - by destruct err.
  - destruct (residents s !! r) as [held|]; simpl; [|done]. destruct (forgetResident_sessions r held s). by rewrite <-Hd.
  - destruct (forgetResident_sessions r r0 s). by rewrite <-Hd.
  - repeat case_match; try done. simpl. split; [done|apply sessions_shrink].
Qed.

(** C30 Once a drain has begun no session becomes resident: whatever attaches, releases
    and drains do next, every session the service then holds it held before, so one
    snapshot of its residents names all a drain has to release. *)
Theorem drain_closes_residency s ls s'
    (Hdraining : draining s = true) (Hsteps : steps_to ls s = Some s') :
  draining s' = true ∧ sessions s' ⊆ sessions s ∧ ResidentSessions s' ⊆ ResidentSessions s.
Proof.
  assert (draining s' = true ∧ sessions s' ⊆ sessions s) as [Hd Hs].
  { eapply (steps_keep (fun x => draining x = true ∧ sessions x ⊆ sessions s)); [|exact Hsteps|done].
    intros l x y Hxy [Hx Hs]. destruct (draining_step l x y Hxy Hx). split; [done|]. by etrans. }
  split_and!; [done..|]. intros r [k Hr]%elem_of_map_img. apply elem_of_map_img. exists k. by eapply lookup_weaken.
Qed.

(** ** Disposal *)

Lemma disposed_step l s s' : step l s = Some s' → wf s → disposed s = true →
  disposed s' = true ∧ (∀ e, disposeErr s = Some e → disposeErr s' = Some e).
Proof.
  intros H Hw Hd. destruct (wf_disposed s Hw Hd) as (Hs & Hsg & Hdr). destruct (wf_idle s Hw Hs) as (Ha & Hr & _).
  destruct l; simpl in H; unfold in_attach, in_resident in H; rewrite ?Ha, ?Hr, ?Hsg, ?Hd, ?lookup_nil in H; simplify_eq/=; try done.
  - unfold Start. by rewrite Hd.
  - unfold StartDrain. by rewrite Hd.
  - by rewrite Hdr in H.
  - unfold CloseUnstarted. by rewrite Hd.
  - case_bool_decide; [|done]. simplify_eq/=. split; [done|]. congruence.
  - unfold Attach. by rewrite Hd.
  - unfold Halt. by case_match.
  - unfold Resume. by repeat case_match.
  - by case_match; simplify_eq/=.
Qed.

(** Disposal and service exclude each other: a disposed service never started and
    has no attach, residency or consumer, every later start, attach and drain is
    refused as disposed, and the one disposal's outcome is every caller's. *)
Theorem disposal_excludes s ls s'
    (Hs : reachable s) (Hdisposed : disposed s = true) (Hsteps : steps_to ls s = Some s') :
  disposed s' = true ∧ started s' = false ∧ attaches s' = [] ∧ sessions s' = ∅ ∧ consumers s' = ∅ ∧
  (∀ e, disposeErr s = Some e → disposeErr s' = Some e) ∧
  Start s' = (Some ErrServiceDisposed, s') ∧ StartDrain s' = (Some ErrServiceDisposed, s') ∧
  ∀ k, Attach k s' = (Some ErrServiceDisposed, s').
Proof.
  assert (wf s' ∧ disposed s' = true ∧ ∀ e, disposeErr s = Some e → disposeErr s' = Some e) as (Hw & Hd & He).
  { eapply (steps_keep (fun x => wf x ∧ disposed x = true ∧ ∀ e, disposeErr s = Some e → disposeErr x = Some e));
      [|exact Hsteps|split_and!; [by apply service_wf|done..]].
    intros l x y Hxy (Hwx & Hdx & Hex). destruct (disposed_step l x y Hxy Hwx Hdx).
    split_and!; [by eapply service_step_wf|done|auto]. }
  destruct (wf_disposed s' Hw Hd) as (Hst & _ & _). destruct (wf_idle s' Hw Hst) as (? & ? & ? & ? & ?).
  unfold Start, StartDrain, Attach. by rewrite Hd.
Qed.

(** ** A drain's halt *)

(** Consumer [c] of residency [r] is out of every [Resume]'s reach. *)
Record kept (r c : nat) (k : Key) (told : bool) s : Prop := {
  kp_draining : draining s = true;
  kp_built : c < built s;
  kp_only : ∀ k', consumers s !! k' = Some c → k' = k;
  kp_latched : consumers s !! k = Some c →
    sessions s !! k = Some r ∧ ∃ x, residents s !! r = Some x ∧ drainHalted x = true ∧ workDone x = false;
  kp_key : ∃ x, residents s !! r = Some x ∧ r_Key x = k;
  kp_returned : ∀ i a, attaches s !! i = Some a → a_phase a ≠ Owner r;
  kp_halt : c ∈ halting s ∪ halted s;
  kp_told : told = true → c ∈ halted s
}.

Lemma kept_set_phase i p r c k b s : (p ≠ Owner r) → kept r c k b s → kept r c k b (set_phase i p s).
Proof.
  intros Hp []. split; simpl; auto. intros j a Ha. destruct (decide (i = j)) as [->|Hne].
  - rewrite list_lookup_alter_eq in Ha. destruct (attaches s !! j); by simplify_eq/=.
  - rewrite list_lookup_alter_ne in Ha by done. eauto.
Qed.

Lemma kept_forgetConsumer k' r c k b s : kept r c k b s → kept r c k b (forgetConsumer k' s).
Proof.
  intros []. split; simpl; auto; [intros k1 [_ H]%lookup_delete_Some; eauto|intros [_ H]%lookup_delete_Some; eauto].
Qed.

Lemma kept_drop_session k' r c k b s :
  (k' = k → consumers s !! k = Some c → False) →
  kept r c k b s → kept r c k b (with_residents (residents s) (delete k' (sessions s)) s).
Proof.
  intros Hk []. split; simpl; auto. intros Hc. destruct (kp_latched0 Hc) as [Hs Hx]. split; [|done].
  rewrite lookup_delete_ne by naive_solver. done.
Qed.

Lemma kept_at_resident r' f r c k b s :
  (∀ x, r_Key (f x) = r_Key x ∧ (drainHalted x = true → drainHalted (f x) = true)) →
  (r' = r → consumers s !! k = Some c → ∀ x, workDone x = false → workDone (f x) = false) →
  kept r c k b s → kept r c k b (at_resident r' f s).
Proof.
  intros Hf Hw []. split; simpl; auto.
  - intros Hc. destruct (kp_latched0 Hc) as (Hs & x & Hx & Hd & Hn). split; [done|]. destruct (decide (r' = r)) as [->|Hne].
    + exists (f x). rewrite list_lookup_alter_eq, Hx. destruct (Hf x). split_and!; auto.
    + exists x. by rewrite list_lookup_alter_ne.
  - destruct kp_key0 as (x & Hx & Hk). destruct (decide (r' = r)) as [->|Hne].
    + exists (f x). rewrite list_lookup_alter_eq, Hx. destruct (Hf x) as [-> _]. done.
    + exists x. by rewrite list_lookup_alter_ne.
Qed.

Lemma kept_Resume k' r c k b s : kept r c k b s → kept r c k b (Resume k' s).
Proof.
  intros Hk. unfold Resume.
  assert (∀ held, (sessions s !! k' ≫= fun r => residents s !! r) = held → from_option (fun x => drainHalted x) false held = false →
    kept r c k b match consumers s !! k' with Some c' => with_halts (halted s ∖ {[c']}) (halting s) s | None => s end) as Hgo.
  { intros held Hh Hf. destruct (consumers s !! k') as [c'|] eqn:Hc; [|done]. assert (c' ≠ c) as Hne.
    { intros ->. pose proof (kp_only _ _ _ _ _ Hk _ Hc) as ->. destruct (kp_latched _ _ _ _ _ Hk Hc) as (Hs & x & Hx & Hd & _).
      rewrite Hs in Hh. simpl in Hh. rewrite Hx in Hh. subst held. simpl in Hf. congruence. }
    destruct Hk. split; simpl; auto; set_solver. }
  destruct (_ ≫= _) as [held|] eqn:Hh; [destruct (drainHalted held) eqn:Hd; [done|]|]; eapply Hgo; eauto.
Qed.

Lemma kept_attach k' r c k b s : kept r c k b s → kept r c k b (Attach k' s).2.
Proof.
  intros Hk. unfold Attach. repeat case_match; try done. destruct Hk. split; simpl; auto.
  intros i a [Ha|[_ Ha]]%lookup_app_Some; [eauto|]. apply list_lookup_singleton_Some in Ha as [_ <-]. done.
Qed.

(** The drain tells [c] to halt. *)
Definition tells (c : nat) (l : Label) : bool := match l with LHalted c' => bool_decide (c' = c) | _ => false end.

Lemma kept_step l r c k b s s' :
  step l s = Some s' → wf s → kept r c k b s → kept r c k (b || tells c l) s'.
Proof.
  intros H Hw Hk. pose proof (kp_draining _ _ _ _ _ Hk) as Hd.
  destruct l; simpl in H; unfold in_attach, in_resident in H; try (simpl; rewrite orb_false_r).
  - unfold Start in H. rewrite Hd, !orb_true_r in H. case_match; by simplify_eq/=.
  - case_match; simplify_eq. destruct err; by destruct Hk; split.
  - unfold StartDrain in H. repeat (case_match; simplify_eq/=); try done. by destruct Hk; split.
  - rewrite Hd in H. simplify_eq. by destruct Hk; split.
  - unfold CloseUnstarted in H. rewrite Hd, orb_true_r in H. simpl in H. case_match; by simplify_eq/=.
  - case_match; simplify_eq. by destruct Hk; split.
  - simplify_eq. by apply kept_attach.
  - repeat case_match; simplify_eq. apply kept_set_phase; [done|]. destruct Hk. split; simpl; auto.
    + intros k' [[_ ?]|[_ ?]]%lookup_insert_Some; [lia|eauto].
    + intros [[_ ?]|[_ ?]]%lookup_insert_Some; [lia|eauto].
  - destruct (attaches s !! i) as [a|]; [|done]. destruct (is_phase _ _); [|done]. simpl in H. case_match; [|done]. simplify_eq.
    unfold trackResident. rewrite Hd. by apply kept_set_phase.
  - destruct (attaches s !! i) as [a|] eqn:Ha; [|done]. unfold is_phase in H. case_bool_decide as Hp; [|done]. simplify_eq.
    destruct (residents s !! r0) as [held|] eqn:Hr; simpl; [|done]. apply kept_set_phase; [done|].
    unfold forgetResident. case_bool_decide as Hs; [|done]. apply kept_drop_session; [|done]. intros <- Hc.
    destruct (kp_latched _ _ _ _ _ Hk Hc) as [Hs' _]. rewrite Hs in Hs'. simplify_eq. by eapply (kp_returned _ _ _ _ _ Hk).
  - repeat case_match; simplify_eq. apply kept_set_phase; [done|]. by apply kept_forgetConsumer.
  - repeat case_match; simplify_eq. unfold Leave. apply (kept_set_phase i Left) in Hk; [|done]. by destruct Hk; split.
  - destruct (residents s !! r0) as [held|] eqn:Hr; [|done]. simplify_eq. unfold stopWork. case_match; [done|].
    pose proof (kp_key _ _ _ _ _ Hk) as (x & Hx & Hxk).
    destruct (decide (r0 = r)) as [->|Hne].
    + rewrite Hr in Hx. simplify_eq. apply (kept_forgetConsumer (r_Key x)) in Hk.
      apply (kept_at_resident r (fun x => mkResident (r_Key x) (r_Generation x) true (drainHalted x))) in Hk; [exact Hk|done|].
      intros _ Hc. simpl in Hc. by rewrite lookup_delete_eq in Hc.
    + apply kept_forgetConsumer, kept_at_resident; [done|naive_solver|done].
  - destruct (residents s !! r0) as [held|] eqn:Hr; [|done]. case_match; simplify_eq. unfold forgetResident.
    case_bool_decide as Hs; [|done]. apply kept_drop_session; [|done]. intros <- Hc.
    destruct (kp_latched _ _ _ _ _ Hk Hc) as (Hs' & x & Hx & _ & Hn). rewrite Hs in Hs'. simplify_eq. congruence.
  - destruct (residents s !! r0) as [held|] eqn:Hr; [|done]. case_match eqn:Hwd; simplify_eq. unfold forget.
    destruct (sessions s !! r_Key held) as [r1|] eqn:Hs; simpl; [|done]. destruct (residents s !! r1) as [y|] eqn:Hy; [|done].
    destruct (Z.eqb_spec (r_Generation y) (r_Generation held)) as [Hg|]; [|done]. apply kept_drop_session; [|done]. intros <- Hc.
    destruct (kp_latched _ _ _ _ _ Hk Hc) as (Hs' & x & Hx & _ & Hn). rewrite Hs in Hs'. simplify_eq.
    destruct (wf_sessions s Hw _ _ Hs) as (z & Hz & Hzk). simplify_eq.
    pose proof (wf_generation s Hw _ _ _ _ Hy Hr Hzk Hg) as ->. congruence.
  - simplify_eq. unfold Halt. case_match; [|done]. destruct Hk. split; simpl; auto; set_solver.
  - simplify_eq. by apply kept_Resume.
  - repeat case_match; simplify_eq. unfold latch.
    apply (kept_at_resident r0 (fun x => mkResident (r_Key x) (r_Generation x) (workDone x) true)) in Hk; [|done|done].
    case_match; [|done]. destruct Hk. split; simpl; auto; set_solver.
  - case_bool_decide as Hin; [|done]. simplify_eq. destruct Hk. split; simpl; auto.
    + destruct (decide (c0 = c)) as [->|]; set_solver.
    + destruct (decide (c0 = c)) as [->|]; [set_solver|]. rewrite bool_decide_false by congruence. rewrite orb_false_r. set_solver.
Qed.

Lemma kept_steps ls r c k b s s' :
  steps_to ls s = Some s' → wf s → kept r c k b s → kept r c k (b || existsb (tells c) ls) s'.
Proof.
  revert b s. induction ls as [|l ls IH]; intros b s; simpl.
  - intros [= <-] _. by rewrite orb_false_r.
  - destruct (step l s) as [s1|] eqn:Hs; [|done]. intros H Hw Hk. apply (kept_step l) with (s' := s1) in Hk; [|done..].
    apply IH in Hk; [|done|by eapply service_step_wf]. by rewrite <-orb_assoc in Hk.
Qed.

(** A drain's halt is final: the consumer of a residency a drain has latched, once
    told to halt, stays halted, whatever warm releases resume, attaches record and
    releases forget, then and before it was told. *)
Theorem drain_halt_final s r held c ls s'
    (Hr : reachable s) (Hdraining : draining s = true)
    (Hcurrent : sessions s !! r_Key held = Some r) (Hheld : residents s !! r = Some held)
    (Hworking : workDone held = false) (Hconsumer : consumers s !! r_Key held = Some c)
    (Hreturned : Forall (fun a => a_phase a ≠ Owner r) (attaches s))
    (Hsteps : steps_to (LLatch r :: ls) s = Some s') :
  c ∈ halting s' ∪ halted s' ∧ (LHalted c ∈ ls → c ∈ halted s').
Proof.
  pose proof (service_wf s Hr) as Hw. cbn [steps_to] in Hsteps. destruct (step (LLatch r) s) as [s1|] eqn:Hs; [|done].
  assert (kept r c (r_Key held) false s1) as Hk.
  { simpl in Hs. unfold in_resident in Hs. rewrite Hheld, Hdraining in Hs. simplify_eq. unfold latch. simpl. rewrite Hconsumer. split; simpl; try done.
    - by apply (wf_built s Hw (r_Key held)).
    - intros k' Hk'. by eapply (wf_inj s Hw).
    - intros _. split; [done|]. eexists. by rewrite list_lookup_alter_eq, Hheld.
    - eexists. by rewrite list_lookup_alter_eq, Hheld.
    - rewrite Forall_lookup in Hreturned. eauto.
    - set_solver. }
  apply (kept_steps ls) with (s' := s') in Hk; [|done|by eapply service_step_wf]. simpl in Hk. destruct Hk as [_ _ _ _ _ _ Hh Ht].
  split; [done|]. intros Hin. apply Ht, existsb_exists. exists (LHalted c). split; [by apply list_elem_of_In|].
  by apply bool_decide_eq_true.
Qed.

(** ** Waiting for the attaches in flight *)

Local Open Scope prog_scope.

(** The two arms of a [select] on an attach's [done]: closed, or the context ended; or
    a poll of it. *)
Inductive AE : Type → Type := AWait (k : Key) (i : nat) : AE bool | APoll (k : Key) (i : nat) : AE bool.

(** The snapshot, in the order the map is ranged over. *)
Definition inflight (selected : Key → bool) s : list (Key * nat) :=
  omap (fun i => a ← attaches s !! i; if selected (a_Key a) then Some (a_Key a, i) else None)
    (map_to_list (attaching s)).*2.

(** The stragglers, once the context has ended. *)
Fixpoint stragglers (others : list (Key * nat)) : prog AE (list Key) :=
  match others with
  | [] => Ret []
  | (k, i) :: others =>
      let! closed := call (APoll k i) in
      let! still := stragglers others in
      Ret (if closed then still else k :: still)
  end.

(** [awaitAttaches]: nil, or the attaches it names as still in flight. *)
Fixpoint awaitAttaches (waited : list (Key * nat)) : prog AE (option (list Key)) :=
  match waited with
  | [] => Ret None
  | (k, i) :: rest =>
      let! closed := call (AWait k i) in
      if closed then awaitAttaches rest
      else
        let! still := stragglers waited in
        Ret (match still with [] => None | _ => Some still end)
  end.

(** The attaches a trace saw returned. *)
Definition saw_closed (o : obs AE) : option nat :=
  match o with Obs e x =>
    match e in AE X return X → option nat with
    | AWait _ i | APoll _ i => fun closed => if closed then Some i else None
    end x end.

(** What was polled and found running. *)
Definition saw_running (o : obs AE) : option Key :=
  match o with Obs e x =>
    match e in AE X return X → option Key with
    | AWait _ _ => fun _ => None
    | APoll k _ => fun closed => if closed then None else Some k
    end x end.

Lemma stragglers_runs others t still :
  runs (stragglers others) t still →
  still = omap saw_running t ∧ (still = [] → Forall (fun x => x.2 ∈ omap saw_closed t) others).
Proof.
  revert t still. induction others as [|[k i] others IH]; intros t still; [intros [-> ->]; done|].
  intros (closed & t1 & -> & H). simpl in H. apply runs_bind in H as (t2 & t3 & l & -> & H & [-> ->]).
  apply IH in H as [-> Hl]. rewrite app_nil_r. destruct closed; simpl; (split; [done|]); [|done].
  intros Hn. constructor; [by left|]. eapply Forall_impl; [by apply Hl|]. intros x Hx. by right.
Qed.

(** Waiting for attaches tells the truth: nil means that every attach of the snapshot
    was seen to have returned, and an answer that some are still in flight names
    exactly those it found running once its time was up, of which there is one. *)
Theorem await_names_stragglers waited t r (Hrun : runs (awaitAttaches waited) t r) :
  match r with
  | None => Forall (fun x => x.2 ∈ omap saw_closed t) waited
  | Some still => still ≠ [] ∧ still = omap saw_running t
  end.
Proof.
  revert t r Hrun. induction waited as [|[k i] rest IH]; intros t r; [by intros [-> ->]|].
  intros (closed & t1 & -> & H). cbn [bind] in H. destruct closed.
  - apply IH in H. destruct r as [still|]; [done|]. constructor; [by left|]. eapply Forall_impl; [exact H|]. intros x Hx. by right.
  - apply runs_bind in H as (t2 & t3 & still & -> & H & [-> ->]). rewrite app_nil_r.
    apply stragglers_runs in H as [-> Hl]. destruct (omap saw_running t2) eqn:Hs; [|done]. eapply Forall_impl; [by apply Hl|].
    intros x Hx. done.
Qed.

(** ** [Stop] *)

(** What of [lifecycle.Report] [Stop] reads: the parked sessions and the failures. *)
Record Report := mkReport { Parked : list Key; Failures : list error }.

Inductive PE : Type → Type :=
| PStartDrain : PE (option error)
| PWait : PE Report
| PMarkStopped : PE bool                  (* whether a heartbeat is to be stopped *)
| PStopHeartbeat : PE unit                (* cancel it and wait for it *)
| PWarmStop : PE unit
| PManagerClose : PE unit
| PLinksClose : PE (option error).

Definition Stop : prog PE (res Report) :=
  let! refused := call PStartDrain in
  match refused with
  | Some err => Ret (Err err)
  | None =>
      let! report := call PWait in
      let! beating := call PMarkStopped in
      do! (if beating : bool then call PStopHeartbeat else Ret tt) in
      do! call PWarmStop in
      do! (match Parked report with [] => call PManagerClose | _ => Ret tt end) in
      let! err := call PLinksClose in
      Ret (Ok (match err with Some e => mkReport (Parked report) (Failures report ++ [e]) | None => report end))
  end.

(** The steps of a stop, without what they answer. *)
Inductive stopped_step := SDrain | SWait | SMark | SBeat | SWarm | SManager | SLinks.

Definition stop_step (o : obs PE) : stopped_step :=
  match o with Obs e _ =>
    match e with
    | PStartDrain => SDrain | PWait => SWait | PMarkStopped => SMark | PStopHeartbeat => SBeat
    | PWarmStop => SWarm | PManagerClose => SManager | PLinksClose => SLinks
    end end.

(** A stop drains, waits the drain out and only then stops its own parts, the
    transport last; it cancels the session contexts exactly when the drain left no
    runtime parked, and it fails only if the drain could not begin. *)
Theorem stop_order t r (Hrun : runs Stop t r) :
  match r with
  | Err _ => stop_step <$> t = [SDrain]
  | Ok report =>
      ∃ beating : bool,
        stop_step <$> t = [SDrain; SWait; SMark] ++ (if beating then [SBeat] else []) ++ [SWarm] ++
          (if bool_decide (Parked report = []) then [SManager] else []) ++ [SLinks]
  end.
Proof.
  destruct Hrun as (refused & t1 & -> & H). destruct refused; [by destruct H as [-> ->]|].
  destruct H as (report & t2 & -> & beating & t3 & -> & H). simpl in H.
  apply runs_bind in H as (t4 & t5 & [] & -> & H4 & [] & t6 & -> & H). simpl in H.
  apply runs_bind in H as (t7 & t8 & [] & -> & H7 & err & t9 & -> & -> & ->).
  assert (Parked match err with Some e => mkReport (Parked report) (Failures report ++ [e]) | None => report end = Parked report) as ->
    by (by destruct err).
  exists beating. destruct beating; [destruct H4 as (? & ? & -> & -> & _)|destruct H4 as [-> _]];
    (destruct (Parked report) eqn:Hp; [destruct H7 as (? & ? & -> & -> & _)|destruct H7 as [-> _]]); simpl; rewrite ?Hp; done.
Qed.

(** ** Witnesses *)

Definition demo_key : Key := mkKey "tenant" "s1".

Definition after (ls : list Label) : Service := default New (steps_to ls New).

(** A session attached, and a drain begun. *)
Definition demo_drain : list Label :=
  [LStart; LStarted None; LAttach demo_key; LRecord 0; LTrack 0 1 true; LLeave 0; LStartDrain].

(** Resumes around the drain's halt, and an attach that comes too late. *)
Definition demo_race : list Label :=
  [LHalt demo_key; LResume demo_key; LHalted 0; LResume demo_key; LAttach (mkKey "tenant" "s2"); LRecord 1; LTrack 1 1 true].

Lemma drain_halt_final_witness :
  steps_to (LLatch 0 :: demo_race) (after demo_drain) = Some (after (demo_drain ++ LLatch 0 :: demo_race)) ∧
  0 ∈ halted (after (demo_drain ++ LLatch 0 :: demo_race)).
Proof.
  split; [vm_compute; reflexivity|].
  refine (proj2 (drain_halt_final (after demo_drain) 0 (mkResident demo_key 1 false false) 0 demo_race
    (after (demo_drain ++ LLatch 0 :: demo_race)) _ _ _ _ _ _ _ _) _).
  - exists demo_drain. vm_compute. reflexivity.
  - vm_compute. reflexivity.
  - vm_compute. reflexivity.
  - vm_compute. reflexivity.
  - reflexivity.
  - vm_compute. reflexivity.
  - vm_compute. repeat constructor. discriminate.
  - vm_compute. reflexivity.
  - unfold demo_race. do 2 right. left.
Defined.

Lemma drain_closes_residency_witness :
  draining (after demo_drain) = true ∧
  ResidentSessions (after (demo_drain ++ LLatch 0 :: demo_race)) ⊆ ResidentSessions (after demo_drain).
Proof.
  assert (draining (after demo_drain) = true) as Hd by (vm_compute; reflexivity). split; [exact Hd|].
  apply (drain_closes_residency (after demo_drain) (LLatch 0 :: demo_race) (after (demo_drain ++ LLatch 0 :: demo_race)) Hd).
  vm_compute. reflexivity.
Defined.

Lemma disposal_excludes_witness :
  disposed (after [LCloseUnstarted false]) = true ∧
  Start (after [LCloseUnstarted false; LStart; LDisposed None]) =
    (Some ErrServiceDisposed, after [LCloseUnstarted false; LStart; LDisposed None]).
Proof.
  assert (disposed (after [LCloseUnstarted false]) = true) as Hd by (vm_compute; reflexivity). split; [exact Hd|].
  apply (disposal_excludes (after [LCloseUnstarted false]) [LStart; LDisposed None]
    (after [LCloseUnstarted false; LStart; LDisposed None])).
  - exists [LCloseUnstarted false]. vm_compute. reflexivity.
  - exact Hd.
  - vm_compute. reflexivity.
Defined.

Lemma await_names_stragglers_witness :
  runs (awaitAttaches [(demo_key, 0); (demo_key, 1)])
    [Obs (AWait demo_key 0) true; Obs (AWait demo_key 1) false; Obs (APoll demo_key 1) false] (Some [demo_key]) ∧
  [demo_key] ≠ [].
Proof.
  assert (runs (awaitAttaches [(demo_key, 0); (demo_key, 1)])
    [Obs (AWait demo_key 0) true; Obs (AWait demo_key 1) false; Obs (APoll demo_key 1) false] (Some [demo_key])) as Hr.
  { simpl. repeat (eexists _, _; split; [reflexivity|]). done. }
  split; [exact Hr|]. exact (proj1 (await_names_stragglers _ _ _ Hr)).
Defined.

Lemma stop_order_witness :
  runs Stop [Obs PStartDrain None; Obs PWait (mkReport [demo_key] []); Obs PMarkStopped true; Obs PStopHeartbeat tt;
             Obs PWarmStop tt; Obs PLinksClose None] (Ok (mkReport [demo_key] [])) ∧
  ∃ beating : bool, [SDrain; SWait; SMark; SBeat; SWarm; SLinks] =
    [SDrain; SWait; SMark] ++ (if beating then [SBeat] else []) ++ [SWarm] ++ [] ++ [SLinks].
Proof.
  assert (runs Stop [Obs PStartDrain None; Obs PWait (mkReport [demo_key] []); Obs PMarkStopped true; Obs PStopHeartbeat tt;
             Obs PWarmStop tt; Obs PLinksClose None] (Ok (mkReport [demo_key] []))) as Hr.
  { simpl. repeat (eexists _, _; split; [reflexivity|]). done. }
  split; [exact Hr|]. exact (stop_order _ _ Hr).
Defined.
End Lifetime.
