(* ===== verification/WorkStates.v ===== *)
(** * WorkStates.v: what a resident session is doing

    The derived work-state source, the sampler that feeds the warm releaser and the
    confirmation it asks for at expiry ([internal/compose/workstates.go], [sampleWork]
    of [compose.go]).  What a call reads at its instant (the resident of a key, its
    gate publisher's fold, the runtime's idle probe) is its argument; the activity
    marks, which only the sampler writes, are the state.                          *)
From Stdlib Require Import ZArith Bool.
From stdpp Require Import base list strings gmap.
From S2P Require Import Prelude Wire Errors Effects Gates Warm.

Module WorkStates.
Import Warm.

(** A [resident] as the source reads it: its generation, whether its attach has
    settled, its gate publisher, and what its runtime answers to [idleNow]. *)
Record held := mkHeld { h_generation : Z; h_settled : bool; h_gates : option Gates.Publisher; h_idle : bool }.

(** [derivedWorkStates.WorkState], of the resident it reads. *)
Definition WorkState (r : option held) : option WorkState :=
  match r with
  | None => None
  | Some h =>
      match h_gates h with
      | None => Some WorkStateWorking
      | Some p =>
          let '(open, _, folded) := Gates.Activity p in
          if negb folded then Some WorkStateWorking
          else if 0 <? open then Some WorkStateGateWaiting
          else if negb (h_idle h) then Some WorkStateWorking
          else Some WorkStateIdle
      end
  end.

(** [derivedWorkStates.activity]. *)
Definition activity (r : option held) : option Z :=
  match r with
  | Some h =>
      match h_gates h with
      | Some p => let '(_, position, folded) := Gates.Activity p in if folded then Some position else None
      | None => None
      end
  | None => None
  end.

(** [idleNow]: [WaitIdle]'s answer under a context already done. *)
Definition idleNow (has_runtime : bool) (waited : option error) : bool :=
  has_runtime && match waited with None => true | Some _ => false end.

(** [warmSamples]. *)
Definition warmSamples (derive : bool) (placement : HostPlacement) : bool :=
  negb (derive && bool_decide (placement = HostPlacementDedicated)).

(** ** The activity marks *)

Record activityMark := mkMark { m_generation : Z; m_position : Z }.

Abbreviation marks := (gmap Key activityMark).

(** [markActivity]: whether the position moved since the last sample of this
    residency. *)
Definition markActivity (k : Key) (generation position : Z) (m : marks) : bool * marks :=
  (match m !! k with
   | Some last => (m_generation last =? generation)%Z && negb (m_position last =? position)%Z
   | None => false
   end, <[k := mkMark generation position]> m).

(** [pruneActivity]. *)
Definition pruneActivity (seen : gset Key) (m : marks) : marks := filter (fun '(k, _) => k ∈ seen) m.

(** What one round of the sampler reads for a registry entry: the work state, if the
    source knows the session, and the position, if it reports one. *)
Record reading := mkReading { g_key : Key; g_generation : Z; g_state : option Warm.WorkState; g_position : option Z }.

(** A round of [sampleWork]: what it tells the warm releaser, the keys it saw and the
    marks, before it prunes. *)
Fixpoint sample (rs : list reading) (m : marks) : list (Key * Warm.WorkState) * gset Key * marks :=
  match rs with
  | [] => ([], ∅, m)
  | r :: rs =>
      match g_state r with
      | None => sample rs m
      | Some state =>
          match g_position r with
          | None =>
              let '(told, seen, m) := sample rs m in ((g_key r, state) :: told, seen, m)
          | Some position =>
              let '(moved, m) := markActivity (g_key r) (g_generation r) position m in
              let '(told, seen, m) := sample rs m in
              ((if moved then [(g_key r, WorkStateWorking)] else []) ++ (g_key r, state) :: told, {[g_key r]} ∪ seen, m)
          end
      end
  end.

Definition round (rs : list reading) (m : marks) : list (Key * Warm.WorkState) * marks :=
  let '(told, seen, m) := sample rs m in (told, pruneActivity seen m).

(** [sampleWork], round after round from no marks. *)
Fixpoint sampleWork (rounds : list (list reading)) (m : marks) : list (Key * Warm.WorkState) * marks :=
  match rounds with
  | [] => ([], m)
  | rs :: rounds =>
      let '(told, m) := round rs m in
      let '(told', m) := sampleWork rounds m in
      (told ++ told', m)
  end.

(** [ConfirmIdle], of the resident it reads first, the state and the position of the
    source, whether the source reports positions, and the resident it reads last. *)
Definition ConfirmIdle (k : Key) (first : option held) (source : bool) (state : option Warm.WorkState) (reports : bool)
    (position : option Z) (last : option held) (m : marks) : bool :=
  if negb (from_option h_settled false first) then false
  else if negb source then false
  else match state with
       | Some WorkStateIdle =>
           if negb reports then true
           else match position with
                | None => false
                | Some position =>
                    match last with
                    | None => false
                    | Some h =>
                        match m !! k with
                        | Some mark => (m_generation mark =? h_generation h)%Z && (m_position mark =? position)%Z
                        | None => false
                        end
                    end
                end
       | _ => false
       end.

(** [GateWaiting], over the resident sessions. *)
Definition GateWaiting (sessions : list held) : nat :=
  length (filter (fun h => match h_gates h with
                           | Some p => let '(open, _, folded) := Gates.Activity p in folded && (0 <? open)
                           | None => false
                           end = true) sessions).

(** ** What a confirmation proves *)

(** The readings of a residency, each with its position. *)
Definition reads (k : Key) (generation : Z) (r : reading) : Prop :=
  g_key r = k ∧ g_generation r = generation ∧ ∃ state, g_state r = Some state.

(** A round that saw the residency, once, at [position]. *)
Definition sampled (k : Key) (generation : Z) (rs : list reading) (position : Z) : Prop :=
  ∃ r, filter (fun r => g_key r = k) rs = [r] ∧ reads k generation r ∧ g_position r = Some position.

(** What the sampler told the releaser about a session. *)
Definition told_of (k : Key) (told : list (Key * Warm.WorkState)) : list Warm.WorkState :=
  omap (fun x => if bool_decide (x.1 = k) then Some x.2 else None) told.

Lemma told_of_app k t1 t2 : told_of k (t1 ++ t2) = told_of k t1 ++ told_of k t2.
Proof. apply omap_app. Qed.

Lemma told_of_round k k' (moved : bool) state told :
  told_of k ((if moved then [(k', WorkStateWorking)] else []) ++ (k', state) :: told) =
  (if bool_decide (k' = k) then (if moved then [WorkStateWorking] else []) ++ [state] else []) ++ told_of k told.
Proof. unfold told_of. destruct moved; simpl; by case_bool_decide. Qed.

Lemma sample_cons r rs m :
  sample (r :: rs) m =
  match g_state r with
  | None => sample rs m
  | Some state =>
      let moved := match g_position r with Some position => (markActivity (g_key r) (g_generation r) position m).1 | None => false end in
      let m1 := match g_position r with Some position => (markActivity (g_key r) (g_generation r) position m).2 | None => m end in
      let '(told, seen, m2) := sample rs m1 in
      ((if moved then [(g_key r, WorkStateWorking)] else []) ++ (g_key r, state) :: told,
       match g_position r with Some _ => {[g_key r]} ∪ seen | None => seen end, m2)
  end.
Proof. simpl. destruct (g_state r); [|done]. destruct (g_position r); simpl; by destruct (sample rs _) as [[]]. Qed.

Lemma sample_absent k rs m :
  filter (fun r => g_key r = k) rs = [] →
  told_of k (sample rs m).1.1 = [] ∧ k ∉ (sample rs m).1.2 ∧ (sample rs m).2 !! k = m !! k.
Proof.
  revert m. induction rs as [|r rs IH]; intros m; [intros _; by split_and!|]. rewrite filter_cons, sample_cons. case_decide as Hk; [done|].
  intros Hf. destruct (g_state r) as [st|]; [|by apply IH]. cbv zeta.
  match goal with |- context [sample rs ?m1] => destruct (IH m1 Hf) as (H1 & H2 & H3); destruct (sample rs m1) as [[told seen] m'] end.
  simpl in *. rewrite told_of_round, bool_decide_false, H1, H3 by done. split_and!; [done| |].
  - destruct (g_position r); set_solver.
  - destruct (g_position r); [|done]. unfold markActivity; simpl. by rewrite lookup_insert_ne.
Qed.

(** What a round that saw a residency once makes of it. *)
Lemma sample_present k generation rs position m :
  sampled k generation rs position →
  k ∈ (sample rs m).1.2 ∧ (sample rs m).2 !! k = Some (mkMark generation position) ∧
  ∃ state, told_of k (sample rs m).1.1 = (if (markActivity k generation position m).1 then [WorkStateWorking] else []) ++ [state].
Proof.
  intros (r & Hf & (Hk & Hg & state & Hst) & Hp). revert m. induction rs as [|x rs IH]; intros m; [done|].
  rewrite filter_cons in Hf. rewrite sample_cons. case_decide as Hx.
  - simplify_eq. rewrite Hst, Hp. cbv zeta.
    match goal with |- context [sample rs ?m1] => destruct (sample_absent (g_key r) rs m1) as (H1 & H2 & H3); [done|];
      destruct (sample rs m1) as [[told seen] m'] end.
    simpl in *. rewrite told_of_round, bool_decide_true, H1, H3, lookup_insert_eq, app_nil_r by done.
    split_and!; [set_solver|done|by exists state].
  - destruct (g_state x) as [st|]; [|by apply IH]. cbv zeta.
    match goal with |- context [sample rs ?m1] => destruct (IH Hf m1) as (H1 & H2 & st' & H3); destruct (sample rs m1) as [[told seen] m'] end.
    simpl in *. rewrite told_of_round, bool_decide_false, H3 by done. split_and!; [destruct (g_position x); set_solver|done|].
    exists st'. destruct (g_position x); [|done]. unfold markActivity. simpl. by rewrite lookup_insert_ne.
Qed.

Lemma sampleWork_app r1 r2 m :
  sampleWork (r1 ++ r2) m = let '(t1, m1) := sampleWork r1 m in let '(t2, m2) := sampleWork r2 m1 in (t1 ++ t2, m2).
Proof.
  revert m. induction r1 as [|r r1 IH]; intros m; simpl; [by destruct (sampleWork r2 m)|].
  destruct (round r m) as [t m']. rewrite IH. destruct (sampleWork r1 m') as [t1 m1], (sampleWork r2 m1) as [t2 m2].
  by rewrite app_assoc.
Qed.

(** Rounds that saw a residency each time and never called it working: it has not
    moved. *)
Lemma rounds_unmoved k generation rounds positions m :
  rounds ≠ [] → Forall2 (sampled k generation) rounds positions →
  WorkStateWorking ∉ told_of k (sampleWork rounds m).1 →
  ∃ p, Forall (eq p) positions ∧ (sampleWork rounds m).2 !! k = Some (mkMark generation p) ∧
    (∀ q, m !! k = Some (mkMark generation q) → q = p).
Proof.
  intros Hne HF. revert m Hne. induction HF as [|rs pos rounds positions Hs HF IH]; intros m Hne Hw; [done|].
  simpl in Hw |- *. destruct (sample_present k generation rs pos m Hs) as (Hin & Hm & state & Ht).
  unfold round in *. destruct (sample rs m) as [[told seen] m'] eqn:Hsm. simpl in *.
  destruct (sampleWork rounds (pruneActivity seen m')) as [told' m''] eqn:Hr. simpl in *.
  rewrite told_of_app, Ht, elem_of_app, elem_of_app in Hw.
  assert (pruneActivity seen m' !! k = Some (mkMark generation pos)) as Hk
    by (unfold pruneActivity; by apply map_lookup_filter_Some).
  assert (∀ q, m !! k = Some (mkMark generation q) → q = pos) as Hq.
  { intros q Hq. destruct (Z.eq_dec q pos) as [|Hqp]; [done|]. exfalso. apply Hw. left. left.
    unfold markActivity. rewrite Hq. simpl. rewrite Z.eqb_refl, (proj2 (Z.eqb_neq q pos) Hqp). simpl. left. }
  destruct HF as [|rs2 pos2 rounds2 positions2 Hs2 HF2].
  - simpl in Hr. simplify_eq. exists pos. split_and!; [repeat constructor|done|done].
  - specialize (IH (pruneActivity seen m')). rewrite Hr in IH. simpl in IH.
    destruct IH as (p & Hall & Hmk & Hpre); [done|naive_solver|]. exists p. rewrite <-(Hpre pos Hk) in *.
    split_and!; [by constructor|done|done].
Qed.

(** A warm release is confirmed only for a session that did not work since its
    countdown began: when [ConfirmIdle] says yes, the attach that made the session
    resident has settled, the source calls it idle now, and, if the source reports
    positions, the journal is where every round since the releaser was last told of
    work has found it. *)
Theorem confirmed_unmoved k first source state reports position last before rounds positions h
    (Hconfirmed : ConfirmIdle k first source state reports position last
                    (sampleWork (before ++ rounds) ∅).2 = true)
    (Hlast : last = Some h) (Hrounds : rounds ≠ [])
    (Hsampled : Forall2 (sampled k (h_generation h)) rounds positions)
    (Hquiet : WorkStateWorking ∉ told_of k (sampleWork rounds (sampleWork before ∅).2).1) :
  from_option h_settled false first = true ∧ state = Some WorkStateIdle ∧
  (reports = true → ∃ p, position = Some p ∧ Forall (eq p) positions).
Proof.
  unfold ConfirmIdle in Hconfirmed. destruct (from_option h_settled false first); [|done]. destruct source; [|done].
  destruct state as [[]|]; try done. split_and!; [done..|]. intros ->. simpl in Hconfirmed.
  destruct position as [pos|]; [|done]. subst last. exists pos. split; [done|].
  rewrite sampleWork_app in Hconfirmed. destruct (sampleWork before ∅) as [t1 m1]. simpl in *.
  destruct (rounds_unmoved k (h_generation h) rounds positions m1 Hrounds Hsampled Hquiet) as (p & Hall & Hm & _).
  destruct (sampleWork rounds m1) as [t2 m2]. simpl in *. rewrite Hm in Hconfirmed. simpl in Hconfirmed.
  apply andb_true_iff in Hconfirmed as [_ Hp%Z.eqb_eq]. by subst.
Qed.

(** The derived source calls a session idle only when every source says so, and
    whatever it cannot see is work. *)
Theorem WorkState_idle r :
  WorkState r = Some WorkStateIdle ↔
  ∃ h p, r = Some h ∧ h_gates h = Some p ∧ Gates.folded p = true ∧ Gates.openCount p = 0 ∧ h_idle h = true.
Proof.
  split.
  - destruct r as [h|]; [|done]. simpl. destruct (h_gates h) as [p|] eqn:Hg; [|done]. intros H. exists h, p.
    destruct (Gates.folded p); [|done]. simpl in H. destruct (Nat.ltb_spec 0 (Gates.openCount p)); [done|].
    destruct (h_idle h); [|done]. split_and!; try done. lia.
  - intros (h & p & -> & Hg & Hf & Ho & Hi). simpl. by rewrite Hg, Hf, Ho, Hi.
Qed.

(** ** Witnesses

    A turn moved the journal from 4 to 5 before the two quiet rounds. *)
Definition demo_key : Key := mkKey "tenant" "s1".
Definition demo_held : held := mkHeld 1 true None true.
Definition demo_round (position : Z) : list reading := [mkReading demo_key 1 (Some WorkStateIdle) (Some position)].

Example demo_told :
  told_of demo_key (sampleWork (demo_round <$> [4; 5; 5]%Z) ∅).1 =
  [WorkStateIdle; WorkStateWorking; WorkStateIdle; WorkStateIdle].
Proof. by vm_compute. Qed.

Lemma confirmed_unmoved_witness :
  ConfirmIdle demo_key (Some demo_held) true (Some WorkStateIdle) true (Some 5%Z) (Some demo_held)
    (sampleWork ((demo_round <$> [4; 5]%Z) ++ (demo_round <$> [5; 5]%Z)) ∅).2 = true ∧
  ∃ p, Some 5%Z = Some p ∧ Forall (eq p) [5; 5]%Z.
Proof.
  assert (ConfirmIdle demo_key (Some demo_held) true (Some WorkStateIdle) true (Some 5%Z) (Some demo_held)
    (sampleWork ((demo_round <$> [4; 5]%Z) ++ (demo_round <$> [5; 5]%Z)) ∅).2 = true) as Hc by (vm_compute; reflexivity).
  split; [exact Hc|].
  refine (proj2 (proj2 (confirmed_unmoved demo_key _ _ _ _ _ _ (demo_round <$> [4; 5]%Z) (demo_round <$> [5; 5]%Z) [5; 5]%Z
    demo_held Hc eq_refl _ _ _)) eq_refl).
  - discriminate.
  - repeat constructor; (eexists; split_and!; [reflexivity| |reflexivity]; split_and!; [done..|by eexists]).
  - assert (told_of demo_key (sampleWork (demo_round <$> [5; 5]%Z) (sampleWork (demo_round <$> [4; 5]%Z) ∅).2).1 =
      [WorkStateIdle; WorkStateIdle]) as -> by (vm_compute; reflexivity).
    rewrite !not_elem_of_cons. split_and!; [done..|apply not_elem_of_nil].
Defined.
End WorkStates.
