(* ===== verification/Ownership.v ===== *)
(** * Ownership.v: taking a session and giving it back

    The composition's side of an attach ([internal/compose/adapters.go]): the lease
    recorder with its gate fence, the ownership that starts a session's work, and the
    release authority an attach's rollback goes through.  Each is a program over its
    collaborators; the service's maps are modelled in [Lifetime.v], the once-guards
    in [Latches.v].                                                             *)
From Stdlib Require Import ZArith.
From stdpp Require Import base list strings gmap.
From S2P Require Import Prelude Wire Errors Effects.

Module Ownership.
Local Open Scope prog_scope.

(** [drainingAttachRefusal]. *)
Definition drainingAttachRefusal (agent : string) : error :=
  ETyped (TAdmissionRefusedError HostLinkErrorNotAdmitting agent) None.

Definition errNoReleaseHalves : error := ESentinel "compose.errNoReleaseHalves".
Definition errNoRecordedLease : error := ESentinel "compose.errNoRecordedLease".
Definition ErrWarmReleaserStopped : error := ESentinel "residency.ErrWarmReleaserStopped".

(** ** Optional capabilities of a runtime *)

(** [attemptCloserFor] and [persistenceFaultsFor]: whether the runtime has the
    methods, and what its reporter, if it has one, says of them. *)
Definition capability (implements : bool) (reporter : option bool) : bool :=
  implements && match reporter with Some available => available | None => true end.

(** ** The grant *)

(** What [leaseRecorder] calls.  A granted lease is named by its calls. *)
Inductive LE : Type → Type :=
| LAcquire : LE (option error)
| LGateSessionFor : LE (option error)
| LResolveFence : LE (option error)
| LRelease : LE (option error)
| LRecord : LE unit.

(** What [AcquireSessionLease] answers: a recorded lease, a refusal, or a refusal
    that hands over the release it still owes ([LeaseCleanupError]). *)
Inductive acquired := Granted | NotGranted (e : error) | OwesRelease (e : error).

(** [fenceGates]; [gates] is whether the composition publishes gates. *)
Definition fenceGates (gates : bool) : prog LE (option error) :=
  if negb gates then Ret None
  else
    let! refused := call LGateSessionFor in
    match refused with Some e => Ret (Some e) | None => call LResolveFence end.

(** [AcquireSessionLease]. *)
Definition AcquireSessionLease (gates : bool) : prog LE acquired :=
  let! refused := call LAcquire in
  match refused with
  | Some e => Ret (NotGranted e)
  | None =>
      let! unfenced := fenceGates gates in
      match unfenced with
      | Some e =>
          let! kept := call LRelease in
          Ret (match kept with
               | Some r => OwesRelease (ETyped (TLeaseCleanupError true) (errors_join [Some e; Some r]))
               | None => NotGranted e
               end)
      | None => do! call LRecord in Ret Granted
      end
  end.

(** ** Starting a session's work *)

Inductive OE : Type → Type :=
| ODraining : OE bool                          (* [draining], under the lock *)
| OBeginInner : OE (option error)              (* the heartbeat's ownership *)
| OHalves : OE bool                            (* the handle is a [releaseHalves] *)
| OStopHandle : OE (option error)
| OLease : OE bool                             (* [leaseFor(key) != nil] *)
| OWriter : OE (option error)
| OApplier : OE (option error)
| OConsumer : OE (option error)
| OLink : OE (option error)
| OProjectors : OE unit
| OStartTail : OE (option error)
| OStopTail : OE unit
| OGateSession : OE (option error)
| OStartGates : OE (option error)
| ORecordConsumer : OE unit                    (* [recordConsumer] *)
| ORunConsumer : OE unit                       (* [go consumer.Run] *)
| OStopPublisher : OE bool                     (* whether it returned within its bound *)
| OStopConsumer : OE unit
| OForgetConsumer : OE unit
| OInvalidate : OE unit                        (* [mux.InvalidateSession] *)
| OWorkDone : OE (option bool)                 (* [once.workDone], under its lock *)
| OTrack : OE bool                             (* whether [sessions\[key\]] took the residency *)
| OWatch : OE (option error)
| OForgetResident : OE unit
| OCurrent : OE bool                           (* the residency is the one held *)
| OSupervise : OE bool                         (* [superviseFaults]: whether it watches *)
| ORolledBack : OE unit                        (* [committedOwnership.Stop]'s own steps *)
| OForgetWarm : OE unit.

(** [trackResident]. *)
Definition trackResident (agent : string) : prog OE (option error) :=
  let! tracked := call OTrack in
  if negb tracked then Ret (Some (drainingAttachRefusal agent))
  else
    let! refused := call OWatch in
    match refused with
    | Some e =>
        if errors_is e ErrWarmReleaserStopped then Ret None
        else do! call OForgetResident in Ret (Some e)
    | None => Ret None
    end.

(** The gate publisher of [beginWork]; an error has stopped the tail. *)
Definition beginGates (gates : bool) : prog OE (option error) :=
  if negb gates then Ret None
  else
    let! refused := call OGateSession in
    match refused with
    | Some e => do! call OStopTail in Ret (Some e)
    | None =>
        let! failed := call OStartGates in
        match failed with Some e => do! call OStopTail in Ret (Some e) | None => Ret None end
    end.

(** A step that may refuse, and what follows it. *)
Definition or_refuse {A} (p : prog OE (option error)) (refuse : error → prog OE A) (rest : prog OE A) : prog OE A :=
  let! refused := p in
  match refused with Some e => refuse e | None => rest end.

(** [beginWork]. *)
Definition beginWork (gates : bool) : prog OE (option error) :=
  let refuse e := Ret (Some e) in
  let! leased := call OLease in
  if negb leased then Ret (Some errNoRecordedLease)
  else
    or_refuse (call OWriter) refuse (
    or_refuse (call OApplier) refuse (
    or_refuse (call OConsumer) refuse (
    or_refuse (call OLink) refuse (
    do! call OProjectors in
    or_refuse (call OStartTail) refuse (
    or_refuse (beginGates gates) refuse (
    do! call ORecordConsumer in do! call ORunConsumer in Ret None)))))).

(** [sessionWork.stop]; a publisher that did not stop is only logged. *)
Definition stop_work (gates : bool) : prog OE unit :=
  do! call OStopTail in
  do! (if gates then let! _ := call OStopPublisher in Ret tt else Ret tt) in
  do! call OStopConsumer in
  do! call OForgetConsumer in
  call OInvalidate.

(** [BeginOwnership]: nil is the committed handle. *)
Definition BeginOwnership (agent : string) (gates : bool) : prog OE (option error) :=
  let! draining := call ODraining in
  if (draining : bool) then Ret (Some (drainingAttachRefusal agent))
  else
    or_refuse (call OBeginInner) (fun e => Ret (Some e)) (
    let! halves := call OHalves in
    if negb halves then do! call OStopHandle in Ret (Some errNoReleaseHalves)
    else
      or_refuse (beginWork gates) (fun e => do! call OStopHandle in Ret (Some e)) (
      or_refuse (trackResident agent) (fun e => do! stop_work gates in do! call OStopHandle in Ret (Some e)) (
      let! current := call OCurrent in
      do! (if current : bool then let! _ := call OSupervise in Ret tt else Ret tt) in
      Ret None))).

(** [resident.stopWork]: once, whoever comes first; a later caller finds what the first
    one's publisher answered. *)
Definition stopWork (gates : bool) : prog OE unit :=
  let! done := call OWorkDone in
  match done with Some _ => Ret tt | None => stop_work gates end.

(** [committedOwnership.Stop]. *)
Definition Stop (gates : bool) : prog OE (option error) :=
  do! call ORolledBack in
  do! stopWork gates in
  do! call OForgetWarm in
  do! call OForgetResident in
  call OStopHandle.

(** ** What an ownership holds *)

(** The heartbeat, the live tail, the gate publisher, the consumer and its place in the
    service's table, the session in the service's map, the warm releaser's watch, and the
    watcher of the runtime's faults. *)
Inductive part := Handle | Tail | Publisher | Consumer | Recorded | Session | WarmWatch | Supervisor.

#[export] Instance part_eq_dec : EqDecision part.
Proof. solve_decision. Defined.

#[export] Instance part_countable : Countable part.
Proof.
  refine (inj_countable' (fun p => match p with
      Handle => 0 | Tail => 1 | Publisher => 2 | Consumer => 3 | Recorded => 4 | Session => 5 | WarmWatch => 6 | Supervisor => 7 end)
    (fun n => match n with 0 => Handle | 1 => Tail | 2 => Publisher | 3 => Consumer | 4 => Recorded | 5 => Session | 6 => WarmWatch | _ => Supervisor end) _).
  by intros [].
Defined.

(** What one call takes, by its answer, and gives up.  A publisher whose stop timed out
    is still running. *)
Definition holding (held : gset part) (o : obs OE) : gset part :=
  match o with Obs e x =>
    match e in OE X return X → gset part with
    | OBeginInner => fun err => match err with None => {[Handle]} ∪ held | Some _ => held end
    | OStartTail => fun err => match err with None => {[Tail]} ∪ held | Some _ => held end
    | OStartGates => fun err => match err with None => {[Publisher]} ∪ held | Some _ => held end
    | ORecordConsumer => fun _ => {[Recorded]} ∪ held
    | ORunConsumer => fun _ => {[Consumer]} ∪ held
    | OTrack => fun tracked => if tracked then {[Session]} ∪ held else held
    | OWatch => fun err => match err with None => {[WarmWatch]} ∪ held | Some _ => held end
    | OSupervise => fun watches => if watches then {[Supervisor]} ∪ held else held
    | OStopHandle => fun _ => held ∖ {[Handle]}
    | OStopTail => fun _ => held ∖ {[Tail]}
    | OStopPublisher => fun returned => if returned then held ∖ {[Publisher]} else held
    | OStopConsumer => fun _ => held ∖ {[Consumer]}
    | OForgetConsumer => fun _ => held ∖ {[Recorded]}
    | OWorkDone => fun done => match done with
        | Some returned => held ∖ ({[Tail; Consumer; Recorded]} ∪ (if returned then {[Publisher]} else ∅))
        | None => held end
    | OForgetResident => fun _ => held ∖ {[Session]}
    | OForgetWarm => fun _ => held ∖ {[WarmWatch]}
    | _ => fun _ => held
    end x end.

Definition holds (t : list (obs OE)) : gset part := fold_left holding t ∅.

Lemma holds_app t1 t2 : holds (t1 ++ t2) = fold_left holding t2 (holds t1).
Proof. apply fold_left_app. Qed.

(** What the collaborators answered: the publisher outlived its stop, the warm releaser
    watches or was stopped before it could, and the runtime's faults are watched. *)
Definition lingers (o : obs OE) : bool :=
  match o with Obs e x => match e in OE X return X → bool with
    OStopPublisher => negb | OWorkDone => fun done => bool_decide (done = Some false) | _ => fun _ => false end x end.
Definition watches (o : obs OE) : bool :=
  match o with Obs e x => match e in OE X return X → bool with OWatch => fun err => bool_decide (err = None) | _ => fun _ => false end x end.
Definition unwatched (o : obs OE) : bool :=
  match o with Obs e x => match e in OE X return X → bool with
    OWatch => fun err => match err with Some e => errors_is e ErrWarmReleaserStopped | None => false end | _ => fun _ => false end x end.
Definition supervises (o : obs OE) : bool :=
  match o with Obs e x => match e in OE X return X → bool with OSupervise => id | _ => fun _ => false end x end.
Definition invalidates (o : obs OE) : bool :=
  match o with Obs e x => match e in OE X return X → bool with
    OInvalidate => fun _ => true | OWorkDone => fun done => bool_decide (is_Some done) | _ => fun _ => false end x end.

Definition only_if (b : bool) (p : part) : gset part := if b then {[p]} else ∅.

(** Everything an ownership runs. *)
Definition owned (gates : bool) : gset part := {[Handle; Tail; Consumer; Recorded; Session]} ∪ only_if gates Publisher.

(** Symbolic execution of a program that only calls. *)
Ltac run_calls :=
  repeat first [ symbolic_step
    | match goal with
      | |- ∀ _ : _, any_env _ _ → _ ∧ _ => intros ? _; split; [exact I|]
      | |- safe _ _ _ _ (bind (bind _ _) _) => apply safe_bind
      end
    | progress (case_match; simpl) ].

(** What a begin leaves, by its answer. *)
Definition begun (gates : bool) (t : list (obs OE)) (r : option error) : Prop :=
  match r with
  | None => holds t = owned gates ∪ only_if (seen watches t) WarmWatch ∪ only_if (seen supervises t) Supervisor ∧
      (seen watches t = true ∨ seen unwatched t = true)
  | Some _ => holds t = only_if (seen lingers t) Publisher
  end.

Lemma BeginOwnership_holds agent gates :
  safe any_env (fun _ _ => True) (begun gates) [] (BeginOwnership agent gates).
Proof.
  unfold BeginOwnership, beginWork, beginGates, trackResident, stop_work, or_refuse. destruct gates; simpl; run_calls.
  all: repeat match goal with H : negb ?b = _ |- _ => destruct b; [try discriminate H|try discriminate H]; clear H end; subst.
  all: repeat match goal with b : bool |- _ => destruct b end.
  all: unfold begun; simpl; rewrite ?orb_false_r; repeat match goal with H : errors_is _ _ = true |- _ => rewrite H end.
  all: try (split; [|by auto]); by apply (bool_decide_unpack _).
Qed.

Lemma Stop_holds gates t err (held : gset part) :
  runs (Stop gates) t err → (gates = false → Publisher ∉ held) →
  fold_left holding t held = held ∩ ({[Supervisor]} ∪ only_if (seen lingers t) Publisher) ∧ seen invalidates t = true.
Proof.
  intros (? & ? & -> & H) Hg. cbn [bind] in H. apply runs_bind in H as (t1 & t2 & [] & -> & H1 & (? & ? & -> & ? & ? & -> & ? & ? & -> & -> & _)).
  destruct H1 as (done & t3 & -> & H1). destruct done as [returned|].
  - destruct H1 as [-> _]. simpl. split; [|done].
    apply set_eq. intros []; destruct returned; simpl; set_solver.
  - destruct H1 as (? & ? & -> & H1). destruct gates.
    + destruct H1 as (returned & ? & -> & ? & ? & -> & ? & ? & -> & ? & ? & -> & -> & _). simpl. split; [|done].
      apply set_eq. intros []; destruct returned; simpl; set_solver.
    + destruct H1 as (? & ? & -> & ? & ? & -> & ? & ? & -> & -> & _). simpl. split; [|done].
      specialize (Hg eq_refl). apply set_eq. intros []; set_solver.
Qed.

(** C36 Taking a session is all or nothing.  An ownership that begins runs every part of
    the session's work, under its heartbeat, in the service's maps and under the warm
    releaser's watch, unless the releaser has been stopped; one that fails, wherever it
    fails, has stopped what it had started; and giving a begun one back, as an attach's
    rollback does, stops and forgets all of it, the warm watch and the routes included,
    whatever the heartbeat answers.  Two things may outlive either: a gate publisher
    that did not return within its bound, and the watcher of the runtime's faults, which
    ends with the session's context or its runtime. *)
Theorem ownership_all_or_nothing agent gates t r (Hrun : runs (BeginOwnership agent gates) t r) :
  begun gates t r ∧
  (r = None → ∀ t' err, runs (Stop gates) t' err →
     holds (t ++ t') = only_if (seen supervises t) Supervisor ∪ only_if (gates && seen lingers t') Publisher ∧
     seen invalidates t' = true).
Proof.
  destruct (safe_runs_any _ _ _ _ _ (BeginOwnership_holds agent gates) Hrun) as [H _]. split; [exact H|].
  intros -> t' err Hs. destruct H as [H _]. rewrite holds_app, H.
  match goal with |- fold_left _ _ ?h = _ ∧ _ => destruct (Stop_holds gates t' err h Hs) as [-> Hi] end.
  - intros ->. destruct (seen watches t), (seen supervises t); by apply (bool_decide_unpack _).
  - split; [|exact Hi]. destruct gates, (seen watches t), (seen supervises t), (seen lingers t'); by apply (bool_decide_unpack _).
Qed.

(** ** The grant's fence *)

Definition is_call {X} (e : LE X) (o : obs LE) : bool :=
  match o with Obs e' _ =>
    match e, e' with
    | LAcquire, LAcquire | LGateSessionFor, LGateSessionFor | LResolveFence, LResolveFence
    | LRelease, LRelease | LRecord, LRecord => true
    | _, _ => false
    end end.

Definition is_ok_call {X} (e : LE X) (o : obs LE) : bool :=
  is_call e o && match o with Obs e' x =>
    match e' in LE X return X → bool with
    | LAcquire | LGateSessionFor | LResolveFence | LRelease => fun err => match err with None => true | Some _ => false end
    | LRecord => fun _ => true
    end x end.

(** A grant is recorded, and answered, exactly when it was acquired and, where gates
    are published, the projection has been fenced under it; a grant whose fence
    failed is released before the refusal, and a release that fails too is handed to
    the caller, who owns the retry. *)
Theorem lease_recorded_fenced gates t r (Hrun : runs (AcquireSessionLease gates) t r) :
  match r with
  | Granted => seen (is_ok_call LAcquire) t = true ∧ seen (is_call LRelease) t = false ∧
               (gates = true → precedes (is_ok_call LResolveFence) (is_call LRecord) t) ∧ seen (is_call LRecord) t = true
  | NotGranted _ => seen (is_call LRecord) t = false ∧
               (seen (is_ok_call LAcquire) t = true → seen (is_ok_call LRelease) t = true)
  | OwesRelease e => seen (is_call LRecord) t = false ∧ seen (is_ok_call LAcquire) t = true ∧
               seen (is_ok_call LRelease) t = false ∧
               errors_as (fun t => match t with TLeaseCleanupError c => Some c | _ => None end) e = Some true
  end.
Proof.
  unfold AcquireSessionLease, fenceGates in Hrun. destruct Hrun as ([e|] & t1 & -> & H); [by destruct H as [-> ->]|].
  destruct gates; simpl in H.
  - destruct H as ([e|] & t2 & -> & H); simpl in H.
    + destruct H as ([k|] & t3 & -> & -> & ->); done.
    + destruct H as ([e|] & t3 & -> & H); simpl in H.
      * destruct H as ([k|] & t4 & -> & -> & ->); done.
      * destruct H as ([] & t4 & -> & -> & ->). split_and!; try done. intros _.
        intros t1 o t2 Heq Ho. destruct t1 as [|o1 [|o2 [|o3 t1]]]; simplify_eq/=; done.
  - destruct H as ([] & t2 & -> & -> & ->). done.
Qed.

(** ** Witnesses

    The warm releaser still watches a predecessor; and a gate fence whose grant will
    not be given back. *)
Definition sample_env : handler OE unit := fun X e u =>
  match e in OE X return X * unit with
  | ODraining => (false, u)
  | OWatch => (Some (ESentinel "residency.ErrWarmSessionWatched"), u)
  | OHalves | OLease | OTrack | OCurrent | OSupervise => (true, u)
  | OBeginInner | OStopHandle | OWriter | OApplier | OConsumer | OLink | OStartTail | OGateSession | OStartGates => (None, u)
  | OProjectors | OStopTail | ORecordConsumer | ORunConsumer | OStopConsumer | OForgetConsumer | OInvalidate | OForgetResident | ORolledBack | OForgetWarm => (tt, u)
  | OStopPublisher => (false, u)
  | OWorkDone => (None, u)
  end.

Definition sample_begin : list (obs OE) := Eval vm_compute in (exec sample_env (BeginOwnership "agent" true) tt).2.

(** The same, with a releaser that can watch. *)
Definition watching_env : handler OE unit := fun X e u =>
  match e in OE X return X * unit with OWatch => (None, u) | e' => sample_env _ e' u end.
Definition sample_held : list (obs OE) := Eval vm_compute in (exec watching_env (BeginOwnership "agent" true) tt).2.
Definition sample_rollback : list (obs OE) := Eval vm_compute in (exec watching_env (Stop true) tt).2.

Lemma ownership_all_or_nothing_witness :
  holds sample_begin = {[Publisher]} ∧ holds (sample_held ++ sample_rollback) = {[Supervisor; Publisher]}.
Proof.
  assert (runs (BeginOwnership "agent" true) sample_begin (Some (ESentinel "residency.ErrWarmSessionWatched"))) as H1.
  { refine (exec_runs sample_env _ tt _ tt _ _). vm_compute. reflexivity. }
  assert (runs (BeginOwnership "agent" true) sample_held None) as H2.
  { refine (exec_runs watching_env _ tt _ tt _ _). vm_compute. reflexivity. }
  assert (runs (Stop true) sample_rollback None) as H3.
  { refine (exec_runs watching_env _ tt _ tt _ _). vm_compute. reflexivity. }
  split; [exact (proj1 (ownership_all_or_nothing "agent" true _ _ H1))|].
  exact (proj1 (proj2 (ownership_all_or_nothing "agent" true _ _ H2) eq_refl _ _ H3)).
Defined.

Definition sample_acquire : list (obs LE) :=
  [Obs LAcquire None; Obs LGateSessionFor None; Obs LResolveFence (Some (ESentinel "fence"));
   Obs LRelease (Some (ESentinel "release"))].

Definition sample_owed : error :=
  ETyped (TLeaseCleanupError true) (Some (EJoin [ESentinel "fence"; ESentinel "release"])).

Lemma lease_recorded_fenced_witness :
  runs (AcquireSessionLease true) sample_acquire (OwesRelease sample_owed) ∧ seen (is_call LRecord) sample_acquire = false.
Proof.
  assert (runs (AcquireSessionLease true) sample_acquire (OwesRelease sample_owed)) as Hr.
  { simpl. repeat (eexists _, _; split; [reflexivity|]). done. }
  split; [exact Hr|]. exact (proj1 (lease_recorded_fenced true _ _ Hr)).
Defined.
End Ownership.
