(* ===== verification/Links.v ===== *)
(** * Links.v: the per-tenant links

    [links] of [internal/compose/links.go]: the bounded table of one transport and one
    routing table per tenant, its reclaiming and its routing of a connection by path.
    Building a link, the clock and the bindings a link holds are arguments; Core's
    tenant rule and path prefix are parameters.                                 *)
From Stdlib Require Import ZArith Ascii.
From stdpp Require Import base list strings gmap.
From S2P Require Import Prelude Errors.

Module Links.

Definition errTooManyTenants : error := ESentinel "compose.errTooManyTenants".
Definition errHostClosed : error := ESentinel "compose.errHostClosed".

(** [tenantLink]: which transport it is, and its last use. *)
Record tenantLink := mkLink { server : nat; lastUsed : Z }.

(** [links]. *)
Record links := mkLinks { max : Z; byTenant : gmap string tenantLink; closed : bool }.

Implicit Types (l : links) (tenant : string) (bound : nat → nat).

Section links.
Context (tenant_valid : string → option error).

(** ** Reclaiming *)

(** [reclaimLocked]'s loop, over the map in the order it is ranged over; [bound] is
    what each link's multiplexer holds. *)
Definition better (victim : option (string * tenantLink)) (k : string) (link : tenantLink) : bool :=
  match victim with None => true | Some (_, v) => (lastUsed link <? lastUsed v)%Z end.

Definition consider l bound (victim : option (string * tenantLink)) (k : string) : option (string * tenantLink) :=
  match byTenant l !! k with
  | None => victim
  | Some link => if bool_decide (bound (server link) ≠ 0) then victim
                 else if better victim k link then Some (k, link) else victim
  end.

Definition victim l bound (order : list string) : option (string * tenantLink) :=
  fold_left (consider l bound) order None.

(** [reclaimLocked]: the transport it closes, if it frees a slot. *)
Definition reclaimLocked l bound (order : list string) : option nat * links :=
  match victim l bound order with
  | None => (None, l)
  | Some (k, link) => (Some (server link), mkLinks (max l) (delete k (byTenant l)) (closed l))
  end.

(** ** Resolving *)

(** [resolve]: the link or the refusal, and the transports it closed; [build] is what
    building the tenant's link answers. *)
Definition resolve l bound order tenant (now : Z) (build : res nat) : res nat * list nat * links :=
  match tenant_valid tenant with
  | Some e => (Err e, [], l)
  | None =>
      if closed l then (Err errHostClosed, [], l)
      else match byTenant l !! tenant with
      | Some existing =>
          (Ok (server existing), [], mkLinks (max l) (<[tenant := mkLink (server existing) now]> (byTenant l)) (closed l))
      | None =>
          let '(freed, l1) := if (max l <=? Z.of_nat (size (byTenant l)))%Z then reclaimLocked l bound order else (None, l) in
          if (max l <=? Z.of_nat (size (byTenant l)))%Z && negb (bool_decide (is_Some freed))
          then (Err errTooManyTenants, [], l1)
          else match build with
               | Err e => (Err e, option_list freed, l1)
               | Ok s => (Ok s, option_list freed, mkLinks (max l1) (<[tenant := mkLink s now]> (byTenant l1)) (closed l1))
               end
      end
  end.

Definition lookup_link l tenant : option nat := server <$> byTenant l !! tenant.

(** [all], and what [Close] closes. *)
Definition all l : list nat := server ∘ snd <$> map_to_list (byTenant l).
Definition Close l : list nat * links := (all l, mkLinks (max l) ∅ true).

(** ** Histories *)

Inductive op :=
| OpResolve (bound : nat → nat) (order : list string) (tenant : string) (now : Z) (build : res nat)
| OpClose.

Definition step l (o : op) : list nat * links :=
  match o with
  | OpResolve bound order tenant now build => let '(_, closed, l) := resolve l bound order tenant now build in (closed, l)
  | OpClose => Close l
  end.

(** The links, and every transport closed so far. *)
Definition run (n : Z) (os : list op) : list nat * links :=
  fold_left (fun s o => let '(c, l) := step s.2 o in (s.1 ++ c, l)) os ([], mkLinks n ∅ false).

(** The transports a history builds. *)
Definition builds (o : op) : option nat :=
  match o with OpResolve _ _ _ _ (Ok s) => Some s | _ => None end.

(** Each transport is built once, and the range of a map visits its keys. *)
Definition wf l (o : op) : Prop :=
  match o with OpResolve _ order _ _ _ => order ≡ₚ (map_to_list (byTenant l)).*1 | OpClose => True end.

Fixpoint lawful l (os : list op) : Prop :=
  match os with [] => True | o :: os => wf l o ∧ lawful (step l o).2 os end.

(** ** The victim *)

(** An idle link that no idle link of [ks] has been unused longer than. *)
Definition least_used l bound (ks : list string) (v : option (string * tenantLink)) : Prop :=
  match v with
  | None => ∀ k link, k ∈ ks → byTenant l !! k = Some link → bound (server link) ≠ 0
  | Some (k, link) =>
      byTenant l !! k = Some link ∧ bound (server link) = 0 ∧
      ∀ k' link', k' ∈ ks → byTenant l !! k' = Some link' → bound (server link') = 0 → (lastUsed link ≤ lastUsed link')%Z
  end.

Lemma victim_least l bound order : least_used l bound order (victim l bound order).
Proof.
  unfold victim. induction order as [|k order IH] using rev_ind; [by intros k link ?%elem_of_nil|].
  rewrite fold_left_app. simpl. set (v := fold_left _ order None) in *. unfold consider.
  destruct (byTenant l !! k) as [link|] eqn:Hk.
  2:{ destruct v as [[kv lv]|]; simpl in *.
      - destruct IH as (? & ? & Hmin). split_and!; [done..|]. intros k' link' [?|Hin]%elem_of_app Hl; [eauto|].
        apply list_elem_of_singleton in Hin as ->. congruence.
      - intros k' link' [?|Hin]%elem_of_app Hl; [eauto|]. apply list_elem_of_singleton in Hin as ->. congruence. }
  case_bool_decide as Hb.
  - destruct v as [[kv lv]|]; simpl in *.
    + destruct IH as (? & ? & Hmin). split_and!; [done..|]. intros k' link' [?|Hin]%elem_of_app Hl; [eauto|].
      apply list_elem_of_singleton in Hin as ->. congruence.
    + intros k' link' [?|Hin]%elem_of_app Hl; [eauto|]. apply list_elem_of_singleton in Hin as ->. congruence.
  - destruct v as [[kv lv]|]; simpl in *.
    + destruct IH as (? & ? & Hmin). destruct (Z.ltb_spec (lastUsed link) (lastUsed lv)); simpl; split_and!; try done;
        intros k' link' [Hin|Hin]%elem_of_app Hl Hb'; eauto; try (apply list_elem_of_singleton in Hin as ->; simplify_eq; lia).
      specialize (Hmin k' link' Hin Hl Hb'). lia.
    + split_and!; [done..|]. intros k' link' [Hin|Hin]%elem_of_app Hl Hb'; [by destruct (IH k' link' Hin Hl)|].
      apply list_elem_of_singleton in Hin as ->. simplify_eq. lia.
Qed.

(** Making room: nothing closed, or one idle link and the least recently used. *)
Definition makes_room l bound (freed : option nat) l' : Prop :=
  max l' = max l ∧ closed l' = closed l ∧
  match freed with
  | None => byTenant l' = byTenant l
  | Some s => ∃ k link, least_used l bound (map_to_list (byTenant l)).*1 (Some (k, link)) ∧ s = server link ∧
                byTenant l' = delete k (byTenant l)
  end.

Lemma keys_of l k link : byTenant l !! k = Some link → k ∈ (map_to_list (byTenant l)).*1.
Proof. intros H. apply list_elem_of_fmap. exists (k, link). split; [done|]. by apply elem_of_map_to_list. Qed.

Lemma least_used_perm l bound ks ks' v : ks ≡ₚ ks' → least_used l bound ks v → least_used l bound ks' v.
Proof. intros Hp. unfold least_used. destruct v as [[k link]|]; by setoid_rewrite Hp. Qed.

Lemma reclaimLocked_room l bound order :
  order ≡ₚ (map_to_list (byTenant l)).*1 →
  makes_room l bound (reclaimLocked l bound order).1 (reclaimLocked l bound order).2 ∧
  ((reclaimLocked l bound order).1 = None → ∀ k link, byTenant l !! k = Some link → bound (server link) ≠ 0).
Proof.
  intros Hp. pose proof (least_used_perm _ _ _ _ _ Hp (victim_least l bound order)) as Hv. unfold reclaimLocked.
  destruct (victim l bound order) as [[k link]|]; simpl.
  - split; [|done]. split_and!; [done..|]. by exists k, link.
  - split; [done|]. intros _ k link Hk. by apply (Hv k link (keys_of l k link Hk)).
Qed.

(** What [resolve] answers and changes. *)
Inductive resolved l bound tenant (now : Z) (build : res nat) : res nat → list nat → links → Prop :=
| res_invalid e : tenant_valid tenant = Some e → resolved l bound tenant now build (Err e) [] l
| res_closed : closed l = true → resolved l bound tenant now build (Err errHostClosed) [] l
| res_held link :
    byTenant l !! tenant = Some link →
    resolved l bound tenant now build (Ok (server link)) []
      (mkLinks (max l) (<[tenant := mkLink (server link) now]> (byTenant l)) (closed l))
| res_full :
    byTenant l !! tenant = None → (max l ≤ Z.of_nat (size (byTenant l)))%Z →
    (∀ k link, byTenant l !! k = Some link → bound (server link) ≠ 0) →
    resolved l bound tenant now build (Err errTooManyTenants) [] l
| res_built freed l1 :
    closed l = false → byTenant l !! tenant = None → makes_room l bound freed l1 →
    (is_Some freed ↔ (max l ≤ Z.of_nat (size (byTenant l)))%Z) →
    resolved l bound tenant now build build (option_list freed)
      match build with
      | Ok s => mkLinks (max l1) (<[tenant := mkLink s now]> (byTenant l1)) (closed l1)
      | Err _ => l1
      end.

Lemma resolve_resolved l bound order tenant now build :
  order ≡ₚ (map_to_list (byTenant l)).*1 →
  let '(r, c, l') := resolve l bound order tenant now build in resolved l bound tenant now build r c l'.
Proof.
  intros Hp. destruct (reclaimLocked_room l bound order Hp) as [Hroom Hbusy]. unfold resolve.
  destruct (tenant_valid tenant) as [e|] eqn:Ht; [by apply res_invalid|].
  destruct (closed l) eqn:Hc; [by apply res_closed|].
  destruct (byTenant l !! tenant) as [link|] eqn:Hl; [rewrite <-Hc; by apply res_held|].
  destruct (Z.leb_spec (max l) (Z.of_nat (size (byTenant l)))) as [Hm|Hm].
  - destruct (reclaimLocked l bound order) as [[s|] l1] eqn:Hr; simpl in *.
    + assert (is_Some (Some s) ↔ (max l ≤ Z.of_nat (size (byTenant l)))%Z) as Hs by (split; [done|by eexists]).
      pose proof (res_built l bound tenant now build (Some s) l1 Hc Hl Hroom Hs) as H. by destruct build.
    + assert (l1 = l) as -> by (unfold reclaimLocked in Hr; by destruct (victim _ _ _) as [[]|]; simplify_eq).
      apply res_full; [done..|by apply Hbusy].
  - simpl. assert (is_Some (@None nat) ↔ (max l ≤ Z.of_nat (size (byTenant l)))%Z) as Hs by (split; [by intros []|lia]).
    assert (makes_room l bound None l) as Hn by done.
    pose proof (res_built l bound tenant now build None l Hc Hl Hn Hs) as H. by destruct build.
Qed.

(** ** The table *)

Record table (n : Z) (os : list op) (c : list nat) l : Prop := {
  tb_max : max l = n;
  tb_bound : (0 < n → Z.of_nat (size (byTenant l)) ≤ n)%Z;
  tb_closed : closed l = true → byTenant l = ∅;
  tb_built : ∀ k link, byTenant l !! k = Some link → server link ∈ omap builds os ∧ server link ∉ c;
  tb_inj : ∀ k k' link link', byTenant l !! k = Some link → byTenant l !! k' = Some link' → server link = server link' → k = k';
  tb_gone : ∀ s, s ∈ c → s ∈ omap builds os
}.

Lemma builds_snoc os o : omap builds (os ++ [o]) = omap builds os ++ option_list (builds o).
Proof. rewrite omap_app. simpl. by destruct (builds o). Qed.

Lemma table_weaken n os o c l : table n os c l → table n (os ++ [o]) (c ++ []) l.
Proof.
  intros []. rewrite app_nil_r. split; auto.
  - intros k link Hk. rewrite builds_snoc, elem_of_app. destruct (tb_built0 k link Hk). auto.
  - intros s Hs. rewrite builds_snoc, elem_of_app. auto.
Qed.

Lemma table_room n os o c bound freed l l1 :
  table n os c l → makes_room l bound freed l1 → table n (os ++ [o]) (c ++ option_list freed) l1.
Proof.
  intros Ht (Hm & Hc & Hf). destruct freed as [s|]; simpl.
  2:{ apply (table_weaken _ _ o) in Ht. destruct l, l1; simpl in *. by subst. }
  destruct Hf as (k & link & (Hk & _ & _) & -> & Hd). destruct Ht. split; rewrite ?Hm, ?Hc, ?Hd; auto.
  - intros Hn. specialize (tb_bound0 Hn). rewrite map_size_delete_Some by by eexists. lia.
  - intros Hcl. rewrite (tb_closed0 Hcl). apply delete_empty.
  - intros k' link' [Hne Hk']%lookup_delete_Some. rewrite builds_snoc, !elem_of_app, list_elem_of_singleton.
    destruct (tb_built0 k' link' Hk'). split; [auto|]. intros [?|Hs]; [done|]. by destruct Hne; apply (tb_inj0 k k' link link').
  - intros k1 k2 l1' l2' [_ H1]%lookup_delete_Some [_ H2]%lookup_delete_Some. eauto.
  - intros s. rewrite builds_snoc, !elem_of_app, list_elem_of_singleton. intros [?| ->]; [auto|].
    left. by apply (tb_built0 k link).
Qed.

Lemma table_step n os o c l :
  table n os c l → wf l o → NoDup (omap builds (os ++ [o])) →
  table n (os ++ [o]) (c ++ (step l o).1) (step l o).2.
Proof.
  intros Ht Hw Hnd. destruct o as [bound order tenant now build|]; simpl in *.
  - pose proof (resolve_resolved l bound order tenant now build Hw) as Hr.
    destruct (resolve l bound order tenant now build) as [[r cl] l']. simpl.
    set (o := OpResolve bound order tenant now build) in *.
    destruct Hr as [e He|Hc|link Hl|Hl Hm Hbusy|freed l1 Hc Hl Hroom Hfull]; try by apply table_weaken.
    + apply (table_weaken _ _ o) in Ht. destruct Ht. split; simpl; auto.
      * intros Hn. rewrite map_size_insert_Some; [auto|by eexists].
      * intros Hcl. rewrite (tb_closed0 Hcl) in Hl. by rewrite lookup_empty in Hl.
      * intros k link' [[<- <-]|[_ Hk]]%lookup_insert_Some; [by apply (tb_built0 tenant link)|eauto].
      * intros k1 k2 l1 l2 [[<- <-]|[? H1]]%lookup_insert_Some [[<- <-]|[? H2]]%lookup_insert_Some Hs; simpl in *; eauto.
    + pose proof (table_room _ _ o _ _ _ _ _ Ht Hroom) as H1. destruct build as [s|e]; [|done].
      rewrite builds_snoc in Hnd. simpl in Hnd. apply NoDup_app in Hnd as (_ & Hfresh & _).
      assert (s ∉ omap builds os) as Hs by (intros Hin; apply (Hfresh s Hin); left).
      destruct Hroom as (Hm & Hcl & Hd).
      assert (∀ k link, byTenant l1 !! k = Some link → byTenant l !! k = Some link) as Hsub.
      { intros k link. destruct freed as [s'|]; [destruct Hd as (? & ? & _ & _ & ->); by intros [_ ?]%lookup_delete_Some|by rewrite Hd]. }
      assert (∀ k link, byTenant l1 !! k = Some link → server link ≠ s) as Hold.
      { intros k link Hk Heq. apply Hs. rewrite <-Heq. by apply (tb_built _ _ _ _ Ht k link), Hsub. }
      destruct H1. split; simpl; auto.
      * intros Hn. rewrite map_size_insert_None.
        2:{ destruct (byTenant l1 !! tenant) as [link|] eqn:Hx; [|done]. apply Hsub in Hx. congruence. }
        destruct freed as [s'|].
        -- destruct Hd as (k & link & (Hk & _) & _ & ->). rewrite map_size_delete_Some by by eexists.
           pose proof (tb_bound _ _ _ _ Ht Hn). assert (size (byTenant l) ≠ 0) by (intros Hz%map_size_empty_inv; by rewrite Hz, lookup_empty in Hk). lia.
        -- rewrite Hd. pose proof (tb_max _ _ _ _ Ht). destruct (Z.le_gt_cases (max l) (Z.of_nat (size (byTenant l)))) as [Hle|]; [|lia].
           apply Hfull in Hle as []. done.
      * intros Hx. congruence.
      * intros k link [[<- <-]|[_ Hk]]%lookup_insert_Some; [|eauto]. simpl. rewrite builds_snoc, !elem_of_app. simpl.
        split; [right; left|]. intros [Hin|Hin]; [by apply Hs, (tb_gone _ _ _ _ Ht)|].
        destruct freed as [s'|]; [|by apply elem_of_nil in Hin]. apply list_elem_of_singleton in Hin as ->.
        destruct Hd as (k & link & (Hk & _) & -> & _). by apply Hs, (tb_built _ _ _ _ Ht k).
      * intros k1 k2 x1 x2 [[<- <-]|[? H1]]%lookup_insert_Some [[<- <-]|[? H2]]%lookup_insert_Some Heq; simpl in *; eauto;
          exfalso; by eapply Hold.
  - destruct Ht. split; simpl; auto.
    + intros Hn. rewrite map_size_empty. lia.
    + intros k link Hk. by rewrite lookup_empty in Hk.
    + intros k k' link link' Hk. by rewrite lookup_empty in Hk.
    + intros s. rewrite builds_snoc, app_nil_r, elem_of_app. intros [?|Hin]; [auto|].
      apply list_elem_of_fmap in Hin as ([k link] & -> & Hin). apply elem_of_map_to_list in Hin. by apply (tb_built0 k link).
Qed.

Lemma run_snoc n os o : run n (os ++ [o]) = let '(c, l) := step (run n os).2 o in ((run n os).1 ++ c, l).
Proof. unfold run. by rewrite fold_left_app. Qed.

Lemma lawful_snoc l os o :
  lawful l (os ++ [o]) ↔ lawful l os ∧ wf (fold_left (fun l o => (step l o).2) os l) o.
Proof. revert l. induction os as [|x os IH]; intros l; simpl; [naive_solver|]. rewrite IH. naive_solver. Qed.

Lemma run_links n os : (run n os).2 = fold_left (fun l o => (step l o).2) os (mkLinks n ∅ false).
Proof.
  induction os as [|o os IH] using rev_ind; [done|]. rewrite run_snoc, fold_left_app. simpl. rewrite <-IH.
  by destruct (step (run n os).2 o).
Qed.

(** The table of links is a bijection within its bound: after any history of
    resolutions and closings there are no more links than the configured number, no
    two tenants share a transport, every transport in use was built and has not been
    closed, and a host that has closed holds none. *)
Theorem links_bijective n os (Hn : (0 < n)%Z) (Hlawful : lawful (mkLinks n ∅ false) os) (Hfresh : NoDup (omap builds os)) :
  let '(gone, l) := run n os in
  (Z.of_nat (size (byTenant l)) ≤ n)%Z ∧
  (∀ k k' link link', byTenant l !! k = Some link → byTenant l !! k' = Some link' → server link = server link' → k = k') ∧
  (∀ k link, byTenant l !! k = Some link → server link ∈ omap builds os ∧ server link ∉ gone) ∧
  (closed l = true → byTenant l = ∅).
Proof.
  assert (table n os (run n os).1 (run n os).2) as Ht.
  { induction os as [|o os IH] using rev_ind.
    - split; simpl; try done; intros; rewrite ?map_size_empty, ?lookup_empty in *; try done. lia.
    - apply lawful_snoc in Hlawful as [Hl Hw]. rewrite <-run_links in Hw.
      assert (NoDup (omap builds os)) as Hf by (rewrite builds_snoc in Hfresh; by apply NoDup_app in Hfresh as [? _]).
      pose proof (table_step n os o _ _ (IH Hl Hf) Hw Hfresh) as H. rewrite run_snoc.
      by destruct (step (run n os).2 o). }
  destruct (run n os) as [gone l]. destruct Ht. auto.
Qed.

(** A stranger never evicts a working tenant: resolving a tenant keeps every link
    that holds a binding, closes at most one transport, only at the limit, an idle one
    and the least recently used of those, and a tenant that is served is the one the
    table then maps to that transport. *)
Theorem resolve_spares_busy l bound order tenant now build r c l'
    (Horder : order ≡ₚ (map_to_list (byTenant l)).*1)
    (Hresolve : resolve l bound order tenant now build = (r, c, l')) :
  (∀ k link, byTenant l !! k = Some link → bound (server link) ≠ 0 → lookup_link l' k = Some (server link)) ∧
  (c = [] ∨ (max l ≤ Z.of_nat (size (byTenant l)))%Z ∧
     ∃ k link, c = [server link] ∧ least_used l bound (map_to_list (byTenant l)).*1 (Some (k, link))) ∧
  (∀ s, r = Ok s → lookup_link l' tenant = Some s).
Proof.
  pose proof (resolve_resolved l bound order tenant now build Horder) as H. rewrite Hresolve in H.
  unfold lookup_link. destruct H as [e He|Hc|link Hl|Hl Hm Hbusy|freed l1 Hc Hl (Hm & Hcl & Hd) Hfull].
  1,2,4: split_and!; [by intros k link ->|by left|done].
  - split_and!; [|by left|].
    + intros k x Hk _. simpl. destruct (decide (tenant = k)) as [<-|Hne]; [|by rewrite lookup_insert_ne, Hk].
      rewrite lookup_insert_eq. by simplify_eq.
    + simpl. rewrite lookup_insert_eq. by intros s [= <-].
  - assert (∀ k link, byTenant l !! k = Some link → bound (server link) ≠ 0 → byTenant l1 !! k = Some link) as Hkept.
    { intros k link Hk Hb. destruct freed as [s|]; [|by rewrite Hd]. destruct Hd as (k' & link' & (Hk' & Hi & _) & _ & ->).
      rewrite lookup_delete_ne; [done|]. intros ->. by simplify_eq. }
    split_and!.
    + intros k link Hk Hb. specialize (Hkept k link Hk Hb). destruct build; simpl; [|by rewrite Hkept].
      rewrite lookup_insert_ne, Hkept; [done|]. intros ->. congruence.
    + destruct freed as [s|]; [right|by left]. split; [by apply Hfull; eexists|].
      destruct Hd as (k & link & Hleast & -> & _). by exists k, link.
    + intros s ->. simpl. by rewrite lookup_insert_eq.
Qed.

End links.

Section routing.
Context (HostLinkPathPrefix : string).

(** ** Routing *)

(** [strings.CutPrefix]. *)
Fixpoint CutPrefix (s prefix : string) {struct prefix} : option string :=
  match prefix, s with
  | EmptyString, _ => Some s
  | String a prefix, String b s => if Ascii.eqb a b then CutPrefix s prefix else None
  | String _ _, EmptyString => None
  end.

Fixpoint has_slash (s : string) : bool :=
  match s with EmptyString => false | String c s => Ascii.eqb c "/" || has_slash s end.

(** [tenantFromPath]. *)
Definition tenantFromPath (path : string) : option string :=
  match CutPrefix path HostLinkPathPrefix with
  | None => None
  | Some rest => if bool_decide (rest = "") || has_slash rest then None else Some rest
  end.

(** [handler]'s answers: a status, or the tenant's transport. *)
Inductive answer := NotFound | ServiceUnavailable | BadRequest | ServedBy (s : nat).

Definition answer_of (r : res nat) : answer :=
  match r with
  | Ok s => ServedBy s
  | Err e => if errors_is e errTooManyTenants then ServiceUnavailable
             else if errors_is e errHostClosed then ServiceUnavailable
             else BadRequest
  end.

(** [handler]. *)
Definition handler (tenant_valid : string → option error) l bound (order : list string) (path : string) (now : Z)
    (build : res nat) : answer * list nat * links :=
  match tenantFromPath path with
  | None => (NotFound, [], l)
  | Some name => let '(r, gone, l) := resolve tenant_valid l bound order name now build in (answer_of r, gone, l)
  end.

Lemma CutPrefix_spec s prefix rest : CutPrefix s prefix = Some rest ↔ s = (prefix +:+ rest)%string.
Proof.
  revert s. induction prefix as [|a prefix IH]; intros s; simpl; [split; [by intros [= ->]|by intros ->]|].
  destruct s as [|b s]; [done|]. destruct (Ascii.eqb_spec a b) as [->|Hne].
  - rewrite IH. split; [by intros ->|by intros [=]].
  - split; [done|]. by intros [=].
Qed.

(** A connection reaches the tenant its path names and no other: the path of a tenant
    is the prefix and one non-empty segment, and reading it back gives that segment. *)
Theorem tenantFromPath_spec path tenant :
  tenantFromPath path = Some tenant ↔
  path = (HostLinkPathPrefix +:+ tenant)%string ∧ tenant ≠ ""%string ∧ has_slash tenant = false.
Proof.
  unfold tenantFromPath. rewrite <-CutPrefix_spec. split.
  - destruct (CutPrefix path _) as [rest|]; [|done]. case_bool_decide; [done|]. simpl.
    destruct (has_slash rest) eqn:Hs; [done|]. by intros [= <-].
  - intros (-> & Hne & Hs). rewrite bool_decide_false, Hs by done. done.
Qed.
End routing.

(** ** Witnesses

    Two links allowed; the idle one makes room for a third tenant. *)
Definition demo_valid (tenant : string) : option error := if bool_decide (tenant = "") then Some (EForeign "TenantID.Validate") else None.
Definition demo_bound (s : nat) : nat := if bool_decide (s = 0) then 1 else 0.
Definition demo_ops : list op :=
  [OpResolve demo_bound [] "a" 1 (Ok 0); OpResolve demo_bound ["a"] "b" 2 (Ok 1);
   OpResolve demo_bound ["a"; "b"] "c" 3 (Ok 2)].

Lemma links_bijective_witness :
  (run demo_valid 2 demo_ops).1 = [1] ∧
  (Z.of_nat (size (byTenant (run demo_valid 2 demo_ops).2)) ≤ 2)%Z.
Proof.
  split; [vm_compute; reflexivity|].
  refine (proj1 (links_bijective demo_valid 2 demo_ops _ _ _)).
  - lia.
  - simpl. split_and!; [|apply (bool_decide_unpack _); vm_compute; done..|done]; apply (bool_decide_unpack _); vm_compute; done.
  - apply (bool_decide_unpack _). vm_compute. done.
Defined.

Lemma resolve_spares_busy_witness :
  lookup_link (run demo_valid 2 demo_ops).2 "a" = Some 0 ∧ lookup_link (run demo_valid 2 demo_ops).2 "c" = Some 2.
Proof.
  set (l := (run demo_valid 2 (take 2 demo_ops)).2).
  assert (resolve demo_valid l demo_bound ["a"; "b"] "c" 3 (Ok 2) = (Ok 2, [1], (run demo_valid 2 demo_ops).2)) as H
    by (vm_compute; reflexivity).
  assert (["a"; "b"] ≡ₚ (map_to_list (byTenant l)).*1) as Ho by (vm_compute; repeat constructor).
  destruct (resolve_spares_busy demo_valid l demo_bound ["a"; "b"] "c" 3 (Ok 2) _ _ _ Ho H) as (H1 & _ & H2).
  split; [apply (H1 "a" (mkLink 0 1)); [vm_compute; reflexivity|vm_compute; discriminate]|by apply H2].
Defined.
End Links.
