(* ===== verification/LinkAttach.v ===== *)
(** * LinkAttach.v: an attach from the link to the manager and back

    [linkAttacher] of [internal/compose/attach.go] and [Service.Attach] of
    [compose.go]: the composition between the attach RPC ([Attach.v]) and the
    residency manager ([Manager.v]), so what a refusal of the manager becomes on the
    wire, and what of a failed rollback is kept for the drain.  Core's two attach
    modes are parameters.                                                       *)
From Stdlib Require Import ZArith.
From stdpp Require Import base list strings gmap.
From S2P Require Import Prelude Wire Errors Effects Registry Multiplexer Manager Attach Resident.

Module LinkAttach.
Local Open Scope prog_scope.

Section link.
Context {Rt Tgt : Type}.
Context (MaxIDBytes : nat) (tenant_valid session_valid agent_valid : string → bool).
(** [sessionwire.HostLinkAttachModeCreate] and [...Restore]. *)
Context (wire_create wire_restore : string).

Abbreviation P := (prog (Manager.ME Rt Tgt)).
Abbreviation ManagerAttach := (Manager.Attach (Rt := Rt) (Tgt := Tgt) MaxIDBytes tenant_valid session_valid agent_valid).
Implicit Types (m : Manager.Manager Tgt) (a : Attach.AttachRequest).

(** [attachMode]. *)
Definition attachMode (mode : string) : option Manager.Mode :=
  if bool_decide (mode = wire_create) then Some Manager.ModeCreate
  else if bool_decide (mode = wire_restore) then Some Manager.ModeRestore
  else None.

(** [LeaseHolderEpoch]. *)
Definition LeaseHolderEpoch (err : error) : option Z :=
  errors_as (fun t => match t with TLeaseHeldError holder => Some holder | _ => None end) err.

(** [attachRefusal]. *)
Definition attachRefusal (err : error) : Attach.AttachRefusal :=
  match errors_as (fun t => match t with TAttachError code build => Some (code, build) | _ => None end) err with
  | None => Attach.mkAttachRefusal HostLinkErrorNone 0 ""
  | Some (code, build) =>
      match code with
      | HostLinkErrorEpochMismatch => Attach.mkAttachRefusal code (default 0%Z (LeaseHolderEpoch err)) ""
      | HostLinkErrorRuntimeMismatch => Attach.mkAttachRefusal code 0 build
      | _ => Attach.mkAttachRefusal code 0 ""
      end
  end.

(** The request the manager is asked. *)
Definition request_of a (mode : Manager.Mode) : Manager.Request :=
  Manager.mkRequest (TenantID (Attach.ar_Key a)) (SessionID (Attach.ar_Key a)) (Attach.ar_AgentID a) mode
    (Attach.ar_RuntimeCompatibilityID a)
    (Manager.mkPrincipal (TenantID (Attach.ar_Key a)) (Attach.ar_ActorID a) (Attach.ar_TraceID a)).

(** [settleAttach] of a failed attach: what it puts on the release ledger. *)
Definition settleAttach (e : Manager.AttachError) : option error :=
  Resident.wrap <$> Resident.withoutLostGrant (errors_join (Some <$> Manager.ae_UnreleasedCauses e)).

(** [Service.Attach], past the lifecycle's refusal [admitted] ([Lifetime.Attach]): the
    residency or the error, and what was recorded as unreleased. *)
Definition service_Attach (admitted : option error) m (request : Manager.Request) :
    P ((error + Manager.Residency Rt) * option error) :=
  match admitted with
  | Some e => Ret (inl e, None)
  | None =>
      let! r := ManagerAttach m request in
      Ret (match r with
           | inl e => (inl (Manager.to_error e), settleAttach e)
           | inr residency => (inr residency, None)
           end)
  end.

(** [linkAttacher.Attach]. *)
Definition link_Attach (admitted : option error) m a : P (Attach.AttachRefusal + RegistryObservation) :=
  match attachMode (Attach.ar_Mode a) with
  | None => Ret (inl (Attach.mkAttachRefusal HostLinkErrorNone 0 ""))
  | Some mode =>
      let! held := service_Attach admitted m (request_of a mode) in
      match held.1 with
      | inl err => Ret (inl (attachRefusal err))
      | inr residency =>
          let! observed := Manager.Observe m (Manager.rs_Key residency) in
          Ret (match observed with
               | Some observation => inr observation
               | None => inl (Attach.mkAttachRefusal HostLinkErrorNone 0 "")
               end)
      end
  end.

(** ** What a manager's refusal is on the wire *)

Section wire.
Context (request_valid : Attach.HostLinkAttachRequest → bool).
Context (error_valid : Multiplexer.HostLinkError → bool) (observation_valid : RegistryObservation → bool).

(** The reply a manager's refusal has. *)
Definition reply_of (e : Manager.AttachError) : Attach.Reply :=
  let code := Manager.ae_Code e in
  let unavailable := Attach.ReplyRefusal (Multiplexer.mkHostLinkError HostLinkErrorRuntimeUnavailable 0 "") in
  match code with
  | HostLinkErrorNone | HostLinkErrorOther _ => Attach.ReplyAttachFailed
  | HostLinkErrorEpochMismatch =>
      let epoch := default 0%Z (LeaseHolderEpoch (Manager.to_error e)) in
      if (epoch =? 0)%Z then unavailable else Attach.ReplyRefusal (Multiplexer.mkHostLinkError code epoch "")
  | HostLinkErrorRuntimeMismatch =>
      let w := Multiplexer.mkHostLinkError code 0 (Manager.ae_RuntimeCompatibilityID e) in
      if error_valid w then Attach.ReplyRefusal w else unavailable
  | _ => Attach.ReplyRefusal (Multiplexer.mkHostLinkError code 0 "")
  end.

Lemma link_Attach_refused m a mode t e :
  attachMode (Attach.ar_Mode a) = Some mode →
  runs (ManagerAttach m (request_of a mode)) t (inl e) →
  runs (link_Attach None m a) t (inl (attachRefusal (Manager.to_error e))).
Proof.
  intros Hm Hr. unfold link_Attach, service_Attach. rewrite Hm.
  apply runs_bind. exists t, [], (inl (Manager.to_error e), settleAttach e). rewrite app_nil_r. split_and!; [done| |done].
  apply runs_bind. exists t, [], (inl e). by rewrite app_nil_r.
Qed.

(** What the manager decides is what the caller reads: an attach the manager refuses
    is replied with exactly the manager's class, with the epoch the lease's holder was
    reported under or the build the manager named, as [runtime_unavailable] where a
    class lacks what Core requires it to carry, and as a plain failure where the
    manager gave no class; in between, nothing is asked of anyone else. *)
Theorem refusal_reaches_wire mux m r a mode t e
    (Hcore : Attach.core_classes error_valid)
    (Hscope : Attach.attachScope request_valid mux r = inr a)
    (Hmode : attachMode (Attach.ar_Mode a) = Some mode)
    (Hrefused : runs (ManagerAttach m (request_of a mode)) t (inl e))
    (Hcode : ∀ s, Manager.ae_Code e ≠ HostLinkErrorOther s) :
  ∃ refusal, runs (link_Attach None m a) t (inl refusal) ∧
    Attach.dispatchAttach request_valid error_valid observation_valid mux (Some (fun _ => inl (Some refusal))) (Some r) =
      (reply_of e, Some a).
Proof.
  exists (attachRefusal (Manager.to_error e)). split; [by eapply link_Attach_refused|].
  destruct Hcore as [Hep Hcl]. unfold Attach.dispatchAttach, Attach.Attach. rewrite Hscope. f_equal.
  unfold reply_of, Attach.attachReply, Multiplexer.published, Attach.attachRefusal, attachRefusal. simpl.
  destruct (Manager.ae_Code e) as [| | | | | | |s] eqn:Hc; simpl; try done; try (by rewrite Hcl by set_solver).
  - destruct (error_valid _) eqn:Hv; simpl; [by rewrite Hv|]. by rewrite Hcl by set_solver.
  - destruct (Z.eqb_spec (default 0%Z (LeaseHolderEpoch (Manager.to_error e))) 0) as [H0|H0]; simpl.
    + by rewrite Hcl by set_solver.
    + by rewrite Hep.
  - by destruct (Hcode s).
Qed.
End wire.

(** Nothing an attach's rollback could not give back goes unrecorded, unless the loss
    of the grant explains it; an attach that succeeds, or was never begun, records
    nothing. *)
Theorem rollback_recorded admitted m request t r recorded
    (Hrun : runs (service_Attach admitted m request) t (r, recorded)) :
  match admitted, r with
  | Some e, _ => t = [] ∧ r = inl e ∧ recorded = None
  | None, inl err => ∃ e, runs (ManagerAttach m request) t (inl e) ∧ err = Manager.to_error e ∧
      (recorded = None ↔ Forall (fun cause => Resident.excused (Some cause)) (Manager.ae_UnreleasedCauses e))
  | None, inr residency => runs (ManagerAttach m request) t (inr residency) ∧ recorded = None
  end.
Proof.
  destruct admitted as [e|]; [destruct Hrun as [-> [= -> ->]]; done|].
  apply runs_bind in Hrun as (t1 & t2 & x & -> & H & [-> Hx]). rewrite app_nil_r.
  destruct x as [e|residency]; simplify_eq/=; [|done]. exists e. split_and!; [done..|].
  unfold settleAttach. rewrite fmap_None. fold (Resident.excused (errors_join (Some <$> Manager.ae_UnreleasedCauses e))).
  by rewrite Resident.excused_join, Forall_fmap.
Qed.

(** ** The same attach, asked in process

    [Service.Attach] and [exportAttachError] of the module's root ([compose.go]). The
    reason text of an error is left out. *)
Record HostRequest := mkHostRequest { hr_Key : Key; hr_AgentID : string; hr_Mode : string; hr_Compatibility : string; hr_ActorID : string; hr_TraceID : string }.

Record HostResidency := mkHostResidency {
  hr_residency : Key; hr_agent : string; hr_compatibility : string; hr_LeaseEpoch : Z; hr_JournalEpoch : Z; hr_JournalEpochHeld : bool; hr_Attached : bool
}.

Record HostAttachError := mkHostAttachError {
  he_Step : Manager.Step; he_Code : HostLinkErrorCode; he_CurrentLeaseEpoch : Z; he_Cause : option error; he_Unreleased : list Manager.Hold
}.

(** [exportAttachError] of a refusal of the manager, and of any other error. *)
Definition exportAttachError (e : Manager.AttachError) : HostAttachError :=
  mkHostAttachError (Manager.ae_Step e) (Manager.ae_Code e)
    (if bool_decide (Manager.ae_Code e = HostLinkErrorEpochMismatch) then default 0%Z (LeaseHolderEpoch (Manager.to_error e)) else 0%Z)
    (Some (Manager.to_error e)) (Manager.ae_Unreleased e).

Definition host_residency (r : Manager.Residency Rt) : HostResidency :=
  mkHostResidency (Manager.rs_Key r) (Manager.rs_AgentID r) (Manager.rs_CompatibilityID r) (Manager.rs_LeaseEpoch r) (Manager.rs_JournalEpoch r)
    (Manager.rs_JournalEpochHeld r) (Manager.Attached r).

Definition host_request (r : HostRequest) (mode : Manager.Mode) : Manager.Request :=
  Manager.mkRequest (TenantID (hr_Key r)) (SessionID (hr_Key r)) (hr_AgentID r) mode (hr_Compatibility r)
    (Manager.mkPrincipal (TenantID (hr_Key r)) (hr_ActorID r) (hr_TraceID r)).

(** [Service.Attach]: a refusal with its step, another error as it is, or the residency,
    beside what the composed service's attach recorded of the rollback. *)
Definition host_Attach (admitted : option error) m (r : HostRequest) : P (((HostAttachError + error) + HostResidency) * option error) :=
  match attachMode (hr_Mode r) with
  | None => Ret (inl (inl (mkHostAttachError Manager.StepValidate HostLinkErrorNone 0 None [])), None)
  | Some mode =>
      match admitted with
      | Some e => Ret (inl (inr e), None)
      | None =>
          let! answer := ManagerAttach m (host_request r mode) in
          Ret (match answer with
               | inl e => (inl (inl (exportAttachError e)), settleAttach e)
               | inr held => (inr (host_residency held), None)
               end)
      end
  end.

(** A caller in process is told what a caller on the link is: of the same refusal of the
    manager, the same class and the same holder's epoch, with the step and what the
    rollback could not give back besides; and of an attach that succeeds, the epoch and
    the key of the residency the link observes. *)
Theorem host_agrees_with_link m (r : HostRequest) a mode t
    (Hkey : hr_Key r = Attach.ar_Key a) (Hagent : hr_AgentID r = Attach.ar_AgentID a) (Hbuild : hr_Compatibility r = Attach.ar_RuntimeCompatibilityID a)
    (Hactor : hr_ActorID r = Attach.ar_ActorID a) (Htrace : hr_TraceID r = Attach.ar_TraceID a) (Hm : hr_Mode r = Attach.ar_Mode a)
    (Hmode : attachMode (hr_Mode r) = Some mode) answer recorded (Hrun : runs (host_Attach None m r) t (answer, recorded)) :
  match answer with
  | inl (inl e) => ∃ refusal, runs (link_Attach None m a) t (inl refusal) ∧
      Attach.Code refusal = he_Code e ∧ Attach.CurrentLeaseEpoch refusal = he_CurrentLeaseEpoch e
  | inl (inr _) => False
  | inr held => ∃ residency, runs (ManagerAttach m (request_of a mode)) t (inr residency) ∧ held = host_residency residency
  end.
Proof.
  assert (host_request r mode = request_of a mode) as Heq by (unfold host_request, request_of; congruence).
  unfold host_Attach in Hrun. rewrite Hmode in Hrun. apply runs_bind in Hrun as (t1 & t2 & x & -> & H & [-> Hx]). rewrite app_nil_r, Heq in *.
  destruct x as [e|residency]; simplify_eq/=; [|by exists residency]. exists (attachRefusal (Manager.to_error e)).
  split; [eapply link_Attach_refused; [by rewrite <-Hm|done]|]. unfold attachRefusal, exportAttachError. simpl. by destruct (Manager.ae_Code e).
Qed.
End link.

(** ** Witnesses

    A durable state written by another build; and an attach whose workspace could not
    be given back. *)
Definition sample_wire : Attach.HostLinkAttachRequest :=
  Attach.mkWireRequest "t" "s" "host-1" 1 "agent" "" "create" "actor" "" "k".
Definition sample_asked : Attach.AttachRequest := Attach.mkAttachRequest (mkKey "t" "s") "agent" "" "create" "actor" "" "k".
Definition sample_refused : Manager.AttachError :=
  Manager.mkAttachError Manager.StepHydrate HostLinkErrorRuntimeMismatch Manager.sample_key None "v2" [] [].

Lemma refusal_reaches_wire_witness :
  reply_of Attach.sample_error_valid sample_refused =
    Attach.ReplyRefusal (Multiplexer.mkHostLinkError HostLinkErrorRuntimeMismatch 0 "v2") ∧
  ∃ refusal, runs (link_Attach 255 (fun _ => true) (fun _ => true) (fun _ => true) "create" "restore" None
      Manager.sample_manager sample_asked) Manager.sample_mismatch.2 (inl refusal) ∧
    Attach.dispatchAttach Attach.sample_request_valid Attach.sample_error_valid (fun _ => true) Attach.sample_mux
      (Some (fun _ => inl (Some refusal))) (Some sample_wire) =
      (reply_of Attach.sample_error_valid sample_refused, Some sample_asked).
Proof.
  split; [vm_compute; reflexivity|].
  apply (refusal_reaches_wire 255 (fun _ => true) (fun _ => true) (fun _ => true) "create" "restore"
    Attach.sample_request_valid Attach.sample_error_valid (fun _ => true) Attach.sample_mux Manager.sample_manager
    sample_wire sample_asked Manager.ModeCreate Manager.sample_mismatch.2 sample_refused Attach.sample_core).
  - vm_compute. reflexivity.
  - vm_compute. reflexivity.
  - apply (exec_runs (Manager.sample_env "v2" (Manager.OwnershipBegun true)) _ tt _ tt). vm_compute. reflexivity.
  - intros s. vm_compute. discriminate.
Defined.

Definition sample_kept : option error := Eval vm_compute in settleAttach Manager.sample_error.

Lemma rollback_recorded_witness :
  is_Some sample_kept ∧
  ∃ e, runs (Manager.Attach 255 (fun _ => true) (fun _ => true) (fun _ => true) Manager.sample_manager Manager.sample_request)
         Manager.sample_failed_trace (inl e) ∧ Manager.to_error Manager.sample_error = Manager.to_error e ∧
       (sample_kept = None ↔ Forall (fun cause => Resident.excused (Some cause)) (Manager.ae_UnreleasedCauses e)).
Proof.
  split; [vm_compute; by eexists|].
  apply (rollback_recorded 255 (fun _ => true) (fun _ => true) (fun _ => true) None Manager.sample_manager
    Manager.sample_request Manager.sample_failed_trace (inl (Manager.to_error Manager.sample_error)) sample_kept).
  apply (exec_runs (Manager.sample_env "v1" (Manager.OwnershipRefused (EForeign "refused"))) _ tt _ tt). vm_compute. reflexivity.
Defined.

Definition sample_asked_here : HostRequest := mkHostRequest (mkKey "t" "s") "agent" "create" "" "actor" "".

Lemma host_agrees_with_link_witness :
  ∃ refusal, runs (link_Attach 255 (fun _ => true) (fun _ => true) (fun _ => true) "create" "restore" None
      Manager.sample_manager sample_asked) Manager.sample_mismatch.2 (inl refusal) ∧
    Attach.Code refusal = HostLinkErrorRuntimeMismatch ∧ Attach.CurrentLeaseEpoch refusal = 0%Z.
Proof.
  apply (host_agrees_with_link 255 (fun _ => true) (fun _ => true) (fun _ => true) "create" "restore"
    Manager.sample_manager sample_asked_here sample_asked Manager.ModeCreate Manager.sample_mismatch.2
    eq_refl eq_refl eq_refl eq_refl eq_refl eq_refl eq_refl
    (inl (inl (exportAttachError sample_refused))) (settleAttach sample_refused)).
  apply (exec_runs (Manager.sample_env "v2" (Manager.OwnershipBegun true)) _ tt _ tt). vm_compute. reflexivity.
Defined.
End LinkAttach.
