(* ===== verification/CommandIndex.v ===== *)
(** * CommandIndex.v: public names of runtime commands

    [internal/publicbody/index.go]: the incremental index of a session's admission
    mappings over a source, and its two sources, the runtime journal's application
    prefixes ([journal.go]) and the disposition inbox
    ([internal/compose/publicbody.go]).  The index is proved against the class
    [Source] of what a source promises, and each source to be an instance of it; the
    store's page reads are parameters.                                          *)
From Stdlib Require Import ZArith.
From stdpp Require Import base list strings gmap sorting.
From S2P Require Import Prelude Errors Effects.

Module CommandIndex.
Local Open Scope prog_scope.

(** [Pair]. *)
Record Pair := mkPair { Runtime : string; Public : string }.

(** ** The index *)

Definition maxAbsent : Z := 4096.

(** [Index]. *)
Record Index := mkIndex { through : Z; known : gmap string string; absent : gset string }.

(** [NewIndex]. *)
Definition NewIndex : Index := mkIndex 0 ∅ ∅.

Implicit Types (i : Index) (runtime : string).

(** [Source.Read]: the pairs, the position read through, and whether it is done. *)
Inductive IE : Type → Type := IRead (after bound : Z) : IE (res (list Pair * Z * bool)).

Definition learn i (pairs : list Pair) (position : Z) : Index :=
  mkIndex (if (through i <? position)%Z then position else through i)
    (fold_left (fun m p => <[Runtime p := Public p]> m) pairs (known i)) (absent i).

(** The reading loop of [PublicCommand]; [None] is out of fuel, an error is the
    source's. *)
Fixpoint read_on (fuel : nat) i runtime (bound : Z) : prog IE (option (option error) * Index) :=
  match fuel with
  | O => Ret (None, i)
  | S fuel =>
      let! answer := call (IRead (through i) bound) in
      match answer with
      | Err e => Ret (Some (Some e), i)
      | Ok (pairs, position, finished) =>
          let progressed := (through i <? position)%Z in
          let i := learn i pairs position in
          if bool_decide (is_Some (known i !! runtime)) || finished || negb progressed
          then Ret (Some None, i)
          else read_on fuel i runtime bound
      end
  end.

(** [PublicCommand]. *)
Definition PublicCommand (fuel : nat) i runtime (bound : Z) : prog IE (option (res (option string)) * Index) :=
  match known i !! runtime with
  | Some public => Ret (Some (Ok (Some public)), i)
  | None =>
      if bool_decide (runtime ∈ absent i) then Ret (Some (Ok None), i)
      else
        let! read := read_on fuel i runtime bound in
        let '(outcome, i) := read in
        match outcome with
        | None => Ret (None, i)
        | Some (Some e) => Ret (Some (Err e), i)
        | Some None =>
            match known i !! runtime with
            | Some public => Ret (Some (Ok (Some public)), i)
            | None =>
                let misses := if (maxAbsent <=? Z.of_nat (size (absent i)))%Z then ∅ else absent i in
                Ret (Some (Ok None), mkIndex (through i) (known i) ({[runtime]} ∪ misses))
            end
        end
  end.

(** ** What a source promises *)

(** A position that has a next one. *)
Definition is_position (z : Z) : Prop := (0 ≤ z < two64 - 1)%Z.

(** A source of the mappings [records], each at its position: a read gives those
    between its two positions, never moves back, says it is done only when nothing
    relevant to the bound is left, and is done when it cannot move. *)
Class Source (records : list (Z * Pair)) (relevant : Z → Z → Prop) (read : Z → Z → list Pair * Z * bool) : Prop := {
  source_forward after bound : is_position after →
    let '(_, position, _) := read after bound in (after ≤ position)%Z ∧ is_position position;
  source_pairs after bound : is_position after →
    let '(pairs, position, _) := read after bound in
    pairs = (filter (fun r => (after < r.1 ≤ position)%Z) records).*2;
  source_done after bound : is_position after →
    let '(_, position, finished) := read after bound in
    finished = true ∨ position = after → Forall (fun r => relevant bound r.1 → (r.1 ≤ position)%Z) records
}.

(** A command has one public identity. *)
Definition functional (records : list (Z * Pair)) : Prop :=
  ∀ r r', r ∈ records → r' ∈ records → Runtime r.2 = Runtime r'.2 → r = r'.

(** The mapping, read at once. *)
Definition public_of (records : list (Z * Pair)) runtime : option string :=
  head (omap (fun r => if bool_decide (Runtime r.2 = runtime) then Some (Public r.2) else None) records).

Lemma public_of_Some records runtime public :
  functional records →
  (public_of records runtime = Some public ↔ ∃ position, (position, mkPair runtime public) ∈ records).
Proof.
  intros Hf. unfold public_of. split.
  - intros H. apply head_Some_elem_of in H. apply list_elem_of_omap in H as ([position [r p]] & Hin & H). simpl in H.
    case_bool_decide; simplify_eq/=. eauto.
  - intros [position Hin]. destruct (omap _ records) as [|p l] eqn:Ho.
    + assert (public ∈ @nil string) as []%elem_of_nil. rewrite <-Ho. apply list_elem_of_omap. eexists. split; [exact Hin|].
      simpl. by rewrite bool_decide_true.
    + assert (p ∈ p :: l) as Hp by left. rewrite <-Ho in Hp. apply list_elem_of_omap in Hp as ([position' [r p']] & Hin' & H).
      simpl in H. case_bool_decide; simplify_eq/=. by pose proof (Hf _ _ Hin Hin' eq_refl) as [= _ ->].
Qed.

(** A history of questions, each of a runtime command at a bound. *)
Fixpoint ask (fuel : nat) i (questions : list (string * Z)) : prog IE (list (option (res (option string))) * Index) :=
  match questions with
  | [] => Ret ([], i)
  | (runtime, bound) :: questions =>
      let! first := PublicCommand fuel i runtime bound in
      let! rest := ask fuel first.2 questions in
      Ret (first.1 :: rest.1, rest.2)
  end.

Section index.
Context (records : list (Z * Pair)) (relevant : Z → Z → Prop) (read : Z → Z → list Pair * Z * bool).
Context `{Hsource : !Source records relevant read}.
Context (Hfunctional : functional records).

(** A read fails, or answers what the source holds. *)
Definition honest (_ : list (obs IE)) (o : obs IE) : Prop :=
  match o with Obs e x =>
    match e in IE X return X → Prop with
    | IRead after bound => fun answer => match answer with Ok a => a = read after bound | Err _ => True end
    end x end.

(** The index holds the mapping up to its position, and its misses are misses. *)
Record wf i : Prop := {
  wf_through : is_position (through i);
  wf_known : ∀ runtime public,
    known i !! runtime = Some public ↔ ∃ position, (position ≤ through i)%Z ∧ (position, mkPair runtime public) ∈ records;
  wf_absent : ∀ runtime, runtime ∈ absent i → public_of records runtime = None
}.

(** Positions start at one. *)
Context (Hpositive : Forall (fun r => (0 < r.1)%Z) records).

Lemma NewIndex_wf : wf NewIndex.
Proof.
  split; simpl; [by unfold is_position, two64| |set_solver]. intros r p. rewrite lookup_empty. split; [done|].
  intros (pos & Hle & Hin). rewrite Forall_forall in Hpositive. specialize (Hpositive _ Hin). simpl in *. lia.
Qed.

Lemma learn_known (m : gmap string string) (l : list (Z * Pair)) :
  functional l → ∀ runtime public,
  fold_left (fun m p => <[Runtime p := Public p]> m) l.*2 m !! runtime = Some public ↔
  (∃ position, (position, mkPair runtime public) ∈ l) ∨
  (m !! runtime = Some public ∧ ¬ ∃ r, r ∈ l ∧ Runtime r.2 = runtime).
Proof.
  induction l as [|[pos [r p]] l IH] using rev_ind; intros Hf runtime public.
  { simpl. split; [|intros [[? []%elem_of_nil]|[? _]]; done]. intros H. right. split; [done|]. by intros (? & ?%elem_of_nil & _). }
  rewrite fmap_app, fold_left_app. simpl. rewrite lookup_insert_Some.
  assert (functional l) as Hf' by (intros x y Hx Hy; apply Hf; apply elem_of_app; by left).
  rewrite (IH Hf'). setoid_rewrite elem_of_app. setoid_rewrite list_elem_of_singleton. split.
  - intros [[-> ->]|[Hne [[pos' Hin]|[Hm Hn]]]]; [left; eauto|left; eauto|right].
    split; [done|]. intros (x & [Hx| ->] & Hr); [naive_solver|done].
  - intros [[pos' [Hin|[= -> -> ->]]]|[Hm Hn]]; [|by left|].
    + destruct (decide (r = runtime)) as [->|Hne]; [|right; eauto]. left. split; [done|].
      assert ((pos', mkPair runtime public) ∈ l ++ [(pos, mkPair runtime p)]) as H1 by (apply elem_of_app; by left).
      assert ((pos, mkPair runtime p) ∈ l ++ [(pos, mkPair runtime p)]) as H2 by (apply elem_of_app; right; left).
      by pose proof (Hf _ _ H1 H2 eq_refl) as [= _ ->].
    + right. split; [|right; split; [done|naive_solver]]. intros ->. apply Hn. eexists. split; [by right|done].
Qed.

Lemma learn_wf i bound pairs position finished :
  wf i → read (through i) bound = (pairs, position, finished) →
  wf (learn i pairs position) ∧ through (learn i pairs position) = position ∧ (through i ≤ position)%Z ∧ is_position position.
Proof.
  intros [Ht Hk Ha] Hr. pose proof (source_forward (through i) bound Ht) as H1. pose proof (source_pairs (through i) bound Ht) as H2.
  rewrite Hr in H1, H2. destruct H1 as [Hle Hpos]. subst pairs.
  assert (through (learn i (filter (fun r => (through i < r.1 ≤ position)%Z) records).*2 position) = position) as Hth.
  { simpl. destruct (Z.ltb_spec (through i) position); lia. }
  split_and!; [|done..]. split; [by rewrite Hth| |done].
  intros r p. rewrite Hth. unfold learn. cbn [known]. rewrite learn_known.
  2:{ intros x y Hx%list_elem_of_filter Hy%list_elem_of_filter. apply Hfunctional; naive_solver. }
  setoid_rewrite list_elem_of_filter. rewrite Hk. split.
  - intros [(pos & (_ & Hp) & Hin)|[(pos & Hp & Hin) _]]; exists pos; simpl in *; (split; [lia|done]).
  - intros (pos & Hp & Hin). destruct (Z_lt_le_dec (through i) pos); [left; exists pos; simpl; auto|right].
    split; [eauto|]. intros ([pos' [r' p']] & ((Hlt & _) & Hin') & Hr'). simpl in *. subst r'.
    pose proof (Hfunctional _ _ Hin Hin' eq_refl) as [= <- _]. lia.
Qed.

#[local] Arguments learn : simpl never.

(** The loop ends having read all that matters, or with the source's error. *)
Lemma read_on_spec fuel i runtime bound h :
  wf i → (∀ r, r ∈ records → Runtime r.2 = runtime → relevant bound r.1) →
  safe honest (fun _ _ => True)
    (fun _ x => wf x.2 ∧ absent x.2 = absent i ∧
       match x.1 with
       | Some None => known x.2 !! runtime = public_of records runtime
       | Some (Some _) => True
       | None => (Z.of_nat fuel < two64 - through i)%Z
       end) h (read_on fuel i runtime bound).
Proof.
  intros Hw Hrel.
  revert i Hw h. induction fuel as [|fuel IH]; intros i Hw h; simpl.
  - split_and!; [done..|]. destruct (wf_through i Hw). simpl. lia.
  - intros [[[pairs position] finished]|e]; [|done]. intros Hh. simpl in Hh. symmetry in Hh. split; [done|].
    destruct (learn_wf i bound pairs position finished Hw Hh) as (Hl & Hth & Hle & Hpos).
    pose proof (source_done (through i) bound (wf_through i Hw)) as Hd. rewrite Hh in Hd.
    case_match eqn:Hstop.
    + simpl. split_and!; [done..|]. destruct (known (learn i pairs position) !! runtime) as [public|] eqn:Hkn.
      * trans (Some public); [exact Hkn|]. symmetry. apply public_of_Some; [done|]. apply (wf_known _ Hl) in Hkn as (pos & _ & Hin). eauto.
      * trans (@None string); [exact Hkn|]. destruct (public_of records runtime) as [public|] eqn:Hp; [exfalso|done]. apply public_of_Some in Hp as [pos Hin]; [|done].
        assert (known (learn i pairs position) !! runtime = Some public) as Hx; [|congruence].
        apply (wf_known _ Hl). exists pos. split; [|done]. rewrite Hth.
        assert (finished = true ∨ position = through i) as Hdone.
        { unfold learn in Hkn. cbn [known] in Hstop, Hkn. rewrite Hkn in Hstop. simpl in Hstop.
          apply orb_true_iff in Hstop as [?|Hs]; [by left|right]. destruct (Z.ltb_spec (through i) position); [done|lia]. }
        specialize (Hd Hdone). rewrite Forall_forall in Hd. apply (Hd _ Hin). by apply (Hrel _ Hin).
    + eapply safe_mono; [|apply IH; exact Hl]. intros h' [[[e|]|] i'] (H1 & H2 & H3); simpl in *; split_and!; try done.
      assert (through i < position)%Z; [|lia]. apply orb_false_iff in Hstop as [_ Hs]. destruct (Z.ltb_spec (through i) position); [done|done].
Qed.

Lemma PublicCommand_spec fuel i runtime bound h :
  wf i → (∀ r, r ∈ records → Runtime r.2 = runtime → relevant bound r.1) →
  safe honest (fun _ _ => True)
    (fun _ x => wf x.2 ∧
       match x.1 with
       | Some (Ok public) => public = public_of records runtime
       | Some (Err _) => True
       | None => (Z.of_nat fuel < two64 - through i)%Z
       end) h (PublicCommand fuel i runtime bound).
Proof.
  intros Hw Hrel. unfold PublicCommand. destruct (known i !! runtime) as [public|] eqn:Hk.
  - simpl. split; [done|]. symmetry. apply public_of_Some; [done|]. apply (wf_known _ Hw) in Hk as (pos & _ & Hin). eauto.
  - case_bool_decide as Ha; [simpl; split; [done|by rewrite (wf_absent _ Hw)]|].
    eapply safe_bind_spec; [by apply read_on_spec|]. intros h' [[[e|]|] i'] (H1 & H2 & H3); simpl in *; [done| |done].
    destruct (known i' !! runtime) as [public|] eqn:Hk'; [done|]. simpl. split; [|done]. destruct H1 as [Ht Hkn Hab].
    split; [done..|]. intros r [->%elem_of_singleton|Hr]%elem_of_union; [done|]. apply Hab. by destruct (_ <=? _)%Z; [apply elem_of_empty in Hr|].
Qed.

Lemma ask_spec fuel i questions h :
  wf i → Forall (fun q => ∀ r, r ∈ records → Runtime r.2 = q.1 → relevant q.2 r.1) questions →
  safe honest (fun _ _ => True)
    (fun _ x => wf x.2 ∧ Forall2 (fun q a => ∀ public, a = Some (Ok public) → public = public_of records q.1) questions x.1 ∧
       ((two64 ≤ Z.of_nat fuel)%Z → Forall (fun a => a ≠ None) x.1)) h (ask fuel i questions).
Proof.
  revert i h. induction questions as [|[runtime bound] questions IH]; intros i h Hw Hq; simpl; [by split_and!|].
  apply Forall_cons in Hq as [Hq Hqs]. eapply safe_bind_spec; [by apply PublicCommand_spec|].
  intros h1 [a i1] (H1 & H2); simpl in *. eapply safe_bind_spec; [by apply IH|].
  intros h2 [l i2] (H3 & H4 & H5); simpl in *. split_and!; [done| |].
  - constructor; [|done]. simpl. by intros public ->.
  - intros Hf. constructor; [|auto]. intros ->. pose proof (wf_through i Hw) as [? _]. lia.
Qed.

(** C24 The index is the mapping: whatever questions it is asked, in whatever order, and
    whatever reads fail in between, each answer it gives is the one the whole of the
    source gives, provided a command is admitted before an event at its bound names
    it; and every question is answered or refused, as a loop of reads ends before
    its positions do. *)
Theorem index_exact fuel questions t answers i
    (Hadmitted : Forall (fun q => ∀ r, r ∈ records → Runtime r.2 = q.1 → relevant q.2 r.1) questions)
    (Hhonest : relied honest [] t) (Hrun : runs (ask fuel NewIndex questions) t (answers, i)) :
  Forall2 (fun q a => ∀ public, a = Some (Ok public) → public = public_of records q.1) questions answers ∧
  ((two64 ≤ Z.of_nat fuel)%Z → Forall (fun a => a ≠ None) answers).
Proof.
  destruct (safe_runs _ _ _ _ _ _ _ (ask_spec fuel NewIndex questions [] NewIndex_wf Hadmitted) Hrun Hhonest) as [(_ & H1 & H2) _].
  done.
Qed.
End index.

(** ** The two sources *)

(** A store's records, each with the mapping it carries, if it carries one. *)
Abbreviation raw := (list (Z * option Pair)).

Definition mappings (l : raw) : list (Z * Pair) := omap (fun r => pair r.1 <$> r.2) l.

(** The loops over a page. *)
Definition page_pairs (page : raw) : list Pair := omap snd page.
Definition page_through (after : Z) (page : raw) : Z :=
  fold_left (fun position r => if (position <? r.1)%Z then r.1 else position) page after.

(** [inboxCommands.Read], over [ListOrdered]; a record without a runtime command
    carries no mapping. *)
Definition inboxCommandPage : Z := 256.

Definition inbox_Read (ListOrdered : Z → Z → raw) (after bound : Z) : list Pair * Z * bool :=
  let records := ListOrdered after inboxCommandPage in
  (page_pairs records, page_through after records, (Z.of_nat (length records) <? inboxCommandPage)%Z).

(** [JournalSource.Read], over [ReadRuntimeJournal]; a record that is no application
    prefix carries no mapping. *)
Definition journalPage : Z := 512.

Definition journal_Read (ReadRuntimeJournal : Z → Z → raw) (after bound : Z) : list Pair * Z * bool :=
  let records := ReadRuntimeJournal (u64 (after + 1)) journalPage in
  let position := page_through after records in
  (page_pairs records, position, bool_decide (records = []) || (bound <=? position)%Z).

(** What both stores document: the first records, in order, from a position on. *)
Definition page_of (store : raw) (from limit : Z) : raw := take (Z.to_nat limit) (filter (fun r => (from ≤ r.1)%Z) store).

(** A store's positions increase and start after zero. *)
Definition ordered (store : raw) : Prop :=
  StronglySorted (fun r r' => (r.1 < r'.1)%Z) store ∧ Forall (fun r => (0 < r.1)%Z ∧ is_position r.1) store.

Section sources.
Context (store : raw) (Hordered : ordered store).

Lemma page_through_le after page : (after ≤ page_through after page)%Z ∧ Forall (fun r => (r.1 ≤ page_through after page)%Z) page.
Proof.
  revert after. induction page as [|r page IH]; intros after; simpl; [split; [lia|constructor]|].
  destruct (IH (if (after <? r.1)%Z then r.1 else after)) as [H1 H2]. destruct (Z.ltb_spec after r.1); split; try lia;
    constructor; (lia || done).
Qed.

Lemma page_through_in after page : page_through after page = after ∨ ∃ r, r ∈ page ∧ page_through after page = r.1.
Proof.
  revert after. induction page as [|r page IH]; intros after; simpl; [by left|].
  destruct (IH (if (after <? r.1)%Z then r.1 else after)) as [H|(x & Hx & H)]; rewrite H.
  - destruct (after <? r.1)%Z; [right; exists r; split; [left|done]|by left].
  - right. exists x. split; [by right|done].
Qed.

(** A prefix of an ordered list is what is no later than its last. *)
Lemma take_filter (l : raw) n after :
  StronglySorted (fun r r' => (r.1 < r'.1)%Z) l → Forall (fun r => (after < r.1)%Z) l →
  take n l = filter (fun r => (r.1 ≤ page_through after (take n l))%Z) l.
Proof.
  intros Hs Ha. trans (filter (fun r => (r.1 ≤ page_through after (take n l))%Z) (take n l ++ drop n l)); [|by rewrite take_drop].
  rewrite filter_app. destruct (page_through_le after (take n l)) as [_ Hle].
  rewrite list_filter_all by done. rewrite list_filter_none; [by rewrite app_nil_r|].
  assert (∀ r r', r ∈ take n l → r' ∈ drop n l → (r.1 < r'.1)%Z) as Hlt.
  { intros r r' Hr Hr'. rewrite <-(take_drop n l) in Hs. exact (StronglySorted_app_1_elem_of _ _ _ r r' Hs Hr Hr'). }
  rewrite Forall_forall. intros r' Hr'. destruct (page_through_in after (take n l)) as [->|(r & Hr & ->)].
  - assert (r' ∈ l) as Hin by (rewrite <-(take_drop n l); apply elem_of_app; by right).
    rewrite Forall_forall in Ha. specialize (Ha r' Hin). lia.
  - specialize (Hlt r r' Hr Hr'). lia.
Qed.

Lemma sorted_filter (Q : Z * option Pair → Prop) `{∀ x, Decision (Q x)} (l : raw) :
  StronglySorted (fun r r' => (r.1 < r'.1)%Z) l → StronglySorted (fun r r' => (r.1 < r'.1)%Z) (filter Q l).
Proof.
  induction 1 as [|r l Hs IH Hr]; [constructor|]. rewrite filter_cons. case_decide; [|done]. constructor; [done|].
  rewrite Forall_forall in *. intros x [_ Hx]%list_elem_of_filter. auto.
Qed.

Lemma mappings_cons pos o (l : raw) : mappings ((pos, o) :: l) = option_list (pair pos <$> o) ++ mappings l.
Proof. unfold mappings. simpl. by destruct o. Qed.

Lemma filter_mappings (Q : Z → Prop) `{∀ x, Decision (Q x)} (l : raw) :
  filter (fun r => Q r.1) (mappings l) = mappings (filter (fun r => Q r.1) l).
Proof.
  induction l as [|[pos o] l IH]; [done|]. rewrite mappings_cons, filter_app, IH, (filter_cons _ (pos, o)).
  case_decide as HQ; rewrite ?mappings_cons; [f_equal|]; destruct o; try done; simpl; rewrite filter_cons; simpl.
  - by rewrite decide_True.
  - by rewrite decide_False.
Qed.

Lemma mappings_snd (l : raw) : (mappings l).*2 = page_pairs l.
Proof.
  induction l as [|[pos o] l IH]; [done|]. rewrite mappings_cons, fmap_app, IH. unfold page_pairs. by destruct o.
Qed.

(** A page after a position, as a read sees it. *)
Lemma page_spec after limit page :
  is_position after → page = take (Z.to_nat limit) (filter (fun r => (after < r.1)%Z) store) →
  (after ≤ page_through after page)%Z ∧ is_position (page_through after page) ∧
  page_pairs page = (filter (fun r => (after < r.1 ≤ page_through after page)%Z) (mappings store)).*2 ∧
  (Z.to_nat limit ≠ 0 → (Z.of_nat (length page) < limit)%Z ∨ page = [] →
   Forall (fun r => (r.1 ≤ page_through after page)%Z) store).
Proof.
  intros Ha Hp. destruct Hordered as [Hs Hpos]. destruct (page_through_le after page) as [Hle Hall].
  assert (page = filter (fun r => (after < r.1 ≤ page_through after page)%Z) store) as Hpage.
  { rewrite Hp at 1. rewrite (take_filter _ _ after).
    - rewrite <-Hp. rewrite list_filter_filter. apply list_filter_iff. intros r. lia.
    - by apply sorted_filter.
    - rewrite Forall_forall. by intros r [? _]%list_elem_of_filter. }
  split_and!; [done| | |].
  - destruct (page_through_in after page) as [->|(r & Hr & ->)]; [done|].
    rewrite Hpage in Hr. apply list_elem_of_filter in Hr as [_ Hr]. rewrite Forall_forall in Hpos. by apply Hpos.
  - trans (mappings (filter (fun r => (after < r.1 ≤ page_through after page)%Z) store)).*2; [by rewrite mappings_snd, <-Hpage|].
    f_equal. symmetry.
    refine (@filter_mappings (fun x => (after < x ≤ page_through after page)%Z) _ store).
  - intros Hl Hshort. assert (page = filter (fun r => (after < r.1)%Z) store) as Hwhole.
    { rewrite Hp. apply take_ge. destruct Hshort as [Hshort|Hn]; rewrite Hp in *.
      - rewrite length_take in Hshort. lia.
      - destruct (filter _ store); [simpl; lia|]. by destruct (Z.to_nat limit). }
    rewrite Forall_forall in *. intros r Hr. destruct (Z_lt_le_dec after r.1); [|lia].
    apply Hall. rewrite Hwhole. by apply list_elem_of_filter.
Qed.

(** The inbox is a source: it is done at its end, so whatever it holds is read. *)
#[export] Instance inbox_source (ListOrdered : Z → Z → raw)
    (Hlist : ∀ after limit, ListOrdered after limit = take (Z.to_nat limit) (filter (fun r => (after < r.1)%Z) store)) :
  Source (mappings store) (fun _ _ => True) (inbox_Read ListOrdered).
Proof.
  split; intros after bound Ha; unfold inbox_Read; rewrite Hlist;
    destruct (page_spec after inboxCommandPage _ Ha eq_refl) as (H1 & H2 & H3 & H4); [done..|].
  intros Hd. rewrite Forall_forall. intros [pos p] Hin _. apply list_elem_of_omap in Hin as ([pos' [p'|]] & Hin & [= <- <-]).
  assert (Forall (fun r => (r.1 ≤ page_through after (take (Z.to_nat inboxCommandPage) (filter (fun r => (after < r.1)%Z) store)))%Z) store) as Hall.
  { apply H4; [done|]. destruct Hd as [Hd|Hd]; [left; lia|right].
    destruct (take _ _) as [|r page] eqn:Hpage; [done|]. exfalso.
    assert (r ∈ r :: page) as Hr by left. rewrite <-Hpage in Hr. apply elem_of_take in Hr as (i & Hi & _).
    apply list_elem_of_lookup_2, list_elem_of_filter in Hi as [Hlt _].
    destruct (page_through_le after (r :: page)) as [_ Hle]. apply Forall_cons in Hle as [Hle _]. lia. }
  rewrite Forall_forall in Hall. by apply (Hall _ Hin).
Qed.

(** The runtime journal is a source of what lies at or below the bound. *)
#[export] Instance journal_source (ReadRuntimeJournal : Z → Z → raw)
    (Hread : ∀ from limit, ReadRuntimeJournal from limit = page_of store from limit) :
  Source (mappings store) (fun bound position => (position ≤ bound)%Z) (journal_Read ReadRuntimeJournal).
Proof.
  assert (∀ after, is_position after →
    ReadRuntimeJournal (u64 (after + 1)) journalPage = take (Z.to_nat journalPage) (filter (fun r => (after < r.1)%Z) store)) as Hpage.
  { intros after Ha. rewrite Hread. unfold page_of. rewrite u64_small by (unfold is_u64, is_position in *; lia). f_equal.
    apply list_filter_iff. intros r. lia. }
  split; intros after bound Ha; unfold journal_Read; rewrite Hpage by done;
    destruct (page_spec after journalPage _ Ha eq_refl) as (H1 & H2 & H3 & H4); [done..|].
  intros Hd. rewrite Forall_forall. intros [pos p] Hin Hb. simpl in *.
  apply list_elem_of_omap in Hin as ([pos' [p'|]] & Hin & [= <- <-]).
  set (page := take _ _) in *. assert (page = [] ∨ (bound ≤ page_through after page)%Z) as [Hn|?]; [| |lia].
  { destruct Hd as [[Hn%bool_decide_eq_true|Hn%Z.leb_le]%orb_true_iff|Hd]; [by left|by right|left].
    destruct page as [|r l] eqn:Hl; [done|]. exfalso. assert (r ∈ page) as Hr by (rewrite Hl; left).
    apply elem_of_take in Hr as (i & Hi & _). apply list_elem_of_lookup_2, list_elem_of_filter in Hi as [Hlt _].
    destruct (page_through_le after (r :: l)) as [_ Hle]. apply Forall_cons in Hle as [Hle _]. lia. }
  assert (Forall (fun r => (r.1 ≤ page_through after page)%Z) store) as Hall by (apply H4; [done|by right]).
  rewrite Forall_forall in Hall. by apply (Hall _ Hin).
Qed.
End sources.

(** ** Witnesses

    Two commands in a journal, and a machine's. *)
Definition demo_store : raw := [(1%Z, None); (2%Z, Some (mkPair "r1" "c1")); (5%Z, Some (mkPair "r2" "c2"))].
Definition demo_questions : list (string * Z) := [("r2", 5%Z); ("machine", 5%Z); ("r1", 5%Z); ("machine", 5%Z)].

Definition demo_env : handler IE unit := fun X e u =>
  match e in IE X return X * unit with
  | IRead after bound => (Ok (journal_Read (page_of demo_store) after bound), u)
  end.

Definition demo_trace : list (obs IE) := Eval vm_compute in (exec demo_env (ask 3 NewIndex demo_questions) tt).2.
Definition demo_index : Index := (exec demo_env (ask 3 NewIndex demo_questions) tt).1.1.2.

Lemma demo_ordered : ordered demo_store.
Proof. split; unfold demo_store; repeat (constructor; simpl; try (unfold is_position, two64; lia)). Qed.

Lemma index_exact_witness :
  Forall2 (fun q a => ∀ public, a = Some (Ok public) → public = public_of (mappings demo_store) q.1) demo_questions
    [Some (Ok (Some "c2")); Some (Ok None); Some (Ok (Some "c1")); Some (Ok None)].
Proof.
  refine (proj1 (index_exact (mappings demo_store) (fun bound position => (position ≤ bound)%Z) (journal_Read (page_of demo_store))
    (Hsource := journal_source demo_store demo_ordered (page_of demo_store) (fun _ _ => eq_refl)) _ _ 3 demo_questions demo_trace _ demo_index _ _ _)).
  - intros r r' Hr Hr' Heq. unfold mappings, demo_store in *. simpl in *. set_unfold.
    destruct Hr as [-> | [-> | []]], Hr' as [-> | [-> | []]]; done.
  - repeat constructor.
  - repeat constructor; simpl; intros r Hr; unfold mappings, demo_store in Hr; simpl in Hr; set_unfold; destruct Hr as [-> | [-> | []]]; simpl; lia.
  - intros t1 o t2 Ht. unfold demo_trace in Ht.
    repeat (destruct t1 as [|? t1]; simplify_eq/=; [vm_compute; reflexivity|]). by destruct t1.
  - refine (exec_runs demo_env _ tt _ tt _ _). vm_compute. reflexivity.
Defined.
End CommandIndex.
