(* ===== verification/Json.v ===== *)
(** * Json.v: the standard library's JSON, on bytes

    What the host uses of [encoding/json]: the scanner with its stack of open objects
    and arrays, [Valid], the compaction [Marshal] applies to a raw message, the
    encoding of a string, the decoding of a string, and the [Decoder]'s reading of one
    value.  A text is a list of bytes; the scanner is a function on a state and a byte,
    so every definition is structural and executable.                            *)
From Stdlib Require Import ZArith Ascii.
From stdpp Require Import base list strings gmap.
From S2P Require Import Prelude.

Module Json.

Abbreviation bytes := (list ascii).
Implicit Types (c : ascii) (l rest : bytes).

Definition s2b := String.list_ascii_of_string.

Definition backslash : ascii := "092"%char.
Definition quote : ascii := "034"%char.
Definition quoted l : bytes := [quote] ++ l ++ [quote].
Definition code c : nat := nat_of_ascii c.

Definition is_digit c : bool := (48 <=? code c) && (code c <=? 57).
Definition is_hex c : bool := is_digit c || ((97 <=? code c) && (code c <=? 102)) || ((65 <=? code c) && (code c <=? 70)).
Definition isSpace c : bool := bool_decide (code c ∈ [32; 9; 13; 10]).
Definition is_short c : bool :=
  bool_decide (c ∈ [quote; backslash; "/"%char; "b"%char; "f"%char; "n"%char; "r"%char; "t"%char]).

(** ** The scanner *)

Inductive parse := parseObjectKey | parseObjectValue | parseArrayValue.

Inductive step_fn :=
| BeginValueOrEmpty | BeginValue | BeginStringOrEmpty | BeginString | EndValue | EndTop
| InString | InStringEsc | InStringEscU (n : nat)
| Neg | Num1 | Num0 | Dot | Dot0 | NumE | ESign | E0 | Literal (rest : bytes) | Failed.

#[export] Instance step_fn_eq_dec : EqDecision step_fn.
Proof. solve_decision. Defined.

Record scanner := mkScanner { step : step_fn; parseState : list parse }.

Inductive opcode :=
| scanContinue | scanBeginLiteral | scanBeginObject | scanObjectKey | scanObjectValue | scanEndObject
| scanBeginArray | scanArrayValue | scanEndArray | scanSkipSpace | scanEnd.

#[export] Instance opcode_eq_dec : EqDecision opcode.
Proof. solve_decision. Defined.

Definition maxNestingDepth : nat := Z.to_nat 10000.

Definition reset : scanner := mkScanner BeginValue [].

(** [pushParseState]. *)
Definition push (next : step_fn) (p : parse) (ps : list parse) (op : opcode) : option (scanner * opcode) :=
  if length ps <? maxNestingDepth then Some (mkScanner next (p :: ps), op) else None.

(** [popParseState]. *)
Definition pop (ps : list parse) : scanner :=
  mkScanner (match tail ps with [] => EndTop | _ => EndValue end) (tail ps).

(** [stateEndTop]: the complaint about a byte after the value comes with the next. *)
Definition stateEndTop c : scanner * opcode := (mkScanner (if isSpace c then EndTop else Failed) [], scanEnd).

(** [stateEndValue]. *)
Definition stateEndValue (ps : list parse) c : option (scanner * opcode) :=
  match ps with
  | [] => Some (stateEndTop c)
  | p :: below =>
      if isSpace c then Some (mkScanner EndValue ps, scanSkipSpace)
      else match p with
           | parseObjectKey =>
               if Ascii.eqb c ":" then Some (mkScanner BeginValue (parseObjectValue :: below), scanObjectKey) else None
           | parseObjectValue =>
               if Ascii.eqb c "," then Some (mkScanner BeginString (parseObjectKey :: below), scanObjectValue)
               else if Ascii.eqb c "}" then Some (pop ps, scanEndObject) else None
           | parseArrayValue =>
               if Ascii.eqb c "," then Some (mkScanner BeginValue ps, scanArrayValue)
               else if Ascii.eqb c "]" then Some (pop ps, scanEndArray) else None
           end
  end.

(** [stateBeginValue]. *)
Definition stateBeginValue (next : step_fn) (ps : list parse) c : option (scanner * opcode) :=
  if isSpace c then Some (mkScanner next ps, scanSkipSpace)
  else if Ascii.eqb c "{" then push BeginStringOrEmpty parseObjectKey ps scanBeginObject
  else if Ascii.eqb c "[" then push BeginValueOrEmpty parseArrayValue ps scanBeginArray
  else if Ascii.eqb c quote then Some (mkScanner InString ps, scanBeginLiteral)
  else if Ascii.eqb c "-" then Some (mkScanner Neg ps, scanBeginLiteral)
  else if Ascii.eqb c "0" then Some (mkScanner Num0 ps, scanBeginLiteral)
  else if Ascii.eqb c "t" then Some (mkScanner (Literal (s2b "rue")) ps, scanBeginLiteral)
  else if Ascii.eqb c "f" then Some (mkScanner (Literal (s2b "alse")) ps, scanBeginLiteral)
  else if Ascii.eqb c "n" then Some (mkScanner (Literal (s2b "ull")) ps, scanBeginLiteral)
  else if is_digit c then Some (mkScanner Num1 ps, scanBeginLiteral)
  else None.

(** [stateBeginString]. *)
Definition stateBeginString (next : step_fn) (ps : list parse) c : option (scanner * opcode) :=
  if isSpace c then Some (mkScanner next ps, scanSkipSpace)
  else if Ascii.eqb c quote then Some (mkScanner InString ps, scanBeginLiteral) else None.

(** [step]: a byte, by the current function; [None] is [scanError]. *)
Definition step1 (s : scanner) c : option (scanner * opcode) :=
  let ps := parseState s in
  let continue next := Some (mkScanner next ps, scanContinue) in
  match step s with
  | BeginValueOrEmpty => if negb (isSpace c) && Ascii.eqb c "]" then stateEndValue ps c else stateBeginValue BeginValueOrEmpty ps c
  | BeginValue => stateBeginValue BeginValue ps c
  | BeginStringOrEmpty =>
      if negb (isSpace c) && Ascii.eqb c "}" then stateEndValue (parseObjectValue :: tail ps) c
      else stateBeginString BeginStringOrEmpty ps c
  | BeginString => stateBeginString BeginString ps c
  | EndValue => stateEndValue ps c
  | EndTop => Some (stateEndTop c)
  | InString =>
      if Ascii.eqb c quote then continue EndValue
      else if Ascii.eqb c backslash then continue InStringEsc
      else if code c <? 32 then None else continue InString
  | InStringEsc =>
      if is_short c then continue InString
      else if Ascii.eqb c "u" then continue (InStringEscU 4) else None
  | InStringEscU n => if is_hex c then continue (if n =? 1 then InString else InStringEscU (pred n)) else None
  | Neg => if Ascii.eqb c "0" then continue Num0 else if is_digit c then continue Num1 else None
  | Num1 =>
      if is_digit c then continue Num1
      else if Ascii.eqb c "." then continue Dot
      else if Ascii.eqb c "e" || Ascii.eqb c "E" then continue NumE else stateEndValue ps c
  | Num0 =>
      if Ascii.eqb c "." then continue Dot
      else if Ascii.eqb c "e" || Ascii.eqb c "E" then continue NumE else stateEndValue ps c
  | Dot => if is_digit c then continue Dot0 else None
  | Dot0 =>
      if is_digit c then continue Dot0
      else if Ascii.eqb c "e" || Ascii.eqb c "E" then continue NumE else stateEndValue ps c
  | NumE => if Ascii.eqb c "+" || Ascii.eqb c "-" then continue ESign else if is_digit c then continue E0 else None
  | ESign => if is_digit c then continue E0 else None
  | E0 => if is_digit c then continue E0 else stateEndValue ps c
  | Literal [] => None
  | Literal [d] => if Ascii.eqb c d then continue EndValue else None
  | Literal (d :: more) => if Ascii.eqb c d then continue (Literal more) else None
  | Failed => None
  end.

(** [eof]: the value is whole, trailing space given. *)
Definition eof (s : scanner) : bool :=
  match step s with
  | EndTop => true
  | Failed => false
  | _ => match step1 s " " with Some (s, _) => bool_decide (step s = EndTop) | None => false end
  end.

Fixpoint scan (s : scanner) l : option scanner :=
  match l with
  | [] => Some s
  | c :: l => r ← step1 s c; scan r.1 l
  end.

Lemma scan_app s l k : scan s (l ++ k) = t ← scan s l; scan t k.
Proof. revert s. induction l as [|c l IH]; intros s; [done|]. simpl. destruct (step1 s c); simpl; auto. Qed.

(** [json.Valid]. *)
Definition Valid l : bool := match scan reset l with Some s => eof s | None => false end.

(** ** Compaction

    [appendCompact] with escaping, as [json.Marshal] of a raw message applies it;
    [skip] bytes were escaped with their first. *)
Definition is_skip (op : opcode) : bool := match op with scanSkipSpace | scanEnd => true | _ => false end.

Definition hexdigit (n : nat) : ascii := default "0"%char (s2b "0123456789abcdef" !! n).

Definition html c : bool := Ascii.eqb c "<" || Ascii.eqb c ">" || Ascii.eqb c "&".

Definition u00 c : bytes := [backslash; "u"%char; "0"%char; "0"%char; hexdigit (code c / 16); hexdigit (code c mod 16)].

(** U+2028 and U+2029 at the front, and which. *)
Definition line_separator l : option ascii :=
  match l with
  | a :: b :: c :: _ =>
      if (code a =? 0xE2) && (code b =? 0x80) && ((code c =? 0xA8) || (code c =? 0xA9)) then Some c else None
  | _ => None
  end.

Definition u202 c : bytes := [backslash; "u"%char; "2"%char; "0"%char; "2"%char; hexdigit (code c mod 16)].

Fixpoint compact_from (s : scanner) (skip : nat) l : option bytes :=
  match l with
  | [] => if eof s then Some [] else None
  | c :: rest =>
      r ← step1 s c;
      match skip with
      | S skip => compact_from r.1 skip rest
      | O =>
          match line_separator l with
          | Some last => app (u202 last) <$> compact_from r.1 2 rest
          | None => app (if html c then u00 c else if is_skip r.2 then [] else [c]) <$> compact_from r.1 0 rest
          end
      end
  end.

Definition compact l : option bytes := compact_from reset 0 l.

(** ** Strings *)

(** The length of the well-formed UTF-8 sequence at the front, [None] when it is not. *)
Definition rune_size l : option nat :=
  match l with
  | [] => None
  | c1 :: l1 =>
      if in_range 0 0x7F c1 then Some 1
      else match l1 with
      | [] => None
      | c2 :: l2 =>
          if in_range 0xC2 0xDF c1 then (if in_range 0x80 0xBF c2 then Some 2 else None)
          else match l2 with
          | [] => None
          | c3 :: l3 =>
              if in_range 0xE0 0xEF c1 then
                if in_range (if in_range 0xE0 0xE0 c1 then 0xA0 else 0x80) (if in_range 0xED 0xED c1 then 0x9F else 0xBF) c2
                   && in_range 0x80 0xBF c3 then Some 3 else None
              else match l3 with
              | [] => None
              | c4 :: _ =>
                  if in_range 0xF0 0xF4 c1 &&
                     in_range (if in_range 0xF0 0xF0 c1 then 0x90 else 0x80) (if in_range 0xF4 0xF4 c1 then 0x8F else 0xBF) c2
                     && in_range 0x80 0xBF c3 && in_range 0x80 0xBF c4 then Some 4 else None
              end
          end
      end
  end.

(** The encoding of an ASCII byte, HTML escaped. *)
Definition encode_ascii c : bytes :=
  if Ascii.eqb c quote || Ascii.eqb c backslash then [backslash; c]
  else if code c =? 8 then [backslash; "b"%char]
  else if code c =? 12 then [backslash; "f"%char]
  else if code c =? 10 then [backslash; "n"%char]
  else if code c =? 13 then [backslash; "r"%char]
  else if code c =? 9 then [backslash; "t"%char]
  else if (code c <? 32) || html c then u00 c
  else [c].

(** [appendString]'s loop; [skip] bytes belong to the sequence before. *)
Fixpoint encode_from (skip : nat) l : bytes :=
  match l with
  | [] => []
  | c :: rest =>
      match skip with
      | S skip => encode_from skip rest
      | O =>
          if in_range 0 0x7F c then encode_ascii c ++ encode_from 0 rest
          else match line_separator l with
               | Some last => u202 last ++ encode_from 2 rest
               | None => match rune_size l with
                         | None => [backslash] ++ s2b "ufffd" ++ encode_from 0 rest
                         | Some n => take n l ++ encode_from (pred n) rest
                         end
               end
      end
  end.

(** [json.Marshal] of a string. *)
Definition encode l : bytes := [quote] ++ encode_from 0 l ++ [quote].

(** ** Decoding *)

Definition hex_value c : N :=
  let n := N_of_ascii c in
  (if n <=? 57 then n - 48 else if n <=? 70 then n - 55 else n - 87)%N.

(** [getu4], past the backslash and the [u]. *)
Definition getu4 l : option N :=
  match l with
  | a :: b :: c :: d :: _ =>
      if forallb is_hex [a; b; c; d]
      then Some (hex_value a * 4096 + hex_value b * 256 + hex_value c * 16 + hex_value d)%N else None
  | _ => None
  end.

Definition RuneError : N := 0xFFFD.
Definition is_surrogate (r : N) : bool := ((0xD800 <=? r) && (r <? 0xE000))%N.

(** [utf16.DecodeRune]. *)
Definition DecodeRune (r1 r2 : N) : N :=
  (if (0xD800 <=? r1) && (r1 <? 0xDC00) && (0xDC00 <=? r2) && (r2 <? 0xE000)
   then (r1 - 0xD800) * 1024 + (r2 - 0xDC00) + 0x10000 else RuneError)%N.

(** [utf8.EncodeRune], of a rune that is no surrogate. *)
Definition EncodeRune (r : N) : bytes :=
  let tail (n : N) := ascii_of_N (0x80 + n mod 64)%N in
  if (r <? 0x80)%N then [ascii_of_N r]
  else if (r <? 0x800)%N then [ascii_of_N (0xC0 + r / 64)%N; tail r]
  else if (r <? 0x10000)%N then [ascii_of_N (0xE0 + r / 4096)%N; tail (r / 64)%N; tail r]
  else [ascii_of_N (0xF0 + r / 262144)%N; tail (r / 4096)%N; tail (r / 64)%N; tail r].

(** The rune of a [\u] escape whose digits begin [l], and how many bytes it takes. *)
Definition escaped_rune l : N * nat :=
  match getu4 l with
  | None => (RuneError, 0)
  | Some r =>
      if is_surrogate r then
        match drop 4 l with
        | b :: u :: more =>
            match (if Ascii.eqb b backslash && Ascii.eqb u "u" then getu4 more else None) with
            | Some r2 => if (DecodeRune r r2 =? RuneError)%N then (RuneError, 4) else (DecodeRune r r2, 10)
            | None => (RuneError, 4)
            end
        | _ => (RuneError, 4)
        end
      else (r, 4)
  end.

Definition short_escape c : ascii :=
  if Ascii.eqb c "b" then "008" else if Ascii.eqb c "f" then "012" else if Ascii.eqb c "n" then "010"
  else if Ascii.eqb c "r" then "013" else if Ascii.eqb c "t" then "009" else c.

(** [unquote] of a literal's content, up to its closing quote. *)
Fixpoint unquote_from (skip : nat) l : bytes :=
  match l with
  | [] => []
  | c :: rest =>
      match skip with
      | S skip => unquote_from skip rest
      | O =>
          if Ascii.eqb c quote then []
          else if Ascii.eqb c backslash then
            match rest with
            | [] => []
            | e :: more =>
                if Ascii.eqb e "u" then EncodeRune (escaped_rune more).1 ++ unquote_from (S (escaped_rune more).2) rest
                else short_escape e :: unquote_from 1 rest
            end
          else match rune_size l with
               | None => EncodeRune RuneError ++ unquote_from 0 rest
               | Some n => take n l ++ unquote_from (pred n) rest
               end
      end
  end.

Definition unquote (literal : bytes) : bytes := unquote_from 0 (tail literal).

Fixpoint skip_space l : bytes :=
  match l with
  | c :: rest => if isSpace c then skip_space rest else l
  | [] => []
  end.

(** [Decoder.readValue]: the value at the front and what follows it. *)
Fixpoint read_from (s : scanner) l : option (bytes * bytes) :=
  match l with
  | [] => match step1 s " " with Some (_, scanEnd) => Some ([], []) | _ => None end
  | c :: rest =>
      r ← step1 s c;
      match r.2 with
      | scanEnd => Some ([], l)
      | scanEndObject | scanEndArray =>
          if bool_decide (parseState r.1 = []) then Some ([c], rest)
          else vr ← read_from r.1 rest; Some (c :: vr.1, vr.2)
      | _ => vr ← read_from r.1 rest; Some (c :: vr.1, vr.2)
      end
  end.

Definition readValue l : option (bytes * bytes) := read_from reset (skip_space l).

(** [json.Unmarshal] of a string: [null] leaves it empty, and another value is refused. *)
Definition unmarshal_string l : option bytes :=
  if Valid l then
    match skip_space l with
    | c :: _ => if Ascii.eqb c quote then Some (unquote (skip_space l)) else if Ascii.eqb c "n" then Some [] else None
    | [] => None
    end
  else None.

(** A key written with an escape is the key. *)
Example unquote_escape : unquote ([quote] ++ s2b "c" ++ [backslash] ++ s2b "u0061use" ++ [quote]) = s2b "cause".
Proof. by vm_compute. Qed.

Example valid_samples :
  Valid (s2b "{}") = true ∧ Valid (s2b " [1, -2.5e-3, true] ") = true ∧ Valid (s2b "[01]") = false ∧
  Valid (s2b "{},") = false ∧ compact (s2b " [1, 2] ") = Some (s2b "[1,2]").
Proof. by vm_compute. Qed.
End Json.
