(* ===== verification/Canonical.v ===== *)
(** * Canonical.v: canonical JSON, read left to right

    [canonical] of [internal/publicbody/publicbody.go] compares a body with its own
    compaction.  Here it is proved equivalent to one pass of an automaton over the
    body, [plain], which is how the replacement of an identity is shown to keep a body
    canonical; and the encoding of any string is shown to be content the automaton
    accepts inside a string.                                                    *)
From Stdlib Require Import ZArith Ascii.
From stdpp Require Import base list strings gmap.
From S2P Require Import Prelude Json.

Module Canonical.
Import Json.

Implicit Types (c : ascii) (l body : bytes) (s : scanner) (q : nat).

(** [canonical]. *)
Definition canonical body : bool := negb (bool_decide (body = [])) && Valid body && bool_decide (compact body = Some body).

(** ** One pass

    How much of a line separator's three bytes has just been read. *)
Definition separator_step q c : option nat :=
  if code c =? 0xE2 then Some 1
  else match q with
       | 1 => Some (if code c =? 0x80 then 2 else 0)
       | 2 => if (code c =? 0xA8) || (code c =? 0xA9) then None else Some 0
       | _ => Some 0
       end.

(** A byte that compaction leaves as it is. *)
Definition plain_step q s c : option (nat * scanner) :=
  r ← step1 s c; q' ← separator_step q c;
  if html c || is_skip r.2 then None else Some (q', r.1).

Fixpoint plain q s l : option (nat * scanner) :=
  match l with
  | [] => Some (q, s)
  | c :: l => r ← plain_step q s c; plain r.1 r.2 l
  end.

Lemma plain_app q s l k : plain q s (l ++ k) = r ← plain q s l; plain r.1 r.2 k.
Proof. revert q s. induction l as [|c l IH]; intros q s; [done|]. simpl. destruct (plain_step q s c) as [[? ?]|]; simpl; auto. Qed.

Lemma plain_scan q s l r : plain q s l = Some r → scan s l = Some r.2.
Proof.
  revert q s. induction l as [|c l IH]; intros q s; [by intros [= <-]|]. simpl. unfold plain_step.
  destruct (step1 s c) as [[s1 op]|]; [|done]. simpl. destruct (separator_step q c) as [q1|]; [|done]. simpl.
  destruct (_ || _); [done|]. simpl. eauto.
Qed.

(** ** Compaction is the identity exactly on plain texts *)

(** Bytes that escaping removes, and those it turns a byte into do not have. *)
Definition escapable c : bool := html c || (code c =? 0xE2).
Definition weight l : nat := length (filter (fun c => escapable c = true) l).

Lemma weight_cons c l : weight (c :: l) = (if escapable c then 1 else 0) + weight l.
Proof. unfold weight. rewrite filter_cons. case_decide as H; destruct (escapable c); simpl; congruence. Qed.

Lemma weight_nil : weight [] = 0.
Proof. done. Qed.

Lemma weight_app l k : weight (l ++ k) = weight l + weight k.
Proof. unfold weight. by rewrite filter_app, length_app. Qed.

Lemma hexdigit_weight n : escapable (hexdigit n) = false.
Proof.
  unfold hexdigit. destruct (decide (n < 16)) as [H|H]; [|by rewrite lookup_ge_None_2 by (simpl; lia)].
  do 16 (destruct n as [|n]; [done|]). lia.
Qed.

Lemma weight_u00 c : weight (u00 c) = 0.
Proof. unfold u00. rewrite !weight_cons, !hexdigit_weight. done. Qed.

Lemma weight_u202 c : weight (u202 c) = 0.
Proof. unfold u202. rewrite !weight_cons, !hexdigit_weight. done. Qed.

(** The bytes escaped, and those dropped, in a compaction. *)
Fixpoint escaped s (skip : nat) l : nat :=
  match l with
  | [] => 0
  | c :: rest =>
      match step1 s c with
      | None => 0
      | Some r =>
          match skip with
          | S skip => escaped r.1 skip rest
          | O => match line_separator l with
                 | Some _ => S (escaped r.1 2 rest)
                 | None => (if html c then 1 else 0) + escaped r.1 0 rest
                 end
          end
      end
  end.

Lemma compact_weight s skip l out :
  compact_from s skip l = Some out → weight out + escaped s skip l ≤ weight l.
Proof.
  revert s skip out. induction l as [|c l IH]; intros s skip out.
  - simpl. destruct (eof s); [|done]. by intros [= <-].
  - cbn [compact_from escaped]. rewrite weight_cons. destruct (step1 s c) as [r|]; [|done]. cbn [mbind option_bind].
    destruct skip as [|skip]; [|intros H; apply IH in H; lia].
    destruct (line_separator (c :: l)) as [last|] eqn:Hsep.
    + intros (o & Ho & ->)%fmap_Some. apply IH in Ho.
      rewrite weight_app, weight_u202. unfold line_separator in Hsep. destruct l as [|b [|d l]]; try done.
      destruct (Nat.eqb_spec (code c) 226) as [Hc|]; [|done]. unfold escapable. rewrite Hc, orb_true_r. cbn in *. lia.
    + intros (o & Ho & ->)%fmap_Some. apply IH in Ho. rewrite weight_app.
      destruct (html c) eqn:Hh; [rewrite weight_u00; unfold escapable; rewrite Hh; cbn [orb]; lia|].
      destruct (is_skip r.2); rewrite ?weight_cons, ?weight_nil; lia.
Qed.

Lemma compact_length s l out :
  compact_from s 0 l = Some out → escaped s 0 l = 0 → length out ≤ length l.
Proof.
  revert s out. induction l as [|c l IH]; intros s out.
  - simpl. destruct (eof s); [|done]. by intros [= <-].
  - cbn [compact_from escaped]. destruct (step1 s c) as [r|]; [|done]. cbn [mbind option_bind].
    destruct (line_separator (c :: l)) as [last|]; [done|].
    intros (o & Ho & ->)%fmap_Some He.
    destruct (html c); [done|]. specialize (IH _ _ Ho He). destruct (is_skip r.2); simpl; lia.
Qed.

(** What is left of the separator automaton's states by the bytes to come. *)
Definition unseparated q l : Prop :=
  match q with
  | 1 => match l with b :: c :: _ => code b = 0x80 → code c ≠ 0xA8 ∧ code c ≠ 0xA9 | _ => True end
  | 2 => match l with c :: _ => code c ≠ 0xA8 ∧ code c ≠ 0xA9 | _ => True end
  | _ => True
  end.

Lemma compact_plain s l out q :
  compact_from s 0 l = Some out → escaped s 0 l = 0 → length out = length l → unseparated q l →
  ∃ r, plain q s l = Some r ∧ eof r.2 = true ∧ out = l.
Proof.
  revert s out q. induction l as [|c l IH]; intros s out q.
  - simpl. destruct (eof s) eqn:He; [|done]. intros [= <-] _ _ _. exists (q, s). done.
  - cbn [compact_from escaped plain]. unfold plain_step. destruct (step1 s c) as [r|]; [|done]. cbn [mbind option_bind].
    destruct (line_separator (c :: l)) as [last|] eqn:Hsep; [done|].
    intros (o & Ho & ->)%fmap_Some He Hlen Hu. destruct (html c); [done|]. cbn [Nat.add] in He.
    pose proof (compact_length _ _ _ Ho He) as Hle. destruct (is_skip r.2); [simpl in Hlen; lia|].
    simpl in Hlen. injection Hlen as Hlen. cbn [orb].
    assert (∃ q', separator_step q c = Some q' ∧ unseparated q' l) as (q' & -> & Hq').
    { unfold separator_step. destruct (Nat.eqb_spec (code c) 226) as [Hc|Hc].
      - exists 1. split; [done|]. unfold unseparated, line_separator in *. destruct l as [|b [|d l]]; try done.
        rewrite Hc in Hsep. intros Hb. rewrite Hb in Hsep. cbn in Hsep.
        destruct (Nat.eqb_spec (code d) 168), (Nat.eqb_spec (code d) 169); done.
      - destruct q as [|[|[|q]]]; [by exists 0| | |by exists 0].
        + destruct (Nat.eqb_spec (code c) 128) as [H|H]; [|by exists 0]. exists 2. split; [done|].
          simpl in *. destruct l; auto.
        + destruct Hu as [H1 H2]. exists 0. split; [|done].
          by destruct (Nat.eqb_spec (code c) 168), (Nat.eqb_spec (code c) 169). }
    cbn [mbind option_bind]. destruct (IH _ _ q' Ho He Hlen Hq') as (r' & Hr & Heof & ->). eauto.
Qed.

Lemma plain_compact q s l r :
  plain q s l = Some r → eof r.2 = true → unseparated q l ∧ compact_from s 0 l = Some l.
Proof.
  revert q s. induction l as [|c l IH]; intros q s; cbn [plain compact_from].
  - intros [= <-] He. simpl in *. rewrite He. split; [|done]. by destruct q as [|[|[|q]]].
  - unfold plain_step. destruct (step1 s c) as [[s1 op]|]; [|done]. cbn [mbind option_bind fst snd].
    destruct (separator_step q c) as [q'|] eqn:Hq; [|done]. cbn [mbind option_bind].
    destruct (html c) eqn:Hh; [done|]. destruct (is_skip op) eqn:Hs; [done|]. cbn [orb fst snd]. intros Hp He.
    destruct (IH q' s1 Hp He) as [Hu ->]. assert (line_separator (c :: l) = None) as ->.
    { unfold line_separator, separator_step in *. destruct l as [|b [|d l]]; try done.
      destruct (Nat.eqb_spec (code c) 226); [|done]. destruct (Nat.eqb_spec (code b) 128); [|done]. cbn [andb].
      injection Hq as <-. simpl in Hu. destruct (Hu ltac:(done)).
      by destruct (Nat.eqb_spec (code d) 168), (Nat.eqb_spec (code d) 169). }
    split; [|done]. unfold separator_step in Hq. destruct (Nat.eqb_spec (code c) 226) as [Hc|Hc].
    + destruct q as [|[|[|q]]]; try done; simpl; [|rewrite Hc; done]. destruct l; [done|]. by rewrite Hc.
    + destruct q as [|[|[|q]]]; try done; simpl.
      * destruct (Nat.eqb_spec (code c) 128) as [H|H]; [|by destruct l]. injection Hq as <-. by destruct l.
      * by destruct (Nat.eqb_spec (code c) 168), (Nat.eqb_spec (code c) 169).
Qed.

(** A body is canonical when one pass finds nothing to change and a whole value. *)
Definition plain_whole body : Prop := ∃ r, plain 0 reset body = Some r ∧ eof r.2 = true.

Lemma canonical_iff body : canonical body = true ↔ plain_whole body.
Proof.
  unfold canonical. rewrite !andb_true_iff, negb_true_iff, bool_decide_eq_false, bool_decide_eq_true. split.
  - intros [_ Hc]. pose proof (compact_weight _ _ _ _ Hc) as Hw.
    destruct (compact_plain _ _ _ 0 Hc ltac:(lia) eq_refl I) as (r & ? & ? & _). by exists r.
  - intros (r & Hp & He). destruct (plain_compact _ _ _ _ Hp He) as [_ Hc]. split_and!; [|by unfold Valid; rewrite (plain_scan _ _ _ _ Hp)|exact Hc].
    intros ->. simpl in Hp. simplify_eq/=.
Qed.

(** ** The encoding of a string is content *)

Ltac all_chars c := destruct c as [[] [] [] [] [] [] [] []].

Lemma in_range_code lo hi c : in_range lo hi c = true ↔ (lo ≤ N.of_nat (code c) ≤ hi)%N.
Proof.
  unfold in_range, code. rewrite andb_true_iff, !N.leb_le. unfold nat_of_ascii. by rewrite N2Nat.id.
Qed.

Lemma code_inj c d : code c = code d → c = d.
Proof. intros H. rewrite <-(ascii_nat_embedding c), <-(ascii_nat_embedding d). unfold code in H. congruence. Qed.

Lemma eqb_code c d : Ascii.eqb c d = (code c =? code d).
Proof.
  destruct (Ascii.eqb_spec c d) as [->|Hne]; [by rewrite Nat.eqb_refl|]. symmetry. apply Nat.eqb_neq.
  intros H. by apply Hne, code_inj.
Qed.

(** A byte over [0x7F] inside a string. *)
Lemma plain_high q ps c q' :
  128 ≤ code c → separator_step q c = Some q' → plain_step q (mkScanner InString ps) c = Some (q', mkScanner InString ps).
Proof.
  intros Hc Hq. unfold plain_step, step1. cbn [step parseState]. rewrite !eqb_code.
  rewrite (proj2 (Nat.eqb_neq (code c) (code quote))) by (vm_compute (code quote); lia).
  rewrite (proj2 (Nat.eqb_neq (code c) (code backslash))) by (vm_compute (code backslash); lia).
  rewrite (proj2 (Nat.ltb_ge (code c) 32)) by lia. cbn [mbind option_bind fst snd]. rewrite Hq. cbn [mbind option_bind].
  unfold html. rewrite !eqb_code. cbn [code]. change (code "<") with 60. change (code ">") with 62. change (code "&") with 38.
  by rewrite !(proj2 (Nat.eqb_neq _ _)) by lia.
Qed.

Lemma separator_reset q c : code c ≠ 0xE2 → code c ≠ 0xA8 → code c ≠ 0xA9 → code c ≠ 0x80 → separator_step q c = Some 0.
Proof.
  intros H1 H2 H3 H4. unfold separator_step. rewrite !(proj2 (Nat.eqb_neq _ _)) by done. by destruct q as [|[|[|q]]].
Qed.

Lemma separator_zero c : code c ≠ 0xE2 → separator_step 0 c = Some 0.
Proof. intros H. unfold separator_step. by rewrite (proj2 (Nat.eqb_neq _ _)) by done. Qed.

Lemma plain_cons q s c l q' : plain_step q s c = Some (q', s) → plain q s (c :: l) = plain q' s l.
Proof. intros H. simpl. by rewrite H. Qed.

(** A whole rune that is no line separator. *)
Lemma plain_rune q ps c rest n :
  in_range 0 0x7F c = false → line_separator (c :: rest) = None → rune_size (c :: rest) = Some n →
  plain q (mkScanner InString ps) (take n (c :: rest)) = Some (0, mkScanner InString ps) ∧ n ≠ 0.
Proof.
  intros Hc Hsep. unfold rune_size. rewrite Hc. destruct rest as [|c2 l2]; [done|].
  destruct (in_range 0xC2 0xDF c) eqn:H1.
  { apply in_range_code in H1. destruct (in_range 0x80 0xBF c2) eqn:H2; [|done]. apply in_range_code in H2. intros [= <-]. split; [|done].
    cbn [take]. rewrite (plain_cons _ _ _ _ 0) by (apply plain_high; [lia|apply separator_reset; lia]).
    by rewrite (plain_cons _ _ _ _ 0) by (apply plain_high; [lia|apply separator_zero; lia]). }
  destruct l2 as [|c3 l3]; [done|]. destruct (in_range 0xE0 0xEF c) eqn:H2.
  { apply in_range_code in H2. destruct (_ && _) eqn:H3; [|done]. apply andb_true_iff in H3 as [H3 H4].
    apply in_range_code in H4. assert (128 ≤ code c2 ≤ 191) as H5.
    { destruct (in_range 0xE0 0xE0 c), (in_range 0xED 0xED c); apply in_range_code in H3; lia. }
    clear H3. intros [= <-]. split; [|done]. cbn [take]. destruct (decide (code c = 0xE2)) as [He|He].
    - rewrite (plain_cons _ _ _ _ 1) by (apply plain_high; [lia|unfold separator_step; by rewrite He]).
      unfold line_separator in Hsep. rewrite He in Hsep. cbn [Nat.eqb andb] in Hsep.
      destruct (Nat.eqb_spec (code c2) 128) as [H6|H6].
      + rewrite (plain_cons _ _ _ _ 2) by (apply plain_high; [lia|unfold separator_step; by rewrite H6]).
        destruct (Nat.eqb_spec (code c3) 168); [done|]. destruct (Nat.eqb_spec (code c3) 169); [done|].
        rewrite (plain_cons _ _ _ _ 0); [done|]. apply plain_high; [lia|]. unfold separator_step.
        by rewrite !(proj2 (Nat.eqb_neq _ _)) by lia.
      + rewrite (plain_cons _ _ _ _ 0) by (apply plain_high; [lia|]; unfold separator_step; by rewrite !(proj2 (Nat.eqb_neq _ _)) by lia).
        by rewrite (plain_cons _ _ _ _ 0) by (apply plain_high; [lia|apply separator_zero; lia]).
    - rewrite (plain_cons _ _ _ _ 0) by (apply plain_high; [lia|apply separator_reset; lia]).
      rewrite (plain_cons _ _ _ _ 0) by (apply plain_high; [lia|apply separator_zero; lia]).
      by rewrite (plain_cons _ _ _ _ 0) by (apply plain_high; [lia|apply separator_zero; lia]). }
  destruct l3 as [|c4 l4]; [done|]. destruct (_ && _) eqn:H3; [|done]. rewrite !andb_true_iff in H3.
  destruct H3 as [[[H3 H4] H5] H6]. apply in_range_code in H3, H5, H6. assert (128 ≤ code c2 ≤ 191) as H7.
  { destruct (in_range 0xF0 0xF0 c), (in_range 0xF4 0xF4 c); apply in_range_code in H4; lia. }
  intros [= <-]. split; [|done]. cbn [take].
  rewrite (plain_cons _ _ _ _ 0) by (apply plain_high; [lia|apply separator_reset; lia]).
  do 2 rewrite (plain_cons _ _ _ _ 0) by (apply plain_high; [lia|apply separator_zero; lia]).
  by rewrite (plain_cons _ _ _ _ 0) by (apply plain_high; [lia|apply separator_zero; lia]).
Qed.

(** The escapes the encoder writes. *)
Lemma plain_ascii q ps c :
  in_range 0 0x7F c = true → plain q (mkScanner InString ps) (encode_ascii c) = Some (0, mkScanner InString ps).
Proof. intros Hc. all_chars c; try done; destruct q as [|[|[|q]]]; vm_compute; reflexivity. Qed.

Lemma plain_u202 q ps c : plain q (mkScanner InString ps) (u202 c) = Some (0, mkScanner InString ps).
Proof. all_chars c; destruct q as [|[|[|q]]]; vm_compute; reflexivity. Qed.

Lemma plain_ufffd q ps : plain q (mkScanner InString ps) ([backslash] ++ s2b "ufffd") = Some (0, mkScanner InString ps).
Proof. destruct q as [|[|[|q]]]; vm_compute; reflexivity. Qed.

Lemma encode_skip k l : encode_from k l = encode_from 0 (drop k l).
Proof. revert k. induction l as [|c l IH]; intros [|k]; try done. simpl. apply IH. Qed.

Lemma plain_then q ps chunk l : plain q (mkScanner InString ps) chunk = Some (0, mkScanner InString ps) →
  plain 0 (mkScanner InString ps) l = Some (0, mkScanner InString ps) →
  plain q (mkScanner InString ps) (chunk ++ l) = Some (0, mkScanner InString ps).
Proof. intros H1 H2. by rewrite plain_app, H1. Qed.

(** From inside a string, an encoding is read to inside the string, with nothing to
    compact; and it leaves nothing of a separator behind. *)
Lemma encode_from_plain q ps l :
  (l = [] → q = 0) → plain q (mkScanner InString ps) (encode_from 0 l) = Some (0, mkScanner InString ps).
Proof.
  remember (length l) as n eqn:Hn. revert q l Hn. induction (lt_wf n) as [n _ IH]. intros q l -> Hq.
  destruct l as [|c l]; [by rewrite (Hq eq_refl)|]. cbn [encode_from].
  assert (∀ k, plain 0 (mkScanner InString ps) (encode_from k l) = Some (0, mkScanner InString ps)) as Hrest.
  { intros k. rewrite encode_skip. eapply IH; [|reflexivity|done]. rewrite length_drop. simpl. lia. }
  destruct (in_range 0 0x7F c) eqn:Hc; [apply plain_then; [by apply plain_ascii|apply Hrest]|].
  destruct (line_separator (c :: l)) as [last|] eqn:Hs; [apply plain_then; [apply plain_u202|apply Hrest]|].
  destruct (rune_size (c :: l)) as [n|] eqn:Hr.
  - apply plain_then; [by eapply plain_rune|apply Hrest].
  - rewrite app_assoc. apply plain_then; [apply plain_ufffd|apply Hrest].
Qed.
End Canonical.
