(* ===== verification/PublicBody.v ===== *)
(** * PublicBody.v: public names in public bodies

    [internal/publicbody/publicbody.go]: the projection of a runtime's committed event
    body onto the identities a client may hold.  A body is a list of bytes, read and
    written with the JSON of [Json.v]; [Canonical.v] carries the argument that it stays
    canonical.  Core's UUID and session-id rules are parameters; the index that answers
    [PublicCommand] is [CommandIndex.v].                                        *)
From Stdlib Require Import ZArith Ascii.
From stdpp Require Import base list strings gmap.
From S2P Require Import Prelude Errors Effects Json Canonical.

Module PublicBody.
Import Json Canonical.
Local Open Scope prog_scope.

Implicit Types (body old new rest l : bytes) (c : ascii).

(** ** Replacing an identity *)

Fixpoint has_prefix old rest : bool :=
  match old, rest with
  | [], _ => true
  | a :: old, b :: rest => Ascii.eqb a b && has_prefix old rest
  | _ :: _, [] => false
  end.

(** [bytes.Index]. *)
Fixpoint Index rest old : option nat :=
  if has_prefix old rest then Some 0
  else match rest with [] => None | _ :: rest => S <$> Index rest old end.

(** The run of backslashes that ends at [j], as [isEscapeLead] counts it. *)
Fixpoint backslashes body (j : nat) : nat :=
  if bool_decide (body !! j = Some backslash)
  then S (match j with O => 0 | S j => backslashes body j end)
  else 0.

(** [isEscapeLead]. *)
Definition isEscapeLead body (u : nat) : bool :=
  match u with
  | O => false
  | S j => if bool_decide (body !! j = Some backslash) then Nat.odd (backslashes body j) else false
  end.

(** [overlapsUnicodeEscape]. *)
Definition overlapsUnicodeEscape body (matchStart : nat) : bool :=
  existsb (fun offset => (offset <=? matchStart) && bool_decide (body !! (matchStart - offset) = Some "u"%char)
                         && isEscapeLead body (matchStart - offset)) [1; 2; 3; 4].

(** The loop of [replaceAll]; each round consumes a byte of [rest]. *)
Fixpoint replace_from (fuel : nat) body old new rest (base : nat) : bytes :=
  match fuel with
  | O => rest
  | S fuel =>
      match Index rest old with
      | None => rest
      | Some idx =>
          let matchStart := base + idx in
          if overlapsUnicodeEscape body matchStart
          then take (S idx) rest ++ replace_from fuel body old new (drop (S idx) rest) (S matchStart)
          else take idx rest ++ new ++ replace_from fuel body old new (drop (idx + length old) rest) (matchStart + length old)
      end
  end.

(** [replaceAll], given the bytes that replace. *)
Definition replaceBytes body old new : bytes := replace_from (S (length body)) body old new body 0.

(** [replaceAll]. *)
Definition replaceAll body (uuidText replacement : bytes) : bytes :=
  match Index body uuidText with
  | None => body
  | Some _ => replaceBytes body uuidText (encode_from 0 replacement)
  end.

(** The same, byte by byte; [skip] bytes of a match are still to be dropped. *)
Fixpoint walk body old new (skip p : nat) rest : bytes :=
  match rest with
  | [] => []
  | c :: rest' =>
      match skip with
      | S skip => walk body old new skip (S p) rest'
      | O => if has_prefix old rest && negb (overlapsUnicodeEscape body p)
             then new ++ walk body old new (length old - 1) (S p) rest'
             else c :: walk body old new 0 (S p) rest'
      end
  end.

Lemma has_prefix_spec old rest : has_prefix old rest = true ↔ ∃ tail, rest = old ++ tail.
Proof.
  revert rest. induction old as [|a old IH]; intros rest; simpl; [split; [by exists rest|done]|].
  destruct rest as [|b rest]; [split; [done|by intros [? ?]]|].
  rewrite andb_true_iff, IH, Ascii.eqb_eq. split; [intros [-> [tail ->]]; by exists tail|intros [tail [= -> ->]]; eauto].
Qed.

Lemma Index_None rest old p : Index rest old = None → has_prefix old (drop p rest) = false.
Proof.
  revert p. induction rest as [|c rest IH]; intros p; simpl.
  - rewrite drop_nil. by destruct old.
  - destruct (has_prefix old (c :: rest)) eqn:Hp; [done|]. destruct (Index rest old) eqn:Hi; [done|]. intros _.
    destruct p as [|p]; [done|]. by apply IH.
Qed.

Lemma Index_Some rest old idx :
  Index rest old = Some idx →
  has_prefix old (drop idx rest) = true ∧ (∀ p, p < idx → has_prefix old (drop p rest) = false) ∧ idx ≤ length rest.
Proof.
  revert idx. induction rest as [|c rest IH]; intros idx; simpl.
  - destruct (has_prefix old []) eqn:Hp; [|done]. intros [= <-]. split_and!; [done|lia|done].
  - destruct (has_prefix old (c :: rest)) eqn:Hp; [intros [= <-]; split_and!; [done|lia|lia]|].
    destruct (Index rest old) as [k|] eqn:Hi; [|done]. intros [= <-]. destruct (IH k eq_refl) as (H1 & H2 & H3).
    split_and!; [done| |lia]. intros [|p] Hlt; [done|]. apply H2. lia.
Qed.

(** Bytes without a match are copied. *)
Lemma walk_copy body old new p n rest :
  (∀ q, q < n → has_prefix old (drop q rest) = false) → n ≤ length rest →
  walk body old new 0 p rest = take n rest ++ walk body old new 0 (p + n) (drop n rest).
Proof.
  revert p rest. induction n as [|n IH]; intros p rest Hq Hn; [by rewrite Nat.add_0_r|].
  destruct rest as [|c rest]; simpl in *; [lia|]. pose proof (Hq 0 ltac:(lia)) as H0. simpl in H0. rewrite H0. simpl. f_equal.
  rewrite <-Nat.add_succ_comm. apply IH; [|lia]. intros q Hlt. apply (Hq (S q)). lia.
Qed.

Lemma walk_skip body old new p n rest :
  n ≤ length rest → walk body old new n p rest = walk body old new 0 (p + n) (drop n rest).
Proof.
  revert p rest. induction n as [|n IH]; intros p rest Hn; [by rewrite Nat.add_0_r|].
  destruct rest as [|c rest]; simpl in *; [lia|]. rewrite <-Nat.add_succ_comm. apply IH. lia.
Qed.

Lemma replace_from_walk fuel body old new rest base :
  old ≠ [] → length rest < fuel → replace_from fuel body old new rest base = walk body old new 0 base rest.
Proof.
  intros Ho. revert rest base. induction fuel as [|fuel IH]; intros rest base Hf; [lia|]. simpl.
  destruct (Index rest old) as [idx|] eqn:Hi.
  - destruct (Index_Some _ _ _ Hi) as (Hm & Hbefore & Hlen). rewrite (walk_copy _ _ _ base idx rest) by done.
    pose proof Hm as [tail Ht]%has_prefix_spec. assert (length (drop idx rest) = length old + length tail) as Hl by (by rewrite Ht, length_app).
    assert (1 ≤ length old) by (destruct old; simpl; [done|lia]). rewrite length_drop in Hl.
    destruct (drop idx rest) as [|c rest'] eqn:Hd; [by destruct old|]. cbn [walk]. rewrite Hm. simpl.
    assert (drop (S idx) rest = rest') as Hd' by (rewrite <-(Nat.add_1_r idx), <-drop_drop, Hd; done).
    destruct (overlapsUnicodeEscape body (base + idx)); simpl.
    + rewrite IH by (rewrite length_drop; lia). rewrite Hd', (take_S_r rest idx c), <-app_assoc; [done|].
      by rewrite <-(Nat.add_0_r idx), <-lookup_drop, Hd.
    + rewrite IH by (rewrite length_drop; lia). do 2 f_equal.
      rewrite (walk_skip _ _ _ _ (length old - 1)) by (rewrite <-Hd', length_drop; lia). rewrite <-Hd', drop_drop. f_equal; [lia|f_equal; lia].
  - rewrite (walk_copy _ _ _ base (length rest) rest); [|by intros; apply Index_None|done].
    by rewrite take_ge, drop_ge, app_nil_r by lia.
Qed.

Lemma replaceAll_bytes body old replacement : replaceAll body old replacement = replaceBytes body old (encode_from 0 replacement).
Proof. unfold replaceAll, replaceBytes. simpl. by destruct (Index body old). Qed.

Lemma replaceBytes_walk body old new : old ≠ [] → replaceBytes body old new = walk body old new 0 0 body.
Proof. intros Ho. apply replace_from_walk; [done|lia]. Qed.

(** ** Reading a body as tokens

    The state after a prefix of a JSON text, as far as strings go: outside a string,
    with the hyphens seen since the last separator (a number has at most two); in a
    string's content; after the backslash of an escape; with [n] hexadecimal digits of
    a [\u] escape to come. *)
Inductive lstate := Out (hyphens : nat) | In | Esc | Hex (n : nat).

#[export] Instance lstate_eq_dec : EqDecision lstate.
Proof. solve_decision. Defined.

Definition is_separator c : bool := bool_decide (c ∈ [","; ":"; "["; "]"; "{"; "}"]%char).

Definition lex1 (s : lstate) c : option lstate :=
  match s with
  | Out n =>
      if Ascii.eqb c quote then Some In
      else if Ascii.eqb c backslash then None
      else if is_separator c then Some (Out 0)
      else if Ascii.eqb c "-" then (if n <? 2 then Some (Out (S n)) else None)
      else Some (Out n)
  | In =>
      if Ascii.eqb c quote then Some (Out 0)
      else if Ascii.eqb c backslash then Some Esc
      else if 32 <=? code c then Some In else None
  | Esc =>
      if Ascii.eqb c "u" then Some (Hex 4)
      else if is_short c then Some In
      else None
  | Hex n => if is_hex c then Some (if n =? 1 then In else Hex (pred n)) else None
  end.

Fixpoint lex (s : lstate) rest : option lstate :=
  match rest with
  | [] => Some s
  | c :: rest => s ← lex1 s c; lex s rest
  end.

Lemma lex_app s l k : lex s (l ++ k) = s ← lex s l; lex s k.
Proof. revert s. induction l as [|c l IH]; intros s; [done|]. simpl. destruct (lex1 s c); simpl; auto. Qed.

(** The backslashes at the front of a list. *)
Fixpoint lead l : nat :=
  match l with
  | c :: l => if Ascii.eqb c backslash then S (lead l) else 0
  | [] => 0
  end.

Lemma backslashes_lead pre c rest : backslashes (pre ++ c :: rest) (length pre) = lead (rev (pre ++ [c])).
Proof.
  revert c rest. induction pre as [|d pre IH] using rev_ind; intros c rest.
  - simpl. case_bool_decide as H; destruct (Ascii.eqb_spec c backslash) as [->|Hne]; congruence.
  - rewrite length_app, Nat.add_1_r. cbn [backslashes]. rewrite rev_app_distr. cbn [rev app lead].
    replace ((pre ++ [d]) ++ c :: rest) with (pre ++ d :: c :: rest) by (by rewrite <-app_assoc). rewrite IH.
    replace (S (length pre)) with (length (pre ++ [d])) by (rewrite length_app; simpl; lia).
    replace (pre ++ d :: c :: rest) with ((pre ++ [d]) ++ c :: rest) by (by rewrite <-app_assoc).
    rewrite list_lookup_middle by done.
    case_bool_decide as H; destruct (Ascii.eqb_spec c backslash) as [->|Hne]; congruence.
Qed.

Lemma isEscapeLead_lead pre rest : isEscapeLead (pre ++ rest) (length pre) = Nat.odd (lead (rev pre)).
Proof.
  destruct pre as [|c pre _] using rev_ind; [done|]. rewrite length_app, Nat.add_1_r. unfold isEscapeLead.
  rewrite <-app_assoc. cbn [app]. rewrite backslashes_lead, list_lookup_middle by done.
  case_bool_decide as H; [done|]. rewrite rev_app_distr. cbn [rev app lead].
  by destruct (Ascii.eqb_spec c backslash) as [->|Hne].
Qed.

Lemma lex_snoc s pre c s' : lex s (pre ++ [c]) = Some s' ↔ ∃ s0, lex s pre = Some s0 ∧ lex1 s0 c = Some s'.
Proof.
  rewrite lex_app. destruct (lex s pre) as [s0|]; simpl; [|naive_solver].
  destruct (lex1 s0 c) eqn:H; simpl; naive_solver.
Qed.

(** The parity of the backslashes just read, by state. *)
Definition parity (s : lstate) : bool := match s with Esc => true | _ => false end.

Lemma lead_parity pre s :
  lex (Out 0) pre = Some s → Nat.odd (lead (rev pre)) = parity s.
Proof.
  revert s. induction pre as [|c pre IH] using rev_ind; intros s; [by intros [= <-]|].
  rewrite lex_snoc, rev_app_distr. intros (s0 & Hl & Hs). specialize (IH _ Hl). cbn [rev app lead].
  destruct (Ascii.eqb_spec c backslash) as [->|Hne].
  - rewrite Nat.odd_succ, <-Nat.negb_odd, IH. destruct s0; vm_compute in Hs; simplify_eq/=; try done.
  - destruct s0; simpl in *; repeat case_match; simplify_eq/=; try done.
    all: by destruct (Ascii.eqb_spec c backslash).
Qed.

(** [overlapsUnicodeEscape] after a prefix. *)
Lemma overlaps_spec pre rest :
  overlapsUnicodeEscape (pre ++ rest) (length pre) = true ↔
  ∃ p0 hs, pre = p0 ++ "u"%char :: hs ∧ length hs ≤ 3 ∧ Nat.odd (lead (rev p0)) = true.
Proof.
  unfold overlapsUnicodeEscape. rewrite existsb_exists. split.
  - intros (offset & Hin & H). apply andb_true_iff in H as [[Hle%Nat.leb_le Hu%bool_decide_eq_true]%andb_true_iff Hl].
    assert (1 ≤ offset ≤ 4) as Ho by (simpl in Hin; lia).
    rewrite lookup_app_l in Hu by lia. apply list_elem_of_split_length in Hu as (p0 & hs & -> & Hp).
    rewrite length_app in *. simpl in *. exists p0, hs. split_and!; [done|lia|].
    rewrite Hp in Hl. by rewrite <-app_assoc, isEscapeLead_lead in Hl.
  - intros (p0 & hs & -> & Hle & Hodd). exists (S (length hs)). rewrite length_app. cbn [length].
    replace (length p0 + S (length hs) - S (length hs)) with (length p0) by lia.
    split; [simpl; lia|]. rewrite <-!app_assoc, isEscapeLead_lead, Hodd. cbn [app].
    rewrite list_lookup_middle by done. rewrite bool_decide_true by done.
    rewrite (proj2 (Nat.leb_le _ _)) by lia. done.
Qed.

Lemma Hex_opened pre n :
  lex (Out 0) pre = Some (Hex n) →
  ∃ p0 hs, pre = p0 ++ "u"%char :: hs ∧ length hs + n = 4 ∧ 1 ≤ n ∧ lex (Out 0) p0 = Some Esc.
Proof.
  revert n. induction pre as [|c pre IH] using rev_ind; intros n; [done|].
  rewrite lex_snoc. intros (s0 & Hl & Hs). destruct s0 as [k| | |k]; simpl in Hs; repeat case_match; simplify_eq/=.
  - apply Ascii.eqb_eq in H as ->. exists pre, []. split_and!; [done..|lia|done].
  - apply Nat.eqb_neq in H0. destruct (IH _ Hl) as (p0 & hs & -> & Hlen & Hk & He). exists p0, (hs ++ [c]).
    rewrite <-app_assoc, length_app. simpl. split_and!; [done|lia|lia|done].
Qed.

Lemma lex_Hex hs n s : lex (Hex n) hs = Some s → length hs < n → s = Hex (n - length hs).
Proof.
  revert n. induction hs as [|c hs IH]; intros n; simpl; [intros [= <-] _; f_equal; lia|].
  destruct (is_hex c); [|done]. intros H Hlt. destruct (Nat.eqb_spec n 1) as [Hn|Hn]; [lia|]. simpl in H.
  rewrite (IH _ H) by lia. f_equal. lia.
Qed.

(** The guard is exact: it holds at a position precisely when the position is inside a
    [\u] escape's digits. *)
Lemma overlaps_Hex pre rest s :
  lex (Out 0) pre = Some s →
  overlapsUnicodeEscape (pre ++ rest) (length pre) = match s with Hex _ => true | _ => false end.
Proof.
  intros Hl. apply eq_true_iff_eq. rewrite overlaps_spec. split.
  - intros (p0 & hs & -> & Hle & Hodd). rewrite lex_app in Hl. destruct (lex (Out 0) p0) as [s0|] eqn:H0; [|done].
    rewrite (lead_parity _ _ H0) in Hodd. destruct s0; try done. simpl in Hl.
    by rewrite (lex_Hex _ _ _ Hl ltac:(lia)).
  - destruct s as [| | |n]; try done. intros _. destruct (Hex_opened _ _ Hl) as (p0 & hs & -> & Hlen & Hn & He).
    exists p0, hs. split_and!; [done|lia|]. by rewrite (lead_parity _ _ He).
Qed.

(** ** The replacement, by tokens *)

Definition is_lower_hex c : bool := is_digit c || ((97 <=? code c) && (code c <=? 102)).

Fixpoint hyphens l : nat :=
  match l with
  | c :: l => (if Ascii.eqb c "-" then 1 else 0) + hyphens l
  | [] => 0
  end.

(** The characters of a UUID's text: lower-case hexadecimal digits and four hyphens. *)
Definition id_char c : bool := is_lower_hex c || Ascii.eqb c "-".
Definition uuid_text l : bool := forallb id_char l && (hyphens l =? 4).

(** A text that no short escape's letter begins: [\b] and [\f] are also digits. *)
Definition no_escape_letter l : bool :=
  match l with c :: _ => negb (Ascii.eqb c "b" || Ascii.eqb c "f") | [] => false end.

(** A body in which no short escape runs into the text: the text begins with no such
    letter, or the body nowhere holds it right behind a backslash. *)
Definition clear_of old body : bool :=
  no_escape_letter old || negb (existsb (fun i => has_prefix (backslash :: old) (drop i body)) (seq 0 (length body))).

(** Every occurrence in string content, from the left, and no other. *)
Fixpoint replace_literal old new (skip : nat) (s : lstate) rest : bytes :=
  match rest with
  | [] => []
  | c :: rest' =>
      let s' := default s (lex1 s c) in
      match skip with
      | S skip => replace_literal old new skip s' rest'
      | O => if bool_decide (s = In) && has_prefix old rest
             then new ++ replace_literal old new (length old - 1) s' rest'
             else c :: replace_literal old new 0 s' rest'
      end
  end.

Lemma id_char_code c : id_char c = true → code c = 45 ∨ 48 ≤ code c ≤ 57 ∨ 97 ≤ code c ≤ 102.
Proof.
  unfold id_char, is_lower_hex, is_digit. rewrite !orb_true_iff, !andb_true_iff, !Nat.leb_le, Ascii.eqb_eq.
  intros [[?|?]| ->]; auto.
Qed.

Ltac char_cases c := destruct c as [[] [] [] [] [] [] [] []]; vm_compute in *; try done; simplify_eq.

Lemma id_char_In c : id_char c = true → lex1 In c = Some In.
Proof. intros H. char_cases c. Qed.

Lemma id_char_Out n c s :
  id_char c = true → lex1 (Out n) c = Some s → s = Out (n + if Ascii.eqb c "-" then 1 else 0) ∧ (n ≤ 2 → n + (if Ascii.eqb c "-" then 1 else 0) ≤ 2).
Proof.
  intros H. unfold lex1. assert (Ascii.eqb c quote = false) as -> by char_cases c.
  assert (Ascii.eqb c backslash = false) as -> by char_cases c. assert (is_separator c = false) as -> by char_cases c.
  destruct (Ascii.eqb c "-"); [destruct (Nat.ltb_spec n 2)|]; intros [= <-]; (split; [f_equal|]; lia).
Qed.

Lemma uuid_not_Out n l tail s :
  forallb id_char l = true → lex (Out n) (l ++ tail) = Some s → n ≤ 2 → n + hyphens l ≤ 2.
Proof.
  revert n. induction l as [|c l IH]; intros n; cbn [lex forallb hyphens app]; [lia|]. intros [Hc Hl]%andb_true_iff H Hn.
  destruct (lex1 (Out n) c) as [s0|] eqn:H0; [|done]. destruct (id_char_Out _ _ _ Hc H0) as [-> Hb]. simpl in H.
  specialize (IH _ Hl H (Hb Hn)). lia.
Qed.

Lemma Out_bounded pre n m : n ≤ 2 → lex (Out n) pre = Some (Out m) → m ≤ 2.
Proof.
  intros Hn. revert m. induction pre as [|c pre IH] using rev_ind; intros m; [by intros [= ->]|].
  rewrite lex_snoc. intros (s0 & Hl & Hs). destruct s0 as [k| | |k]; simpl in Hs; repeat case_match; simplify_eq/=; try lia.
  - apply Nat.ltb_lt in H3. lia.
  - by apply IH.
Qed.

Lemma lex_Esc pre : lex (Out 0) pre = Some Esc → ∃ p, pre = p ++ [backslash].
Proof.
  destruct pre as [|c pre _] using rev_ind; [done|]. rewrite lex_snoc. intros (s0 & _ & Hs). exists pre. f_equal.
  destruct s0 as [k| | |k]; simpl in Hs; repeat case_match; simplify_eq/=; try done; by f_equal; apply Ascii.eqb_eq.
Qed.

Lemma clear_of_behind old p q : clear_of old (p ++ backslash :: old ++ q) = true → no_escape_letter old = true.
Proof.
  unfold clear_of. destruct (no_escape_letter old); [done|]. simpl. intros H%negb_true_iff. exfalso.
  apply not_true_iff_false in H. apply H, existsb_exists. exists (length p). split.
  - apply in_seq. rewrite length_app. simpl. lia.
  - rewrite drop_app_length. apply has_prefix_spec. by exists q.
Qed.

(** What a match at a readable position is. *)
Lemma match_state pre rest old s :
  uuid_text old = true → clear_of old (pre ++ rest) = true → lex (Out 0) pre = Some s → is_Some (lex s rest) →
  has_prefix old rest = true → s = In ∨ ∃ n, s = Hex n.
Proof.
  intros [Hid Hhy]%andb_true_iff Hb Hl [t Ht] [tail ->]%has_prefix_spec. apply Nat.eqb_eq in Hhy.
  destruct s as [n| | |n]; [|by left| |by right; eauto];
    [|destruct (lex_Esc _ Hl) as [p ->]; rewrite <-app_assoc in Hb; simpl in Hb; apply clear_of_behind in Hb].
  - assert (n ≤ 2) as Hn by (apply (Out_bounded pre 0); [lia|done]). pose proof (uuid_not_Out _ _ _ _ Hid Ht Hn). lia.
  - destruct old as [|c old]; [done|]. cbn [lex forallb no_escape_letter app] in *. apply andb_true_iff in Hid as [Hc _].
    destruct (lex1 Esc c) eqn:H1; [|done]. exfalso. clear -Hc Hb H1. char_cases c.
Qed.

Lemma walk_literal old new skip pre rest s :
  uuid_text old = true → clear_of old (pre ++ rest) = true → lex (Out 0) pre = Some s → is_Some (lex s rest) →
  walk (pre ++ rest) old new skip (length pre) rest = replace_literal old new skip s rest.
Proof.
  intros Hu. revert skip pre s. induction rest as [|c rest IH]; intros skip pre s Hb Hl Hs; [done|].
  assert (∃ s', lex1 s c = Some s' ∧ is_Some (lex s' rest)) as (s' & H1 & Hs').
  { destruct Hs as [t Ht]. cbn [lex] in Ht. destruct (lex1 s c) as [s'|]; [|done]. exists s'. split; [done|by exists t]. }
  assert (∀ k, walk (pre ++ c :: rest) old new k (S (length pre)) rest = replace_literal old new k s' rest) as Hnext.
  { intros k. rewrite <-(IH k (pre ++ [c]) s'); [|by rewrite <-app_assoc|apply lex_snoc; eauto|done].
    rewrite length_app, Nat.add_1_r. by rewrite <-app_assoc. }
  cbn [walk replace_literal]. rewrite H1. cbn [default from_option id]. destruct skip as [|skip]; [|apply Hnext].
  rewrite !Hnext, (overlaps_Hex _ _ _ Hl). destruct (has_prefix old (c :: rest)) eqn:Hp; [|by rewrite andb_false_r].
  destruct (match_state _ _ _ _ Hu Hb Hl Hs Hp) as [->|[n ->]]; done.
Qed.

(** The body reads as tokens. *)
Definition readable body : Prop := is_Some (lex (Out 0) body).

Lemma uuid_text_nonempty l : uuid_text l = true → l ≠ [].
Proof. by destruct l. Qed.

(** ** Valid bodies read as tokens *)

Definition letter c : bool := (97 <=? code c) && (code c <=? 122).

(** What the scanner and the reading of strings say of each other. *)
Definition agree (s : scanner) (ls : lstate) : Prop :=
  match step s with
  | InString => ls = In
  | InStringEsc => ls = Esc
  | InStringEscU n => ls = Hex n
  | Failed => False
  | BeginValueOrEmpty | BeginValue | BeginStringOrEmpty | BeginString => ls = Out 0
  | Literal more => ls = Out 0 ∧ forallb letter more = true
  | Neg | Num1 | Num0 | Dot | Dot0 | NumE => ls = Out 0 ∨ ls = Out 1
  | EndValue | EndTop | ESign | E0 => ls = Out 0 ∨ ls = Out 1 ∨ ls = Out 2
  end.

Lemma lex_neutral n c : is_digit c || isSpace c || letter c = true → lex1 (Out n) c = Some (Out n).
Proof. intros H. all_chars c; vm_compute in H; try done; reflexivity. Qed.

Definition outside (ls : lstate) : Prop := ls = Out 0 ∨ ls = Out 1 ∨ ls = Out 2.

Lemma agree_pop ps : agree (pop ps) (Out 0).
Proof. unfold agree, pop. simpl. destruct (tail ps); by left. Qed.

Lemma agree_end ps c ls s op :
  outside ls → stateEndValue ps c = Some (s, op) → step s ≠ Failed → ∃ ls', lex1 ls c = Some ls' ∧ agree s ls'.
Proof.
  intros Hls. assert (∀ d, is_separator d = true → lex1 ls d = Some (Out 0)) as Hsep.
  { intros d Hd. destruct Hls as [->|[->| ->]]; all_chars d; vm_compute in Hd; try done; reflexivity. }
  assert (isSpace c = true → lex1 ls c = Some ls) as Hspace.
  { intros Hc. destruct Hls as [->|[->| ->]]; apply lex_neutral; rewrite Hc; by rewrite orb_true_r. }
  unfold stateEndValue, stateEndTop. destruct ps as [|p below].
  - intros [= <- <-] Hf. simpl in *. destruct (isSpace c); [|done]. exists ls. auto.
  - destruct (isSpace c); [intros [= <- <-] _; exists ls; auto|]. clear Hspace. intros H _.
    destruct p; repeat (case_match; simplify_eq/=); repeat match goal with H : Ascii.eqb _ _ = true |- _ => apply Ascii.eqb_eq in H as -> end;
      (exists (Out 0); split; [by apply Hsep|]; first [reflexivity|apply agree_pop]).
Qed.

Lemma agree_begin next ps c s op :
  next = BeginValueOrEmpty ∨ next = BeginValue →
  stateBeginValue next ps c = Some (s, op) → ∃ ls', lex1 (Out 0) c = Some ls' ∧ agree s ls'.
Proof.
  intros Hn. unfold stateBeginValue, push. destruct (isSpace c) eqn:Hs.
  { intros [= <- <-]. exists (Out 0). split; [by apply lex_neutral; rewrite Hs, orb_true_r|]. by destruct Hn as [->| ->]. }
  intros H. destruct (is_digit c) eqn:Hd; repeat (case_match; simplify_eq/=);
    repeat match goal with H : Ascii.eqb _ _ = true |- _ => apply Ascii.eqb_eq in H as -> end;
    try (by vm_compute in Hd); try (eexists; split; [reflexivity|]; unfold agree; simpl; auto; fail).
Qed.

Lemma agree_begin_string next ps c s op :
  next = BeginStringOrEmpty ∨ next = BeginString →
  stateBeginString next ps c = Some (s, op) → ∃ ls', lex1 (Out 0) c = Some ls' ∧ agree s ls'.
Proof.
  intros Hn. unfold stateBeginString. destruct (isSpace c) eqn:Hs.
  { intros [= <- <-]. exists (Out 0). split; [by apply lex_neutral; rewrite Hs, orb_true_r|]. by destruct Hn as [->| ->]. }
  destruct (Ascii.eqb_spec c quote) as [->|]; [|done]. intros [= <- <-]. by exists In.
Qed.

Lemma agree_continue n c next ps :
  is_digit c = true → n ≤ 2 → agree (mkScanner next ps) (Out n) → ∃ ls', lex1 (Out n) c = Some ls' ∧ agree (mkScanner next ps) ls'.
Proof. intros Hd Hn Ha. exists (Out n). split; [apply lex_neutral; by rewrite Hd|done]. Qed.

(** A byte of a number that is no hyphen. *)
Definition number c : bool := is_digit c || Ascii.eqb c "." || (Ascii.eqb c "e" || Ascii.eqb c "E") || Ascii.eqb c "+".

Lemma lex_outside ls c : outside ls → number c || letter c = true → lex1 ls c = Some ls.
Proof. intros Hls H. all_chars c; vm_compute in H; try done; by destruct Hls as [->|[->| ->]]. Qed.

Lemma agree_keep ls c next ps :
  outside ls → number c || letter c = true → agree (mkScanner next ps) ls → ∃ ls', lex1 ls c = Some ls' ∧ agree (mkScanner next ps) ls'.
Proof. intros Ho Hc Ha. exists ls. split; [by apply lex_outside|done]. Qed.

(** A state inside a number: each branch keeps the state, or ends the value. *)
Ltac number_state :=
  let Hls := fresh "Hls" in let H := fresh "H" in let Hf := fresh "Hf" in let Ho := fresh "Ho" in
  intros Hls H Hf;
  match type of Hls with ?P => match goal with |- ∃ ls', lex1 ?ls _ = _ ∧ _ => assert (outside ls) as Ho by (unfold outside; naive_solver) end end;
  repeat match type of H with (if ?b then _ else _) = _ => destruct b eqn:?; [injection H as <- <-; apply agree_keep;
    [done|unfold number; repeat match goal with Hb : _ = true |- _ => rewrite Hb; clear Hb end; by rewrite ?orb_true_r|unfold agree; simpl; naive_solver]|] end;
  first [done|by eapply agree_end].

Lemma agree_step s ls c s' op :
  agree s ls → step1 s c = Some (s', op) → step s' ≠ Failed → ∃ ls', lex1 ls c = Some ls' ∧ agree s' ls'.
Proof.
  destruct s as [st ps]. unfold step1. cbn [step parseState]. unfold agree at 1. cbn [step]. destruct st.
  - intros -> H Hf. destruct (_ && _); [|eapply agree_begin; [|exact H]; by left]. by eapply agree_end; [by left| |].
  - intros -> H Hf. eapply agree_begin; [|exact H]; by right.
  - intros -> H Hf. destruct (_ && _); [by eapply agree_end; [by left| |]|]. eapply agree_begin_string; [|exact H]; by left.
  - intros -> H Hf. eapply agree_begin_string; [|exact H]; by right.
  - intros Hls H Hf. by eapply agree_end.
  - intros Hls H Hf. by eapply (agree_end []); [done|by rewrite <-H|].
  - intros -> H _. unfold lex1. destruct (Ascii.eqb c quote); [injection H as <- <-; exists (Out 0); split; [done|by left]|].
    destruct (Ascii.eqb c backslash); [injection H as <- <-; by exists Esc|].
    destruct (Nat.ltb_spec (code c) 32); [done|]. injection H as <- <-. exists In. split; [|done].
    by rewrite (proj2 (Nat.leb_le _ _)).
  - intros -> H _. unfold lex1. destruct (Ascii.eqb_spec c "u") as [->|]; [vm_compute in H; injection H as <- <-; by exists (Hex 4)|].
    destruct (is_short c); [|done]. injection H as <- <-. by exists In.
  - intros -> H _. unfold lex1. destruct (is_hex c); [|done]. injection H as <- <-. eexists. split; [done|]. by destruct (n =? 1).
  - intros Hls H Hf. destruct (Ascii.eqb_spec c "0") as [->|]; [injection H as <- <-; apply agree_keep; [unfold outside; naive_solver|done|unfold agree; simpl; naive_solver]|].
    revert Hls H Hf. number_state.
  - number_state.
  - number_state.
  - number_state.
  - number_state.
  - intros Hls H Hf. destruct (Ascii.eqb_spec c "-") as [->|].
    + injection H as <- <-. destruct Hls as [->| ->]; eexists; (split; [reflexivity|]); unfold agree; simpl; naive_solver.
    + rewrite orb_false_r in H. revert Hls H Hf. number_state.
  - number_state.
  - number_state.
  - intros [-> Hl] H Hf. destruct rest as [|d more]; [done|]. cbn [forallb] in Hl. apply andb_true_iff in Hl as [Hd Hl].
    assert (∃ next, (if Ascii.eqb c d then Some (mkScanner next ps, scanContinue) else None) = Some (s', op) ∧ agree (mkScanner next ps) (Out 0)) as (next & H' & Ha).
    { destruct more as [|e more]; eexists; (split; [exact H|]); unfold agree; simpl; auto. }
    destruct (Ascii.eqb_spec c d) as [->|]; [|done]. injection H' as <- <-. apply agree_keep; [by left|by rewrite Hd, orb_true_r|done].
  - done.
Qed.

Lemma step1_not_failed s c s' op : step1 s c = Some (s', op) → step s ≠ Failed.
Proof. intros H Hs. unfold step1 in H. by rewrite Hs in H. Qed.

Lemma scan_agree l s : scan reset l = Some s → step s ≠ Failed → ∃ ls, lex (Out 0) l = Some ls ∧ agree s ls.
Proof.
  revert s. induction l as [|c l IH] using rev_ind; intros s; [intros [= <-] _; by exists (Out 0)|].
  rewrite scan_app. destruct (scan reset l) as [s0|] eqn:H0; [|done]. cbn. destruct (step1 s0 c) as [[s1 op]|] eqn:H1; [|done].
  cbn. intros [= <-] Hf. destruct (IH s0 eq_refl (step1_not_failed _ _ _ _ H1)) as (ls & Hl & Ha).
  destruct (agree_step _ _ _ _ _ Ha H1 Hf) as (ls' & Hl' & Ha'). exists ls'. split; [|done]. apply lex_snoc. eauto.
Qed.

Lemma Valid_readable body : Valid body = true → readable body.
Proof.
  unfold Valid, readable. destruct (scan reset body) as [s|] eqn:Hs; [|done]. intros He.
  destruct (scan_agree _ _ Hs) as (ls & -> & _); [|done]. intros Hf. unfold eof in He. by rewrite Hf in He.
Qed.

(** ** Replacement keeps a body canonical *)

Lemma stateEndValue_failed ps c s op : stateEndValue ps c = Some (s, op) → step s = Failed → op = scanEnd.
Proof.
  unfold stateEndValue, stateEndTop, pop. intros H Hs. destruct ps as [|p below]; [by simplify_eq/=|].
  destruct (isSpace c); [by simplify_eq/=|].
  destruct p; repeat (case_match; simplify_eq/=).
Qed.

Lemma step1_failed s c s' op : step1 s c = Some (s', op) → step s' = Failed → op = scanEnd.
Proof.
  destruct s as [st ps]. unfold step1. cbn [step parseState]. intros H Hs.
  assert (∀ next, next ≠ Failed → stateBeginValue next ps c = Some (s', op) → op = scanEnd) as Hb.
  { clear H. unfold stateBeginValue, push. intros next Hn H.
    repeat match type of H with (if ?b then _ else _) = _ => destruct b end; by simplify_eq/=. }
  assert (∀ next, next ≠ Failed → stateBeginString next ps c = Some (s', op) → op = scanEnd) as Hbs.
  { clear H. unfold stateBeginString. intros next Hn H.
    repeat match type of H with (if ?b then _ else _) = _ => destruct b end; by simplify_eq/=. }
  destruct st;
    repeat match type of H with
           | (if ?b then _ else _) = _ => destruct b
           | match ?m with [] => _ | _ :: _ => _ end = _ => destruct m
           end;
    first [exact (stateEndValue_failed _ _ _ _ H Hs)|exact (stateEndValue_failed [] _ _ _ H Hs)|refine (Hb _ _ H); done|refine (Hbs _ _ H); done|by simplify_eq/=|simplify_eq/=; by repeat case_match].
Qed.

Lemma id_char_separator q c : id_char c = true → separator_step q c = Some 0.
Proof. intros H. apply separator_reset; destruct (id_char_code _ H) as [->|[?|?]]; lia. Qed.

(** Replacing by content inside strings leaves the pass where it was. *)
Lemma replace_literal_plain old new u q s ls rest r :
  uuid_text old = true → (∀ q ps, plain q (mkScanner InString ps) new = Some (0, mkScanner InString ps)) →
  agree s ls → (u = [] ∨ (ls = In ∧ q = 0)) → forallb id_char u = true →
  plain q s (u ++ rest) = Some r → plain q s (replace_literal old new (length u) ls (u ++ rest)) = Some r.
Proof.
  intros [Hid Hhy]%andb_true_iff Hnew. remember (u ++ rest) as l eqn:Hl.
  revert u q s ls rest Hl. induction l as [|c l IH]; intros u q s ls rest Hl Ha Hu Hui Hp; [done|].
  cbn [plain] in Hp. destruct (plain_step q s c) as [[q' s']|] eqn:Hs; [|done]. cbn [mbind option_bind fst snd] in Hp.
  assert (∃ op, step1 s c = Some (s', op) ∧ is_skip op = false ∧ separator_step q c = Some q') as (op & H1 & Hop & Hq).
  { unfold plain_step in Hs. destruct (step1 s c) as [[s1 op]|]; [|done]. cbn in Hs.
    destruct (separator_step q c) as [q1|]; [|done]. cbn in Hs. destruct (html c); [done|].
    destruct (is_skip op) eqn:Ho; [done|]. injection Hs as <- <-. eauto. }
  assert (step s' ≠ Failed) as Hf by (intros Hf; by rewrite (step1_failed _ _ _ _ H1 Hf) in Hop).
  destruct (agree_step _ _ _ _ _ Ha H1 Hf) as (ls' & Hls & Ha'). cbn [replace_literal]. rewrite Hls. cbn [default from_option id].
  destruct u as [|d u].
  - cbn [length]. destruct (bool_decide (ls = In) && has_prefix old (c :: l)) eqn:Hm.
    + apply andb_true_iff in Hm as [->%bool_decide_eq_true [tail Ht]%has_prefix_spec].
      destruct old as [|d old]; [done|]. injection Ht as <- ->. cbn [forallb] in Hid. apply andb_true_iff in Hid as [Hc Hid].
      pose proof (id_char_In _ Hc) as H2. rewrite H2 in Hls. injection Hls as <-.
      rewrite (id_char_separator q c Hc) in Hq. injection Hq as <-. cbn [length]. rewrite Nat.sub_succ, Nat.sub_0_r.
      assert (s = mkScanner InString (parseState s) ∧ s' = s) as [Hin ->].
      { clear -Ha Hc H1. destruct s as [st ps]. unfold agree in Ha. cbn [step] in Ha. destruct st; try naive_solver. split; [done|].
        unfold step1 in H1. cbn [step parseState] in H1. all_chars c; vm_compute in Hc; try done; vm_compute in H1; congruence. }
      rewrite plain_app, Hin, Hnew. cbn [mbind option_bind fst snd]. rewrite <-Hin.
      by apply (IH old 0 s In tail); [done|done|right|done|].
    + cbn [plain]. rewrite Hs. cbn [mbind option_bind fst snd]. apply (IH [] q' s' ls' l); [done|done|by left|done|done].
  - destruct Hu as [?|[-> ->]]; [done|]. injection Hl as <- ->. cbn [forallb] in Hui. apply andb_true_iff in Hui as [Hc Hui].
    pose proof (id_char_In _ Hc) as H2. rewrite H2 in Hls. injection Hls as <-.
    rewrite (id_char_separator 0 c Hc) in Hq. injection Hq as <-. cbn [length].
    assert (s' = s) as ->.
    { clear -Ha Hc H1. destruct s as [st ps]. unfold agree in Ha. cbn [step] in Ha. destruct st; try naive_solver.
      unfold step1 in H1. cbn [step parseState] in H1. all_chars c; vm_compute in Hc; try done; vm_compute in H1; congruence. }
    by apply (IH u 0 s In rest); [done|done|right|done|].
Qed.

(** C23 the byte-level [replaceAll], with its search, its resumption after a skipped
    match and its backslash count, replaces exactly the occurrences in string content:
    on a valid body it equals the replacement that reads the body's tokens, provided
    the identity does not begin with the letter of a short escape. *)
Theorem replaceAll_literal body uuidText replacement :
  Valid body = true → uuid_text uuidText = true → no_escape_letter uuidText = true →
  replaceAll body uuidText replacement = replace_literal uuidText (encode_from 0 replacement) 0 (Out 0) body.
Proof.
  intros Hr Hu Hb. rewrite replaceAll_bytes, replaceBytes_walk by by apply uuid_text_nonempty.
  by apply (walk_literal uuidText _ 0 [] body (Out 0)); [done|unfold clear_of; rewrite Hb|..|apply Valid_readable].
Qed.

Lemma canonical_replaced body uuidText replacement :
  canonical body = true → uuid_text uuidText = true → clear_of uuidText body = true → replacement ≠ [] →
  canonical (replaceAll body uuidText replacement) = true.
Proof.
  intros [r [Hp He]]%canonical_iff Hu Hb Hn. apply canonical_iff. exists r. split; [|done].
  assert (readable body) as Hr.
  { apply Valid_readable. unfold Valid. by rewrite (plain_scan _ _ _ _ Hp). }
  rewrite replaceAll_bytes, replaceBytes_walk by by apply uuid_text_nonempty.
  rewrite (walk_literal uuidText _ 0 [] body (Out 0) Hu Hb eq_refl Hr : walk body uuidText _ 0 0 body = _).
  apply (replace_literal_plain uuidText _ [] 0 reset (Out 0) body r Hu); [|done|by left|done|done].
  intros q ps. by apply encode_from_plain.
Qed.

(** the session id is replaced in a canonical body by a canonical one: the result
    is valid JSON and its own compaction, whatever the public id's characters. *)
Theorem replaceAll_canonical body uuidText replacement :
  canonical body = true → uuid_text uuidText = true → no_escape_letter uuidText = true → replacement ≠ [] →
  canonical (replaceAll body uuidText replacement) = true.
Proof. intros ? ? Hb. apply canonical_replaced; [done..|]. unfold clear_of. by rewrite Hb. Qed.

(** ** The examples *)

(** A body that names a session, once after an escape that looks like its start. *)
Definition sample_id : bytes := s2b "003c1234-0000-4000-8000-000000000001".
Definition sample_body : bytes :=
  s2b "{" ++ quoted (s2b "session_id") ++ s2b ":" ++ quoted sample_id ++ s2b "," ++
  quoted (s2b "text") ++ s2b ":" ++ quoted ([backslash] ++ s2b "u" ++ sample_id) ++ s2b "}".

Lemma replaceAll_literal_witness :
  Valid sample_body = true ∧
  replaceAll sample_body sample_id (s2b "a<b") = replace_literal sample_id (encode_from 0 (s2b "a<b")) 0 (Out 0) sample_body.
Proof.
  split; [by vm_compute|]. exact (replaceAll_literal sample_body sample_id (s2b "a<b") eq_refl eq_refl eq_refl).
Defined.

Lemma replaceAll_canonical_witness :
  replaceAll sample_body sample_id (s2b "a<b") ≠ sample_body ∧ canonical (replaceAll sample_body sample_id (s2b "a<b")) = true.
Proof.
  split; [by vm_compute|]. exact (replaceAll_canonical sample_body sample_id (s2b "a<b") eq_refl eq_refl eq_refl ltac:(done)).
Defined.
End PublicBody.
