(* ===== verification/Members.v ===== *)
(** * Members.v: the members of an object

    [objectMembers] and [encodeObject] of [internal/publicbody/publicbody.go], over the
    decoder of [Json.v].  A canonical object is split into members that encode to the
    same bytes, and what is encoded from members of a canonical object is canonical.
    The decoder reads each value from a fresh scanner; the argument is a frame lemma,
    that the scanner on a value does not look below its own part of the stack.     *)
From Stdlib Require Import ZArith Ascii.
From stdpp Require Import base list strings gmap.
From S2P Require Import Prelude Errors Json Canonical.

Module Members.
Import Json Canonical.

Implicit Types (raw value l : bytes) (c : ascii) (ps below : list parse) (q : nat).

(** [ErrNonCanonical]. *)
Definition ErrNonCanonical : error := ESentinel "publicbody.ErrNonCanonical".

(** ** Objects *)

(** [member]. *)
Record member := mkMember { key : bytes; rawKey : bytes; value : bytes }.

Definition firstByte raw : option ascii := head raw.
Definition starts_with raw (c : ascii) : bool := bool_decide (firstByte raw = Some c).

(** The decoder between two members: a comma, except before the first, then a key, a
    colon and a value, each at the first byte that is no space. *)
Definition read_member (first : bool) l : option (member * bytes) :=
  l ← (if first then Some l else if starts_with l "," then Some (skip_space (tail l)) else None);
  if starts_with l quote then
    k ← readValue l;
    let after := skip_space k.2 in
    if starts_with after ":" then
      v ← readValue (tail after);
      Some (mkMember (unquote k.1) k.1 v.1, v.2)
    else None
  else None.

Fixpoint read_members (fuel : nat) (first : bool) l : option (list member) :=
  match fuel with
  | O => None
  | S fuel =>
      let l := skip_space l in
      if starts_with l "}" then Some []
      else r ← read_member first l; cons r.1 <$> read_members fuel false r.2
  end.

(** [objectMembers]; what follows the object is not read. *)
Definition objectMembers raw : res (list member) :=
  let raw := skip_space raw in
  if starts_with raw "{" then
    match read_members (S (length raw)) true (tail raw) with Some members => Ok members | None => Err ErrNonCanonical end
  else Err ErrNonCanonical.

(** [encodeObject]. *)
Fixpoint encodeMembers (first : bool) (members : list member) : bytes :=
  match members with
  | [] => []
  | m :: members => (if first then [] else [","%char]) ++ rawKey m ++ [":"%char] ++ value m ++ encodeMembers false members
  end.

Definition encodeObject (members : list member) : bytes := ["{"%char] ++ encodeMembers true members ++ ["}"%char].

(** The first member that satisfies a condition, and the last. *)
Fixpoint first_index (f : member → bool) (members : list member) : option (nat * member) :=
  match members with
  | [] => None
  | m :: members => if f m then Some (0, m) else prod_map S id <$> first_index f members
  end.

Fixpoint last_index (f : member → bool) (members : list member) : option (nat * member) :=
  match members with
  | [] => None
  | m :: members => match last_index f members with
                    | Some (i, m) => Some (S i, m)
                    | None => if f m then Some (0, m) else None
                    end
  end.


(** ** The frame of a value *)

(** The states after which a value may end. *)
Definition final (st : step_fn) : bool := match st with EndValue | Num1 | Num0 | Dot0 | E0 => true | _ => false end.

(** A state while a value is being read. *)
Definition reading (s : scanner) : Prop :=
  step s ≠ EndTop ∧ (step s = BeginValueOrEmpty ∨ step s = BeginStringOrEmpty → parseState s ≠ []).

(** A byte ends the value that has been read. *)
Definition ends (st : step_fn) c : Prop := ∀ ps, step1 (mkScanner st ps) c = stateEndValue ps c.

(** The byte of a scanner below which the stack holds [below], seen from above it. *)
Definition framed (s : scanner) (below : list parse) c (s2' : scanner) (op : opcode) : Prop :=
  (parseState s = [] ∧ final (step s) = true ∧ ends (step s) c) ∨
  (∃ s2, step1 s c = Some (s2, op) ∧ (op = scanEndObject ∨ op = scanEndArray) ∧ parseState s2 = [] ∧ s2' = mkScanner EndValue below) ∨
  (∃ s2, step1 s c = Some (s2, op) ∧ op ≠ scanEnd ∧ ((op = scanEndObject ∨ op = scanEndArray) → parseState s2 ≠ []) ∧
     reading s2 ∧ s2' = mkScanner (step s2) (parseState s2 ++ below)).

Lemma framed_end s p ps below c s2' op :
  below ≠ [] → step1 s c = stateEndValue (p :: ps) c →
  stateEndValue (p :: ps ++ below) c = Some (s2', op) → framed s below c s2' op.
Proof.
  intros Hb Hs H. unfold framed. rewrite Hs. clear Hs. unfold stateEndValue in *. destruct (isSpace c).
  { injection H as <- <-. right; right. eexists. split_and!; [done|done|by intros []|split; [done|by intros []]|done]. }
  destruct p; repeat match type of H with (if ?b then _ else _) = _ => destruct b end; try done; injection H as <- <-.
  all: try (right; right; eexists; split_and!; [done|done|by intros []|split; [done|by intros []]|done]).
  all: unfold pop; cbn [tail]; destruct ps as [|p2 ps]; cbn [app].
  all: try (right; left; eexists; split_and!; [done|auto|done|]; by destruct below).
  all: right; right; eexists; (split_and!; [done|done|done|split; [done|by intros []]|done]).
Qed.

Lemma framed_continue st ps below c next :
  step1 (mkScanner st ps) c = Some (mkScanner next ps, scanContinue) →
  match next with EndTop | BeginValueOrEmpty | BeginStringOrEmpty => False | _ => True end →
  framed (mkScanner st ps) below c (mkScanner next (ps ++ below)) scanContinue.
Proof.
  intros H Hn. right; right. rewrite H. eexists. split_and!; [reflexivity|done|by intros []| |done].
  split; cbn [step]; [by destruct next|by destruct next; intros []].
Qed.

Lemma framed_begin next ps below c s2' op :
  below ≠ [] → (next = BeginValueOrEmpty → ps ≠ []) → next = BeginValue ∨ next = BeginValueOrEmpty →
  stateBeginValue next (ps ++ below) c = Some (s2', op) →
  ∃ s2, stateBeginValue next ps c = Some (s2, op) ∧ op ≠ scanEnd ∧ ((op = scanEndObject ∨ op = scanEndArray) → parseState s2 ≠ []) ∧
     reading s2 ∧ s2' = mkScanner (step s2) (parseState s2 ++ below).
Proof.
  intros Hb Hn Hnext. unfold stateBeginValue, push. rewrite length_app. intros H.
  repeat match type of H with (if ?b then _ else _) = _ => destruct b eqn:? end; try done; injection H as <- <-;
    try (eexists; split_and!; [reflexivity|done|by intros []|split; [by destruct Hnext; subst|by intros []]|done]; fail).
  - eexists. split_and!; [reflexivity|done|by intros []|split; [by destruct Hnext; subst|]|done]. simpl. intros [->| ->]; [auto|].
    by destruct Hnext.
  - rewrite (proj2 (Nat.ltb_lt _ _)) by (apply Nat.ltb_lt in Heqb1; lia).
    eexists. split_and!; [reflexivity|done|by intros []|split; [done|done]|done].
  - rewrite (proj2 (Nat.ltb_lt _ _)) by (apply Nat.ltb_lt in Heqb2; lia).
    eexists. split_and!; [reflexivity|done|by intros []|split; [done|done]|done].
Qed.

Lemma framed_begin_string next ps below c s2' op :
  (next = BeginStringOrEmpty → ps ≠ []) → next = BeginString ∨ next = BeginStringOrEmpty →
  stateBeginString next (ps ++ below) c = Some (s2', op) →
  ∃ s2, stateBeginString next ps c = Some (s2, op) ∧ op ≠ scanEnd ∧ ((op = scanEndObject ∨ op = scanEndArray) → parseState s2 ≠ []) ∧
     reading s2 ∧ s2' = mkScanner (step s2) (parseState s2 ++ below).
Proof.
  intros Hn Hnext. unfold stateBeginString. intros H.
  repeat match type of H with (if ?b then _ else _) = _ => destruct b eqn:? end; try done; injection H as <- <-.
  - eexists. split_and!; [reflexivity|done|by intros []|split; [by destruct Hnext; subst|]|done]. simpl. intros [->| ->]; [by destruct Hnext|auto].
  - eexists. split_and!; [reflexivity|done|by intros []|split; [done|by intros []]|done].
Qed.

(** A state whose branches go on inside the value, or end it. *)
Ltac frame_continue H Hend :=
  unfold step1 in H; cbn [step parseState] in H;
  repeat match type of H with
         | (if ?b then _ else _) = _ => destruct b eqn:?
         | match ?m with [] => _ | _ :: _ => _ end = _ => destruct m
         end;
  try done;
  first [injection H as <- <-; apply framed_continue;
           [unfold step1; cbn [step parseState]; repeat match goal with Hb : _ = _ |- _ => rewrite Hb end; reflexivity
           |try destruct (_ =? _); exact I]
        |apply Hend; [done|]; intros ps'; unfold step1; cbn [step parseState]; repeat match goal with Hb : _ = false |- _ => rewrite Hb end; reflexivity].

(** A value's bytes are read above its frame as they are from a fresh scanner. *)
Lemma frame s below c s2' op :
  below ≠ [] → reading s → step1 (mkScanner (step s) (parseState s ++ below)) c = Some (s2', op) → framed s below c s2' op.
Proof.
  intros Hb [Ht Hn]. destruct s as [st ps]. cbn [step parseState] in *. intros H.
  assert (final st = true → (∀ ps', step1 (mkScanner st ps') c = stateEndValue ps' c) → framed (mkScanner st ps) below c s2' op) as Hend.
  { intros Hf He. destruct ps as [|p ps]; [by left|]. eapply framed_end; [done|by apply He|]. by rewrite (He ((p :: ps) ++ below)) in H. }
  destruct st; try done.
  all: try (frame_continue H Hend; fail).
  - (* BeginValueOrEmpty *) unfold step1 in H. cbn [step parseState] in H. destruct (negb (isSpace c) && Ascii.eqb c "]") eqn:He.
    + destruct ps as [|p ps]; [naive_solver|]. eapply framed_end; [done| |exact H]. unfold step1. cbn [step parseState]. by rewrite He.
    + right; right. unfold step1. cbn [step parseState]. rewrite He. eapply framed_begin; auto.
  - right; right. by eapply framed_begin; auto.
  - unfold step1 in H. cbn [step parseState] in H. destruct (negb (isSpace c) && Ascii.eqb c "}") eqn:He.
    + destruct ps as [|p ps]; [naive_solver|]. cbn [app tail] in H.
      eapply framed_end; [done| |exact H]. unfold step1. cbn [step parseState tail]. by rewrite He.
    + right; right. unfold step1. cbn [step parseState]. rewrite He. eapply framed_begin_string; auto.
  - right; right. by eapply framed_begin_string; auto.
Qed.

(** What follows a value: nothing, or a byte that ends it. *)
Definition closed (st : step_fn) l : Prop := match l with [] => True | c :: _ => ends st c end.

Lemma plain_inv q s c l r :
  plain q s (c :: l) = Some r →
  ∃ q' s' op, step1 s c = Some (s', op) ∧ is_skip op = false ∧ separator_step q c = Some q' ∧ plain_step q s c = Some (q', s') ∧ plain q' s' l = Some r.
Proof.
  cbn [plain]. unfold plain_step. destruct (step1 s c) as [[s1 op]|]; [|done]. cbn.
  destruct (separator_step q c) as [q1|]; [|done]. cbn. destruct (html c); [done|].
  destruct (is_skip op) eqn:Ho; [done|]. cbn. intros H. by exists q1, s1, op.
Qed.

Lemma plain_cons_inv q s c l q' s' : plain_step q s c = Some (q', s') → plain q s (c :: l) = plain q' s' l.
Proof. intros H. simpl. by rewrite H. Qed.

(** A value read from a fresh scanner is the part of a plain text that its frame takes. *)
Lemma read_frame l q s below r :
  below ≠ [] → reading s → plain q (mkScanner (step s) (parseState s ++ below)) l = Some r → length (parseState r.2) < length below →
  ∃ v rest q1 st1, read_from s l = Some (v, rest) ∧ l = v ++ rest ∧
    plain q (mkScanner (step s) (parseState s ++ below)) v = Some (q1, mkScanner st1 below) ∧ final st1 = true ∧ closed st1 rest ∧
    plain q1 (mkScanner st1 below) rest = Some r.
Proof.
  intros Hb. revert q s. induction l as [|c l IH]; intros q s Hr Hp Hlen.
  { simpl in Hp. simplify_eq/=. rewrite length_app in Hlen. lia. }
  pose proof (plain_inv _ _ _ _ _ Hp) as (q' & s' & op & H1 & Hop & Hq & Hs & Hrest). cbn [read_from].
  destruct (frame _ _ _ _ _ Hb Hr H1) as [(Hps & Hf & He)|[(s2 & H2 & Hend & Hps & ->)|(s2 & H2 & Hne & Hend & Hr2 & ->)]].
  - destruct s as [st ps]. cbn [step parseState] in *. subst ps. rewrite (He []). cbn [stateEndValue mbind option_bind snd stateEndTop].
    exists [], (c :: l), q, st. by split_and!.
  - rewrite H2. cbn [mbind option_bind fst snd]. rewrite Hps. exists [c], l, q', EndValue.
    assert (plain q (mkScanner (step s) (parseState s ++ below)) [c] = Some (q', mkScanner EndValue below)) as Hc by (by rewrite (plain_cons_inv _ _ _ _ _ _ Hs)).
    rewrite bool_decide_true by done. destruct Hend as [->| ->]; (split_and!; [done..| |done]); by destruct l.
  - rewrite H2. cbn [mbind option_bind fst snd]. destruct (IH q' s2 Hr2 Hrest Hlen) as (v & rest & q1 & st1 & -> & -> & Hv & Hf & Hcl & Hp1).
    exists (c :: v), rest, q1, st1. rewrite (plain_cons_inv _ _ _ v _ _ Hs). split_and!; [|done..].
    cbn [mbind option_bind fst snd]. destruct op; try done; by rewrite bool_decide_false by auto.
Qed.

(** ** Members of a canonical object *)

Definition key_state below : scanner := mkScanner InString (parseObjectKey :: below).
Definition value_state below : scanner := mkScanner BeginValue (parseObjectValue :: below).

(** A member whose parts are plain where an encoding puts them. *)
Record good below (m : member) : Prop := {
  good_key : ∃ k q st, rawKey m = quote :: k ∧
    plain 0 (key_state below) k = Some (q, mkScanner st (parseObjectKey :: below)) ∧ final st = true ∧ ends st ":";
  good_value : ∃ q st, plain 0 (value_state below) (value m) = Some (q, mkScanner st (parseObjectValue :: below)) ∧
    final st = true ∧ ends st "," ∧ ends st "}"
}.

Lemma final_ends st c : final st = true → bool_decide (c ∈ [":"; ","; "}"]%char) = true → ends st c.
Proof. intros Hf Hc ps. all_chars c; vm_compute in Hc; try done; by destruct st. Qed.

(** No space is plain where one may be skipped. *)
Lemma plain_no_space q s c l r :
  plain q s (c :: l) = Some r →
  match step s with BeginValueOrEmpty | BeginValue | BeginStringOrEmpty | BeginString | EndTop => True | st => ends st c end →
  isSpace c = false.
Proof.
  intros (q' & s' & op & H1 & Hop & _)%plain_inv Hs. destruct (isSpace c) eqn:Hc; [exfalso|done]. destruct s as [st ps].
  destruct st; cbn [step] in Hs; try rewrite (Hs ps) in H1; unfold step1, stateBeginValue, stateBeginString, stateEndTop, stateEndValue in H1;
    cbn [step parseState] in H1; rewrite ?Hc in H1; cbn [negb andb] in H1; try (by simplify_eq/=).
  all: destruct ps; injection H1 as <- <-; done.
Qed.

Lemma skip_space_plain q s l r :
  plain q s l = Some r →
  match step s with BeginValueOrEmpty | BeginValue | BeginStringOrEmpty | BeginString | EndTop => True | st => closed st l end →
  skip_space l = l.
Proof.
  destruct l as [|c l]; [done|]. intros Hp Hs. simpl. rewrite (plain_no_space _ _ _ _ _ Hp); [done|]. by destruct s as [[]].
Qed.

(** A separator inside an object. *)
Lemma plain_separator q st p ps c next op l :
  ends st c → stateEndValue (p :: ps) c = Some (next, op) → is_skip op = false → separator_step q c = Some 0 → html c = false →
  plain q (mkScanner st (p :: ps)) (c :: l) = plain 0 next l.
Proof.
  intros He Hs Hop Hq Hh. apply plain_cons_inv. unfold plain_step. rewrite (He (p :: ps)), Hs. cbn. rewrite Hq. cbn. by rewrite Hh, Hop.
Qed.

Lemma plain_colon q st below l : ends st ":" → plain q (mkScanner st (parseObjectKey :: below)) (":"%char :: l) = plain 0 (value_state below) l.
Proof. intros H. eapply plain_separator; try done. by destruct q as [|[|[|q]]]. Qed.

Lemma plain_comma q st below l :
  ends st "," → plain q (mkScanner st (parseObjectValue :: below)) (","%char :: l) = plain 0 (mkScanner BeginString (parseObjectKey :: below)) l.
Proof. intros H. eapply plain_separator; try done. by destruct q as [|[|[|q]]]. Qed.

Lemma plain_close q st below l :
  ends st "}" → plain q (mkScanner st (parseObjectValue :: below)) ("}"%char :: l) = plain 0 (pop (parseObjectValue :: below)) l.
Proof. intros H. eapply plain_separator; try done. by destruct q as [|[|[|q]]]. Qed.

Lemma plain_quote q st below l :
  st = BeginString ∨ st = BeginStringOrEmpty →
  plain q (mkScanner st (parseObjectKey :: below)) (quote :: l) = plain 0 (key_state below) l.
Proof. intros H. apply plain_cons_inv. destruct H as [->| ->]; by destruct q as [|[|[|q]]]. Qed.

(** What is between two members, and the state there. *)
Definition between (first : bool) below (s : scanner) : Prop :=
  if first then s = mkScanner BeginStringOrEmpty (parseObjectKey :: below)
  else ∃ st, s = mkScanner st (parseObjectValue :: below) ∧ final st = true.

(** Good members are plain, in the braces of an object. *)
Lemma good_plain below first members q s l :
  Forall (good below) members → between first below s →
  plain q s (encodeMembers first members ++ "}"%char :: l) = plain 0 (pop (parseObjectValue :: below)) l.
Proof.
  intros Hg. revert first q s. induction Hg as [|m members [(k & q1 & st1 & Hk & Hkp & Hf1 & He1) (q2 & st2 & Hv & Hf2 & He2 & He3)] _ IH]; intros first q s Hs; unfold between in Hs.
  - cbn [encodeMembers app]. destruct first; [subst s|destruct Hs as (st & -> & Hf); apply plain_close; by apply final_ends].
    apply plain_cons_inv. by destruct q as [|[|[|q]]].
  - assert (plain q s (encodeMembers first (m :: members) ++ "}"%char :: l) =
      plain 0 (key_state below) (k ++ [":"%char] ++ value m ++ encodeMembers false members ++ "}"%char :: l)) as ->.
    { cbn [encodeMembers]. rewrite Hk, <-!app_assoc. destruct first; cbn [app].
      - subst s. rewrite plain_quote by auto. by rewrite <-?app_assoc.
      - destruct Hs as (st & -> & Hf). rewrite plain_comma by (by apply final_ends). rewrite plain_quote by auto. by rewrite <-?app_assoc. }
    rewrite plain_app, Hkp. cbn [mbind option_bind fst snd app]. rewrite plain_colon by done.
    rewrite plain_app, Hv. cbn [mbind option_bind fst snd]. apply IH. by exists st2.
Qed.

Lemma readValue_quote l : readValue (quote :: l) = (fun vr => (quote :: vr.1, vr.2)) <$> read_from (mkScanner InString []) l.
Proof.
  unfold readValue. change (skip_space (quote :: l)) with (quote :: l). cbn [read_from].
  change (step1 reset quote) with (Some (mkScanner InString [], scanBeginLiteral)). cbn [mbind option_bind fst snd].
  by destruct (read_from _ l).
Qed.

Lemma starts_with_cons c l : starts_with (c :: l) c = true.
Proof. unfold starts_with. by rewrite bool_decide_true. Qed.

(** A key, its colon and its value. *)
Lemma read_pair q st below l r :
  st = BeginString ∨ st = BeginStringOrEmpty → starts_with l "}" = false →
  plain q (mkScanner st (parseObjectKey :: below)) l = Some r → length (parseState r.2) ≤ length below →
  ∃ m rest q2 st2, read_member true l = Some (m, rest) ∧ good below m ∧ l = rawKey m ++ [":"%char] ++ value m ++ rest ∧
    plain q2 (mkScanner st2 (parseObjectValue :: below)) rest = Some r ∧ final st2 = true ∧ closed st2 rest.
Proof.
  intros Hst Hbrace Hp Hlen. destruct l as [|c l].
  { simpl in Hp. simplify_eq/=. lia. }
  assert (c = quote) as ->.
  { destruct (plain_inv _ _ _ _ _ Hp) as (q' & s' & op & H1 & Hop & _). unfold step1 in H1. cbn [step parseState] in H1.
    assert (Ascii.eqb c "}" = false) as Hc.
    { unfold starts_with in Hbrace. apply bool_decide_eq_false in Hbrace. destruct (Ascii.eqb_spec c "}") as [->|]; [by destruct Hbrace|done]. }
    destruct (Ascii.eqb_spec c quote) as [->|Hne]; [done|exfalso]. apply Ascii.eqb_neq in Hne.
    destruct Hst as [->| ->]; unfold stateBeginString in H1; rewrite ?Hc, ?andb_false_r, Hne in H1; destruct (isSpace c); by simplify_eq/=. }
  rewrite plain_quote in Hp by done.
  destruct (read_frame l 0 (mkScanner InString []) (parseObjectKey :: below) r) as (k & r1 & q1 & st1 & Hk & -> & Hkp & Hf1 & Hc1 & Hp1);
    [done|split; [done|by intros []]|done|simpl; lia|].
  destruct r1 as [|c r1]; [simpl in Hp1; simplify_eq/=; lia|]. cbn [closed] in Hc1.
  assert (c = ":"%char) as ->.
  { destruct (plain_inv _ _ _ _ _ Hp1) as (q' & s' & op & H1 & Hop & _). rewrite (Hc1 _) in H1. unfold stateEndValue in H1.
    destruct (isSpace c); [by simplify_eq/=|]. by destruct (Ascii.eqb_spec c ":") as [->|]. }
  rewrite plain_colon in Hp1 by done.
  pose proof (skip_space_plain _ _ _ _ Hp1 I) as Hsp.
  destruct (read_frame r1 0 (mkScanner BeginValue []) (parseObjectValue :: below) r) as (v & r2 & q2 & st2 & Hv & -> & Hvp & Hf2 & Hc2 & Hp2);
    [done|split; [done|by intros []]|done|simpl; lia|].
  exists (mkMember (unquote (quote :: k)) (quote :: k) v), r2, q2, st2. split_and!; [| | |done..].
  - unfold read_member. cbn [mbind option_bind]. rewrite starts_with_cons, readValue_quote, Hk. cbn [fmap option_fmap option_map mbind option_bind fst snd].
    change (skip_space (":"%char :: v ++ r2)) with (":"%char :: v ++ r2). rewrite starts_with_cons. cbn [tail]. unfold readValue, reset. rewrite Hsp.
    by rewrite Hv.
  - split; [by exists k, q1, st1|]. exists q2, st2. split_and!; [done..|by apply final_ends|by apply final_ends].
  - cbn [rawKey value app]. by rewrite <-?app_assoc.
Qed.

Lemma read_members_good fuel first l q s below r :
  length l < fuel → between first below s → (first = false → closed (step s) l) →
  plain q s l = Some r → length (parseState r.2) ≤ length below →
  ∃ members rest, read_members fuel first l = Some members ∧ Forall (good below) members ∧
    l = encodeMembers first members ++ "}"%char :: rest ∧ plain 0 (pop (parseObjectValue :: below)) rest = Some r.
Proof.
  revert first l q s. induction fuel as [|fuel IH]; intros first l q s Hf Hs Hc Hp Hlen; [lia|]. cbn [read_members].
  assert (skip_space l = l) as ->.
  { apply (skip_space_plain _ _ _ _ Hp). destruct first; [by rewrite Hs|]. destruct Hs as (st & -> & Hst).
    specialize (Hc eq_refl). by destruct st. }
  destruct (starts_with l "}") eqn:Hb.
  { unfold starts_with in Hb. apply bool_decide_eq_true in Hb. destruct l as [|c l]; [done|]. injection Hb as ->.
    exists [], l. split_and!; [done|done|done|]. rewrite <-Hp. symmetry.
    by apply (good_plain below first [] q s l (Forall_nil_2 _)). }
  assert (∃ m rest q2 st2, read_member first l = Some (m, rest) ∧ good below m ∧
    l = (if first then [] else [","%char]) ++ rawKey m ++ [":"%char] ++ value m ++ rest ∧
    plain q2 (mkScanner st2 (parseObjectValue :: below)) rest = Some r ∧ final st2 = true ∧ closed st2 rest) as
    (m & rest & q2 & st2 & -> & Hg & Hl & Hp2 & Hf2 & Hc2).
  { destruct first.
    - unfold between in Hs. subst s. by eapply read_pair; [right|..].
    - destruct Hs as (st & -> & Hst). specialize (Hc eq_refl). destruct l as [|c l]; [simpl in Hp; simplify_eq/=; lia|]. cbn [closed step] in Hc.
      assert (c = ","%char) as ->.
      { destruct (plain_inv _ _ _ _ _ Hp) as (q' & s' & op & H1 & Hop & _). rewrite (Hc _) in H1. unfold stateEndValue in H1.
        destruct (isSpace c); [by simplify_eq/=|]. destruct (Ascii.eqb_spec c ",") as [->|]; [done|].
        destruct (Ascii.eqb_spec c "}") as [->|]; [by vm_compute in Hb|done]. }
      rewrite plain_comma in Hp by done. pose proof (skip_space_plain _ _ _ _ Hp I) as Hsp.
      assert (starts_with l "}" = false) as Hb2.
      { destruct l as [|c l]; [done|]. apply bool_decide_eq_false. intros [= ->]. done. }
      destruct (read_pair _ _ _ _ _ (or_introl eq_refl) Hb2 Hp Hlen) as (m & rest & q2 & st2 & Hr & Hg & Hl & Hrest).
      exists m, rest, q2, st2. split_and!; [|done|by rewrite Hl|apply Hrest..]. unfold read_member in *. rewrite starts_with_cons.
      cbn [tail mbind option_bind] in *. by rewrite Hsp. }
  cbn [mbind option_bind fst snd].
  assert (length rest < length l) as Hlt by (rewrite Hl, !length_app; simpl; lia).
  destruct (IH false rest q2 (mkScanner st2 (parseObjectValue :: below))) as (members & rest' & -> & Hgs & Hrest & Hp3);
    [lia|by exists st2|done|done|done|].
  exists (m :: members), rest'. split_and!; [done|by constructor| |done]. cbn [encodeMembers]. rewrite Hl, Hrest at 1. by rewrite <-!app_assoc.
Qed.

(** ** Whole objects *)

Lemma stateEndValue_EndTop ps c s op : stateEndValue ps c = Some (s, op) → step s = EndTop → parseState s = [].
Proof.
  unfold stateEndValue, stateEndTop, pop. intros H Hs. destruct ps as [|p below]; [by injection H as <- <-|].
  destruct (isSpace c); [by injection H as <- <-|].
  destruct p; repeat match type of H with (if ?b then _ else _) = _ => destruct b end; try done; injection H as <- <-; try done;
    cbn [tail step parseState] in *; by destruct below.
Qed.

Lemma step1_EndTop s c s' op : step1 s c = Some (s', op) → step s' = EndTop → parseState s' = [].
Proof.
  destruct s as [st ps]. unfold step1. cbn [step parseState]. intros H Hs.
  destruct st; unfold stateBeginValue, stateBeginString, push in H;
    repeat match type of H with
           | (if ?b then _ else _) = _ => destruct b
           | match ?m with [] => _ | _ :: _ => _ end = _ => destruct m
           end; try done;
    first [exact (stateEndValue_EndTop _ _ _ _ H Hs)|exact (stateEndValue_EndTop [] _ _ _ H Hs)|injection H as <- <-; try done; simpl in Hs; by try destruct (_ =? _)].
Qed.

Lemma plain_EndTop q s l r : plain q s l = Some r → (step s = EndTop → parseState s = []) → step r.2 = EndTop → parseState r.2 = [].
Proof.
  revert q s. induction l as [|c l IH]; intros q s; [by intros [= <-]|].
  intros (q' & s' & op & H1 & _ & _ & _ & Hp)%plain_inv _. apply (IH _ _ Hp). by eapply step1_EndTop.
Qed.

Lemma eof_stack s : eof s = true → (step s = EndTop → parseState s = []) → parseState s = [].
Proof.
  destruct s as [st ps]. unfold eof. cbn [step parseState]. intros H Hs. destruct ps as [|p ps]; [done|exfalso].
  destruct st; try (by specialize (Hs eq_refl)); unfold step1 in H; cbn [step parseState stateEndValue] in H; try done.
  all: repeat case_match; simplify_eq/=.
Qed.

(** A canonical object splits, and its members encode to it. *)
Lemma canonical_members body :
  canonical body = true → starts_with body "{" = true →
  ∃ members, objectMembers body = Ok members ∧ Forall (good []) members ∧ encodeObject members = body.
Proof.
  intros [r [Hp He]]%canonical_iff Hb. unfold starts_with in Hb. apply bool_decide_eq_true in Hb.
  destruct body as [|c l]; [done|]. injection Hb as ->. unfold objectMembers.
  change (skip_space ("{"%char :: l)) with ("{"%char :: l). rewrite starts_with_cons. cbn [tail].
  change (plain 0 reset ("{"%char :: l)) with (plain 0 (mkScanner BeginStringOrEmpty [parseObjectKey]) l) in Hp.
  assert (parseState r.2 = []) as Hr by (apply eof_stack; [done|by eapply (plain_EndTop _ _ _ _ Hp)]).
  destruct (read_members_good (S (length ("{"%char :: l))) true l 0 (mkScanner BeginStringOrEmpty [parseObjectKey]) [] r) as (members & rest & -> & Hg & Hl & Hend);
    [simpl; lia|done|done|done|by rewrite Hr|].
  exists members. split_and!; [done|done|]. unfold encodeObject. destruct rest as [|c rest]; [by rewrite Hl|].
  destruct (plain_inv _ _ _ _ _ Hend) as (q' & s' & op & H1 & Hop & _). unfold pop in H1. cbn in H1. by injection H1 as <- <-.
Qed.

(** Members of a canonical object encode to one. *)
Lemma good_canonical members : Forall (good []) members → canonical (encodeObject members) = true.
Proof.
  intros Hg. apply canonical_iff. exists (0, mkScanner EndTop []). split; [|done]. unfold encodeObject. cbn [app].
  change (plain 0 (mkScanner BeginStringOrEmpty [parseObjectKey]) (encodeMembers true members ++ ["}"%char]) = Some (0, mkScanner EndTop [])).
  by rewrite (good_plain [] true members 0 _ [] Hg).
Qed.

(** A member whose value is an object, and any selection of that object's members. *)
Lemma good_object below m :
  good below m → starts_with (value m) "{" = true →
  ∃ members, objectMembers (value m) = Ok members ∧ Forall (good (parseObjectValue :: below)) members ∧
    ∀ members', Forall (good (parseObjectValue :: below)) members' → good below (mkMember (key m) (rawKey m) (encodeObject members')).
Proof.
  intros [Hk (q & st & Hv & Hf & He1 & He2)] Hb. unfold starts_with in Hb. apply bool_decide_eq_true in Hb.
  destruct (value m) as [|c l] eqn:Hvm; [done|]. injection Hb as ->. unfold objectMembers.
  change (skip_space ("{"%char :: l)) with ("{"%char :: l). rewrite starts_with_cons. cbn [tail].
  destruct (plain_inv _ _ _ _ _ Hv) as (q' & s' & op & H1 & Hop & Hq & Hs & Hp).
  assert (q' = 0 ∧ s' = mkScanner BeginStringOrEmpty (parseObjectKey :: parseObjectValue :: below)) as [-> ->].
  { split; [by injection Hq as <-|]. clear -H1. unfold step1, value_state, stateBeginValue, push in H1. cbn [step parseState] in H1.
    change (isSpace "{") with false in H1. change (Ascii.eqb "{" "{") with true in H1. destruct (_ <? _); by simplify_eq/=. }
  destruct (read_members_good (S (length ("{"%char :: l))) true l 0 _ (parseObjectValue :: below) _ ltac:(simpl; lia) eq_refl ltac:(done) Hp ltac:(done)) as (members & rest & -> & Hg & _ & _).
  exists members. split_and!; [done|done|]. intros members' Hg'. split; [exact Hk|]. exists 0, EndValue. split_and!; [|done..].
  unfold encodeObject. cbn [value app]. rewrite (plain_cons_inv _ _ _ _ _ _ Hs). by rewrite (good_plain _ true members' 0 _ [] Hg').
Qed.

Lemma Forall_good_delete below i members : Forall (good below) members → Forall (good below) (delete i members).
Proof. intros H. apply Forall_delete, H. Qed.

(** C25 a canonical object is split into members that encode to the same bytes: their
    order, their keys as they were written, and their values. *)
Theorem encode_objectMembers body :
  canonical body = true → starts_with body "{" = true →
  ∃ members, objectMembers body = Ok members ∧ encodeObject members = body.
Proof. intros Hc Hb. destruct (canonical_members body Hc Hb) as (members & H & _ & He). eauto. Qed.

Definition sample_object : bytes :=
  s2b "{" ++ quoted (s2b "seq") ++ s2b ":-1.5e-3," ++ quoted ([backslash] ++ s2b "u0061") ++ s2b ":[{},[1,2]]," ++ quoted [] ++ s2b ":null}".

Lemma encode_objectMembers_witness :
  starts_with sample_object "{" = true ∧ ∃ members, objectMembers sample_object = Ok members ∧ encodeObject members = sample_object.
Proof. split; [by vm_compute|]. apply (encode_objectMembers sample_object); by vm_compute. Defined.
End Members.
