(* ===== verification/Projection.v ===== *)
(** * Projection.v: a public body's projection

    [Project] of [internal/publicbody/publicbody.go], with the mapping or removal of
    the cause's command id.  [LiveTail.v] retries it and [Relay.v] publishes what it
    answers.                                                                    *)
From Stdlib Require Import ZArith Ascii.
From stdpp Require Import base list strings gmap.
From S2P Require Import Prelude Errors Effects Json Canonical PublicBody Members.

Module Projection.
Import Json Canonical PublicBody Members.
Local Open Scope prog_scope.

Implicit Types (body raw value l : bytes) (seq : Z).

(** [MappingError]. *)
Definition MappingError (cause : error) : error := ETyped TMappingError (Some cause).

(** ** The projection *)

(** [Identities]; a UUID is its text, and [Commands] is whether there is a mapping. *)
Record Identities := mkIdentities { RuntimeSessionID : bytes; SessionID : bytes; Commands : bool }.

Definition zero_uuid : bytes := s2b "00000000-0000-0000-0000-000000000000".
Definition IsZero (u : bytes) : bool := bool_decide (u = zero_uuid).

(** [Commands.PublicCommand]. *)
Inductive PE : Type → Type := PPublicCommand (runtime : bytes) (bound : Z) : PE (res (option bytes)).

Section project.
Context (uuid_Parse : bytes → option bytes) (SessionID_Validate : bytes → option error).

(** [resolveCommand]: the runtime id and its public one, when it has one. *)
Definition resolveCommand raw (ids : Identities) seq : prog PE (res (option (bytes * bytes))) :=
  match unmarshal_string raw with
  | None => Ret (Ok None)
  | Some text =>
      match uuid_Parse text with
      | None => Ret (Ok None)
      | Some runtime =>
          if IsZero runtime || negb (Commands ids) then Ret (Ok None)
          else
            let! public := call (PPublicCommand runtime seq) in
            Ret match public with
                | Err e => Err (MappingError e)
                | Ok None => Ok None
                | Ok (Some public) => Ok (Some (runtime, public))
                end
      end
  end.

(** [projectCause]. *)
Definition projectCause body (ids : Identities) seq : prog PE (res bytes) :=
  if negb (starts_with body "{") || bool_decide (Index body (quoted (s2b "command_id")) = None) then Ret (Ok body)
  else
    match objectMembers body with
    | Err e => Ret (Err e)
    | Ok members =>
        match last_index (fun m => bool_decide (key m = s2b "cause") && starts_with (value m) "{") members with
        | None => Ret (Ok body)
        | Some (at_, causeMember) =>
            match objectMembers (value causeMember) with
            | Err e => Ret (Err e)
            | Ok cause =>
                match first_index (fun m => bool_decide (key m = s2b "command_id")) cause with
                | None => Ret (Ok body)
                | Some (i, m) =>
                    let! resolved := resolveCommand (value m) ids seq in
                    Ret match resolved with
                        | Err e => Err e
                        | Ok (Some (runtime, public)) => Ok (replaceAll body runtime public)
                        | Ok None =>
                            let cause := delete i cause in
                            Ok (encodeObject
                                  (if bool_decide (cause = []) then delete at_ members
                                   else alter (fun m => mkMember (key m) (rawKey m) (encodeObject cause)) at_ members))
                        end
                end
            end
        end
    end.

(** [Project]. *)
Definition Project body (ids : Identities) seq : prog PE (res bytes) :=
  if IsZero (RuntimeSessionID ids) then Ret (Err (EForeign "publicbody: no runtime session id to project"))
  else match SessionID_Validate (SessionID ids) with
  | Some e => Ret (Err (ETyped TWrapError (Some e)))
  | None =>
      let out := replaceAll body (RuntimeSessionID ids) (SessionID ids) in
      let! out := projectCause out ids seq in
      Ret match out with
          | Err e => Err e
          | Ok out => if canonical out then Ok out else Err ErrNonCanonical
          end
  end.

Lemma resolveCommand_runs raw ids seq t r :
  runs (resolveCommand raw ids seq) t r →
  (t = [] ∧ r = Ok None) ∨
  ∃ text runtime public, uuid_Parse text = Some runtime ∧ Commands ids = true ∧ t = [Obs (PPublicCommand runtime seq) public] ∧
    r = match public with Err e => Err (MappingError e) | Ok None => Ok None | Ok (Some p) => Ok (Some (runtime, p)) end.
Proof.
  unfold resolveCommand. destruct (unmarshal_string raw) as [text|]; [|intros [-> ->]; by left].
  destruct (uuid_Parse text) as [runtime|] eqn:Hp; [|intros [-> ->]; by left].
  destruct (IsZero runtime || negb (Commands ids)) eqn:Hc; [intros [-> ->]; by left|]. apply orb_false_iff in Hc as [_ Hc%negb_false_iff].
  intros (public & t' & -> & [-> ->]). right. exists text, runtime, public. split_and!; [done..|]. by destruct public as [[p|]|e].
Qed.

Lemma first_index_lookup f members i m : first_index f members = Some (i, m) → members !! i = Some m ∧ f m = true.
Proof.
  revert i. induction members as [|x members IH]; intros i; [done|]. simpl. destruct (f x) eqn:Hf; [by intros [= <- <-]|].
  destruct (first_index f members) as [[j y]|]; [|done]. intros [= <- <-]. by apply IH.
Qed.

Lemma last_index_lookup f members i m : last_index f members = Some (i, m) → members !! i = Some m ∧ f m = true.
Proof.
  revert i. induction members as [|x members IH]; intros i; [done|]. simpl.
  destruct (last_index f members) as [[j y]|]; [intros [= <- <-]; by apply IH|]. destruct (f x) eqn:Hf; [by intros [= <- <-]|done].
Qed.

(** The header's step on a canonical body. *)
Lemma projectCause_canonical body ids seq t r :
  canonical body = true → runs (projectCause body ids seq) t r →
  (∃ out, r = Ok out ∧ canonical out = true) ∨
  ∃ text runtime answer, uuid_Parse text = Some runtime ∧ t = [Obs (PPublicCommand runtime seq) answer] ∧
    ((∃ e, answer = Err e ∧ r = Err (MappingError e)) ∨
     ∃ public, answer = Ok (Some public) ∧ r = Ok (replaceAll body runtime public)).
Proof.
  intros Hc. unfold projectCause. destruct (negb (starts_with body "{") || _) eqn:Hskip; [intros [-> ->]; left; eauto|].
  apply orb_false_iff in Hskip as [Hb%negb_false_iff _]. destruct (canonical_members body Hc Hb) as (members & -> & Hg & _).
  destruct (last_index _ members) as [[at_ m]|] eqn:Hlast; [|intros [-> ->]; left; eauto].
  apply last_index_lookup in Hlast as [Hm [_ Hv]%andb_true_iff].
  destruct (good_object [] m) as (cause & -> & Hgc & Hput); [by eapply Forall_lookup_1|done|].
  destruct (first_index _ cause) as [[i c]|] eqn:Hfirst; [|intros [-> ->]; left; eauto].
  rewrite runs_bind. intros (t1 & t2 & answer & -> & Hr & [-> ->]). rewrite app_nil_r.
  assert (canonical (encodeObject (if bool_decide (delete i cause = []) then delete at_ members
     else alter (fun m => mkMember (key m) (rawKey m) (encodeObject (delete i cause))) at_ members)) = true) as Hcut.
  { apply good_canonical. case_bool_decide; [by apply Forall_good_delete|]. apply Forall_alter; [done|].
    intros x Hx _. simplify_eq. by apply Hput, Forall_good_delete. }
  apply resolveCommand_runs in Hr as [[-> ->]|(text & runtime & public & Hp & _ & -> & ->)]; [left; eauto|].
  destruct public as [[p|]|e]; [|left; eauto|].
  - right. exists text, runtime, (Ok (Some p)). split_and!; [done..|]. right. eauto.
  - right. exists text, runtime, (Err e). split_and!; [done..|]. left. eauto.
Qed.

(** A command's public identity is not empty, and no short escape of the body it is put
    in runs into its runtime identity. *)
Definition mapped_names (t : list (obs PE)) body seq : Prop :=
  ∀ runtime public, Obs (PPublicCommand runtime seq) (Ok (Some public)) ∈ t → clear_of runtime body = true ∧ public ≠ [].

Context (Hparse : ∀ text u, uuid_Parse text = Some u → uuid_text u = true).

(** C21 A canonical body is projected whatever identities it names, unless a short escape
    runs into one.  With a runtime session id and a valid public one, the projection of
    a canonical body is a canonical body, at whatever depth the identities are and
    whichever of the cause's branches it takes; the one other outcome is the mapping's
    read error, marked as such, after the one read the projection makes.  The proviso is
    [clear_of]: an identity that begins with [b] or [f] must not stand right behind a
    backslash in the body, where the guard of [replaceAll], which knows only the [\u]
    escapes, takes the rest of [\b] or [\f] for its first letter
    ([short_escape_refused]); every body is clear of every other identity. *)
Theorem Project_total body ids seq t r
    (Hcanonical : canonical body = true) (Hsession : uuid_text (RuntimeSessionID ids) = true)
    (Hclear : clear_of (RuntimeSessionID ids) body = true) (Hzero : IsZero (RuntimeSessionID ids) = false)
    (Hpublic : SessionID_Validate (SessionID ids) = None ∧ SessionID ids ≠ [])
    (Hnames : mapped_names t (replaceAll body (RuntimeSessionID ids) (SessionID ids)) seq)
    (Hrun : runs (Project body ids seq) t r) :
  (∃ out, r = Ok out ∧ canonical out = true) ∨
  ∃ runtime e, t = [Obs (PPublicCommand runtime seq) (Err e)] ∧ r = Err (MappingError e).
Proof.
  unfold Project in Hrun. destruct Hpublic as [Hv Hne]. rewrite Hzero, Hv in Hrun.
  apply runs_bind in Hrun as (t1 & t2 & r1 & -> & Hc & [-> ->]). rewrite app_nil_r in *.
  apply projectCause_canonical in Hc; [|by apply canonical_replaced].
  destruct Hc as [(out & -> & Hout)|(text & runtime & answer & Hp & -> & [(e & -> & ->)|(public & -> & ->)])].
  - left. rewrite Hout. eauto.
  - right. eauto.
  - left. destruct (Hnames runtime public) as [Hl Hpn]; [left|].
    assert (canonical (replaceAll (replaceAll body (RuntimeSessionID ids) (SessionID ids)) runtime public) = true) as Hcc
      by (apply canonical_replaced; [by apply canonical_replaced|by eapply Hparse|done|done]).
    rewrite Hcc. eauto.
Qed.
End project.

(** ** The examples *)

Definition sample_parse (l : bytes) : option bytes := if uuid_text l then Some l else None.

Lemma sample_parse_uuid text u : sample_parse text = Some u → uuid_text u = true.
Proof. unfold sample_parse. destruct (uuid_text text) eqn:H; [by intros [= <-]|done]. Qed.

Definition sample_ids : Identities := mkIdentities sample_id (s2b "sess-1") true.
Definition sample_command : bytes := s2b "0a3c1234-0000-4000-8000-0000000000ff".
Definition sample_event (command : bytes) : bytes :=
  s2b "{" ++ quoted (s2b "cause") ++ s2b ":{" ++ quoted (s2b "command_id") ++ s2b ":" ++ quoted command ++ s2b "}," ++
  quoted (s2b "session_id") ++ s2b ":" ++ quoted sample_id ++ s2b "}".

(** A mapping that gives one answer. *)
Definition answering (answer : res (option bytes)) : handler PE unit :=
  fun _ e s => match e in PE X return X * unit with PPublicCommand _ _ => (answer, s) end.

Definition answer_of (o : obs PE) : res (option bytes) :=
  match o with Obs e x => match e in PE X return X → _ with PPublicCommand _ _ => fun a => a end x end.

Lemma answering_runs {A} (p : prog PE A) answer a t : exec (answering answer) p tt = (a, tt, t) → runs p t a.
Proof. apply exec_runs. Qed.

(** A command the client admitted is renamed; one it did not is removed, and its empty
    cause with it. *)
Example project_samples :
  runs (Project sample_parse (fun _ => None) (sample_event sample_command) sample_ids 7)
    [Obs (PPublicCommand sample_command 7) (Ok (Some (s2b "cmd-1")))]
    (Ok (s2b "{" ++ quoted (s2b "cause") ++ s2b ":{" ++ quoted (s2b "command_id") ++ s2b ":" ++ quoted (s2b "cmd-1") ++ s2b "}," ++
         quoted (s2b "session_id") ++ s2b ":" ++ quoted (s2b "sess-1") ++ s2b "}")) ∧
  runs (Project sample_parse (fun _ => None) (sample_event sample_command) sample_ids 7)
    [Obs (PPublicCommand sample_command 7) (Ok None)]
    (Ok (s2b "{" ++ quoted (s2b "session_id") ++ s2b ":" ++ quoted (s2b "sess-1") ++ s2b "}")).
Proof.
  split; [apply (answering_runs _ (Ok (Some (s2b "cmd-1"))))|apply (answering_runs _ (Ok None))]; by vm_compute.
Qed.

Lemma Project_total_witness :
  ∃ t r, runs (Project sample_parse (fun _ => None) (sample_event sample_command) sample_ids 7) t r ∧
    ((∃ out, r = Ok out ∧ canonical out = true) ∨
     ∃ runtime e, t = [Obs (PPublicCommand runtime 7) (Err e)] ∧ r = Err (MappingError e)).
Proof.
  exists [Obs (PPublicCommand sample_command 7) (Ok None)].
  exists (Ok (s2b "{" ++ quoted (s2b "session_id") ++ s2b ":" ++ quoted (s2b "sess-1") ++ s2b "}")).
  assert (runs (Project sample_parse (fun _ => None) (sample_event sample_command) sample_ids 7)
    [Obs (PPublicCommand sample_command 7) (Ok None)]
    (Ok (s2b "{" ++ quoted (s2b "session_id") ++ s2b ":" ++ quoted (s2b "sess-1") ++ s2b "}"))) as Hr by (apply (answering_runs _ (Ok None)); by vm_compute).
  assert (canonical (sample_event sample_command) = true) as H1 by (clear; vm_compute; reflexivity).
  assert (uuid_text sample_id = true ∧ clear_of sample_id (sample_event sample_command) = true ∧ IsZero sample_id = false) as (H2 & H3 & H4) by (clear; vm_compute; split_and!; reflexivity).
  assert (@None error = None ∧ s2b "sess-1" ≠ []) as H5 by (split; [reflexivity|discriminate]).
  split; [exact Hr|]. refine (Project_total sample_parse (fun _ => None) sample_parse_uuid _ sample_ids 7 _ _ H1 H2 H3 H4 H5 _ Hr).
  clear. intros runtime public Hin. apply list_elem_of_singleton, (f_equal answer_of) in Hin. discriminate Hin.
Defined.

(** The guard of [replaceAll] covers only [\u] escapes.  A canonical body whose
    string holds a backspace, which canonical JSON writes [\b], and then the rest of a
    runtime session id that begins with [b], names no identity; the projection replaces
    across the escape and refuses the body it has broken. *)
Definition escaped_id : bytes := s2b "b03c1234-0000-4000-8000-000000000001".
Definition escaped_body : bytes := s2b "{" ++ quoted (s2b "text") ++ s2b ":" ++ quoted ([backslash] ++ escaped_id) ++ s2b "}".

Example short_escape_refused :
  canonical escaped_body = true ∧ uuid_text escaped_id = true ∧
  replace_literal escaped_id (encode_from 0 (s2b "sess-1")) 0 (Out 0) escaped_body = escaped_body ∧
  runs (Project sample_parse (fun _ => None) escaped_body (mkIdentities escaped_id (s2b "sess-1") true) 7) [] (Err ErrNonCanonical).
Proof. split_and!; [by vm_compute..|]. apply (answering_runs _ (Ok None)). by vm_compute. Qed.

(** A body with spaces, and bytes after its object. *)
Definition spaced_body : bytes :=
  s2b "{ " ++ quoted (s2b "cause") ++ s2b " : { " ++ quoted (s2b "command_id") ++ s2b " : 1 } , " ++ quoted (s2b "seq") ++ s2b " : 2 } trailing".

(** a non-canonical input is not refused either way.  When the cause's command is
    removed the object is encoded again, without its spaces and without what followed
    it, and that passes the check. *)
Theorem noncanonical_accepted :
  canonical spaced_body = false ∧ Valid spaced_body = false ∧
  runs (Project sample_parse (fun _ => None) spaced_body sample_ids 7) [] (Ok (s2b "{" ++ quoted (s2b "seq") ++ s2b ":2}")).
Proof. split_and!; [by vm_compute..|]. apply (answering_runs _ (Ok None)). by vm_compute. Qed.
End Projection.
