(* ===== verification/LiveTail.v ===== *)
(** * LiveTail.v: keeping a session's live tail up

    [internal/compose/publicbody.go]: [retryingProjection], the bounded backoff of a
    projection whose mapping could not be read, as a program; and [supervisedTail] with
    [restartRefused], as a step relation between the goroutine that restarts a refused
    tail and a caller of [Stop].                                                *)
From Stdlib Require Import ZArith.
From stdpp Require Import base list strings gmap sets fin_sets.
From S2P Require Import Prelude Errors Effects Json Projection.

Module LiveTail.
Import Json.
Local Open Scope prog_scope.

(** ** Backoff *)

(** [backoff], in nanoseconds. *)
Record backoff := mkBackoff { floor : Z; ceiling : Z }.

Definition defaultProjectionRetry : backoff := mkBackoff 50000000 5000000000.
Definition defaultTailRestart : backoff := mkBackoff 100000000 5000000000.

(** [projectionRetry] and [tailRestart]: the service's own bounds, unless they are the
    zero value. *)
Definition projectionRetry (own : backoff) : backoff :=
  if bool_decide (floor own = 0%Z ∧ ceiling own = 0%Z) then defaultProjectionRetry else own.
Definition tailRestart (own : backoff) : backoff :=
  if bool_decide (floor own = 0%Z ∧ ceiling own = 0%Z) then defaultTailRestart else own.

Definition next_delay (bounds : backoff) (delay : Z) : Z := Z.min (2 * delay) (ceiling bounds).

(** The delay before the attempt after the [n]th failure. *)
Fixpoint delay_at (bounds : backoff) (n : nat) : Z :=
  match n with O => floor bounds | S n => next_delay bounds (delay_at bounds n) end.

Lemma delay_bounded bounds n :
  (0 ≤ floor bounds ≤ ceiling bounds)%Z →
  delay_at bounds n = Z.min (floor bounds * 2 ^ Z.of_nat n) (ceiling bounds).
Proof.
  intros Hb. induction n as [|n IH]; [simpl; lia|]. cbn [delay_at]. unfold next_delay. rewrite IH.
  rewrite Nat2Z.inj_succ, Z.pow_succ_r by lia. nia.
Qed.

(** ** Retrying a projection *)

(** The projection, the context's error, and a timer against the context. *)
Inductive RE : Type → Type :=
| RProject : RE (res bytes)
| RErr : RE (option error)
| RWait (delay : Z) : RE (option error).

Definition is_mapping (e : error) : bool :=
  bool_decide (is_Some (errors_as (fun t => match t with TMappingError => Some () | _ => None end) e)).

(** [retryingProjection]; [None] is out of fuel. *)
Fixpoint retrying (fuel : nat) (bounds : backoff) (delay : Z) : prog RE (option (res bytes)) :=
  match fuel with
  | O => Ret None
  | S fuel =>
      let! projected := call RProject in
      match projected with
      | Ok body => Ret (Some (Ok body))
      | Err e =>
          if is_mapping e then
            let! ended := call RErr in
            match ended with
            | Some e => Ret (Some (Err e))
            | None =>
                let! ended := call (RWait delay) in
                match ended with
                | Some e => Ret (Some (Err e))
                | None => retrying fuel bounds (next_delay bounds delay)
                end
            end
          else Ret (Some (Err e))
      end
  end.

Definition retryingProjection (fuel : nat) (bounds : backoff) : prog RE (option (res bytes)) := retrying fuel bounds (floor bounds).

(** One failed round, with the delay it waited. *)
Definition failed_round (e : error) (delay : Z) : list (obs RE) := [Obs RProject (Err e); Obs RErr None; Obs (RWait delay) None].

Fixpoint failed_rounds (bounds : backoff) (delay : Z) (errors : list error) : list (obs RE) :=
  match errors with
  | [] => []
  | e :: errors => failed_round e delay ++ failed_rounds bounds (next_delay bounds delay) errors
  end.

Fixpoint delay_after (bounds : backoff) (delay : Z) (n : nat) : Z :=
  match n with O => delay | S n => delay_after bounds (next_delay bounds delay) n end.

(** How a retried projection ends. *)
Inductive outcome (delay : Z) : list (obs RE) → res bytes → Prop :=
| Projected body : outcome delay [Obs RProject (Ok body)] (Ok body)
| Refused e : is_mapping e = false → outcome delay [Obs RProject (Err e)] (Err e)
| Expired e e' : is_mapping e = true → outcome delay [Obs RProject (Err e); Obs RErr (Some e')] (Err e')
| Cancelled e e' : is_mapping e = true →
    outcome delay [Obs RProject (Err e); Obs RErr None; Obs (RWait delay) (Some e')] (Err e').

Lemma retrying_runs fuel bounds delay t r :
  runs (retrying fuel bounds delay) t r →
  ∃ errors, Forall (fun e => is_mapping e = true) errors ∧
    match r with
    | None => length errors = fuel ∧ t = failed_rounds bounds delay errors
    | Some r => length errors < fuel ∧ ∃ last, t = failed_rounds bounds delay errors ++ last ∧ outcome (delay_after bounds delay (length errors)) last r
    end.
Proof.
  revert delay t. induction fuel as [|fuel IH]; intros delay t; simpl; [intros [-> ->]; by exists []|].
  intros ([body|e] & t1 & -> & H).
  { destruct H as [-> ->]. exists []. split; [done|]. simpl. split; [lia|]. eexists. split; [done|constructor]. }
  destruct (is_mapping e) eqn:He.
  2:{ destruct H as [-> ->]. exists []. split; [done|]. simpl. split; [lia|]. eexists. split; [done|by constructor]. }
  destruct H as ([e'|] & t2 & -> & H).
  { destruct H as [-> ->]. exists []. split; [done|]. simpl. split; [lia|]. eexists. split; [done|by constructor]. }
  destruct H as ([e'|] & t3 & -> & H).
  { destruct H as [-> ->]. exists []. split; [done|]. simpl. split; [lia|]. eexists. split; [done|by constructor]. }
  destruct (IH _ _ H) as (errors & Hall & Hr). exists (e :: errors). split; [by constructor|]. destruct r as [r|].
  - destruct Hr as (Hlen & last & -> & Ho). simpl. split; [lia|]. by exists last.
  - destruct Hr as [<- ->]. done.
Qed.

Lemma delay_after_at bounds n k : delay_after bounds (delay_at bounds k) n = delay_at bounds (n + k).
Proof.
  revert k. induction n as [|n IH]; intros k; [done|]. simpl.
  change (next_delay bounds (delay_at bounds k)) with (delay_at bounds (S k)). rewrite IH. by rewrite Nat.add_succ_r.
Qed.

Lemma is_wait_rounds bounds k errors :
  omap (fun o => match o with Obs e _ => match e with RWait d => Some d | _ => None end end) (failed_rounds bounds (delay_at bounds k) errors)
  = map (fun n => delay_at bounds (n + k)) (seq 0 (length errors)).
Proof.
  revert k. induction errors as [|e errors IH]; intros k; [done|]. simpl. f_equal.
  change (next_delay bounds (delay_at bounds k)) with (delay_at bounds (S k)). rewrite IH, <-seq_shift, map_map.
  apply map_ext. intros n. f_equal. lia.
Qed.

(** a retried projection ends in one of four ways: with the projected body, with an
    error that is not a mapping's read, or with the context's error, seen before or
    during a wait; every round before that failed to read the mapping.  The waits are
    the floor doubled each time up to the ceiling, and the retry is cut short by
    nothing else. *)
Theorem retrying_outcome fuel bounds t r :
  (0 ≤ floor bounds ≤ ceiling bounds)%Z → runs (retryingProjection fuel bounds) t (Some r) →
  ∃ errors last, Forall (fun e => is_mapping e = true) errors ∧ t = failed_rounds bounds (floor bounds) errors ++ last ∧
    outcome (delay_at bounds (length errors)) last r ∧
    omap (fun o => match o with Obs e _ => match e with RWait d => Some d | _ => None end end) (failed_rounds bounds (floor bounds) errors)
    = map (fun n => Z.min (floor bounds * 2 ^ Z.of_nat n) (ceiling bounds)) (seq 0 (length errors)).
Proof.
  intros Hb Hr. destruct (retrying_runs _ _ _ _ _ Hr) as (errors & Hall & _ & last & -> & Ho).
  exists errors, last. split_and!; [done|done| |].
  - pose proof (delay_after_at bounds (length errors) 0) as H. rewrite Nat.add_0_r in H. by rewrite <-H.
  - etrans; [apply (is_wait_rounds bounds 0)|]. apply map_ext. intros n. by rewrite Nat.add_0_r, delay_bounded.
Qed.

Definition mapping_failure : error := ETyped TMappingError (Some (EForeign "store")).

Lemma retrying_outcome_witness :
  ∃ t errors last, runs (retryingProjection 3 defaultProjectionRetry) t (Some (Ok [])) ∧
    t = failed_rounds defaultProjectionRetry (floor defaultProjectionRetry) errors ++ last ∧ outcome (delay_at defaultProjectionRetry (length errors)) last (Ok []).
Proof.
  exists (failed_round mapping_failure 50000000 ++ [Obs RProject (Ok [])]).
  assert (runs (retryingProjection 3 defaultProjectionRetry) (failed_round mapping_failure 50000000 ++ [Obs RProject (Ok [])]) (Some (Ok []))) as Hr.
  { simpl. do 2 eexists. split; [done|]. simpl. do 2 eexists. split; [done|]. simpl. do 2 eexists. split; [done|]. simpl. do 2 eexists. split; [done|]. done. }
  destruct (retrying_outcome 3 defaultProjectionRetry _ (Ok []) ltac:(simpl; lia) Hr) as (errors & last & _ & H1 & H2 & _).
  by exists errors, last.
Defined.

(** ** Supervising a tail *)

(** Where [restartRefused] is, with the tail it took from [current] or has started. *)
Inductive restarter :=
| Waiting (current : nat) | Delaying (current : nat) | Stopping (current : nat) | Starting (current : nat)
| Publishing (next : nat) | StoppingNext (next : nat) | Returned.

(** Where a caller of [Stop] is. *)
Inductive stopper := Idle | StoppingCurrent (current : nat) | Stopped.

(** [supervisedTail], the tails subscribed so far and those [Stop] was called on. *)
Record supervised := mkSupervised {
  current : nat; stopped : bool; opened : gset nat; closed : gset nat; restarting : restarter; stopping : stopper
}.

Definition at_restart (s : supervised) (r : restarter) : supervised :=
  mkSupervised (current s) (stopped s) (opened s) (closed s) r (stopping s).
Definition close_tail (s : supervised) (tail : nat) : supervised :=
  mkSupervised (current s) (stopped s) (opened s) ({[tail]} ∪ closed s) (restarting s) (stopping s).

(** [superviseTail]: the first tail, and the goroutine beside it. *)
Definition superviseTail : supervised := mkSupervised 0 false {[0]} ∅ (Waiting 0) Idle.

(** [restartRefused] and [Stop]; a context's end is possible at every select. *)
Inductive supervise : supervised → supervised → Prop :=
| WaitRefused s c : restarting s = Waiting c → supervise s (at_restart s (Delaying c))
| WaitEnded s c : restarting s = Waiting c → supervise s (at_restart s Returned)
| DelayEnded s c : restarting s = Delaying c → supervise s (at_restart s Returned)
| DelayElapsed s c : restarting s = Delaying c → stopped s = false → supervise s (at_restart s (Stopping c))
| StopRefused s c : restarting s = Stopping c → supervise s (at_restart (close_tail s c) (Starting c))
| StartFailed s c : restarting s = Starting c → supervise s (at_restart s (Delaying c))
| StartDone s c next : restarting s = Starting c → next ∉ opened s →
    supervise s (mkSupervised (current s) (stopped s) ({[next]} ∪ opened s) (closed s) (Publishing next) (stopping s))
| Publish s next : restarting s = Publishing next → stopped s = false →
    supervise s (mkSupervised next false (opened s) (closed s) (Waiting next) (stopping s))
| PublishStopped s next : restarting s = Publishing next → stopped s = true → supervise s (at_restart s (StoppingNext next))
| StopNext s next : restarting s = StoppingNext next → supervise s (at_restart (close_tail s next) Returned)
| StopBegin s : stopping s = Idle →
    supervise s (mkSupervised (current s) true (opened s) (closed s) (restarting s) (StoppingCurrent (current s)))
| StopEnd s c : stopping s = StoppingCurrent c →
    supervise s (let s := close_tail s c in mkSupervised (current s) (stopped s) (opened s) (closed s) (restarting s) Stopped).

(** The tails whose subscription nothing has stopped. *)
Definition live (s : supervised) : gset nat := opened s ∖ closed s.

(** The one tail that may be live, by where the goroutine is. *)
Definition held (s : supervised) : gset nat :=
  match restarting s with
  | Waiting _ | Delaying _ | Stopping _ | Returned => {[current s]}
  | Starting _ => ∅
  | Publishing next | StoppingNext next => {[next]}
  end.

Record supervision (s : supervised) : Prop := {
  sv_live : live s ⊆ held s;
  sv_restart : match restarting s with Waiting c | Delaying c | Stopping c | Starting c => c = current s | StoppingNext _ => stopped s = true | _ => True end;
  sv_started : match restarting s with Starting _ | Publishing _ | StoppingNext _ => current s ∈ closed s | _ => True end;
  sv_stop : match stopping s with Idle => True | StoppingCurrent c => stopped s = true ∧ c = current s | Stopped => stopped s = true ∧ current s ∈ closed s end
}.

Lemma supervise_inv s s' : supervision s → supervise s s' → supervision s'.
Proof.
  intros [Hl Hr Hd Hs] Hstep. unfold live, held in *.
  destruct Hstep; repeat match goal with H : restarting _ = _ |- _ => rewrite H in *; clear H | H : stopping _ = _ |- _ => rewrite H in *; clear H end;
    simpl in *; subst; split; unfold live, held; simpl in *; try done; try set_solver.
  all: try destruct (stopping s); try destruct (restarting s); destruct_and?; split_and?; subst; try done; try congruence; try set_solver.
Qed.

(** however its restarts and a [Stop] interleave, a supervised tail holds at most
    one subscription: a refused tail is stopped before the next is started, and a tail
    started after [Stop] is stopped by the goroutine that started it.  When both have
    returned, none is left. *)
Theorem one_live_tail s :
  rtc supervise superviseTail s → size (live s) ≤ 1 ∧ (stopping s = Stopped → restarting s = Returned → live s = ∅).
Proof.
  intros Hs. assert (supervision s) as [Hl Hr Hd Hst].
  { remember superviseTail as s0 eqn:H0. assert (supervision s0) as Hi by (subst; split; unfold live, held; simpl; [set_solver|done..]).
    clear H0. induction Hs as [|s0 s1 s2 H1 _ IH]; [done|]. apply IH. by eapply supervise_inv. }
  split.
  - trans (size (held s)); [by apply subseteq_size|]. unfold held. destruct (restarting s); rewrite ?size_singleton, ?size_empty; lia.
  - intros H1 H2. unfold held in Hl. rewrite H1 in Hst. rewrite H2 in Hl. destruct Hst as [_ Hst]. unfold live in *. set_solver.
Qed.

(** A [Stop] between the check and the start: the tail just started is stopped too. *)
Lemma one_live_tail_witness :
  ∃ s, rtc supervise superviseTail s ∧ opened s = {[1; 0]} ∧ size (live s) ≤ 1 ∧ (stopping s = Stopped → restarting s = Returned → live s = ∅).
Proof.
  eexists. assert (rtc supervise superviseTail (mkSupervised 0 true {[1; 0]} {[0; 1; 0]} Returned Stopped)) as Hr.
  { eapply rtc_l; [by apply (WaitRefused _ 0)|]. eapply rtc_l; [by apply (DelayElapsed _ 0)|]. eapply rtc_l; [by apply (StopRefused _ 0)|].
    eapply rtc_l; [by apply StopBegin|]. eapply rtc_l; [by apply (StartDone _ 0 1); vm_compute|].
    eapply rtc_l; [by apply (PublishStopped _ 1)|]. eapply rtc_l; [by apply (StopNext _ 1)|]. eapply rtc_l; [by apply (StopEnd _ 0)|].
    simpl. replace ({[1; 0]} : gset nat) with ({[1]} ∪ {[0]} : gset nat) by done.
    match goal with |- rtc _ ?a ?b => replace a with b; [reflexivity|] end. by f_equal. }
  split; [exact Hr|]. split; [done|]. exact (one_live_tail _ Hr).
Defined.
End LiveTail.
