(* ===== verification/LiveBodies.v ===== *)
(** * LiveBodies.v: transient bodies

    [internal/livetext/body.go] and [internal/livetool/body.go]: which bodies of the
    live stream are text and which are tool steps, how two texts are joined and how a
    tool step is shortened to a frame.  Structs are decoded as [encoding/json] decodes
    them: member by member, names folded, [null] leaving a field as it was, a value of
    the wrong type refusing the body.                                           *)
From Stdlib Require Import ZArith Ascii.
From stdpp Require Import base list strings gmap sorting.
From S2P Require Import Prelude Errors Json Members.

Module LiveBodies.
Import Json Members.

Implicit Types (raw body text : bytes) (c : ascii) (members : gmap string bytes).

Definition b2s := String.string_of_list_ascii.

(** ** Decoding structs *)

Definition upper c : ascii := if (97 <=? code c) && (code c <=? 122) then ascii_of_nat (code c - 32) else c.

(** A name up to the folding of [encoding/json]: letters by case, and the two runes
    that are no ASCII and fold with an ASCII letter. *)
Fixpoint foldName l : bytes :=
  match l with
  | [] => []
  | c :: rest =>
      match rest with
      | d :: (e :: rest'') as rest' =>
          if (code c =? 0xC5) && (code d =? 0xBF) then "S"%char :: foldName rest'
          else if (code c =? 0xE2) && (code d =? 0x84) && (code e =? 0xAA) then "K"%char :: foldName rest''
          else upper c :: foldName rest
      | [d] => if (code c =? 0xC5) && (code d =? 0xBF) then ["S"%char] else upper c :: foldName rest
      | [] => [upper c]
      end
  end.

Definition is_null raw : bool := bool_decide (raw = s2b "null").

(** The literal of an integer: a sign when it may be negative, then digits. *)
Fixpoint digits_value (acc : Z) l : option Z :=
  match l with
  | [] => Some acc
  | c :: l => if is_digit c then digits_value (acc * 10 + Z.of_nat (code c - 48))%Z l else None
  end.

(** [strconv.ParseInt] and [ParseUint] of a JSON number, in 64 bits. *)
Definition ParseInt raw : option Z :=
  n ← (match raw with c :: digits => if Ascii.eqb c "-" then Z.opp <$> digits_value 0 digits else digits_value 0 raw | [] => None end);
  if ((- two63 <=? n) && (n <? two63))%Z then Some n else None.
Definition ParseUint raw : option Z := n ← digits_value 0 raw; if (n <? two64)%Z then Some n else None.

(** A field: its name, and a value of it put into the struct. *)
Definition field (A : Type) : Type := string * (bytes → A → option A).

Definition string_field {A} (name : string) (put : string → A → A) : field A :=
  (name, fun raw a => if is_null raw then Some a else if starts_with raw quote then Some (put (b2s (unquote raw)) a) else None).
Definition int_field {A} (name : string) (put : Z → A → A) : field A :=
  (name, fun raw a => if is_null raw then Some a else (fun n => put n a) <$> ParseInt raw).
Definition uint_field {A} (name : string) (put : Z → A → A) : field A :=
  (name, fun raw a => if is_null raw then Some a else (fun n => put n a) <$> ParseUint raw).
Definition bool_field {A} (name : string) (put : bool → A → A) : field A :=
  (name, fun raw a => if is_null raw then Some a
     else if bool_decide (raw = s2b "true") then Some (put true a)
     else if bool_decide (raw = s2b "false") then Some (put false a) else None).

Definition put_member {A} (fields : list (field A)) (a : option A) (m : member) : option A :=
  a ← a;
  match List.find (fun f => bool_decide (foldName (s2b f.1) = foldName (key m))) fields with
  | Some f => f.2 (value m) a
  | None => Some a
  end.

(** An object into a struct. *)
Definition decode_object {A} (fields : list (field A)) raw (a : A) : option A :=
  if is_null raw then Some a
  else match objectMembers raw with Ok ms => fold_left (put_member fields) ms (Some a) | Err _ => None end.

Definition object_field {A B} (name : string) (fields : list (field B)) (get : A → B) (put : B → A → A) : field A :=
  (name, fun raw a => (fun b => put b a) <$> decode_object fields raw (get a)).

(** The value of a body without the space around it. *)
Definition trim raw : bytes := rev (skip_space (rev (skip_space raw))).

(** [json.Unmarshal] into a struct. *)
Definition unmarshal {A} (fields : list (field A)) raw (a : A) : option A :=
  if Valid raw then decode_object fields (trim raw) a else None.

(** [json.Unmarshal] into a [map[string]json.RawMessage], and [json.Marshal] of one. *)
Definition unmarshal_members raw : option (gmap string bytes) :=
  if Valid raw then
    if is_null (trim raw) then Some ∅
    else match objectMembers (trim raw) with
         | Ok ms => Some (fold_left (fun m x => <[b2s (key x) := value x]> m) ms ∅)
         | Err _ => None
         end
  else None.

Fixpoint marshal_pairs (first : bool) (pairs : list (string * bytes)) : option bytes :=
  match pairs with
  | [] => Some []
  | (k, raw) :: pairs =>
      v ← compact raw; rest ← marshal_pairs false pairs;
      Some ((if first then [] else [","%char]) ++ encode (s2b k) ++ [":"%char] ++ v ++ rest)
  end.

Definition marshal_members members : option bytes :=
  body ← marshal_pairs true (omap (fun k => pair k <$> members !! k) (sorted_keys members));
  Some (["{"%char] ++ body ++ ["}"%char]).

(** ** [livetext] *)

Record Chunk := mkChunk { c_Type : string; c_Text : string; c_Thinking : string }.
Record Delta := mkDelta { Version : Z; Type_ : string; SessionID : string; LoopID : string; TurnID : string; Chunk_ : Chunk }.

Definition zero_Delta : Delta := mkDelta 0 "" "" "" "" (mkChunk "" "" "").

Definition chunk_fields : list (field Chunk) :=
  [string_field "chunk_type" (fun s ch => mkChunk s (c_Text ch) (c_Thinking ch));
   string_field "text" (fun s ch => mkChunk (c_Type ch) s (c_Thinking ch));
   string_field "thinking" (fun s ch => mkChunk (c_Type ch) (c_Text ch) s)].

Definition delta_fields : list (field Delta) :=
  [int_field "v" (fun n d => mkDelta n (Type_ d) (SessionID d) (LoopID d) (TurnID d) (Chunk_ d));
   string_field "type" (fun s d => mkDelta (Version d) s (SessionID d) (LoopID d) (TurnID d) (Chunk_ d));
   string_field "session_id" (fun s d => mkDelta (Version d) (Type_ d) s (LoopID d) (TurnID d) (Chunk_ d));
   string_field "loop_id" (fun s d => mkDelta (Version d) (Type_ d) (SessionID d) s (TurnID d) (Chunk_ d));
   string_field "turn_id" (fun s d => mkDelta (Version d) (Type_ d) (SessionID d) (LoopID d) s (Chunk_ d));
   object_field "chunk" chunk_fields Chunk_ (fun ch d => mkDelta (Version d) (Type_ d) (SessionID d) (LoopID d) (TurnID d) ch)].

(** [MaxBytes]. *)
Definition MaxBytes : nat := 2048.

(** [Parse]; a reasoning chunk's text is its [thinking]. *)
Definition Parse body : option Delta :=
  match unmarshal delta_fields body zero_Delta with
  | None => None
  | Some d =>
      if negb (Version d =? 1)%Z || negb (String.eqb (Type_ d) "TokenDelta") || String.eqb (LoopID d) "" || String.eqb (TurnID d) ""
         || (negb (String.eqb (c_Type (Chunk_ d)) "text") && negb (String.eqb (c_Type (Chunk_ d)) "thinking"))
      then None
      else
        let ch := Chunk_ d in
        let text := if String.eqb (c_Type ch) "thinking" then c_Thinking ch else c_Text ch in
        let d := mkDelta (Version d) (Type_ d) (SessionID d) (LoopID d) (TurnID d) (mkChunk (c_Type ch) text (c_Thinking ch)) in
        if String.eqb text "" || (MaxBytes <? String.length text) then None else Some d
  end.

(** [Join]. *)
Definition Join first (text : string) : option bytes :=
  d ← Parse first; body ← unmarshal_members first;
  let thinking := String.eqb (c_Type (Chunk_ d)) "thinking" in
  let chunk := s2b "{" ++ encode (s2b "chunk_type") ++ s2b ":" ++ encode (s2b (if thinking then "thinking" else "text")) ++ s2b "," ++
               encode (s2b (if thinking then "thinking" else "text")) ++ s2b ":" ++ encode (s2b text) ++ s2b "}" in
  marshal_members (<["chunk" := chunk]> body).

(** [Merge]. *)
Definition Merge first next : option bytes :=
  a ← Parse first; b ← Parse next;
  if negb (String.eqb (SessionID a) (SessionID b)) || negb (String.eqb (LoopID a) (LoopID b)) || negb (String.eqb (TurnID a) (TurnID b))
     || negb (String.eqb (c_Type (Chunk_ a)) (c_Type (Chunk_ b)))
     || (MaxBytes <? String.length (c_Text (Chunk_ a)) + String.length (c_Text (Chunk_ b)))
  then None else Join first (c_Text (Chunk_ a) ++ c_Text (Chunk_ b)).

(** [BoundaryLoop]: the loop of a committed boundary. *)
Definition boundary_fields : list (field (string * string)) :=
  [string_field "type" (fun s b => (s, b.2)); string_field "loop_id" (fun s b => (b.1, s))].

Definition BoundaryLoop body : option string :=
  match unmarshal boundary_fields body ("", "")%string with
  | None => None
  | Some (type, loop) =>
      if bool_decide (type ∈ ["StepDone"; "TurnDone"; "TurnFailed"; "TurnInterrupted"]%string) then Some loop else None
  end.

(** A text written with apostrophes for quotes. *)
Definition json (s : string) : bytes := map (fun c => if Ascii.eqb c "'" then quote else c) (s2b s).

Definition sample_text (text : string) : bytes :=
  json "{'v':1,'type':'TokenDelta','session_id':'','loop_id':'loop-a','turn_id':'turn-a','chunk':{'chunk_type':'text','text':'" ++ s2b text ++ json "'}}".

(** The bytes of a merge, as the tests of the repository state them. *)
Example merge_bytes :
  Merge (sample_text "hello ") (sample_text "world") =
  Some (json "{'chunk':{'chunk_type':'text','text':'hello world'},'loop_id':'loop-a','session_id':'','turn_id':'turn-a','type':'TokenDelta','v':1}").
Proof. by vm_compute. Qed.

(** ** [livetool] *)

Record Step := mkStep {
  st_Version : Z; st_Type : string; st_SessionID : string; st_LoopID : string; st_TurnID : string; StepID : string;
  ToolExecutionID : string; ToolUseID : string; ToolName : string; Summary : string; IsError : bool; ElapsedMillis : Z; ResultPreview : string
}.

Definition zero_Step : Step := mkStep 0 "" "" "" "" "" "" "" "" "" false 0 "".

Definition step_fields : list (field Step) :=
  [int_field "v" (fun n '(mkStep v ty se lo tu sp te us na su er el re) => mkStep n ty se lo tu sp te us na su er el re);
   string_field "type" (fun s '(mkStep v ty se lo tu sp te us na su er el re) => mkStep v s se lo tu sp te us na su er el re);
   string_field "session_id" (fun s '(mkStep v ty se lo tu sp te us na su er el re) => mkStep v ty s lo tu sp te us na su er el re);
   string_field "loop_id" (fun s '(mkStep v ty se lo tu sp te us na su er el re) => mkStep v ty se s tu sp te us na su er el re);
   string_field "turn_id" (fun s '(mkStep v ty se lo tu sp te us na su er el re) => mkStep v ty se lo s sp te us na su er el re);
   string_field "step_id" (fun s '(mkStep v ty se lo tu sp te us na su er el re) => mkStep v ty se lo tu s te us na su er el re);
   string_field "tool_execution_id" (fun s '(mkStep v ty se lo tu sp te us na su er el re) => mkStep v ty se lo tu sp s us na su er el re);
   string_field "tool_use_id" (fun s '(mkStep v ty se lo tu sp te us na su er el re) => mkStep v ty se lo tu sp te s na su er el re);
   string_field "tool_name" (fun s '(mkStep v ty se lo tu sp te us na su er el re) => mkStep v ty se lo tu sp te us s su er el re);
   string_field "summary" (fun s '(mkStep v ty se lo tu sp te us na su er el re) => mkStep v ty se lo tu sp te us na s er el re);
   bool_field "is_error" (fun b '(mkStep v ty se lo tu sp te us na su er el re) => mkStep v ty se lo tu sp te us na su b el re);
   uint_field "elapsed_ms" (fun n '(mkStep v ty se lo tu sp te us na su er el re) => mkStep v ty se lo tu sp te us na su er n re);
   string_field "result_preview" (fun s '(mkStep v ty se lo tu sp te us na su er el re) => mkStep v ty se lo tu sp te us na su er el s)].

(** [livetool.Parse]. *)
Definition ParseStep body : option Step :=
  match unmarshal step_fields body zero_Step with
  | None => None
  | Some d =>
      if negb (st_Version d =? 1)%Z || (negb (String.eqb (st_Type d) "ToolCallStarted") && negb (String.eqb (st_Type d) "ToolCallCompleted"))
         || String.eqb (st_LoopID d) "" || String.eqb (st_TurnID d) "" || String.eqb (ToolExecutionID d) ""
      then None else Some d
  end.

(** [ellipsis], in UTF-8. *)
Definition ellipsis : bytes := map ascii_of_nat [0xE2; 0x80; 0xA6].

(** [utf8.RuneStart]. *)
Definition RuneStart c : bool := negb (in_range 0x80 0xBF c).

(** A cut moved back to the start of a rune. *)
Fixpoint rune_boundary text (cut : nat) : nat :=
  match cut with
  | O => 0
  | S cut' => match text !! cut with
              | Some c => if RuneStart c then cut else rune_boundary text cut'
              | None => cut
              end
  end.

(** One member's shortening ends with the body, an error, or the member as short as it
    gets. *)
Inductive shortening := Fits (encoded : bytes) | Unencodable | Exhausted (members : gmap string bytes) | OutOfFuel.

Fixpoint shorten (fuel : nat) members (name : string) text (cut limit : nat) : shortening :=
  match fuel with
  | O => OutOfFuel
  | S fuel =>
      match marshal_members members with
      | None => Unencodable
      | Some encoded =>
          if length encoded <=? limit then Fits encoded
          else match cut with
               | O => Exhausted members
               | _ =>
                   let cut := rune_boundary text (cut - (length encoded - limit + length ellipsis)) in
                   shorten fuel (<[name := encode (take cut text ++ ellipsis)]> members) name text cut limit
               end
      end
  end.

Fixpoint fit_members members (names : list string) (limit : nat) : option bytes :=
  match names with
  | [] => None
  | name :: names =>
      match members !! name with
      | None => fit_members members names limit
      | Some raw =>
          text ← unmarshal_string raw;
          match shorten (S (length text)) members name text (length text) limit with
          | Fits encoded => Some encoded
          | Exhausted members => fit_members members names limit
          | Unencodable | OutOfFuel => None
          end
      end
  end.

(** [Fit]. *)
Definition shortened_names : list string := ["result_preview"; "summary"]%string.

Definition Fit body (limit : nat) : option bytes :=
  _ ← ParseStep body;
  if length body <=? limit then Some body
  else members ← unmarshal_members body; fit_members members shortened_names limit.

(** ** Shortening *)

Lemma rune_boundary_le text cut : rune_boundary text cut ≤ cut.
Proof. induction cut as [|cut IH]; simpl; [done|]. repeat case_match; lia. Qed.

(** A boundary is the text's start or a byte a rune starts with. *)
Definition at_rune text (cut : nat) : Prop := cut = 0 ∨ match text !! cut with Some c => RuneStart c = true | None => True end.

Lemma rune_boundary_at text cut : at_rune text (rune_boundary text cut).
Proof.
  induction cut as [|cut IH]; [by left|]. simpl. destruct (text !! S cut) as [c|] eqn:Hc; [|right; by rewrite Hc].
  destruct (RuneStart c) eqn:Hr; [right; by rewrite Hc|done].
Qed.

(** What a member may be shortened to. *)
Definition shortened text raw : Prop := ∃ cut, at_rune text cut ∧ raw = encode (take cut text ++ ellipsis).

Lemma shorten_spec fuel members name text cut limit :
  cut < fuel →
  match shorten fuel members name text cut limit with
  | Fits encoded => length encoded ≤ limit ∧ ∃ members', marshal_members members' = Some encoded ∧
      (members' = members ∨ ∃ raw, shortened text raw ∧ members' = <[name := raw]> members)
  | Exhausted members' => members' = members ∨ ∃ raw, shortened text raw ∧ members' = <[name := raw]> members
  | Unencodable => True
  | OutOfFuel => False
  end.
Proof.
  revert members cut. induction fuel as [|fuel IH]; intros members cut Hf; [lia|]. cbn [shorten].
  destruct (marshal_members members) as [encoded|] eqn:Hm; [|done].
  destruct (Nat.leb_spec (length encoded) limit) as [Hle|Hlt]; [split; [done|]; exists members; auto|].
  destruct cut as [|cut]; [by left|]. set (cut' := rune_boundary _ _).
  assert (cut' < fuel) as Hc.
  { unfold cut'. pose proof (rune_boundary_le text (S cut - (length encoded - limit + length ellipsis))). simpl in *. lia. }
  specialize (IH (<[name := encode (take cut' text ++ ellipsis)]> members) cut' Hc).
  assert (shortened text (encode (take cut' text ++ ellipsis))) as Hs by (exists cut'; split; [apply rune_boundary_at|done]).
  destruct (shorten _ _ _ _ _ _) as [out| |m'|]; [| | |done].
  - destruct IH as (Hl & m & Hm' & [->|(raw & Hr & ->)]); (split; [done|]); eexists; (split; [exact Hm'|]); right; [eauto|].
    exists raw. split; [done|]. by rewrite insert_insert_eq.
  - done.
  - destruct IH as [->|(raw & Hr & ->)]; right; [eauto|]. exists raw. split; [done|]. by rewrite insert_insert_eq.
Qed.

(** A member read as a string. *)
Definition text_of members (name : string) text : Prop := ∃ raw, members !! name = Some raw ∧ unmarshal_string raw = Some text.

(** [members'] is [members] with only the shortenable members changed, each to a
    shortening of its text. *)
Definition only_shortened members members' : Prop :=
  ∀ name, members' !! name = members !! name ∨
    name ∈ shortened_names ∧ ∃ text raw, text_of members name text ∧ shortened text raw ∧ members' !! name = Some raw.

Lemma fit_members_spec members0 members names limit out :
  NoDup names → names ⊆ shortened_names → only_shortened members0 members → (∀ name, name ∈ names → members !! name = members0 !! name) →
  fit_members members names limit = Some out →
  length out ≤ limit ∧ ∃ members', marshal_members members' = Some out ∧ only_shortened members0 members'.
Proof.
  intros Hnd. revert members. induction Hnd as [|name names Hn Hnd IH]; intros members Hsub Hos Heq; [done|]. cbn [fit_members].
  assert (names ⊆ shortened_names) as Hsub' by set_solver.
  destruct (members !! name) as [raw|] eqn:Hraw.
  2:{ apply IH; [done|done|]. intros x Hx. apply Heq. by right. }
  destruct (unmarshal_string raw) as [text|] eqn:Htext; [|done]. cbn [mbind option_bind].
  assert (text_of members0 name text) as Ht.
  { exists raw. split; [|done]. rewrite <-Hraw. symmetry. apply Heq. left. }
  assert (∀ raw', shortened text raw' → only_shortened members0 (<[name := raw']> members)) as Hput.
  { intros raw' Hr x. destruct (decide (x = name)) as [->|Hx].
    - right. split; [apply Hsub; left|]. exists text, raw'. by rewrite lookup_insert_eq.
    - rewrite lookup_insert_ne by done. apply Hos. }
  pose proof (shorten_spec (S (length text)) members name text (length text) limit ltac:(lia)) as Hs.
  destruct (shorten _ _ _ _ _ _) as [encoded| |m'|]; [|done| |done].
  - intros [= ->]. destruct Hs as (Hl & m & Hm & [->|(raw' & Hr & ->)]); (split; [done|]); eauto.
  - apply IH; [done| |].
    + destruct Hs as [->|(raw' & Hr & ->)]; auto.
    + intros x Hx. assert (x ≠ name) as Hne by (by intros ->).
      destruct Hs as [->|(raw' & Hr & ->)]; [|rewrite lookup_insert_ne by done]; apply Heq; by right.
Qed.

(** A tool step is shortened to the frame it must fit: what [Fit] returns is within the
    limit; a body within it is returned as it is; and otherwise it is the encoding of
    the body's own members with at most the result preview and the summary changed,
    each to a prefix of its text that ends at a rune, and the ellipsis. *)
Theorem Fit_bounded body limit out :
  Fit body limit = Some out →
  length out ≤ limit ∧
  (length body ≤ limit → out = body) ∧
  (limit < length body → ∃ members members', unmarshal_members body = Some members ∧ marshal_members members' = Some out ∧ only_shortened members members').
Proof.
  unfold Fit. destruct (ParseStep body); [|done]. cbn [mbind option_bind].
  destruct (Nat.leb_spec (length body) limit) as [Hle|Hlt]; [intros [= <-]; split_and!; [done|done|lia]|].
  destruct (unmarshal_members body) as [members|]; [|done]. cbn [mbind option_bind]. intros Hf.
  destruct (fit_members_spec members members shortened_names limit out) as (Hl & m & Hm & Ho); [|done|by left|done|done|].
  - apply NoDup_cons. split; [|apply NoDup_singleton]. by intros ?%list_elem_of_singleton.
  - split_and!; [done|lia|]. intros _. eauto.
Qed.

Definition sample_step : bytes :=
  json "{'v':1,'type':'ToolCallCompleted','session_id':'s','loop_id':'l','turn_id':'t','tool_execution_id':'x','summary':'sum','result_preview':'" ++
  ellipsis ++ s2b "0123456789" ++ ellipsis ++ json "'}".

Lemma Fit_bounded_witness :
  145 < length sample_step ∧ ∃ out, Fit sample_step 145 = Some out ∧ length out ≤ 145 ∧
  (145 < length sample_step → ∃ members members', unmarshal_members sample_step = Some members ∧ marshal_members members' = Some out ∧ only_shortened members members').
Proof.
  split; [vm_compute; lia|]. destruct (Fit sample_step 145) as [out|] eqn:Hf; [|by vm_compute in Hf]. exists out.
  destruct (Fit_bounded sample_step 145 out Hf) as (H1 & _ & H2). by split_and!.
Defined.
End LiveBodies.
