(* ===== verification/Relay.v ===== *)
(** * Relay.v: a session's live tail

    [internal/service/events.go]: the options of [Tails], the choice of subscription in
    [PublishProjected], and the two relaying goroutines, [relay] for a committed stream
    and [relayLive] for one that mixes transient previews in.  A goroutine is a function
    from its state and the case its select takes to its next state; the case carries
    what its collaborators answer (whether the transport admits a transient frame, what
    the projection and the publication of a committed event return, the context's
    error).  Core's encoding of a publication is a parameter, as is the transient
    projection.                                                                 *)
From Stdlib Require Import ZArith Ascii.
From stdpp Require Import base list strings gmap sets.
From S2P Require Import Prelude Wire Errors Json LiveBodies.

Module Relay.
Import Json LiveBodies.

Implicit Types (body : bytes).

(** [sessionwire]'s publications. *)
Record EphemeralPublication := mkEph { e_Key : Key; e_Body : bytes }.
Record EnduringPublication := mkEnduring { p_Key : Key; EventID : string; JournalSeq : Z; CoveredThrough : Z; p_Body : bytes }.

(** [TailEnd]. *)
Inductive TailEnd := TailEndRunning | TailEndStopped | TailEndLost | TailEndRefused.

#[export] Instance TailEnd_eq_dec : EqDecision TailEnd.
Proof. solve_decision. Defined.

(** [ErrForeignPublication]. *)
Definition ErrForeignPublication : error := ESentinel "service.ErrForeignPublication".

(** A frame the transport took. *)
Inductive frame := FEnduring (p : EnduringPublication) | FText (p : EphemeralPublication) (text : Delta) | FTool (p : EphemeralPublication).

(** [Tail], with the frames published on its channel and the invalidations of its
    session's routes. *)
Record Tail := mkTail {
  t_Key : Key; t_end : TailEnd; t_cause : option error; t_published : nat; t_ephPublished : nat; t_ephDrops : nat;
  t_frames : list frame; t_invalidated : nat
}.

Implicit Types (t : Tail).

Definition new_tail (key : Key) : Tail := mkTail key TailEndRunning None 0 0 0 [] 0.

(** [finish], [count], [dropEphemeral] and [invalidate]. *)
Definition finish t (e : TailEnd) (c : option error) : Tail :=
  if bool_decide (t_end t = TailEndRunning)
  then mkTail (t_Key t) e c (t_published t) (t_ephPublished t) (t_ephDrops t) (t_frames t) (t_invalidated t) else t.
Definition count t (p : EnduringPublication) : Tail :=
  mkTail (t_Key t) (t_end t) (t_cause t) (S (t_published t)) (t_ephPublished t) (t_ephDrops t) (t_frames t ++ [FEnduring p]) (t_invalidated t).
Definition dropEphemeral t : Tail :=
  mkTail (t_Key t) (t_end t) (t_cause t) (t_published t) (t_ephPublished t) (S (t_ephDrops t)) (t_frames t) (t_invalidated t).
Definition invalidate t : Tail :=
  mkTail (t_Key t) (t_end t) (t_cause t) (t_published t) (t_ephPublished t) (t_ephDrops t) (t_frames t) (S (t_invalidated t)).
Definition count_ephemeral t (f : frame) : Tail :=
  mkTail (t_Key t) (t_end t) (t_cause t) (t_published t) (S (t_ephPublished t)) (t_ephDrops t) (t_frames t ++ [f]) (t_invalidated t).

(** What a committed publication's projection and transport answer. *)
Record publishing := mkPublishing { rewritten : option (res bytes); marshalled : option error; transported : option error }.

(** [publish]; [rewritten] is [None] when the tail has no projector. *)
Definition publish t (p : EnduringPublication) (a : publishing) : Tail * option error :=
  if negb (bool_decide (p_Key p = t_Key t)) then (t, Some ErrForeignPublication)
  else
    match (match rewritten a with None => Ok (p_Body p) | Some r => r end) with
    | Err e => (t, Some e)
    | Ok body =>
        match marshalled a with
        | Some e => (t, Some e)
        | None =>
            match transported a with
            | Some e => (t, Some e)
            | None => (count t (mkEnduring (p_Key p) (EventID p) (JournalSeq p) (CoveredThrough p) body), None)
            end
        end
    end.

(** ** Starting a tail *)

(** [TailOptions] and what [NewTails] makes of them, in nanoseconds; the timer and the
    logger are the standard library's by default. *)
Record TailOptions := mkTailOptions {
  o_Publications : bool; o_Routes : bool; FlushInterval : Z; IncludeReasoning : bool; IncludeToolSteps : bool
}.

Definition InvalidTailOptionsError (field : string) : error := EForeign ("service: invalid option " ++ field).

Definition NewTails (o : TailOptions) : res TailOptions :=
  if negb (o_Publications o) then Err (InvalidTailOptionsError "Publications")
  else if negb (o_Routes o) then Err (InvalidTailOptionsError "Routes")
  else if (FlushInterval o <? 0)%Z then Err (InvalidTailOptionsError "FlushInterval")
  else Ok (mkTailOptions true true (if (FlushInterval o =? 0)%Z then 50000000 else FlushInterval o) (IncludeReasoning o) (IncludeToolSteps o)).

(** What the subscriber can do beyond the committed stream, and the subscription
    [PublishProjected] asks it for. *)
Record subscriber := mkSubscriber { live_options : bool; live_publications : bool; reasoning_publications : bool }.

Inductive subscription :=
| SubscribeLivePublicWith (reasoning tools : bool) | SubscribeLivePublicWithReasoning | SubscribeLivePublic | SubscribeCommitted.

Definition choose_subscription (o : TailOptions) (s : subscriber) (transient : bool) : subscription :=
  if live_options s && transient then SubscribeLivePublicWith (IncludeReasoning o) (IncludeToolSteps o)
  else if live_publications s && transient
       then if reasoning_publications s && IncludeReasoning o then SubscribeLivePublicWithReasoning else SubscribeLivePublic
       else SubscribeCommitted.

(** [PublishProjected], up to its goroutine: the tail to relay for, and whether it is the
    live relay; [subscribe] is the subscriber's answer. *)
Definition PublishProjected (o : TailOptions) (valid_tenant valid_session : string → bool) (key : Key) (s : option subscriber) (transient : bool)
    (subscribe : subscription → option error) : res (Tail * bool) :=
  match s with
  | None => Err (InvalidTailOptionsError "PublicationSubscriber")
  | Some s =>
      if negb (valid_tenant (Wire.TenantID key)) then Err (InvalidTailOptionsError "TenantID")
      else if negb (valid_session (Wire.SessionID key)) then Err (InvalidTailOptionsError "SessionID")
      else
        let chosen := choose_subscription o s transient in
        match subscribe chosen with
        | Some e => Err e
        | None => Ok (new_tail key, match chosen with SubscribeCommitted => false | _ => true end)
        end
  end.

(** ** The committed relay *)

Inductive relay_event :=
| RDone (e : error)
| RPublication (p : EnduringPublication) (a : publishing) (ctx : option error)
| RClosed (ctx : option error).

(** How a stream that closed, and a publication that failed, end the tail: with the
    context's error when it has ended, which is a stop. *)
Definition end_closed t (ctx : option error) : Tail :=
  match ctx with Some e => finish t TailEndStopped (Some e) | None => invalidate (finish t TailEndLost None) end.
Definition end_refused t (ctx : option error) (cause : error) : Tail :=
  match ctx with Some e => finish t TailEndStopped (Some e) | None => invalidate (finish t TailEndRefused (Some cause)) end.

(** One round of [relay]; [false] when the goroutine returns. *)
Definition relay_step t (ev : relay_event) : Tail * bool :=
  match ev with
  | RDone e => (finish t TailEndStopped (Some e), false)
  | RClosed ctx => (end_closed t ctx, false)
  | RPublication p a ctx =>
      let '(t, failed) := publish t p a in
      match failed with
      | Some cause => (end_refused t ctx cause, false)
      | None => (t, true)
      end
  end.

(** [relay]. *)
Fixpoint relay t (events : list relay_event) : Tail :=
  match events with
  | [] => t
  | ev :: events => let '(t, running) := relay_step t ev in if running then relay t events else t
  end.

(** ** The live relay *)

Definition liveProjectionQueue : nat := 16.
Definition ephemeralFrameCap : nat := 4096.

Definition NUL : string := String "000" EmptyString.
Definition textKey (d : Delta) : string := LoopID d ++ NUL ++ TurnID d ++ NUL ++ c_Type (Chunk_ d).

(** The variables of [relayLive]; [armed] is whether [flushAt] is a timer's channel, and
    [projecting] what the worker holds. *)
Record relaying := mkRelaying {
  tail_ : Tail; pending : option (EphemeralPublication * Delta); gapped : gset string; armed : bool;
  projecting : option EphemeralPublication; queued : list EphemeralPublication
}.

Implicit Types (s : relaying).

Definition start_relaying (key : Key) : relaying := mkRelaying (new_tail key) None ∅ false None [].

Definition on_tail (f : Tail → Tail) s : relaying := mkRelaying (f (tail_ s)) (pending s) (gapped s) (armed s) (projecting s) (queued s).
Definition set_pending (p : option (EphemeralPublication * Delta)) (timer : bool) s : relaying :=
  mkRelaying (tail_ s) p (gapped s) timer (projecting s) (queued s).
Definition mark (key : string) s : relaying := mkRelaying (tail_ s) (pending s) ({[key]} ∪ gapped s) (armed s) (projecting s) (queued s).
Definition set_projecting (p : option EphemeralPublication) s : relaying := mkRelaying (tail_ s) (pending s) (gapped s) (armed s) p (queued s).
Definition set_queued (q : list EphemeralPublication) s : relaying := mkRelaying (tail_ s) (pending s) (gapped s) (armed s) (projecting s) q.

Section live.
Context (includeReasoning includeToolSteps : bool) (transient : bytes → option bytes) (marshal_eph : EphemeralPublication → option bytes).

(** [fitsEphemeralFrame]. *)
Definition fitsEphemeralFrame (p : EphemeralPublication) : bool :=
  match marshal_eph p with Some payload => length payload <=? ephemeralFrameCap | None => false end.

(** [publishEphemeral]; [admits] is the transport's answer, false without one. *)
Definition publishEphemeral t (p : EphemeralPublication) (f : EphemeralPublication → frame) (admits : bool) : Tail * bool :=
  if fitsEphemeralFrame p && admits then (count_ephemeral t (f p), true) else (t, false).

(** [publishToolStep]. *)
Definition publishToolStep t (p : EphemeralPublication) (admits : bool) : Tail * bool :=
  match marshal_eph (mkEph (e_Key p) (s2b "{}")) with
  | None => (t, false)
  | Some envelope =>
      match Fit (e_Body p) (ephemeralFrameCap - (length envelope - 2)) with
      | None => (t, false)
      | Some body => publishEphemeral t (mkEph (e_Key p) body) FTool admits
      end
  end.

(** [markGap]. *)
Definition markGap body s : relaying := match Parse body with Some d => mark (textKey d) s | None => s end.

(** [flush]. *)
Definition flush (admits : bool) s : relaying :=
  match pending s with
  | None => s
  | Some (p, d) =>
      let '(t, published) := publishEphemeral (tail_ s) p (fun p => FText p d) admits in
      if published then set_pending None false (on_tail (fun _ => t) s) else set_pending (Some (p, d)) true s
  end.

(** What still waits to be flushed is dropped, and its text gapped. *)
Definition drop_pending s : relaying :=
  match pending s with
  | None => s
  | Some (_, d) => on_tail dropEphemeral (set_pending None false (mark (textKey d) s))
  end.

(** [clearBoundary]. *)
Definition of_loop (loop key : string) : bool := String.eqb loop "" || String.prefix (loop ++ NUL) key.
Definition clearBoundary body s : relaying :=
  match BoundaryLoop body with
  | None => s
  | Some loop => mkRelaying (tail_ s) (pending s) (filter (fun key => of_loop loop key = false) (gapped s)) (armed s) (projecting s) (queued s)
  end.

(** The worker of [startProjection]: the projected publication, as text or a tool step;
    [None] when it is not to be published. *)
Inductive live_kind := KText (d : Delta) | KTool.

Definition project_live (key : Key) (value : EphemeralPublication) : option (EphemeralPublication * live_kind) :=
  body ← transient (e_Body value);
  let value := mkEph (e_Key value) body in
  match Parse body with
  | Some d =>
      if (includeReasoning || String.eqb (c_Type (Chunk_ d)) "text") && String.eqb (LiveBodies.SessionID d) (Wire.SessionID key)
      then Some (value, KText d) else None
  | None =>
      if includeToolSteps
      then match ParseStep body with
           | Some step => if String.eqb (st_SessionID step) (Wire.SessionID key) then Some (value, KTool) else None
           | None => None
           end
      else None
  end.

(** A projected text: merged into what is pending, or pending in its place. *)
Definition pend (value : EphemeralPublication) (d : Delta) (admits : bool) s : relaying :=
  let s := drop_pending (flush admits s) in set_pending (Some (value, d)) true s.

Definition accept_text (value : EphemeralPublication) (d : Delta) (admits : bool) s : relaying :=
  let key := textKey d in
  if bool_decide (key ∈ gapped s) then on_tail dropEphemeral s
  else if negb (fitsEphemeralFrame value) then on_tail dropEphemeral (mark key s)
  else
    match pending s with
    | Some (p, d0) =>
        if String.eqb (textKey d0) key then
          match Merge (e_Body p) (e_Body value) with
          | Some body =>
              if fitsEphemeralFrame (mkEph (e_Key p) body)
              then set_pending (Some (mkEph (e_Key p) body,
                     mkDelta (Version d0) (Type_ d0) (LiveBodies.SessionID d0) (LoopID d0) (TurnID d0)
                       (mkChunk (c_Type (Chunk_ d0)) (c_Text (Chunk_ d0) ++ c_Text (Chunk_ d)) (c_Thinking (Chunk_ d0))))) (armed s) s
              else on_tail dropEphemeral (on_tail dropEphemeral (set_pending None false (mark key s)))
          | None => on_tail dropEphemeral (on_tail dropEphemeral (set_pending None false (mark key s)))
          end
        else pend value d admits s
    | None => pend value d admits s
    end.

Definition accept_tool (value : EphemeralPublication) (admits admit_tool : bool) s : relaying :=
  let s := flush admits s in
  match pending s with
  | Some _ => on_tail dropEphemeral s
  | None =>
      let '(t, published) := publishToolStep (tail_ s) value admit_tool in
      if published then on_tail (fun _ => t) s else on_tail dropEphemeral s
  end.

(** The next queued publication goes to the worker. *)
Definition next_projection s : relaying :=
  match queued s with
  | value :: queued => set_projecting (Some value) (set_queued queued s)
  | [] => set_projecting None s
  end.

(** The cases of [relayLive]'s select; a projection may also fail, or be cancelled. *)
Inductive live_event :=
| LDone (e : error)
| LFlush (admits : bool)
| LProjected (failed : bool) (admits admit_tool : bool)
| LClosed (ctx : option error)
| LTerminal (e : error)
| LEnduring (p : EnduringPublication) (admits : bool) (a : publishing) (ctx : option error)
| LEphemeral (value : EphemeralPublication)
| LNeither.

(** Every preview in the worker and the queue is dropped, and its text gapped. *)
Definition drop_projections s : relaying :=
  let s := match projecting s with Some value => on_tail dropEphemeral (set_projecting None (markGap (e_Body value) s)) | None => s end in
  set_queued [] (fold_left (fun s value => on_tail dropEphemeral (markGap (e_Body value) s)) (queued s) s).

(** One round of [relayLive]; [false] when the goroutine returns, [None] when the select
    has no such case. *)
Definition live_step s (ev : live_event) : option (relaying * bool) :=
  match ev with
  | LDone e => Some (on_tail (fun t => finish t TailEndStopped (Some e)) (set_pending (pending s) false s), false)
  | LFlush admits =>
      if armed s then
        Some (match projecting s, queued s with None, [] => flush admits s | _, _ => s end, true)
      else None
  | LProjected failed admits admit_tool =>
      match projecting s with
      | None => None
      | Some value =>
          let s := set_projecting None s in
          let s := match (if failed then None else project_live (t_Key (tail_ s)) value) with
                   | None => on_tail dropEphemeral s
                   | Some (value, KTool) => accept_tool value admits admit_tool s
                   | Some (value, KText d) => accept_text value d admits s
                   end in
          Some (next_projection s, true)
      end
  | LClosed ctx => Some (on_tail (fun t => end_closed t ctx) (set_pending (pending s) false s), false)
  | LTerminal e => Some (on_tail (fun t => invalidate (finish t TailEndLost (Some e))) s, false)
  | LEnduring p admits a ctx =>
      let s := drop_pending (flush admits (drop_projections s)) in
      let '(t, failed) := publish (tail_ s) p a in
      match failed with
      | Some cause => Some (on_tail (fun _ => end_refused t ctx cause) s, false)
      | None => Some (clearBoundary (p_Body p) (on_tail (fun _ => t) s), true)
      end
  | LEphemeral value =>
      if negb (bool_decide (e_Key value = t_Key (tail_ s))) then Some (on_tail dropEphemeral s, true)
      else match projecting s with
           | None => Some (set_projecting (Some value) s, true)
           | Some _ => if length (queued s) =? liveProjectionQueue then Some (on_tail dropEphemeral s, true)
                       else Some (set_queued (queued s ++ [value]) s, true)
           end
  | LNeither => Some (on_tail dropEphemeral s, true)
  end.

(** [relayLive]. *)
Fixpoint relayLive s (events : list live_event) : option relaying :=
  match events with
  | [] => Some s
  | ev :: events =>
      match live_step s ev with
      | None => None
      | Some (s, true) => relayLive s events
      | Some (s, false) => match events with [] => Some s | _ => None end
      end
  end.

(** ** How a tail ends *)

(** The invalidations follow the end: a lost or refused tail invalidates its session's
    routes once, a stopped or running one never. *)
Definition ended_well t : Prop :=
  t_invalidated t = match t_end t with TailEndLost | TailEndRefused => 1 | _ => 0 end ∧
  t_published t = length (omap (fun f => match f with FEnduring p => Some p | _ => None end) (t_frames t)) ∧
  t_published t + t_ephPublished t = length (t_frames t).

Definition enduring_frames t : list EnduringPublication := omap (fun f => match f with FEnduring p => Some p | _ => None end) (t_frames t).

Definition running t : Prop := t_end t = TailEndRunning ∧ ended_well t.

(** A step that only publishes transient frames, or drops. *)
Record quiet t t' : Prop := {
  q_running : running t → running t';
  q_key : t_Key t' = t_Key t;
  q_enduring : enduring_frames t' = enduring_frames t;
  q_frames : ∃ new, t_frames t' = t_frames t ++ new
}.

#[global] Instance quiet_refl : Reflexive quiet.
Proof. intros t. split; [done|done|done|]. exists []. by rewrite app_nil_r. Qed.

#[global] Instance quiet_trans : Transitive quiet.
Proof.
  intros t1 t2 t3 [A1 A2 A3 [n1 A4]] [B1 B2 B3 [n2 B4]]. split; [auto|congruence|congruence|].
  exists (n1 ++ n2). by rewrite B4, A4, app_assoc.
Qed.

Lemma quiet_drop t : quiet t (dropEphemeral t).
Proof. split; [done|done|done|]. exists []. simpl. by rewrite app_nil_r. Qed.

Lemma quiet_publish t p f admits t' b :
  (∀ p, match f p with FEnduring _ => False | _ => True end) → publishEphemeral t p f admits = (t', b) → quiet t t'.
Proof.
  intros Hf. unfold publishEphemeral. destruct (_ && _); intros [= <- <-]; [|reflexivity]. specialize (Hf p).
  split; [|done| |by exists [f p]].
  - intros (H1 & H2 & H3 & H4). unfold running, ended_well, count_ephemeral. simpl. rewrite omap_app, !length_app.
    split_and!; [done|done| |simpl; lia]. rewrite H3. by destruct (f p); simpl; rewrite ?Nat.add_0_r.
  - unfold enduring_frames, count_ephemeral. simpl. rewrite omap_app. destruct (f p); simpl; [done|by rewrite app_nil_r|by rewrite app_nil_r].
Qed.

Lemma quiet_flush admits s : quiet (tail_ s) (tail_ (flush admits s)).
Proof.
  unfold flush. destruct (pending s) as [[p d]|]; [|reflexivity]. destruct (publishEphemeral _ _ _ _) as [t' b] eqn:H.
  assert (quiet (tail_ s) t') as Hq by (by eapply quiet_publish; [|exact H]).
  destruct b; simpl; [done|reflexivity].
Qed.

Lemma quiet_drop_pending s : quiet (tail_ s) (tail_ (drop_pending s)).
Proof. unfold drop_pending. destruct (pending s) as [[p d]|]; [|reflexivity]. apply quiet_drop. Qed.

Lemma markGap_tail body s : tail_ (markGap body s) = tail_ s.
Proof. unfold markGap. by destruct (Parse body). Qed.

Lemma quiet_drop_projections s : quiet (tail_ s) (tail_ (drop_projections s)).
Proof.
  unfold drop_projections. simpl. assert (∀ q s0, quiet (tail_ s0) (tail_ (fold_left (fun s value => on_tail dropEphemeral (markGap (e_Body value) s)) q s0))) as H.
  { induction q as [|v q IH]; intros s0; simpl; [reflexivity|]. etrans; [|apply IH]. simpl. rewrite markGap_tail. apply quiet_drop. }
  etrans; [|apply H]. destruct (projecting s); [|reflexivity]. simpl. rewrite markGap_tail. apply quiet_drop.
Qed.

Lemma quiet_pend value d admits s : quiet (tail_ s) (tail_ (pend value d admits s)).
Proof. unfold pend. simpl. etrans; [apply quiet_flush|apply quiet_drop_pending]. Qed.

Lemma quiet_accept_text value d admits s : quiet (tail_ s) (tail_ (accept_text value d admits s)).
Proof.
  unfold accept_text. repeat case_match; try apply quiet_pend; simpl; try apply quiet_drop; try reflexivity.
  all: etrans; apply quiet_drop.
Qed.

Lemma quiet_accept_tool value admits admit_tool s : quiet (tail_ s) (tail_ (accept_tool value admits admit_tool s)).
Proof.
  unfold accept_tool. etrans; [apply (quiet_flush admits)|]. destruct (pending (flush admits s)); [apply quiet_drop|].
  destruct (publishToolStep _ _ _) as [t' b] eqn:H. assert (quiet (tail_ (flush admits s)) t') as Hq.
  { unfold publishToolStep in H. repeat case_match; simplify_eq; try reflexivity. by eapply quiet_publish; [|exact H]. }
  destruct b; simpl; [done|apply quiet_drop].
Qed.

(** The committed publications the relay was given, in order, as they went out. *)
Definition published_by (r : Tail * option error) (p : EnduringPublication) (a : publishing) : list EnduringPublication :=
  match r.2 with
  | Some _ => []
  | None => [mkEnduring (p_Key p) (EventID p) (JournalSeq p) (CoveredThrough p)
               (match rewritten a with Some (Ok body) => body | _ => p_Body p end)]
  end.

Lemma publish_spec t p a t' failed :
  running t → publish t p a = (t', failed) →
  running t' ∧ t_Key t' = t_Key t ∧ enduring_frames t' = enduring_frames t ++ published_by (t', failed) p a ∧ (failed = None → p_Key p = t_Key t) ∧
  ∃ new, t_frames t' = t_frames t ++ new.
Proof.
  intros Hr H. unfold publish in H. assert (∀ e, (t, Some e) = (t', failed) → running t' ∧ t_Key t' = t_Key t ∧
    enduring_frames t' = enduring_frames t ++ published_by (t', failed) p a ∧ (failed = None → p_Key p = t_Key t) ∧ ∃ new, t_frames t' = t_frames t ++ new) as Hfail.
  { intros e [= <- <-]. simpl. rewrite app_nil_r. split_and!; [done..|]. exists []. by rewrite app_nil_r. }
  case_bool_decide as Hk; [|exact (Hfail _ H)]. cbn [negb] in H.
  destruct (match rewritten a with None => Ok (p_Body p) | Some r => r end) as [body|e] eqn:Hb; [|exact (Hfail _ H)].
  destruct (marshalled a); [exact (Hfail _ H)|]. destruct (transported a); [exact (Hfail _ H)|]. injection H as <- <-.
  destruct Hr as (H1 & H2 & H3 & H4). split_and!; [|done| |done|by eexists].
  - unfold running, ended_well, count. simpl. rewrite omap_app, !length_app. simpl. split_and!; [done|done|lia|lia].
  - unfold enduring_frames, count, published_by. simpl. rewrite omap_app. by destruct (rewritten a) as [[b'|e]|]; simplify_eq/=.
Qed.

Lemma ended_finish t e c : running t → e ≠ TailEndRunning →
  match e with TailEndStopped => ended_well (finish t e c) | _ => ended_well (invalidate (finish t e c)) end ∧
  t_frames (finish t e c) = t_frames t ∧ t_end (finish t e c) = e.
Proof.
  intros (H1 & H2 & H3 & H4) He. unfold finish. rewrite bool_decide_true by done. unfold ended_well. simpl. rewrite H1 in H2.
  destruct e; try done; simpl; (split_and!; [lia|done|done|done|done]).
Qed.

Lemma end_closed_spec t ctx : running t → ended_well (end_closed t ctx) ∧ t_frames (end_closed t ctx) = t_frames t ∧
  t_end (end_closed t ctx) = match ctx with Some _ => TailEndStopped | None => TailEndLost end.
Proof. intros Hr. unfold end_closed. destruct ctx as [e|].
  - by apply (ended_finish t TailEndStopped (Some e) Hr).
  - by apply (ended_finish t TailEndLost None Hr).
Qed.

Lemma end_refused_spec t ctx cause : running t → ended_well (end_refused t ctx cause) ∧ t_frames (end_refused t ctx cause) = t_frames t ∧
  t_end (end_refused t ctx cause) = match ctx with Some _ => TailEndStopped | None => TailEndRefused end.
Proof. intros Hr. unfold end_refused. destruct ctx as [e|].
  - by apply (ended_finish t TailEndStopped (Some e) Hr).
  - by apply (ended_finish t TailEndRefused (Some cause) Hr).
Qed.

(** What one round of the live relay does to its tail. *)
Lemma live_step_tail s ev s' b :
  running (tail_ s) → live_step s ev = Some (s', b) →
  (∃ new, t_frames (tail_ s') = t_frames (tail_ s) ++ new) ∧ t_Key (tail_ s') = t_Key (tail_ s) ∧
  enduring_frames (tail_ s') = enduring_frames (tail_ s) ++
    (match ev with LEnduring p admits a ctx => published_by (publish (tail_ (drop_pending (flush admits (drop_projections s)))) p a) p a | _ => [] end) ∧
  (if b then running (tail_ s') else ended_well (tail_ s') ∧ t_end (tail_ s') ≠ TailEndRunning).
Proof.
  intros Hr H.
  assert (∀ t', quiet (tail_ s) t' → (∃ new, t_frames t' = t_frames (tail_ s) ++ new) ∧ t_Key t' = t_Key (tail_ s) ∧
    enduring_frames t' = enduring_frames (tail_ s) ++ [] ∧ running t') as Hquiet.
  { intros t' [Q1 Q2 Q3 Q4]. rewrite app_nil_r. auto. }
  destruct ev as [e|admits|failed admits admit_tool|ctx|e|p admits a ctx|value|]; simpl in H.
  - injection H as <- <-. simpl. destruct (ended_finish (tail_ s) TailEndStopped (Some e) Hr ltac:(done)) as (H1 & H2 & H3).
    unfold enduring_frames. rewrite H2, H3, app_nil_r. split_and!; [exists []; by rewrite app_nil_r| |done|done|done].
    unfold finish. by case_bool_decide.
  - destruct (armed s); [|done]. destruct (match projecting s, queued s with None, [] => flush admits s | _, _ => s end) eqn:Hf.
    injection H as <- <-. apply Hquiet. rewrite <-Hf. destruct (projecting s), (queued s); try reflexivity. apply quiet_flush.
  - destruct (projecting s) as [value|]; [|done]. injection H as <- <-. apply Hquiet.
    assert (∀ s0, tail_ (next_projection s0) = tail_ s0) as -> by (intros s0; unfold next_projection; by destruct (queued s0)).
    destruct (if failed then None else _) as [[v [d|]]|];
      [apply (quiet_accept_text v d admits (set_projecting None s))|apply (quiet_accept_tool v admits admit_tool (set_projecting None s))|apply quiet_drop].
  - injection H as <- <-. simpl. destruct (end_closed_spec (tail_ s) ctx Hr) as (H1 & H2 & H3).
    unfold enduring_frames. rewrite H2, H3, app_nil_r. split_and!; [exists []; by rewrite app_nil_r| |done|done|by destruct ctx].
    unfold end_closed, finish, invalidate. by destruct ctx; case_bool_decide.
  - injection H as <- <-. simpl. destruct (ended_finish (tail_ s) TailEndLost (Some e) Hr ltac:(done)) as (H1 & H2 & H3).
    unfold enduring_frames. simpl. rewrite H2, H3, app_nil_r. split_and!; [exists []; by rewrite app_nil_r| |done|done|done].
    unfold finish. by case_bool_decide.
  - set (s0 := drop_pending (flush admits (drop_projections s))) in *.
    assert (quiet (tail_ s) (tail_ s0)) as [Q1 Q2 Q3 [n0 Q4]].
    { unfold s0. etrans; [apply quiet_drop_projections|]. etrans; [apply quiet_flush|apply quiet_drop_pending]. }
    destruct (publish (tail_ s0) p a) as [t' failed] eqn:Hp.
    destruct (publish_spec _ _ _ _ _ (Q1 Hr) Hp) as (Hr' & Hk & Hen & _ & n1 & Hn1).
    assert (∃ new, t_frames t' = t_frames (tail_ s) ++ new) as Hnew by (exists (n0 ++ n1); by rewrite Hn1, Q4, app_assoc).
    destruct failed as [cause|]; injection H as <- <-.
    + destruct (end_refused_spec t' ctx cause Hr') as (H1 & H2 & H3). simpl. unfold enduring_frames in *. rewrite H2, H3, Hen, Q3.
      split_and!; [done| |done|done|by destruct ctx]. rewrite <-Q2, <-Hk. unfold end_refused, finish, invalidate. by destruct ctx; case_bool_decide.
    + assert (tail_ (clearBoundary (p_Body p) (on_tail (fun _ => t') s0)) = t') as -> by (unfold clearBoundary; by destruct (BoundaryLoop _)).
      rewrite Hen, Q3. split_and!; [done|congruence|done|done].
  - destruct (negb _); [injection H as <- <-; apply Hquiet, quiet_drop|]. destruct (projecting s).
    + destruct (_ =? _); injection H as <- <-; apply Hquiet; [apply quiet_drop|reflexivity].
    + injection H as <- <-. apply Hquiet. reflexivity.
  - injection H as <- <-. apply Hquiet, quiet_drop.
Qed.

(** What a committed publication of a session's stream puts on its channel. *)
Definition committed (key : Key) (p : EnduringPublication) (a : publishing) : list EnduringPublication :=
  published_by (publish (new_tail key) p a) p a.

Lemma committed_publish t p a : published_by (publish t p a) p a = committed (t_Key t) p a.
Proof.
  unfold committed, publish, published_by. simpl. destruct (bool_decide (p_Key p = t_Key t)); [|done]. simpl.
  destruct (match rewritten a with None => Ok (p_Body p) | Some r => r end); [|done].
  destruct (marshalled a); [done|]. by destruct (transported a).
Qed.

Definition live_committed (key : Key) (ev : live_event) : list EnduringPublication :=
  match ev with LEnduring p _ a _ => committed key p a | _ => [] end.

Lemma relayLive_spec events s s' :
  running (tail_ s) → relayLive s events = Some s' →
  ended_well (tail_ s') ∧ t_Key (tail_ s') = t_Key (tail_ s) ∧
  enduring_frames (tail_ s') = enduring_frames (tail_ s) ++ concat (map (live_committed (t_Key (tail_ s))) events).
Proof.
  revert s. induction events as [|ev events IH]; intros s Hr; cbn [relayLive].
  - intros [= <-]. simpl. rewrite app_nil_r. split_and!; [apply Hr|done|done].
  - destruct (live_step s ev) as [[s1 b]|] eqn:Hs; [|done]. destruct (live_step_tail _ _ _ _ Hr Hs) as (_ & Hk & He & Hb).
    assert (enduring_frames (tail_ s1) = enduring_frames (tail_ s) ++ live_committed (t_Key (tail_ s)) ev) as He'.
    { rewrite He. destruct ev; try done. simpl. rewrite committed_publish. do 2 f_equal.
      destruct (quiet_trans _ _ _ (quiet_drop_projections s) (quiet_trans _ _ _ (quiet_flush admits (drop_projections s)) (quiet_drop_pending _))) as [_ Q _ _].
      exact Q. }
    destruct b.
    + intros H. destruct (IH s1 Hb H) as (H1 & H2 & H3). split_and!; [done|congruence|]. rewrite H3, He', Hk. cbn [map concat]. by rewrite app_assoc.
    + destruct events; [|done]. intros [= <-]. split_and!; [apply Hb|done|]. rewrite He'. simpl. by rewrite app_nil_r.
Qed.

(** The committed stream passes through the live relay: whatever transient previews
    arrive among its events, however slow or failing their projection and however full
    the transport, the committed frames on the channel are the session's own committed
    publications, each once and in order, with the body the projector gave it, up to
    one that failed; the counters count the frames; and the session's routes are
    invalidated once when the tail is lost or refused and never when it is stopped. *)
Theorem live_committed_in_order key events s :
  relayLive (start_relaying key) events = Some s →
  enduring_frames (tail_ s) = concat (map (live_committed key) events) ∧ ended_well (tail_ s) ∧
  Forall (fun p => p_Key p = key) (enduring_frames (tail_ s)).
Proof.
  intros H. destruct (relayLive_spec events (start_relaying key) s) as (H1 & H2 & H3); [by repeat split|done|].
  simpl in H3. split_and!; [done|done|]. rewrite H3. clear. induction events as [|ev events IH]; [constructor|]. simpl.
  apply Forall_app. split; [|done]. destruct ev; try constructor. unfold live_committed, committed, published_by, publish. simpl.
  case_bool_decide; [|constructor]. simpl. repeat case_match; try constructor; try done; by simplify_eq/=.
Qed.

(** ** Previews have no holes *)

Lemma sapp_assoc (a b c : string) : ((a ++ b) ++ c = a ++ b ++ c)%string.
Proof. induction a as [|x a IH]; [reflexivity|exact (f_equal (String x) IH)]. Qed.

Lemma sapp_nil (a : string) : (a ++ "" = a)%string.
Proof. induction a as [|x a IH]; [reflexivity|exact (f_equal (String x) IH)]. Qed.

(** The text a preview brings, and to which loop, turn and kind. *)
Definition text_of (key : Key) (v : EphemeralPublication) : option (string * string) :=
  match project_live key v with Some (_, KText d) => Some (textKey d, c_Text (Chunk_ d)) | _ => None end.

Definition text_for (x : string) (kt : option (string * string)) : string :=
  match kt with Some (k, t) => if String.eqb k x then t else "" | None => "" end.

Definition texts_for (x : string) (l : list (option (string * string))) : string :=
  fold_right (fun kt acc => (text_for x kt ++ acc)%string) "" l.

(** The texts of the frames published, of what is pending, and of what is in the worker
    and the queue. *)
Definition frame_text (f : frame) : option (string * string) := match f with FText _ d => Some (textKey d, c_Text (Chunk_ d)) | _ => None end.
Definition shown (x : string) (frames : list frame) : string := texts_for x (map frame_text frames).
Definition pending_text (x : string) s : string :=
  match pending s with Some (_, d) => text_for x (Some (textKey d, c_Text (Chunk_ d))) | None => "" end.
Definition flying (key : Key) (x : string) s : string := texts_for x (map (text_of key) (option_list (projecting s) ++ queued s)).

Lemma texts_for_app x l k : texts_for x (l ++ k) = (texts_for x l ++ texts_for x k)%string.
Proof. induction l as [|kt l IH]; simpl; [done|]. by rewrite IH, sapp_assoc. Qed.

(** What a client has been shown of each text since its last boundary, and what the
    runtime has sent of it. *)
Record previews := mkPreviews { received : string → string; seen : string → string }.

Definition no_previews : previews := mkPreviews (fun _ => ""%string) (fun _ => ""%string).

(** A step's frames are seen; a preview of the session is received; a boundary ends the
    texts of its loop. *)
Definition observe s (ev : live_event) (new : list frame) (b : bool) (v : previews) : previews :=
  let rcv x := (received v x ++ match ev with
                                | LEphemeral p => if bool_decide (e_Key p = t_Key (tail_ s)) then text_for x (text_of (t_Key (tail_ s)) p) else ""
                                | _ => ""
                                end)%string in
  let seen x := (seen v x ++ shown x new)%string in
  match ev with
  | LEnduring p _ _ _ =>
      match (if b then BoundaryLoop (p_Body p) else None) with
      | Some loop => mkPreviews (fun x => if of_loop loop x then "" else rcv x)%string (fun x => if of_loop loop x then "" else seen x)%string
      | None => mkPreviews rcv seen
      end
  | _ => mkPreviews rcv seen
  end.

(** No preview is dropped for want of room in the queue, and no projection fails. *)
Definition lossless s (ev : live_event) : Prop :=
  match ev with
  | LEphemeral p => projecting s = None ∨ length (queued s) < liveProjectionQueue
  | LProjected failed _ _ => failed = false
  | _ => True
  end.

Inductive preview_run (key : Key) : relaying → previews → bool → Prop :=
| PreviewStart : preview_run key (start_relaying key) no_previews true
| PreviewStep s v ev s' b new :
    preview_run key s v true → live_step s ev = Some (s', b) → lossless s ev → t_frames (tail_ s') = t_frames (tail_ s) ++ new →
    preview_run key s' (observe s ev new b v) b.

(** Seen and pending text of a key are a prefix of what was received; all of it, with
    what is still to be projected, while the key is not gapped. *)
Definition intact (key : Key) s (v : previews) : Prop :=
  ∀ x, (x ∉ gapped s → received v x = (seen v x ++ pending_text x s ++ flying key x s)%string) ∧
       (x ∈ gapped s → ∃ rest, received v x = (seen v x ++ pending_text x s ++ rest)%string).

(** Steps that publish from what is pending, or drop and gap. *)
Definition keeps (key : Key) s s' : Prop :=
  ∀ v, intact key s v → ∃ new, t_frames (tail_ s') = t_frames (tail_ s) ++ new ∧
    intact key s' (mkPreviews (received v) (fun x => (seen v x ++ shown x new)%string)).

Lemma intact_ext key s v v' : (∀ x, received v x = received v' x) → (∀ x, seen v x = seen v' x) → intact key s v → intact key s v'.
Proof. intros Hr Hs H x. rewrite <-Hr, <-Hs. apply H. Qed.

Lemma keeps_refl key s : keeps key s s.
Proof.
  intros v Hv. exists []. split; [by rewrite app_nil_r|]. refine (intact_ext _ _ _ _ _ _ Hv); [done|]. intros x. cbn [seen]. change (shown x []) with ""%string. by rewrite sapp_nil.
Qed.

Lemma keeps_trans key s1 s2 s3 : keeps key s1 s2 → keeps key s2 s3 → keeps key s1 s3.
Proof.
  intros H12 H23 v Hv. destruct (H12 v Hv) as (n1 & F1 & I1). destruct (H23 _ I1) as (n2 & F2 & I2).
  exists (n1 ++ n2). split; [by rewrite F2, F1, app_assoc|]. refine (intact_ext _ _ _ _ _ _ I2); [done|].
  intros x. simpl. unfold shown. by rewrite map_app, texts_for_app, sapp_assoc.
Qed.

(** A step that publishes nothing and loses text only of gapped keys. *)
Lemma keeps_silent key s s' :
  t_frames (tail_ s') = t_frames (tail_ s) → gapped s ⊆ gapped s' →
  (∀ x, x ∉ gapped s' → (pending_text x s' ++ flying key x s' = pending_text x s ++ flying key x s)%string) →
  (∀ x, x ∈ gapped s' → pending_text x s' = pending_text x s ∨ pending_text x s' = ""%string) → keeps key s s'.
Proof.
  intros Hf Hg Hp Hq v Hv. exists []. split; [by rewrite app_nil_r|]. intros x. simpl. rewrite sapp_nil. destruct (Hv x) as [H1 H2]. split.
  - intros Hx. rewrite Hp by done. apply H1. set_solver.
  - intros Hx. assert (∃ rest, received v x = (seen v x ++ pending_text x s ++ rest)%string) as [rest Hr].
    { destruct (decide (x ∈ gapped s)); [auto|]. exists (flying key x s). auto. }
    destruct (Hq x Hx) as [->| ->]; [eauto|]. by exists (pending_text x s ++ rest)%string.
Qed.

Lemma keeps_drop key s : keeps key s (on_tail dropEphemeral s).
Proof. apply keeps_silent; [done|done|done|by left]. Qed.

Lemma keeps_flush key admits s : keeps key s (flush admits s).
Proof.
  unfold flush. destruct (pending s) as [[p d]|] eqn:Hp; [|apply keeps_refl]. destruct (publishEphemeral _ _ _ _) as [t' b] eqn:H.
  destruct b.
  - unfold publishEphemeral in H. destruct (_ && _); simplify_eq. intros v Hv. exists [FText p d]. split; [done|].
    intros x. destruct (Hv x) as [H1 H2]. unfold pending_text, flying in *. simpl in *. rewrite Hp in *. unfold shown. simpl. rewrite sapp_nil.
    setoid_rewrite sapp_assoc. auto.
  - apply keeps_silent; [done|done|intros x _; unfold pending_text; simpl; by rewrite Hp|intros x _; left; unfold pending_text; simpl; by rewrite Hp].
Qed.

Lemma keeps_drop_pending key s : keeps key s (drop_pending s).
Proof.
  unfold drop_pending. destruct (pending s) as [[p d]|] eqn:Hp; [|apply keeps_refl]. apply keeps_silent; simpl; [done|set_solver| |by right].
  intros x Hx. assert (pending_text x s = ""%string) as ->; [|done]. unfold pending_text. rewrite Hp. unfold text_for.
  destruct (String.eqb_spec (textKey d) x) as [<-|]; [set_solver|done].
Qed.

Lemma keeps_mark key x s : keeps key s (mark x s).
Proof. apply keeps_silent; simpl; [done|set_solver|done|by left]. Qed.


Lemma flush_frame admits s :
  projecting (flush admits s) = projecting s ∧ queued (flush admits s) = queued s ∧ gapped (flush admits s) = gapped s ∧
  t_Key (tail_ (flush admits s)) = t_Key (tail_ s) ∧
  (pending (flush admits s) = None ∨ pending (flush admits s) = pending s).
Proof.
  pose proof (q_key _ _ (quiet_flush admits s)) as Hk. unfold flush in *. destruct (pending s) as [[p d]|] eqn:Hp; [|by split_and!; auto].
  destruct (publishEphemeral _ _ _ _) as [t' b]. destruct b; simpl in *; split_and!; auto.
Qed.

Lemma drop_pending_frame s :
  projecting (drop_pending s) = projecting s ∧ queued (drop_pending s) = queued s ∧ pending (drop_pending s) = None ∧
  t_Key (tail_ (drop_pending s)) = t_Key (tail_ s) ∧
  gapped (drop_pending s) = match pending s with Some (_, d) => {[textKey d]} ∪ gapped s | None => gapped s end.
Proof. unfold drop_pending. by destruct (pending s) as [[p d]|] eqn:Hp. Qed.

(** Taking the worker's preview, whose text has been settled. *)
Lemma flying_next key x s value :
  projecting s = Some value → flying key x s = (text_for x (text_of key value) ++ flying key x (next_projection s))%string.
Proof.
  intros Hp. unfold flying, next_projection. rewrite Hp. destruct (queued s) as [|v q] eqn:Hq; simpl; rewrite ?Hq; reflexivity.
Qed.

Lemma next_frame s :
  tail_ (next_projection s) = tail_ s ∧ pending (next_projection s) = pending s ∧ gapped (next_projection s) = gapped s.
Proof. unfold next_projection. by destruct (queued s). Qed.

Lemma text_for_other x k (t : string) : k ≠ x → text_for x (Some (k, t)) = ""%string.
Proof. intros H. simpl. by destruct (String.eqb_spec k x). Qed.

(** A preview whose text is not to be published, or is of a gapped key. *)
Lemma keeps_settle key s value :
  projecting s = Some value → (∀ x, x ∉ gapped s → text_for x (text_of key value) = ""%string) → keeps key s (next_projection s).
Proof.
  intros Hp Ht. destruct (next_frame s) as (H1 & H2 & H3). apply keeps_silent; [by rewrite H1|by rewrite H3| |].
  - intros x Hx. rewrite (flying_next _ _ _ _ Hp), Ht by (by rewrite <-H3). unfold pending_text. by rewrite H2.
  - intros x _. left. unfold pending_text. by rewrite H2.
Qed.

Lemma keeps_accept_text key s value v d admits :
  projecting s = Some value → text_of key value = Some (textKey d, c_Text (Chunk_ d)) →
  keeps key s (next_projection (accept_text v d admits s)).
Proof.
  intros Hp Ht. unfold accept_text. case_bool_decide as Hg.
  { apply (keeps_trans _ _ (on_tail dropEphemeral s)); [apply keeps_drop|]. eapply keeps_settle; [done|].
    intros x Hx. rewrite Ht. apply text_for_other. set_solver. }
  assert (∀ s0, projecting s0 = Some value → textKey d ∈ gapped s0 → keeps key s0 (next_projection s0)) as Hgap.
  { intros s0 H0 H1. eapply keeps_settle; [done|]. intros x Hx. rewrite Ht. apply text_for_other. set_solver. }
  destruct (negb (fitsEphemeralFrame v)).
  { eapply keeps_trans; [apply (keeps_mark key (textKey d))|]. eapply keeps_trans; [apply keeps_drop|]. apply Hgap; [done|set_solver]. }
  assert (∀ p d0, pending s = Some (p, d0) → textKey d0 = textKey d →
    keeps key s (next_projection (on_tail dropEphemeral (on_tail dropEphemeral (set_pending None false (mark (textKey d) s)))))) as Hlost.
  { intros p d0 Hpe Hk. eapply keeps_trans; [|eapply keeps_trans; [apply keeps_drop|eapply keeps_trans; [apply keeps_drop|apply Hgap; [done|set_solver]]]].
    apply keeps_silent; simpl; [done|set_solver| |by right]. intros x Hx.
    assert (pending_text x s = ""%string) as ->; [|done]. unfold pending_text. rewrite Hpe. apply text_for_other. rewrite Hk. set_solver. }
  assert ((∀ p d0, pending s = Some (p, d0) → textKey d0 ≠ textKey d) → keeps key s (next_projection (pend v d admits s))) as Hpend.
  { intros Hne. unfold pend. destruct (flush_frame admits s) as (F1 & F2 & F3 & F4 & F5).
    destruct (drop_pending_frame (flush admits s)) as (D1 & D2 & D3 & D4 & D5).
    eapply keeps_trans; [apply (keeps_flush key admits)|]. eapply keeps_trans; [apply keeps_drop_pending|].
    set (s2 := drop_pending (flush admits s)) in *.
    assert (textKey d ∉ gapped s2) as Hn.
    { rewrite D5, F3. destruct F5 as [->|F5]; [done|]. rewrite F5. destruct (pending s) as [[p d0]|]; [|done].
      specialize (Hne p d0 eq_refl). set_solver. }
    destruct (next_frame (set_pending (Some (v, d)) true s2)) as (N1 & N2 & N3).
    apply keeps_silent; [by rewrite N1|by rewrite N3| |].
    - intros x Hx. rewrite (flying_next key x s2 value) by (by rewrite D1, F1). rewrite Ht. unfold pending_text. rewrite N2, D3. simpl.
      unfold flying, next_projection. simpl. by destruct (queued s2).
    - intros x Hx. right. unfold pending_text. rewrite N2. simpl. rewrite N3 in Hx. simpl in Hx.
      destruct (String.eqb_spec (textKey d) x) as [<-|]; [by destruct Hn|done]. }
  destruct (pending s) as [[p d0]|] eqn:Hpe; [|by apply Hpend].
  destruct (String.eqb_spec (textKey d0) (textKey d)) as [Hk|Hk].
  2:{ apply Hpend. by intros ? ? [= <- <-]. }
  destruct (Merge (e_Body p) (e_Body v)) as [body|]; [|by eapply Hlost]. destruct (fitsEphemeralFrame _); [|by eapply Hlost].
  match goal with |- keeps _ _ (next_projection ?s0) => destruct (next_frame s0) as (N1 & N2 & N3) end.
  apply keeps_silent; [by rewrite N1|by rewrite N3| |].
  - intros x Hx. rewrite (flying_next key x s value) by done. rewrite Ht. unfold pending_text. rewrite N2, Hpe. cbn [pending set_pending].
    unfold textKey at 1. cbn [LoopID TurnID Chunk_ c_Type c_Text]. fold (textKey d0). rewrite Hk. unfold text_for.
    destruct (String.eqb (textKey d) x); rewrite ?sapp_assoc; unfold flying, next_projection; simpl; by destruct (queued s).
  - intros x Hx. left. unfold pending_text. rewrite N2, Hpe. cbn [pending set_pending].
    unfold textKey at 1. cbn [LoopID TurnID Chunk_ c_Type c_Text]. fold (textKey d0). unfold text_for.
    destruct (String.eqb_spec (textKey d0) x) as [<-|]; [|done]. rewrite N3 in Hx. simpl in Hx. rewrite Hk in Hx. done.
Qed.

Lemma keeps_accept_tool key s value v admits admit_tool :
  projecting s = Some value → text_of key value = None → keeps key s (next_projection (accept_tool v admits admit_tool s)).
Proof.
  intros Hp Ht. destruct (flush_frame admits s) as (F1 & _). unfold accept_tool.
  assert (∀ s0, projecting s0 = Some value → keeps key s0 (next_projection s0)) as Hnext.
  { intros s0 H0. eapply keeps_settle; [done|]. intros x _. by rewrite Ht. }
  eapply keeps_trans; [apply (keeps_flush key admits)|]. set (s1 := flush admits s) in *.
  assert (keeps key s1 (next_projection (on_tail dropEphemeral s1))) as Hdrop.
  { eapply keeps_trans; [apply keeps_drop|]. apply Hnext. simpl. congruence. }
  destruct (pending s1); [done|]. destruct (publishToolStep _ _ _) as [t' b] eqn:H. destruct b; [|done].
  eapply keeps_trans; [|apply (Hnext (on_tail (fun _ => t') s1)); simpl; congruence].
  assert (∃ p, t' = count_ephemeral (tail_ s1) (FTool p)) as [p ->].
  { unfold publishToolStep, publishEphemeral in H. repeat case_match; simplify_eq; eauto. }
  intros u Hu. exists [FTool p]. split; [done|]. refine (intact_ext _ _ u _ _ _ _); [done| |exact Hu].
  intros x. cbn [seen]. change (shown x [FTool p]) with ""%string. by rewrite sapp_nil.
Qed.

(** The runtime's own body of a preview names the text its projection does. *)
Definition names_text (key : Key) : Prop :=
  ∀ v k text, text_of key v = Some (k, text) → ∃ d, Parse (e_Body v) = Some d ∧ textKey d = k.

Lemma drop_queue_gapped key q s0 x :
  names_text key → x ∉ gapped (fold_left (fun s value => on_tail dropEphemeral (markGap (e_Body value) s)) q s0) →
  x ∉ gapped s0 ∧ texts_for x (map (text_of key) q) = ""%string.
Proof.
  intros Hn. revert s0. induction q as [|v q IH]; intros s0 Hx; simpl in *; [done|]. destruct (IH _ Hx) as [Hg ->]. clear IH Hx.
  simpl in Hg. unfold markGap in Hg. destruct (text_of key v) as [[k text]|] eqn:Ht.
  - destruct (Hn _ _ _ Ht) as (d & Hd & Hk). rewrite Hd in Hg. simpl in Hg. split; [set_solver|].
    rewrite text_for_other by (rewrite <-Hk; set_solver). done.
  - split; [|done]. destruct (Parse (e_Body v)); [set_solver|done].
Qed.

Lemma drop_queue_frame q s0 :
  let s1 := fold_left (fun s value => on_tail dropEphemeral (markGap (e_Body value) s)) q s0 in
  t_frames (tail_ s1) = t_frames (tail_ s0) ∧ pending s1 = pending s0 ∧ gapped s0 ⊆ gapped s1 ∧ projecting s1 = projecting s0.
Proof.
  revert s0. induction q as [|v q IH]; intros s0; simpl; [done|].
  destruct (IH (on_tail dropEphemeral (markGap (e_Body v) s0))) as (-> & -> & Hg & ->). simpl. rewrite markGap_tail.
  simpl in Hg. unfold markGap in *. destruct (Parse (e_Body v)); simpl in *; split_and!; try done; set_solver.
Qed.

Lemma keeps_drop_projections key s : names_text key → keeps key s (drop_projections s).
Proof.
  intros Hn. unfold drop_projections.
  set (s1 := match projecting s with Some value => on_tail dropEphemeral (set_projecting None (markGap (e_Body value) s)) | None => s end).
  assert (t_frames (tail_ s1) = t_frames (tail_ s) ∧ pending s1 = pending s ∧ gapped s ⊆ gapped s1 ∧
    ∀ x, x ∉ gapped s1 → texts_for x (map (text_of key) (option_list (projecting s))) = ""%string) as (A1 & A2 & A3 & A4).
  { unfold s1. destruct (projecting s) as [v|]; [|done]. simpl. rewrite markGap_tail. unfold markGap.
    destruct (Parse (e_Body v)) as [d|] eqn:Hd; simpl; (split_and!; [done|done|set_solver|]); intros x Hx; rewrite sapp_nil;
      destruct (text_of key v) as [[k text]|] eqn:Ht; try done; destruct (Hn _ _ _ Ht) as (d' & Hd' & Hk); rewrite Hd in Hd'; [|done].
    simplify_eq. apply text_for_other. set_solver. }
  assert (queued s1 = queued s ∧ projecting s1 = None) as [A5 A6].
  { unfold s1, markGap. destruct (projecting s) as [v|] eqn:E; [|done]. by destruct (Parse (e_Body v)). }
  rewrite A5. destruct (drop_queue_frame (queued s) s1) as (B1 & B2 & B3 & B4).
  apply keeps_silent; cbn [set_queued tail_ gapped]; [by rewrite B1|set_solver| |].
  - intros x Hx. destruct (drop_queue_gapped key (queued s) s1 x Hn Hx) as [Hx1 Hq].
    unfold pending_text, flying. cbn [set_queued pending projecting queued]. rewrite B2, A2, B4, A6. by rewrite (map_app _ (option_list (projecting s))), texts_for_app, Hq, A4.
  - intros x Hx. left. unfold pending_text. cbn [set_queued pending]. by rewrite B2, A2.
Qed.

(** Nothing of what came before a committed event is left to publish after it. *)
Lemma drop_projections_frame s : projecting (drop_projections s) = None ∧ queued (drop_projections s) = [].
Proof.
  unfold drop_projections. cbn [set_queued projecting queued]. split; [|done].
  match goal with |- projecting (fold_left ?f ?q ?s0) = _ => destruct (drop_queue_frame q s0) as (_ & _ & _ & ->) end.
  by destruct (projecting s) eqn:E.
Qed.

Lemma shown_enduring x frames : Forall (fun f => match f with FText _ _ => False | _ => True end) frames → shown x frames = ""%string.
Proof. induction 1 as [|f l Hf _ IH]; [done|]. unfold shown in *. simpl. rewrite IH. by destruct f. Qed.

Lemma reset_intact key s v loop :
  intact key s v → pending s = None → projecting s = None → queued s = [] →
  intact key (mkRelaying (tail_ s) (pending s) (filter (fun x => of_loop loop x = false) (gapped s)) (armed s) (projecting s) (queued s))
    (mkPreviews (fun x => if of_loop loop x then "" else received v x)%string (fun x => if of_loop loop x then "" else seen v x)%string).
Proof.
  intros H Hp Hj Hq x. specialize (H x). unfold pending_text, flying in *. simpl in *. rewrite Hp, Hj, Hq in *. simpl in *.
  rewrite elem_of_filter. destruct (of_loop loop x) eqn:Hl; [|naive_solver]. split; [done|]. by intros [? _].
Qed.

(** The worker's channel is put aside before its result is read; nothing that reads it
    looks at it. *)
Lemma flush_set_projecting p admits s : flush admits (set_projecting p s) = set_projecting p (flush admits s).
Proof. destruct s as [t [[q d]|] g ar pr qu]; unfold flush; simpl; [|done]. by destruct (publishEphemeral _ _ _ _) as [t' []]. Qed.

Lemma next_set_projecting p s : next_projection (set_projecting p s) = next_projection s.
Proof. destruct s as [t pe g ar pr [|v qu]]; done. Qed.

Lemma pend_set_projecting p v d admits s : pend v d admits (set_projecting p s) = set_projecting p (pend v d admits s).
Proof. unfold pend. rewrite flush_set_projecting. unfold drop_pending. simpl. by destruct (pending (flush admits s)) as [[q d0]|]. Qed.

Lemma accept_text_set_projecting p v d admits s : accept_text v d admits (set_projecting p s) = set_projecting p (accept_text v d admits s).
Proof.
  unfold accept_text. cbn [set_projecting gapped pending]. destruct (bool_decide _); [done|]. destruct (negb _); [done|].
  destruct (pending s) as [[q d0]|]; [|apply pend_set_projecting]. destruct (String.eqb _ _); [|apply pend_set_projecting].
  destruct (Merge _ _); [|done]. by destruct (fitsEphemeralFrame _).
Qed.

Lemma accept_tool_set_projecting p v admits admit_tool s :
  accept_tool v admits admit_tool (set_projecting p s) = set_projecting p (accept_tool v admits admit_tool s).
Proof.
  unfold accept_tool. rewrite flush_set_projecting. cbn [set_projecting pending tail_]. destruct (pending (flush admits s)); [done|].
  by destruct (publishToolStep _ _ _) as [t' []].
Qed.

(** The queue waits for the worker. *)
Definition waits s : Prop := projecting s = None → queued s = [].

Lemma texts_for_one x kt : texts_for x [kt] = text_for x kt.
Proof. apply sapp_nil. Qed.

Lemma projected_keeps key s value failed admits admit_tool :
  projecting s = Some value → failed = false →
  keeps key s (next_projection
    (let s := set_projecting None s in
     match (if failed then None else project_live key value) with
     | None => on_tail dropEphemeral s
     | Some (value, KTool) => accept_tool value admits admit_tool s
     | Some (value, KText d) => accept_text value d admits s
     end)).
Proof.
  intros Hp ->. cbn zeta. destruct (project_live key value) as [[v [d|]]|] eqn:Hv.
  - rewrite accept_text_set_projecting, next_set_projecting. eapply keeps_accept_text; [done|]. unfold text_of. by rewrite Hv.
  - rewrite accept_tool_set_projecting, next_set_projecting. eapply keeps_accept_tool; [done|]. unfold text_of. by rewrite Hv.
  - assert (on_tail dropEphemeral (set_projecting None s) = set_projecting None (on_tail dropEphemeral s)) as -> by done.
    rewrite next_set_projecting. eapply keeps_trans; [apply keeps_drop|]. eapply keeps_settle; [done|]. intros x _. unfold text_of. by rewrite Hv.
Qed.

(** A preview of the session joins what is in flight, at its end. *)
Lemma queue_frame key s value s' b :
  waits s → t_Key (tail_ s) = key → e_Key value = key → (projecting s = None ∨ length (queued s) < liveProjectionQueue) →
  live_step s (LEphemeral value) = Some (s', b) →
  t_frames (tail_ s') = t_frames (tail_ s) ∧ gapped s' = gapped s ∧ pending s' = pending s ∧ waits s' ∧
  ∀ x, flying key x s' = (flying key x s ++ text_for x (text_of key value))%string.
Proof.
  intros Hw Hk Hown Hl Hs. cbn [live_step] in Hs. rewrite Hk, Hown, bool_decide_true in Hs by done. cbn [negb] in Hs.
  unfold flying. destruct (projecting s) as [w|] eqn:Hp.
  - destruct (Nat.eqb_spec (length (queued s)) liveProjectionQueue); [destruct Hl as [|Hl]; [done|lia]|]. injection Hs as <- <-.
    split_and!; [done..|unfold waits; simpl; by rewrite Hp|]. intros x. cbn [set_queued projecting queued]. rewrite Hp.
    rewrite app_assoc, (map_app _ (_ ++ _)), texts_for_app. f_equal. exact (texts_for_one x _).
  - injection Hs as <- <-. split_and!; [done..|]. intros x. cbn [set_projecting projecting queued]. rewrite (Hw Hp).
    exact (texts_for_one x _).
Qed.

Lemma live_step_waits s ev s' : waits s → live_step s ev = Some (s', true) → waits s'.
Proof.
  intros Hw Hs. assert (∀ s0, waits (next_projection s0)) as Hnext by (intros s0; unfold waits, next_projection; by destruct (queued s0) eqn:E).
  destruct ev as [e|admits|failed admits admit_tool|ctx|e|p admits a ctx|value|]; cbn [live_step] in Hs; try done.
  - destruct (armed s); [|done]. injection Hs as <-. destruct (projecting s) eqn:Hp; [done|]. destruct (queued s) eqn:Hq; [|done].
    destruct (flush_frame admits s) as (F1 & F2 & _). intros _. by rewrite F2.
  - destruct (projecting s); [|done]. injection Hs as <-. apply Hnext.
  - destruct (publish _ _ _) as [t' [c|]]; [done|]. injection Hs as <-. destruct (drop_projections_frame s) as [D1 D2].
    destruct (flush_frame admits (drop_projections s)) as (_ & F2 & _). destruct (drop_pending_frame (flush admits (drop_projections s))) as (_ & P2 & _).
    intros _. assert (∀ s0, queued (clearBoundary (p_Body p) s0) = queued s0) as -> by (intros s0; unfold clearBoundary; by destruct (BoundaryLoop _)).
    cbn [on_tail queued]. by rewrite P2, F2, D2.
  - destruct (negb _); [by injection Hs as <-|]. destruct (projecting s) eqn:Hp.
    + destruct (_ =? _); injection Hs as <-; [done|]. unfold waits. simpl. by rewrite Hp.
    + injection Hs as <-. done.
  - by injection Hs as <-.
Qed.

Lemma publish_frames t p a t' failed :
  publish t p a = (t', failed) → ∃ n, t_frames t' = t_frames t ++ n ∧ Forall (fun f => match f with FText _ _ => False | _ => True end) n.
Proof.
  unfold publish. intros H. repeat case_match; simplify_eq;
    first [by (exists []; rewrite app_nil_r)|eexists; split; [reflexivity|by repeat constructor]].
Qed.

Lemma intact_step key s v ev s' b new :
  names_text key → t_Key (tail_ s) = key → waits s → intact key s v → live_step s ev = Some (s', b) → lossless s ev →
  t_frames (tail_ s') = t_frames (tail_ s) ++ new → intact key s' (observe s ev new b v).
Proof.
  intros Hn Hk Hw Hv Hs Hl Hf.
  assert (∀ s1, keeps key s s1 → t_frames (tail_ s1) = t_frames (tail_ s) ++ new →
    intact key s1 (mkPreviews (fun x => (received v x ++ "")%string) (fun x => (seen v x ++ shown x new)%string))) as Hkeeps.
  { intros s1 Hks Hf1. destruct (Hks v Hv) as (n & Hn1 & Hi). rewrite Hf1 in Hn1. apply app_inv_head in Hn1 as ->.
    refine (intact_ext _ _ _ _ _ _ Hi); [|done]. intros x. simpl. by rewrite sapp_nil. }
  assert (∀ f, (∀ t, t_frames (f t) = t_frames t) → keeps key s (on_tail f (set_pending (pending s) false s))) as Hend.
  { intros f Hff. apply keeps_silent; simpl; [done|done|done|by left]. }
  assert (∀ t e c, t_frames (finish t e c) = t_frames t) as Hfin by (intros; unfold finish; by case_bool_decide).
  destruct ev as [e|admits|failed admits admit_tool|ctx|e|p admits a ctx|value|]; unfold observe.
  1-5,8: cbn [live_step lossless] in Hs, Hl; apply Hkeeps; [|done].
  - injection Hs as <- <-. by apply Hend.
  - destruct (armed s); [|done]. injection Hs as <- <-.
    destruct (projecting s), (queued s); try apply keeps_refl. apply keeps_flush.
  - destruct (projecting s) as [value|] eqn:Hp; [|done]. injection Hs as <- <-. rewrite Hk. by apply projected_keeps.
  - injection Hs as <- <-. apply Hend. intros t. unfold end_closed, invalidate. destruct ctx; simpl; apply Hfin.
  - injection Hs as <- <-. apply keeps_silent; simpl; [apply Hfin|done|done|by left].
  - injection Hs as <- <-. apply keeps_drop.
  - cbn [live_step] in Hs. set (s0 := drop_pending (flush admits (drop_projections s))) in *.
    assert (keeps key s s0) as Hks.
    { unfold s0. eapply keeps_trans; [by apply keeps_drop_projections|]. eapply keeps_trans; [apply (keeps_flush key admits)|apply keeps_drop_pending]. }
    destruct (Hks v Hv) as (n0 & Hn0 & Hi). destruct (publish (tail_ s0) p a) as [t' failed] eqn:Hp.
    destruct (publish_frames _ _ _ _ _ Hp) as (n1 & Hn1 & Hshown).
    assert (t_frames (tail_ s') = t_frames t') as Hft.
    { destruct failed; injection Hs as <- <-; [|unfold clearBoundary; by destruct (BoundaryLoop _)]. simpl.
      unfold end_refused, invalidate. destruct ctx; simpl; apply Hfin. }
    rewrite Hft, Hn1, Hn0, <-app_assoc in Hf. apply app_inv_head in Hf as <-.
    assert (∀ x, (shown x (n0 ++ n1) = shown x n0)%string) as Hsh.
    { intros x. unfold shown. rewrite map_app, texts_for_app. fold (shown x n1). by rewrite (shown_enduring _ _ Hshown), sapp_nil. }
    assert (intact key s0 (mkPreviews (fun x => (received v x ++ "")%string) (fun x => (seen v x ++ shown x (n0 ++ n1))%string))) as Hi'.
    { refine (intact_ext _ _ _ _ _ _ Hi); intros x; simpl; by rewrite ?Hsh, ?sapp_nil. }
    destruct failed; injection Hs as <- <-; [exact Hi'|].
    unfold clearBoundary. destruct (BoundaryLoop (p_Body p)) as [loop|]; [|exact Hi'].
    destruct (drop_projections_frame s) as [D1 D2]. destruct (flush_frame admits (drop_projections s)) as (F1 & F2 & _).
    destruct (drop_pending_frame (flush admits (drop_projections s))) as (P1 & P2 & P3 & _). fold s0 in P1, P2, P3.
    exact (reset_intact key (on_tail (fun _ => t') s0) _ loop Hi' P3 (eq_trans P1 (eq_trans F1 D1)) (eq_trans P2 (eq_trans F2 D2))).
  - cbn [lossless] in Hl. destruct (decide (e_Key value = key)) as [Hown|Hown].
    + rewrite bool_decide_true by congruence. destruct (queue_frame key s value s' b Hw Hk Hown Hl Hs) as (E1 & E2 & E3 & _ & E4).
      assert (new = []) as -> by (rewrite E1 in Hf; apply (app_inv_head (t_frames (tail_ s))); by rewrite app_nil_r).
      intros x. cbn [received seen]. rewrite Hk. change (shown x []) with ""%string. rewrite sapp_nil. destruct (Hv x) as [H1 H2].
      unfold pending_text in *. rewrite E2, E3, E4. split.
      * intros Hx. rewrite (H1 Hx). by rewrite !sapp_assoc.
      * intros Hx. destruct (H2 Hx) as [rest ->]. exists (rest ++ text_for x (text_of key value))%string. by rewrite !sapp_assoc.
    + cbn [live_step] in Hs. rewrite bool_decide_false in Hs |- * by congruence. injection Hs as <- <-. apply Hkeeps; [apply keeps_drop|done].
Qed.

(** C28 A preview has no hole: as long as no preview was dropped for want of room in the
    queue and no projection failed, the text a client has been shown of a loop's turn
    since its last committed boundary is a prefix of the text the runtime sent, however
    the runtime's previews, the timer, the transport's refusals, merges and committed
    events interleave; and it is all of it but what is still pending or in flight, for
    a text that no drop has gapped. *)
Theorem preview_prefix key s v b x :
  names_text key → preview_run key s v b →
  (∃ rest, received v x = (seen v x ++ rest)%string) ∧
  (x ∉ gapped s → received v x = (seen v x ++ pending_text x s ++ flying key x s)%string).
Proof.
  intros Hn Hr. assert (intact key s v ∧ (b = true → waits s ∧ running (tail_ s) ∧ t_Key (tail_ s) = key)) as [Hi _].
  { induction Hr as [|s v ev s' b new Hrun [Hi IH] Hs Hl Hf].
    - split; [|by repeat split]. intros x0. split; [done|]. by intros ?%elem_of_empty.
    - destruct (IH eq_refl) as (Hw & Hru & Hk). destruct (live_step_tail _ _ _ _ Hru Hs) as (_ & Hk' & _ & Hb). split; [by eapply intact_step|].
      intros ->. split_and!; [by eapply live_step_waits|done|congruence]. }
  destruct (Hi x) as [H1 H2]. split; [|done]. destruct (decide (x ∈ gapped s)) as [Hx|Hx]; [|rewrite H1 by done; eauto].
  destruct (H2 Hx) as [rest ->]. eauto.
Qed.
End live.

(** The committed relay of a session without previews: its frames are the publications
    of the part of the stream it read, each once and in order, and it stops reading only
    at the end of the stream it was given or with an end recorded. *)
Theorem relay_in_order key events :
  ∃ pre post, events = pre ++ post ∧
    enduring_frames (relay (new_tail key) events) = concat (map (fun ev => match ev with RPublication p a _ => committed key p a | _ => [] end) pre) ∧
    ended_well (relay (new_tail key) events) ∧ (post = [] ∨ t_end (relay (new_tail key) events) ≠ TailEndRunning).
Proof.
  assert (∀ t, running t → ∃ pre post, events = pre ++ post ∧
    enduring_frames (relay t events) = enduring_frames t ++ concat (map (fun ev => match ev with RPublication p a _ => committed (t_Key t) p a | _ => [] end) pre) ∧
    ended_well (relay t events) ∧ (post = [] ∨ t_end (relay t events) ≠ TailEndRunning)) as H.
  2:{ destruct (H (new_tail key)) as (pre & post & ? & ? & ?); [by repeat split|]. by exists pre, post. }
  induction events as [|ev events IH]; intros t Hr; cbn [relay].
  - exists [], []. simpl. rewrite app_nil_r. split_and!; [done|done|apply Hr|by left].
  - destruct ev as [e|p a ctx|ctx]; cbn [relay_step].
    + destruct (ended_finish t TailEndStopped (Some e) Hr ltac:(done)) as (H1 & H2 & H3).
      exists [RDone e], events. unfold enduring_frames. rewrite H2, H3. simpl. rewrite app_nil_r. split_and!; [done|done|done|by right].
    + destruct (publish t p a) as [t' failed] eqn:Hp. destruct (publish_spec _ _ _ _ _ Hr Hp) as (Hr' & Hk & He & _).
      assert (published_by (t', failed) p a = committed (t_Key t) p a) as Hc by (by rewrite <-Hp, committed_publish).
      rewrite Hc in He. destruct failed as [cause|].
      * destruct (end_refused_spec t' ctx cause Hr') as (H1 & H2 & H3). exists [RPublication p a ctx], events.
        unfold enduring_frames in *. rewrite H2, H3, He. simpl. rewrite app_nil_r. split_and!; [done|done|done|right; by destruct ctx].
      * destruct (IH t' Hr') as (pre & post & -> & H1 & H2 & H3). exists (RPublication p a ctx :: pre), post. rewrite H1, He, Hk. simpl.
        by rewrite app_assoc.
    + destruct (end_closed_spec t ctx Hr) as (H1 & H2 & H3). exists [RClosed ctx], events. unfold enduring_frames. rewrite H2, H3. simpl.
      rewrite app_nil_r. split_and!; [done|done|done|right; by destruct ctx].
Qed.

(** ** The examples *)

Definition sample_key : Key := mkKey "tenant" "".
Definition sample_marshal (p : EphemeralPublication) : option bytes := Some (e_Body p).
Definition preview (text : string) : EphemeralPublication := mkEph sample_key (sample_text text).
Definition sample_stream : string := "loop-a" ++ NUL ++ "turn-a" ++ NUL ++ "text".

Lemma names_text_id key : names_text true false Some key.
Proof.
  intros v k text. unfold text_of, project_live. cbn [mbind option_bind]. destruct (Parse (e_Body v)) as [d|]; [|done].
  cbn [orb andb]. destruct (String.eqb (LiveBodies.SessionID d) (Wire.SessionID key)); [|done]. intros [= <- _]. by exists d.
Qed.

Abbreviation sample_relay := (relayLive true false Some sample_marshal (start_relaying sample_key)).

(** Two previews are merged, and published when the timer fires. *)
Definition two_previews : list live_event :=
  [LEphemeral (preview "hello "); LProjected false true true; LEphemeral (preview "world"); LProjected false true true; LFlush true].

Lemma preview_prefix_witness :
  ∃ s v b, preview_run true false Some sample_marshal sample_key s v b ∧ seen v sample_stream = "hello "%string ∧
    (∃ rest, received v sample_stream = (seen v sample_stream ++ rest)%string) ∧
    (sample_stream ∉ gapped s → received v sample_stream = (seen v sample_stream ++ pending_text sample_stream s ++ flying true false Some sample_key sample_stream s)%string).
Proof.
  do 3 eexists. eassert (preview_run true false Some sample_marshal sample_key _ _ true) as Hr.
  { eapply (PreviewStep _ _ _ _ _ _ _ (LFlush true) _ _ [FText (preview "hello ") _]);
      [eapply (PreviewStep _ _ _ _ _ _ _ (LProjected false true true) _ _ []);
         [eapply (PreviewStep _ _ _ _ _ _ _ (LEphemeral (preview "hello ")) _ _ []); [apply PreviewStart|reflexivity|by left|reflexivity]
         |vm_compute; reflexivity|reflexivity|reflexivity]
      |vm_compute; reflexivity|exact I|vm_compute; reflexivity]. }
  split; [exact Hr|]. split; [by vm_compute|]. exact (preview_prefix true false Some sample_marshal sample_key _ _ _ sample_stream (names_text_id _) Hr).
Defined.

(** Two drops leave a hole.  A preview whose projection fails, and one that finds the
    queue full, are dropped without their text being gapped; what follows of the same
    text is published after what came before. *)
Definition failed_events : list live_event :=
  [LEphemeral (preview "one "); LProjected false true true; LEphemeral (preview "two "); LProjected true true true;
   LEphemeral (preview "three"); LProjected false true true; LFlush true].

Definition overflow_events : list live_event :=
  map (fun n => LEphemeral (preview (String (ascii_of_nat (97 + n)) ""))) (seq 0 18) ++ replicate 17 (LProjected false true true) ++
  [LEphemeral (preview "z"); LProjected false true true; LFlush true].

Example unmarked_drops :
  match sample_relay failed_events with
  | Some s => shown sample_stream (t_frames (tail_ s)) = "one three"%string ∧ gapped s = ∅
  | None => False
  end ∧
  match sample_relay overflow_events with
  | Some s => shown sample_stream (t_frames (tail_ s)) = "abcdefghijklmnopqz"%string ∧ gapped s = ∅
  | None => False
  end.
Proof. split; by vm_compute. Qed.

Lemma live_committed_in_order_witness :
  ∃ s, sample_relay (two_previews ++ [LEnduring (mkEnduring sample_key "e1" 1 1 (s2b "{}")) true (mkPublishing None None None) None; LClosed None]) = Some s ∧
    enduring_frames (tail_ s) = [mkEnduring sample_key "e1" 1 1 (s2b "{}")] ∧ ended_well (tail_ s) ∧ Forall (fun p => p_Key p = sample_key) (enduring_frames (tail_ s)).
Proof.
  destruct (sample_relay (two_previews ++ [LEnduring (mkEnduring sample_key "e1" 1 1 (s2b "{}")) true (mkPublishing None None None) None; LClosed None])) as [s|] eqn:H; [|by vm_compute in H].
  exists s. split; [done|]. exact (live_committed_in_order true false Some sample_marshal sample_key _ s H).
Defined.
End Relay.
