(* ===== verification/PublicJournal.v ===== *)
(** * PublicJournal.v: the durable journal as a client may read it

    [public_journal.go]: the reader that projects every body of a runtime journal's
    page, and the bounded cache of command mappings it shares between reads.  The store
    is a collaborator; the projection is [Projection.v] and the mapping is
    [CommandIndex.v].  The live tail's mapping, read from the inbox, and this reader's,
    read from the journal, are proved to give the same bytes for an event whose command
    the inbox admitted and whose prefix the journal holds before it.                                                        *)
From Stdlib Require Import ZArith Ascii.
From stdpp Require Import base list strings gmap sets fin_maps.
From S2P Require Import Prelude Errors Effects Json PublicBody Members Projection CommandIndex LiveBodies.

Module PublicJournal.
Import Json.
Local Open Scope prog_scope.

(** ** One projection for both paths *)

(** A projection's question, put to an index; [None] is out of fuel. *)
Definition ask_index (fuel : nat) (i : CommandIndex.Index) (runtime : bytes) (bound : Z) : prog CommandIndex.IE (option (res (option bytes)) * CommandIndex.Index) :=
  let! r := CommandIndex.PublicCommand fuel i (LiveBodies.b2s runtime) bound in
  Ret (match r.1 with
       | None => None
       | Some (Ok public) => Some (Ok (s2b <$> public))
       | Some (Err e) => Some (Err e)
       end, r.2).

(** A projection over an index. *)
Fixpoint over_index {A} (fuel : nat) (i : CommandIndex.Index) (p : prog Projection.PE A) : prog CommandIndex.IE (option A * CommandIndex.Index) :=
  match p with
  | Ret a => Ret (Some a, i)
  | Vis e k =>
      match e in Projection.PE X return (X → CommandIndex.Index → prog CommandIndex.IE (option A * CommandIndex.Index)) → prog CommandIndex.IE (option A * CommandIndex.Index) with
      | Projection.PPublicCommand runtime bound => fun continue =>
          let! r := ask_index fuel i runtime bound in
          match r.1 with None => Ret (None, r.2) | Some answer => continue answer r.2 end
      end (fun x i => over_index fuel i (k x))
  end.

(** The question a projection of a body asks, if it asks one. *)
Definition question {A} (p : prog Projection.PE A) : option (bytes * Z) :=
  match p with
  | Ret _ => None
  | Vis e _ => match e with Projection.PPublicCommand runtime bound => Some (runtime, bound) end
  end.

Section agreement.
Context (uuid_Parse : bytes → option bytes) (SessionID_Validate : bytes → option error).

(** A projection asks at most one question, of the event's own position, and passes a
    failure to answer it on. *)
Lemma Project_shape body ids seq :
  (∃ r, Projection.Project uuid_Parse SessionID_Validate body ids seq = Ret r) ∨
  ∃ runtime k, Projection.Project uuid_Parse SessionID_Validate body ids seq = Vis (Projection.PPublicCommand runtime seq) (fun a => Ret (k a)) ∧
    ∀ e, k (Err e) = Err (Projection.MappingError e).
Proof.
  unfold Projection.Project. destruct (Projection.IsZero _); [left; by eexists|]. destruct (SessionID_Validate _); [left; by eexists|].
  unfold Projection.projectCause. destruct (negb _ || _); [left; by eexists|].
  destruct (Members.objectMembers _) as [members|]; [|left; by eexists]. destruct (Members.last_index _ _) as [[at_ m]|]; [|left; by eexists].
  destruct (Members.objectMembers (Members.value m)) as [cause|]; [|left; by eexists].
  destruct (Members.first_index _ cause) as [[i c]|]; [|left; by eexists].
  unfold Projection.resolveCommand. destruct (unmarshal_string _) as [text|]; [|left; by eexists].
  destruct (uuid_Parse text) as [runtime|]; [|left; by eexists]. destruct (_ || _); [left; by eexists|].
  right. eexists runtime, _. split; [reflexivity|]. done.
Qed.

(** The answer the whole of a source gives. *)
Definition answer_for (records : list (Z * CommandIndex.Pair)) (runtime : bytes) : res (option bytes) :=
  Ok (s2b <$> CommandIndex.public_of records (LiveBodies.b2s runtime)).

(** What an index over a source makes of a projection. *)
Lemma over_index_spec records relevant read `{Hsource : !CommandIndex.Source records relevant read}
    (Hf : CommandIndex.functional records) fuel i body ids seq h :
  CommandIndex.wf records i →
  (∀ runtime bound, question (Projection.Project uuid_Parse SessionID_Validate body ids seq) = Some (runtime, bound) →
     ∀ r, r ∈ records → CommandIndex.Runtime r.2 = LiveBodies.b2s runtime → relevant bound r.1) →
  safe (CommandIndex.honest read) (fun _ _ => True)
    (fun _ x => ∀ out, x.1 = Some (Ok out) →
       ∃ t, runs (Projection.Project uuid_Parse SessionID_Validate body ids seq) t (Ok out) ∧
         t = match question (Projection.Project uuid_Parse SessionID_Validate body ids seq) with
             | Some (runtime, bound) => [Obs (Projection.PPublicCommand runtime bound) (answer_for records runtime)]
             | None => []
             end)
    h (over_index fuel i (Projection.Project uuid_Parse SessionID_Validate body ids seq)).
Proof.
  intros Hw. destruct (Project_shape body ids seq) as [[r ->]|(runtime & k & -> & Hk)]; intros Hrel; cbn [over_index question].
  - simpl. intros out [= ->]. by exists [].
  - unfold ask_index. eapply safe_bind, safe_bind_spec; [apply (CommandIndex.PublicCommand_spec records relevant read Hf fuel i (LiveBodies.b2s runtime) seq h Hw (Hrel runtime seq eq_refl))|].
    intros h' [[[public|e]|] i'] (_ & Hp); simpl in *; [| |done].
    + subst public. intros out [= Hout]. eexists. split; [|reflexivity]. simpl. do 2 eexists. split; [reflexivity|]. split; [done|]. symmetry. exact Hout.
    + intros out [= Hout]. by rewrite Hk in Hout.
Qed.

(** What harness documents of the command an event was caused by, when the event names
    one: a prefix of it in the journal carries the identities an inbox's record admitted
    it under, and, when the inbox admitted it at all, its prefix was written before the
    event. *)
Definition caused_after_prefix (inbox journal : CommandIndex.raw) body ids seq : Prop :=
  ∀ runtime bound, question (Projection.Project uuid_Parse SessionID_Validate body ids seq) = Some (runtime, bound) →
    (∀ r, r ∈ CommandIndex.mappings journal → CommandIndex.Runtime r.2 = LiveBodies.b2s runtime → r.2 ∈ (CommandIndex.mappings inbox).*2) ∧
    (∀ r, r ∈ CommandIndex.mappings inbox → CommandIndex.Runtime r.2 = LiveBodies.b2s runtime →
       ∃ position, (position < seq)%Z ∧ (position, r.2) ∈ CommandIndex.mappings journal).

(** Of the command it names, the two stores then say the same, and the journal's reader
    reads far enough. *)
Lemma caused_agree inbox journal body ids seq runtime bound :
  CommandIndex.functional (CommandIndex.mappings inbox) → CommandIndex.functional (CommandIndex.mappings journal) →
  caused_after_prefix inbox journal body ids seq →
  question (Projection.Project uuid_Parse SessionID_Validate body ids seq) = Some (runtime, bound) →
  answer_for (CommandIndex.mappings inbox) runtime = answer_for (CommandIndex.mappings journal) runtime ∧
  ∀ r, r ∈ CommandIndex.mappings journal → CommandIndex.Runtime r.2 = LiveBodies.b2s runtime → (r.1 ≤ bound)%Z.
Proof.
  intros Hfi Hfj Hc Hq. destruct (Hc _ _ Hq) as [Hadm Happ]. split.
  - unfold answer_for. do 2 f_equal. apply option_eq. intros public. rewrite !CommandIndex.public_of_Some by done. split.
    + intros [pos Hin]. destruct (Happ _ Hin eq_refl) as (pos' & _ & Hin'). by exists pos'.
    + intros [pos Hin]. specialize (Hadm _ Hin eq_refl). apply list_elem_of_fmap in Hadm as ([pos' pr] & Heq & Hin'). simpl in Heq. subst pr. by exists pos'.
  - intros [pos pr] Hin Hr. destruct (list_elem_of_fmap_1 _ _ _ (Hadm _ Hin Hr)) as ([pos' pr'] & Heq & Hin'). simpl in *. subst pr'.
    destruct (Happ _ Hin' Hr) as (pos2 & Hlt & Hin2). pose proof (Hfj _ _ Hin Hin2 eq_refl) as [= ->].
    assert (bound = seq) as ->; [|lia]. destruct (Project_shape body ids seq) as [[r' Hp]|(rt & k & Hp & _)]; rewrite Hp in Hq; cbn [question] in Hq; congruence.
Qed.

(** C22 The live tail and the durable journal show a client the same event.  A projection
    through the inbox's source and one through the journal's, each in whatever state its
    index is and whatever reads of its store fail, give the same bytes whenever both give
    any.  The inbox may hold commands the journal does not, pending or rejected, and
    either may have grown since the event: all that is asked of the two stores is what
    harness documents of the one command the event names, if it names one, that its
    prefix carries its admission and precedes the event, and that each store keeps its
    records in order, one mapping to a command. *)
Theorem live_and_durable_agree
    (inbox journal : CommandIndex.raw) (Hoi : CommandIndex.ordered inbox) (Hoj : CommandIndex.ordered journal)
    (Hfi : CommandIndex.functional (CommandIndex.mappings inbox)) (Hfj : CommandIndex.functional (CommandIndex.mappings journal))
    ListOrdered (Hlist : ∀ after limit, ListOrdered after limit = take (Z.to_nat limit) (filter (fun r => (after < r.1)%Z) inbox))
    ReadRuntimeJournal (Hread : ∀ from limit, ReadRuntimeJournal from limit = CommandIndex.page_of journal from limit)
    body ids seq (Hcause : caused_after_prefix inbox journal body ids seq)
    fuel fuel' i j live durable t t' out out'
    (Hwi : CommandIndex.wf (CommandIndex.mappings inbox) i) (Hwj : CommandIndex.wf (CommandIndex.mappings journal) j)
    (Hlive : runs (over_index fuel i (Projection.Project uuid_Parse SessionID_Validate body ids seq)) t (Some (Ok out), live))
    (Hdurable : runs (over_index fuel' j (Projection.Project uuid_Parse SessionID_Validate body ids seq)) t' (Some (Ok out'), durable))
    (Hhi : relied (CommandIndex.honest (CommandIndex.inbox_Read ListOrdered)) [] t)
    (Hhj : relied (CommandIndex.honest (CommandIndex.journal_Read ReadRuntimeJournal)) [] t') :
  out = out'.
Proof.
  pose proof (CommandIndex.inbox_source inbox Hoi ListOrdered Hlist) as Si. pose proof (CommandIndex.journal_source journal Hoj ReadRuntimeJournal Hread) as Sj.
  destruct (safe_runs _ _ _ _ _ _ _ (over_index_spec _ _ _ (Hsource := Si) Hfi fuel i body ids seq [] Hwi (fun _ _ _ _ _ _ => I)) Hlive Hhi) as [H1 _].
  destruct (safe_runs _ _ _ _ _ _ _ (over_index_spec _ _ _ (Hsource := Sj) Hfj fuel' j body ids seq [] Hwj
    (fun rt b H => proj2 (caused_agree _ _ _ _ _ rt b Hfi Hfj Hcause H))) Hdurable Hhj) as [H2 _].
  destruct (H1 out eq_refl) as (t1 & R1 & E1). destruct (H2 out' eq_refl) as (t2 & R2 & E2).
  pose proof (fun rt b H => proj1 (caused_agree _ _ _ _ _ rt b Hfi Hfj Hcause H)) as Hsame.
  destruct (Project_shape body ids seq) as [[r Hr]|(runtime & k & Hr & _)]; rewrite Hr in *; cbn [question] in *.
  - destruct R1 as [_ R1], R2 as [_ R2]. congruence.
  - specialize (Hsame runtime seq eq_refl). subst t1 t2. destruct R1 as (x1 & t1 & Ho1 & _ & K1), R2 as (x2 & t2 & Ho2 & _ & K2).
    apply (f_equal (fun t => Projection.answer_of <$> head t)) in Ho1, Ho2. simpl in Ho1, Ho2. congruence.
Qed.
End agreement.

(** ** A page *)

Record JournalEvent := mkJournalEvent { EventID : string; JournalSeq : Z; Body : bytes }.
Record JournalPage := mkJournalPage { Events : list JournalEvent; Cursor : string }.

(** The store's page read, and the mapping's question. *)
Inductive JE : Type → Type :=
| JReadPublicJournal (tenant session : string) : JE (res JournalPage)
| JPublicCommand (runtime : bytes) (bound : Z) : JE (res (option bytes)).

Fixpoint asking {A} (p : prog Projection.PE A) : prog JE A :=
  match p with
  | Ret a => Ret a
  | Vis e k =>
      match e in Projection.PE X return (X → prog JE A) → prog JE A with
      | Projection.PPublicCommand runtime bound => fun continue => Vis (JPublicCommand runtime bound) continue
      end (fun x => asking (k x))
  end.

(** [ErrPublicJournalScope]. *)
Definition ErrPublicJournalScope : error := ESentinel "host.ErrPublicJournalScope".

(** [PublicJournal]; its mapping is the index of its number. *)
Record PublicJournal := mkPublicJournal { reader : nat; tenant : string; runtime : string; identity : Projection.Identities; mapping : nat }.

Section page.
Context (uuid_Parse : bytes → option bytes) (SessionID_Validate TenantID_Validate : bytes → option error).

Fixpoint project_events (ids : Projection.Identities) (events : list JournalEvent) : prog JE (res (list JournalEvent)) :=
  match events with
  | [] => Ret (Ok [])
  | e :: events =>
      let! body := asking (Projection.Project uuid_Parse SessionID_Validate (Body e) ids (JournalSeq e)) in
      match body with
      | Err err => Ret (Err (ETyped TWrapError (Some err)))
      | Ok body =>
          let! rest := project_events ids events in
          Ret match rest with
              | Err err => Err err
              | Ok rest => Ok (mkJournalEvent (EventID e) (JournalSeq e) body :: rest)
              end
      end
  end.

(** [ReadPublicJournal]. *)
Definition ReadPublicJournal (j : PublicJournal) (tenant_ session : string) : prog JE (res JournalPage) :=
  if negb (String.eqb tenant_ (tenant j)) || negb (String.eqb session (runtime j)) then Ret (Err ErrPublicJournalScope)
  else
    let! page := call (JReadPublicJournal tenant_ session) in
    match page with
    | Err err => Ret (Err err)
    | Ok page =>
        let! events := project_events (identity j) (Events page) in
        Ret match events with
            | Err err => Err err
            | Ok events => Ok (mkJournalPage events (Cursor page))
            end
    end.

(** An event's projection: its identity and position, and the body projected. *)
Definition projected (ids : Projection.Identities) (e e' : JournalEvent) : Prop :=
  EventID e' = EventID e ∧ JournalSeq e' = JournalSeq e ∧
  ∃ t, runs (Projection.Project uuid_Parse SessionID_Validate (Body e) ids (JournalSeq e)) t (Ok (Body e')).

Lemma asking_runs {A} (p : prog Projection.PE A) t a : runs (asking p) t a → ∃ t', runs p t' a ∧ length t' = length t.
Proof.
  revert t. induction p as [b|X e k IH]; intros t; [intros [-> ->]; by exists []|]. destruct e as [rt bound]. cbn [asking].
  intros (x & t1 & -> & H). destruct (IH x t1 H) as (t' & Hr & Hl). exists (Obs (Projection.PPublicCommand rt bound) x :: t').
  split; [simpl; eauto|simpl; congruence].
Qed.

Lemma project_events_runs ids events t r :
  runs (project_events ids events) t r → match r with Ok out => Forall2 (projected ids) events out | Err _ => True end.
Proof.
  revert t r. induction events as [|e events IH]; intros t r; [intros [-> ->]; constructor|]. cbn [project_events].
  rewrite runs_bind. intros (t1 & t2 & [body|err] & -> & H1 & H2); [|by destruct H2 as [-> ->]].
  apply runs_bind in H2 as (t3 & t4 & rest & -> & H3 & [-> ->]). specialize (IH _ _ H3). destruct rest as [rest|err]; [|done].
  constructor; [|done]. destruct (asking_runs _ _ _ H1) as (t' & Hr & _). split_and!; [done|done|by exists t'].
Qed.

(** A read through a public journal is of its own journal alone, and what it returns is
    the store's page with each body projected and nothing else changed: the same
    events, in order, at the same positions, with the page's cursor. *)
Theorem page_projected j tenant_ session t r :
  runs (ReadPublicJournal j tenant_ session) t r →
  (tenant_ ≠ tenant j ∨ session ≠ runtime j → t = [] ∧ r = Err ErrPublicJournalScope) ∧
  (∀ out, r = Ok out → ∃ page t', t = Obs (JReadPublicJournal (tenant j) (runtime j)) (Ok page) :: t' ∧
     Forall2 (projected (identity j)) (Events page) (Events out) ∧ Cursor out = Cursor page).
Proof.
  unfold ReadPublicJournal. destruct (String.eqb_spec tenant_ (tenant j)) as [->|Ht]; [|intros [-> ->]; by split].
  destruct (String.eqb_spec session (runtime j)) as [->|Hs]; [|intros [-> ->]; by split]. cbn [negb orb].
  intros (page & t1 & -> & H)%runs_call. destruct page as [page|err].
  - apply runs_bind in H as (t2 & t3 & events & -> & H1 & [-> ->]). split; [by intros [?|?]|]. intros out Hout.
    pose proof (project_events_runs _ _ _ _ H1) as Hp. destruct events as [events|err]; [|done]. injection Hout as <-. eauto 10.
  - destruct H as [-> ->]. split; [by intros [?|?]|done].
Qed.

(** ** The cache of mappings *)

(** [publicJournalKey], [cachedIndex] and [currentJournal]: an index is a number, and so
    is the cell that holds the reader it reads through. *)
Abbreviation publicJournalKey := (string * string * string)%type.
Record cachedIndex := mkCached { index : nat; current : nat; used : Z }.

Record PublicJournals := mkJournals {
  capacity : Z; clock : Z; indexes : gmap publicJournalKey cachedIndex; readers : gmap nat nat; allocated : nat
}.

Definition DefaultPublicJournalCapacity : Z := 1024.

(** [NewPublicJournals]. *)
Definition NewPublicJournals (capacity : Z) : PublicJournals :=
  mkJournals (if (capacity <=? 0)%Z then DefaultPublicJournalCapacity else capacity) 0 ∅ ∅ 0.

(** The checks of [newPublicJournal]: the runtime session's UUID. *)
Definition ErrNilReader : error := EForeign "host: a public journal needs a runtime journal reader".
Definition check_binding (reader : option nat) (tenant session runtimeSession : bytes) : res bytes :=
  if bool_decide (reader = None) then Err ErrNilReader else
  match TenantID_Validate tenant with
  | Some e => Err (ETyped TWrapError (Some e))
  | None =>
      match SessionID_Validate session with
      | Some e => Err (ETyped TWrapError (Some e))
      | None =>
          match uuid_Parse runtimeSession with
          | Some u => if Projection.IsZero u then Err (ETyped TWrapError (Some ErrPublicJournalScope)) else Ok u
          | None => Err (ETyped TWrapError (Some ErrPublicJournalScope))
          end
      end
  end.

(** The candidate used least recently. *)
Definition older (a b : publicJournalKey * cachedIndex) : publicJournalKey * cachedIndex := if (used b.2 <? used a.2)%Z then b else a.
Definition oldest (m : gmap publicJournalKey cachedIndex) : option publicJournalKey :=
  match map_to_list m with
  | [] => None
  | x :: l => Some (fold_left older l x).1
  end.

Definition evict (p : PublicJournals) : gmap publicJournalKey cachedIndex :=
  if (capacity p <=? Z.of_nat (size (indexes p)))%Z
  then match oldest (indexes p) with Some key => delete key (indexes p) | None => indexes p end
  else indexes p.

(** [Reader]. *)
Definition Reader (p : PublicJournals) (given : option nat) (tenant session runtimeSession : string) : res PublicJournal * PublicJournals :=
  let reader := default 0 given in
  match check_binding given (s2b tenant) (s2b session) (s2b runtimeSession) with
  | Err e => (Err e, p)
  | Ok u =>
      let fresh n := mkPublicJournal reader tenant runtimeSession (Projection.mkIdentities u (s2b session) true) n in
      let key := (tenant, session, runtimeSession) in
      let clock := u64 (clock p + 1) in
      match indexes p !! key with
      | Some cached =>
          (Ok (fresh (index cached)),
           mkJournals (capacity p) clock (<[key := mkCached (index cached) (current cached) clock]> (indexes p))
             (<[current cached := reader]> (readers p)) (allocated p))
      | None =>
          (Ok (fresh (allocated p)),
           mkJournals (capacity p) clock (<[key := mkCached (allocated p) (allocated p) clock]> (evict p))
             (<[allocated p := reader]> (readers p)) (S (allocated p)))
      end
  end.

(** The readers a cache has answered, each with its key and the index it was given. *)
Inductive cache_run (cap : Z) : PublicJournals → list (publicJournalKey * nat) → Prop :=
| CacheNew : cache_run cap (NewPublicJournals cap) []
| CacheRead p h reader tenant session runtimeSession j p' :
    cache_run cap p h → Reader p (Some reader) tenant session runtimeSession = (Ok j, p') →
    cache_run cap p' (((tenant, session, runtimeSession), mapping j) :: h).

Record cached_well (cap : Z) (p : PublicJournals) (h : list (publicJournalKey * nat)) : Prop := {
  cw_capacity : capacity p = capacity (NewPublicJournals cap);
  cw_size : (Z.of_nat (size (indexes p)) ≤ capacity p)%Z;
  cw_entries : ∀ key ci, indexes p !! key = Some ci → (key, index ci) ∈ h ∧ current ci = index ci;
  cw_allocated : ∀ key n, (key, n) ∈ h → n < allocated p;
  cw_owner : ∀ key key' n, (key, n) ∈ h → (key', n) ∈ h → key = key'
}.

Lemma fold_older l x :
  fold_left older l x ∈ x :: l ∧ Forall (fun y => (used (fold_left older l x).2 ≤ used y.2)%Z) (x :: l).
Proof.
  revert x. induction l as [|y l IH]; intros x; simpl; [split; [left|by repeat constructor]|].
  destruct (IH (older x y)) as [Hin Hall]. apply Forall_cons in Hall as [Ho Hall]. unfold older in *.
  destruct (Z.ltb_spec (used y.2) (used x.2)).
  - split; [by right|]. repeat constructor; [lia|done|done].
  - split; [|by repeat constructor; [done|lia|]]. apply elem_of_cons in Hin as [Hin|Hin]; [rewrite Hin; left|right; by right].
Qed.

Lemma oldest_spec (m : gmap publicJournalKey cachedIndex) :
  match oldest m with
  | Some key => ∃ ci, m !! key = Some ci ∧ ∀ key' ci', m !! key' = Some ci' → (used ci ≤ used ci')%Z
  | None => m = ∅
  end.
Proof.
  unfold oldest. destruct (map_to_list m) as [|x l] eqn:Hm; [by apply map_to_list_empty_iff|].
  destruct (fold_older l x) as [Hin Hall]. rewrite <-Hm in Hin, Hall. destruct (fold_left older l x) as [key ci].
  exists ci. apply elem_of_map_to_list in Hin. split; [done|]. intros key' ci' H. rewrite Forall_forall in Hall.
  apply (Hall (key', ci')). by apply elem_of_map_to_list.
Qed.

Lemma evict_spec p :
  (0 < capacity p)%Z → (Z.of_nat (size (indexes p)) ≤ capacity p)%Z →
  (Z.of_nat (size (evict p)) < capacity p)%Z ∧ evict p ⊆ indexes p ∧
  ∀ key ci, indexes p !! key = Some ci → evict p !! key = Some ci ∨
    (capacity p ≤ Z.of_nat (size (indexes p)))%Z ∧ ∀ key' ci', indexes p !! key' = Some ci' → (used ci ≤ used ci')%Z.
Proof.
  intros Hc Hs. unfold evict. destruct (Z.leb_spec (capacity p) (Z.of_nat (size (indexes p)))) as [Hfull|Hfull]; [|by split_and!; auto].
  pose proof (oldest_spec (indexes p)) as Ho. destruct (oldest (indexes p)) as [key|].
  - destruct Ho as (ci & Hk & Hmin). assert (size (indexes p) ≠ 0) as Hn.
    { intros H0%map_size_empty_inv. by rewrite H0, lookup_empty in Hk. }
    split_and!; [rewrite map_size_delete_Some by (by eexists); lia|apply delete_subseteq|].
    intros key' ci' Hk'. destruct (decide (key' = key)) as [->|Hne]; [right; split; [done|]; by simplify_eq|left; by rewrite lookup_delete_ne].
  - rewrite Ho, map_size_empty in Hfull. simpl in Hfull. lia.
Qed.

Lemma Reader_spec cap p h reader tenant session runtimeSession j p' :
  cached_well cap p h → Reader p (Some reader) tenant session runtimeSession = (Ok j, p') →
  let key := (tenant, session, runtimeSession) in
  cached_well cap p' ((key, mapping j) :: h) ∧
  (∃ ci, indexes p' !! key = Some ci ∧ index ci = mapping j ∧ readers p' !! current ci = Some reader) ∧
  (∀ key' ci', key' ≠ key → indexes p !! key' = Some ci' →
     (indexes p' !! key' = Some ci' ∧ readers p' !! current ci' = readers p !! current ci') ∨
     (indexes p !! key = None ∧ (capacity p ≤ Z.of_nat (size (indexes p)))%Z ∧ ∀ key2 ci2, indexes p !! key2 = Some ci2 → (used ci' ≤ used ci2)%Z)).
Proof.
  intros [H1 H2 H3 H4 H5] HR. cbn zeta. unfold Reader in HR. destruct (check_binding _ _ _ _) as [u|]; [|done]. cbn [default] in HR.
  set (key := (tenant, session, runtimeSession)) in *.
  assert (∀ k n, (k, n) ∈ h → ∀ ci, indexes p !! key = Some ci → n = index ci → k = key) as Hown.
  { intros k n Hin ci Hci ->. apply H3 in Hci as [Hci _]. by eapply H5. }
  destruct (indexes p !! key) as [ci|] eqn:Hk; injection HR as <- <-.
  - destruct (H3 _ _ Hk) as [Hin Hcur]. split_and!.
    + split; simpl; [done|rewrite map_size_insert_Some by done; done| | |].
      * intros k c. rewrite lookup_insert_Some. intros [[<- <-]|[Hne Hc]]; [split; [left|done]|]. destruct (H3 _ _ Hc). split; [by right|done].
      * intros k n [[= -> ->]|Hn]%elem_of_cons; [by eapply H4|by eapply H4].
      * intros k k' n Ha Hb. apply elem_of_cons in Ha, Hb. destruct Ha as [Ha|Ha], Hb as [Hb|Hb]; simplify_eq/=; [done| | |by eapply H5].
        all: by eapply H5.
    + exists (mkCached (index ci) (current ci) (u64 (clock p + 1))). simpl. by rewrite lookup_insert_eq, lookup_insert_eq.
    + intros k c Hne Hc. left. simpl. rewrite lookup_insert_ne by done. split; [done|]. apply lookup_insert_ne.
      destruct (H3 _ _ Hc) as [Hin' Hcur']. intros Heq. apply Hne. eapply H5; [exact Hin'|]. rewrite <-Hcur', <-Heq, Hcur. exact Hin.
  - assert (0 < capacity p)%Z as Hpos by (rewrite H1; simpl; destruct (Z.leb_spec cap 0); [done|lia]).
    destruct (evict_spec p Hpos H2) as (E1 & E2 & E3).
    assert (evict p !! key = None) as Hek.
    { destruct (evict p !! key) eqn:E; [|done]. eapply lookup_weaken in E; [|exact E2]. by rewrite Hk in E. }
    split_and!.
    + split; simpl; [done|rewrite map_size_insert_None by done; lia| | |].
      * intros k c. rewrite lookup_insert_Some. intros [[<- <-]|[Hne Hc]]; [split; [left|done]|].
        destruct (H3 k c) as [? ?]; [by eapply lookup_weaken|]. split; [by right|done].
      * intros k n [[= -> ->]|Hn]%elem_of_cons; [lia|]. specialize (H4 _ _ Hn). lia.
      * intros k k' n Ha Hb. apply elem_of_cons in Ha, Hb. destruct Ha as [Ha|Ha], Hb as [Hb|Hb]; simplify_eq/=; [done| | |by eapply H5].
        -- specialize (H4 _ _ Hb). lia.
        -- specialize (H4 _ _ Ha). lia.
    + exists (mkCached (allocated p) (allocated p) (u64 (clock p + 1))). simpl. by rewrite lookup_insert_eq, lookup_insert_eq.
    + intros k c Hne Hc. destruct (E3 _ _ Hc) as [He|[Hfull Hmin]]; [left|by right]. simpl. rewrite lookup_insert_ne by done. split; [done|].
      apply lookup_insert_ne. destruct (H3 _ _ Hc) as [Hin' ->]. specialize (H4 _ _ Hin'). lia.
Qed.

Lemma cache_run_well cap p h : cache_run cap p h → cached_well cap p h.
Proof.
  induction 1 as [|p h reader tenant session runtimeSession j p' _ IH HR].
  - split; simpl; [done| |done| |].
    + rewrite map_size_empty. destruct (Z.leb_spec cap 0); [done|simpl; lia].
    + by intros ? ? ?%elem_of_nil.
    + by intros ? ? ? ?%elem_of_nil.
  - by apply (Reader_spec cap p h reader tenant session runtimeSession j p').
Qed.

(** A kept mapping is its session's own.  Whatever readers were asked before, in whatever
    order, the cache is within its capacity; the index a reader is given was given to no
    reader of another session; that index now reads through the store just handed, and
    every other kept session's through the one it was handed; and a session is forgotten
    only by a new one, when the cache is full, and only when no other was used longer
    ago. *)
Theorem mapping_kept cap p h reader tenant session runtimeSession j p' :
  cache_run cap p h → Reader p (Some reader) tenant session runtimeSession = (Ok j, p') →
  let key := (tenant, session, runtimeSession) in
  (Z.of_nat (size (indexes p')) ≤ capacity (NewPublicJournals cap))%Z ∧
  (∀ key', (key', mapping j) ∈ h → key' = key) ∧
  (∃ ci, indexes p' !! key = Some ci ∧ index ci = mapping j ∧ readers p' !! current ci = Some reader) ∧
  (∀ key' ci', key' ≠ key → indexes p !! key' = Some ci' →
     (indexes p' !! key' = Some ci' ∧ readers p' !! current ci' = readers p !! current ci') ∨
     (indexes p !! key = None ∧ (capacity p ≤ Z.of_nat (size (indexes p)))%Z ∧ ∀ key2 ci2, indexes p !! key2 = Some ci2 → (used ci' ≤ used ci2)%Z)).
Proof.
  intros Hrun HR. cbn zeta. destruct (Reader_spec _ _ _ _ _ _ _ _ _ (cache_run_well _ _ _ Hrun) HR) as ([W1 W2 W3 W4 W5] & H2 & H3).
  split_and!; [by rewrite <-W1| |done|done]. intros key' Hin. eapply W5; [by right|left].
Qed.
End page.

(** ** Witnesses

    A journal of one command, an inbox that holds it and one still pending, an event it
    caused, and a page of that event. *)
Definition sample_session : string := LiveBodies.b2s PublicBody.sample_id.
Definition admitted_store : CommandIndex.raw := [(2%Z, Some (CommandIndex.mkPair (LiveBodies.b2s Projection.sample_command) "cmd-1"))].
Definition caused : bytes := Projection.sample_event Projection.sample_command.
Definition journal_env : handler CommandIndex.IE unit := fun X e u =>
  match e in CommandIndex.IE X return X * unit with
  | CommandIndex.IRead after bound => (Ok (CommandIndex.journal_Read (CommandIndex.page_of admitted_store) after bound), u)
  end.
Definition pending_store : CommandIndex.raw :=
  [(1%Z, Some (CommandIndex.mkPair "pending" "cmd-0")); (2%Z, Some (CommandIndex.mkPair (LiveBodies.b2s Projection.sample_command) "cmd-1"))].
Definition ordered_from (after limit : Z) : CommandIndex.raw := take (Z.to_nat limit) (filter (fun r => (after < r.1)%Z) pending_store).
Definition inbox_env : handler CommandIndex.IE unit := fun X e u =>
  match e in CommandIndex.IE X return X * unit with
  | CommandIndex.IRead after bound => (Ok (CommandIndex.inbox_Read ordered_from after bound), u)
  end.
Definition projecting := Projection.Project Projection.sample_parse (fun _ => None) caused Projection.sample_ids 7.

Lemma admitted_ordered : CommandIndex.ordered admitted_store.
Proof. split; unfold admitted_store; repeat (constructor; simpl; try (unfold CommandIndex.is_position, two64; lia)). Qed.
Lemma admitted_functional : CommandIndex.functional (CommandIndex.mappings admitted_store).
Proof. intros r r' Hr Hr' _. unfold CommandIndex.mappings, admitted_store in *. simpl in *. set_unfold. by destruct Hr as [->|[]], Hr' as [->|[]]. Qed.
Lemma pending_ordered : CommandIndex.ordered pending_store.
Proof. split; unfold pending_store; repeat (constructor; simpl; try (unfold CommandIndex.is_position, two64; lia)). Qed.
Lemma pending_functional : CommandIndex.functional (CommandIndex.mappings pending_store).
Proof.
  intros r r' Hr Hr' Heq. unfold CommandIndex.mappings, pending_store in *. simpl in *. set_unfold.
  destruct Hr as [->|[->|[]]], Hr' as [->|[->|[]]]; try done; vm_compute in Heq; discriminate Heq.
Qed.

Lemma admitted_wf : CommandIndex.wf (CommandIndex.mappings admitted_store) CommandIndex.NewIndex.
Proof.
  apply (CommandIndex.NewIndex_wf _ _ _ (Hsource := CommandIndex.journal_source admitted_store admitted_ordered _ (fun _ _ => eq_refl)) admitted_functional).
  by repeat constructor.
Qed.
Lemma pending_wf : CommandIndex.wf (CommandIndex.mappings pending_store) CommandIndex.NewIndex.
Proof.
  apply (CommandIndex.NewIndex_wf _ _ _ (Hsource := CommandIndex.inbox_source pending_store pending_ordered ordered_from (fun _ _ => eq_refl)) pending_functional).
  by repeat constructor.
Qed.

Lemma caused_in_order : caused_after_prefix Projection.sample_parse (fun _ => None) pending_store admitted_store caused Projection.sample_ids 7.
Proof.
  intros rt bound Hq. vm_compute in Hq. injection Hq as <- <-. split.
  - intros r Hr _. unfold CommandIndex.mappings, admitted_store in Hr. simpl in Hr. apply list_elem_of_singleton in Hr as ->. right. by left.
  - intros r Hr He. unfold CommandIndex.mappings, pending_store in Hr. simpl in Hr.
    apply elem_of_cons in Hr as [->|Hr]; [vm_compute in He; discriminate He|]. apply list_elem_of_singleton in Hr as ->. exists 2%Z. split; [done|by left].
Qed.

Definition live_run := exec inbox_env (over_index 2 CommandIndex.NewIndex projecting) tt.
Definition durable_run := exec journal_env (over_index 2 CommandIndex.NewIndex projecting) tt.
Definition client_body : bytes := Eval vm_compute in match live_run.1.1.1 with Some (Ok out) => out | _ => [] end.

Lemma live_demo : runs (over_index 2 CommandIndex.NewIndex projecting) live_run.2 (Some (Ok client_body), live_run.1.1.2).
Proof. refine (exec_runs inbox_env _ tt _ tt _ _). vm_compute. reflexivity. Qed.
Lemma durable_demo : runs (over_index 2 CommandIndex.NewIndex projecting) durable_run.2 (Some (Ok client_body), durable_run.1.1.2).
Proof. refine (exec_runs journal_env _ tt _ tt _ _). vm_compute. reflexivity. Qed.
Lemma live_honest : relied (CommandIndex.honest (CommandIndex.inbox_Read ordered_from)) [] live_run.2.
Proof.
  intros t1 o t2 Ht. vm_compute in Ht. repeat (destruct t1 as [|? t1]; simplify_eq/=; [vm_compute; reflexivity|]). all: by destruct t1.
Qed.
Lemma durable_honest : relied (CommandIndex.honest (CommandIndex.journal_Read (CommandIndex.page_of admitted_store))) [] durable_run.2.
Proof.
  intros t1 o t2 Ht. vm_compute in Ht. repeat (destruct t1 as [|? t1]; simplify_eq/=; [vm_compute; reflexivity|]). all: by destruct t1.
Qed.

Lemma live_and_durable_agree_witness :
  ∃ live durable t t' out out',
    runs (over_index 2 CommandIndex.NewIndex projecting) t (Some (Ok out), live) ∧
    runs (over_index 2 CommandIndex.NewIndex projecting) t' (Some (Ok out'), durable) ∧ out = out'.
Proof.
  pose proof live_demo as H1. pose proof durable_demo as H2.
  exists live_run.1.1.2, durable_run.1.1.2, live_run.2, durable_run.2, client_body, client_body. split; [exact H1|]. split; [exact H2|].
  exact (live_and_durable_agree Projection.sample_parse (fun _ => None) pending_store admitted_store pending_ordered admitted_ordered
    pending_functional admitted_functional ordered_from (fun _ _ => eq_refl) (CommandIndex.page_of admitted_store) (fun _ _ => eq_refl)
    caused Projection.sample_ids 7 caused_in_order 2 2 CommandIndex.NewIndex CommandIndex.NewIndex _ _ _ _ _ _ pending_wf admitted_wf
    H1 H2 live_honest durable_honest).
Defined.

Definition one_page : JournalPage := mkJournalPage [mkJournalEvent "e1" 7 caused] "next".
Definition journal_of (n : nat) : PublicJournal := mkPublicJournal n "t" sample_session Projection.sample_ids 0.
Definition page_env : handler JE unit := fun X e u =>
  match e in JE X return X * unit with
  | JReadPublicJournal _ _ => (Ok one_page, u)
  | JPublicCommand _ _ => (Ok (Some (s2b "cmd-1")), u)
  end.

Lemma page_projected_witness :
  ∃ t out, runs (ReadPublicJournal Projection.sample_parse (fun _ => None) (journal_of 7) "t" sample_session) t (Ok out) ∧
    ∃ page t', t = Obs (JReadPublicJournal "t" sample_session) (Ok page) :: t' ∧
      Forall2 (projected Projection.sample_parse (fun _ => None) Projection.sample_ids) (Events page) (Events out) ∧ Cursor out = Cursor page.
Proof.
  destruct (exec page_env (ReadPublicJournal Projection.sample_parse (fun _ => None) (journal_of 7) "t" sample_session) tt) as [[r u] t] eqn:H.
  assert (∃ out, r = Ok out) as [out Ho] by (clear -H; vm_compute in H; injection H as <- _ _; eauto). subst r.
  apply exec_runs in H. exists t, out. split; [exact H|].
  exact (proj2 (page_projected Projection.sample_parse (fun _ => None) (journal_of 7) "t" sample_session t (Ok out) H) out eq_refl).
Defined.

Definition demo_reader (p : PublicJournals) (n : nat) (session : string) : res PublicJournal * PublicJournals :=
  Reader Projection.sample_parse (fun _ => None) (fun _ => None) p (Some n) "t" session sample_session.
Definition demo_journals (n : nat) (session : string) : PublicJournals := (demo_reader (NewPublicJournals 1) n session).2.
Definition answered_journal (r : res PublicJournal) : PublicJournal := match r with Ok j => j | Err _ => journal_of 0 end.

Lemma answered_Ok (r : res PublicJournal * PublicJournals) : is_ok r.1 = true → r = (Ok (answered_journal r.1), r.2).
Proof. by destruct r as [[j|e] p]. Qed.

Lemma mapping_kept_witness :
  let p := demo_journals 7 "s1" in let r := demo_reader p 8 "s2" in
  cache_run Projection.sample_parse (fun _ => None) (fun _ => None) 1 p [(("t", "s1", sample_session)%string, mapping (answered_journal (demo_reader (NewPublicJournals 1) 7 "s1").1))] ∧
  size (indexes p) = 1 ∧ (Z.of_nat (size (indexes r.2)) ≤ 1)%Z.
Proof.
  intros p r.
  assert (demo_reader (NewPublicJournals 1) 7 "s1" = (Ok (answered_journal (demo_reader (NewPublicJournals 1) 7 "s1").1), p)) as H1 by (apply answered_Ok; vm_compute; reflexivity).
  assert (r = (Ok (answered_journal r.1), r.2)) as H2 by (apply answered_Ok; vm_compute; reflexivity).
  pose proof (CacheRead _ _ _ 1 _ _ _ _ _ _ _ _ (CacheNew _ _ _ 1) H1) as Hr.
  split; [exact Hr|]. split; [vm_compute; reflexivity|].
  exact (proj1 (mapping_kept Projection.sample_parse (fun _ => None) (fun _ => None) 1 p _ 8 "t" "s2" sample_session _ _ Hr H2)).
Defined.
End PublicJournal.
