(* ===== verification/RigTarget.v ===== *)
(** * RigTarget.v: launching a session through a rig

    [department/runtime.go]: the launch target over a rig, the checks of the session a
    rig answers, and the runtime it is adapted to.  A rig is an interface ([Rig]) whose
    promise, that a session it does not answer was given back, is a class ([RigLaws]);
    the target is proved against it, and [HarnessRig.v] provides it.             *)
From Stdlib Require Import ZArith.
From stdpp Require Import base list strings gmap.
From S2P Require Import Prelude Wire Errors Effects Department.

Module RigTarget.
Import Department.
Local Open Scope prog_scope.

(** ** Requests; a UUID is its 128-bit value, zero when unset *)

Record CreateRequest := mkCreateRequest {
  TenantID : string; SessionID : string; AgentID : string; Placement : HostPlacement;
  WorkspaceRoot : string; Storage : string; RigSessionID : Z
}.
Record RestoreRequest := mkRestoreRequest { launch : CreateRequest; CompatibilityID : string }.

(** [RigCreateRequest] has [CreateRequest]'s fields, and [RigRestoreRequest] all but the
    identity, which is an argument of its own. *)
Record RigRestoreRequest := mkRigRestore {
  rr_TenantID : string; rr_SessionID : string; rr_AgentID : string; rr_Placement : HostPlacement;
  rr_WorkspaceRoot : string; rr_Storage : string
}.

(** ** A rig's session, by the interfaces it implements *)

Record RigSession := mkRigSession {
  ID : Z;
  is_IdleWaiter : bool; is_Liveness : bool; is_Releaser : bool; is_PublicationSubscriber : bool;
  is_CommandApplier : bool; is_LeaseEpochReporter : bool;
  is_AttemptCloser : bool; AttemptCloserAvailable : option bool;
  is_PersistenceFaults : bool; PersistenceFaultsAvailable : option bool;
  is_LivePublicationSubscriber : bool; is_ReasoningPublicationSubscriber : bool; is_LiveOptionsSubscriber : bool
}.

(** The arguments of a recovery closure. *)
Record Closing := mkClosing { cl_command : string; cl_runtimeCommand : Z; cl_kind : string; cl_attempt : string; cl_epoch : Z }.

(** [Rig], and the methods of its sessions the adapted runtime forwards to. *)
Record Rig (E : Type → Type) (S : Type) := mkRig {
  NewSession : CreateRequest → prog E (res (option S));
  RestoreSession : Z → RigRestoreRequest → prog E (res (option S));
  view : S → RigSession;
  ReleaseResidency : S → prog E (option error);
  AbandonResidency : S → prog E (option error);
  CloseAttempt : S → Closing → prog E (option error);
  PersistenceFault : S → prog E (option error)
}.
Arguments NewSession {E S}. Arguments RestoreSession {E S}. Arguments view {E S}.
Arguments ReleaseResidency {E S}. Arguments AbandonResidency {E S}. Arguments CloseAttempt {E S}. Arguments PersistenceFault {E S}.

Definition ErrRigSessionIdentity : error := ESentinel "department.ErrRigSessionIdentity".
Definition ErrNoRigSession : error := ESentinel "department.ErrNoRigSession".
Definition ErrNoAttemptCloser : error := ESentinel "department.ErrNoAttemptCloser".
Definition ErrNoPersistenceFaults : error := ESentinel "department.ErrNoPersistenceFaults".
Definition RigLaunchError (cause : error) : error := ETyped (TOtherError "department.RigLaunchError") (Some cause).
Definition IncapableRuntimeError (missing : list string) : error := ETyped (TIncapableError "department" missing) None.

(** [rigRuntime]: its six embedded capabilities are the session's. *)
Record rigRuntime (S : Type) := mkRuntime {
  r_sessionID : string; r_agentID : string; r_rigID : Z; session : S; closer : option S; faults : option S
}.
Arguments mkRuntime {S}. Arguments r_sessionID {S}. Arguments r_agentID {S}. Arguments r_rigID {S}.
Arguments session {S}. Arguments closer {S}. Arguments faults {S}.

(** The six types a runtime is adapted to, by the optional subscriptions they add. *)
Inductive Runtime (S : Type) :=
| RigRuntime (r : rigRuntime S) | LiveRigRuntime (r : rigRuntime S) | ReasoningRigRuntime (r : rigRuntime S)
| OptionsRigRuntime (r : rigRuntime S) | LiveOptionsRigRuntime (r : rigRuntime S) | ReasoningOptionsRigRuntime (r : rigRuntime S).
Arguments RigRuntime {S}. Arguments LiveRigRuntime {S}. Arguments ReasoningRigRuntime {S}.
Arguments OptionsRigRuntime {S}. Arguments LiveOptionsRigRuntime {S}. Arguments ReasoningOptionsRigRuntime {S}.

Definition base {S} (rt : Runtime S) : rigRuntime S :=
  match rt with
  | RigRuntime r | LiveRigRuntime r | ReasoningRigRuntime r | OptionsRigRuntime r | LiveOptionsRigRuntime r | ReasoningOptionsRigRuntime r => r
  end.

Definition offers_live {S} (rt : Runtime S) : bool :=
  match rt with LiveRigRuntime _ | ReasoningRigRuntime _ | LiveOptionsRigRuntime _ | ReasoningOptionsRigRuntime _ => true | _ => false end.
Definition offers_reasoning {S} (rt : Runtime S) : bool :=
  match rt with ReasoningRigRuntime _ | ReasoningOptionsRigRuntime _ => true | _ => false end.
Definition offers_options {S} (rt : Runtime S) : bool :=
  match rt with OptionsRigRuntime _ | LiveOptionsRigRuntime _ | ReasoningOptionsRigRuntime _ => true | _ => false end.

(** ** The target *)

(** [rigTarget]; [launching] is its rig. *)
Record rigTarget (E : Type → Type) (S : Type) := mkRigTarget { launching : Rig E S; compatibility : string; capabilities : Capabilities }.
Arguments mkRigTarget {E S}. Arguments launching {E S}. Arguments compatibility {E S}. Arguments capabilities {E S}.

(** [NewRigTarget], of a rig or a nil one; a refusal is the code of its
    [*InvalidDepartmentError]. *)
Definition NewRigTarget {E S} (MaxIDBytes : nat) (rig : option (Rig E S)) (compatibility : string) (capabilities : Capabilities) :
    DefinitionErrorCode + rigTarget E S :=
  match rig with
  | None => inl DefinitionErrorCodeNoTarget
  | Some rig =>
      match CompatibilityID_Validate MaxIDBytes compatibility with
      | Some _ => inl DefinitionErrorCodeInvalidCompatibilityID
      | None =>
          match Capabilities_Validate capabilities with
          | Some code => inl code
          | None => inr (mkRigTarget rig compatibility capabilities)
          end
      end
  end.

Section target.
Context {E : Type → Type} {S : Type}.

(** [releaseRefused]. *)
Definition releaseRefused (R : Rig E S) (s : S) : prog E (option error) :=
  if negb (is_Releaser (view R s)) then Ret (Some (EForeign "no Releaser"))
  else
    let! err := ReleaseResidency R s in
    Ret ((fun e => ETyped TWrapError (Some e)) <$> err).

(** [requireRigIdentity], of a session or a nil one. *)
Definition requireRigIdentity (R : Rig E S) (want : Z) (session : option S) : prog E (option error) :=
  match session with
  | None => Ret None
  | Some s =>
      if (want =? 0)%Z then Ret None
      else if (ID (view R s) =? want)%Z then Ret None
      else let! err := releaseRefused R s in Ret (errors_join [Some ErrRigSessionIdentity; err])
  end.

(** An optional capability, unless the session says it is not available. *)
Definition available (implements : bool) (reported : option bool) : bool := implements && default true reported.

Definition lacks (name : string) (present : bool) : list string := if present then [] else [name].

(** What a session lacks, in the order it is asked. *)
Definition missing (v : RigSession) (declared : Recovery) : list string :=
  lacks "IdleWaiter" (is_IdleWaiter v) ++ lacks "Liveness" (is_Liveness v) ++ lacks "Releaser" (is_Releaser v) ++
  lacks "PublicationSubscriber" (is_PublicationSubscriber v) ++ lacks "CommandApplier" (is_CommandApplier v) ++
  lacks "LeaseEpochReporter" (is_LeaseEpochReporter v) ++
  lacks "declared AttemptCloser absent" (negb (AttemptCloser declared) || available (is_AttemptCloser v) (AttemptCloserAvailable v)) ++
  lacks "declared PersistenceFaults absent" (negb (PersistenceFaults declared) || available (is_PersistenceFaults v) (PersistenceFaultsAvailable v)).

(** The type a runtime is returned as. *)
Definition wrap_live (v : RigSession) (r : rigRuntime S) : Runtime S :=
  if is_LivePublicationSubscriber v then
    if is_ReasoningPublicationSubscriber v then
      if is_LiveOptionsSubscriber v then ReasoningOptionsRigRuntime r else ReasoningRigRuntime r
    else if is_LiveOptionsSubscriber v then LiveOptionsRigRuntime r else LiveRigRuntime r
  else if is_LiveOptionsSubscriber v then OptionsRigRuntime r else RigRuntime r.

(** [adaptRigSession]. *)
Definition adaptRigSession (R : Rig E S) (sessionID agentID : string) (session : option S) (declared : Recovery) : prog E (res (Runtime S)) :=
  match session with
  | None => Ret (Err (RigLaunchError ErrNoRigSession))
  | Some s =>
      let v := view R s in
      match missing v declared with
      | [] =>
          Ret (Ok (wrap_live v (mkRuntime sessionID agentID (ID v) s
            (if available (is_AttemptCloser v) (AttemptCloserAvailable v) then Some s else None)
            (if available (is_PersistenceFaults v) (PersistenceFaultsAvailable v) then Some s else None))))
      | lacking =>
          let refusal := IncapableRuntimeError lacking in
          let! err := releaseRefused R s in
          Ret (Err match err with Some e => EJoin [refusal; e] | None => refusal end)
      end
  end.

(** What [Create] and [Restore] make of their rig's answer. *)
Definition adapt_launched (t : rigTarget E S) (sessionID agentID : string) (want : Z) (launched : res (option S)) : prog E (res (Runtime S)) :=
  match launched with
  | Err err => Ret (Err (RigLaunchError err))
  | Ok session =>
      let! err := requireRigIdentity (launching t) want session in
      match err with
      | Some err => Ret (Err (RigLaunchError err))
      | None => adaptRigSession (launching t) sessionID agentID session (Recov (capabilities t))
      end
  end.

(** [rigTarget.Create]. *)
Definition Create (t : rigTarget E S) (request : CreateRequest) : prog E (res (Runtime S)) :=
  let! launched := NewSession (launching t) request in
  adapt_launched t (SessionID request) (AgentID request) (RigSessionID request) launched.

(** [rigTarget.Restore]. *)
Definition Restore (t : rigTarget E S) (request : RestoreRequest) : prog E (res (Runtime S)) :=
  let q := launch request in
  if bool_decide (CompatibilityID request ≠ compatibility t) then Ret (Err (ETyped TCompatibilityMismatchError None))
  else
    let! launched := RestoreSession (launching t) (RigSessionID q)
      (mkRigRestore (TenantID q) (SessionID q) (AgentID q) (Placement q) (WorkspaceRoot q) (Storage q)) in
    adapt_launched t (SessionID q) (AgentID q) (RigSessionID q) launched.

(** ** The adapted runtime's own methods *)

Definition runtime_CloseAttempt (R : Rig E S) (r : rigRuntime S) (closing : Closing) : prog E (option error) :=
  match closer r with None => Ret (Some ErrNoAttemptCloser) | Some s => CloseAttempt R s closing end.
Definition runtime_AbandonResidency (R : Rig E S) (r : rigRuntime S) : prog E (option error) :=
  match faults r with None => Ret (Some ErrNoPersistenceFaults) | Some s => AbandonResidency R s end.
Definition runtime_PersistenceFault (R : Rig E S) (r : rigRuntime S) : prog E (option error) :=
  match faults r with None => Ret None | Some s => PersistenceFault R s end.
Definition runtime_AttemptCloserAvailable (r : rigRuntime S) : bool := bool_decide (closer r ≠ None).
Definition runtime_PersistenceFaultsAvailable (r : rigRuntime S) : bool := bool_decide (faults r ≠ None).

(** ** What a rig promises

    [launches] and [gives] name the sessions an observation launched and gave back.  A
    rig that answers a session launched it and gave nothing back; one that answers none
    gave back whatever it launched. *)
Class RigLaws (R : Rig E S) {C : Type} (launches gives : obs E → option C) (owner : S → C) := {
  new_session_law q t r : runs (NewSession R q) t r →
    match r with
    | Ok (Some s) => omap launches t = [owner s] ∧ omap gives t = []
    | _ => ∀ c, c ∈ omap launches t → c ∈ omap gives t
    end;
  restore_session_law id q t r : runs (RestoreSession R id q) t r →
    match r with
    | Ok (Some s) => omap launches t = [owner s] ∧ omap gives t = []
    | _ => ∀ c, c ∈ omap launches t → c ∈ omap gives t
    end;
  release_law s t r : runs (ReleaseResidency R s) t r → omap launches t = [] ∧ owner s ∈ omap gives t
}.
End target.

(** ** What a target answers *)

Section launched.
Context {E : Type → Type} {S : Type} (R : Rig E S) {C : Type} (launches gives : obs E → option C) (owner : S → C).
Context `{Hlaws : !RigLaws R launches gives owner}.

(** A session that could not be given back by its own interfaces. *)
Definition ungivable (c : C) : Prop := ∃ s, owner s = c ∧ is_Releaser (view R s) = false.

Lemma releaseRefused_runs s t err :
  runs (releaseRefused R s) t err → omap launches t = [] ∧ (owner s ∈ omap gives t ∨ ungivable (owner s)).
Proof.
  unfold releaseRefused. destruct (is_Releaser (view R s)) eqn:Hr; simpl.
  - intros (t1 & t2 & e & -> & H1 & [-> _])%runs_bind. rewrite app_nil_r. apply release_law in H1 as [H1 H2]. by split; [|left].
  - intros [-> _]. split; [done|]. right. by exists s.
Qed.

Lemma requireRigIdentity_runs want s t err :
  runs (requireRigIdentity R want (Some s)) t err →
  (err = None ∧ t = [] ∧ (want = 0%Z ∨ ID (view R s) = want)) ∨
  (is_Some err ∧ omap launches t = [] ∧ (owner s ∈ omap gives t ∨ ungivable (owner s))).
Proof.
  simpl. destruct (Z.eqb_spec want 0); [intros [-> ->]; left; auto|]. destruct (Z.eqb_spec (ID (view R s)) want); [intros [-> ->]; left; auto|].
  intros (t1 & t2 & e & -> & H1 & [-> ->])%runs_bind. right. rewrite app_nil_r. apply releaseRefused_runs in H1 as [? ?].
  by destruct e.
Qed.

Lemma missing_nil v declared :
  missing v declared = [] →
  Forall (fun b => b = true) [is_IdleWaiter v; is_Liveness v; is_Releaser v; is_PublicationSubscriber v; is_CommandApplier v; is_LeaseEpochReporter v] ∧
  (AttemptCloser declared = true → available (is_AttemptCloser v) (AttemptCloserAvailable v) = true) ∧
  (PersistenceFaults declared = true → available (is_PersistenceFaults v) (PersistenceFaultsAvailable v) = true).
Proof.
  unfold missing, lacks. intros H. repeat (apply app_eq_nil in H as [?H H]). repeat case_match; simplify_eq.
  split; [by repeat constructor|]. by split; intros Hd; rewrite Hd in *.
Qed.

(** The runtime a session is adapted to is that session's, complete. *)
Record adapted (sessionID agentID : string) (declared : Recovery) (s : S) (rt : Runtime S) : Prop := {
  ad_session : session (base rt) = s ∧ r_sessionID (base rt) = sessionID ∧ r_agentID (base rt) = agentID ∧ r_rigID (base rt) = ID (view R s);
  ad_capable : let v := view R s in
    Forall (fun b => b = true) [is_IdleWaiter v; is_Liveness v; is_Releaser v; is_PublicationSubscriber v; is_CommandApplier v; is_LeaseEpochReporter v];
  ad_closer : closer (base rt) = (if available (is_AttemptCloser (view R s)) (AttemptCloserAvailable (view R s)) then Some s else None) ∧
    (AttemptCloser declared = true → closer (base rt) = Some s);
  ad_faults : faults (base rt) = (if available (is_PersistenceFaults (view R s)) (PersistenceFaultsAvailable (view R s)) then Some s else None) ∧
    (PersistenceFaults declared = true → faults (base rt) = Some s);
  ad_live : offers_live rt = is_LivePublicationSubscriber (view R s) ∧
    offers_reasoning rt = is_LivePublicationSubscriber (view R s) && is_ReasoningPublicationSubscriber (view R s) ∧
    offers_options rt = is_LiveOptionsSubscriber (view R s)
}.

Lemma adaptRigSession_runs sessionID agentID s declared t r :
  runs (adaptRigSession R sessionID agentID (Some s) declared) t r →
  match r with
  | Ok rt => t = [] ∧ adapted sessionID agentID declared s rt
  | Err _ => omap launches t = [] ∧ (owner s ∈ omap gives t ∨ ungivable (owner s))
  end.
Proof.
  unfold adaptRigSession. destruct (missing (view R s) declared) as [|m l] eqn:Hm.
  - intros [-> ->]. split; [done|]. apply missing_nil in Hm as (H1 & H2 & H3). set (r := mkRuntime _ _ _ _ _ _).
    assert (base (wrap_live (view R s) r) = r) as Hb by (unfold wrap_live; by repeat case_match).
    split; rewrite ?Hb; try done; [| |unfold wrap_live; repeat case_match; done].
    + split; [done|]. intros Hd. simpl. by rewrite (H2 Hd).
    + split; [done|]. intros Hd. simpl. by rewrite (H3 Hd).
  - intros (t1 & t2 & e & -> & H1 & [-> ->])%runs_bind. rewrite app_nil_r. by eapply releaseRefused_runs.
Qed.

Lemma adapt_launched_runs (T : rigTarget E S) sessionID agentID want launched t1 t2 r :
  launching T = R →
  match launched with
  | Ok (Some s) => omap launches t1 = [owner s] ∧ omap gives t1 = []
  | _ => ∀ c, c ∈ omap launches t1 → c ∈ omap gives t1
  end →
  runs (adapt_launched T sessionID agentID want launched) t2 r →
  match r with
  | Ok rt => ∃ s, omap launches (t1 ++ t2) = [owner s] ∧ omap gives (t1 ++ t2) = [] ∧ (want = 0%Z ∨ ID (view R s) = want) ∧
      adapted sessionID agentID (Recov (capabilities T)) s rt
  | Err _ => ∀ c, c ∈ omap launches (t1 ++ t2) → c ∈ omap gives (t1 ++ t2) ∨ ungivable c
  end.
Proof.
  intros HT H1. unfold adapt_launched. destruct launched as [[s|]|err].
  - destruct H1 as [L1 G1]. intros (t3 & t4 & err & -> & H2 & H3)%runs_bind. rewrite HT in *.
    apply requireRigIdentity_runs in H2 as [(-> & -> & Hid)|((e & ->) & L2 & G2)].
    + apply adaptRigSession_runs in H3. rewrite !omap_app, L1, G1. destruct r as [rt|err]; simpl.
      * destruct H3 as [-> H3]. exists s. done.
      * destruct H3 as [-> H3]. intros c Hc. rewrite ?app_nil_r in Hc. apply list_elem_of_singleton in Hc as ->. done.
    + destruct H3 as [-> ->]. rewrite !omap_app, L1, G1, L2. simpl. rewrite !app_nil_r. intros c ->%list_elem_of_singleton. done.
  - intros (t3 & t4 & err & -> & [-> ->] & H3)%runs_bind. destruct H3 as [-> ->]. simpl. rewrite !app_nil_r. auto.
  - intros [-> ->]. rewrite !app_nil_r. auto.
Qed.

Lemma Create_runs (T : rigTarget E S) request t r :
  launching T = R → runs (Create T request) t r →
  match r with
  | Ok rt => ∃ s, omap launches t = [owner s] ∧ omap gives t = [] ∧ (RigSessionID request = 0%Z ∨ ID (view R s) = RigSessionID request) ∧
      adapted (SessionID request) (AgentID request) (Recov (capabilities T)) s rt
  | Err _ => ∀ c, c ∈ omap launches t → c ∈ omap gives t ∨ ungivable c
  end.
Proof.
  intros HT (t1 & t2 & launched & -> & H1 & H2)%runs_bind. rewrite HT in H1. apply new_session_law in H1. by eapply adapt_launched_runs.
Qed.

Lemma Restore_runs (T : rigTarget E S) request t r :
  launching T = R → runs (Restore T request) t r →
  match r with
  | Ok rt => ∃ s, omap launches t = [owner s] ∧ omap gives t = [] ∧
      (RigSessionID (launch request) = 0%Z ∨ ID (view R s) = RigSessionID (launch request)) ∧
      adapted (SessionID (launch request)) (AgentID (launch request)) (Recov (capabilities T)) s rt
  | Err _ => ∀ c, c ∈ omap launches t → c ∈ omap gives t ∨ ungivable c
  end.
Proof.
  unfold Restore. case_bool_decide; [intros _ [-> ->]; simpl; by intros ? ?%elem_of_nil|].
  intros HT (t1 & t2 & launched & -> & H1 & H2)%runs_bind. rewrite HT in H1. apply restore_session_law in H1. by eapply adapt_launched_runs.
Qed.
End launched.
End RigTarget.
