(* ===== verification/HarnessSession.v ===== *)
(** * HarnessSession.v: a bound harness session's commands and teardown

    [harnessruntime/session.go], apart from its two streams ([Egress.v]), and
    [createbody.FirstMessage].  Harness's controller and applier are interfaces, so
    each of their calls is an effect; Core's decoders, harness's validation and the
    block decoder a rig is bound with are arguments.                             *)
From Stdlib Require Import ZArith.
From stdpp Require Import base list strings gmap.
From S2P Require Import Prelude Wire Errors Effects Commands Disposition RigTarget.

Module HarnessSession.
Import Commands.
Local Open Scope prog_scope.

(** ** Harness's interfaces *)

(** A controller, by the capabilities it implements. *)
Record Controller := mkController {
  c_name : nat; c_SessionID : Z;
  is_IdleWaiter : bool; is_Liveness : bool; is_Releaser : bool; is_LeaseEpochReporter : bool;
  is_PersistenceFaultReporter : bool; is_ResidencyAbandoner : bool; is_CommittedPublicEventProvider : bool;
  is_Provider : bool
}.
#[export] Instance Controller_eq_dec : EqDecision Controller.
Proof. solve_decision. Defined.

Record Applier := mkApplier { a_name : nat; is_AttemptCloser : bool }.

(** [gate.GateResponse]; its source is always the user. *)
Record GateResponse := mkResponse { gr_GateID : string; gr_Action : string; gr_Values : string }.

(** [runtimecommand.Admitted]. *)
Record AdmittedCommand := mkAdmitted {
  ad_CommandID : string; ad_RuntimeCommandID : Z; ad_Kind : Kind; ad_LeaseEpoch : Z; ad_AttemptID : string;
  ad_Principal : option string; ad_Metadata : string; ad_GateResponse : option GateResponse; ad_Blocks : list string
}.

(** [runtimecommand.Closure]. *)
Abbreviation Closure := RigTarget.Closing.

(** What is asked of harness.  [joined] tells a teardown call's fresh context from its
    caller's. *)
Inductive HE : Type → Type :=
| HReleaseResidency (c : Controller) (joined : bool) : HE (option error)
| HAbandonResidency (c : Controller) (joined : bool) : HE (option error)
| HDone (c : Controller) : HE bool
| HLeaseEpoch (c : Controller) : HE (Z * bool)
| HRuntimeCommands (c : Controller) : HE (option Applier * bool)
| HApplyRuntimeCommand (a : Applier) (command : AdmittedCommand) : HE (Z * option error)
| HCloseAttempt (a : Applier) (closure : Closure) : HE (option error)
| HCommittedPublicEvents (c : Controller) : HE (bool * bool)
| HPersistenceFaulted (c : Controller) : HE bool
| HPersistenceFault (c : Controller) : HE (option error)
| HRigForCreate (request : RigTarget.CreateRequest) : HE (res (option nat))
| HRigForRestore (id : Z) (request : RigTarget.RigRestoreRequest) : HE (res (option nat))
| HNewSession (launcher : nat) (id : option Z) : HE (res (option Controller))
| HRestoreSession (launcher : nat) (id : Z) : HE (res (option Controller)).

Abbreviation H := (prog HE).

(** [BlockDecoder]. *)
Abbreviation BlockDecoder := (string → res (list string)).

(** [boundSession]: an interface field is set or nil. *)
Record boundSession := mkBound {
  controller : Controller;
  idle : bool; live : bool; releaser : bool; committed : bool; leaseEpoch : bool; faults : bool; abandoner : bool;
  tenant : string; session : string; decode : option BlockDecoder;
  closerAvailable : bool; faultsAvailable : bool
}.

(** ** Teardown *)

Definition named (name : string) (e : error) : bool :=
  bool_decide (is_Some (errors_as (fun t => match t with TOtherError n => if decide (n = name) then Some tt else None | _ => None end) e)).

Definition is_context_error (e : error) : bool := errors_is e context_Canceled || errors_is e context_DeadlineExceeded.

(** [teardownOutcome], of a teardown call by whether its context is a fresh one. *)
Definition teardownOutcome (c : Controller) (teardown : bool → H (option error)) : H (option error) :=
  let! err := teardown false in
  match err with
  | None => Ret None
  | Some e =>
      if negb (is_context_error e) then Ret err
      else
        let! done := call (HDone c) in
        if done : bool then teardown true else Ret err
  end.

Definition ErrResidencyStillHeld : error := ESentinel "department.ErrResidencyStillHeld".

(** [classifyLeaseRelease]. *)
Definition classifyLeaseRelease (err : option error) : option error :=
  match err with
  | Some e => if named "session.LeaseReleaseError" e then Some (EJoin [ErrResidencyStillHeld; e]) else err
  | None => None
  end.

(** [ReleaseResidency] and [AbandonResidency]. *)
Definition ReleaseResidency (s : boundSession) : H (option error) :=
  let! err := teardownOutcome (controller s) (fun joined => call (HReleaseResidency (controller s) joined)) in
  Ret (classifyLeaseRelease err).
Definition AbandonResidency (s : boundSession) : H (option error) :=
  let! err := teardownOutcome (controller s) (fun joined => call (HAbandonResidency (controller s) joined)) in
  Ret (classifyLeaseRelease err).

(** ** Commands *)

Definition UnsupportedCommandError (command : string) : error := ETyped (TUnsupportedCommandError command) None.

(** The applier of a controller, or the refusal of a command without one. *)
Definition applier_of (c : Controller) (command : string) : H (res Applier) :=
  if negb (is_Provider c) then Ret (Err (UnsupportedCommandError command))
  else
    let! answer := call (HRuntimeCommands c) in
    Ret match answer with
        | (Some applier, true) => Ok applier
        | _ => Err (UnsupportedCommandError command)
        end.

(** [classifyDispatch]; a disposition is its prefix sequence. *)
Definition classifyDispatch (PrefixSequence : Z) (err : error) : error :=
  if named "runtimecommand.DispositionUnsupportedError" err then EJoin [Disposition.ErrDispositionUnsupported; err]
  else if negb (PrefixSequence =? 0)%Z then EJoin [Disposition.ErrPrefixCommitted; err]
  else err.

(** [classifyClosure]. *)
Definition classifyClosure (err : error) : error :=
  if named "runtimecommand.EnduringEffectError" err then EJoin [Disposition.ErrEnduringEffect; err] else err.

(** A decoded create, with the members its first message is made of. *)
Record CreateBody := mkCreateBody { cb_request : Request; cb_envelope : string; cb_blocks : string }.

Section commands.
(** [json.Unmarshal] of a create and a gate response, [json.Marshal] of an input request,
    [GateResponseRequest.Validate], the gate's UUID, and harness's [Kind.Valid],
    [Admitted.Validate] and [Closure.Validate]. *)
Context (decodeCreate : string → res CreateBody) (marshalInput : CreateBody → res string)
        (decodeGateResponse : string → res GateResponseRequest) (validateGateResponse : GateResponseRequest → option error) (gate_uuid : string → bool)
        (Kind_Valid : Kind → bool) (Admitted_Validate : AdmittedCommand → option error) (Closure_Validate : Closure → option error).

(** [createbody.decodeCreate] and [FirstMessage]; no message is the empty body. *)
Definition createbody_decodeCreate (body : string) : res CreateBody :=
  if empty body then Err (MalformedError PkgCreateBody (ErrEmptyBody PkgCreateBody))
  else match decodeCreate body with Err err => Err (classify PkgCreateBody err) | Ok request => Ok request end.

Definition FirstMessage (body : string) : res string :=
  match createbody_decodeCreate body with
  | Err err => Err err
  | Ok request =>
      if empty (cb_blocks request) then Ok ""
      else match marshalInput request with
           | Err err => Err (MalformedError PkgCreateBody err)
           | Ok presented => Ok presented
           end
  end.

(** The block decoder's turn. *)
Definition decode_blocks (s : boundSession) (command : RuntimeCommand) (body : string) : res (list string) :=
  match decode s with None => Err (UnsupportedCommandError (rc_CommandID command)) | Some decode => decode body end.

(** The blocks a command's payload carries. *)
Definition blocks_of (s : boundSession) (command : RuntimeCommand) : res (list string) :=
  if bool_decide (rc_Kind command = KindCreate) then
    match FirstMessage (rc_Payload command) with
    | Err err => Err err
    | Ok body => if empty body then Ok [] else decode_blocks s command body
    end
  else if bool_decide (rc_Kind command = KindInput) then decode_blocks s command (rc_Payload command)
  else Ok [].

(** The gate answer a command's payload carries. *)
Definition gate_response_of (s : boundSession) (command : RuntimeCommand) : res (option GateResponse) :=
  if bool_decide (rc_Kind command = KindGateResponse) then
    match gateresponse_Decode decodeGateResponse validateGateResponse gate_uuid (rc_Payload command) (session s) (rc_CommandID command) with
    | Err err => Err err
    | Ok response => Ok (Some (mkResponse (g_GateID response) (g_Action response) (g_Values response)))
    end
  else Ok None.

(** [admit]. *)
Definition admit_ (s : boundSession) (command : RuntimeCommand) : H (res AdmittedCommand) :=
  let unsupported := Ret (Err (UnsupportedCommandError (rc_CommandID command))) in
  let! answer := call (HLeaseEpoch (controller s)) in
  let '(epoch, held) := answer in
  if negb held then unsupported
  else if bool_decide (rc_PayloadRef command ≠ no_ref) then unsupported
  else if negb (Kind_Valid (rc_Kind command)) then unsupported
  else
    Ret match gate_response_of s command with
        | Err err => Err err
        | Ok response =>
            match blocks_of s command with
            | Err err => Err err
            | Ok blocks =>
                let admitted := mkAdmitted (rc_CommandID command) (rc_RuntimeCommandID command) (rc_Kind command) epoch
                  (rc_AttemptID command) (rc_Principal command)
                  (if bool_decide (rc_Kind command = KindCreate) || bool_decide (rc_Kind command = KindInput) then rc_Metadata command else "")
                  response blocks in
                match Admitted_Validate admitted with Some err => Err err | None => Ok admitted end
            end
        end.

(** [ApplyCommand]. *)
Definition ApplyCommand (s : boundSession) (command : RuntimeCommand) : H (option error) :=
  let! applier := applier_of (controller s) (rc_CommandID command) in
  match applier with
  | Err err => Ret (Some err)
  | Ok applier =>
      let! admitted := admit_ s command in
      match admitted with
      | Err err => Ret (Some err)
      | Ok admitted =>
          let! answer := call (HApplyRuntimeCommand applier admitted) in
          Ret match answer.2 with Some err => Some (classifyDispatch answer.1 err) | None => None end
      end
  end.

(** [CloseAttempt]. *)
Definition CloseAttempt (s : boundSession) (closure : Closure) : H (option error) :=
  let! applier := applier_of (controller s) (RigTarget.cl_command closure) in
  match applier with
  | Err err => Ret (Some err)
  | Ok applier =>
      if negb (is_AttemptCloser applier) then Ret (Some (UnsupportedCommandError (RigTarget.cl_command closure)))
      else match Closure_Validate closure with
           | Some err => Ret (Some err)
           | None =>
               let! err := call (HCloseAttempt applier closure) in
               Ret (classifyClosure <$> err)
           end
  end.
End commands.

(** ** What a teardown reports *)

(** The answers of the teardown calls of a trace, with whether each was a joining one. *)
Definition teardowns (t : list (obs HE)) : list (bool * option error) :=
  omap (fun o => match o with
    | Obs e x => match e in HE X return X → option (bool * option error) with
        | HReleaseResidency _ joined | HAbandonResidency _ joined => fun err => Some (joined, err)
        | _ => fun _ => None
        end x
    end) t.

Definition liveness (t : list (obs HE)) : list bool :=
  omap (fun o => match o with
    | Obs e x => match e in HE X return X → option bool with HDone _ => fun done => Some done | _ => fun _ => None end x
    end) t.

(** A runtime's error that is none of the department's own. *)
Definition foreign_error (e : error) : Prop := errors_is e ErrResidencyStillHeld = false.

(** The report [r] of a teardown with a trace [t]. *)
Definition reports_teardown (t : list (obs HE)) (r : option error) : Prop :=
  ∃ err, (teardowns t = [(false, err)] ∧ (∀ e, err = Some e → is_context_error e = true → liveness t = [false]) ∨
          ∃ e, teardowns t = [(false, Some e); (true, err)] ∧ is_context_error e = true ∧ liveness t = [true]) ∧
  (r = None ↔ err = None) ∧
  (∀ e e', err = Some e → r = Some e' → foreign_error e → errors_is e' ErrResidencyStillHeld = named "session.LeaseReleaseError" e).

Lemma classifyLeaseRelease_spec err :
  (classifyLeaseRelease err = None ↔ err = None) ∧
  (∀ e e', err = Some e → classifyLeaseRelease err = Some e' → foreign_error e →
     errors_is e' ErrResidencyStillHeld = named "session.LeaseReleaseError" e).
Proof.
  destruct err as [e|]; simpl; [|done]. unfold foreign_error. destruct (named _ e) eqn:Hn; (split; [done|]); intros ? ? [= <-] [= <-] Hf.
  - by rewrite Hn.
  - by rewrite Hf, Hn.
Qed.

Lemma teardownOutcome_spec c (e : bool → HE (option error)) t err :
  (∀ joined x, teardowns [Obs (e joined) x] = [(joined, x)] ∧ liveness [Obs (e joined) x] = []) →
  runs (teardownOutcome c (fun joined => call (e joined))) t err →
  (teardowns t = [(false, err)] ∧ (∀ e, err = Some e → is_context_error e = true → liveness t = [false]) ∨
   ∃ e, teardowns t = [(false, Some e); (true, err)] ∧ is_context_error e = true ∧ liveness t = [true]).
Proof.
  intros He (x1 & t1 & -> & H)%runs_call. destruct (He false x1) as [E1 E2].
  assert (∀ t, teardowns (Obs (e false) x1 :: t) = (false, x1) :: teardowns t ∧ liveness (Obs (e false) x1 :: t) = liveness t) as Hc.
  { intros t. unfold teardowns, liveness in *. simpl in *. repeat case_match; simplify_eq; done. }
  destruct (Hc t1) as [-> ->]. destruct x1 as [e1|]; [|destruct H as [-> ->]; by left].
  destruct (is_context_error e1) eqn:Hctx; cbn [negb] in H.
  - apply runs_call in H as (done & t2 & -> & H). destruct done.
    + destruct H as (x2 & t3 & -> & -> & ->). right. exists e1. destruct (He true x2) as [E3 E4].
      unfold teardowns, liveness in *. simpl in *. by rewrite E3, E4.
    + destruct H as [-> ->]. left. split; [done|]. by intros.
  - destruct H as [-> ->]. left. split; [done|]. intros e' [= <-]. congruence.
Qed.

Lemma runs_classified {A B} (p : H A) (f : A → B) t b : runs (let! a := p in Ret (f a)) t b → ∃ a, runs p t a ∧ b = f a.
Proof. intros (t1 & t2 & a & -> & H1 & [-> ->])%runs_bind. rewrite app_nil_r. eauto. Qed.

(** A release and an abandonment report the teardown's own outcome.  The runtime is
    asked once, and a second time only to join a teardown that outlived its caller's
    context; the report is nil exactly when the last answer is, and it says that the
    residency is still held exactly when the runtime could not give its lease back. *)
Theorem teardown_reports s t r :
  runs (ReleaseResidency s) t r ∨ runs (AbandonResidency s) t r → reports_teardown t r.
Proof.
  intros [Hr|Hr]; destruct (runs_classified _ _ _ _ Hr) as (err & Ho & ->); exists err; (split; [|apply classifyLeaseRelease_spec]).
  - by eapply (teardownOutcome_spec _ (HReleaseResidency (controller s))).
  - by eapply (teardownOutcome_spec _ (HAbandonResidency (controller s))).
Qed.

(** ** What an application reports *)

(** The applications of a trace, with harness's answers, and the closures. *)
Definition applications (t : list (obs HE)) : list (AdmittedCommand * Z * option error) :=
  omap (fun o => match o with
    | Obs e x => match e in HE X return X → option (AdmittedCommand * Z * option error) with
        | HApplyRuntimeCommand _ admitted => fun answer => Some (admitted, answer.1, answer.2)
        | _ => fun _ => None
        end x
    end) t.
Definition closures (t : list (obs HE)) : list (Closure * option error) :=
  omap (fun o => match o with
    | Obs e x => match e in HE X return X → option (Closure * option error) with
        | HCloseAttempt _ closure => fun err => Some (closure, err)
        | _ => fun _ => None
        end x
    end) t.
(** The answers to the question for an applier. *)
Definition appliers (t : list (obs HE)) : list (option Applier * bool) :=
  omap (fun o => match o with
    | Obs e x => match e in HE X return X → option (option Applier * bool) with HRuntimeCommands _ => fun answer => Some answer | _ => fun _ => None end x
    end) t.
Definition epochs (t : list (obs HE)) : list (Z * bool) :=
  omap (fun o => match o with
    | Obs e x => match e in HE X return X → option (Z * bool) with HLeaseEpoch _ => fun answer => Some answer | _ => fun _ => None end x
    end) t.

(** An error that carries none of the department's three marks. *)
Definition unmarked (e : error) : Prop :=
  errors_is e Disposition.ErrDispositionUnsupported = false ∧ errors_is e Disposition.ErrPrefixCommitted = false ∧
  errors_is e Disposition.ErrEnduringEffect = false.

Section reports.
Context (decodeCreate : string → res CreateBody) (marshalInput : CreateBody → res string)
        (decodeGateResponse : string → res GateResponseRequest) (validateGateResponse : GateResponseRequest → option error) (gate_uuid : string → bool)
        (Kind_Valid : Kind → bool) (Admitted_Validate : AdmittedCommand → option error) (Closure_Validate : Closure → option error).
(** The decoders' and validators' errors are their own. *)
Context (HdecodeCreate : ∀ b e, decodeCreate b = Err e → unmarked e) (Hmarshal : ∀ b e, marshalInput b = Err e → unmarked e)
        (HdecodeGate : ∀ b e, decodeGateResponse b = Err e → unmarked e) (HvalidateGate : ∀ g e, validateGateResponse g = Some e → unmarked e)
        (HAdmitted : ∀ a e, Admitted_Validate a = Some e → unmarked e) (HClosure : ∀ c e, Closure_Validate c = Some e → unmarked e).

Abbreviation apply_command := (ApplyCommand decodeCreate marshalInput decodeGateResponse validateGateResponse gate_uuid Kind_Valid Admitted_Validate).
Abbreviation admit_command := (admit_ decodeCreate marshalInput decodeGateResponse validateGateResponse gate_uuid Kind_Valid Admitted_Validate).

(** The gate answer a command carries: none but of a gate response, whose body is of
    this session and this command and is valid. *)
Inductive answers (s : boundSession) (command : RuntimeCommand) : option GateResponse → Prop :=
| answers_none : rc_Kind command ≠ KindGateResponse → answers s command None
| answers_gate request :
    rc_Kind command = KindGateResponse → empty (rc_Payload command) = false →
    decodeGateResponse (rc_Payload command) = Ok request → validateGateResponse request = None →
    g_SessionID request = session s → g_CommandID request = rc_CommandID command → gate_uuid (g_GateID request) = true →
    answers s command (Some (mkResponse (g_GateID request) (g_Action request) (g_Values request))).

(** The blocks a command carries: an input's, the first message's of a create that has
    one, and none otherwise. *)
Inductive carries (s : boundSession) (command : RuntimeCommand) : list string → Prop :=
| carries_input decode_ blocks :
    rc_Kind command = KindInput → decode s = Some decode_ → decode_ (rc_Payload command) = Ok blocks → carries s command blocks
| carries_message request body decode_ blocks :
    rc_Kind command = KindCreate → empty (rc_Payload command) = false → decodeCreate (rc_Payload command) = Ok request →
    empty (cb_blocks request) = false → marshalInput request = Ok body → empty body = false →
    decode s = Some decode_ → decode_ body = Ok blocks → carries s command blocks
| carries_no_message request :
    rc_Kind command = KindCreate → empty (rc_Payload command) = false → decodeCreate (rc_Payload command) = Ok request →
    (empty (cb_blocks request) = true ∨ empty (cb_blocks request) = false ∧ ∃ body, marshalInput request = Ok body ∧ empty body = true) →
    carries s command []
| carries_nothing : rc_Kind command ≠ KindCreate → rc_Kind command ≠ KindInput → carries s command [].

(** What harness is asked to apply is the command the Host admitted: its identities,
    kind, attempt and members are the command's; its epoch is the one the runtime says
    it holds; its gate answer and its blocks are exactly the ones its payload carries;
    and harness's own validation accepts it. *)
Record admitted_of (s : boundSession) (command : RuntimeCommand) (t : list (obs HE)) (admitted : AdmittedCommand) : Prop := {
  ao_identity : ad_CommandID admitted = rc_CommandID command ∧ ad_RuntimeCommandID admitted = rc_RuntimeCommandID command ∧
    ad_Kind admitted = rc_Kind command ∧ ad_AttemptID admitted = rc_AttemptID command ∧ ad_Principal admitted = rc_Principal command;
  ao_epoch : epochs t = [(ad_LeaseEpoch admitted, true)];
  ao_metadata : (rc_Kind command = KindCreate ∨ rc_Kind command = KindInput → ad_Metadata admitted = rc_Metadata command) ∧
    (rc_Kind command ≠ KindCreate ∧ rc_Kind command ≠ KindInput → ad_Metadata admitted = "");
  ao_payload : rc_PayloadRef command = no_ref;
  ao_gate : answers s command (ad_GateResponse admitted);
  ao_blocks : carries s command (ad_Blocks admitted);
  ao_valid : Kind_Valid (rc_Kind command) = true ∧ Admitted_Validate admitted = None
}.

Lemma classify_unmarked pkg e : unmarked e → unmarked (classify pkg e).
Proof. unfold classify. by destruct (Permanent e). Qed.

Abbreviation gate_answer := (gate_response_of decodeGateResponse validateGateResponse gate_uuid).
Abbreviation blocks_in := (blocks_of decodeCreate marshalInput).

Lemma gate_response_exact s command response : gate_answer s command = Ok response ↔ answers s command response.
Proof.
  unfold gate_response_of, gateresponse_Decode. split.
  - case_bool_decide as Hk; [|intros [= <-]; by constructor].
    destruct (empty _) eqn:He; [done|]. destruct (decodeGateResponse _) as [request|e] eqn:Hd; [|done].
    destruct (validateGateResponse request) as [e|] eqn:Hv; [done|].
    do 2 (case_bool_decide; [done|]). simpl. destruct (gate_uuid (g_GateID request)) eqn:Hg; simpl; [|done]. intros [= <-].
    constructor; try done; by apply dec_stable.
  - intros [Hk|request Hk He Hd Hv Hs Hc Hg]; [by rewrite bool_decide_false|].
    rewrite bool_decide_true, He, Hd, Hv by done. rewrite (bool_decide_false (g_SessionID _ ≠ _)) by congruence.
    rewrite (bool_decide_false (g_CommandID _ ≠ _)) by congruence. simpl. by rewrite Hg.
Qed.

Lemma gate_response_unmarked s command e : gate_answer s command = Err e → unmarked e.
Proof.
  unfold gate_response_of. case_bool_decide as Hk; [|done]. unfold gateresponse_Decode.
  destruct (empty _); [by intros [= <-]|]. destruct (decodeGateResponse _) as [request|e'] eqn:Hd; [|intros [= <-]; by eapply classify_unmarked, HdecodeGate].
  destruct (validateGateResponse request) as [e'|] eqn:Hv; [intros [= <-]; exact (HvalidateGate _ _ Hv)|].
  do 2 (case_bool_decide; [by intros [= <-]|]). simpl. by destruct (gate_uuid (g_GateID request)); intros [= <-].
Qed.

Lemma decode_blocks_unmarked s command body e :
  (∀ d b e, decode s = Some d → d b = Err e → unmarked e) → decode_blocks s command body = Err e → unmarked e.
Proof. unfold decode_blocks. intros Hs. destruct (decode s) as [d|]; [by apply Hs|]. by intros [= <-]. Qed.

Lemma blocks_of_exact s command blocks : blocks_in s command = Ok blocks ↔ carries s command blocks.
Proof.
  unfold blocks_of, FirstMessage, createbody_decodeCreate, decode_blocks. split.
  - case_bool_decide as Hc.
    + destruct (empty (rc_Payload command)) eqn:Hp; [done|]. destruct (decodeCreate _) as [request|e] eqn:Hd; [|done].
      destruct (empty (cb_blocks request)) eqn:Hb; [intros [= <-]; eapply carries_no_message; eauto|].
      destruct (marshalInput request) as [body|e] eqn:Hm; [|done].
      destruct (empty body) eqn:He; [intros [= <-]; eapply carries_no_message; eauto 6|].
      destruct (decode s) as [d|] eqn:Hs; [|done]. intros Hx. by eapply carries_message.
    + case_bool_decide as Hi; [|intros [= <-]; by constructor]. destruct (decode s) as [d|] eqn:Hs; [|done].
      intros Hx. by eapply carries_input.
  - intros [d b Hk Hd Hb|request body d b Hk Hp Hd Hc Hm He Hs Hb|request Hk Hp Hd Hor|Hc Hi].
    + rewrite bool_decide_false, bool_decide_true by congruence. by rewrite Hd.
    + rewrite bool_decide_true by done. by rewrite Hp, Hd, Hc, Hm, He, Hs.
    + rewrite bool_decide_true by done. rewrite Hp, Hd. by destruct Hor as [->|[-> (body & -> & ->)]].
    + by rewrite !bool_decide_false.
Qed.

Lemma blocks_of_unmarked s command e :
  (∀ d b e, decode s = Some d → d b = Err e → unmarked e) → blocks_in s command = Err e → unmarked e.
Proof.
  intros Hs. unfold blocks_of. case_bool_decide as Hc.
  - unfold FirstMessage, createbody_decodeCreate. destruct (empty (rc_Payload command)); [by intros [= <-]|].
    destruct (decodeCreate _) as [request|e'] eqn:Hd; [|intros [= <-]; by eapply classify_unmarked, HdecodeCreate].
    destruct (empty (cb_blocks request)); [done|]. destruct (marshalInput request) as [body|e'] eqn:Hm; [|intros [= <-]; exact (Hmarshal _ _ Hm)].
    destruct (empty body); [done|]. by apply decode_blocks_unmarked.
  - case_bool_decide as Hi; [|done]. by apply decode_blocks_unmarked.
Qed.

(** Only one thing is admitted of a command under an epoch. *)
Lemma admitted_unique s command t a :
  admitted_of s command t a → ∃ response blocks, gate_answer s command = Ok response ∧ blocks_in s command = Ok blocks ∧
    a = mkAdmitted (rc_CommandID command) (rc_RuntimeCommandID command) (rc_Kind command) (ad_LeaseEpoch a)
          (rc_AttemptID command) (rc_Principal command)
          (if bool_decide (rc_Kind command = KindCreate) || bool_decide (rc_Kind command = KindInput) then rc_Metadata command else "")
          response blocks.
Proof.
  intros [(H1 & H2 & H3 & H4 & H5) _ [Hm1 Hm2] _ Hg%gate_response_exact Hb%blocks_of_exact _].
  do 2 eexists. split; [exact Hg|]. split; [exact Hb|]. destruct a; simpl in *. f_equal; try congruence.
  do 2 case_bool_decide; simpl; auto.
Qed.

Lemma admit_spec s command t r :
  (∀ d b e, decode s = Some d → d b = Err e → unmarked e) →
  runs (admit_command s command) t r →
  applications t = [] ∧ appliers t = [] ∧ length (epochs t) = 1 ∧
  match r with Ok admitted => admitted_of s command t admitted | Err e => unmarked e ∧ ∀ a, ¬ admitted_of s command t a end.
Proof.
  intros Hs ([epoch held] & t1 & -> & Hr)%runs_call.
  destruct held; cbn [negb] in Hr; [|destruct Hr as [-> ->]; split_and!; [done..|]; intros a []; simpl in *; congruence].
  destruct (decide (rc_PayloadRef command = no_ref)) as [Hp|Hp];
    [rewrite bool_decide_eq_false_2 in Hr by auto|rewrite bool_decide_eq_true_2 in Hr by done; destruct Hr as [-> ->]; split_and!; [done..|]; by intros a []].
  destruct (Kind_Valid (rc_Kind command)) eqn:Hk; cbn [negb] in Hr; [|destruct Hr as [-> ->]; split_and!; [done..|]; intros a [? ? ? ? ? ? [? ?]]; congruence].
  destruct Hr as [-> ->]. split; [done|]. split; [done|]. split; [done|].
  destruct (gate_response_of _ _ _ s command) as [response|e] eqn:Hg.
  2:{ split; [by eapply gate_response_unmarked|]. intros a (? & ? & ? & _)%admitted_unique. congruence. }
  destruct (blocks_of _ _ s command) as [blocks|e] eqn:Hb.
  2:{ split; [by eapply blocks_of_unmarked|]. intros a (? & ? & _ & ? & _)%admitted_unique. congruence. }
  destruct (Admitted_Validate _) as [e|] eqn:Hv.
  - split; [exact (HAdmitted _ _ Hv)|]. intros a Ha. pose proof Ha as [_ He _ _ _ _ [_ Hva]].
    apply admitted_unique in Ha as (response' & blocks' & Hg' & Hb' & Heq). simpl in He. simplify_eq. congruence.
  - apply gate_response_exact in Hg. apply blocks_of_exact in Hb. split; simpl; try done. split.
    + intros [->| ->]; [by rewrite bool_decide_true|]. by rewrite orb_true_r.
    + intros [H1 H2]. by rewrite !bool_decide_false.
Qed.

Lemma applier_of_spec c command t r :
  runs (applier_of c command) t r → applications t = [] ∧ closures t = [] ∧ epochs t = [] ∧
    match r with Ok applier => appliers t = [(Some applier, true)] | Err e => unmarked e ∧ ∀ a, appliers t ≠ [(Some a, true)] end.
Proof.
  unfold applier_of. destruct (is_Provider c); cbn [negb]; [|intros [-> ->]; by split_and!].
  intros (answer & t1 & -> & -> & ->)%runs_call. split_and!; [done..|]. destruct answer as [[a|] []]; simpl; [done|..]; (split; [by split_and!|]); by intros ? [=].
Qed.

Lemma classifyDispatch_spec prefix e :
  unmarked e →
  errors_is (classifyDispatch prefix e) Disposition.ErrDispositionUnsupported = named "runtimecommand.DispositionUnsupportedError" e ∧
  errors_is (classifyDispatch prefix e) Disposition.ErrPrefixCommitted =
    negb (named "runtimecommand.DispositionUnsupportedError" e) && negb (prefix =? 0)%Z.
Proof.
  intros (H1 & H2 & _). unfold classifyDispatch. unfold errors_is in *. simpl in *.
  destruct (named _ e); simpl; [by rewrite H2, orb_false_r|]. destruct (prefix =? 0)%Z; simpl; rewrite ?H1, ?H2, ?orb_false_r; done.
Qed.

(** C13 An application reports what happened to the command.  Harness is asked exactly
    when the runtime has an applier and the command can be admitted: once, for the
    command that was admitted, with the gate answer and every block its payload carries.
    When it is not asked the answer is an error that marks nothing; when it is, the
    answer is nil exactly when harness's is, it licenses a new offer exactly when
    harness refused before any durable write, and it says that a prefix is durable
    exactly when harness failed after writing one. *)
Theorem apply_reports s command t r
    (Hdecode : ∀ d b e, decode s = Some d → d b = Err e → unmarked e)
    (Hharness : Forall (fun a => ∀ e, a.2 = Some e → unmarked e) (applications t)) :
  runs (apply_command s command) t r →
  match applications t with
  | [] => (∃ e, r = Some e ∧ unmarked e) ∧
      ¬ ((∃ applier, appliers t = [(Some applier, true)]) ∧ ∃ admitted, admitted_of s command t admitted)
  | [(admitted, prefix, err)] =>
      admitted_of s command t admitted ∧ (r = None ↔ err = None) ∧
      ∀ e e', err = Some e → r = Some e' →
        errors_is e' Disposition.ErrDispositionUnsupported = named "runtimecommand.DispositionUnsupportedError" e ∧
        errors_is e' Disposition.ErrPrefixCommitted = negb (named "runtimecommand.DispositionUnsupportedError" e) && negb (prefix =? 0)%Z
  | _ => False
  end.
Proof.
  intros (t1 & t2 & applier & -> & (A1 & _ & E1 & U1)%applier_of_spec & Hr)%runs_bind.
  assert (∀ t, applications (t1 ++ t) = applications t ∧ epochs (t1 ++ t) = epochs t ∧ appliers (t1 ++ t) = appliers t1 ++ appliers t) as Happ.
  { intros t. unfold applications, epochs, appliers in *. by rewrite !omap_app, A1, E1. }
  destruct (Happ t2) as (HA & _ & HP). rewrite HA, HP in *.
  destruct applier as [applier|e]; [|destruct Hr as [-> ->]; destruct U1 as [U1 N1]; simpl; rewrite app_nil_r; split; [eauto|]; by intros [[a Ha%N1] _]].
  apply runs_bind in Hr as (t3 & t4 & admitted & -> & H3 & Hr). pose proof H3 as (A3 & P3 & _ & S3)%admit_spec; [|done].
  assert (∀ t, applications (t3 ++ t) = applications t) as Happ3 by (intros t; unfold applications in *; by rewrite omap_app, A3).
  assert (∀ t a, epochs t = [] → admitted_of s command (t1 ++ t3 ++ t) a ↔ admitted_of s command t3 a) as Hsame.
  { intros t a Ht. assert (epochs (t1 ++ t3 ++ t) = epochs t3) as He.
    { destruct (Happ (t3 ++ t)) as (_ & -> & _). unfold epochs in *. by rewrite omap_app, Ht, app_nil_r. }
    split; intros []; split; try done; congruence. }
  rewrite Happ3 in *. destruct admitted as [admitted|e].
  - destruct Hr as ([prefix err] & t5 & -> & -> & ->). simpl in *. apply Forall_cons in Hharness as [Hu _].
    split; [by apply Hsame|]. split; [by destruct err|].
    intros e e' -> [= <-]. apply classifyDispatch_spec. by apply Hu.
  - destruct Hr as [-> ->], S3 as [Hu Hn]. simpl. split; [eauto|]. intros [_ [a Ha]]. apply (Hn a). by apply (Hsame []).
Qed.

(** A recovery closure reports what happened to the attempt: harness is asked at most
    once, for the closure that was asked of the session and that its own validation
    accepts; the answer is nil exactly when harness's is, and it says the attempt may
    not be closed exactly when harness found an enduring effect. *)
Theorem close_reports s closure t r
    (Hharness : Forall (fun c => ∀ e, c.2 = Some e → unmarked e) (closures t)) :
  runs (CloseAttempt Closure_Validate s closure) t r →
  match closures t with
  | [] => ∃ e, r = Some e ∧ unmarked e
  | [(asked, err)] =>
      asked = closure ∧ Closure_Validate closure = None ∧ (r = None ↔ err = None) ∧
      ∀ e e', err = Some e → r = Some e' → errors_is e' Disposition.ErrEnduringEffect = named "runtimecommand.EnduringEffectError" e
  | _ => False
  end.
Proof.
  intros (t1 & t2 & applier & -> & (_ & A1 & _ & U1)%applier_of_spec & Hr)%runs_bind.
  assert (closures (t1 ++ t2) = closures t2) as HA by (unfold closures in *; by rewrite omap_app, A1).
  rewrite HA in *. destruct applier as [applier|e]; [|destruct Hr as [-> ->], U1 as [U1 _]; simpl; eauto].
  destruct (is_AttemptCloser applier); cbn [negb] in Hr; [|destruct Hr as [-> ->]; simpl; eexists; split; [done|by split_and!]].
  destruct (Closure_Validate closure) as [e|] eqn:Hv; [destruct Hr as [-> ->]; simpl; eauto|].
  destruct Hr as (err & t3 & -> & -> & ->). simpl in *. apply Forall_cons in Hharness as [Hu _].
  split_and!; [done|done|by destruct err|]. intros e e' -> [= <-]. destruct (Hu e eq_refl) as (_ & _ & He). unfold classifyClosure.
  unfold errors_is in *. simpl in *. destruct (named _ e); simpl; done.
Qed.
End reports.

(** ** Witnesses

    A controller that can do everything, and harness's answers: a release that outlives
    its caller and then keeps its lease, an application that fails after its prefix,
    and a closure of a command with an effect. *)
Definition sample_controller : Controller := mkController 1 77 true true true true true true true true.
Definition sample_session : boundSession :=
  mkBound sample_controller true true true true true true true "tenant" "session" (Some (fun body => Ok [body])) true true.
Definition sample_command : RuntimeCommand := mkRuntimeCommand "cmd" 5 KindInput "hello" no_ref "attempt" None "".
Definition lease_error : error := ETyped (TOtherError "session.LeaseReleaseError") None.
Definition enduring_error : error := ETyped (TOtherError "runtimecommand.EnduringEffectError") None.

Definition sample_env : handler HE unit := fun X e u =>
  match e in HE X return X * unit with
  | HReleaseResidency _ joined => (if joined then Some lease_error else Some context_DeadlineExceeded, u)
  | HAbandonResidency _ _ => (None, u)
  | HDone _ => (true, u)
  | HLeaseEpoch _ => ((9%Z, true), u)
  | HRuntimeCommands _ => ((Some (mkApplier 2 true), true), u)
  | HApplyRuntimeCommand _ _ => ((4%Z, Some (EForeign "store")), u)
  | HCloseAttempt _ _ => (Some enduring_error, u)
  | HCommittedPublicEvents _ => ((true, true), u)
  | HPersistenceFaulted _ => (true, u)
  | HPersistenceFault _ => (None, u)
  | HRigForCreate _ | HRigForRestore _ _ => (Ok (Some 3), u)
  | HNewSession _ _ | HRestoreSession _ _ => (Ok (Some sample_controller), u)
  end.

Lemma teardown_reports_witness :
  ∃ t, reports_teardown t (Some (EJoin [ErrResidencyStillHeld; lease_error])) ∧
    teardowns t = [(false, Some context_DeadlineExceeded); (true, Some lease_error)].
Proof.
  exists (exec sample_env (ReleaseResidency sample_session) tt).2. split; [|vm_compute; reflexivity].
  apply (teardown_reports sample_session). left. refine (exec_runs sample_env _ tt _ tt _ _). vm_compute. reflexivity.
Defined.

Definition no_create : string → res CreateBody := fun _ => Err (EForeign "create").
Definition no_gate : string → res GateResponseRequest := fun _ => Err (EForeign "gate").

Definition sample_apply := ApplyCommand no_create (fun _ => Ok "") no_gate (fun _ => None) (fun _ => true) (fun _ => true) (fun _ => None) sample_session sample_command.

Lemma apply_reports_witness :
  ∃ t admitted, runs sample_apply t (Some (EJoin [Disposition.ErrPrefixCommitted; EForeign "store"])) ∧
    applications t = [(admitted, 4%Z, Some (EForeign "store"))] ∧
    admitted_of no_create (fun _ => Ok "") no_gate (fun _ => None) (fun _ => true) (fun _ => true) (fun _ => None) sample_session sample_command t admitted.
Proof.
  assert (runs sample_apply (exec sample_env sample_apply tt).2 (Some (EJoin [Disposition.ErrPrefixCommitted; EForeign "store"]))) as Hr.
  { refine (exec_runs sample_env _ tt _ tt _ _). vm_compute. reflexivity. }
  assert (applications (exec sample_env sample_apply tt).2 =
    [(mkAdmitted "cmd" 5 KindInput 9 "attempt" None "" None ["hello"], 4%Z, Some (EForeign "store"))]) as Ha by (vm_compute; reflexivity).
  eexists _, _. split; [exact Hr|]. split; [exact Ha|].
  assert (∀ (b : string) e, no_create b = Err e → unmarked e) as H1 by (by intros ? ? [= <-]).
  assert (∀ (b : CreateBody) e, Ok "" = Err e → unmarked e) as H2 by done.
  assert (∀ (b : string) e, no_gate b = Err e → unmarked e) as H3 by (by intros ? ? [= <-]).
  assert (∀ (g : GateResponseRequest) e, @None error = Some e → unmarked e) as H4 by done.
  assert (∀ (a : AdmittedCommand) e, @None error = Some e → unmarked e) as H5 by done.
  assert (∀ (d : BlockDecoder) b e, decode sample_session = Some d → d b = Err e → unmarked e) as H6 by (by intros ? ? ? [= <-]).
  assert (Forall (fun a => ∀ e, a.2 = Some e → unmarked e) (applications (exec sample_env sample_apply tt).2)) as H7.
  { rewrite Ha. repeat constructor; simplify_eq/=; done. }
  pose proof (apply_reports no_create (fun _ => Ok "") no_gate (fun _ => None) (fun _ => true) (fun _ => true) (fun _ => None)
    H1 H2 H3 H4 H5 sample_session sample_command _ _ H6 H7 Hr) as H.
  rewrite Ha in H. exact (proj1 H).
Defined.

Definition sample_closure : Closure := RigTarget.mkClosing "cmd" 5 "input" "attempt" 8.

Lemma close_reports_witness :
  ∃ t r, runs (CloseAttempt (fun _ => None) sample_session sample_closure) t r ∧
    match closures t with
    | [] => ∃ e, r = Some e ∧ unmarked e
    | [(asked, err)] =>
        asked = sample_closure ∧ @None error = None ∧ (r = None ↔ err = None) ∧
        ∀ e e', err = Some e → r = Some e' → errors_is e' Disposition.ErrEnduringEffect = named "runtimecommand.EnduringEffectError" e
    | _ => False
    end ∧ r = Some (EJoin [Disposition.ErrEnduringEffect; enduring_error]).
Proof.
  set (p := CloseAttempt (fun _ => None) sample_session sample_closure). exists (exec sample_env p tt).2, (exec sample_env p tt).1.1.
  assert (runs p (exec sample_env p tt).2 (exec sample_env p tt).1.1) as Hr by (refine (exec_runs sample_env _ tt _ tt _ _); vm_compute; reflexivity).
  split; [exact Hr|]. split; [|vm_compute; reflexivity].
  refine (close_reports (fun _ => None) _ sample_session sample_closure _ _ _ Hr); [done|].
  replace (closures _) with [(sample_closure, Some enduring_error)] by (vm_compute; reflexivity). repeat constructor; simplify_eq/=; done.
Defined.
End HarnessSession.
