(* ===== verification/HarnessRig.v ===== *)
(** * HarnessRig.v: the harness as a rig

    [harnessruntime/rig.go], [rigs.go] and [target.go]: the adapter over a resolver of
    harness rigs, the binding of a session harness launched, and the give-back of one
    the adapter refuses.  The adapter is proved to keep a rig's promise
    ([RigTarget.RigLaws]), so what is proved of a launch target holds of it.       *)
From Stdlib Require Import ZArith.
From stdpp Require Import base list strings gmap.
From S2P Require Import Prelude Wire Errors Effects Department RigTarget HarnessSession.

Module HarnessRig.
Import HarnessSession.
Local Open Scope prog_scope.

Definition ErrNoRigs : error := ESentinel "harnessruntime.ErrNoRigs".
Definition ErrNilOption : error := ESentinel "harnessruntime.ErrNilOption".
Definition ErrNoRig : error := ESentinel "harnessruntime.ErrNoRig".
Definition ErrNoSession : error := ESentinel "harnessruntime.ErrNoSession".
Definition ErrUnknownTenant : error := ESentinel "harnessruntime.ErrUnknownTenant".
Definition IncapableSessionError (missing : list string) : error := ETyped (TIncapableError "harnessruntime" missing) None.

(** ** Resolvers *)

(** A resolver value: [rigsFunc], by which of its two functions are set, or another. *)
Inductive Rigs := RigsFunc (create restore : bool) | OtherRigs.

(** [UnknownTenantError]; its [Is] accepts [ErrUnknownTenant]. *)
Definition UnknownTenantError : error := ETyped (TOtherError "harnessruntime.UnknownTenantError") (Some ErrUnknownTenant).

(** [launcherOf], of a rig or a nil one. *)
Definition launcherOf (r : option nat) : res nat := match r with Some r => Ok r | None => Err ErrNoRig end.

(** The lookup of [RigPerTenant], over its own copy of the table; [SharedRig]'s is
    [launcherOf] for every request. *)
Definition lookup_rig (table : gmap string (option nat)) (tenant : string) : res nat :=
  match table !! tenant with Some r => launcherOf r | None => Err UnknownTenantError end.

(** ** The adapter *)

(** [Adapter]. *)
Record Adapter := mkAdapter { rigs : Rigs; decode : BlockDecoder; requireRecovery : bool }.

(** [Option]: what [WithBlockDecoder] was given, or nil. *)
Inductive Option_ := WithBlockDecoder (decode : option BlockDecoder).

Section adapter.
(** [json.Unmarshal] of an input request's blocks, and [content.UnmarshalBlocks]. *)
Context (unmarshalInput : string → res string) (UnmarshalBlocks : string → res (list string)).

(** [DecodeInputBlocks]. *)
Definition DecodeInputBlocks (body : string) : res (list string) :=
  match unmarshalInput body with
  | Err err => Err (ETyped TWrapError (Some err))
  | Ok blocks =>
      match UnmarshalBlocks blocks with
      | Err err => Err (ETyped TWrapError (Some err))
      | Ok blocks => Ok blocks
      end
  end.

Fixpoint apply_options (a : Adapter) (options : list (option Option_)) : res Adapter :=
  match options with
  | [] => Ok a
  | Some (WithBlockDecoder (Some decode)) :: options => apply_options (mkAdapter (rigs a) decode (requireRecovery a)) options
  | _ => Err ErrNilOption
  end.

(** [New]; a nil resolver is [None]. *)
Definition New (rigs : option Rigs) (options : list (option Option_)) : res Adapter :=
  match rigs with
  | None => Err ErrNoRigs
  | Some rigs =>
      if match rigs with RigsFunc create restore => negb create || negb restore | OtherRigs => false end then Err ErrNoRigs
      else apply_options (mkAdapter rigs DecodeInputBlocks false) options
  end.
End adapter.

(** [recoveryCloserAvailable]. *)
Definition recoveryCloserAvailable (c : Controller) : H bool :=
  if negb (is_Provider c) then Ret false
  else
    let! answer := call (HRuntimeCommands c) in
    Ret match answer with (Some applier, true) => is_AttemptCloser applier | _ => false end.

(** [releaseRefused]. *)
Definition releaseRefused (c : Controller) : H (option error) :=
  if is_Releaser c then
    let! err := call (HReleaseResidency c true) in Ret ((fun e => ETyped TWrapError (Some e)) <$> err)
  else if is_ResidencyAbandoner c then
    let! err := call (HAbandonResidency c true) in Ret ((fun e => ETyped TWrapError (Some e)) <$> err)
  else Ret (Some (EForeign "harnessruntime: neither ReleaseResidency nor AbandonResidency")).

(** What [bind] finds of a controller: whether it has a source of committed events,
    whether it can close an attempt, and whether its fault channel is not nil. *)
Definition probe (c : Controller) : H (bool * bool * bool) :=
  let! source :=
    (if is_CommittedPublicEventProvider c
     then let! answer := call (HCommittedPublicEvents c) in Ret ((answer.2 : bool) && (answer.1 : bool))
     else Ret false) in
  let! closer := recoveryCloserAvailable c in
  let! faults := (if is_PersistenceFaultReporter c then call (HPersistenceFaulted c) else Ret false) in
  Ret (source, closer, faults).

(** What a session lacks, in the order it is asked. *)
Definition missing (requireRecovery : bool) (c : Controller) (source closer faults : bool) : list string :=
  let required := requireRecovery && is_PersistenceFaultReporter c && is_ResidencyAbandoner c in
  RigTarget.lacks "session.IdleWaiter" (is_IdleWaiter c) ++ RigTarget.lacks "session.Liveness" (is_Liveness c) ++
  RigTarget.lacks "session.Releaser" (is_Releaser c) ++ RigTarget.lacks "session.LeaseEpochReporter" (is_LeaseEpochReporter c) ++
  RigTarget.lacks "session.PersistenceFaultReporter" (is_PersistenceFaultReporter c) ++
  RigTarget.lacks "session.ResidencyAbandoner" (is_ResidencyAbandoner c) ++
  RigTarget.lacks "session.CommittedPublicEventProvider" source ++
  RigTarget.lacks "runtimecommand.AttemptCloser" (negb required || closer) ++
  RigTarget.lacks "a persistence fault channel" (negb required || faults).

(** [Adapter.bind], of a controller or a nil one. *)
Definition bind_session (a : Adapter) (controller : option Controller) (tenant session : string) : H (res boundSession) :=
  match controller with
  | None => Ret (Err ErrNoSession)
  | Some c =>
      let! found := probe c in
      let '(source, closer, faults) := found in
      match missing (requireRecovery a) c source closer faults with
      | [] => Ret (Ok (mkBound c (is_IdleWaiter c) (is_Liveness c) (is_Releaser c) source (is_LeaseEpochReporter c)
                (is_PersistenceFaultReporter c) (is_ResidencyAbandoner c) tenant session (Some (decode a)) closer faults))
      | lacking =>
          let refusal := IncapableSessionError lacking in
          let! err := releaseRefused c in
          Ret (Err match err with Some e => EJoin [refusal; e] | None => refusal end)
      end
  end.

(** [Adapter.NewSession]. *)
Definition NewSession (a : Adapter) (request : RigTarget.CreateRequest) : H (res boundSession) :=
  let! assembled := call (HRigForCreate request) in
  match assembled with
  | Err err => Ret (Err err)
  | Ok None => Ret (Err ErrNoRig)
  | Ok (Some launcher) =>
      let id := RigTarget.RigSessionID request in
      let! controller := call (HNewSession launcher (if (id =? 0)%Z then None else Some id)) in
      match controller with
      | Err err => Ret (Err err)
      | Ok controller => bind_session a controller (RigTarget.TenantID request) (RigTarget.SessionID request)
      end
  end.

(** [Adapter.RestoreSession]. *)
Definition RestoreSession (a : Adapter) (id : Z) (request : RigTarget.RigRestoreRequest) : H (res boundSession) :=
  let! assembled := call (HRigForRestore id request) in
  match assembled with
  | Err err => Ret (Err err)
  | Ok None => Ret (Err ErrNoRig)
  | Ok (Some launcher) =>
      let! controller := call (HRestoreSession launcher id) in
      match controller with
      | Err err => Ret (Err err)
      | Ok controller => bind_session a controller (RigTarget.rr_TenantID request) (RigTarget.rr_SessionID request)
      end
  end.

(** ** The adapter as a rig *)

(** The methods of [boundSession]: every interface department looks for but the closer
    and the faults are always offered, and those two say whether they are available. *)
Definition view (s : boundSession) : RigTarget.RigSession :=
  RigTarget.mkRigSession (c_SessionID (controller s)) true true true true true true
    true (Some (closerAvailable s)) true (Some (faultsAvailable s)) true true true.

(** The adapter; it never answers a nil session without an error. *)
Definition rig_of (Closure_Validate : RigTarget.Closing → option error) (a : Adapter) : RigTarget.Rig HE boundSession :=
  RigTarget.mkRig HE boundSession
    (fun request => let! s := NewSession a request in Ret match s with Ok s => Ok (Some s) | Err e => Err e end)
    (fun id request => let! s := RestoreSession a id request in Ret match s with Ok s => Ok (Some s) | Err e => Err e end)
    view ReleaseResidency AbandonResidency (CloseAttempt Closure_Validate) (fun s => call (HPersistenceFault (controller s))).

(** [Target]. *)
Definition Target (unmarshalInput : string → res string) (UnmarshalBlocks : string → res (list string)) (Closure_Validate : RigTarget.Closing → option error)
    (MaxIDBytes : nat) (rigs : option Rigs) (compatibility : string) (capabilities : Department.Capabilities) (options : list (option Option_)) :
    res (Department.DefinitionErrorCode + RigTarget.rigTarget HE boundSession) :=
  match New unmarshalInput UnmarshalBlocks rigs options with
  | Err err => Err err
  | Ok adapter =>
      let adapter := mkAdapter (HarnessRig.rigs adapter) (HarnessRig.decode adapter) true in
      let capabilities := Department.mkCapabilities (Department.SupportsPooled capabilities) (Department.SupportsDedicated capabilities)
        (Department.RequiresWorkspace capabilities) (Department.RequiresCheckpoint capabilities) (Department.AdmissionWeight capabilities)
        (Department.Capture capabilities) (Department.mkRecovery true true) in
      Ok (RigTarget.NewRigTarget MaxIDBytes (Some (rig_of Closure_Validate adapter)) compatibility capabilities)
  end.

(** ** A bound session is whole *)

(** What a trace of [probe] shows: no session launched and none given back. *)
Definition can_give (c : Controller) : bool := is_Releaser c || is_ResidencyAbandoner c.

Definition launches (o : obs HE) : option Controller :=
  match o with
  | Obs e x => match e in HE X return X → option Controller with
      | HNewSession _ _ | HRestoreSession _ _ => fun answer =>
          match answer with Ok (Some c) => if can_give c then Some c else None | _ => None end
      | _ => fun _ => None
      end x
  end.
Definition gives (o : obs HE) : option Controller :=
  match o with
  | Obs e x => match e in HE X return X → option Controller with
      | HReleaseResidency c _ | HAbandonResidency c _ => fun _ => Some c
      | _ => fun _ => None
      end x
  end.

Definition quiet (t : list (obs HE)) : Prop := omap launches t = [] ∧ omap gives t = [].

Lemma quiet_app t1 t2 : quiet t1 → quiet t2 → quiet (t1 ++ t2).
Proof. intros [H1 H2] [H3 H4]. split; by rewrite omap_app, ?H1, ?H2, ?H3, ?H4. Qed.

Lemma probe_runs c t found : runs (probe c) t found → quiet t ∧ (found.2 = true → is_PersistenceFaultReporter c = true).
Proof.
  intros (t1 & t2 & source & -> & H1 & (t3 & t4 & closer & -> & H2 & (t5 & t6 & faults & -> & H3 & [-> ->])%runs_bind)%runs_bind)%runs_bind.
  split.
  - repeat apply quiet_app; [| | |done].
    + destruct (is_CommittedPublicEventProvider c); [|by destruct H1 as [-> _]]. by destruct H1 as (x & t & -> & -> & _).
    + unfold recoveryCloserAvailable in H2. destruct (is_Provider c); [|by destruct H2 as [-> _]]. by destruct H2 as (x & t & -> & -> & _).
    + destruct (is_PersistenceFaultReporter c); [|by destruct H3 as [-> _]]. by destruct H3 as (x & t & -> & -> & _).
  - simpl. destruct (is_PersistenceFaultReporter c); [done|]. by destruct H3 as [_ ->].
Qed.

Lemma releaseRefused_gives c t err : runs (releaseRefused c) t err → omap launches t = [] ∧ (can_give c = true → c ∈ omap gives t).
Proof.
  unfold releaseRefused, can_give. destruct (is_Releaser c); [|destruct (is_ResidencyAbandoner c)].
  - intros (x & t1 & -> & -> & _). split; [done|]. intros _. left.
  - intros (x & t1 & -> & -> & _). split; [done|]. intros _. left.
  - by intros [-> _].
Qed.

Lemma lacks_nil name b : RigTarget.lacks name b = [] ↔ b = true.
Proof. by destruct b. Qed.

(** Every capability the adapter forwards to is the controller's. *)
Record whole (a : Adapter) (c : Controller) (tenant session : string) (s : boundSession) : Prop := {
  wh_of : controller s = c ∧ HarnessSession.tenant s = tenant ∧ HarnessSession.session s = session;
  wh_set : Forall (fun b => b = true) [idle s; live s; releaser s; committed s; leaseEpoch s; faults s; abandoner s];
  wh_implemented : Forall (fun b => b = true)
    [is_IdleWaiter c; is_Liveness c; is_Releaser c; is_LeaseEpochReporter c; is_PersistenceFaultReporter c; is_ResidencyAbandoner c];
  wh_decode : HarnessSession.decode s = Some (decode a);
  wh_recovery : requireRecovery a = true → closerAvailable s = true ∧ faultsAvailable s = true
}.

Lemma bind_session_runs a c tenant session t r :
  runs (bind_session a (Some c) tenant session) t r →
  match r with
  | Ok s => quiet t ∧ whole a c tenant session s
  | Err _ => omap launches t = [] ∧ (can_give c = true → c ∈ omap gives t)
  end.
Proof.
  intros (t1 & t2 & [[source closer] faulted] & -> & [Q _]%probe_runs & H)%runs_bind.
  destruct (missing _ _ _ _ _) as [|m l] eqn:Hm.
  - destruct H as [-> ->]. rewrite app_nil_r. split; [done|]. unfold missing in Hm.
    repeat (apply app_eq_nil in Hm as [?Hm Hm]). repeat match goal with H : RigTarget.lacks _ _ = [] |- _ => apply lacks_nil in H end.
    split; simpl; [done|by repeat constructor|by repeat constructor|done|]. intros Hr.
    rewrite Hr in *. by repeat match goal with H : _ = true |- _ => rewrite H in * end.
  - apply runs_bind in H as (t3 & t4 & err & -> & H & [-> ->]). apply releaseRefused_gives in H as [L G]. destruct Q as [Q1 Q2].
    rewrite app_nil_r, !omap_app, Q1, Q2. done.
Qed.

(** C14 A bound session is whole: whatever harness launched, whatever its capability calls
    answer, a session the adapter binds implements and has set every interface its
    methods forward to, has a block decoder, and, under a target that declares recovery,
    has a closer and a fault channel. *)
Theorem bound_whole a c tenant session t s :
  runs (bind_session a (Some c) tenant session) t (Ok s) → whole a c tenant session s.
Proof. by intros [_ H]%bind_session_runs. Qed.

(** ** The adapter keeps a rig's promise *)

Lemma started_runs a launched tenant session t1 t2 r :
  omap gives t1 = [] →
  omap launches t1 = match launched with Ok (Some c) => option_list (if can_give c then Some c else None) | _ => [] end →
  runs (match launched with Err err => Ret (Err err) | Ok controller => bind_session a controller tenant session end) t2 r →
  match r with
  | Ok s => omap launches (t1 ++ t2) = [controller s] ∧ omap gives (t1 ++ t2) = []
  | Err _ => ∀ c, c ∈ omap launches (t1 ++ t2) → c ∈ omap gives (t1 ++ t2)
  end.
Proof.
  intros G1 L1. rewrite !omap_app, G1, L1. destruct launched as [[c|]|err].
  - intros H%bind_session_runs. destruct r as [s|err].
    + destruct H as [[L2 G2] [(Hc & _) _ Hi _ _]]. rewrite L2, G2, app_nil_r. unfold can_give.
      inversion_clear Hi as [|? ? _ Hi1]. inversion_clear Hi1 as [|? ? _ Hi2]. inversion_clear Hi2 as [|? ? Hr _].
      rewrite Hr, Hc. done.
    + destruct H as [L2 G2]. rewrite L2, app_nil_r. intros c'. destruct (can_give c); simpl; [|by intros ?%elem_of_nil].
      intros ->%list_elem_of_singleton. by apply G2.
  - intros [-> ->]. simpl. by intros ? ?%elem_of_nil.
  - intros [-> ->]. simpl. by intros ? ?%elem_of_nil.
Qed.

Lemma NewSession_runs a request t r :
  runs (NewSession a request) t r →
  match r with
  | Ok s => omap launches t = [controller s] ∧ omap gives t = []
  | Err _ => ∀ c, c ∈ omap launches t → c ∈ omap gives t
  end.
Proof.
  intros (assembled & t1 & -> & H)%runs_call. destruct assembled as [[launcher|]|err].
  - apply runs_call in H as (launched & t2 & -> & H). eapply (started_runs _ _ _ _ [_; _]) in H; [exact H|done|].
    simpl. destruct launched as [[c|]|]; simpl; [|done..]. by destruct (can_give c).
  - destruct H as [-> ->]. simpl. by intros ? ?%elem_of_nil.
  - destruct H as [-> ->]. simpl. by intros ? ?%elem_of_nil.
Qed.

Lemma RestoreSession_runs a id request t r :
  runs (RestoreSession a id request) t r →
  match r with
  | Ok s => omap launches t = [controller s] ∧ omap gives t = []
  | Err _ => ∀ c, c ∈ omap launches t → c ∈ omap gives t
  end.
Proof.
  intros (assembled & t1 & -> & H)%runs_call. destruct assembled as [[launcher|]|err].
  - apply runs_call in H as (launched & t2 & -> & H). eapply (started_runs _ _ _ _ [_; _]) in H; [exact H|done|].
    simpl. destruct launched as [[c|]|]; simpl; [|done..]. by destruct (can_give c).
  - destruct H as [-> ->]. simpl. by intros ? ?%elem_of_nil.
  - destruct H as [-> ->]. simpl. by intros ? ?%elem_of_nil.
Qed.

Lemma ReleaseResidency_runs s t r : runs (ReleaseResidency s) t r → omap launches t = [] ∧ controller s ∈ omap gives t.
Proof.
  intros (err & Hr & ->)%runs_classified. unfold teardownOutcome in Hr. apply runs_call in Hr as (x & t1 & -> & Hr).
  assert (omap launches t1 = []) as HL.
  { destruct x as [e|]; [|by destruct Hr as [-> _]]. destruct (is_context_error e); cbn [negb] in Hr; [|by destruct Hr as [-> _]].
    apply runs_call in Hr as (done & t2 & -> & Hr). destruct done; [|by destruct Hr as [-> _]]. by destruct Hr as (y & t3 & -> & -> & _). }
  simpl. split; [done|left].
Qed.

#[export] Instance harness_rig_laws Closure_Validate a : RigTarget.RigLaws (rig_of Closure_Validate a) launches gives controller.
Proof.
  split.
  - intros q t r Hr. apply (runs_classified (NewSession a q)) in Hr as (s & Hs & ->). apply NewSession_runs in Hs. by destruct s.
  - intros id q t r Hr. apply (runs_classified (RestoreSession a id q)) in Hr as (s & Hs & ->). apply RestoreSession_runs in Hs. by destruct s.
  - apply ReleaseResidency_runs.
Qed.

(** C8 A launch through the harness loses no session and answers only whole ones.  Of a
    target [Target] built, whatever rig is resolved, whatever harness launches and
    whatever each call answers: a refused launch has asked every session harness
    launched, and that can be asked, to give its lease back; an answered one is the one
    session that was launched, under the identity that was asked for when one was, never
    given back, with the closer and the faults the target declares. *)
Theorem harness_launch unmarshalInput UnmarshalBlocks Closure_Validate MaxIDBytes rigs compatibility capabilities options T
    (HT : Target unmarshalInput UnmarshalBlocks Closure_Validate MaxIDBytes rigs compatibility capabilities options = Ok (inr T))
    request want t r
    (Hrun : runs (RigTarget.Create T request) t r ∧ want = RigTarget.RigSessionID request ∨
            (∃ restore, runs (RigTarget.Restore T restore) t r ∧ want = RigTarget.RigSessionID (RigTarget.launch restore))) :
  match r with
  | Err _ => ∀ c, c ∈ omap launches t → c ∈ omap gives t
  | Ok rt => ∃ s, omap launches t = [controller s] ∧ omap gives t = [] ∧ (want = 0%Z ∨ c_SessionID (controller s) = want) ∧
      RigTarget.session (RigTarget.base rt) = s ∧ RigTarget.closer (RigTarget.base rt) = Some s ∧ RigTarget.faults (RigTarget.base rt) = Some s
  end.
Proof.
  unfold Target in HT. destruct (New _ _ rigs options) as [a|e]; [|done]. unfold RigTarget.NewRigTarget in HT.
  destruct (Department.CompatibilityID_Validate _ _); [done|]. destruct (Department.Capabilities_Validate _); [done|]. injection HT as <-.
  set (a' := mkAdapter _ _ true) in *.
  assert (∀ c, RigTarget.ungivable (rig_of Closure_Validate a') controller c → False) as Hgiv by (by intros c (s & _ & [=])).
  destruct Hrun as [[Hrun ->]|(restore & Hrun & ->)].
  - apply (RigTarget.Create_runs (rig_of Closure_Validate a') launches gives controller) in Hrun; [|done]. destruct r as [rt|err].
    + destruct Hrun as (s & H1 & H2 & H3 & [[H4 _] _ [_ H5] [_ H6] _]). exists s. simpl in *. split_and!; auto.
    + intros c Hc. destruct (Hrun c Hc) as [?|?%Hgiv]; done.
  - apply (RigTarget.Restore_runs (rig_of Closure_Validate a') launches gives controller) in Hrun; [|done]. destruct r as [rt|err].
    + destruct Hrun as (s & H1 & H2 & H3 & [[H4 _] _ [_ H5] [_ H6] _]). exists s. simpl in *. split_and!; auto.
    + intros c Hc. destruct (Hrun c Hc) as [?|?%Hgiv]; done.
Qed.

(** ** Witnesses

    A target over one rig; and a session that cannot close an attempt, which that
    target refuses and gives back. *)
Definition blocks_raw (body : string) : res string := Ok body.
Definition one_block (raw : string) : res (list string) := Ok [raw].
Definition sample_adapter : Adapter := mkAdapter OtherRigs (DecodeInputBlocks blocks_raw one_block) true.
Definition sample_capabilities : Department.Capabilities := Department.sample_capabilities.
Definition sample_target : RigTarget.rigTarget HE boundSession :=
  RigTarget.mkRigTarget (rig_of (fun _ => None) sample_adapter) "v1" sample_capabilities.
Definition sample_request : RigTarget.CreateRequest := RigTarget.mkCreateRequest "tenant" "session" "agent" HostPlacementPooled "/w" "ns" 77.

Definition refusing_env : handler HE unit := fun X e u =>
  match e in HE X return X * unit with
  | HReleaseResidency _ _ | HAbandonResidency _ _ => (None, u)
  | HDone _ => (false, u)
  | HLeaseEpoch _ => ((9%Z, true), u)
  | HRuntimeCommands _ => ((Some (mkApplier 2 false), true), u)
  | HApplyRuntimeCommand _ _ => ((4%Z, None), u)
  | HCloseAttempt _ _ => (None, u)
  | HCommittedPublicEvents _ => ((true, true), u)
  | HPersistenceFaulted _ => (true, u)
  | HPersistenceFault _ => (None, u)
  | HRigForCreate _ | HRigForRestore _ _ => (Ok (Some 3), u)
  | HNewSession _ _ | HRestoreSession _ _ => (Ok (Some sample_controller), u)
  end.

Lemma bound_whole_witness :
  ∃ t s, runs (bind_session sample_adapter (Some sample_controller) "tenant" "session") t (Ok s) ∧
    whole sample_adapter sample_controller "tenant" "session" s.
Proof.
  set (p := bind_session sample_adapter (Some sample_controller) "tenant" "session"). exists (exec sample_env p tt).2.
  assert (runs p (exec sample_env p tt).2 (exec sample_env p tt).1.1) as Hr by (apply (exec_runs sample_env p tt _ (exec sample_env p tt).1.2); destruct (exec sample_env p tt) as [[? ?] ?]; done).
  assert ((exec sample_env p tt).1.1 = Ok (mkBound sample_controller true true true true true true true "tenant" "session" (Some (decode sample_adapter)) true true)) as Hs by (vm_compute; reflexivity).
  rewrite Hs in Hr. eexists. split; [exact Hr|]. exact (bound_whole sample_adapter sample_controller "tenant" "session" _ _ Hr).
Defined.

Lemma harness_launch_witness :
  let t := (exec refusing_env (RigTarget.Create sample_target sample_request) tt).2 in
  omap launches t = [sample_controller] ∧ ∀ c, c ∈ omap launches t → c ∈ omap gives t.
Proof.
  split; [vm_compute; reflexivity|].
  set (p := RigTarget.Create sample_target sample_request).
  assert (runs p (exec refusing_env p tt).2 (Err (RigTarget.RigLaunchError (IncapableSessionError ["runtimecommand.AttemptCloser"])))) as Hr.
  { refine (exec_runs refusing_env _ tt _ tt _ _). vm_compute. reflexivity. }
  exact (harness_launch blocks_raw one_block (fun _ => None) 512 (Some OtherRigs) "v1" sample_capabilities [] sample_target eq_refl
    sample_request 77 _ (Err _) (or_introl (conj Hr eq_refl))).
Defined.
End HarnessRig.
