(* ===== verification/Egress.v ===== *)
(** * Egress.v: the two streams of a bound session

    [harnessruntime/session.go]: the subscriptions to a session's events and the two
    goroutines that serve them, [pump] (the committed stream, for the durable
    publication path) and [pumpLive] (the live stream, previews included).  Each is a
    step over the cases of its [select]; the receiver of its channel is a case of its
    own, so every interleaving of the producer and the receiver is a list of cases.
    Harness's events are read through the methods and fields the code uses.       *)
From Stdlib Require Import ZArith.
From stdpp Require Import base list strings gmap.
From S2P Require Import Prelude Errors LiveBodies.

Module Egress.

(** ** Deliveries and publications *)

(** [content]'s chunks; a nil pointer is [None]. *)
Inductive Chunk := TextChunk (text : option string) | ThinkingChunk (thinking : option string) | OtherChunk.
Inductive Class := Enduring | Ephemeral.

(** [event.Event], by the types the switch tells apart. *)
Inductive Event :=
| TokenDelta (chunk : Chunk) (rest : string) | ToolCallStarted (rest : string) | ToolCallCompleted (rest : string)
| OtherEvent (rest : string).

(** [event.Delivery]; a nil event is [None]. *)
Record Delivery := mkDelivery { EventOf : option Event; EventID : string; JournalSeq : Z; CoveredThrough : Z; PublicBody : string }.

(** [sessionwire.EnduringPublication] and [EphemeralPublication]. *)
Record EnduringPublication := mkEnduring { e_TenantID : string; e_SessionID : string; e_EventID : string; e_JournalSeq : Z; e_CoveredThrough : Z; e_Body : string }.
Record EphemeralPublication := mkEphemeral { p_TenantID : string; p_SessionID : string; p_Body : string }.

(** [department.LivePublication], exactly one of whose members is set. *)
Inductive LivePublication := LiveEnduring (p : EnduringPublication) | LiveEphemeral (p : EphemeralPublication) | LiveTerminal (err : error).

Definition committedEgressBuffer : nat := 256.
Definition liveEphemeralBuffer : nat := 16.

Definition MissingCommittedFieldError (d : Delivery) : error := ETyped (TMissingCommittedFieldError (EventID d) (JournalSeq d)) None.
Definition ErrResumeUnsupported : error := ESentinel "harnessruntime.ErrResumeUnsupported".

Section egress.
(** Harness's [Event.Class] and [Delivery.Committed], and [harnesswire.Project]: the
    class and the body of a projection. *)
Context (ClassOf : Event → Class) (Committed : Delivery → bool) (Project : string → string → Event → res (Class * string)).
Context (tenant session : string).

Definition publication (d : Delivery) : EnduringPublication :=
  mkEnduring tenant session (EventID d) (JournalSeq d) (CoveredThrough d) (PublicBody d).

(** ** The committed stream *)

(** [SubscribeCommitted], before it starts the pump: a resume point is refused. *)
Definition SubscribeCommitted (after : string) (subscribed : res unit) : res unit :=
  if bool_decide (after ≠ "") then Err ErrResumeUnsupported else subscribed.

(** The published channel, what its receiver has taken of it, and whether the pump has
    returned and closed it. *)
Record Pump := mkPump { buffer : list EnduringPublication; received : list EnduringPublication; stopped : bool }.
Definition new_pump : Pump := mkPump [] [] false.

(** A case: the context is done, the subscription is closed, a delivery arrives; or the
    receiver takes the channel's first. *)
Inductive pump_case := PDone | PClosed | PDelivery (d : Delivery) | PReceive.

Definition pump_step (p : Pump) (c : pump_case) : Pump :=
  match c with
  | PReceive =>
      match buffer p with
      | first :: rest => mkPump rest (received p ++ [first]) (stopped p)
      | [] => p
      end
  | _ =>
      if stopped p then p
      else match c with
           | PDelivery d =>
               if negb (Committed d) then p
               else if (length (buffer p) <? committedEgressBuffer)%nat then mkPump (buffer p ++ [publication d]) (received p) false
               else mkPump (buffer p) (received p) true
           | _ => mkPump (buffer p) (received p) true
           end
  end.

Definition pump (cases : list pump_case) : Pump := fold_left pump_step cases new_pump.

(** The committed deliveries that arrived. *)
Definition arrivals (cases : list pump_case) : list EnduringPublication :=
  omap (fun c => match c with PDelivery d => if Committed d then Some (publication d) else None | _ => None end) cases.

(** ** The live stream *)

(** [department.LiveOptions]. *)
Record LiveOptions := mkLiveOptions { IncludeReasoning : bool; IncludeToolSteps : bool }.

(** The pump's state: what is pending with its two counts, whether its subscription is
    still read ([deliveries] is not nil), the drops it counted, and what its receiver
    took. *)
Record Live := mkLive {
  pending : list LivePublication; enduring : nat; ephemeral : nat; reading : bool; drops : Z;
  sent : list LivePublication; ended : bool
}.
Definition new_live : Live := mkLive [] 0 0 true 0 [] false.

Inductive live_case := LDone | LSend | LClosed | LDelivery (d : Delivery).

Definition preview (options : LiveOptions) (chunk : Chunk) : string :=
  match chunk with
  | TextChunk (Some text) => text
  | ThinkingChunk (Some thinking) => if IncludeReasoning options then thinking else ""
  | _ => ""
  end.

(** What the switch projects of an event. *)
Definition projected (options : LiveOptions) (e : Event) : bool :=
  match e with
  | TokenDelta chunk _ =>
      let preview := preview options chunk in
      negb (bool_decide (preview = "")) && (String.length preview <=? LiveBodies.MaxBytes)%nat
  | ToolCallStarted _ | ToolCallCompleted _ => IncludeToolSteps options
  | OtherEvent _ => false
  end.

(** The publication of an event's preview, if it has one. *)
Definition transient (options : LiveOptions) (e : Event) : option EphemeralPublication :=
  if projected options e then
    match Project tenant session e with
    | Ok (Ephemeral, body) => Some (mkEphemeral tenant session body)
    | _ => None
    end
  else None.

Definition push (l : Live) (x : LivePublication) (enduring' ephemeral' : nat) (reading' : bool) : Live :=
  mkLive (pending l ++ [x]) enduring' ephemeral' reading' (drops l) (sent l) (ended l).
Definition end_live (l : Live) : Live := mkLive (pending l) (enduring l) (ephemeral l) (reading l) (drops l) (sent l) true.
Definition drop_one (l : Live) : Live := mkLive (pending l) (enduring l) (ephemeral l) (reading l) (u64 (drops l + 1)) (sent l) (ended l).

(** The delivery's case. *)
Definition on_delivery (options : LiveOptions) (l : Live) (d : Delivery) : Live :=
  match EventOf d with
  | None => end_live l
  | Some e =>
      match ClassOf e with
      | Enduring =>
          if negb (Committed d) then push l (LiveTerminal (MissingCommittedFieldError d)) (enduring l) (ephemeral l) false
          else if (enduring l =? committedEgressBuffer)%nat then end_live l
          else push l (LiveEnduring (publication d)) (S (enduring l)) (ephemeral l) true
      | Ephemeral =>
          if negb (projected options e) || (ephemeral l =? liveEphemeralBuffer)%nat then drop_one l
          else match transient options e with
               | Some p => push l (LiveEphemeral p) (enduring l) (S (ephemeral l)) true
               | None => drop_one l
               end
      end
  end.

(** The send's case: the first pending publication is taken. *)
Definition on_send (l : Live) : Live :=
  match pending l with
  | [] => l
  | first :: rest =>
      let l' := mkLive rest (enduring l) (ephemeral l) (reading l) (drops l) (sent l ++ [first]) (ended l) in
      match first with
      | LiveTerminal _ => end_live l'
      | LiveEnduring _ => mkLive rest (pred (enduring l)) (ephemeral l) (reading l) (drops l) (sent l ++ [first]) (ended l)
      | LiveEphemeral _ => mkLive rest (enduring l) (pred (ephemeral l)) (reading l) (drops l) (sent l ++ [first]) (ended l)
      end
  end.

(** [pumpLive]: a case whose channel is nil is never chosen. *)
Definition live_step (options : LiveOptions) (l : Live) (c : live_case) : Live :=
  if ended l then l
  else match c with
       | LDone => end_live l
       | LSend => on_send l
       | LClosed => if reading l then end_live l else l
       | LDelivery d => if reading l then on_delivery options l d else l
       end.

Definition pumpLive (options : LiveOptions) (cases : list live_case) : Live := fold_left (live_step options) cases new_live.

(** ** The committed stream is a prefix *)

(** A step that ends the pump, or an overflow. *)
Definition overflowed (cases : list pump_case) : Prop :=
  ∃ before d after, cases = before ++ PDelivery d :: after ∧ Committed d = true ∧
    stopped (pump before) = false ∧ length (buffer (pump before)) = committedEgressBuffer.

Lemma pump_snoc cases c : pump (cases ++ [c]) = pump_step (pump cases) c.
Proof. unfold pump. by rewrite fold_left_app. Qed.

Lemma arrivals_snoc cases c : arrivals (cases ++ [c]) = arrivals cases ++ arrivals [c].
Proof. unfold arrivals. by rewrite omap_app. Qed.

Lemma overflowed_snoc cases c : overflowed cases → overflowed (cases ++ [c]).
Proof. intros (b & d & a & -> & H). exists b, d, (a ++ [c]). by rewrite <-app_assoc. Qed.

Record pump_well (cases : list pump_case) (p : Pump) : Prop := {
  pw_prefix : ∃ rest, arrivals cases = received p ++ buffer p ++ rest ∧ (stopped p = false → rest = []);
  pw_bound : length (buffer p) ≤ committedEgressBuffer;
  pw_stopped : stopped p = true → PDone ∈ cases ∨ PClosed ∈ cases ∨ overflowed cases
}.

Lemma pump_step_well cases c : pump_well cases (pump cases) → pump_well (cases ++ [c]) (pump_step (pump cases) c).
Proof.
  intros [(rest & Hp & Hr) Hb Hs]. set (p := pump cases) in *.
  assert (stopped p = true → PDone ∈ cases ++ [c] ∨ PClosed ∈ cases ++ [c] ∨ overflowed (cases ++ [c])) as Hs'.
  { intros H. destruct (Hs H) as [?|[?|?]]; [left|right; left|right; right; by apply overflowed_snoc]; apply elem_of_app; by left. }
  assert (stopped p = true → c ≠ PReceive → pump_well (cases ++ [c]) p) as Hstop.
  { intros H Hc. split; [|done|done]. exists (rest ++ arrivals [c]). rewrite arrivals_snoc, Hp, !app_assoc. split; [done|congruence]. }
  unfold pump_step. destruct c as [| |d|].
  - destruct (stopped p) eqn:E; [by apply Hstop|]. split; simpl; [|done|intros _; left; apply elem_of_app; right; left].
    exists []. by rewrite arrivals_snoc, Hp, (Hr eq_refl), !app_nil_r.
  - destruct (stopped p) eqn:E; [by apply Hstop|]. split; simpl; [|done|intros _; right; left; apply elem_of_app; right; left].
    exists []. by rewrite arrivals_snoc, Hp, (Hr eq_refl), !app_nil_r.
  - destruct (stopped p) eqn:E; [by apply Hstop|]. rewrite (Hr eq_refl), app_nil_r in Hp. unfold arrivals at 1 in Hp.
    destruct (Committed d) eqn:Hd; cbn [negb].
    + destruct (Nat.ltb_spec (length (buffer p)) committedEgressBuffer) as [Hlt|Hge]; split; simpl.
      * exists []. rewrite arrivals_snoc. unfold arrivals. simpl. rewrite Hd, Hp, !app_nil_r, app_assoc. done.
      * rewrite length_app. simpl. lia.
      * done.
      * exists [publication d]. rewrite arrivals_snoc. unfold arrivals. simpl. rewrite Hd, Hp, app_assoc. done.
      * done.
      * intros _. right; right. exists cases, d, []. split_and!; [done..|]. unfold p in *. lia.
    + split; [|done|by rewrite E]. exists []. rewrite arrivals_snoc. unfold arrivals. simpl. by rewrite Hd, Hp, !app_nil_r.
  - assert (arrivals (cases ++ [PReceive]) = arrivals cases) as Ha by (rewrite arrivals_snoc; unfold arrivals; simpl; by rewrite app_nil_r).
    destruct (buffer p) as [|first others] eqn:Hbuf.
    + split; [|by rewrite Hbuf|done]. exists rest. by rewrite Ha, Hp, Hbuf.
    + split; simpl; [|simpl in Hb; lia|done]. exists rest. rewrite Ha, Hp. split; [|done]. by rewrite <-!app_assoc.
Qed.

(** C31 The committed stream has no hole.  However the producer and the receiver interleave,
    what the receiver has taken, followed by what waits in the channel, is a prefix of
    the committed deliveries in the order they arrived, and all of them while the pump
    runs; at most 256 wait; and the pump ends only with its context, with its
    subscription, or at a delivery that finds 256 waiting. *)
Theorem pump_prefix cases :
  let p := pump cases in
  (∃ rest, arrivals cases = received p ++ buffer p ++ rest ∧ (stopped p = false → rest = [])) ∧
  length (buffer p) ≤ 256 ∧
  (stopped p = true → PDone ∈ cases ∨ PClosed ∈ cases ∨ overflowed cases).
Proof.
  assert (pump_well cases (pump cases)) as [H1 H2 H3]; [|done].
  induction cases as [|c cases IH] using rev_ind; [|rewrite pump_snoc; by apply pump_step_well].
  split; simpl; [by exists []|unfold committedEgressBuffer; lia|done].
Qed.

(** ** The live stream *)

Section live.
Context (options : LiveOptions).

Definition as_enduring (x : LivePublication) : option EnduringPublication := match x with LiveEnduring p => Some p | _ => None end.
Definition as_ephemeral (x : LivePublication) : option EphemeralPublication := match x with LiveEphemeral p => Some p | _ => None end.
Definition is_terminal (x : LivePublication) : bool := match x with LiveTerminal _ => true | _ => false end.

(** What is shown of a live stream: taken, then pending. *)
Definition shown (l : Live) : list LivePublication := sent l ++ pending l.

(** The enduring deliveries that arrived, and the previews of the others. *)
Definition enduring_deliveries (cases : list live_case) : list Delivery :=
  omap (fun c => match c with
    | LDelivery d => match EventOf d with Some e => match ClassOf e with Enduring => Some d | Ephemeral => None end | None => None end
    | _ => None end) cases.
Definition previews (cases : list live_case) : list EphemeralPublication :=
  omap (fun c => match c with
    | LDelivery d => match EventOf d with Some e => match ClassOf e with Ephemeral => transient options e | Enduring => None end | None => None end
    | _ => None end) cases.

Record live_well (cases : list live_case) (l : Live) : Prop := {
  lw_enduring : enduring l = length (omap as_enduring (pending l)) ∨ ended l = true;
  lw_ephemeral : ephemeral l = length (omap as_ephemeral (pending l)) ∨ ended l = true;
  lw_bounds : length (omap as_enduring (pending l)) ≤ committedEgressBuffer ∧ length (omap as_ephemeral (pending l)) ≤ liveEphemeralBuffer;
  lw_stream : ∃ n, omap as_enduring (shown l) = publication <$> take n (enduring_deliveries cases) ∧
    n ≤ length (enduring_deliveries cases) ∧
    Forall (fun d => Committed d = true) (take n (enduring_deliveries cases)) ∧
    (reading l = true → ended l = false → n = length (enduring_deliveries cases)) ∧
    (if reading l then Forall (fun x => is_terminal x = false) (shown l)
     else ∃ front d, shown l = front ++ [LiveTerminal (MissingCommittedFieldError d)] ∧ Forall (fun x => is_terminal x = false) front ∧
            enduring_deliveries cases !! n = Some d ∧ Committed d = false);
  lw_previews : omap as_ephemeral (shown l) `sublist_of` previews cases
}.

Lemma enduring_deliveries_snoc cases c : enduring_deliveries (cases ++ [c]) = enduring_deliveries cases ++ enduring_deliveries [c].
Proof. unfold enduring_deliveries. by rewrite omap_app. Qed.
Lemma previews_snoc cases c : previews (cases ++ [c]) = previews cases ++ previews [c].
Proof. unfold previews. by rewrite omap_app. Qed.

(** What arrives at a stream that no longer reads changes nothing. *)
Lemma live_well_later cases c l :
  live_well cases l → reading l = false ∨ ended l = true ∨ enduring_deliveries [c] = [] → live_well (cases ++ [c]) l.
Proof.
  intros [H1 H2 H3 (n & S1 & S2 & S3 & S4 & S5) H5] Hl. split; [done|done|done| |].
  - exists n. rewrite enduring_deliveries_snoc, take_app_le, length_app by done. split_and!; [done|lia|done| |].
    + intros Hr He. destruct Hl as [?|[?|Hz]]; [congruence|congruence|]. rewrite Hz; simpl. rewrite (S4 Hr He). lia.
    + destruct (reading l); [done|]. destruct S5 as (front & d & F1 & F2 & F3 & F4). exists front, d.
      split_and!; [done|done| |done]. by apply lookup_app_l_Some.
  - rewrite previews_snoc. by apply sublist_inserts_r.
Qed.

Lemma live_well_end cases l : live_well cases l → live_well cases (end_live l).
Proof.
  intros [H1 H2 H3 (n & S1 & S2 & S3 & S4 & S5) H5]. split; simpl; [by right|by right|done| |done].
  exists n. unfold shown in *. simpl in *. split_and!; try done.
Qed.

Lemma on_send_well cases l : live_well cases l → ended l = false → live_well cases (on_send l).
Proof.
  intros Hw He. unfold on_send. destruct (pending l) as [|first rest] eqn:Hp; [done|].
  destruct Hw as [H1 H2 [B1 B2] HS HP]. rewrite Hp in *.
  assert (shown l = (sent l ++ [first]) ++ rest) as Hsh by (unfold shown; by rewrite Hp, <-app_assoc).
  rewrite He in *. destruct H1 as [H1|?], H2 as [H2|?]; try done. rewrite Hsh in *.
  destruct first as [e|e|err]; simpl in *; fold_omap; split; simpl; unfold shown; simpl; first [done|left; lia|by right|split; lia|idtac].
  destruct HS as (n & S1 & S2 & S3 & S4 & S5). exists n. by split_and!.
Qed.

Lemma not_terminal_snoc (l : list LivePublication) x :
  Forall (fun x => is_terminal x = false) l → is_terminal x = false → Forall (fun x => is_terminal x = false) (l ++ [x]).
Proof. intros. apply Forall_app. split; [done|]. by constructor. Qed.

(** A delivery's case, of a stream that reads. *)
Lemma on_delivery_well cases l d :
  live_well cases l → ended l = false → reading l = true → live_well (cases ++ [LDelivery d]) (on_delivery options l d).
Proof.
  intros Hw He Hr. unfold on_delivery. destruct (EventOf d) as [e|] eqn:HE; [|apply live_well_end, live_well_later; [done|]; right; right; unfold enduring_deliveries; simpl; by rewrite HE].
  destruct (ClassOf e) eqn:HC.
  - assert (enduring_deliveries [LDelivery d] = [d] ∧ previews [LDelivery d] = []) as [Hd Hv] by (unfold enduring_deliveries, previews; simpl; by rewrite HE, HC).
    destruct Hw as [[H1|?] [H2|?] [B1 B2] (n & S1 & S2 & S3 & S4 & S5) HP]; try congruence. rewrite Hr in S5. specialize (S4 Hr He).
    assert (take n (enduring_deliveries cases) = enduring_deliveries cases) as Ht by (apply take_ge; lia). rewrite Ht in *.
    destruct (Committed d) eqn:Hcd; cbn [negb].
    + destruct (Nat.eqb_spec (enduring l) committedEgressBuffer) as [Hfull|Hfull].
      * split; simpl; [by right|by right|done| |by rewrite previews_snoc, Hv, app_nil_r].
        exists n. rewrite enduring_deliveries_snoc, take_app_le, Ht, length_app, Hr by lia. unfold shown in *. simpl. split_and!; [done|lia|done|done|done].
      * split; unfold shown in *; simpl; fold_omap; rewrite ?omap_app; simpl; rewrite ?length_app, ?app_nil_r; simpl; [left; lia|left; lia|split; lia| |].
        -- exists (S n). rewrite !app_assoc, <-omap_app, S1, enduring_deliveries_snoc, Hd, S4, length_app, take_ge by (rewrite length_app; simpl; lia).
           simpl. rewrite fmap_app. split_and!; [done|lia|by apply Forall_app; split; [|constructor]|intros; lia|by apply not_terminal_snoc].
        -- by rewrite previews_snoc, Hv, app_nil_r, <-omap_app.
    + split; unfold shown in *; simpl; fold_omap; rewrite ?omap_app; simpl; rewrite ?length_app, ?app_nil_r; simpl; [left; lia|left; lia|split; lia| |].
      * exists n. rewrite !app_assoc, <-omap_app, S1, enduring_deliveries_snoc, Hd, take_app_le, Ht, length_app by lia. simpl.
        split_and!; [done|lia|done|done|]. exists (sent l ++ pending l), d. split_and!; [done|done| |done]. rewrite S4. by apply list_lookup_middle.
      * by rewrite previews_snoc, Hv, app_nil_r, <-omap_app.
  - assert (enduring_deliveries [LDelivery d] = [] ∧ previews [LDelivery d] = option_list (transient options e)) as [Hd Hv].
    { unfold enduring_deliveries, previews. simpl. rewrite HE, HC. by destruct (transient options e). }
    assert (live_well (cases ++ [LDelivery d]) (drop_one l)) as Hdrop.
    { destruct (live_well_later cases (LDelivery d) l Hw) as [H1 H2 H3 H4 H5]; [by right; right|]. by split. }
    destruct (projected options e) eqn:HPr; cbn [negb orb]; [|exact Hdrop].
    destruct (Nat.eqb_spec (ephemeral l) liveEphemeralBuffer) as [Hfull|Hfull]; [exact Hdrop|].
    destruct (transient options e) as [p|]; [|exact Hdrop]. clear Hdrop.
    destruct Hw as [[H1|?] [H2|?] [B1 B2] (n & S1 & S2 & S3 & S4 & S5) HP]; try congruence. rewrite Hr in S5. change (option_list (Some p)) with [p] in Hv.
    split; unfold shown in *; simpl; fold_omap; rewrite ?omap_app; simpl; rewrite ?length_app, ?app_nil_r; simpl; [left; lia|left; lia|split; lia| |].
    + exists n. rewrite !app_assoc, <-omap_app, S1, enduring_deliveries_snoc, Hd, app_nil_r. simpl.
      split_and!; [done|done|done|by intros; apply S4|by apply not_terminal_snoc].
    + rewrite previews_snoc, Hv, app_assoc, <-omap_app. by apply sublist_app.
Qed.

Lemma live_step_well cases c l : live_well cases l → live_well (cases ++ [c]) (live_step options l c).
Proof.
  intros Hw. unfold live_step. destruct (ended l) eqn:He; [apply live_well_later; auto|]. destruct c as [| | |d].
  - apply live_well_end, live_well_later; auto.
  - apply on_send_well; [|done]. apply live_well_later; auto.
  - destruct (reading l) eqn:Hr; [apply live_well_end|]; apply live_well_later; auto.
  - destruct (reading l) eqn:Hr; [by apply on_delivery_well|apply live_well_later; auto].
Qed.

Lemma pumpLive_well cases : live_well cases (pumpLive options cases).
Proof.
  induction cases as [|c cases IH] using rev_ind.
  - split; simpl; [by left|by left|split; simpl; lia| |constructor]. exists 0. split_and!; simpl; try done; by constructor.
  - unfold pumpLive. rewrite fold_left_app. by apply live_step_well.
Qed.

(** The live stream's committed part has no hole.  However its producer and its receiver
    interleave, the enduring publications taken and pending are a prefix of the enduring
    deliveries that arrived, in order, each of them committed, and all of them while the
    stream runs; and a terminal error a receiver takes is the last thing it takes, names
    the first enduring delivery that was not committed, and follows every one before it. *)
Theorem live_whole cases :
  let l := pumpLive options cases in
  ∃ n, omap as_enduring (sent l ++ pending l) = publication <$> take n (enduring_deliveries cases) ∧
    Forall (fun d => Committed d = true) (take n (enduring_deliveries cases)) ∧
    (reading l = true → ended l = false → n = length (enduring_deliveries cases)) ∧
    (∀ err, LiveTerminal err ∈ sent l →
       pending l = [] ∧ ∃ d, err = MissingCommittedFieldError d ∧ enduring_deliveries cases !! n = Some d ∧ Committed d = false).
Proof.
  intros l. destruct (pumpLive_well cases) as [_ _ _ (n & S1 & S2 & S3 & S4 & S5) _]. fold l in S1, S4, S5. unfold shown in *.
  exists n. split_and!; [done..|]. intros err Herr. destruct (reading l).
  - apply Forall_app in S5 as [S5 _]. rewrite Forall_forall in S5. by specialize (S5 _ Herr).
  - destruct S5 as (front & d & F1 & F2 & F3 & F4). rewrite Forall_forall in F2.
    destruct (pending l) as [|x rest _] using rev_ind.
    + split; [done|]. rewrite app_nil_r in F1. rewrite F1 in Herr. apply elem_of_app in Herr as [Herr|Herr]; [by specialize (F2 _ Herr)|].
      apply list_elem_of_singleton in Herr. injection Herr as ->. eauto.
    + exfalso. rewrite app_assoc in F1. apply app_inj_tail in F1 as [F1 _].
      assert (LiveTerminal err ∈ front) as Hf by (rewrite <-F1; apply elem_of_app; by left). by specialize (F2 _ Hf).
Qed.

Lemma length_by_kind (l : list LivePublication) :
  length l = length (omap as_enduring l) + length (omap as_ephemeral l) + length (filter (fun x => is_terminal x = true) l).
Proof.
  induction l as [|x l IH]; [done|]. rewrite filter_cons. destruct x; simpl; fold_omap; simpl; rewrite IH; lia.
Qed.

Lemma no_terminal (l : list LivePublication) : Forall (fun x => is_terminal x = false) l → filter (fun x => is_terminal x = true) l = [].
Proof. intros H. apply list_filter_none. eapply Forall_impl; [exact H|]. intros x Hx. by rewrite Hx. Qed.

(** What waits for the receiver of a live stream is bounded: at most 256 enduring
    publications, 16 previews and one terminal error, whatever arrives and however slow
    the receiver is; and the two counts are what they count while the stream runs. *)
Theorem live_bounded cases :
  let l := pumpLive options cases in
  length (omap as_enduring (pending l)) ≤ 256 ∧ length (omap as_ephemeral (pending l)) ≤ 16 ∧ length (pending l) ≤ 273 ∧
  (ended l = false → enduring l = length (omap as_enduring (pending l)) ∧ ephemeral l = length (omap as_ephemeral (pending l))).
Proof.
  intros l. destruct (pumpLive_well cases) as [H1 H2 [B1 B2] (n & _ & _ & _ & _ & S5) _]. fold l in H1, H2, B1, B2, S5.
  unfold committedEgressBuffer, liveEphemeralBuffer in *. split_and!; [done|done| |].
  - rewrite length_by_kind. assert (length (filter (fun x => is_terminal x = true) (pending l)) ≤ 1) as Hp; [|lia].
    trans (length (filter (fun x => is_terminal x = true) (shown l))); [unfold shown; rewrite filter_app, length_app; lia|].
    destruct (reading l); [rewrite no_terminal by done; simpl; lia|]. destruct S5 as (front & d & -> & F & _).
    rewrite filter_app, no_terminal by done. simpl. lia.
  - intros He. destruct H1, H2; try congruence. done.
Qed.

(** Nothing is previewed that was not asked for: a preview a receiver takes is the
    projection of an ephemeral event that arrived; a piece of reasoning only when the
    subscription includes reasoning, a tool step only when it includes tool steps, and
    never a text over 2 KiB or any other kind of event. *)
Theorem live_opted_in cases p :
  LiveEphemeral p ∈ sent (pumpLive options cases) →
  ∃ d e, LDelivery d ∈ cases ∧ EventOf d = Some e ∧ ClassOf e = Ephemeral ∧ Project tenant session e = Ok (Ephemeral, p_Body p) ∧
    match e with
    | TokenDelta (TextChunk (Some text)) _ => 0 < String.length text ≤ 2048
    | TokenDelta (ThinkingChunk (Some thinking)) _ => IncludeReasoning options = true ∧ 0 < String.length thinking ≤ 2048
    | ToolCallStarted _ | ToolCallCompleted _ => IncludeToolSteps options = true
    | _ => False
    end.
Proof.
  intros Hp. destruct (pumpLive_well cases) as [_ _ _ _ HP].
  assert (p ∈ previews cases) as Hin.
  { apply (elem_of_submseteq (omap as_ephemeral (shown (pumpLive options cases)))); [|by apply sublist_submseteq].
    apply list_elem_of_omap. exists (LiveEphemeral p). split; [|done]. apply elem_of_app. by left. }
  unfold previews in Hin. apply list_elem_of_omap in Hin as (c & Hc & Hf). destruct c as [| | |d]; try done.
  destruct (EventOf d) as [e|] eqn:HE; [|done]. destruct (ClassOf e) eqn:HC; [done|]. exists d, e. split_and!; try done.
  - unfold transient in Hf. destruct (projected options e); [|done]. destruct (Project tenant session e) as [[[] body]|]; try done. by injection Hf as <-.
  - unfold transient in Hf. destruct (projected options e) eqn:Hpr; [clear Hf|done].
    assert (∀ t : string, negb (bool_decide (t = "")) && (String.length t <=? LiveBodies.MaxBytes) = true → 0 < String.length t ≤ 2048) as Hlen.
    { intros t [Ht Hl]%andb_true_iff. apply Nat.leb_le in Hl. unfold LiveBodies.MaxBytes in Hl. destruct t; [done|simpl in *; lia]. }
    destruct e as [[[t|]|[t|]|] r|r|r|r]; simpl in Hpr; try done; [by apply Hlen|].
    destruct (IncludeReasoning options); [|done]. split; [done|by apply Hlen].
Qed.
End live.
End egress.

(** ** Witnesses

    A stream that includes reasoning, a thought, a committed event, and one that lacks
    its committed fields. *)
Definition sample_class (e : Event) : Class := match e with OtherEvent _ => Enduring | _ => Ephemeral end.
Definition sample_committed (d : Delivery) : bool := negb (bool_decide (EventID d = "")).
Definition sample_project (tenant session : string) (e : Event) : res (Class * string) := Ok (Ephemeral, "preview").
Definition sample_cases : list live_case :=
  [LDelivery (mkDelivery (Some (TokenDelta (ThinkingChunk (Some "hm")) "")) "" 0 0 ""); LDelivery (mkDelivery (Some (OtherEvent "")) "e1" 7 7 "body");
   LSend; LDelivery (mkDelivery (Some (OtherEvent "")) "" 0 0 ""); LSend; LSend; LSend].

Lemma live_opted_in_witness :
  let p := mkEphemeral "t" "s" "preview" in
  LiveEphemeral p ∈ sent (pumpLive sample_class sample_committed sample_project "t" "s" (mkLiveOptions true false) sample_cases) ∧
  ∃ d e, LDelivery d ∈ sample_cases ∧ EventOf d = Some e ∧ sample_class e = Ephemeral ∧ sample_project "t" "s" e = Ok (Ephemeral, p_Body p) ∧
    match e with
    | TokenDelta (TextChunk (Some text)) _ => 0 < String.length text ≤ 2048
    | TokenDelta (ThinkingChunk (Some thinking)) _ => IncludeReasoning (mkLiveOptions true false) = true ∧ 0 < String.length thinking ≤ 2048
    | ToolCallStarted _ | ToolCallCompleted _ => IncludeToolSteps (mkLiveOptions true false) = true
    | _ => False
    end.
Proof.
  intros p. assert (LiveEphemeral p ∈ sent (pumpLive sample_class sample_committed sample_project "t" "s" (mkLiveOptions true false) sample_cases)) as H.
  { vm_compute. left. }
  split; [exact H|]. exact (live_opted_in sample_class sample_committed sample_project "t" "s" (mkLiveOptions true false) sample_cases p H).
Defined.

(** Without reasoning the thought is dropped, and counted. *)
Example without_reasoning :
  let l := pumpLive sample_class sample_committed sample_project "t" "s" (mkLiveOptions false false) sample_cases in
  sent l = [LiveEnduring (mkEnduring "t" "s" "e1" 7 7 "body"); LiveTerminal (ETyped (TMissingCommittedFieldError "" 0) None)] ∧ drops l = 1%Z ∧ ended l = true.
Proof. vm_compute. done. Qed.
End Egress.
