(* ===== verification/Composition.v ===== *)
(** * Composition.v: composing the service

    The composition root: [compose.go] (the blueprint, its validation, [Compose] and the
    exported surface), the options of [internal/compose/compose.go], the evidence router
    of [sessionstoreadapter/evidence_tenant.go], and the checks of a tenant's transport
    in [hostlink/centrifuge.go] that a composition's values reach.  Values the code only
    compares with nil are booleans; the session store, the registrar, the adapter and the
    component constructors are effects.                                            *)
From Stdlib Require Import ZArith.
From stdpp Require Import base list strings gmap.
From S2P Require Import Prelude Wire Errors Effects Department HostOptions Lifetime.

Module Composition.
Local Open Scope prog_scope.

(** ** The transport's bounds *)

Definition DefaultTransientRateBytesPerSecond : Z := 32 * 1024.
Definition DefaultTransientBurstBytes : Z := 8 * 1024.
Definition MaxTransientFrameBytes : Z := 4 * 1024.
Definition ClientQueueMaxBytes : Z := 1024 * 1024.

(** [LiveTextOptions]. *)
Record LiveTextOptions := mkLiveText { RateBytesPerSecond : Z; BurstBytes : Z; FlushInterval : Z; IncludeReasoning : bool; IncludeToolSteps : bool }.

Inductive RuntimeProfile := RuntimeProfileDurable | RuntimeProfileBestEffort | RuntimeProfileOther (n : Z).
#[export] Instance RuntimeProfile_eq_dec : EqDecision RuntimeProfile.
Proof. solve_decision. Defined.

(** [EvidenceKey], a tenant and a storage binding, and a reader or a nil one. *)
Abbreviation EvidenceKey := (string * string)%type.

(** [Collaborators], [LinkOptions], [DrainOptions] and [Composition]. *)
Record Collaborators := mkCollaborators {
  has_Backend : bool; JournalStores : gmap EvidenceKey (option nat); has_Registrar : bool; has_Checkpointer : bool;
  has_Auth : bool; has_Workspaces : bool; has_NamespaceLayout : bool; has_RigSessionIDs : bool
}.
Record LinkOptions := mkLink { PingInterval : Z; PongTimeout : Z; MaxBindingsPerLink : Z; MaxBindings : Z; MaxTenantLinks : Z }.
Record DrainOptions := mkDrain { Grace : Z; IdleBoundary : Z; PublishBound : Z }.

Record Composition := mkComposition {
  MaxCommandBodyBytes : Z; HostOptions_ : HostOptions.Options; Generation : Z; Link : LinkOptions; Drain : DrainOptions;
  LiveText : option LiveTextOptions; CompatibilityTimeout : Z; WorkPoll : Z; has_Clock : bool; Profile : RuntimeProfile;
  Collab : Collaborators
}.

(** [InvalidCompositionError]: the field it names. *)
Definition invalid (field : string) : error := ETyped (TInvalidCompositionError field) None.
Definition invalid_with (field : string) (cause : error) : error := ETyped (TInvalidCompositionError field) (Some cause).

(** [sessionstore.MaxInboxPayloadBytes] is 64 KiB and harness's limit 16 MiB. *)
Definition MaxInboxPayloadBytes : Z := 64 * 1024.
Definition MaxCommandBodyBytesLimit : Z := 16 * 1024 * 1024.

(** ** The blueprint's validation *)

Definition set_or (value default_ : Z) : Z := if (value =? 0)%Z then default_ else value.
Definition rate_of (t : LiveTextOptions) : Z := set_or (RateBytesPerSecond t) DefaultTransientRateBytesPerSecond.
Definition burst_of (t : LiveTextOptions) : Z := set_or (BurstBytes t) DefaultTransientBurstBytes.

Definition validate_live_text (t : LiveTextOptions) : option error :=
  first_problem [
    refuse_if (RateBytesPerSecond t <? 0)%Z (invalid "LiveText.RateBytesPerSecond");
    refuse_if (BurstBytes t <? 0)%Z (invalid "LiveText.BurstBytes");
    refuse_if (FlushInterval t <? 0)%Z (invalid "LiveText.FlushInterval");
    refuse_if (burst_of t <? MaxTransientFrameBytes)%Z (invalid "LiveText.BurstBytes");
    refuse_if ((ClientQueueMaxBytes <=? burst_of t)%Z || (Z.quot (ClientQueueMaxBytes - 1 - burst_of t) 30 <? rate_of t)%Z)
      (invalid (if (RateBytesPerSecond t =? 0)%Z then "LiveText.BurstBytes" else "LiveText.RateBytesPerSecond"))].

Definition supplied (o : HostOptions.Options) : list (option error) := [
  refuse_if (HostOptions.has_Department o) (invalid "Options.Department");
  refuse_if (HostOptions.has_SessionStore o) (invalid "Options.SessionStore");
  refuse_if (HostOptions.has_Workspaces o) (invalid "Options.Workspaces");
  refuse_if (HostOptions.has_Clock o) (invalid "Options.Clock");
  refuse_if (HostOptions.has_Auth o) (invalid "Options.Auth")].

Definition known_profile (p : RuntimeProfile) : bool := match p with RuntimeProfileOther _ => false | _ => true end.

Definition required (c : Collaborators) : list (option error) := [
  refuse_if (negb (has_Backend c)) (invalid "Collaborators.Backend");
  refuse_if (bool_decide (JournalStores c = ∅)) (invalid "Collaborators.JournalStores");
  refuse_if (negb (has_Registrar c)) (invalid "Collaborators.Registrar");
  refuse_if (negb (has_Checkpointer c)) (invalid "Collaborators.Checkpointer");
  refuse_if (negb (has_Auth c)) (invalid "Collaborators.Auth");
  refuse_if (negb (has_Workspaces c)) (invalid "Collaborators.Workspaces");
  refuse_if (negb (has_NamespaceLayout c)) (invalid "Collaborators.NamespaceLayout")].

Definition body_limit_refused (limit : Z) : bool :=
  negb (limit =? 0)%Z && ((limit <=? MaxInboxPayloadBytes)%Z || (MaxCommandBodyBytesLimit <? limit)%Z).

(** [Composition.validate]. *)
Definition validate (c : Composition) : option error :=
  first_problem (
    refuse_if (body_limit_refused (MaxCommandBodyBytes c)) (invalid "MaxCommandBodyBytes") ::
    match LiveText c with Some t => validate_live_text t | None => None end ::
    supplied (HostOptions_ c) ++
    [refuse_if (negb (known_profile (Profile c))) (invalid "RuntimeProfile");
     refuse_if (Generation c =? 0)%Z (invalid "Generation")] ++
    required (Collab c)).

(** ** The service's options *)

(** [compose.Options], with the values [Compose] gives them; its collaborators are set. *)
Record Options := mkOptions {
  o_LiveText : option LiveTextOptions; o_HostGeneration : Z; o_MaxCommandBodyBytes : Z; o_PingInterval : Z; o_PongTimeout : Z;
  o_MaxBindingsPerLink : Z; o_MaxBindings : Z; o_MaxTenantLinks : Z; o_Grace : Z; o_IdleBoundary : Z; o_PublishBound : Z;
  o_CompatibilityTimeout : Z; o_WorkPoll : Z; o_DeriveWorkStates : bool; has_WorkStates : bool; has_Gates : bool; has_GateReads : bool;
  has_Objects : bool; o_RegistryExpiry : Z; MaxAdvertisementTTL : Z; collaborators_set : list (string * bool)
}.

(** [compose.InvalidOptionsError]: the field it names. *)
Definition refuse_field (b : bool) (field : string) : option string := refuse_if b field.

Definition collaborator_fields : list string :=
  ["Clock"; "Leases"; "Durable"; "Locations"; "Workspaces"; "Inbox"; "Cursors"; "Records"; "Writers"; "Targets"; "Checkpointer"; "Auth"].

(** [Options.validate], of options with a host. *)
Definition compose_validate (o : Options) : option string :=
  first_problem (
    [refuse_field (body_limit_refused (o_MaxCommandBodyBytes o)) "MaxCommandBodyBytes";
     refuse_field (o_HostGeneration o =? 0)%Z "HostGeneration"] ++
    ((fun f => refuse_field (negb f.2) f.1) <$> collaborators_set o) ++
    [refuse_field (o_DeriveWorkStates o && has_WorkStates o) "DeriveWorkStates";
     refuse_field (o_DeriveWorkStates o && negb (has_Gates o)) "DeriveWorkStates";
     refuse_field (o_MaxBindingsPerLink o <=? 0)%Z "MaxBindingsPerLink";
     refuse_field (o_MaxBindings o <=? 0)%Z "MaxBindings";
     refuse_field (o_MaxTenantLinks o <=? 0)%Z "MaxTenantLinks";
     refuse_field (o_Grace o <=? 0)%Z "Grace"; refuse_field (o_IdleBoundary o <=? 0)%Z "IdleBoundary";
     refuse_field (o_PublishBound o <=? 0)%Z "PublishBound"; refuse_field (o_CompatibilityTimeout o <=? 0)%Z "CompatibilityTimeout";
     refuse_field (o_WorkPoll o <=? 0)%Z "WorkPoll"; refuse_field (MaxAdvertisementTTL o <? o_RegistryExpiry o)%Z "Host.RegistryExpiry"]).

(** The options [Compose] builds: every collaborator is a component it made. *)
Definition options_of (c : Composition) (ttl : Z) : Options :=
  mkOptions (LiveText c) (Generation c) (MaxCommandBodyBytes c) (PingInterval (Link c)) (PongTimeout (Link c))
    (MaxBindingsPerLink (Link c)) (MaxBindings (Link c)) (MaxTenantLinks (Link c)) (Grace (Drain c)) (IdleBoundary (Drain c)) (PublishBound (Drain c))
    (CompatibilityTimeout c) (WorkPoll c) true false true true true (HostOptions.RegistryExpiry (HostOptions_ c)) ttl
    ((fun f => (f, true)) <$> collaborator_fields).

(** [exportComposeError], of a refused option. *)
Definition export_field (field : string) : string :=
  if existsb (String.eqb field) ["PingInterval"; "PongTimeout"; "MaxBindingsPerLink"; "MaxBindings"; "MaxTenantLinks"] then String.append "Link." field
  else if existsb (String.eqb field) ["Grace"; "IdleBoundary"; "PublishBound"] then String.append "Drain." field
  else if String.eqb field "HostGeneration" then "Generation" else field.

(** ** The evidence router *)

Section router.
Context (tenant_valid : string → bool).

(** [NewTenantEvidenceRouter]'s checks of an entry. *)
Definition entry_refused (e : EvidenceKey * option nat) : bool :=
  negb (tenant_valid e.1.1) || bool_decide (e.1.2 = "") || bool_decide (e.2 = None).

Definition NewTenantEvidenceRouter (readers : gmap EvidenceKey (option nat)) : option error :=
  if bool_decide (readers = ∅) then Some (EForeign "InvalidEvidenceTableError")
  else if existsb entry_refused (map_to_list readers) then Some (EForeign "InvalidEvidenceTableError")
  else None.

(** [ReadDispositionEvidence]: the reader of a request, or the unroutable refusal. *)
Definition evidence_reader (readers : gmap EvidenceKey (option nat)) (tenant binding : string) : option nat :=
  match readers !! (tenant, binding) with Some reader => reader | None => None end.
End router.

(** ** A tenant's transport *)

(** Core's capability tokens; [advertisedCapabilities]; and the tokens of a service. *)
Inductive Capability := CapabilityGateResponse | CapabilityAttributionPrincipal | CapabilityPayloadReference | CapabilityOther (token : string).
#[export] Instance Capability_eq_dec : EqDecision Capability.
Proof. solve_decision. Defined.

Definition advertisedCapabilities : list Capability := [CapabilityGateResponse; CapabilityAttributionPrincipal; CapabilityPayloadReference].

Definition capabilities (o : Options) : list Capability :=
  let base := CapabilityAttributionPrincipal :: if has_Objects o then [CapabilityPayloadReference] else [] in
  if has_Gates o && has_GateReads o then CapabilityGateResponse :: base else base.

(** [hostlink.Config], as a tenant's link sets it. *)
Record Config := mkConfig { has_Authenticator : bool; c_TenantID : string; c_PingInterval : Z; c_PongTimeout : Z; c_Capabilities : list Capability; c_Rate : Z; c_Burst : Z }.

Definition live_text_rate (o : Options) : Z := match o_LiveText o with Some t => RateBytesPerSecond t | None => 0 end.
Definition live_text_burst (o : Options) : Z := match o_LiveText o with Some t => BurstBytes t | None => 0 end.

(** The configuration of [buildTenantLink]. *)
Definition link_config (o : Options) (tenant : string) : Config :=
  mkConfig true tenant (o_PingInterval o) (o_PongTimeout o) (capabilities o) (live_text_rate o) (live_text_burst o).

Definition second : Z := 1000000000.

Fixpoint capability_refused (before capabilities : list Capability) : bool :=
  match capabilities with
  | [] => false
  | c :: rest => bool_decide (c ∉ advertisedCapabilities) || bool_decide (c ∈ before) || capability_refused (before ++ [c]) rest
  end.

Section transport.
Context (tenant_valid : string → bool).

(** [NewCentrifugeServer]'s checks. *)
Definition server_refused (c : Config) : option error :=
  first_problem [
    refuse_if (negb (has_Authenticator c)) (EForeign "hostlink: authenticator is required");
    refuse_if (negb (tenant_valid (c_TenantID c))) (EForeign "hostlink: tenant ID is invalid");
    refuse_if ((c_PingInterval c <? 0)%Z || (c_PongTimeout c <? 0)%Z) (EForeign "hostlink: heartbeat durations must not be negative");
    refuse_if (negb (Bool.eqb (c_PingInterval c =? 0)%Z (c_PongTimeout c =? 0)%Z)) (EForeign "hostlink: ping interval and pong timeout must be configured together");
    refuse_if ((0 <? c_PingInterval c)%Z && (c_PingInterval c <? second)%Z) (EForeign "hostlink: ping interval must be at least one second");
    refuse_if ((0 <? c_PingInterval c)%Z && (0 <? c_PongTimeout c)%Z && (c_PingInterval c <=? c_PongTimeout c)%Z)
      (EForeign "hostlink: pong timeout must be shorter than ping interval");
    refuse_if (capability_refused [] (c_Capabilities c)) (EForeign "hostlink: capability");
    refuse_if ((c_Rate c <? 0)%Z || (c_Burst c <? 0)%Z) (EForeign "hostlink: transient rate and burst must be positive")].
End transport.

(** ** Composing *)

(** What [Compose] and [Run] ask of their collaborators.  [COpen] is
    [sessionstore.Open]; [CConstruct] is what the component constructors of
    [compose.New] answer; [CPublish] is the first advertisement; [CServe] is the
    listener's error, or the end of the context; [CDrain] is the service's drain. *)
Inductive CE : Type → Type :=
| COpen : CE (option error)
| CCloseStore : CE (option error)
| CRegister : CE (res (list Department.Registration))
| CAdapt : CE (option error)
| CTargetTTL : CE Z
| CConstruct (o : Options) : CE (option error)
| CPublish : CE (option error)
| CServe : CE (option error)
| CDrain : CE (res (list error))
| CShutdown : CE (option error).

(** The lack of a recovery a target does not declare. *)
Definition undeclaredRecovery (registrations : list Department.Registration) : list (string * list string) :=
  omap (fun r =>
    match Department.Target_ r with
    | None => None
    | Some t =>
        let recovery := Department.Recov (Department.target_capabilities t) in
        match (if Department.AttemptCloser recovery then [] else ["AttemptCloser"]) ++ (if Department.PersistenceFaults recovery then [] else ["PersistenceFaults"]) with
        | [] => None
        | lacks => Some (Department.AgentID r, lacks)
        end
    end) registrations.

(** [Service]: its options, the Host's, the Department, and the best-effort warning. *)
Record Service := mkService { s_options : Options; s_host : HostOptions.Options; s_department : Department.Department; bestEffort : option (list (string * list string)) }.

(** The blueprint's Host options with the collaborators [Compose] supplies. *)
Definition host_options (c : Composition) : HostOptions.Options :=
  let o := HostOptions_ c in
  HostOptions.mkOptions (HostOptions.HostID o) (HostOptions.InternalEndpoint o) (HostOptions.IsolationClass o) true true
    (has_Workspaces (Collab c)) true (has_Auth (Collab c)) (HostOptions.Placement o) (HostOptions.Capacity o) (HostOptions.FixedSessionID o)
    (HostOptions.WarmTTL o) (HostOptions.RegistryHeartbeat o) (HostOptions.RegistryExpiry o) (HostOptions.ClaimTTL o) (HostOptions.ApplyDeadline o)
    (HostOptions.CommandQueueSize o) (HostOptions.ReconcileInterval o) (HostOptions.ReconcileBatch o).

Definition is_option_error (e : error) : bool :=
  bool_decide (is_Some (errors_as (fun t => match t with TOtherError n => if decide (n = "sessionstore.InvalidOptionError") then Some tt else None | _ => None end) e)).

Section compose.
Context (tenant_valid : string → bool) (IsRuntimeJournal : nat → bool).
Context (MaxIDBytes : nat) (agent_id_valid : string → bool).
Context (host_New : HostOptions.Options → HostOptions.InvalidOptionsError + HostOptions.Options).

(** What is left of [Compose] once its store is open. *)
Definition compose_open (c : Composition) : prog CE (res Service) :=
  let refuse e := do! call CCloseStore in Ret (Err e) in
  let! registrations := call CRegister in
  match registrations with
  | Err err => refuse (invalid_with "Collaborators.Registrar" err)
  | Ok registrations =>
      match Department.New MaxIDBytes agent_id_valid registrations with
      | inl _ => refuse (invalid "Collaborators.Registrar")
      | inr dept =>
          let undeclared := undeclaredRecovery registrations in
          if bool_decide (Profile c = RuntimeProfileDurable) && negb (bool_decide (undeclared = [])) then refuse (invalid "Collaborators.Registrar")
          else
            let! err := call CAdapt in
            match err with
            | Some err => refuse (invalid_with "Collaborators.Backend" err)
            | None =>
                match host_New (host_options c) with
                | inl e => refuse (EForeign "host.InvalidOptionsError")
                | inr host =>
                    let! ttl := call CTargetTTL in
                    let o := options_of c ttl in
                    match compose_validate o with
                    | Some field => refuse (invalid (export_field field))
                    | None =>
                        let! err := call (CConstruct o) in
                        match err with
                        | Some err => refuse err
                        | None => Ret (Ok (mkService o host dept (if bool_decide (Profile c = RuntimeProfileBestEffort) then Some undeclared else None)))
                        end
                    end
                end
            end
      end
  end.

(** [Compose]. *)
Definition Compose (c : Composition) : prog CE (res Service) :=
  match validate c with
  | Some err => Ret (Err err)
  | None =>
      match NewTenantEvidenceRouter tenant_valid (JournalStores (Collab c)) with
      | Some err => Ret (Err (invalid_with "Collaborators.JournalStores" err))
      | None =>
          if existsb (fun e => negb (default false (IsRuntimeJournal <$> e.2))) (map_to_list (JournalStores (Collab c)))
          then Ret (Err (invalid "Collaborators.JournalStores"))
          else
            let! err := call COpen in
            match err with
            | Some err => Ret (Err (invalid_with (if is_option_error err then "Collaborators.StoreOptions" else "Collaborators.Backend") err))
            | None => compose_open c
            end
      end
  end.

(** [Service.Stop], of a service whose lifecycle is [s]: the failures it reports. *)
Definition Stop (s : Lifetime.Service) : prog CE (res (list error)) :=
  match Lifetime.StartDrain s with
  | (Some err, _) => Ret (Err err)
  | (None, _) =>
      let! report := call CDrain in
      match report with
      | Err err => Ret (Err err)
      | Ok failures =>
          let! err := call CCloseStore in
          Ret (Ok (failures ++ option_list err))
      end
  end.

(** [Run] once its service is composed.  A link may begin a drain meanwhile, but starting
    and disposing are this goroutine's alone, and they are all [Stop] reads of the
    service. *)
Definition serving : prog CE (option error) :=
  match Lifetime.Start Lifetime.New with
  | (Some err, s) => do! Stop s in Ret (Some err)
  | (None, s) =>
      let! published := call CPublish in
      let s := Lifetime.Started published s in
      match published with
      | Some err => do! Stop s in Ret (Some err)
      | None =>
          let! served := call CServe in
          match served with
          | Some err => do! Stop s in Ret (Some err)
          | None =>
              let! report := Stop s in
              let! shutdown := call CShutdown in
              Ret (errors_join (match report with Err err => [Some err; shutdown] | Ok failures => [None; shutdown] ++ (Some <$> failures) end))
          end
      end
  end.

(** [Run]. *)
Definition Run (c : Composition) : prog CE (option error) :=
  let! service := Compose c in
  match service with Err err => Ret (Some err) | Ok _ => serving end.

(** ** The store is closed once *)

Definition opened (o : obs CE) : bool :=
  match o with Obs e x => match e in CE X return X → bool with COpen => fun err => bool_decide (err = None) | _ => fun _ => false end x end.
Definition closed (o : obs CE) : bool :=
  match o with Obs e _ => match e with CCloseStore => true | _ => false end end.
Definition publication_error (o : obs CE) : option error :=
  match o with Obs e x => match e in CE X return X → option error with CPublish => fun err => err | _ => fun _ => None end x end.
Definition publication_refused (o : obs CE) : bool :=
  match o with Obs e x => match e in CE X return X → bool with CPublish => fun err => bool_decide (err ≠ None) | _ => fun _ => false end x end.
Definition drain_refused (o : obs CE) : bool :=
  match o with Obs e x => match e in CE X return X → bool with CDrain => fun r => negb (is_ok r) | _ => fun _ => false end x end.

(** What a composed service is made of. *)
Record composed (c : Composition) (svc : Service) : Prop := {
  cm_valid : validate c = None;
  cm_host : host_New (host_options c) = inr (s_host svc);
  cm_options : (∃ ttl, s_options svc = options_of c ttl) ∧ compose_validate (s_options svc) = None;
  cm_recovery : Profile c = RuntimeProfileDurable → ∀ agent t, Department.Target (s_department svc) agent = Some t →
    Department.Complete (Department.Recov (Department.target_capabilities t)) = true;
  cm_readers : ∀ tenant binding reader, JournalStores (Collab c) !! (tenant, binding) = Some reader →
    tenant_valid tenant = true ∧ binding ≠ "" ∧ ∃ r, reader = Some r ∧ IsRuntimeJournal r = true
}.

Lemma undeclared_nil rs r t :
  undeclaredRecovery rs = [] → r ∈ rs → Department.Target_ r = Some t → Department.Complete (Department.Recov (Department.target_capabilities t)) = true.
Proof.
  unfold undeclaredRecovery. intros Hn Hr Ht. apply list_elem_of_split in Hr as (l1 & l2 & ->). rewrite omap_app in Hn. apply app_eq_nil in Hn as [_ Hn].
  unfold Department.Complete. simpl in Hn. rewrite Ht in Hn. by destruct (Department.AttemptCloser _), (Department.PersistenceFaults _).
Qed.

Lemma closing_refusal t e r : runs (do! call CCloseStore in @Ret CE (res Service) (Err e)) t r →
  ∃ x, t = [Obs CCloseStore x] ∧ r = Err e.
Proof. intros (x & t1 & -> & -> & ->)%runs_call. eauto. Qed.

Ltac refused := match goal with H : runs _ _ _ |- _ => apply closing_refusal in H as (? & -> & ->); done end.

Lemma compose_open_spec c t r :
  validate c = None →
  (∀ tenant binding reader, JournalStores (Collab c) !! (tenant, binding) = Some reader →
     tenant_valid tenant = true ∧ binding ≠ "" ∧ ∃ x, reader = Some x ∧ IsRuntimeJournal x = true) →
  runs (compose_open c) t r →
  count opened t = 0 ∧ match r with Ok svc => count closed t = 0 ∧ composed c svc | Err _ => count closed t = 1 end.
Proof.
  intros Hv Hj (registrations & t1 & -> & H)%runs_call. destruct registrations as [registrations|err]; [|refused].
  destruct (Department.New _ _ registrations) as [e|dept] eqn:Hd; [refused|]. cbv zeta in H.
  destruct (bool_decide (Profile c = RuntimeProfileDurable) && _) eqn:Hp; [refused|].
  apply runs_call in H as (err & t2 & -> & H). destruct err as [err|]; [refused|].
  destruct (host_New (host_options c)) as [e|host] eqn:Hh; [refused|]. apply runs_call in H as (ttl & t3 & -> & H).
  destruct (compose_validate (options_of c ttl)) as [field|] eqn:Ho; [refused|]. apply runs_call in H as (err & t4 & -> & H).
  destruct err as [err|]; [refused|]. destruct H as [-> ->]. split; [done|]. split; [done|]. split; simpl; try done; [split; [by exists ttl|done]|].
  intros Hdur agent target Ht. rewrite bool_decide_eq_true_2 in Hp by done. simpl in Hp. apply negb_false_iff, bool_decide_eq_true in Hp.
  unfold Department.New in Hd. destruct (length registrations =? 0); [done|]. destruct (Department.register_all _ _ _ _) as [e|ts] eqn:Hr; [done|].
  injection Hd as <-. apply Department.register_all_inr in Hr as (Hts & _). apply Hts in Ht as [Ht|Ht]; [done|]. by eapply undeclared_nil.
Qed.

Lemma JournalStores_checked readers :
  NewTenantEvidenceRouter tenant_valid readers = None →
  existsb (fun e => negb (default false (IsRuntimeJournal <$> e.2))) (map_to_list readers) = false →
  ∀ tenant binding reader, readers !! (tenant, binding) = Some reader →
    tenant_valid tenant = true ∧ binding ≠ "" ∧ ∃ x, reader = Some x ∧ IsRuntimeJournal x = true.
Proof.
  unfold NewTenantEvidenceRouter. case_bool_decide; [done|]. destruct (existsb (entry_refused tenant_valid) (map_to_list readers)) eqn:He; [done|].
  intros _ Hj tenant binding reader Hl. assert (∀ f, existsb f (map_to_list readers) = false → f ((tenant, binding), reader) = false) as Hall.
  { intros f Hf. apply not_true_iff_false. intros Ht. apply not_true_iff_false in Hf. apply Hf, existsb_exists. exists ((tenant, binding), reader).
    split; [|done]. by apply list_elem_of_In, elem_of_map_to_list. }
  apply Hall in He, Hj. unfold entry_refused in He. simpl in *. destruct (tenant_valid tenant); [|done]. simpl in He.
  case_bool_decide; [done|]. case_bool_decide; [done|]. destruct reader as [x|]; [|done]. simpl in Hj. split_and!; [done|done|].
  exists x. by destruct (IsRuntimeJournal x).
Qed.

Lemma Compose_runs c t r :
  runs (Compose c) t r →
  match r with
  | Ok svc => count opened t = 1 ∧ count closed t = 0 ∧ composed c svc
  | Err _ => count closed t = count opened t ∧ (validate c ≠ None → t = [])
  end.
Proof.
  unfold Compose. destruct (validate c) as [e|] eqn:Hv; [by intros [-> ->]|]. destruct (NewTenantEvidenceRouter _ _) eqn:Hr; [by intros [-> ->]|].
  destruct (existsb _ _) eqn:Hj; [by intros [-> ->]|]. intros (err & t1 & -> & H)%runs_call. destruct err as [err|]; [by destruct H as [-> ->]|].
  apply compose_open_spec in H as [Ho H]; [|done|by apply JournalStores_checked]. change (Obs COpen None :: t1) with ([Obs COpen None] ++ t1). rewrite (count_app opened), (count_app closed).
  assert (count opened [Obs COpen None] = 1 ∧ count closed [Obs COpen None] = 0) as [-> ->] by done.
  destruct r as [svc|e]; rewrite Ho; [|split; [lia|done]]. destruct H as [H1 H2]. split_and!; [done|lia|done].
Qed.

(** C11 A composition keeps its store or closes it.  A refused one has closed the store as
    often as it opened it, and a blueprint that does not validate touches nothing; a
    composed service holds the one store that was opened, under a blueprint every check
    accepted: under the durable profile every target declares both halves of its
    recovery, and every evidence reader is a runtime journal of a permitted tenant. *)
Theorem compose_keeps_or_closes c t r :
  runs (Compose c) t r →
  match r with
  | Ok svc => count opened t = 1 ∧ count closed t = 0 ∧ composed c svc
  | Err _ => count closed t = count opened t ∧ (validate c ≠ None → t = [])
  end.
Proof. apply Compose_runs. Qed.

Lemma Compose_quiet c t r : runs (Compose c) t r → count drain_refused t = 0 ∧ count publication_refused t = 0.
Proof.
  intros H. assert (safe any_env (fun _ o => drain_refused o = false ∧ publication_refused o = false) (fun _ _ => True) [] (Compose c)) as Hs.
  { unfold Compose, compose_open. repeat (symbolic_step || (split; [done|]) || intros ? || done). }
  destruct (safe_runs_any _ _ _ _ _ Hs H) as [_ Hall]. clear H Hs.
  assert (∀ f : obs CE → bool, (∀ t1 o t2, t = t1 ++ o :: t2 → f o = false) → count f t = 0) as Hc.
  { intros f Hf. unfold count. rewrite list_filter_none; [done|]. rewrite Forall_forall. intros o (l1 & l2 & ->)%list_elem_of_split.
    by rewrite (Hf l1 o l2 eq_refl). }
  split; apply Hc; intros t1 o t2 Ht; by destruct (Hall t1 o t2 Ht).
Qed.

Lemma Stop_runs s t r : runs (Stop s) t r →
  count opened t = 0 ∧ count publication_refused t = 0 ∧
  (match (Lifetime.StartDrain s).1 with
   | Some err => t = [] ∧ r = Err err
   | None => count closed t + count drain_refused t = 1 ∧ (count drain_refused t = 0 ↔ is_ok r = true)
   end).
Proof.
  unfold Stop. destruct (Lifetime.StartDrain s) as [[err|] s']; [by intros [-> ->]|]. intros (report & t1 & -> & H)%runs_call.
  destruct report as [failures|err].
  - destruct H as (x & t2 & -> & -> & ->). done.
  - destruct H as [-> ->]. done.
Qed.

Lemma Stop_started t r : runs (Stop (Lifetime.Started None (Lifetime.with_flags false true false false false Lifetime.New))) t r →
  count opened t = 0 ∧ count publication_refused t = 0 ∧ count closed t + count drain_refused t = 1.
Proof. intros (H1 & H2 & H3)%Stop_runs. simpl in H3. by destruct H3. Qed.

Lemma served_runs t r :
  runs serving t r →
  (∃ err, t = [Obs CPublish (Some err)] ∧ r = Some err) ∨
  (count opened t = 0 ∧ count closed t + count drain_refused t = 1) ∧ count publication_refused t = 0.
Proof.
  intros (published & t1 & -> & H)%runs_call. destruct published as [err|].
  - left. apply runs_bind in H as (t2 & t3 & x & -> & H & [-> ->]). apply Stop_runs in H as (_ & _ & [-> _]). by exists err.
  - right. change (Obs CPublish None :: t1) with ([Obs CPublish None] ++ t1).
    rewrite (count_app opened), (count_app closed), (count_app drain_refused), (count_app publication_refused).
    assert (count opened [Obs CPublish None] = 0 ∧ count closed [Obs CPublish None] = 0 ∧ count drain_refused [Obs CPublish None] = 0 ∧
      count publication_refused [Obs CPublish None] = 0) as (-> & -> & -> & ->) by done. simpl.
    apply runs_call in H as (served & t2 & -> & H). change (Obs CServe served :: t2) with ([Obs CServe served] ++ t2).
    rewrite (count_app opened), (count_app closed), (count_app drain_refused), (count_app publication_refused).
    assert (count opened [Obs CServe served] = 0 ∧ count closed [Obs CServe served] = 0 ∧ count drain_refused [Obs CServe served] = 0 ∧
      count publication_refused [Obs CServe served] = 0) as (-> & -> & -> & ->) by done. simpl.
    destruct served as [err|]; apply runs_bind in H as (t3 & t4 & x & -> & H & H4); apply Stop_started in H as (S1 & S2 & S3);
      rewrite (count_app opened), (count_app closed), (count_app drain_refused), (count_app publication_refused).
    + destruct H4 as [-> _]. by rewrite S1, S2, !Nat.add_0_r.
    + destruct H4 as (y & t5 & -> & -> & _). by rewrite S1, S2, !Nat.add_0_r.
Qed.

(** A host that runs closes the store it opened exactly once, unless its first
    advertisement or its drain is refused. *)
Theorem run_closes_once c t r :
  runs (Run c) t r → count opened t = 1 →
  count closed t + count drain_refused t + count publication_refused t = 1.
Proof.
  intros (t1 & t2 & service & -> & H1 & H2)%runs_bind. pose proof (Compose_quiet _ _ _ H1) as [Q1 Q2]. apply Compose_runs in H1.
  rewrite !count_app, Q1, Q2. destruct service as [svc|err].
  - destruct H1 as (-> & -> & _). intros Ho. destruct (served_runs _ _ H2) as [(err & -> & ->)|(H3 & H4)]; [done|]. lia.
  - destruct H2 as [-> ->]. destruct H1 as [-> _]. change (count opened []) with 0. change (count closed []) with 0.
    change (count drain_refused []) with 0. change (count publication_refused []) with 0. lia.
Qed.

(** A host whose first advertisement is refused leaks its store: [Run] answers the
    refusal, and the [Stop] it cleans up with is refused by a service that never
    started, so the store [Compose] opened is never closed. *)
Theorem failed_start_leaks c t r err :
  runs (Run c) t r → Obs CPublish (Some err) ∈ t → r = Some err ∧ count opened t = 1 ∧ count closed t = 0.
Proof.
  intros (t1 & t2 & service & -> & H1 & H2)%runs_bind Hin. pose proof (Compose_quiet _ _ _ H1) as [Q1 Q2]. apply Compose_runs in H1.
  assert (Obs CPublish (Some err) ∈ t2) as Hin2.
  { apply elem_of_app in Hin as [Hin|Hin]; [|done]. exfalso. apply list_elem_of_split in Hin as (l1 & l2 & ->). rewrite count_app in Q2.
    unfold count in Q2. simpl in Q2. lia. }
  destruct service as [svc|e]; [|destruct H2 as [-> _]; by apply elem_of_nil in Hin2]. destruct H1 as (H3 & H4 & _).
  rewrite !count_app, H3, H4. destruct (served_runs _ _ H2) as [(err' & -> & ->)|(H5 & H6)].
  - apply list_elem_of_singleton in Hin2. apply (f_equal publication_error) in Hin2. simpl in Hin2. injection Hin2 as <-. done.
  - exfalso. apply list_elem_of_split in Hin2 as (l1 & l2 & ->). rewrite count_app in H6. unfold count in H6. simpl in H6. lia.
Qed.
End compose.

(** ** The bounds of live text *)

(** C40 The arithmetic of the live-text check neither wraps nor rounds: what it accepts is
    exactly what fits, an effective burst of at least one frame and a client queue that
    half a minute at the effective rate cannot fill. *)
Theorem live_text_accepted t :
  validate_live_text t = None ↔
  (0 ≤ RateBytesPerSecond t)%Z ∧ (0 ≤ BurstBytes t)%Z ∧ (0 ≤ FlushInterval t)%Z ∧
  (MaxTransientFrameBytes ≤ burst_of t)%Z ∧ (burst_of t + 30 * rate_of t < ClientQueueMaxBytes)%Z.
Proof.
  unfold validate_live_text. rewrite first_problem_None, !Forall_cons, !refuse_if_None, Forall_nil, orb_false_iff, !Z.ltb_ge, Z.leb_gt.
  unfold MaxTransientFrameBytes, ClientQueueMaxBytes. change (4 * 1024)%Z with 4096%Z. change (1024 * 1024)%Z with 1048576%Z.
  destruct (Z_lt_le_dec (burst_of t) 1048576) as [Hb|Hb].
  - rewrite Z.quot_div_nonneg by lia. pose proof (Z.div_mod (1048576 - 1 - burst_of t) 30). pose proof (Z.mod_pos_bound (1048576 - 1 - burst_of t) 30). lia.
  - assert (0 ≤ RateBytesPerSecond t → 0 ≤ rate_of t)%Z as Hr by (unfold rate_of, set_or, DefaultTransientRateBytesPerSecond; destruct (RateBytesPerSecond t =? 0)%Z; lia).
    split; [lia|]. intros (H1 & H2 & H3 & H4 & H5). specialize (Hr H1). lia.
Qed.

(** ** What composing leaves unchecked *)

Definition with_heartbeat (c : Composition) (ping pong : Z) : Composition :=
  mkComposition (MaxCommandBodyBytes c) (HostOptions_ c) (Generation c)
    (mkLink ping pong (MaxBindingsPerLink (Link c)) (MaxBindings (Link c)) (MaxTenantLinks (Link c))) (Drain c) (LiveText c)
    (CompatibilityTimeout c) (WorkPoll c) (has_Clock c) (Profile c) (Collab c).

(** A heartbeat the transport accepts: none, or a ping of a second or more with a shorter
    pong. *)
Definition heartbeat_ok (ping pong : Z) : Prop := ping = 0%Z ∧ pong = 0%Z ∨ (second ≤ ping ∧ 0 < pong < ping)%Z.

Lemma capabilities_advertised o : capability_refused [] (capabilities o) = false.
Proof. unfold capabilities. by destruct (has_Objects o), (has_Gates o && has_GateReads o). Qed.

(** Every value of a composed service that reaches a tenant's transport was checked when
    it was composed, but the heartbeat: a permitted tenant's transport is refused
    exactly when the heartbeat is not one the transport accepts, and no check of the
    composition reads the heartbeat at all. *)
Theorem heartbeat_unchecked tenant_valid IsRuntimeJournal host_New c svc tenant
    (Hsvc : composed tenant_valid IsRuntimeJournal host_New c svc) (Htenant : tenant_valid tenant = true) :
  (server_refused tenant_valid (link_config (s_options svc) tenant) = None ↔ heartbeat_ok (PingInterval (Link c)) (PongTimeout (Link c))) ∧
  ∀ ping pong, validate (with_heartbeat c ping pong) = validate c ∧ host_options (with_heartbeat c ping pong) = host_options c ∧
    ∀ ttl, compose_validate (options_of (with_heartbeat c ping pong) ttl) = compose_validate (options_of c ttl).
Proof.
  destruct Hsvc as [Hv _ [[ttl ->] _] _ _]. split; [|done]. unfold server_refused. rewrite first_problem_None, !Forall_cons, !refuse_if_None, Forall_nil.
  unfold link_config. cbn [has_Authenticator c_TenantID c_PingInterval c_PongTimeout c_Capabilities c_Rate c_Burst o_PingInterval o_PongTimeout options_of].
  rewrite capabilities_advertised, Htenant.
  assert ((live_text_rate (options_of c ttl) <? 0)%Z || (live_text_burst (options_of c ttl) <? 0)%Z = false) as ->.
  { unfold validate in Hv. rewrite first_problem_None, !Forall_cons in Hv. destruct Hv as (_ & Hv & _). unfold live_text_rate, live_text_burst. simpl.
    destruct (LiveText c) as [t|]; [|done]. unfold validate_live_text in Hv. rewrite first_problem_None, !Forall_cons, !refuse_if_None in Hv.
    by destruct Hv as (-> & -> & _). }
  unfold heartbeat_ok, second. set (p := PingInterval (Link c)). set (q := PongTimeout (Link c)). clearbody p q. simpl.
  rewrite orb_false_iff, !andb_false_iff, negb_false_iff, eqb_true_iff, !Z.ltb_ge, Z.leb_gt.
  destruct (Z.eqb_spec p 0), (Z.eqb_spec q 0); (split; [intros (_ & _ & ? & ? & ? & ? & _); try done; lia|]); intros ?; split_and!; try done; lia.
Qed.

(** ** Witnesses *)

Definition sample_target : Department.LaunchTarget := Department.mkTarget "t" "v1" Department.sample_capabilities.
Definition sample_link : LinkOptions := mkLink 0 0 8 64 4.
Definition sample_drain : DrainOptions := mkDrain 30 5 2.
Definition sample_collaborators : Collaborators := mkCollaborators true {[("tenant", "binding") := Some 1]} true true true true true false.
Definition unsupplied (o : HostOptions.Options) : HostOptions.Options :=
  HostOptions.mkOptions (HostOptions.HostID o) (HostOptions.InternalEndpoint o) (HostOptions.IsolationClass o) false false false false false
    (HostOptions.Placement o) (HostOptions.Capacity o) (HostOptions.FixedSessionID o) (HostOptions.WarmTTL o) (HostOptions.RegistryHeartbeat o)
    (HostOptions.RegistryExpiry o) (HostOptions.ClaimTTL o) (HostOptions.ApplyDeadline o) (HostOptions.CommandQueueSize o)
    (HostOptions.ReconcileInterval o) (HostOptions.ReconcileBatch o).
Definition sample_composition : Composition :=
  mkComposition 0 (unsupplied HostOptions.sample_options) 7 sample_link sample_drain (Some (mkLiveText 0 0 0 false false)) 10 1 true RuntimeProfileDurable sample_collaborators.

Definition ask_ok (published : option error) : handler CE unit := fun X e u =>
  match e in CE X return X * unit with
  | COpen => (None, u) | CCloseStore => (None, u)
  | CRegister => (Ok [Department.mkRegistration "agent" (Some sample_target)], u)
  | CAdapt => (None, u) | CTargetTTL => (HostOptions.RegistryExpiry HostOptions.sample_options, u) | CConstruct _ => (None, u)
  | CPublish => (published, u) | CServe => (None, u) | CDrain => (Ok [], u) | CShutdown => (None, u)
  end.

Definition sample_host_New (o : HostOptions.Options) : HostOptions.InvalidOptionsError + HostOptions.Options := inr o.
Definition sample_compose := Compose (fun _ => true) (fun _ => true) 512 (fun _ => true) sample_host_New sample_composition.
Definition sample_run := Run (fun _ => true) (fun _ => true) 512 (fun _ => true) sample_host_New sample_composition.
Definition sample_service : option Service := match (exec (ask_ok None) sample_compose tt).1.1 with Ok svc => Some svc | Err _ => None end.

Lemma sample_compose_runs : runs sample_compose (exec (ask_ok None) sample_compose tt).2 (exec (ask_ok None) sample_compose tt).1.1.
Proof. apply (exec_runs (ask_ok None) sample_compose tt _ (exec (ask_ok None) sample_compose tt).1.2). by destruct (exec (ask_ok None) sample_compose tt) as [[? ?] ?]. Qed.

Lemma sample_run_runs published : runs sample_run (exec (ask_ok published) sample_run tt).2 (exec (ask_ok published) sample_run tt).1.1.
Proof. apply (exec_runs (ask_ok published) sample_run tt _ (exec (ask_ok published) sample_run tt).1.2). by destruct (exec (ask_ok published) sample_run tt) as [[? ?] ?]. Qed.

Lemma compose_keeps_or_closes_witness :
  is_ok (exec (ask_ok None) sample_compose tt).1.1 = true ∧
  match (exec (ask_ok None) sample_compose tt).1.1 with
  | Ok svc => count opened (exec (ask_ok None) sample_compose tt).2 = 1 ∧ count closed (exec (ask_ok None) sample_compose tt).2 = 0 ∧
      composed (fun _ => true) (fun _ => true) sample_host_New sample_composition svc
  | Err _ => count closed (exec (ask_ok None) sample_compose tt).2 = count opened (exec (ask_ok None) sample_compose tt).2 ∧
      (validate sample_composition ≠ None → (exec (ask_ok None) sample_compose tt).2 = [])
  end.
Proof.
  split; [vm_compute; reflexivity|].
  exact (compose_keeps_or_closes (fun _ => true) (fun _ => true) 512 (fun _ => true) sample_host_New sample_composition _ _ sample_compose_runs).
Defined.

Lemma run_closes_once_witness :
  count closed (exec (ask_ok None) sample_run tt).2 + count drain_refused (exec (ask_ok None) sample_run tt).2 +
    count publication_refused (exec (ask_ok None) sample_run tt).2 = 1.
Proof.
  refine (run_closes_once (fun _ => true) (fun _ => true) 512 (fun _ => true) sample_host_New sample_composition _ _ (sample_run_runs None) _).
  vm_compute. reflexivity.
Defined.

Lemma failed_start_leaks_witness :
  let t := (exec (ask_ok (Some (EForeign "directory"))) sample_run tt).2 in
  count opened t = 1 ∧ count closed t = 0.
Proof.
  refine (proj2 (failed_start_leaks (fun _ => true) (fun _ => true) 512 (fun _ => true) sample_host_New sample_composition
    _ _ (EForeign "directory") (sample_run_runs (Some (EForeign "directory"))) _)).
  vm_compute. repeat (left || right).
Defined.

Lemma heartbeat_unchecked_witness :
  ∃ svc, sample_service = Some svc ∧
  (server_refused (fun _ => true) (link_config (s_options svc) "tenant") = None ↔ heartbeat_ok 0 0) ∧
  ∀ ping pong, validate (with_heartbeat sample_composition ping pong) = validate sample_composition ∧
    host_options (with_heartbeat sample_composition ping pong) = host_options sample_composition ∧
    ∀ ttl, compose_validate (options_of (with_heartbeat sample_composition ping pong) ttl) = compose_validate (options_of sample_composition ttl).
Proof.
  pose proof sample_compose_runs as H. apply Compose_runs in H.
  destruct sample_service as [svc|] eqn:Hs; [|by vm_compute in Hs]. exists svc. split; [done|]. unfold sample_service in Hs.
  destruct (exec (ask_ok None) sample_compose tt).1.1 as [svc'|e]; [|done]. injection Hs as ->. destruct H as (_ & _ & H).
  exact (heartbeat_unchecked (fun _ => true) (fun _ => true) sample_host_New sample_composition svc "tenant" H eq_refl).
Defined.
End Composition.
