(* ===== verification/Floats.v ===== *)
(** * Floats.v: Go's float64

    IEEE doubles, computed with the Standard Library's [SpecFloat] as Go computes
    them: the operations the program performs and its conversions from and to
    integers.                                                                   *)
From Stdlib Require Import ZArith SpecFloat.
From stdpp Require Import base list.
From S2P Require Import Prelude.

Module Floats.

Abbreviation float64 := spec_float.
Definition fadd : float64 → float64 → float64 := SFadd 53 1024.
Definition fsub : float64 → float64 → float64 := SFsub 53 1024.
Definition fmul : float64 → float64 → float64 := SFmul 53 1024.
Definition fdiv : float64 → float64 → float64 := SFdiv 53 1024.
Definition of_int (z : Z) : float64 := binary_normalize 53 1024 z 0 false.

(** [uint64(x)] of a float that is not negative: its integer part. *)
Definition to_uint (x : float64) : Z :=
  match x with
  | S754_finite false m e => if (0 <=? e)%Z then Z.shiftl (Zpos m) e else Z.shiftr (Zpos m) (- e)
  | _ => 0%Z
  end.

(** The built-in [min]. *)
Definition fmin (x y : float64) : float64 :=
  match x, y with
  | S754_nan, _ | _, S754_nan => S754_nan
  | S754_zero sx, S754_zero sy => S754_zero (sx || sy)
  | _, _ => if SFltb y x then y else x
  end.

Example half_truncates : to_uint (fdiv (of_int 7) (of_int 2)) = 3%Z.
Proof. vm_compute. done. Qed.

End Floats.
