(* ===== verification/Metrics.v ===== *)
(** * Metrics.v: the load a Host reports

    [internal/lifecycle/metrics.go]: the memory budget, the snapshot of a Host's load,
    the count of failed release steps and the series published from them, with the two
    counts the service supplies ([BlockedSessions] of [internal/compose/adapters.go] and
    [WorkStates.GateWaiting]).  What a source answers when it is asked is an argument,
    [None] where none is composed.                                               *)
From Stdlib Require Import ZArith.
From stdpp Require Import base list strings gmap.
From S2P Require Import Prelude Wire Errors Commands Registry Capacity Consumer Warm WorkStates Floats.

Module Metrics.
Import Floats.
#[local] Existing Instance Registry.ResidencyState_eq_dec.
#[local] Existing Instance Warm.WarmOutcomeKind_eq_dec.

(** ** The memory budget *)

Definition maxUint64 : Z := two64 - 1.

Record MemoryBudget := mkBudget { CaptureCeilingBytes : Z; MaxParallelFallbacks : Z }.

(** [MemoryBudget.Bytes]: the multiplication is detected to have wrapped by dividing
    it back. *)
Definition Bytes (b : MemoryBudget) : Z * bool :=
  if (CaptureCeilingBytes b =? 0)%Z || (MaxParallelFallbacks b =? 0)%Z then (0%Z, false)
  else
    let product := u64 (CaptureCeilingBytes b * MaxParallelFallbacks b) in
    if negb (product / MaxParallelFallbacks b =? CaptureCeilingBytes b)%Z then (maxUint64, true)
    else (product, true).

(** ** The snapshot *)

Record Snapshot := mkSnapshot {
  Resident : Z; Releasing : Z; Draining : Z; GateWaiting : Z; BlockedSessions : Z;
  AdmissionWeightConsumed : Z; AdmissionWeightCapacity : Z; CommandLag : Z; QueueDepth : Z;
  ReleaseFailures : Z; MemoryBudgetBytes : Z; MemoryBudgetKnown : bool
}.

(** [Metrics]: its options that are values, and the counter [mu] guards. *)
Record Metrics := mkMetrics { Capacity_ : Z; Budget : MemoryBudget; releaseFailures : Z }.

(** What the sources answer: the residencies, the ledger, the gate waits, the blocked
    consumers and the backlog. *)
Record sources {Rt Tgt : Type} := mkSources {
  Residencies : list (Registry.Entry Rt Tgt); ConsumedWeight : Z;
  GateWaits : option Z; Blocked : option Z; Backlog : option (Z * Z)
}.
Arguments sources : clear implicits.
Arguments mkSources {Rt Tgt}.

(** [NewMetrics]: the option it refuses to be without. *)
Definition NewMetrics (has_residencies has_ledger : bool) (capacity : Z) (budget : MemoryBudget) : string + Metrics :=
  match first_problem [refuse_if (negb has_residencies) "Residencies"; refuse_if (negb has_ledger) "Ledger"] with
  | Some field => inl field
  | None => inr (mkMetrics capacity budget 0)
  end.

(** [Metrics.WarmRelease]. *)
Definition WarmRelease (outcome : Warm.WarmOutcome) (m : Metrics) : Metrics :=
  if bool_decide (Warm.Kind outcome = Warm.WarmOutcomeAborted) then m
  else mkMetrics (Capacity_ m) (Budget m) (u64 (releaseFailures m + Z.of_nat (length (Warm.Failures outcome)))).

(** The loop of [Snapshot] over the residencies. *)
Definition tally (st : Registry.ResidencyState) (counts : Z * Z * Z) : Z * Z * Z :=
  let '(resident, releasing, draining) := counts in
  match st with
  | Registry.StateResident => (u64 (resident + 1), releasing, draining)
  | Registry.StateReleasing => (resident, u64 (releasing + 1), draining)
  | Registry.StateDraining => (resident, releasing, u64 (draining + 1))
  end.

Section load.
Context {Rt Tgt : Type}.
Implicit Types (r : Registry.Registry Rt Tgt) (es : list (Registry.Entry Rt Tgt)) (src : sources Rt Tgt).

Definition count es : Z * Z * Z := foldl (fun c e => tally (Registry.State e) c) (0%Z, 0%Z, 0%Z) es.

(** [Metrics.Snapshot]. *)
Definition snapshot (m : Metrics) src : Snapshot :=
  let '(resident, releasing, draining) := count (Residencies src) in
  let '(lag, depth) := default (0%Z, 0%Z) (Backlog src) in
  let '(bytes, known) := Bytes (Budget m) in
  mkSnapshot resident releasing draining (default 0%Z (GateWaits src)) (default 0%Z (Blocked src))
    (ConsumedWeight src) (Capacity_ m) lag depth (releaseFailures m) bytes known.

End load.

(** [Service.BlockedSessions], over the last pass of each consumer. *)
Definition blockedSessions (consumers : list Consumer.stats) : Z :=
  foldl (fun n c => match Consumer.last_pass c with
                    | Some pass => match Consumer.Blocked pass with Some _ => u64 (n + 1) | None => n end
                    | None => n
                    end) 0%Z consumers.

(** The sources a service composes its metrics over. *)
Definition service_sources {Rt Tgt} (index : Registry.Registry Rt Tgt) (ledger : Capacity.CapacityPublisher)
    (sessions : list WorkStates.held) (consumers : list Consumer.stats) : sources Rt Tgt :=
  mkSources (Registry.Snapshot index) (Capacity.consumed ledger)
    (Some (u64 (Z.of_nat (WorkStates.GateWaiting sessions)))) (Some (blockedSessions consumers)) None.

(** ** The series *)

Inductive ValueType := GaugeValue | CounterValue.
Record series := mkSeries { desc : string; labels : list string; type : ValueType; value : float64 }.

Definition gauge (name : string) (value : Z) (labels : list string) : series := mkSeries name labels GaugeValue (of_int value).

(** [Metrics.Describe]: what the collector can publish. *)
Definition Describe : list string :=
  ["host_sessions"; "host_sessions_gate_waiting"; "host_sessions_command_blocked"; "host_admission_weight_consumed";
   "host_admission_weight_capacity"; "host_command_lag"; "host_command_queue_depth"; "host_release_failures_total";
   "host_memory_budget_bytes"].

(** [Metrics.Collect], of the snapshot it takes. *)
Definition Collect (s : Snapshot) : list series :=
  [gauge "host_sessions" (Resident s) ["resident"]; gauge "host_sessions" (Releasing s) ["releasing"];
   gauge "host_sessions" (Draining s) ["draining"]; gauge "host_sessions_gate_waiting" (GateWaiting s) [];
   gauge "host_sessions_command_blocked" (BlockedSessions s) []; gauge "host_admission_weight_consumed" (AdmissionWeightConsumed s) [];
   gauge "host_admission_weight_capacity" (AdmissionWeightCapacity s) []; gauge "host_command_lag" (CommandLag s) [];
   gauge "host_command_queue_depth" (QueueDepth s) [];
   mkSeries "host_release_failures_total" [] CounterValue (of_int (ReleaseFailures s))] ++
  (if MemoryBudgetKnown s then [gauge "host_memory_budget_bytes" (MemoryBudgetBytes s) []] else []).

(** ** The budget saturates *)

Lemma Bytes_spec b :
  is_u64 (CaptureCeilingBytes b) → is_u64 (MaxParallelFallbacks b) →
  Bytes b = if (CaptureCeilingBytes b * MaxParallelFallbacks b =? 0)%Z then (0%Z, false)
            else (Z.min (CaptureCeilingBytes b * MaxParallelFallbacks b) maxUint64, true).
Proof.
  destruct b as [c p]. unfold is_u64, Bytes, maxUint64. simpl. intros Hc Hp.
  destruct (Z.eqb_spec c 0) as [->|Hc0]; [done|]. destruct (Z.eqb_spec p 0) as [->|Hp0]; [by rewrite Z.mul_0_r|]. simpl.
  rewrite (proj2 (Z.eqb_neq (c * p) 0)) by nia.
  destruct (Z.lt_ge_cases (c * p) two64) as [Hlt|Hge].
  - rewrite u64_small by (unfold is_u64; nia). rewrite Z.div_mul, Z.eqb_refl by done. simpl. f_equal. lia.
  - destruct (Z.eqb_spec (u64 (c * p) / p) c) as [Heq|_]; simpl; [|f_equal; lia].
    pose proof (u64_range (c * p)) as Hr. unfold is_u64 in Hr. pose proof (Z.mul_div_le (u64 (c * p)) p). nia.
Qed.

(** The budget a Host publishes is the product of its two numbers, or the largest
    number there is when that is more than 64 bits hold; it is published exactly when
    both are known, and never as a product that wrapped. *)
Theorem budget_published {Rt Tgt} (m : Metrics) (src : sources Rt Tgt) :
  is_u64 (CaptureCeilingBytes (Budget m)) → is_u64 (MaxParallelFallbacks (Budget m)) →
  filter (fun s => desc s = "host_memory_budget_bytes") (Collect (snapshot m src)) =
  let product := (CaptureCeilingBytes (Budget m) * MaxParallelFallbacks (Budget m))%Z in
  if (product =? 0)%Z then [] else [gauge "host_memory_budget_bytes" (Z.min product maxUint64) []].
Proof.
  intros Hc Hp. unfold snapshot. rewrite (Bytes_spec _ Hc Hp).
  destruct (count _) as [[resident releasing] draining], (default _ (Backlog src)) as [lag depth]. simpl.
  by destruct (Z.eqb_spec (CaptureCeilingBytes (Budget m) * MaxParallelFallbacks (Budget m)) 0).
Qed.

(** ** The counts *)

Definition in_state {Rt Tgt} (st : Registry.ResidencyState) (es : list (Registry.Entry Rt Tgt)) : Z :=
  Z.of_nat (length (filter (fun e => Registry.State e = st) es)).

Lemma in_state_app {Rt Tgt} st (es fs : list (Registry.Entry Rt Tgt)) : in_state st (es ++ fs) = (in_state st es + in_state st fs)%Z.
Proof. unfold in_state. rewrite filter_app, length_app. lia. Qed.

Lemma in_state_le {Rt Tgt} st (es : list (Registry.Entry Rt Tgt)) : (0 ≤ in_state st es ≤ Z.of_nat (length es))%Z.
Proof. unfold in_state. pose proof (length_filter (fun e => Registry.State e = st) es). lia. Qed.

Lemma count_spec {Rt Tgt} (es : list (Registry.Entry Rt Tgt)) :
  (Z.of_nat (length es) < two64)%Z →
  count es = (in_state Registry.StateResident es, in_state Registry.StateReleasing es, in_state Registry.StateDraining es).
Proof.
  induction es as [|e es IH] using rev_ind; intros Hlen; [done|].
  rewrite length_app in Hlen. simpl in Hlen. unfold count. rewrite foldl_app. fold (count es). rewrite IH by lia. simpl.
  rewrite !in_state_app. unfold tally. pose proof (fun st => in_state_le st es) as Hle.
  assert (∀ st, in_state st [e] = if bool_decide (Registry.State e = st) then 1%Z else 0%Z) as He.
  { intros st. unfold in_state. rewrite filter_cons, filter_nil. by case_bool_decide; case_decide. }
  rewrite !He. destruct (Registry.State e); rewrite u64_small by (pose proof (Hle Registry.StateResident); pose proof (Hle Registry.StateReleasing); pose proof (Hle Registry.StateDraining); unfold is_u64; lia); by rewrite !Z.add_0_r.
Qed.

Lemma in_state_total {Rt Tgt} (es : list (Registry.Entry Rt Tgt)) :
  (in_state Registry.StateResident es + in_state Registry.StateReleasing es + in_state Registry.StateDraining es)%Z = Z.of_nat (length es).
Proof.
  unfold in_state. induction es as [|e es IH]; [done|]. rewrite !filter_cons. destruct (Registry.State e); simpl; lia.
Qed.

Definition is_blocked (c : Consumer.stats) : Prop := Consumer.last_pass c ≫= Consumer.Blocked ≠ None.
#[export] Instance is_blocked_dec c : Decision (is_blocked c).
Proof. unfold is_blocked. destruct (Consumer.last_pass c ≫= Consumer.Blocked); [left|right]; naive_solver. Defined.

Lemma blockedSessions_spec consumers :
  (Z.of_nat (length consumers) < two64)%Z → blockedSessions consumers = Z.of_nat (length (filter is_blocked consumers)).
Proof.
  induction consumers as [|c cs IH] using rev_ind; intros Hlen; [done|]. rewrite length_app in Hlen. simpl in Hlen.
  unfold blockedSessions. rewrite foldl_app. fold (blockedSessions cs). rewrite IH by lia. simpl. rewrite filter_app, length_app.
  pose proof (length_filter is_blocked cs) as Hle. rewrite filter_cons, filter_nil.
  destruct (Consumer.last_pass c) as [pass|] eqn:Hp; [destruct (Consumer.Blocked pass) eqn:Hb|].
  - rewrite decide_True by (unfold is_blocked; rewrite Hp; simpl; by rewrite Hb). simpl. rewrite u64_small; unfold is_u64; lia.
  - rewrite decide_False by (unfold is_blocked; rewrite Hp; simpl; rewrite Hb; naive_solver). simpl. lia.
  - rewrite decide_False by (unfold is_blocked; rewrite Hp; naive_solver). simpl. lia.
Qed.

Lemma size_filter_values {A} (Q : A → Prop) `{∀ x, Decision (Q x)} (m : gmap Key A) :
  size (filter (fun '(_, e) => Q e) m) = length (filter Q (map_to_list m).*2).
Proof.
  induction m as [|k x m Hk IH] using map_ind; [by rewrite map_filter_empty, map_size_empty, map_to_list_empty|].
  rewrite map_to_list_insert by done. simpl. rewrite filter_cons. destruct (decide (Q x)) as [Hx|Hx].
  - rewrite map_filter_insert_True by done. rewrite map_size_insert_None by (rewrite map_lookup_filter_None; by left).
    rewrite IH. done.
  - rewrite map_filter_insert_False by done. rewrite delete_id by done. done.
Qed.

(** What a Host reports of its sessions is true of its registry and of its consumers:
    the three states count the entries that are in them, together they are every
    residency, the consumed weight is the ledger's, and the blocked sessions are the
    consumers whose last pass stopped at a command. *)
Theorem load_reported {Rt Tgt} (r : Registry.Registry Rt Tgt) ledger sessions consumers m :
  Registry.wf r → (Z.of_nat (Registry.Len r) < two64)%Z → (Z.of_nat (length consumers) < two64)%Z →
  let s := snapshot m (service_sources r ledger sessions consumers) in
  let held st := Z.of_nat (size (filter (fun '(_, e) => Registry.State e = st) (Registry.entries r))) in
  Resident s = held Registry.StateResident ∧ Releasing s = held Registry.StateReleasing ∧ Draining s = held Registry.StateDraining ∧
  (Resident s + Releasing s + Draining s)%Z = Z.of_nat (Registry.Len r) ∧
  AdmissionWeightConsumed s = Capacity.consumed ledger ∧
  BlockedSessions s = Z.of_nat (length (filter is_blocked consumers)).
Proof.
  intros Hwf Hlen Hcs s held. destruct (Registry.Snapshot_spec r Hwf) as (Hperm & _ & Hl).
  assert (∀ st, in_state st (Registry.Snapshot r) = held st) as Hheld.
  { intros st. unfold in_state, held. rewrite (size_filter_values (fun e => Registry.State e = st)), Hperm. done. }
  pose proof (in_state_total (Registry.Snapshot r)) as Htotal. rewrite !Hheld, Hl in Htotal.
  subst s. unfold snapshot, service_sources. simpl. rewrite count_spec, !Hheld by lia. destruct (Bytes _). simpl.
  rewrite blockedSessions_spec by done. done.
Qed.

(** ** Release failures *)

Definition failures_of (o : Warm.WarmOutcome) : Z :=
  if bool_decide (Warm.Kind o = Warm.WarmOutcomeAborted) then 0 else Z.of_nat (length (Warm.Failures o)).

(** The counter of failed release steps is, modulo its width, the number of failures of
    every attempt that was not aborted: an abort, whatever it recorded, is not a failed
    release. *)
Theorem failures_counted outcomes capacity budget m :
  NewMetrics true true capacity budget = inr m →
  releaseFailures (foldl (flip WarmRelease) m outcomes) = u64 (foldr Z.add 0%Z (failures_of <$> outcomes)) ∧
  Capacity_ (foldl (flip WarmRelease) m outcomes) = capacity ∧ Budget (foldl (flip WarmRelease) m outcomes) = budget.
Proof.
  intros [= <-]. induction outcomes as [|o os (IH1 & IH2 & IH3)] using rev_ind; [done|].
  rewrite foldl_app. simpl. unfold WarmRelease at 1 3 5. rewrite fmap_app, foldr_app. simpl.
  assert (∀ z l, foldr Z.add z l = (foldr Z.add 0 l + z)%Z) as Hz by (intros z l; induction l; simpl; lia).
  rewrite Hz, Z.add_0_r. unfold failures_of at 2. case_bool_decide; simpl; [by rewrite Z.add_0_r|].
  split_and!; [|done..]. rewrite IH1. unfold u64. by rewrite Zplus_mod_idemp_l.
Qed.

(** ** Witnesses *)

Definition sample_metrics : Metrics := mkMetrics 4 (mkBudget (two63) 4) 0.
Definition sample_registry : Registry.Registry () () := Registry.run Registry.New (take 2 Registry.sample_calls).
Definition sample_pass : Consumer.PassResult :=
  Consumer.mkPass 3 1 0 false (Some (Consumer.mkBlocked "c" 4 Commands.StateApplying None)).

Lemma budget_published_witness :
  filter (fun s => desc s = "host_memory_budget_bytes")
    (Collect (snapshot sample_metrics (service_sources sample_registry Capacity.sample_publisher [] []))) =
  [gauge "host_memory_budget_bytes" maxUint64 []].
Proof. refine (budget_published sample_metrics _ _ _); unfold is_u64; simpl; done. Defined.

Lemma load_reported_witness :
  let s := snapshot sample_metrics (service_sources sample_registry Capacity.sample_publisher [] [Consumer.mkStats 0 (Some sample_pass)]) in
  (Resident s + Releasing s + Draining s)%Z = Z.of_nat (Registry.Len sample_registry) ∧ BlockedSessions s = 1%Z.
Proof.
  assert (Registry.wf sample_registry) as Hwf by (apply Registry.run_wf; [apply Registry.wf_New|unfold Registry.room; vm_compute; done]).
  destruct (load_reported sample_registry Capacity.sample_publisher [] [Consumer.mkStats 0 (Some sample_pass)] sample_metrics Hwf) as (_ & _ & _ & H1 & _ & H2); [vm_compute; done..|].
  split; [exact H1|]. rewrite H2. vm_compute. done.
Defined.

Lemma failures_counted_witness :
  let failure := Warm.mkWarmFailure Warm.WarmStepAbortRelease (ESentinel "unreachable") in
  releaseFailures (foldl (flip WarmRelease) sample_metrics
    [Warm.mkOutcome Warm.WarmOutcomeAborted [failure]; Warm.mkOutcome Warm.WarmOutcomeReleased [failure; failure]]) = 2%Z.
Proof.
  intros failure. destruct (failures_counted [Warm.mkOutcome Warm.WarmOutcomeAborted [failure]; Warm.mkOutcome Warm.WarmOutcomeReleased [failure; failure]] 4 (mkBudget two63 4) sample_metrics eq_refl) as [H _].
  rewrite H. vm_compute. done.
Defined.

End Metrics.
