(* ===== verification/Constructors.v ===== *)
(** * Constructors.v: what a component refuses to be built without

    The constructors of [internal/commands], [internal/residency], [internal/lifecycle]
    and [internal/gates], with [compose.New] ([internal/compose/compose.go]), which
    builds a service of them, and the construction of a session's own components in
    [beginWork] ([adapters.go]).  A collaborator is whether it is set; what a
    constructor returns is the record the component's file starts from.            *)
From Stdlib Require Import ZArith.
From stdpp Require Import base list strings gmap.
From S2P Require Import Prelude Wire HostOptions Consumer Applier Disposition Composition Metrics.

Module Constructors.
Import HostOptions.

(** A refusal: the field it names, or the accessors of a Host that answer nothing. *)
Inductive refusal := Field (f : string) | UnusableHost (accessors : list string).

Definition missing (l : list (string * bool)) : option refusal :=
  first_problem ((fun f : string * bool => refuse_if (negb f.2) (Field f.1)) <$> l).

Definition unusable (l : list (string * bool)) : option refusal :=
  match omap (fun f : string * bool => if f.2 then Some f.1 else None) l with [] => None | fields => Some (UnusableHost fields) end.

Definition keyed (k : Key) : option refusal :=
  refuse_if (bool_decide (TenantID k = "") || bool_decide (SessionID k = "")) (Field "Key").

(** What is left when no check refused. *)
Definition built {A} (checks : list (option refusal)) (a : A) : refusal + A :=
  match first_problem checks with Some e => inl e | None => inr a end.

(** ** The components of a session *)

(** [NewConsumer], over a Host or none. *)
Record ConsumerOptions := mkConsumerOptions {
  co_Host : option HostOptions.Options; co_Key : Key; co_LeaseEpoch : Z; co_Inbox : bool; co_Cursors : bool; co_Processor : bool; co_Fence : bool
}.

Definition NewConsumer (o : ConsumerOptions) : refusal + Consumer.Consumer :=
  match co_Host o with
  | None => inl (Field "Host")
  | Some h =>
      built [unusable [("Clock", negb (has_Clock h)); ("ReconcileInterval", (ReconcileInterval h <=? 0)%Z); ("ReconcileBatch", (ReconcileBatch h <=? 0)%Z)];
             keyed (co_Key o);
             refuse_if (co_LeaseEpoch o =? 0)%Z (Field "LeaseEpoch");
             missing [("Inbox", co_Inbox o); ("Cursors", co_Cursors o); ("Processor", co_Processor o); ("Fence", co_Fence o)]]
        (Consumer.mkConsumer (co_Key o) (co_LeaseEpoch o) (ReconcileBatch h))
  end.

(** [NewApplier]. *)
Record ApplierOptions := mkApplierOptions {
  ao_Host : option HostOptions.Options; ao_Key : Key; ao_LeaseEpoch : Z; ao_Records : bool; ao_Applications : bool; ao_Gates : bool;
  ao_Writes : bool; ao_Journal : bool; ao_Runtime : bool; ao_Fence : bool
}.

(** The checks both appliers make of their Host. *)
Definition claims (h : HostOptions.Options) : option refusal :=
  unusable [("Clock", negb (has_Clock h)); ("ClaimTTL", (ClaimTTL h <=? 0)%Z); ("ID", bool_decide (HostID h = ""))].

Definition NewApplier (o : ApplierOptions) : refusal + Applier.Applier :=
  match ao_Host o with
  | None => inl (Field "Host")
  | Some h =>
      built [claims h; keyed (ao_Key o); refuse_if (ao_LeaseEpoch o =? 0)%Z (Field "LeaseEpoch");
             missing [("Records", ao_Records o); ("Applications", ao_Applications o); ("Gates", ao_Gates o); ("Writes", ao_Writes o);
                      ("Journal", ao_Journal o); ("Runtime", ao_Runtime o); ("Fence", ao_Fence o)]]
        (Applier.mkApplier (HostID h) (ClaimTTL h) (ao_Key o) (ao_LeaseEpoch o))
  end.

(** [NewDispositionApplier]. *)
Definition DefaultMaxCommandBodyBytes : Z := 8 * 1024 * 1024.

Record DispositionOptions := mkDispositionOptions {
  do_Host : option HostOptions.Options; do_Key : Key; do_ResidencyEpoch : Z; do_MaxCommandBodyBytes : Z; do_Records : bool; do_Writes : bool;
  do_Runtime : bool; do_JournalEpochs : bool; do_Attempts : bool; do_Fence : bool; do_Objects : bool; do_Closer : bool; do_Gates : bool; do_Stranded : bool
}.

Definition NewDispositionApplier (o : DispositionOptions) : refusal + Disposition.DispositionApplier :=
  let limit := Composition.set_or (do_MaxCommandBodyBytes o) DefaultMaxCommandBodyBytes in
  if (limit <=? Composition.MaxInboxPayloadBytes)%Z || (Composition.MaxCommandBodyBytesLimit <? limit)%Z then inl (Field "MaxCommandBodyBytes")
  else
    match do_Host o with
    | None => inl (Field "Host")
    | Some h =>
        built [claims h; keyed (do_Key o); refuse_if (do_ResidencyEpoch o =? 0)%Z (Field "ResidencyEpoch");
               missing [("Records", do_Records o); ("Writes", do_Writes o); ("Runtime", do_Runtime o); ("JournalEpochs", do_JournalEpochs o);
                        ("Attempts", do_Attempts o); ("Fence", do_Fence o)]]
          (Disposition.mkApplier (ClaimTTL h) (do_Key o) (do_ResidencyEpoch o) (do_Objects o) limit (do_Closer o) (do_Gates o) (do_Stranded o))
    end.

(** [gates.Start]'s checks. *)
Definition StartGates (session hints after : bool) (retry : Z) : option refusal :=
  first_problem [missing [("Session", session); ("Hints", hints); ("After", after)]; refuse_if (retry <=? 0)%Z (Field "Retry")].

Definition DefaultGateRetry : Z := 1000000000.
Definition gateRetry (configured : Z) : Z := if (configured <=? 0)%Z then DefaultGateRetry else configured.

(** ** The components of a Host *)

(** [NewWarmReleaser]. *)
Definition NewWarmReleaser (ttl : Z) (clock registry inbox consumption admissions : bool) : option refusal :=
  first_problem [missing [("Clock", clock); ("Registry", registry); ("Inbox", inbox); ("Consumption", consumption); ("Admissions", admissions)];
                 refuse_if (ttl <=? 0)%Z (Field "TTL")].

(** [NewHeartbeatOwnership]. *)
Definition NewHeartbeatOwnership (host : bool) (generation : Z) (registry locations admissions teardown : bool) : option refusal :=
  first_problem [missing [("Host", host)]; refuse_if (generation =? 0)%Z (Field "HostGeneration");
                 missing [("Registry", registry); ("Locations", locations); ("Admissions", admissions); ("Teardown", teardown)]].

(** [NewManager]. *)
Definition NewManager (host : bool) (generation : Z) (registry admissions leases durable workspaces locations ownership : bool) : option refusal :=
  first_problem [missing [("Host", host)]; refuse_if (generation =? 0)%Z (Field "HostGeneration");
                 missing [("Registry", registry); ("Admissions", admissions); ("Leases", leases); ("Durable", durable);
                          ("Workspaces", workspaces); ("Locations", locations); ("Ownership", ownership)]].

(** [NewDrainer]. *)
Definition NewDrainer (generation grace idle publish : Z) (clock admissions advertiser residents : bool) : option refusal :=
  first_problem [refuse_if (generation =? 0)%Z (Field "Generation");
                 missing [("Clock", clock); ("Admissions", admissions); ("Advertiser", advertiser); ("Residents", residents)];
                 refuse_if (grace <=? 0)%Z (Field "Grace"); refuse_if (idle <=? 0)%Z (Field "IdleBoundary");
                 refuse_if (grace <? idle)%Z (Field "IdleBoundary"); refuse_if (publish <=? 0)%Z (Field "PublishBound");
                 refuse_if (grace <? publish)%Z (Field "PublishBound")].

(** [compose.New] over an accepted Host; [publisher] is what the capacity publisher's
    constructor refuses.  Its own components are never nil. *)
Definition New (o : Composition.Options) (h : HostOptions.Options) (publisher : option refusal) (budget : Metrics.MemoryBudget) : option refusal :=
  let set f := existsb (fun p => String.eqb p.1 f && p.2) (Composition.collaborators_set o) in
  first_problem [Field <$> Composition.compose_validate o; publisher;
                 NewWarmReleaser (WarmTTL h) true true true true true;
                 NewHeartbeatOwnership true (Composition.o_HostGeneration o) true (set "Locations") true true;
                 NewManager true (Composition.o_HostGeneration o) true true true (set "Durable") (set "Workspaces") (set "Locations") true;
                 match Metrics.NewMetrics true true (Capacity h) budget with inl f => Some (Field f) | inr _ => None end;
                 NewDrainer (Composition.o_HostGeneration o) (Composition.o_Grace o) (Composition.o_IdleBoundary o) (Composition.o_PublishBound o)
                   true true true true].

(** What [beginWork] builds a session's components of. *)
Definition session_applier (o : Composition.Options) (h : HostOptions.Options) (k : Key) (epoch : Z) (closer gates : bool) : DispositionOptions :=
  mkDispositionOptions (Some h) k epoch (Composition.o_MaxCommandBodyBytes o) true true true true true true (Composition.has_Objects o) closer gates true.
Definition session_consumer (h : HostOptions.Options) (k : Key) (epoch : Z) : ConsumerOptions :=
  mkConsumerOptions (Some h) k epoch true true true true.

(** ** A service is built unless a bound exceeds the grace *)

Lemma built_None {A} checks (a : A) : built checks a = inr a ↔ Forall (fun c => c = None) checks.
Proof. unfold built. rewrite <-first_problem_None. destruct (first_problem checks); split; congruence. Qed.

Lemma missing_None l : missing l = None ↔ Forall (fun f => f.2 = true) l.
Proof.
  unfold missing. rewrite first_problem_None, Forall_fmap. apply Forall_iff. intros f. simpl. rewrite refuse_if_None. apply negb_false_iff.
Qed.

Lemma unusable_None l : unusable l = None ↔ Forall (fun f => f.2 = false) l.
Proof.
  unfold unusable. induction l as [|[f []] l IH]; simpl; rewrite ?Forall_nil, ?Forall_cons; simpl; [done|split; [done|intros [? _]; done]|].
  change (omap _ ((f, false) :: l)) with (omap (fun f : string * bool => if f.2 then Some f.1 else None) l). naive_solver.
Qed.

Section accepted.
Context (host_id_valid session_id_valid HostLinkEndpoint_ok : string → bool).
Context (url_Parse : string → option (string * string)) (SplitHostPort_ok : string → bool).
Context (h : HostOptions.Options) (c : Composition.Composition) (ttl : Z).
Context (Hhost : HostOptions.validate host_id_valid session_id_valid HostLinkEndpoint_ok url_Parse SplitHostPort_ok h = None).
Context (Hoptions : Composition.compose_validate (Composition.options_of c ttl) = None).

Lemma host_accepted : HostOptions.accepted host_id_valid session_id_valid HostLinkEndpoint_ok url_Parse SplitHostPort_ok h.
Proof. by apply HostOptions.validate_spec. Qed.

Lemma options_checked :
  Composition.body_limit_refused (Composition.MaxCommandBodyBytes c) = false ∧ Composition.Generation c ≠ 0%Z ∧
  (0 < Composition.Grace (Composition.Drain c))%Z ∧ (0 < Composition.IdleBoundary (Composition.Drain c))%Z ∧
  (0 < Composition.PublishBound (Composition.Drain c))%Z.
Proof.
  pose proof Hoptions as Ho. unfold Composition.compose_validate, Composition.refuse_field in Ho.
  rewrite first_problem_None, !Forall_app, !Forall_cons, !refuse_if_None in Ho. simpl in Ho.
  destruct Ho as ((H1 & H2%Z.eqb_neq & _) & _ & _ & _ & _ & _ & _ & H3%Z.leb_gt & H4%Z.leb_gt & H5%Z.leb_gt & _). done.
Qed.

Lemma claims_fine : claims h = None.
Proof.
  destruct host_accepted. destruct_and!. unfold claims. apply unusable_None. rewrite !Forall_cons, Forall_nil. simpl.
  split_and!; [by apply negb_false_iff|by apply Z.leb_gt|by apply bool_decide_eq_false|done].
Qed.

Lemma keyed_None k : keyed k = None ↔ TenantID k ≠ "" ∧ SessionID k ≠ "".
Proof. unfold keyed. by rewrite refuse_if_None, orb_false_iff, !bool_decide_eq_false. Qed.

(** A service over an accepted Host and checked options is built, its capacity publisher
    allowing, unless one of the drain's two bounds exceeds its grace: no other
    constructor refuses what the checks let through. *)
Theorem New_refuses_bounds budget :
  New (Composition.options_of c ttl) h None budget =
  let d := Composition.Drain c in
  if (Composition.Grace d <? Composition.IdleBoundary d)%Z then Some (Field "IdleBoundary")
  else if (Composition.Grace d <? Composition.PublishBound d)%Z then Some (Field "PublishBound")
  else None.
Proof.
  destruct host_accepted, options_checked as (_ & Hgen & Hg & Hi & Hp). destruct_and!.
  unfold New, NewWarmReleaser, NewHeartbeatOwnership, NewManager, NewDrainer. rewrite Hoptions. simpl.
  rewrite (proj2 (Z.leb_gt _ _)) by done. rewrite (proj2 (Z.eqb_neq _ _) Hgen). simpl.
  rewrite !(proj2 (Z.leb_gt _ _)) by done. simpl.
  by destruct (_ <? _)%Z, (_ <? _)%Z.
Qed.

(** A session's applier and consumer are built exactly when its key names a tenant and a
    session and its epoch is not zero; both are then fenced by that epoch, over that key,
    with a positive claim and batch and a body limit between the inbox's and the
    runtime's. *)
Theorem session_built k epoch closer gates :
  let applier := NewDispositionApplier (session_applier (Composition.options_of c ttl) h k epoch closer gates) in
  let consumer := NewConsumer (session_consumer h k epoch) in
  if decide (TenantID k ≠ "" ∧ SessionID k ≠ "" ∧ epoch ≠ 0%Z) then
    ∃ a s, applier = inr a ∧ consumer = inr s ∧
      Disposition.key a = k ∧ Consumer.key s = k ∧ Disposition.residency a = epoch ∧ Consumer.epoch s = epoch ∧
      (0 < Disposition.ClaimTTL a)%Z ∧ (0 < Consumer.ReconcileBatch s ≤ HostOptions.MaxReconcileBatch)%Z ∧
      (Composition.MaxInboxPayloadBytes < Disposition.maxBody a ≤ Composition.MaxCommandBodyBytesLimit)%Z
  else is_Some (match applier with inl e => Some e | inr _ => None end) ∧ is_Some (match consumer with inl e => Some e | inr _ => None end).
Proof.
  destruct host_accepted, options_checked as (Hbody & _). destruct_and!. intros applier consumer.
  assert (unusable [("Clock", negb (has_Clock h)); ("ReconcileInterval", (ReconcileInterval h <=? 0)%Z); ("ReconcileBatch", (ReconcileBatch h <=? 0)%Z)] = None) as Hu.
  { apply unusable_None. rewrite !Forall_cons, Forall_nil. simpl. split_and!; [by apply negb_false_iff|by apply Z.leb_gt..|done]. }
  set (limit := Composition.set_or (Composition.MaxCommandBodyBytes c) DefaultMaxCommandBodyBytes).
  assert (Composition.MaxInboxPayloadBytes < limit ≤ Composition.MaxCommandBodyBytesLimit)%Z as Hlimit.
  { subst limit. unfold Composition.body_limit_refused, Composition.set_or in *. destruct (Z.eqb_spec (Composition.MaxCommandBodyBytes c) 0); [done|].
    simpl in Hbody. apply orb_false_iff in Hbody as [?%Z.leb_gt ?%Z.ltb_ge]. lia. }
  subst applier consumer. unfold NewDispositionApplier, NewConsumer, session_applier, session_consumer. simpl. fold limit.
  rewrite (proj2 (Z.leb_gt _ _)), (proj2 (Z.ltb_ge _ _)) by lia. simpl. unfold built. simpl. rewrite claims_fine, Hu.
  destruct (keyed k) as [e|] eqn:Hk; simpl.
  { rewrite decide_False; [by split|]. intros (Ht & Hs & _). by rewrite (proj2 (keyed_None k)) in Hk. }
  apply keyed_None in Hk as [Ht Hs]. destruct (Z.eqb_spec epoch 0) as [->|He]; simpl.
  { rewrite decide_False; [by split|]. naive_solver. }
  rewrite decide_True by done. eexists _, _. split_and!; try done; simpl; lia.
Qed.

End accepted.

(** ** Witnesses *)

Lemma New_refuses_bounds_witness :
  New (Composition.options_of Composition.sample_composition 3) HostOptions.sample_options None (Metrics.mkBudget 0 0) = None.
Proof.
  exact (New_refuses_bounds (fun _ => true) (fun _ => true) (fun _ => true) (fun _ => Some ("host-1:8080", "8080")) (fun _ => true)
    HostOptions.sample_options Composition.sample_composition 3 eq_refl eq_refl (Metrics.mkBudget 0 0)).
Defined.

Lemma session_built_witness :
  ∃ a s, NewDispositionApplier (session_applier (Composition.options_of Composition.sample_composition 3) HostOptions.sample_options (mkKey "t" "s") 5 true true) = inr a ∧
    NewConsumer (session_consumer HostOptions.sample_options (mkKey "t" "s") 5) = inr s ∧ Disposition.residency a = 5%Z ∧ Consumer.epoch s = 5%Z.
Proof.
  destruct (session_built (fun _ => true) (fun _ => true) (fun _ => true) (fun _ => Some ("host-1:8080", "8080")) (fun _ => true)
    HostOptions.sample_options Composition.sample_composition 3 eq_refl eq_refl (mkKey "t" "s") 5 true true) as (a & s & H1 & H2 & _ & _ & H3 & H4 & _).
  by exists a, s.
Defined.

End Constructors.
