(* ===== verification/Parsing.v ===== *)
(** * Parsing.v: numbers and durations as text

    What the process reads its environment with: [strconv.ParseUint] (base 10, 64
    bits), [strconv.Atoi] and [time.ParseDuration] of the Go standard library, with
    the widths of their results and the reading back of what is printed.           *)
From Stdlib Require Import ZArith Ascii SpecFloat.
From stdpp Require Import base list strings pretty.
From S2P Require Import Prelude Errors Floats.

Module Parsing.
Import Floats.

Definition ErrSyntax : error := ESentinel "strconv.ErrSyntax".
Definition ErrRange : error := ESentinel "strconv.ErrRange".
Definition NumError (err : error) : error := ETyped (TOtherError "strconv.NumError") (Some err).
Definition ErrDuration : error := EForeign "time.ParseDuration".

(** ** Integers *)

(** The loop of [ParseUint]: a digit that is none is found before a range that is
    left, digit by digit. *)
Fixpoint read_uint (n : Z) (s : string) : Z + error :=
  match s with
  | EmptyString => inl n
  | String c s =>
      match digit_value c with
      | None => inr ErrSyntax
      | Some d =>
          if (1844674407370955162 <=? n)%Z then inr ErrRange
          else let n1 := u64 (n * 10 + d) in
               if (n1 <? n * 10)%Z then inr ErrRange else read_uint n1 s
      end
  end.

Definition uint_of (s : string) : Z + error :=
  match s with EmptyString => inr ErrSyntax | _ => read_uint 0 s end.

Definition ParseUint (s : string) : res Z :=
  match uint_of s with inl n => Ok n | inr e => Err (NumError e) end.

(** A sign and what follows it. *)
Definition signed (s : string) : bool * string :=
  match s with
  | String "-" s => (true, s)
  | String "+" s => (false, s)
  | _ => (false, s)
  end.

(** [Atoi], by [ParseInt]: its path for short texts computes the same. *)
Definition Atoi (s : string) : res Z :=
  let '(neg, digits) := signed s in
  match uint_of digits with
  | inr e => Err (NumError e)
  | inl n => if (if neg then two63 <? n else two63 <=? n)%Z then Err (NumError ErrRange)
             else Ok (if neg then - n else n)%Z
  end.

(** ** Durations *)

(** [leadingInt]. *)
Fixpoint leadingInt (x : Z) (s : string) : option (Z * string) :=
  match s with
  | EmptyString => Some (x, s)
  | String c s' =>
      match digit_value c with
      | None => Some (x, s)
      | Some d =>
          if (two63 / 10 <? x)%Z then None
          else let x := (x * 10 + d)%Z in if (two63 <? x)%Z then None else leadingInt x s'
      end
  end.

(** [leadingFraction]: the digits it can hold, the power of ten they are over, and the
    rest; the digits past its range are dropped. *)
Fixpoint leadingFraction (x : Z) (scale : float64) (overflow : bool) (s : string) : Z * float64 * string :=
  match s with
  | EmptyString => (x, scale, s)
  | String c s' =>
      match digit_value c with
      | None => (x, scale, s)
      | Some d =>
          if overflow then leadingFraction x scale true s'
          else if (MaxInt64 / 10 <? x)%Z then leadingFraction x scale true s'
          else let y := (x * 10 + d)%Z in
               if (two63 <? y)%Z then leadingFraction x scale true s'
               else leadingFraction y (fmul scale (of_int 10)) false s'
      end
  end.

Definition is_digit (c : ascii) : bool := bool_decide (is_Some (digit_value c)).

(** A unit: everything up to a digit or a period. *)
Fixpoint unit_text (s : string) : string * string :=
  match s with
  | EmptyString => ("", s)
  | String c s' => if Ascii.eqb c "." || is_digit c then ("", s)
                   else let '(u, rest) := unit_text s' in (String c u, rest)
  end.

Definition unitMap (u : string) : option Z :=
  if String.eqb u "ns" then Some 1%Z
  else if String.eqb u "us" || String.eqb u "µs" || String.eqb u "μs" then Some 1000%Z
  else if String.eqb u "ms" then Some 1000000%Z
  else if String.eqb u "s" then Some 1000000000%Z
  else if String.eqb u "m" then Some 60000000000%Z
  else if String.eqb u "h" then Some 3600000000000%Z
  else None.

(** One term of a duration: its nanoseconds and the rest of the text. *)
Definition duration_term (s : string) : option (Z * string) :=
  match s with
  | EmptyString => None
  | String c _ =>
      if negb (Ascii.eqb c "." || is_digit c) then None
      else
        match leadingInt 0 s with
        | None => None
        | Some (v, s1) =>
            let pre := negb (String.eqb s s1) in
            let '(f, scale, s2, post) :=
              match s1 with
              | String "." s1' => let '(f, scale, s2) := leadingFraction 0 (of_int 1) false s1' in (f, scale, s2, negb (String.eqb s1' s2))
              | _ => (0%Z, of_int 1, s1, false)
              end in
            if negb pre && negb post then None
            else
              let '(u, rest) := unit_text s2 in
              if String.eqb u "" then None
              else
                match unitMap u with
                | None => None
                | Some unit =>
                    if (two63 / unit <? v)%Z then None
                    else
                      let v := (v * unit)%Z in
                      if (0 <? f)%Z then
                        let v := u64 (v + to_uint (fmul (of_int f) (fdiv (of_int unit) scale))) in
                        if (two63 <? v)%Z then None else Some (v, rest)
                      else Some (v, rest)
                end
        end
  end.

(** The loop over the terms: each consumes its unit, so the length of the text is
    fuel enough. *)
Fixpoint duration_terms (fuel : nat) (d : Z) (s : string) : option Z :=
  match s with
  | EmptyString => Some d
  | _ =>
      match fuel with
      | 0 => None
      | S fuel =>
          match duration_term s with
          | None => None
          | Some (v, rest) =>
              let d := u64 (d + v) in
              if (two63 <? d)%Z then None else duration_terms fuel d rest
          end
      end
  end.

Definition ParseDuration (s : string) : res Z :=
  let '(neg, terms) := signed s in
  if String.eqb terms "0" then Ok 0%Z
  else if String.eqb terms "" then Err ErrDuration
  else
    match duration_terms (String.length terms) 0 terms with
    | None => Err ErrDuration
    | Some d => if neg then Ok (i64 (- i64 d)) else if (MaxInt64 <? d)%Z then Err ErrDuration else Ok d
    end.

Example duration_forms :
  ParseDuration <$> ["90s"; "1m"; "1.5h"; "-1m30s"; ".5us"; "0"; "-"; "ninety"; "1.s"; "9223372036854775808ns"; "-9223372036854775808ns"] =
  [Ok 90000000000%Z; Ok 60000000000%Z; Ok 5400000000000%Z; Ok (-90000000000)%Z; Ok 500%Z; Ok 0%Z; Err ErrDuration; Err ErrDuration; Ok 1000000000%Z;
   Err ErrDuration; Ok (- two63)%Z].
Proof. vm_compute. done. Qed.

Example integer_forms :
  Atoi <$> ["-9223372036854775808"; "9223372036854775808"; "+7"; ""; "1_0"] =
    [Ok (- two63)%Z; Err (NumError ErrRange); Ok 7%Z; Err (NumError ErrSyntax); Err (NumError ErrSyntax)] ∧
  ParseUint <$> ["18446744073709551615"; "18446744073709551616"; "-1"] = [Ok 18446744073709551615%Z; Err (NumError ErrRange); Err (NumError ErrSyntax)].
Proof. vm_compute. done. Qed.

(** ** Widths *)

Lemma digit_value_range c d : digit_value c = Some d → (0 ≤ d ≤ 9)%Z.
Proof. unfold digit_value. intros H. case_match eqn:Hn; simplify_eq. apply andb_true_iff in Hn as [H1%Z.leb_le H2%Z.leb_le]. lia. Qed.

Lemma read_uint_range s n v : is_u64 n → read_uint n s = inl v → is_u64 v.
Proof.
  revert n. induction s as [|c s IH]; intros n Hn; simpl; [by intros [= <-]|].
  destruct (digit_value c); [|done]. destruct (_ <=? n)%Z; [done|]. destruct (_ <? _)%Z; [done|]. apply IH, u64_range.
Qed.

Lemma uint_of_range s v : uint_of s = inl v → is_u64 v.
Proof. destruct s; [done|]. apply read_uint_range. unfold is_u64, two64. lia. Qed.

Definition is_int64 (z : Z) : Prop := (- two63 ≤ z < two63)%Z.

Lemma ParseUint_range s v : ParseUint s = Ok v → is_u64 v.
Proof. unfold ParseUint. destruct (uint_of s) eqn:H; [|done]. intros [= <-]. by eapply uint_of_range. Qed.

Lemma Atoi_range s v : Atoi s = Ok v → is_int64 v.
Proof.
  unfold Atoi. destruct (signed s) as [neg digits]. destruct (uint_of digits) as [n|e] eqn:H; [|done].
  apply uint_of_range in H. unfold is_u64, is_int64, two63 in *.
  destruct neg; case_match eqn:Hle; intros [= <-]; [apply Z.ltb_ge in Hle|apply Z.leb_gt in Hle]; lia.
Qed.

Lemma duration_terms_range fuel s d v : (0 ≤ d ≤ two63)%Z → duration_terms fuel d s = Some v → (0 ≤ v ≤ two63)%Z.
Proof.
  revert s d. induction fuel as [|fuel IH]; intros [|c s] d Hd; cbn [duration_terms]; try (by intros [= <-]).
  destruct (duration_term _) as [[t rest]|]; [|done]. destruct (Z.ltb_spec two63 (u64 (d + t))); [done|]. apply IH.
  pose proof (u64_range (d + t)) as Hr. unfold is_u64 in Hr. lia.
Qed.

Lemma i64_range z : is_int64 (i64 z).
Proof. unfold is_int64, i64. pose proof (Z.mod_pos_bound (z + two63) two64 eq_refl). unfold two63, two64 in *. lia. Qed.

Lemma ParseDuration_range s v : ParseDuration s = Ok v → is_int64 v.
Proof.
  unfold ParseDuration. destruct (signed s) as [neg terms]. destruct (String.eqb terms "0"); [by intros [= <-]|].
  destruct (String.eqb terms ""); [done|]. destruct (duration_terms _ _ _) as [d|] eqn:Hd; [|done].
  apply duration_terms_range in Hd; [|unfold two63; lia]. destruct neg; [intros [= <-]; apply i64_range|].
  destruct (Z.ltb_spec MaxInt64 d) as [|Hle]; [done|]. intros [= <-]. unfold is_int64. unfold MaxInt64, two63 in *. lia.
Qed.

(** ** Reading back what is printed *)

Lemma digit_value_pretty x : (x < 10)%N → digit_value (pretty_N_char x) = Some (Z.of_N x).
Proof.
  intros Hx. assert (x ∈ [0; 1; 2; 3; 4; 5; 6; 7; 8; 9]%N) as Hin by (rewrite !elem_of_cons, elem_of_nil; lia).
  rewrite !elem_of_cons, elem_of_nil in Hin. destruct_or? Hin; subst; done.
Qed.

Lemma pretty_go_last x s : (0 < x)%N →
  ∃ q r, pretty_N_go x s = pretty_N_go q (String (pretty_N_char r) s) ∧ (q < x)%N ∧ (r < 10)%N ∧ x = (q * 10 + r)%N.
Proof.
  intros Hx. exists (x `div` 10)%N, (x `mod` 10)%N. rewrite pretty_N_go_step by done.
  split_and!; [done|apply N.div_lt; lia|apply N.mod_lt; lia|]. pose proof (N.div_mod x 10). lia.
Qed.

Lemma read_uint_pretty x s : (x < 18446744073709551616)%N → read_uint 0 (pretty_N_go x s) = read_uint (Z.of_N x) s.
Proof.
  revert s. induction (N.lt_wf_0 x) as [x _ IH]; intros s Hx.
  destruct (decide (x = 0%N)) as [->|Hx0]; [by rewrite pretty_N_go_0|].
  destruct (pretty_go_last x s ltac:(lia)) as (q & r & -> & Hlt & Hr & Hdm).
  rewrite IH by lia. simpl. rewrite digit_value_pretty by done. replace (Z.of_N q * 10 + Z.of_N r)%Z with (Z.of_N x) by lia.
  rewrite (proj2 (Z.leb_gt _ _)) by lia. rewrite u64_small by (unfold is_u64, two64; lia).
  by rewrite (proj2 (Z.ltb_ge _ _)) by lia.
Qed.

Lemma leadingInt_pretty x s : (x ≤ 9223372036854775808)%N → leadingInt 0 (pretty_N_go x s) = leadingInt (Z.of_N x) s.
Proof.
  revert s. induction (N.lt_wf_0 x) as [x _ IH]; intros s Hx.
  destruct (decide (x = 0%N)) as [->|Hx0]; [by rewrite pretty_N_go_0|].
  destruct (pretty_go_last x s ltac:(lia)) as (q & r & -> & Hlt & Hr & Hdm).
  rewrite IH by lia. simpl. rewrite digit_value_pretty by done. replace (Z.of_N q * 10 + Z.of_N r)%Z with (Z.of_N x) by lia.
  rewrite (proj2 (Z.ltb_ge _ _)) by (change (two63 / 10)%Z with 922337203685477580%Z; lia).
  by rewrite (proj2 (Z.ltb_ge _ _)) by (unfold two63; lia).
Qed.

(** A printed number begins with a digit, so with no sign. *)
Lemma pretty_go_head x s : (0 < x)%N → ∃ c t, pretty_N_go x s = String c t ∧ is_digit c.
Proof.
  revert s. induction (N.lt_wf_0 x) as [x _ IH]; intros s Hx. destruct (pretty_go_last x s Hx) as (q & r & -> & Hlt & Hr & _).
  destruct (decide (q = 0%N)) as [->|Hq]; [|apply IH; lia].
  rewrite pretty_N_go_0. eexists _, _. split; [done|]. unfold is_digit. by rewrite digit_value_pretty by done.
Qed.

Lemma pretty_go_app x s t : pretty_N_go x (s +:+ t) = pretty_N_go x s +:+ t.
Proof.
  revert s. induction (N.lt_wf_0 x) as [x _ IH]; intros s. destruct (decide (x = 0%N)) as [->|]; [by rewrite !pretty_N_go_0|].
  rewrite !(pretty_N_go_step x) by lia. rewrite <-IH by (apply N.div_lt; lia). done.
Qed.

Lemma digit_unsigned c s : is_digit c → signed (String c s) = (false, String c s).
Proof. destruct c as [[] [] [] [] [] [] [] []]; done. Qed.

(** What [pretty] prints of a number: its digits, after a sign when it is negative. *)
Lemma pretty_digits z : z ≠ 0%Z → pretty z = (if (z <? 0)%Z then "-" else "") +:+ pretty_N_go (Z.to_N (Z.abs z)) "".
Proof. destruct z as [|p|p]; [done|..]; intros _; unfold pretty at 1, pretty_Z, pretty, pretty_positive, pretty, pretty_N; by case_decide. Qed.

Lemma uint_of_digits x : (0 < x < 18446744073709551616)%N → uint_of (pretty_N_go x "") = inl (Z.of_N x).
Proof.
  intros [Hx Hlt]. pose proof (read_uint_pretty x "" Hlt) as Hr. destruct (pretty_go_head x "" Hx) as (c & t & Heq & _).
  unfold uint_of. rewrite Heq in *. exact Hr.
Qed.

Lemma signed_digits (neg : bool) x t : (0 < x)%N →
  signed ((if neg then "-" else "") +:+ pretty_N_go x t) = (neg, pretty_N_go x t).
Proof.
  intros Hx. destruct (pretty_go_head x t Hx) as (c & u & -> & Hc). destruct neg; [done|]. by apply digit_unsigned.
Qed.

Lemma ParseUint_pretty z : is_u64 z → ParseUint (pretty z) = Ok z.
Proof.
  intros Hz. destruct (decide (z = 0%Z)) as [->|Hz0]; [done|]. unfold is_u64, two64 in Hz.
  rewrite pretty_digits by done. rewrite (proj2 (Z.ltb_ge _ _)) by lia. unfold ParseUint. change ("" +:+ ?s) with s.
  rewrite uint_of_digits by lia. f_equal. lia.
Qed.

Lemma Atoi_pretty z : is_int64 z → Atoi (pretty z) = Ok z.
Proof.
  intros Hz. destruct (decide (z = 0%Z)) as [->|Hz0]; [done|]. unfold is_int64, two63 in Hz.
  rewrite pretty_digits by done. unfold Atoi. rewrite signed_digits by lia. rewrite uint_of_digits by lia.
  destruct (Z.ltb_spec z 0).
  - rewrite (proj2 (Z.ltb_ge _ _)) by (unfold two63; lia). f_equal. lia.
  - rewrite (proj2 (Z.leb_gt _ _)) by (unfold two63; lia). f_equal. lia.
Qed.

(** A number of nanoseconds is one term. *)
Lemma term_of_digits x : (0 < x ≤ 9223372036854775808)%N → duration_term (pretty_N_go x "ns") = Some (Z.of_N x, "").
Proof.
  intros [Hx Hle]. pose proof (leadingInt_pretty x "ns" Hle) as Hl. destruct (pretty_go_head x "ns" Hx) as (c & t & Heq & Hc).
  unfold duration_term. rewrite Heq in *. rewrite Hl. rewrite (Is_true_true_1 _ Hc), orb_true_r. change (leadingInt (Z.of_N x) "ns") with (Some (Z.of_N x, "ns")).
  cbv beta iota. assert (String.eqb (String c t) "ns" = false) as ->.
  { apply String.eqb_neq. intros [= -> ->]. done. }
  cbn -[two63 Z.div Z.ltb Z.mul unit_text]. change (unit_text "ns") with ("ns", ""). cbn -[two63 Z.div Z.ltb Z.mul]. change (0 <? 0)%Z with false.
  change (two63 / 1)%Z with two63. rewrite (proj2 (Z.ltb_ge _ _)) by (unfold two63; lia).
  by rewrite Z.mul_1_r.
Qed.

Lemma append_assoc (a b c : string) : (a +:+ b) +:+ c = a +:+ (b +:+ c).
Proof. induction a as [|x a IH]; [done|]. change (String x ((a +:+ b) +:+ c) = String x (a +:+ (b +:+ c))). by rewrite IH. Qed.

(** The terms of a printed duration, whatever the fuel that is not too little. *)
Lemma terms_of_digits x fuel : (0 < x ≤ 9223372036854775808)%N →
  duration_terms (S fuel) 0 (pretty_N_go x "ns") = Some (Z.of_N x).
Proof.
  intros Hx. pose proof (term_of_digits x Hx) as Ht. destruct (pretty_go_head x "ns" ltac:(lia)) as (c & t & Heq & _).
  rewrite Heq in *. cbn [duration_terms]. rewrite Ht. rewrite u64_small by (unfold is_u64, two64; lia).
  rewrite (proj2 (Z.ltb_ge _ _)) by (unfold two63; lia). by destruct fuel.
Qed.

Lemma ParseDuration_pretty z : is_int64 z → ParseDuration (pretty z +:+ "ns") = Ok z.
Proof.
  intros Hz. destruct (decide (z = 0%Z)) as [->|Hz0]; [done|]. unfold is_int64, two63 in Hz.
  rewrite pretty_digits by done. rewrite append_assoc, <-pretty_go_app. change ("" +:+ "ns") with "ns".
  unfold ParseDuration. rewrite signed_digits by lia. set (x := Z.to_N (Z.abs z)).
  pose proof (terms_of_digits x (pred (String.length (pretty_N_go x "ns"))) ltac:(lia)) as Ht.
  destruct (pretty_go_head x "ns" ltac:(lia)) as (c & t & Heq & _).
  assert (pretty_N_go x "ns" ≠ "0") as H0 by (intros Heq0; rewrite Heq0 in Ht; vm_compute in Ht; done).
  rewrite (proj2 (String.eqb_neq _ _) H0), (proj2 (String.eqb_neq (pretty_N_go x "ns") "")) by (by rewrite Heq).
  replace (S (pred (String.length (pretty_N_go x "ns")))) with (String.length (pretty_N_go x "ns")) in Ht by (by rewrite Heq).
  rewrite Ht. destruct (Z.ltb_spec z 0) as [Hneg|Hpos].
  - f_equal. subst x. unfold i64. unfold two63, two64.
    replace (Z.of_N (Z.to_N (Z.abs z))) with (- z)%Z by lia. destruct (decide (z = - 9223372036854775808)%Z) as [->|]; [done|].
    rewrite (Z.mod_small (- z + _)) by lia. rewrite Z.mod_small by lia. lia.
  - rewrite (proj2 (Z.ltb_ge _ _)) by (unfold MaxInt64; lia). f_equal. lia.
Qed.

End Parsing.
