(* ===== verification/Process.v ===== *)
(** * Process.v: the generic Host process

    [cmd/host]: the configuration read from the environment ([config.go]) and [Run]
    ([main.go]), which composes a Host from it and from what a product's bootstrap
    supplies.  Core's words for an isolation class and a placement are arguments.  *)
From Stdlib Require Import ZArith Ascii.
From stdpp Require Import base list strings gmap pretty.
From S2P Require Import Prelude Wire Errors Effects Department HostOptions Composition Parsing.

Module Process.
Import Parsing.
Local Open Scope prog_scope.

(** ** The configuration *)

Record Config := mkConfig {
  HostID : string; HostGeneration : Z; InternalEndpoint : string; IsolationClass : string; Placement : string; Capacity : Z;
  FixedSessionID : string;
  WarmTTL : Z; RegistryHeartbeat : Z; RegistryExpiry : Z; ClaimTTL : Z; ApplyDeadline : Z; ReconcileInterval : Z;
  CommandQueueSize : Z; ReconcileBatch : Z;
  ListenAddress : string; PingInterval : Z; PongTimeout : Z; MaxBindingsPerLink : Z; MaxBindings : Z; MaxTenantLinks : Z;
  Grace : Z; IdleBoundary : Z; PublishBound : Z; CompatibilityTimeout : Z; WorkPoll : Z
}.

Abbreviation Environment := (string → option string).

Definition errNotSet : error := EForeign "not set".
Definition ConfigError (variable : string) (cause : error) : error := ETyped (TConfigError variable) (Some cause).

(** [environmentReader]: a computation that carries the first failure. *)
Definition Reader (A : Type) : Type := option error → A * option error.
Definition pure {A} (a : A) : Reader A := fun err => (a, err).
#[export] Instance Reader_bind : MBind Reader := fun A B f m err => let '(a, err) := m err in f a err.

Section config.
Context (lookup : Environment).

Definition text (name : string) : Reader string := fun err =>
  match err with
  | Some e => ("", Some e)
  | None =>
      match lookup name with
      | None | Some "" => ("", Some (ConfigError name errNotSet))
      | Some value => (value, None)
      end
  end.

(** [duration], [unsigned] and [count], which differ in the parser. *)
Definition parsed (parse : string → res Z) (name : string) : Reader Z := fun err =>
  let '(value, err) := text name err in
  match err with
  | Some e => (0%Z, Some e)
  | None => match parse value with Err e => (0%Z, Some (ConfigError name e)) | Ok z => (z, None) end
  end.

Definition duration : string → Reader Z := parsed ParseDuration.
Definition unsigned : string → Reader Z := parsed ParseUint.
Definition count : string → Reader Z := parsed Atoi.

(** The heartbeat, read when its interval is supplied. *)
Definition heartbeat : Reader (Z * Z) :=
  match lookup "HOST_PING_INTERVAL" with
  | None => pure (0%Z, 0%Z)
  | Some _ => ping ← duration "HOST_PING_INTERVAL"; pong ← duration "HOST_PONG_TIMEOUT"; pure (ping, pong)
  end.

(** The reads of [LoadConfig], in the order a composite literal evaluates them. *)
Definition readConfig : Reader Config :=
  host ← text "HOST_ID"; generation ← unsigned "HOST_GENERATION"; endpoint ← text "HOST_INTERNAL_ENDPOINT";
  isolation ← text "HOST_ISOLATION_CLASS"; placement ← text "HOST_PLACEMENT"; capacity ← unsigned "HOST_CAPACITY";
  warm ← duration "HOST_WARM_TTL"; beat ← duration "HOST_REGISTRY_HEARTBEAT"; expiry ← duration "HOST_REGISTRY_EXPIRY";
  claim ← duration "HOST_CLAIM_TTL"; deadline ← duration "HOST_APPLY_DEADLINE"; reconcile ← duration "HOST_RECONCILE_INTERVAL";
  queue ← count "HOST_COMMAND_QUEUE_SIZE"; batch ← count "HOST_RECONCILE_BATCH";
  listen ← text "HOST_LISTEN_ADDRESS"; perLink ← count "HOST_MAX_BINDINGS_PER_LINK"; bindings ← count "HOST_MAX_BINDINGS";
  links ← count "HOST_MAX_TENANT_LINKS";
  grace ← duration "HOST_DRAIN_GRACE"; idle ← duration "HOST_DRAIN_IDLE_BOUNDARY"; publish ← duration "HOST_DRAIN_PUBLISH_BOUND";
  compatibility ← duration "HOST_COMPATIBILITY_TIMEOUT"; poll ← duration "HOST_WORK_POLL";
  beats ← heartbeat;
  pure (mkConfig host generation endpoint isolation placement capacity (default "" (lookup "HOST_FIXED_SESSION_ID"))
    warm beat expiry claim deadline reconcile queue batch listen beats.1 beats.2 perLink bindings links grace idle publish compatibility poll).

Definition LoadConfig : res Config :=
  match readConfig None with
  | (_, Some err) => Err err
  | (config, None) => Ok config
  end.

End config.

(** ** Running *)

(** [Bootstrap]: what a product supplies besides its backend. *)
Record Bootstrap := mkBootstrap {
  JournalStores : gmap (string * string) (option nat); has_Registrar : bool; has_Checkpointer : bool; has_Auth : bool;
  has_Workspaces : bool; has_NamespaceLayout : bool
}.

(** [unconfiguredBootstrap]. *)
Definition unconfiguredBootstrap : Bootstrap :=
  mkBootstrap {[("unconfigured", "unconfigured") := Some 0]} true true true true true.
Definition errNoBootstrap : error := ESentinel "main.errNoBootstrap".

(** [Bootstrap.Backend], whether it answers a backend, or a call the composed Host makes. *)
Inductive PE : Type → Type :=
| PBackend : PE (res bool)
| PHost {X} (e : Composition.CE X) : PE X.

Section run.
Context (isolation_of : string → HostIsolationClass) (placement_of : string → HostPlacement).
Context (tenant_valid : string → bool) (IsRuntimeJournal : nat → bool).
Context (MaxIDBytes : nat) (agent_id_valid : string → bool).
Context (host_New : HostOptions.Options → HostOptions.InvalidOptionsError + HostOptions.Options).

(** The blueprint [Run] builds. *)
Definition composition (c : Config) (b : Bootstrap) (backend : bool) : Composition.Composition :=
  Composition.mkComposition 0
    (HostOptions.mkOptions (HostID c) (InternalEndpoint c) (isolation_of (IsolationClass c)) false false false false false
      (placement_of (Placement c)) (Capacity c) (FixedSessionID c) (WarmTTL c) (RegistryHeartbeat c) (RegistryExpiry c)
      (ClaimTTL c) (ApplyDeadline c) (CommandQueueSize c) (ReconcileInterval c) (ReconcileBatch c))
    (HostGeneration c)
    (Composition.mkLink (PingInterval c) (PongTimeout c) (MaxBindingsPerLink c) (MaxBindings c) (MaxTenantLinks c))
    (Composition.mkDrain (Grace c) (IdleBoundary c) (PublishBound c))
    None (CompatibilityTimeout c) (WorkPoll c) false Composition.RuntimeProfileDurable
    (Composition.mkCollaborators backend (JournalStores b) (has_Registrar b) (has_Checkpointer b) (has_Auth b) (has_Workspaces b)
      (has_NamespaceLayout b) false).

(** [Run]. *)
Definition Run (lookup : Environment) (b : Bootstrap) : prog PE (option error) :=
  match LoadConfig lookup with
  | Err err => Ret (Some err)
  | Ok config =>
      let! backend := call PBackend in
      match backend with
      | Err err => Ret (Some (ETyped TWrapError (Some err)))
      | Ok backend =>
          interp (fun X e => call (PHost e))
            (Composition.Run tenant_valid IsRuntimeJournal MaxIDBytes agent_id_valid host_New (composition config b backend))
      end
  end.

End run.
(** ** What a configuration says *)

(** The variables that must be set, with the fields that hold them. *)
Definition texts (c : Config) : list (string * string) :=
  [("HOST_ID", HostID c); ("HOST_INTERNAL_ENDPOINT", InternalEndpoint c); ("HOST_ISOLATION_CLASS", IsolationClass c);
   ("HOST_PLACEMENT", Placement c); ("HOST_LISTEN_ADDRESS", ListenAddress c)].
Definition unsigneds (c : Config) : list (string * Z) := [("HOST_GENERATION", HostGeneration c); ("HOST_CAPACITY", Capacity c)].
Definition counts (c : Config) : list (string * Z) :=
  [("HOST_COMMAND_QUEUE_SIZE", CommandQueueSize c); ("HOST_RECONCILE_BATCH", ReconcileBatch c);
   ("HOST_MAX_BINDINGS_PER_LINK", MaxBindingsPerLink c); ("HOST_MAX_BINDINGS", MaxBindings c); ("HOST_MAX_TENANT_LINKS", MaxTenantLinks c)].
Definition durations (c : Config) : list (string * Z) :=
  [("HOST_WARM_TTL", WarmTTL c); ("HOST_REGISTRY_HEARTBEAT", RegistryHeartbeat c); ("HOST_REGISTRY_EXPIRY", RegistryExpiry c);
   ("HOST_CLAIM_TTL", ClaimTTL c); ("HOST_APPLY_DEADLINE", ApplyDeadline c); ("HOST_RECONCILE_INTERVAL", ReconcileInterval c);
   ("HOST_DRAIN_GRACE", Grace c); ("HOST_DRAIN_IDLE_BOUNDARY", IdleBoundary c); ("HOST_DRAIN_PUBLISH_BOUND", PublishBound c);
   ("HOST_COMPATIBILITY_TIMEOUT", CompatibilityTimeout c); ("HOST_WORK_POLL", WorkPoll c)].
Definition beats (c : Config) : list (string * Z) := [("HOST_PING_INTERVAL", PingInterval c); ("HOST_PONG_TIMEOUT", PongTimeout c)].

Section spec.
Context (lookup : Environment).

Definition given (p : string * string) : Prop := lookup p.1 = Some p.2 ∧ p.2 ≠ "".
Definition says (parse : string → res Z) (p : string * Z) : Prop := ∃ s, lookup p.1 = Some s ∧ s ≠ "" ∧ parse s = Ok p.2.

(** [c] is what the environment says. *)
Definition faithful (c : Config) : Prop :=
  Forall given (texts c) ∧ Forall (says ParseUint) (unsigneds c) ∧ Forall (says Atoi) (counts c) ∧
  Forall (says ParseDuration) (durations c) ∧ FixedSessionID c = default "" (lookup "HOST_FIXED_SESSION_ID") ∧
  match lookup "HOST_PING_INTERVAL" with
  | None => PingInterval c = 0%Z ∧ PongTimeout c = 0%Z
  | Some _ => Forall (says ParseDuration) (beats c)
  end.

Inductive kind := KText | KUnsigned | KCount | KDuration.

(** What is wrong with a variable. *)
Definition parse_problem (k : kind) (value : string) : option error :=
  let refused (r : res Z) := match r with Err e => Some e | Ok _ => None end in
  match k with KText => None | KUnsigned => refused (ParseUint value) | KCount => refused (Atoi value) | KDuration => refused (ParseDuration value) end.

Definition problem (v : string * kind) : option error :=
  match lookup v.1 with
  | None | Some "" => Some (ConfigError v.1 errNotSet)
  | Some value => ConfigError v.1 <$> parse_problem v.2 value
  end.

(** The variables in the order they are read. *)
Definition variables : list (string * kind) :=
  [("HOST_ID", KText); ("HOST_GENERATION", KUnsigned); ("HOST_INTERNAL_ENDPOINT", KText); ("HOST_ISOLATION_CLASS", KText);
   ("HOST_PLACEMENT", KText); ("HOST_CAPACITY", KUnsigned); ("HOST_WARM_TTL", KDuration); ("HOST_REGISTRY_HEARTBEAT", KDuration);
   ("HOST_REGISTRY_EXPIRY", KDuration); ("HOST_CLAIM_TTL", KDuration); ("HOST_APPLY_DEADLINE", KDuration);
   ("HOST_RECONCILE_INTERVAL", KDuration); ("HOST_COMMAND_QUEUE_SIZE", KCount); ("HOST_RECONCILE_BATCH", KCount);
   ("HOST_LISTEN_ADDRESS", KText); ("HOST_MAX_BINDINGS_PER_LINK", KCount); ("HOST_MAX_BINDINGS", KCount); ("HOST_MAX_TENANT_LINKS", KCount);
   ("HOST_DRAIN_GRACE", KDuration); ("HOST_DRAIN_IDLE_BOUNDARY", KDuration); ("HOST_DRAIN_PUBLISH_BOUND", KDuration);
   ("HOST_COMPATIBILITY_TIMEOUT", KDuration); ("HOST_WORK_POLL", KDuration)] ++
  match lookup "HOST_PING_INTERVAL" with
  | None => []
  | Some _ => [("HOST_PING_INTERVAL", KDuration); ("HOST_PONG_TIMEOUT", KDuration)]
  end.

(** [m] reads [vs] in order: it carries the first problem, its own or an earlier one,
    and without any its value is a [Q]. *)
Definition reads {A} (m : Reader A) (vs : list (string * kind)) (Q : A → Prop) : Prop :=
  ∀ err a err', m err = (a, err') →
    err' = match err with Some e => Some e | None => first_problem (problem <$> vs) end ∧ (err' = None → Q a).

Lemma reads_pure {A} (a : A) (Q : A → Prop) : Q a → reads (pure a) [] Q.
Proof. intros HQ err x err' [= <- <-]. by destruct err. Qed.

Lemma reads_bind {A B} (m : Reader A) (f : A → Reader B) vs ws Q (R : B → Prop) :
  reads m vs Q → (∀ a, reads (f a) ws (fun b => Q a → R b)) → reads (m ≫= f) (vs ++ ws) R.
Proof.
  intros Hm Hf err b err'. unfold mbind, Reader_bind. destruct (m err) as [a e] eqn:He. intros Hb.
  destruct (Hm _ _ _ He) as [-> Ha]. destruct (Hf a _ _ _ Hb) as [-> Hr]. rewrite fmap_app, first_problem_app.
  destruct err as [x|]; [done|]. destruct (first_problem (problem <$> vs)); [done|]. split; [done|]. intros Hn. by apply Hr, Ha.
Qed.

Lemma reads_text name : reads (text lookup name) [(name, KText)] (fun v => given (name, v)).
Proof.
  intros [e|] a err'; simpl; [by intros [= <- <-]|]. unfold problem, given. simpl.
  destruct (lookup name) as [[|c v]|]; intros [= <- <-]; done.
Qed.

Lemma reads_parsed parse k name :
  (∀ v, parse_problem k v = match parse v with Err e => Some e | Ok _ => None end) →
  reads (parsed lookup parse name) [(name, k)] (fun z => says parse (name, z)).
Proof.
  intros Hk [e|] a err'; unfold parsed; simpl; [by intros [= <- <-]|]. unfold problem, says. simpl.
  destruct (lookup name) as [[|c v]|]; [by intros [= <- <-]| |by intros [= <- <-]]. rewrite Hk.
  destruct (parse (String c v)) as [z|e] eqn:Hp; intros [= <- <-]; split; try done. intros _. by exists (String c v).
Qed.

Lemma reads_duration name : reads (duration lookup name) [(name, KDuration)] (fun z => says ParseDuration (name, z)).
Proof. by apply reads_parsed. Qed.
Lemma reads_unsigned name : reads (unsigned lookup name) [(name, KUnsigned)] (fun z => says ParseUint (name, z)).
Proof. by apply reads_parsed. Qed.
Lemma reads_count name : reads (count lookup name) [(name, KCount)] (fun z => says Atoi (name, z)).
Proof. by apply reads_parsed. Qed.

Lemma reads_heartbeat :
  reads (heartbeat lookup)
    match lookup "HOST_PING_INTERVAL" with
    | None => []
    | Some _ => [("HOST_PING_INTERVAL", KDuration); ("HOST_PONG_TIMEOUT", KDuration)]
    end
    (fun b => match lookup "HOST_PING_INTERVAL" with
              | None => b = (0%Z, 0%Z)
              | Some _ => says ParseDuration ("HOST_PING_INTERVAL", b.1) ∧ says ParseDuration ("HOST_PONG_TIMEOUT", b.2)
              end).
Proof.
  unfold heartbeat. destruct (lookup "HOST_PING_INTERVAL"); [|by apply reads_pure].
  apply (reads_bind _ _ [_] [_] _ _ (reads_duration _)). intros ping. apply (reads_bind _ _ [_] [] _ _ (reads_duration _)).
  intros pong. by apply reads_pure.
Qed.

Lemma reads_eq {A} (m : Reader A) vs ws Q : vs = ws → reads m vs Q → reads m ws Q.
Proof. by intros ->. Qed.

Lemma readConfig_reads : reads (readConfig lookup) variables faithful.
Proof.
  unfold readConfig. eapply reads_eq; cycle 1.
  - repeat (eapply reads_bind; [first [apply reads_text|apply reads_unsigned|apply reads_count|apply reads_duration|apply reads_heartbeat]|intros ?]).
    apply reads_pure. intros Hbeats. intros. unfold faithful, texts, unsigneds, counts, durations, beats. simpl.
    rewrite !Forall_cons, !Forall_nil. split_and!; try done.
    destruct (lookup "HOST_PING_INTERVAL"); [rewrite !Forall_cons, Forall_nil; by destruct Hbeats|]. by rewrite Hbeats.
  - unfold variables. by rewrite !app_nil_r.
Qed.

(** There is one configuration an environment says. *)
Lemma says_inj parse name z w : says parse (name, z) → says parse (name, w) → z = w.
Proof. unfold says. simpl. intros (s & H1 & _ & H2) (s' & H3 & _ & H4). congruence. Qed.

Lemma given_inj name v w : given (name, v) → given (name, w) → v = w.
Proof. unfold given. simpl. intros [H1 _] [H2 _]. congruence. Qed.

Ltac each_field := repeat match goal with H : Forall _ (_ :: _) |- _ => apply Forall_cons_1 in H as [? ?] end.

Lemma faithful_inj c c' : faithful c → faithful c' → c = c'.
Proof.
  destruct c, c'. unfold faithful, texts, unsigneds, counts, durations, beats. simpl.
  intros (Ht & Hu & Hn & Hd & Hf & Hb) (Ht' & Hu' & Hn' & Hd' & Hf' & Hb').
  assert (PingInterval0 = PingInterval1 ∧ PongTimeout0 = PongTimeout1) as [-> ->].
  { destruct (lookup "HOST_PING_INTERVAL"); [|destruct_and!; split; congruence]. each_field. split; (eapply says_inj; eassumption). }
  each_field. f_equal; first [eapply given_inj; eassumption|eapply says_inj; eassumption|congruence].
Qed.

Lemma given_fine name v : given (name, v) → problem (name, KText) = None.
Proof. unfold given, problem. simpl. intros [-> Hv]. by destruct v. Qed.

Lemma says_fine parse k name z :
  (∀ v, parse_problem k v = match parse v with Err e => Some e | Ok _ => None end) → says parse (name, z) → problem (name, k) = None.
Proof. unfold says, problem. simpl. intros Hk (s & -> & Hs & Hp). rewrite Hk, Hp. by destruct s. Qed.

Lemma faithful_fine c : faithful c → first_problem (problem <$> variables) = None.
Proof.
  unfold faithful, texts, unsigneds, counts, durations, beats. intros (Ht & Hu & Hn & Hd & _ & Hb). each_field.
  rewrite first_problem_None, Forall_fmap. unfold variables. rewrite Forall_app. split.
  - rewrite !Forall_cons, Forall_nil. unfold compose. split_and!; try done; first [by eapply given_fine|by eapply (says_fine ParseUint)|by eapply (says_fine Atoi)|by eapply (says_fine ParseDuration)].
  - destruct (lookup "HOST_PING_INTERVAL"); [|by constructor]. each_field. rewrite !Forall_cons, Forall_nil. split_and!; [by eapply (says_fine ParseDuration)..|done].
Qed.

Lemma loaded c : LoadConfig lookup = Ok c ↔ faithful c.
Proof.
  unfold LoadConfig. destruct (readConfig lookup None) as [c' err] eqn:H. destruct (readConfig_reads _ _ _ H) as [-> Hc].
  split.
  - destruct (first_problem _) eqn:Hp; [done|]. intros [= <-]. by apply Hc.
  - intros Hf. rewrite (faithful_fine _ Hf) in *. f_equal. by apply faithful_inj; [apply Hc|].
Qed.

End spec.

(** C20 A configuration loads exactly when the environment says it: every variable that must
    be set is, and parses, and each field holds the value of its own variable. *)
Theorem LoadConfig_exact (lookup : Environment) c : LoadConfig lookup = Ok c ↔ faithful lookup c.
Proof. apply loaded. Qed.

(** An environment that does not load is refused for the first variable, in the order of
    reading, that is missing, empty or does not parse, and the error names it. *)
Theorem LoadConfig_first_problem (lookup : Environment) e :
  LoadConfig lookup = Err e ↔ first_problem (problem lookup <$> variables lookup) = Some e.
Proof.
  unfold LoadConfig. destruct (readConfig lookup None) as [c err] eqn:H. destruct (readConfig_reads lookup _ _ _ H) as [-> _].
  destruct (first_problem _) as [x|]; split; congruence.
Qed.

(** ** Every configuration can be said *)

(** The widths of the fields, and texts that are not empty. *)
Definition expressible (c : Config) : Prop :=
  Forall (fun p => p.2 ≠ "") (texts c) ∧ Forall (fun p => is_u64 p.2) (unsigneds c) ∧ Forall (fun p => is_int64 p.2) (counts c) ∧
  Forall (fun p => is_int64 p.2) (durations c) ∧ Forall (fun p => is_int64 p.2) (beats c).

(** The environment that says [c], durations in nanoseconds. *)
Definition printed (c : Config) : list (string * string) :=
  ("HOST_FIXED_SESSION_ID", FixedSessionID c) :: texts c ++ (prod_map id pretty <$> unsigneds c ++ counts c) ++
  (prod_map id (fun d => pretty d +:+ "ns") <$> durations c ++ beats c).
Definition environ (c : Config) : Environment := fun name => (list_to_map (printed c) : gmap string string) !! name.

Lemma environ_elem c name v : (name, v) ∈ printed c → environ c name = Some v.
Proof.
  intros Hin. apply elem_of_list_to_map_1; [|done]. apply (bool_decide_unpack _). by vm_compute.
Qed.

Lemma says_printed parse show (range : Z → Prop) c (l : list (string * Z)) :
  (∀ z, range z → show z ≠ "" ∧ parse (show z) = Ok z) →
  (∀ p, p ∈ l → (p.1, show p.2) ∈ printed c) → Forall (fun p => range p.2) l → Forall (says (environ c) parse) l.
Proof.
  intros Hparse Hl. rewrite !Forall_forall. intros Hr [name z] Hin. destruct (Hparse z (Hr _ Hin)) as [Hne Hp].
  exists (show z). by rewrite (environ_elem _ _ _ (Hl _ Hin)).
Qed.

Lemma pretty_nonempty (z : Z) : pretty z ≠ "".
Proof.
  destruct (decide (z = 0%Z)) as [->|Hz]; [done|]. rewrite pretty_digits by done.
  destruct (pretty_go_head (Z.to_N (Z.abs z)) "" ltac:(lia)) as (c & t & -> & _). by destruct (z <? 0)%Z.
Qed.

Lemma printed_in c (show : Z → string) (l : list (string * Z)) :
  prod_map id show <$> l ⊆ printed c → ∀ p, p ∈ l → (p.1, show p.2) ∈ printed c.
Proof. intros Hs [name z] Hin. apply Hs. apply list_elem_of_fmap. by exists (name, z). Qed.

Lemma says_range parse (range : Z → Prop) lookup l :
  (∀ s z, parse s = Ok z → range z) → Forall (says lookup parse) l → Forall (fun p => range p.2) l.
Proof. intros Hr Hl. eapply Forall_impl; [exact Hl|]. intros p (s & _ & _ & Hp). by eapply Hr. Qed.

Lemma faithful_expressible lookup c : faithful lookup c → expressible c.
Proof.
  intros (Ht & Hu & Hn & Hd & _ & Hb). split_and!.
  - eapply Forall_impl; [exact Ht|]. by intros p [_ ?].
  - by eapply says_range; [apply ParseUint_range|].
  - by eapply says_range; [apply Atoi_range|].
  - by eapply says_range; [apply ParseDuration_range|].
  - destruct (lookup "HOST_PING_INTERVAL"); [by eapply says_range; [apply ParseDuration_range|]|].
    destruct Hb as [H1 H2]. unfold beats. rewrite !Forall_cons, Forall_nil. simpl. rewrite H1, H2. unfold is_int64, two63. lia.
Qed.

Ltac in_printed := unfold printed; rewrite ?fmap_app, elem_of_cons, !elem_of_app; tauto.

Lemma printed_faithful c : expressible c → faithful (environ c) c.
Proof.
  intros (Ht & Hu & Hn & Hd & Hb).
  assert (∀ z, is_int64 z → pretty z +:+ "ns" ≠ "" ∧ ParseDuration (pretty z +:+ "ns") = Ok z) as Hdur.
  { intros z Hz. split; [|by apply ParseDuration_pretty]. pose proof (pretty_nonempty z). by destruct (pretty z). }
  split_and!.
  - rewrite Forall_forall in *. intros [name v] Hin. split; [|by apply (Ht _ Hin)]. apply environ_elem. in_printed.
  - eapply says_printed; [|apply printed_in|exact Hu]; [intros z Hz; split; [apply pretty_nonempty|by apply ParseUint_pretty]|].
    intros p Hp. in_printed.
  - eapply says_printed; [|apply printed_in|exact Hn]; [intros z Hz; split; [apply pretty_nonempty|by apply Atoi_pretty]|].
    intros p Hp. in_printed.
  - eapply says_printed; [exact Hdur|apply printed_in|exact Hd]. intros p Hp. in_printed.
  - by rewrite (environ_elem c "HOST_FIXED_SESSION_ID" (FixedSessionID c)) by in_printed.
  - assert (("HOST_PING_INTERVAL", pretty (PingInterval c) +:+ "ns") ∈ printed c) as ->%environ_elem.
    { apply (printed_in c (fun d => pretty d +:+ "ns") (beats c) ltac:(intros p Hp; in_printed) ("HOST_PING_INTERVAL", PingInterval c)). by left. }
    eapply says_printed; [exact Hdur|apply printed_in|exact Hb]. intros p Hp. in_printed.
Qed.

(** Every configuration of the right widths, its texts not empty, is loaded back from
    the environment that prints it; and no environment loads any other. *)
Theorem config_roundtrip c :
  (expressible c → LoadConfig (environ c) = Ok c) ∧ (∀ lookup, LoadConfig lookup = Ok c → expressible c).
Proof.
  split; [intros Hc; by apply loaded, printed_faithful|]. intros lookup Hl. by eapply faithful_expressible, loaded.
Qed.

(** ** What a process does to the store *)

Section store.
Context (isolation_of : string → HostIsolationClass) (placement_of : string → HostPlacement).
Context (tenant_valid : string → bool) (IsRuntimeJournal : nat → bool).
Context (MaxIDBytes : nat) (agent_id_valid : string → bool).
Context (host_New : HostOptions.Options → HostOptions.InvalidOptionsError + HostOptions.Options).

Abbreviation Run := (Run isolation_of placement_of tenant_valid IsRuntimeJournal MaxIDBytes agent_id_valid host_New).

(** What a process observes of the Host it runs. *)
Definition host_obs (o : obs PE) : option (obs Composition.CE) :=
  match o with Obs e x => match e in PE X return X → option (obs Composition.CE) with PBackend => fun _ => None | PHost e => fun x => Some (Obs e x) end x end.
Definition of_host (f : obs Composition.CE → bool) (o : obs PE) : bool := default false (f <$> host_obs o).
Definition backend_answer (o : obs PE) : option (res bool) :=
  match o with Obs e x => match e in PE X return X → option (res bool) with PBackend => fun r => Some r | PHost _ => fun _ => None end x end.

Lemma lifted_trace {A} (p : prog Composition.CE A) t a :
  runs (interp (fun X e => call (PHost e)) p) t a → runs p (omap host_obs t) a ∧ omap backend_answer t = [].
Proof.
  rewrite runs_interp. intros (cs & -> & Hp & Hm).
  enough (omap host_obs (mjoin cs.*2) = cs.*1 ∧ omap backend_answer (mjoin cs.*2) = []) as [-> ?] by done.
  clear Hp. induction Hm as [|[[X e x] l] cs Ho _ [IH1 IH2]]; [done|]. rewrite !fmap_cons, mjoin_cons, !omap_app, IH1, IH2.
  destruct Ho as (x' & t' & -> & -> & ->). done.
Qed.

(** C12 A process that cannot read its configuration asks nothing of anyone; one whose
    bootstrap answers no backend asks nothing more; and one that opens its session store
    closes it exactly once, unless its first advertisement or its drain is refused. *)
Theorem process_store lookup b t r :
  runs (Run lookup b) t r →
  (∀ e, LoadConfig lookup = Err e → t = [] ∧ r = Some e) ∧
  (∀ e, Err e ∈ omap backend_answer t → omap host_obs t = [] ∧ r = Some (ETyped TWrapError (Some e))) ∧
  length (omap backend_answer t) ≤ 1 ∧
  let calls := omap host_obs t in
  Effects.count Composition.opened calls = 1 →
  Effects.count Composition.closed calls + Effects.count Composition.drain_refused calls + Effects.count Composition.publication_refused calls = 1.
Proof.
  unfold Run. destruct (LoadConfig lookup) as [c|e]; simpl.
  - intros (answer & t' & -> & Hr). destruct answer as [backend|e]; simpl in Hr.
    + apply lifted_trace in Hr as [Hr Hb].
      change (omap backend_answer (Obs PBackend (Ok backend) :: t')) with (Ok backend :: omap backend_answer t').
      change (omap host_obs (Obs PBackend (Ok backend) :: t')) with (omap host_obs t'). rewrite Hb. split_and!; [done| |simpl; lia|by eapply Composition.run_closes_once].
      intros e. rewrite list_elem_of_singleton. done.
    + destruct Hr as [-> ->]. simpl. split_and!; [done| |lia|done]. intros e'. rewrite list_elem_of_singleton. by intros [= ->].
  - intros [-> ->]. split_and!; [by intros ? [= ->]| |simpl; lia|done]. intros e'. simpl. by rewrite elem_of_nil.
Qed.

(** The blueprint of a configuration is valid exactly when its generation is not zero and
    the bootstrap supplied everything: the process leaves out every option a composition
    refuses to be given. *)
Theorem blueprint_valid c b backend :
  Composition.validate (composition isolation_of placement_of c b backend) = None ↔
  HostGeneration c ≠ 0%Z ∧ backend = true ∧ JournalStores b ≠ ∅ ∧ has_Registrar b = true ∧ has_Checkpointer b = true ∧
  has_Auth b = true ∧ has_Workspaces b = true ∧ has_NamespaceLayout b = true.
Proof.
  destruct c, b as [stores registrar checkpointer auth workspaces layout]. unfold Composition.validate, composition. simpl.
  destruct (Z.eqb_spec HostGeneration0 0), (decide (stores = ∅)); rewrite ?bool_decide_true, ?bool_decide_false by done;
    destruct backend, registrar, checkpointer, auth, workspaces, layout; simpl;
    (split; [try done; intros _; split_and!; done|intros (? & ? & ? & ? & ? & ? & ? & ?); done]).
Qed.

End store.

(** ** Witnesses *)

(** One coherent deployment. *)
Definition sample_environment : Environment := fun name => (list_to_map [
  ("HOST_ID", "host-a"); ("HOST_GENERATION", "4"); ("HOST_INTERNAL_ENDPOINT", "ws://10.0.0.1:7100");
  ("HOST_ISOLATION_CLASS", "cross_tenant_isolated"); ("HOST_PLACEMENT", "pooled"); ("HOST_CAPACITY", "4"); ("HOST_WARM_TTL", "90s");
  ("HOST_REGISTRY_HEARTBEAT", "10s"); ("HOST_REGISTRY_EXPIRY", "60s"); ("HOST_CLAIM_TTL", "5s"); ("HOST_APPLY_DEADLINE", "30s");
  ("HOST_RECONCILE_INTERVAL", "1m"); ("HOST_COMMAND_QUEUE_SIZE", "16"); ("HOST_RECONCILE_BATCH", "32"); ("HOST_LISTEN_ADDRESS", "127.0.0.1:0");
  ("HOST_MAX_BINDINGS_PER_LINK", "4"); ("HOST_MAX_BINDINGS", "8"); ("HOST_MAX_TENANT_LINKS", "3"); ("HOST_DRAIN_GRACE", "30s");
  ("HOST_DRAIN_IDLE_BOUNDARY", "10s"); ("HOST_DRAIN_PUBLISH_BOUND", "5s"); ("HOST_COMPATIBILITY_TIMEOUT", "20s"); ("HOST_WORK_POLL", "1s")]
  : gmap string string) !! name.

Definition sample_config : Config :=
  mkConfig "host-a" 4 "ws://10.0.0.1:7100" "cross_tenant_isolated" "pooled" 4 "" 90000000000 10000000000 60000000000 5000000000 30000000000
    60000000000 16 32 "127.0.0.1:0" 0 0 4 8 3 30000000000 10000000000 5000000000 20000000000 1000000000.

Example sample_loads : LoadConfig sample_environment = Ok sample_config.
Proof. vm_compute. done. Qed.

(** A ping without a pong is refused for the pong. *)
Example pong_required :
  LoadConfig (fun name => if String.eqb name "HOST_PING_INTERVAL" then Some "25s" else sample_environment name) =
  Err (ConfigError "HOST_PONG_TIMEOUT" errNotSet).
Proof. vm_compute. done. Qed.

Lemma config_roundtrip_witness : expressible sample_config ∧ LoadConfig (environ sample_config) = Ok sample_config.
Proof.
  assert (expressible sample_config) as Hc by exact (proj2 (config_roundtrip sample_config) sample_environment sample_loads).
  split; [exact Hc|]. exact (proj1 (config_roundtrip sample_config) Hc).
Defined.

(** A bootstrap, and a Host over which everything succeeds. *)
Definition sample_bootstrap : Bootstrap := mkBootstrap {[("tenant", "binding") := Some 1]} true true true true true.

Definition sample_world (backend : res bool) : handler PE unit := fun X e u =>
  match e in PE X return X * unit with
  | PBackend => (backend, u)
  | PHost e => Composition.ask_ok None _ e u
  end.

Definition sample_process (b : Bootstrap) : prog PE (option error) :=
  Run (fun _ => HostIsolationClassCrossTenantIsolated) (fun _ => HostPlacementPooled) (fun _ => true) (fun _ => true) 512 (fun _ => true)
    Composition.sample_host_New sample_environment b.
Definition sample_result (b : Bootstrap) (backend : res bool) := exec (sample_world backend) (sample_process b) tt.

Lemma sample_process_runs b backend : runs (sample_process b) (sample_result b backend).2 (sample_result b backend).1.1.
Proof. apply (exec_runs (sample_world backend) (sample_process b) tt _ (sample_result b backend).1.2). unfold sample_result. by destruct (exec _ _ _) as [[? ?] ?]. Qed.

(** The generic binary stops at its bootstrap; a configured one closes what it opened. *)
Lemma process_store_witness :
  (sample_result unconfiguredBootstrap (Err errNoBootstrap)).1.1 = Some (ETyped TWrapError (Some errNoBootstrap)) ∧
  let calls := omap host_obs (sample_result sample_bootstrap (Ok true)).2 in
  Effects.count Composition.opened calls = 1 ∧
  Effects.count Composition.closed calls + Effects.count Composition.drain_refused calls + Effects.count Composition.publication_refused calls = 1.
Proof.
  split.
  - refine (proj2 (proj1 (proj2 (process_store _ _ _ _ _ _ _ _ _ _ _ (sample_process_runs unconfiguredBootstrap (Err errNoBootstrap)))) errNoBootstrap _)).
    vm_compute. left.
  - split; [vm_compute; reflexivity|].
    refine (proj2 (proj2 (proj2 (process_store _ _ _ _ _ _ _ _ _ _ _ (sample_process_runs sample_bootstrap (Ok true))))) _).
    vm_compute. reflexivity.
Defined.

End Process.
