(* ===== verification/Advertise.v ===== *)
(** * Advertise.v: what a Host says of itself

    [internal/compose/advertiser.go] (the target rows and the session rows a Host
    publishes, and the closing of both that a drain waits for) and [compat.go] (waiting
    for a session to be idle).  The capacity ledger, the registry and the two stores are
    asked through effects; a row is derived by [Capacity.v].                       *)
From Stdlib Require Import ZArith.
From stdpp Require Import base list strings gmap.
From S2P Require Import Prelude Wire Errors Effects Department HostOptions Registry Capacity Fence Warm.

Module Advertise.
Import Capacity.
Local Open Scope prog_scope.

Definition ErrTargetGenerationSuperseded : error := ESentinel "service.ErrTargetGenerationSuperseded".

Section advertiser.
Context {Rt Tgt : Type}.
Abbreviation Entry := (Registry.Entry Rt Tgt).

(** [ALedger] reads the ledger and the clock [Publish] derives its rows from. *)
Inductive AE : Type → Type :=
| ALedger : AE (CapacityPublisher * Z)
| APublishTarget (row : Advertisement) : AE (option error)
| AWithdrawTarget (row : Advertisement) : AE (option error)
| ASnapshot : AE (list Entry)
| ANow : AE Z
| APublishResidency (observation : RegistryObservation) : AE (option error).

(** [advertiser]: the Host it speaks for and its generation. *)
Record advertiser := mkAdvertiser { host : HostOptions.Options; generation : Z }.

Context (report_valid : HostOptions.Options → Z → Report → bool).

Definition AdvertisementError : error := ETyped (TOtherError "service.AdvertisementError") None.

(** The loop of [publishRows]: its failures. *)
Fixpoint publish_each (skipSuperseded : bool) (rows : list Advertisement) : prog AE (list error) :=
  match rows with
  | [] => Ret []
  | row :: rows =>
      let! err := call (if a_Tombstone row then AWithdrawTarget row else APublishTarget row) in
      let! rest := publish_each skipSuperseded rows in
      Ret match err with
          | Some e => if skipSuperseded && errors_is e ErrTargetGenerationSuperseded then rest else e :: rest
          | None => rest
          end
  end.

(** [publishRows]; [publish] is it with [skipSuperseded] unset. *)
Definition publishRows (skipSuperseded : bool) : prog AE (option error) :=
  let! ledger := call ALedger in
  match Capacity.Publish report_valid ledger.1 ledger.2 with
  | inl _ => Ret (Some AdvertisementError)
  | inr rows =>
      let! failures := publish_each skipSuperseded rows in
      Ret (errors_join (Some <$> failures))
  end.
Definition publish : prog AE (option error) := publishRows false.

(** [residencyOf]. *)
Definition residencyOf (state : Registry.ResidencyState) : SessionResidency :=
  match state with Registry.StateResident => SessionResidencyResident | _ => SessionResidencyReleasing end.

(** [nonaccepting]. *)
Definition nonaccepting (a : advertiser) (entry : Entry) (now : Z) : RegistryObservation :=
  mkObservation (Wire.TenantID (Registry.eKey entry)) (Wire.SessionID (Registry.eKey entry)) (HostOptions.HostID (host a)) (generation a)
    (Registry.AgentID entry) (Registry.CompatibilityID entry) (HostOptions.Placement (host a)) (HostOptions.InternalEndpoint (host a))
    (residencyOf (Registry.State entry)) false (Registry.LeaseEpoch entry) now (now + HostOptions.RegistryExpiry (host a))%Z.

(** The loop of [PublishNonaccepting] over the sessions. *)
Fixpoint close_each (a : advertiser) (entries : list Entry) : prog AE (list error) :=
  match entries with
  | [] => Ret []
  | entry :: entries =>
      let! now := call ANow in
      let! err := call (APublishResidency (nonaccepting a entry now)) in
      let! rest := close_each a entries in
      Ret match err with
          | Some e => if errors_is e Fence.ErrEpochSuperseded || errors_is e Fence.ErrLeaseNotHeld then rest else e :: rest
          | None => rest
          end
  end.

(** [PublishNonaccepting]. *)
Definition PublishNonaccepting (a : advertiser) : prog AE (option error) :=
  let! rows := publishRows true in
  let! entries := call ASnapshot in
  let! failures := close_each a entries in
  Ret (errors_join (rows :: (Some <$> failures))).

(** ** What the drain's acknowledgement waits for *)

Definition withdrawn (o : obs AE) : option (Advertisement * option error) :=
  match o with Obs e x => match e in AE X return X → option (Advertisement * option error) with
    AWithdrawTarget row => fun err => Some (row, err) | _ => fun _ => None end x end.
Definition advertised (o : obs AE) : option Advertisement :=
  match o with Obs e _ => match e with APublishTarget row => Some row | _ => None end end.
Definition closed (o : obs AE) : option (RegistryObservation * option error) :=
  match o with Obs e x => match e in AE X return X → option (RegistryObservation * option error) with
    APublishResidency observation => fun err => Some (observation, err) | _ => fun _ => None end x end.

Definition ledger_of (o : obs AE) : option (CapacityPublisher * Z) :=
  match o with Obs e x => match e in AE X return X → option (CapacityPublisher * Z) with ALedger => Some | _ => fun _ => None end x end.
Definition snapshot (o : obs AE) : option (list Entry) :=
  match o with Obs e x => match e in AE X return X → option (list Entry) with ASnapshot => Some | _ => fun _ => None end x end.

(** A row of this Host's that still says it accepts: not written, nor owned by another. *)
Definition row_stands (err : option error) : Prop := ∃ e, err = Some e ∧ errors_is e ErrTargetGenerationSuperseded = false.
Definition session_stands (err : option error) : Prop :=
  ∃ e, err = Some e ∧ errors_is e Fence.ErrEpochSuperseded = false ∧ errors_is e Fence.ErrLeaseNotHeld = false.

Lemma omap_some {A B} (f : A → option B) x y l : f x = Some y → omap f (x :: l) = y :: omap f l.
Proof. intros H. simpl. by rewrite H. Qed.
Lemma omap_none {A B} (f : A → option B) x l : f x = None → omap f (x :: l) = omap f l.
Proof. intros H. simpl. by rewrite H. Qed.

Lemma publish_each_runs rows t failures :
  Forall (fun row => a_Tombstone row = true) rows → runs (publish_each true rows) t failures →
  (omap withdrawn t).*1 = rows ∧ omap advertised t = [] ∧ omap closed t = [] ∧ omap snapshot t = [] ∧
  (failures = [] ↔ Forall (fun w => ¬ row_stands w.2) (omap withdrawn t)).
Proof.
  intros Hrows. revert t failures. induction Hrows as [|row rows Hrow _ IH]; intros t failures; cbn [publish_each].
  - intros [-> ->]. done.
  - rewrite Hrow. intros (err & t1 & -> & (t2 & t3 & rest & -> & H & [-> ->])%runs_bind)%runs_call. rewrite app_nil_r. destruct (IH _ _ H) as (H1 & H2 & H3 & H5 & H4).
    rewrite (omap_some withdrawn _ (row, err)), (omap_none advertised), (omap_none closed), (omap_none snapshot), fmap_cons, H1 by done. split_and!; [done|done|done|done|]. rewrite Forall_cons, <-H4. simpl. unfold row_stands. destruct err as [e|].
    + destruct (errors_is e ErrTargetGenerationSuperseded) eqn:He; simpl.
      * split; [|tauto]. intros ->. split; [|done]. intros (e' & [= <-] & He'). congruence.
      * split; [done|]. intros [Hn _]. exfalso. apply Hn. eauto.
    + split; [|tauto]. intros ->. split; [|done]. by intros (? & ? & _).
Qed.

Lemma close_each_runs a entries t failures :
  runs (close_each a entries) t failures →
  Forall2 (fun entry o => ∃ now, o.1 = nonaccepting a entry now) entries (omap closed t) ∧ omap withdrawn t = [] ∧ omap advertised t = [] ∧ omap snapshot t = [] ∧
  (failures = [] ↔ Forall (fun w => ¬ session_stands w.2) (omap closed t)).
Proof.
  revert t failures. induction entries as [|entry entries IH]; intros t failures; cbn [close_each].
  - intros [-> ->]. done.
  - intros (now & t1 & -> & (err & t2 & -> & (t3 & t4 & rest & -> & H & [-> ->])%runs_bind)%runs_call)%runs_call. rewrite app_nil_r. destruct (IH _ _ H) as (H1 & H2 & H3 & H5 & H4).
    rewrite !(omap_none advertised), !(omap_none withdrawn), !(omap_none snapshot), (omap_none closed), (omap_some closed _ (nonaccepting a entry now, err)) by done. split_and!; [constructor; [by eexists|done]|done|done|done|]. rewrite Forall_cons, <-H4. simpl. unfold session_stands. destruct err as [e|].
    + destruct (errors_is e Fence.ErrEpochSuperseded || errors_is e Fence.ErrLeaseNotHeld) eqn:He.
      * split; [|tauto]. intros ->. split; [|done]. intros (e' & [= <-] & He1 & He2). by rewrite He1, He2 in He.
      * split; [done|]. intros [Hn _]. exfalso. apply Hn. apply orb_false_iff in He as [? ?]. eauto.
    + split; [|tauto]. intros ->. split; [|done]. by intros (? & ? & _).
Qed.

Lemma draining_rows p now rows :
  draining p = true → Capacity.Publish report_valid p now = inr rows →
  Forall (fun row => a_Tombstone row = true) rows ∧ (fun row => r_AgentID (a_Report row)) <$> rows = l_agent <$> targets p.
Proof.
  intros Hd. unfold Capacity.Publish. revert rows. induction (targets p) as [|t ts IH]; intros rows; cbn [publish_targets]; [by intros [= <-]|].
  unfold advertise. rewrite Hd. destruct (report_valid _ _ _); [|done]. destruct (publish_targets _ _ _ _) as [e|rest] eqn:He; [done|]. intros [= <-].
  destruct (IH rest eq_refl) as [H1 H2]. rewrite !fmap_cons, H2. split; [by constructor|done].
Qed.

(** C32 A drain's rows are closed.  Once the ledger drains and its rows can be derived, one
    call withdraws the row of every target and advertises none, writes for every session
    of the snapshot, in order, that it does not accept, under its own lease epoch and
    generation, whatever the earlier writes answered; and it answers nil exactly when
    every row was written or belongs to a newer generation, and every session was written
    or belongs to a successor. *)
Theorem drain_closes_rows a p now rows t r
    (Hdraining : draining p = true) (Hrows : Capacity.Publish report_valid p now = inr rows) :
  runs (PublishNonaccepting a) (Obs ALedger (p, now) :: t) r →
  ((fun w => r_AgentID (a_Report w.1)) <$> omap withdrawn t = l_agent <$> targets p ∧ omap advertised t = []) ∧
  (∃ entries, omap snapshot t = [entries] ∧
    Forall2 (fun entry o => o_TenantID o.1 = Wire.TenantID (Registry.eKey entry) ∧ o_SessionID o.1 = Wire.SessionID (Registry.eKey entry) ∧
      o_Accepting o.1 = false ∧ o_LeaseEpoch o.1 = Registry.LeaseEpoch entry ∧ o_HostGeneration o.1 = generation a) entries (omap closed t)) ∧
  (r = None ↔ Forall (fun w => ¬ row_stands w.2) (omap withdrawn t) ∧ Forall (fun w => ¬ session_stands w.2) (omap closed t)).
Proof.
  intros (t1 & t2 & err & Ht & H1 & H2)%runs_bind. apply runs_call in H1 as (ledger & t1' & -> & H1). pose proof (f_equal (fun t => ledger_of <$> head t) Ht) as Hl.
  injection Ht as _ ->. simpl in Hl. injection Hl as <-. simpl in H1. rewrite Hrows in H1.
  apply runs_bind in H1 as (t3 & t4 & failed & -> & H3 & [-> ->]). rewrite app_nil_r. destruct (draining_rows _ _ _ Hdraining Hrows) as [Htomb Hagents].
  apply publish_each_runs in H3 as (W1 & W2 & W3 & W4 & W5); [|done].
  apply runs_call in H2 as (entries & t5 & -> & H2). apply runs_bind in H2 as (t6 & t7 & failures & -> & H6 & [-> ->]).
  apply close_each_runs in H6 as (C1 & C2 & C3 & C4 & C5). rewrite app_nil_r, !omap_app, W2, W3, W4,
    !(omap_none withdrawn), !(omap_none advertised), !(omap_none closed), (omap_some snapshot _ entries), C2, C3, C4, app_nil_r by done.
  cbn [app].
  split_and!.
  - by rewrite <-Hagents, <-W1, <-list_fmap_compose.
  - done.
  - exists entries. split; [done|]. eapply Forall2_impl; [exact C1|]. intros entry o (now' & ->). done.
  - rewrite errors_join_None, Forall_cons, errors_join_None, <-W5, <-C5, !Forall_fmap. destruct failed, failures; simpl; split; try done.
    all: intros [F1 F2]; repeat match goal with H : Forall _ (_ :: _) |- _ => apply Forall_cons in H as [? _] end; done.
Qed.
End advertiser.

(** ** Waiting for a session to be idle *)

(** [CompatibilityOutcome]. *)
Inductive CompatibilityOutcome :=
| CompatibilityIdle | CompatibilityGateBoundary | CompatibilityFailed | CompatibilityStopped | CompatibilityTimedOut.

Definition ErrNotResident : error := ESentinel "compose.ErrNotResident".

(** A case of [AwaitSessionIdle]'s select: what [WaitIdle] answered with the context's
    error then; the runtime done; the residency lost; the service stopping; the context
    done; the deadline; and a poll, with the session's work state if it is known. *)
Inductive await_case :=
| WIdle (err ctx : option error) | WDone | WLost | WStopping | WContext (err : error) | WDeadline | WPoll (state : option Warm.WorkState).

(** [atGate]. *)
Definition atGate (state : option Warm.WorkState) : bool := match state with Some Warm.WorkStateGateWaiting => true | _ => false end.

Definition await_one (c : await_case) : option (CompatibilityOutcome * option error) :=
  match c with
  | WIdle (Some err) (Some ctx) => Some (CompatibilityStopped, Some ctx)
  | WIdle (Some err) None => Some (CompatibilityFailed, Some err)
  | WIdle None _ => Some (CompatibilityIdle, None)
  | WDone | WLost => Some (CompatibilityFailed, None)
  | WStopping => Some (CompatibilityStopped, None)
  | WContext err => Some (CompatibilityStopped, Some err)
  | WDeadline => Some (CompatibilityTimedOut, None)
  | WPoll state => if atGate state then Some (CompatibilityGateBoundary, None) else None
  end.

(** [AwaitSessionIdle], of a session this Host holds or does not, over the cases chosen;
    [None] is a wait that goes on. *)
Fixpoint await (cases : list await_case) : option (CompatibilityOutcome * option error) :=
  match cases with
  | [] => None
  | c :: cases => match await_one c with Some answer => Some answer | None => await cases end
  end.
Definition AwaitSessionIdle (present : bool) (cases : list await_case) : option (res (CompatibilityOutcome * option error)) :=
  if present then Ok <$> await cases else Some (Err ErrNotResident).

(** A wait answers what ended it: idle only when the runtime said so, a gate only when a
    poll found one, a failure only of the runtime or of the residency; and it ends at
    the first case that is not a poll without a gate, the deadline at the latest. *)
Theorem await_answers cases :
  (∀ answer, await cases = Some answer → ∃ before c after, cases = before ++ c :: after ∧ await_one c = Some answer ∧
     Forall (fun c => ∃ state, c = WPoll state ∧ atGate state = false) before) ∧
  (WDeadline ∈ cases → await cases ≠ None) ∧
  (∀ err, await cases = Some (CompatibilityIdle, err) → ∃ ctx, WIdle None ctx ∈ cases) ∧
  (∀ err, await cases = Some (CompatibilityGateBoundary, err) → ∃ state, WPoll state ∈ cases ∧ atGate state = true).
Proof.
  assert (∀ answer, await cases = Some answer → ∃ before c after, cases = before ++ c :: after ∧ await_one c = Some answer ∧
     Forall (fun c => ∃ state, c = WPoll state ∧ atGate state = false) before) as Hfirst.
  { intros answer. induction cases as [|c cases IH]; simpl; [done|]. destruct (await_one c) as [a|] eqn:Hc.
    - intros [= ->]. exists [], c, cases. by repeat constructor.
    - intros (before & c' & after & -> & H1 & H2)%IH. exists (c :: before), c', after. split_and!; [done|done|]. constructor; [|done].
      destruct c as [[?|] [?|]| | | | | |state]; try done. exists state. split; [done|]. simpl in Hc. by destruct (atGate state). }
  split_and!; [exact Hfirst| | |].
  - clear Hfirst. induction cases as [|c cases IH]; [by intros ?%elem_of_nil|]. simpl. intros [<-|Hin]%elem_of_cons; [done|].
    destruct (await_one c); [done|by apply IH].
  - intros err (before & c & after & -> & Hc & _)%Hfirst. destruct c as [[?|] [?|]| | | | | |state]; try done; simpl in Hc.
    + eexists. apply elem_of_app. right. left.
    + eexists. apply elem_of_app. right. left.
    + by destruct (atGate state).
  - intros err (before & c & after & -> & Hc & _)%Hfirst. destruct c as [[?|] [?|]| | | | | |state]; try done. simpl in Hc.
    exists state. split; [apply elem_of_app; right; left|by destruct (atGate state)].
Qed.

(** ** Witness

    A draining ledger of one target, its row owned by a newer generation, and one
    session whose lease is gone. *)
Definition sample_entry : Registry.Entry nat nat := Registry.mkEntry (mkKey "t" "s1") "a" 0 "v1" 0 7 3 Registry.StateResident false 0 false.
Definition sample_draining : CapacityPublisher := BeginDrain sample_publisher.
Definition sample_advertiser : advertiser := mkAdvertiser (Capacity.host sample_publisher) 5.
Definition closing_env : handler (@AE nat nat) unit := fun X e u =>
  match e in AE X return X * unit with
  | ALedger => ((sample_draining, 100%Z), u)
  | APublishTarget _ => (None, u)
  | AWithdrawTarget _ => (Some ErrTargetGenerationSuperseded, u)
  | ASnapshot => ([sample_entry], u)
  | ANow => (101%Z, u)
  | APublishResidency _ => (Some Fence.ErrLeaseNotHeld, u)
  end.
Definition closing_run := exec closing_env (PublishNonaccepting (fun _ _ _ => true) sample_advertiser) tt.

Lemma drain_closes_rows_witness :
  closing_run.1.1 = None ∧
  (closing_run.1.1 = None ↔ Forall (fun w => ¬ row_stands w.2) (omap withdrawn (tail closing_run.2)) ∧
    Forall (fun w => ¬ session_stands w.2) (omap closed (tail closing_run.2))).
Proof.
  split; [vm_compute; reflexivity|].
  destruct (Capacity.Publish (fun _ _ _ => true) sample_draining 100) as [e|rows] eqn:Hrows; [by vm_compute in Hrows|].
  refine (proj2 (proj2 (drain_closes_rows (Rt := nat) (Tgt := nat) (fun _ _ _ => true) sample_advertiser sample_draining 100 rows (tail closing_run.2) closing_run.1.1 _ Hrows _))).
  - vm_compute. reflexivity.
  - apply (exec_runs closing_env _ tt _ closing_run.1.2). unfold closing_run at 1 2 3. clear. vm_compute. reflexivity.
Defined.
End Advertise.
