(* ===== verification/StoreAdapter.v ===== *)
(** * StoreAdapter.v: the session store behind the ports

    [internal/sessionstoreadapter]: [store.go], [cursor.go], [inbox.go],
    [disposition.go], [residency.go], [journal.go], [gates.go], [durable.go],
    [runtime_journal.go], [locations.go], [targets.go] and [evidence.go].  The session
    store and harness's journal are libraries: each method the adapters call is a call of
    [SE] with its arguments, answered by what the adapters read of the entry.  Every
    adapter method is a program over [SE]; [over_store] and [over_disposition] put them
    under the consumer and the disposition applier, whose other calls pass through.
    Parsing and writing a UUID are Core's and are arguments; a UUID is its value, zero
    when unset.                                                                     *)
From Stdlib Require Import ZArith.
From stdpp Require Import base list strings gmap.
From S2P Require Import Prelude Wire Errors Effects Fence Commands Applier Disposition Consumer Gates Manager Capacity Advertise Composition.

Module StoreAdapter.
Import Fence Commands.
Local Open Scope prog_scope.

(** ** What the store refuses, in the words of the ports *)

Definition mark (sentinel : error) (err : error) : error := EJoin [sentinel; err].

Definition as_registry (e : error) : option RegistryErrorCode := errors_as (fun t => match t with TRegistryError c => Some c | _ => None end) e.
Definition as_journal (e : error) : option JournalErrorCode := errors_as (fun t => match t with TJournalError c => Some c | _ => None end) e.
Definition as_inbox (e : error) : option InboxErrorCode := errors_as (fun t => match t with TInboxError c => Some c | _ => None end) e.
Definition as_catalog (e : error) : option (CatalogErrorCode * string) := errors_as (fun t => match t with TCatalogError c field => Some (c, field) | _ => None end) e.
Definition as_keyspace (e : error) : option KeyspaceErrorCode := errors_as (fun t => match t with TKeyspaceError c => Some c | _ => None end) e.
Definition as_target (e : error) : option HostTargetErrorCode := errors_as (fun t => match t with THostTargetError c => Some c | _ => None end) e.
Definition is_cleanup (e : error) : bool := bool_decide (is_Some (errors_as (fun t => match t with TResidencyAcquireCleanupError => Some tt | _ => None end) e)).
Definition is_held (e : error) : bool := bool_decide (is_Some (errors_as (fun t => match t with TLeaseHeldError h => Some h | _ => None end) e)).
Definition is_unroutable (e : error) : bool := bool_decide (is_Some (errors_as (fun t => match t with TUnroutableBindingError _ _ => Some tt | _ => None end) e)).
Definition is_binding (e : error) : bool := bool_decide (is_Some (errors_as (fun t => match t with TDispositionBindingError => Some tt | _ => None end) e)).

Definition classifyRegistry (err : error) : error :=
  match as_registry err with Some RegistryErrorEpoch => mark ErrEpochSuperseded err | _ => err end.
Definition classifyJournal (err : error) : error :=
  match as_journal err with
  | Some JournalErrorLeaseHeld => mark Manager.ErrLeaseHeld err
  | Some JournalErrorFenced => mark ErrFenceConflict err
  | Some JournalErrorLeaseLost => mark ErrEpochSuperseded err
  | _ => err
  end.
Definition classifyInbox (err : error) : error :=
  match as_inbox err with Some InboxErrorEpoch => mark ErrEpochSuperseded err | _ => err end.
Definition classifySettlement (err : error) : error :=
  if is_unroutable err || is_binding err then mark Disposition.ErrEvidenceUnroutable err else classifyInbox err.
Definition classifyGateWrite (err : error) : error :=
  match as_catalog err with
  | Some (CatalogErrorEpoch, _) => mark ErrEpochSuperseded err
  | Some (CatalogErrorDeleted, field) => if bool_decide (field = "gate_intent") then mark Gates.ErrUnpublishable err else err
  | Some (CatalogErrorTooLarge, field) => if bool_decide (field = "open_gates") then mark Gates.ErrProjectionFull err else err
  | _ => err
  end.
Definition classifyTarget (err : error) : error :=
  match as_target err with Some HostTargetErrorGeneration => mark Advertise.ErrTargetGenerationSuperseded err | _ => err end.
(** A refusal that still owes a release carries its cleanup. *)
Definition classifyResidency (err : error) : error :=
  if is_cleanup err then ETyped (TLeaseCleanupError true) (Some err)
  else if is_held err then mark Manager.ErrLeaseHeld err
  else err.

Definition isDispositionCatalogRefusal (err : error) : bool :=
  match as_keyspace err with
  | Some KeyspaceBindingNotFound => true
  | Some _ => false
  | None => match as_catalog err with Some ((CatalogErrorNotFound | CatalogErrorDeleted | CatalogErrorInvalid), _) => true | _ => false end
  end.
Definition isCatalogAbsent (err : error) : bool :=
  match as_keyspace err with
  | Some KeyspaceBindingNotFound => true
  | _ => match as_catalog err with Some ((CatalogErrorNotFound | CatalogErrorDeleted), _) => true | _ => false end
  end.
Definition NoDispositionCatalogError (cause : error) : error := ETyped (TOtherError "sessionstoreadapter.NoDispositionCatalogError") (Some cause).
Definition classifyDispositionRead (err : error) : error :=
  if isDispositionCatalogRefusal err then NoDispositionCatalogError err else err.
Definition UnmappedValueError (cause : option error) : error := ETyped (TOtherError "sessionstoreadapter.UnmappedValueError") cause.
Definition UnsupportedWireVersionError : error := ETyped (TOtherError "sessionstoreadapter.UnsupportedWireVersionError") None.
Definition ErrForeignLease : error := ESentinel "sessionstoreadapter.ErrForeignLease".
Definition ErrNoGateJournals : error := ESentinel "sessionstoreadapter.ErrNoGateJournals".
Definition ErrGateOwnerUnavailable : error := ESentinel "sessionstoreadapter.ErrGateOwnerUnavailable".
Definition GateOwnerUnavailableError : error := ETyped (TOtherError "sessionstoreadapter.GateOwnerUnavailableError") (Some ErrGateOwnerUnavailable).
(** Its [Is] accepts [residency.ErrInvalidRuntimeIdentity], beside what its cause wraps. *)
Definition RuntimeSessionIDError (cause : error) : error :=
  ETyped (TOtherError "sessionstoreadapter.RuntimeSessionIDError") (Some (EJoin [Manager.ErrInvalidRuntimeIdentity; cause])).
Definition RuntimeJournalProbeError (cause : error) : error := ETyped (TOtherError "sessionstoreadapter.RuntimeJournalProbeError") (Some cause).
Definition UnavailableMemberError (member : string) : error := ETyped (TOtherError ("sessionstoreadapter.UnavailableMemberError " +:+ member)) None.
Definition ForeignGrantError : error := ETyped (TOtherError "sessionstoreadapter.ForeignGrantError") None.
Definition zero_uuid : error := EForeign "the zero UUID names no session".

(** ** The store's data, as far as the adapters read it *)

Inductive InboxState :=
| InboxStatePending | InboxStateClaimed | InboxStateApplying | InboxStateApplied | InboxStateRejected | InboxStateOther (s : string).
Inductive CommandApplicationOutcome :=
| CommandApplicationAbsent | CommandApplicationCommitted | CommandApplicationAbandoned
| CommandApplicationUnresolved | CommandApplicationConflicted | CommandApplicationOther (s : string).

(** [InboxEntry] and [DispositionInboxEntry]: a claim and an attempt may be absent from
    the second. *)
Record InboxEntry := mkInbox {
  ie_TenantID : string; ie_SessionID : string; ie_CommandID : string; ie_RuntimeCommandID : string; ie_Kind : string; ie_State : InboxState;
  ie_AcceptedOrder : Z; ie_Revision : Z; ie_ApplyDeadline : Z; ie_ClaimEpoch : Z; ie_ClaimExpiresAt : Z; ie_Payload : string; ie_PayloadRef : ObjectReference
}.
Record DispositionInboxEntry := mkDisposition {
  de_TenantID : string; de_SessionID : string; de_CommandID : string; de_RuntimeCommandID : string; de_Kind : string; de_State : InboxState;
  de_AcceptedOrder : Z; de_Revision : Z; de_ApplyDeadline : Z; de_Claim : option (Z * Z); de_Attempt : option (string * Z * Z);
  de_Payload : string; de_PayloadObject : option ObjectReference
}.
Record CommandApplication := mkFound {
  ca_CommandID : string; ca_RuntimeCommandID : string; ca_Outcome : CommandApplicationOutcome; ca_PrefixEpoch : Z; ca_EffectEventID : string;
  ca_EffectSeq : Z; ca_SupersedingEpoch : Z
}.

Record GateProjection := mkProjection { gp_GateID : string; gp_OpenedEventID : string; gp_OpenedJournalSeq : Z }.
Record SessionBinding := mkBinding { StorageBindingID : string; RuntimeSessionID : string; disposition_mode : bool; other_members : string }.
Definition no_binding : SessionBinding := mkBinding "" "" false "".
#[export] Instance SessionBinding_eq_dec : EqDecision SessionBinding.
Proof. solve_decision. Defined.

Record CatalogRecord := mkCatalog {
  cr_TenantID : string; cr_SessionID : string; cr_AgentID : string; cr_RuntimeCompatibilityID : string; cr_Checkpoint : Z; cr_LeaseEpoch : Z;
  cr_Binding : SessionBinding; cr_OpenGates : list GateProjection
}.

Inductive SE {H : Type → Type} : Type → Type :=
| SHost {X} (e : H X) : SE X                        (* what the store does not answer *)
| SListDisposition (t s : string) (after limit : Z) : SE (res (list DispositionInboxEntry))
| SLoadCursor (t s : string) : SE (res Z)
| SSaveCursor (t s : string) (epoch order : Z) : SE (option error)
| SGetCommand (t s c : string) : SE (res InboxEntry)
| SFindApplication (t s c : string) : SE (res CommandApplication)
| SClaim (t s c : string) (claim : Applier.Claim) : SE (res Z)
| SBeginApplying (t s c : string) (applying : Applier.Claim) : SE (res Z)
| SComplete (t s c : string) (completion : Applier.Completion) : SE (option error)
| SReject (t s c : string) (rejection : Applier.Rejection) : SE (option error)
| SGetDisposition (t s c : string) : SE (res DispositionInboxEntry)
| SClaimDisposition (grant : nat) (t s c : string) (claim : Disposition.DispositionClaim) : SE (res Z)
| SBeginAttempt (t s c : string) (attempt : Disposition.DispositionAttempt) : SE (res Z)
| SSettle (t s c : string) (settlement : Disposition.DispositionSettlement) : SE (res InboxState)
| SRejectDisposition (t s c : string) (rejection : Disposition.DispositionRejection) : SE (option error)
| SGetCatalog (t s : string) : SE (res CatalogRecord)
| SOpenGate (grant : nat) (t s : string) (gate : GateProjection) : SE (option error)
| SResolveGate (grant : nat) (t s gate : string) : SE (option error)
| SAcquireResidency (t s : string) : SE (res nat)
| SReadMeta (reader : nat) (runtime : Z) : SE (res bool)
| SOpenReplayer (reader : nat) (internal : bool) (runtime from : Z) : SE (option error)
| SReplayerOpen (reader : nat) (session : option Z) : SE (option error)
| SCursorNext (reader : nat) : SE (option error)
| SReplay (reader : nat) (runtime from : Z) : SE (list (Gates.Event * Z) * error)   (* what the cursor yields, and its error *)
| SRigSessionID (t s : string) : SE (res Z)
| SPutRegistration (observation : RegistryObservation) : SE (option error)
| SClearRegistration (t s : string) (epoch : Z) : SE (option error)
| SPublishTarget (row : Capacity.Advertisement) : SE (option error)
| SDrainTarget (row : Capacity.Advertisement) : SE (option error).
Arguments SE : clear implicits.

Section adapter.
Context {H : Type → Type} (Parse : string → option Z) (uuid_string : Z → string).
Abbreviation P := (prog (SE H)).

Definition adaptState (state : InboxState) : res State :=
  match state with
  | InboxStatePending => Ok StatePending
  | InboxStateClaimed => Ok StateClaimed
  | InboxStateApplying => Ok StateApplying
  | InboxStateApplied => Ok StateApplied
  | InboxStateRejected => Ok StateRejected
  | InboxStateOther _ => Err (UnmappedValueError None)
  end.
Definition adaptOutcome (outcome : CommandApplicationOutcome) : res Applier.ApplicationOutcome :=
  match outcome with
  | CommandApplicationAbsent => Ok Applier.ApplicationAbsent
  | CommandApplicationCommitted => Ok Applier.ApplicationCommitted
  | CommandApplicationAbandoned => Ok Applier.ApplicationAbandoned
  | CommandApplicationUnresolved => Ok Applier.ApplicationUnresolved
  | CommandApplicationConflicted => Ok Applier.ApplicationConflicted
  | CommandApplicationOther _ => Err (UnmappedValueError None)
  end.
Definition adaptRuntimeCommandID (id : string) : res Z :=
  match Parse id with Some parsed => Ok parsed | None => Err (UnmappedValueError (Some (EForeign "uuid"))) end.

(** The conversion [commands.Kind]. *)
Definition Kind_of (kind : string) : Kind :=
  if bool_decide (kind = "create") then KindCreate
  else if bool_decide (kind = "restore") then KindRestore
  else if bool_decide (kind = "input") then KindInput
  else if bool_decide (kind = "interrupt") then KindInterrupt
  else if bool_decide (kind = "gate_response") then KindGateResponse
  else KindOther kind.

(** A classified answer. *)
Definition answered_by {A} (classify : error → error) (r : res A) : res A := match r with Ok a => Ok a | Err e => Err (classify e) end.

(** ** [cursor.go] *)

Definition adapt_listed (entry : DispositionInboxEntry) : res Command :=
  match adaptState (de_State entry) with
  | Err e => Err e
  | Ok state => Ok (mkCommand (de_TenantID entry) (de_SessionID entry) (de_CommandID entry) (de_AcceptedOrder entry) state
                      (default 0%Z (Parse (de_RuntimeCommandID entry))))
  end.
Fixpoint adapt_page (page : list DispositionInboxEntry) : res (list Command) :=
  match page with
  | [] => Ok []
  | entry :: page =>
      match adapt_listed entry with
      | Err e => Err e
      | Ok command => match adapt_page page with Err e => Err e | Ok commands => Ok (command :: commands) end
      end
  end.
Definition ListOrdered (t s : string) (afterOrder limit : Z) : P (res (list Command)) :=
  let! page := call (SListDisposition t s afterOrder limit) in
  Ret match page with Err e => Err (classifyDispositionRead e) | Ok page => adapt_page page end.
Definition LoadCursor (t s : string) : P (res Z) :=
  let! entry := call (SLoadCursor t s) in
  Ret (answered_by classifyDispositionRead entry).
Definition SaveCursor (t s : string) (epoch order : Z) : P (option error) :=
  let! err := call (SSaveCursor t s epoch order) in
  Ret match err with
      | None => None
      | Some e => Some (if isDispositionCatalogRefusal e then NoDispositionCatalogError e else classifyInbox e)
      end.

(** ** [inbox.go] *)

Definition adaptRecord (entry : InboxEntry) : res Applier.Record_ :=
  match adaptState (ie_State entry) with
  | Err e => Err e
  | Ok state =>
      match adaptRuntimeCommandID (ie_RuntimeCommandID entry) with
      | Err e => Err e
      | Ok id => Ok (Applier.mkRecord (ie_TenantID entry) (ie_SessionID entry) (ie_CommandID entry) id (Kind_of (ie_Kind entry)) state
                       (ie_AcceptedOrder entry) (ie_Revision entry) (ie_ApplyDeadline entry) (ie_ClaimEpoch entry) (ie_ClaimExpiresAt entry))
      end
  end.
Definition LoadCommand (t s c : string) : P (res Applier.Record_) :=
  let! entry := call (SGetCommand t s c) in
  Ret match entry with Err e => Err e | Ok entry => adaptRecord entry end.
Definition LoadPayload (t s c : string) : P (res Payload) :=
  let! entry := call (SGetCommand t s c) in
  Ret match entry with Err e => Err e | Ok entry => Ok (mkPayload (ie_Payload entry) (ie_PayloadRef entry)) end.
Definition adaptApplication (found : CommandApplication) : res Applier.Application :=
  match adaptOutcome (ca_Outcome found) with
  | Err e => Err e
  | Ok outcome =>
      let application id := Applier.mkApplication (ca_CommandID found) id outcome (ca_PrefixEpoch found) (ca_EffectEventID found)
                              (ca_EffectSeq found) (ca_SupersedingEpoch found) in
      if bool_decide (ca_RuntimeCommandID found = "") then Ok (application 0%Z)
      else match adaptRuntimeCommandID (ca_RuntimeCommandID found) with Err e => Err e | Ok id => Ok (application id) end
  end.
Definition FindApplication (t s c : string) : P (res Applier.Application) :=
  let! found := call (SFindApplication t s c) in
  Ret match found with Err e => Err e | Ok found => adaptApplication found end.
Definition ClaimCommand (t s c : string) (claim : Applier.Claim) : P (res Z) :=
  let! revision := call (SClaim t s c claim) in Ret (answered_by classifyInbox revision).
Definition BeginApplying (t s c : string) (applying : Applier.Claim) : P (res Z) :=
  let! revision := call (SBeginApplying t s c applying) in Ret (answered_by classifyInbox revision).
Definition CompleteCommand (t s c : string) (completion : Applier.Completion) : P (option error) :=
  let! err := call (SComplete t s c completion) in Ret (classifyInbox <$> err).
Definition RejectCommand (t s c : string) (rejection : Applier.Rejection) : P (option error) :=
  let! err := call (SReject t s c rejection) in Ret (classifyInbox <$> err).

(** ** [residency.go] and [disposition.go] *)

(** A [residency.Lease] handed to the adapter: its own, with its grant, or another's. *)
Inductive Lease := ResidencyLease (grant : option nat) | OtherLease.

Definition AcquireSessionLease (t s : string) : P (res Lease) :=
  let! grant := call (SAcquireResidency t s) in
  Ret match grant with Err e => Err (classifyResidency e) | Ok grant => Ok (ResidencyLease (Some grant)) end.
Definition DispositionWriterFor (lease : Lease) : res nat :=
  match lease with ResidencyLease (Some grant) => Ok grant | _ => Err ErrForeignLease end.

Definition adaptDispositionRecord (entry : DispositionInboxEntry) : res Disposition.DispositionRecord :=
  match adaptState (de_State entry) with
  | Err e => Err e
  | Ok state =>
      match adaptRuntimeCommandID (de_RuntimeCommandID entry) with
      | Err e => Err e
      | Ok id =>
          let '(claim_epoch, claim_expires) := default (0, 0)%Z (de_Claim entry) in
          let '(attempt, journal, residency) := default ("", 0%Z, 0%Z) (de_Attempt entry) in
          Ok (Disposition.mkRecord (de_TenantID entry) (de_SessionID entry) (de_CommandID entry) id (Kind_of (de_Kind entry)) state
                (de_AcceptedOrder entry) (de_Revision entry) (de_ApplyDeadline entry) claim_epoch claim_expires attempt journal residency)
      end
  end.
Definition LoadDispositionCommand (t s c : string) : P (res Disposition.DispositionRecord) :=
  let! entry := call (SGetDisposition t s c) in
  Ret match entry with Err e => Err (classifyInbox e) | Ok entry => adaptDispositionRecord entry end.
Definition LoadDispositionPayload (t s c : string) : P (res Payload) :=
  let! entry := call (SGetDisposition t s c) in
  Ret match entry with
      | Err e => Err (classifyInbox e)
      | Ok entry => Ok (mkPayload (de_Payload entry) (default no_ref (de_PayloadObject entry)))
      end.
(** The methods of a [DispositionWriter], over its grant. *)
Definition ClaimDisposition (grant : nat) (t s c : string) (claim : Disposition.DispositionClaim) : P (res Z) :=
  let! revision := call (SClaimDisposition grant t s c claim) in Ret (answered_by classifyInbox revision).
Definition BeginAttempt (t s c : string) (attempt : Disposition.DispositionAttempt) : P (res Z) :=
  let! revision := call (SBeginAttempt t s c attempt) in Ret (answered_by classifyInbox revision).
Definition SettleDisposition (t s c : string) (settlement : Disposition.DispositionSettlement) : P (res State) :=
  let! state := call (SSettle t s c settlement) in
  Ret match state with Err e => Err (classifySettlement e) | Ok state => adaptState state end.
Definition RejectDisposition (t s c : string) (rejection : Disposition.DispositionRejection) : P (option error) :=
  let! err := call (SRejectDisposition t s c rejection) in Ret (classifyInbox <$> err).

(** ** [gates.go] *)

Definition LoadGate (t s gate : string) : P (res (Gate * bool)) :=
  let! entry := call (SGetCatalog t s) in
  Ret match entry with
      | Err e => Err e
      | Ok record =>
          match list_find (fun p => gp_GateID p = gate) (cr_OpenGates record) with
          | Some (_, p) =>
              if disposition_mode (cr_Binding record)
              then Ok (mkGate (gp_GateID p) true "" (cr_LeaseEpoch record) (gp_OpenedEventID p) (gp_OpenedJournalSeq p), true)
              else Err GateOwnerUnavailableError
          | None =>
              if disposition_mode (cr_Binding record) then Ok (mkGate "" false "" (cr_LeaseEpoch record) "" 0, false)
              else Ok (zero_gate, false)
          end
      end.

(** A [GateSession]: its grant and its journals, and what [Scope] resolved.  [serves]
    says which readers replay events. *)
Record GateSession := mkGates { g_grant : nat; g_journals : gmap Composition.EvidenceKey (option nat); g_tenant : string; g_session : string; g_runtime : Z; g_replay : option nat }.
Context (serves : nat → bool).

Definition GateJournal (journals : gmap Composition.EvidenceKey (option nat)) (tenant binding : string) : option nat :=
  match journals !! (tenant, binding) with Some (Some reader) => if serves reader then Some reader else None | _ => None end.
Definition GateSessionFor (gateJournals : option (gmap Composition.EvidenceKey (option nat))) (lease : Lease) (t s : string) : res GateSession :=
  match lease with
  | ResidencyLease (Some grant) =>
      match gateJournals with None => Err ErrNoGateJournals | Some journals => Ok (mkGates grant journals t s 0 None) end
  | _ => Err ErrForeignLease
  end.

(** The runtime identity of a binding: a UUID that is not zero. *)
Definition runtime_id (binding : SessionBinding) : error + Z :=
  match Parse (RuntimeSessionID binding) with
  | None => inl (EForeign "uuid")
  | Some id => if (id =? 0)%Z then inl zero_uuid else inr id
  end.

Definition Scope_ (g : GateSession) : P (res Gates.Scope * GateSession) :=
  let! entry := call (SGetCatalog (g_tenant g) (g_session g)) in
  Ret match entry with
      | Err e => (Err e, g)
      | Ok record =>
          match runtime_id (cr_Binding record) with
          | inl e => (Err (RuntimeSessionIDError e), g)
          | inr id =>
              match GateJournal (g_journals g) (cr_TenantID record) (StorageBindingID (cr_Binding record)) with
              | None => (Err (ETyped (TUnroutableBindingError (cr_TenantID record) (StorageBindingID (cr_Binding record))) None), g)
              | Some replay =>
                  (Ok (Gates.mkScope (cr_TenantID record) (cr_SessionID record) (cr_AgentID record) (uuid_string id)),
                   mkGates (g_grant g) (g_journals g) (g_tenant g) (g_session g) id (Some replay))
              end
          end
      end.
Definition Projected (g : GateSession) : P (res (list GateProjection)) :=
  let! entry := call (SGetCatalog (g_tenant g) (g_session g)) in
  Ret match entry with Err e => Err e | Ok record => Ok (cr_OpenGates record) end.
Definition Open_ (g : GateSession) (projection : GateProjection) : P (option error) :=
  let! err := call (SOpenGate (g_grant g) (g_tenant g) (g_session g) projection) in Ret (classifyGateWrite <$> err).
Definition Resolve (g : GateSession) (gate : string) : P (option error) :=
  let! err := call (SResolveGate (g_grant g) (g_tenant g) (g_session g) gate) in Ret (classifyGateWrite <$> err).

Definition io_EOF : error := ESentinel "io.EOF".

(** The loop of [Replay], over what the cursor yields: what is visited and the answer. *)
Fixpoint visit_all (visit : Gates.Event * Z → option error) (events : list (Gates.Event * Z)) (last : error) : list (Gates.Event * Z) * option error :=
  match events with
  | [] => ([], if errors_is last io_EOF then None else Some last)
  | e :: events =>
      match visit e with
      | Some err => ([e], Some err)
      | None => let '(visited, err) := visit_all visit events last in (e :: visited, err)
      end
  end.
Definition Replay (g : GateSession) (from : Z) (visit : Gates.Event * Z → option error) : P (list (Gates.Event * Z) * option error) :=
  match g_replay g with
  | None => Ret ([], Some (EForeign "Replay before Scope"))
  | Some reader =>
      let! err := call (SOpenReplayer reader false (g_runtime g) from) in
      match err with
      | Some e => Ret ([], Some e)
      | None =>
          let! err := call (SReplayerOpen reader (Some (g_runtime g))) in
          match err with
          | Some e => Ret ([], Some e)
          | None => let! stream := call (SReplay reader (g_runtime g) from) in Ret (visit_all visit stream.1 stream.2)
          end
      end
  end.

(** ** [runtime_journal.go] and [durable.go] *)

Context (IsRuntimeJournal : nat → bool).

Definition RuntimeJournal (readers : gmap Composition.EvidenceKey (option nat)) (tenant binding : string) (runtime : Z) : P (Manager.RuntimeJournal * option error) :=
  match readers !! (tenant, binding) with
  | Some (Some reader) =>
      if IsRuntimeJournal reader then
        let! meta := call (SReadMeta reader runtime) in
        match meta with
        | Ok true => Ret (Manager.RuntimeJournalPresent, None)
        | _ =>
            let! err := call (SOpenReplayer reader true runtime 0) in
            match err with
            | Some e => Ret (Manager.RuntimeJournalUnknown, Some e)
            | None =>
                let! err := call (SReplayerOpen reader None) in
                match err with
                | Some e => Ret (Manager.RuntimeJournalUnknown, Some e)
                | None =>
                    let! err := call (SCursorNext reader) in
                    Ret match err with
                        | None => (Manager.RuntimeJournalPresent, None)
                        | Some e => if errors_is e io_EOF then (Manager.RuntimeJournalAbsent, None) else (Manager.RuntimeJournalUnknown, Some e)
                        end
                end
            end
        end
      else Ret (Manager.RuntimeJournalUnknown, None)
  | _ => Ret (Manager.RuntimeJournalUnknown, None)
  end.

(** What a [Store] was built with. *)
Record Store := mkStore {
  namespace : option (string → string → string); has_rigSessionIDs : bool;
  journals : option (gmap Composition.EvidenceKey (option nat)); gateJournals : option (gmap Composition.EvidenceKey (option nat))
}.
Definition uuid_option (id : Z) : option string := if (id =? 0)%Z then None else Some (uuid_string id).

Definition LoadSessionState (store : Store) (t s : string) : P (res Manager.SessionState) :=
  match namespace store with
  | None => Ret (Err (UnavailableMemberError "Namespace"))
  | Some layout =>
      let! entry := call (SGetCatalog t s) in
      match entry with
      | Err e => Ret (if isCatalogAbsent e then Ok (Manager.mkState false (layout t s) "" None Manager.RuntimeJournalUnknown false 0) else Err e)
      | Ok record =>
          let state id journal := Manager.mkState true (layout t s) (cr_RuntimeCompatibilityID record) id journal
                                    (negb (cr_Checkpoint record =? 0)%Z) (cr_Checkpoint record) in
          if bool_decide (cr_Binding record ≠ no_binding) then
            match runtime_id (cr_Binding record) with
            | inl e => Ret (Err (RuntimeSessionIDError e))
            | inr id =>
                match journals store with
                | None => Ret (Ok (state (Some (uuid_string id)) Manager.RuntimeJournalUnknown))
                | Some readers =>
                    let! journal := RuntimeJournal readers t (StorageBindingID (cr_Binding record)) id in
                    Ret match journal.2 with
                        | Some e => Err (RuntimeJournalProbeError e)
                        | None => Ok (state (Some (uuid_string id)) journal.1)
                        end
                end
            end
          else if negb (has_rigSessionIDs store) then Ret (Err (UnavailableMemberError "RigSessionID"))
          else
            let! id := call (SRigSessionID t s) in
            Ret match id with Err e => Err e | Ok id => Ok (state (uuid_option id) Manager.RuntimeJournalUnknown) end
      end
  end.

(** ** [locations.go] and [targets.go]: [current] is the wire version the store writes. *)

Definition PublishResidency (current version : Z) (observation : RegistryObservation) : P (option error) :=
  if negb (version =? current)%Z then Ret (Some UnsupportedWireVersionError)
  else let! err := call (SPutRegistration observation) in Ret (classifyRegistry <$> err).
Definition TombstoneResidency (t s : string) (epoch : Z) : P (option error) :=
  let! err := call (SClearRegistration t s epoch) in Ret (classifyRegistry <$> err).
Definition PublishTarget (current version : Z) (row : Capacity.Advertisement) : P (option error) :=
  if negb (version =? current)%Z then Ret (Some UnsupportedWireVersionError)
  else let! err := call (SPublishTarget row) in Ret (classifyTarget <$> err).
Definition WithdrawTarget (current version : Z) (row : Capacity.Advertisement) : P (option error) :=
  if negb (version =? current)%Z then Ret (Some UnsupportedWireVersionError)
  else let! err := call (SDrainTarget row) in Ret (classifyTarget <$> err).
End adapter.
Arguments SHost {H X} e.

(** ** [journal.go]: a grant over a journal

    [Grant]: the session it was opened for, whether it is over, and how often its [lost]
    channel was closed (a second time panics).  The writer answers each call.       *)
Record Grant := mkGrant { tenant : string; session : string; done_ : bool; closes : nat }.
Definition OpenSession (t s : string) (opened : option error) : res Grant :=
  match opened with Some e => Err (classifyJournal e) | None => Ok (mkGrant t s false 0) end.
Definition end_grant (g : Grant) : Grant := if done_ g then g else mkGrant (tenant g) (session g) true (S (closes g)).
Definition Release (g : Grant) (closed : option error) : option error * Grant := (classifyJournal <$> closed, end_grant g).
(** The answer, whether the writer was asked, and the grant. *)
Definition AppendApplicationPrefix (g : Grant) (t s : string) (appended : option error) : option error * bool * Grant :=
  if bool_decide (t ≠ tenant g) || bool_decide (s ≠ session g) then (Some ForeignGrantError, false, g)
  else
    let classified := classifyJournal <$> appended in
    (classified, true,
     match classified with
     | Some e => if errors_is e ErrEpochSuperseded || errors_is e ErrFenceConflict then end_grant g else g
     | None => g
     end).

(** ** Under the consumer and the disposition applier *)

Section layers.
Context (Parse : string → option Z) (t s : string).

Definition over_store X (e : Consumer.CE X) : prog (SE Consumer.CE) X :=
  match e in Consumer.CE X return prog (SE Consumer.CE) X with
  | Consumer.CLoadCursor => LoadCursor t s
  | Consumer.CListOrdered after limit => ListOrdered Parse t s after limit
  | Consumer.CSaveCursor epoch order => SaveCursor t s epoch order
  | e => call (SHost e)
  end.

Definition over_disposition (grant : nat) X (e : Disposition.DE X) : prog (SE Disposition.DE) X :=
  match e in Disposition.DE X return prog (SE Disposition.DE) X with
  | Disposition.DLoadCommand id => LoadDispositionCommand Parse t s id
  | Disposition.DLoadPayload id => LoadDispositionPayload t s id
  | Disposition.DClaim id claim => ClaimDisposition grant t s id claim
  | Disposition.DBeginAttempt id attempt => BeginAttempt t s id attempt
  | Disposition.DSettle id settlement => SettleDisposition t s id settlement
  | Disposition.DReject id rejection => RejectDisposition t s id rejection
  | Disposition.DLoadGate gate => LoadGate t s gate
  | e => call (SHost e)
  end.
End layers.

(** ** Marking an error changes one decision of its readers *)

Lemma mark_keeps {A} (f : etype → option A) n e : errors_as f (mark (ESentinel n) e) = errors_as f e.
Proof. apply errors_as_mark. Qed.

(** What the consumer's save answers: the superseded mark is the store's epoch refusal's. *)
Lemma classifyInbox_superseded e : errors_is (classifyInbox e) ErrEpochSuperseded = errors_is e ErrEpochSuperseded || match as_inbox e with Some InboxErrorEpoch => true | _ => false end.
Proof.
  unfold classifyInbox. destruct (as_inbox e) as [[]|]; rewrite ?orb_false_r; try done. rewrite orb_true_r. unfold mark, errors_is, ErrEpochSuperseded.
  by rewrite errors_is_mark, bool_decide_eq_true_2.
Qed.

(** ** Layers *)

Lemma in_made {E F : Type → Type} (cs : list (obs E * list (obs F))) o : o ∈ mjoin cs.*2 ↔ ∃ c, c ∈ cs ∧ o ∈ c.2.
Proof. rewrite list_elem_of_join. setoid_rewrite list_elem_of_fmap. naive_solver. Qed.

Lemma in_upper {E F : Type → Type} (h : ∀ X, E X → prog F X) cs (o : obs E) :
  Forall (made h) cs → o ∈ cs.*1 → ∃ seg, (∀ o', o' ∈ seg → o' ∈ mjoin cs.*2) ∧ match o with Obs e x => runs (h _ e) seg x end.
Proof.
  rewrite Forall_forall. intros Hcs ([o' seg] & -> & Hc)%list_elem_of_fmap. exists seg. split; [|by apply (Hcs (o', seg))].
  intros o'' Ho. apply in_made. eauto.
Qed.

Section layered.
Context (Parse : string → option Z) (valid : string → bool).

(** The save a store call is, with its answer. *)
Definition stored_save (o : obs (SE Consumer.CE)) : option (string * string * Z * Z * option error) :=
  match o with Obs e x => match e in SE _ X return X → option (string * string * Z * Z * option error) with
    SSaveCursor t s epoch order => fun err => Some (t, s, epoch, order, err) | _ => fun _ => None end x end.

Lemma over_store_save t s c o t' s' ep ord err :
  made (over_store Parse t s) c → o ∈ c.2 → stored_save o = Some (t', s', ep, ord, err) →
  t' = t ∧ s' = s ∧ Consumer.saving c.1 = Some (ep, ord) ∧
  Consumer.save_answer c.1 = Some match err with None => None | Some e => Some (if isDispositionCatalogRefusal e then NoDispositionCatalogError e else classifyInbox e) end.
Proof.
  destruct c as [[X e v] seg]. unfold made. simpl. destruct e; simpl; intros (x & seg' & -> & -> & Hv) [->|Ho%elem_of_nil]%elem_of_cons; try done; simpl.
  intros [= -> -> -> -> <-]. by rewrite Hv.
Qed.

Lemma adapt_page_Ok page commands :
  adapt_page Parse page = Ok commands →
  Forall2 (fun entry r => c_CommandID r = de_CommandID entry ∧ c_AcceptedOrder r = de_AcceptedOrder entry ∧ adaptState (de_State entry) = Ok (c_State r)) page commands.
Proof.
  revert commands. induction page as [|entry page IH]; intros commands; simpl; [intros [= <-]; constructor|]. unfold adapt_listed.
  destruct (adaptState (de_State entry)) as [state|] eqn:Hs; [|done]. destruct (adapt_page Parse page); [|done]. intros [= <-]. constructor; [done|by apply IH].
Qed.

Lemma adaptState_Terminal state st : adaptState state = Ok st → Terminal st = true → state = InboxStateApplied ∨ state = InboxStateRejected.
Proof. destruct state; intros [= <-]; auto; done. Qed.

(** C5 The durable cursor in the store never passes an unsettled command.  Run the
    consumer's pass over the store: whatever the store and the processor answer, a cursor
    the store is asked to save is this session's, under this consumer's lease epoch, and
    every command the store listed up to it was terminal in the store's own state, or was
    processed in this very pass to a terminal state or an owned prefix. *)
Theorem stored_cursor_settles c st tr a o t s ep ord err
    (Hrun : runs (interp (over_store Parse (TenantID (Consumer.key c)) (SessionID (Consumer.key c))) (Consumer.Reconcile valid c st)) tr a)
    (Ho : o ∈ tr) (Hs : stored_save o = Some (t, s, ep, ord, err)) :
  (t = TenantID (Consumer.key c) ∧ s = SessionID (Consumer.key c) ∧ ep = Consumer.epoch c) ∧
  ∃ start entries, Obs (SListDisposition t s start (Consumer.ReconcileBatch c)) (Ok entries) ∈ tr ∧ (start < ord)%Z ∧
    ∀ entry, entry ∈ entries → (de_AcceptedOrder entry ≤ ord)%Z →
      de_State entry = InboxStateApplied ∨ de_State entry = InboxStateRejected ∨
      ∃ command out, c_CommandID command = de_CommandID entry ∧ Obs (SHost (Consumer.CProcess command)) (out, None) ∈ tr ∧
        Terminal (o_State out) || PrefixOwned out = true.
Proof.
  apply runs_interp in Hrun as (cs & -> & Hrun & Hmade). apply in_made in Ho as (cl & Hc & Ho). pose proof Hmade as Hm. rewrite Forall_forall in Hm.
  destruct (over_store_save _ _ _ _ _ _ _ _ _ (Hm _ Hc) Ho Hs) as (-> & -> & Hsave & _). assert (cl.1 ∈ cs.*1) as Hup by (apply list_elem_of_fmap; eauto).
  destruct (Consumer.saves_settle _ _ _ _ _ _ _ _ Hrun Hup Hsave) as (-> & start & page & Hlist & _ & Hlt & Hset). split; [done|].
  destruct (in_upper _ _ _ Hmade Hlist) as (seg & Hin & (entries & seg' & -> & [-> Hp])). destruct entries as [entries|]; [|done]. symmetry in Hp. exists start, entries. split; [apply Hin; left|]. split; [done|].
  intros entry He Hle. apply adapt_page_Ok in Hp. apply list_elem_of_lookup in He as [i Hi]. destruct (Forall2_lookup_l _ _ _ _ _ Hp Hi) as (r & Hr & Hid & Hord & Hst).
  destruct (Hset r) as [Hterm|(out & [Hpr Hout])]; [by eapply list_elem_of_lookup_2|by rewrite Hord| |].
  - destruct (adaptState_Terminal _ _ Hst Hterm); auto.
  - right; right. exists r, out. destruct (in_upper _ _ _ Hmade Hpr) as (seg2 & Hin2 & (x & seg3 & -> & -> & <-)). split; [done|]. split; [apply Hin2; left|done].
Qed.

(** A successor's epoch ends the fence.  If the store refuses the save of a cursor for its
    epoch (and not because the session has no catalog), the consumer ends its fence as
    superseded in the same pass. *)
Theorem stored_epoch_ends_fence c st tr a o t s ep ord e
    (Hrun : runs (interp (over_store Parse (TenantID (Consumer.key c)) (SessionID (Consumer.key c))) (Consumer.Reconcile valid c st)) tr a)
    (Ho : o ∈ tr) (Hs : stored_save o = Some (t, s, ep, ord, Some e)) (Hcode : as_inbox e = Some InboxErrorEpoch) (Hcat : isDispositionCatalogRefusal e = false) :
  Obs (SHost (Consumer.CEnd LossReasonEpochSuperseded)) tt ∈ tr.
Proof.
  apply runs_interp in Hrun as (cs & -> & Hrun & Hmade). apply in_made in Ho as (cl & Hc & Ho). pose proof Hmade as Hm. rewrite Forall_forall in Hm.
  destruct (over_store_save _ _ _ _ _ _ _ _ _ (Hm _ Hc) Ho Hs) as (_ & _ & _ & Hans). rewrite Hcat in Hans.
  assert (cl.1 ∈ cs.*1) as Hup by (apply list_elem_of_fmap; eauto).
  pose proof (Consumer.superseded_ends _ _ _ _ _ _ _ Hrun Hup Hans) as Hend. rewrite classifyInbox_superseded, Hcode, orb_true_r in Hend. specialize (Hend eq_refl).
  destruct (in_upper _ _ _ Hmade Hend) as (seg & Hin & ([] & seg' & -> & _)). apply Hin. left.
Qed.
End layered.

Section dispatching.
Context (Parse : string → option Z) (t s : string) (grant : nat).
Context (decodeInput decodeCreate decodeInterrupt decodeRestore : string → res Request) (decodeGateResponse : string → res GateResponseRequest)
        (validateGateResponse : GateResponseRequest → option error) (gate_uuid : string → bool) (sha256_hex : string → string).

Abbreviation process := (Disposition.Process decodeInput decodeCreate decodeInterrupt decodeRestore decodeGateResponse validateGateResponse gate_uuid sha256_hex).

(** The attempt a dispatch through the layers names. *)
Definition stored_dispatch (o : obs (SE Disposition.DE)) : option string :=
  match o with Obs e _ => match e with SHost e => match e with Disposition.DApplyCommand command => Some (rc_AttemptID command) | _ => None end | _ => None end end.

Lemma over_disposition_dispatch c o attempt :
  made (over_disposition Parse t s grant) c → o ∈ c.2 → stored_dispatch o = Some attempt →
  Disposition.dispatching c.1 = Some attempt ∧ Disposition.is_dispatch c.1 = true ∧ c.2 = [o].
Proof.
  destruct c as [[X e v] seg]. unfold made. simpl. destruct e; simpl; intros (x & seg' & -> & -> & Hv) [->|Ho%elem_of_nil]%elem_of_cons; done.
Qed.

Lemma latest_in {A} (f : obs Disposition.DE → option A) l a : Disposition.latest f l = Some a → ∃ o, o ∈ l ∧ f o = Some a.
Proof.
  induction l as [|o l IH] using rev_ind; [done|]. rewrite Disposition.latest_snoc. destruct (f o) eqn:Hf.
  - intros [= ->]. exists o. split; [apply elem_of_app; right; left|done].
  - intros (o' & ? & ?)%IH. exists o'. split; [apply elem_of_app; by left|done].
Qed.

(** C4 A command is handed to the runtime under an attempt the store recorded.  Run the
    disposition applier over the store: whatever the store and the runtime answer, every
    dispatch names an attempt whose beginning the store accepted earlier in the same
    call, for this session, and it is the first dispatch of the call. *)
Theorem stored_attempt_before_dispatch a command tr r tr1 o tr2 attempt
    (Hrun : runs (interp (over_disposition Parse t s grant) (process a command)) tr r) (Htr : tr = tr1 ++ o :: tr2)
    (Hd : stored_dispatch o = Some attempt) :
  (∃ id at_ revision, Obs (SBeginAttempt t s id at_) (Ok revision) ∈ tr1 ∧ Disposition.at_AttemptID at_ = attempt) ∧
  Forall (fun o => stored_dispatch o = None) tr1.
Proof.
  apply runs_interp in Hrun as (cs & Heq & Hrun & Hmade). rewrite Htr in Heq. destruct (made_split _ _ _ _ _ Hmade (eq_sym Heq)) as (cs1 & c & cs2 & s1 & s2 & -> & Hc & -> & _ & Hm).
  destruct (over_disposition_dispatch c o attempt Hm) as (Hdis & His & Hone); [rewrite Hc; apply elem_of_app; right; left|done|].
  rewrite Hone in Hc. destruct s1 as [|x s1]; [|by destruct s1]. rewrite app_nil_r. apply Forall_app in Hmade as [Hmade1 _].
  rewrite fmap_app, fmap_cons in Hrun. destruct (proj2 (Disposition.disposition_each _ _ _ _ _ _ _ _ _ _ _ _ Hrun) _ _ _ eq_refl).
  destruct (lw_dispatch attempt Hdis) as (Hfirst & Hbegun & _). split.
  - destruct (latest_in _ _ _ Hbegun) as ([X e x] & Hin & Hb). destruct e as [| | |id at_| | | | | | | | | | | | | | | | |]; try done. destruct x as [revision|]; [|done]. injection Hb as Hb.
    destruct (in_upper _ _ _ Hmade1 Hin) as (seg & Hseg & (answer & seg' & -> & -> & Hans)). destruct answer as [rev|]; [|done].
    exists id, at_, rev. split; [apply Hseg; left|done].
  - apply Forall_forall. intros o' (c' & Hc' & Ho')%in_made. destruct (stored_dispatch o') as [attempt'|] eqn:Hd'; [|done]. exfalso.
    rewrite Forall_forall in Hmade1. destruct (over_disposition_dispatch c' o' attempt' (Hmade1 _ Hc') Ho' Hd') as (_ & His' & _).
    apply not_true_iff_false in Hfirst. apply Hfirst. unfold seen. apply existsb_exists. exists c'.1. split; [|done].
    apply list_elem_of_In, list_elem_of_fmap. eauto.
Qed.
End dispatching.

(** ** What a create rests on *)

Definition meta_of {H : Type → Type} (o : obs (SE H)) : option (res bool) :=
  match o with Obs x v => match x in SE _ X return X → option (res bool) with SReadMeta _ _ => Some | _ => fun _ => None end v end.

(** C6 An absent conversation was looked for and not there.  A session state read from the
    store calls the runtime's journal absent only when the catalog record names a runtime
    session, the reader of the session's own tenant and storage binding is a journal of
    the runtime's, it answered no metadata for that session, and its first read of that
    session's journal from the beginning was the end.  And it calls the session missing
    only when the store said so. *)
Theorem absence_witnessed {H : Type → Type} Parse uuid_string IsRuntimeJournal store t s (tr : list (obs (SE H))) st
    (Hrun : runs (LoadSessionState Parse uuid_string IsRuntimeJournal store t s) tr (Ok st)) :
  (Manager.st_RuntimeJournal st = Manager.RuntimeJournalAbsent →
   ∃ record id readers reader e, Obs (SGetCatalog t s) (Ok record) ∈ tr ∧ Parse (RuntimeSessionID (cr_Binding record)) = Some id ∧ id ≠ 0%Z ∧
     Manager.RigSessionID st = Some (uuid_string id) ∧ journals store = Some readers ∧
     readers !! (t, StorageBindingID (cr_Binding record)) = Some (Some reader) ∧ IsRuntimeJournal reader = true ∧
     (∀ o, o ∈ tr → meta_of o ≠ Some (Ok true)) ∧
     Obs (SOpenReplayer reader true id 0) None ∈ tr ∧ Obs (SCursorNext reader) (Some e) ∈ tr ∧ errors_is e io_EOF = true) ∧
  (Manager.Exists_ st = false → ∃ e, Obs (SGetCatalog t s) (Err e) ∈ tr ∧ isCatalogAbsent e = true).
Proof.
  unfold LoadSessionState in Hrun. destruct (namespace store) as [layout|]; [|by destruct Hrun as [_ ?]]. simpl in Hrun. destruct Hrun as (entry & tr1 & -> & Hrun).
  destruct entry as [record|e].
  2:{ destruct Hrun as [-> Hst]. destruct (isCatalogAbsent e) eqn:Ha; [|done]. injection Hst as ->. split; [done|]. intros _. exists e. split; [left|done]. }
  case_bool_decide as Hb.
  - unfold runtime_id in Hrun. destruct (Parse (RuntimeSessionID (cr_Binding record))) as [id|] eqn:Hid; [|by destruct Hrun as [_ ?]].
    destruct (Z.eqb_spec id 0) as [|Hnz]; [by destruct Hrun as [_ ?]|]. destruct (journals store) as [readers|] eqn:Hj.
    2:{ destruct Hrun as [-> [= ->]]. done. }
    apply runs_bind in Hrun as (tr2 & tr3 & [journal err] & -> & Hrj & [-> Hst]). destruct err as [|]; [done|]. injection Hst as ->. split; [|done]. simpl. intros ->.
    unfold RuntimeJournal in Hrj. destruct (readers !! _) as [[reader|]|] eqn:Hreader; [|by destruct Hrj as [_ [=]]|by destruct Hrj as [_ [=]]].
    destruct (IsRuntimeJournal reader) eqn:Hr; [|by destruct Hrj as [_ [=]]]. simpl in Hrj. destruct Hrj as (meta & tr4 & -> & Hrj).
    assert (meta ≠ Ok true ∧ ∃ e, tr4 = [Obs (SOpenReplayer reader true id 0) None; Obs (SReplayerOpen reader None) None; Obs (SCursorNext reader) (Some e)] ∧ errors_is e io_EOF = true) as [Hmeta (e & -> & He)].
    { destruct meta as [[]|]; [by destruct Hrj as [_ [=]]|..]; (split; [done|]).
      all: destruct Hrj as ([e1|] & tr5 & -> & Hrj); [by destruct Hrj as [_ [=]]|]; destruct Hrj as ([e2|] & tr6 & -> & Hrj); [by destruct Hrj as [_ [=]]|].
      all: destruct Hrj as ([e3|] & tr7 & -> & -> & Hans); [|done]; destruct (errors_is e3 io_EOF) eqn:He3; [|done]; by exists e3. }
    exists record, id, readers, reader, e. rewrite app_nil_r. split_and!; try done; try (rewrite !elem_of_cons; simpl; tauto).
    intros o. rewrite !elem_of_cons, elem_of_nil. intros Ho. repeat destruct Ho as [Ho|Ho]; subst; simpl; congruence || done.
  - destruct (has_rigSessionIDs store); [|by destruct Hrun as [_ ?]]. simpl in Hrun. destruct Hrun as (id & tr2 & -> & -> & Hst). destruct id; [|done]. injection Hst as ->. done.
Qed.

(** ** A grant is lost once *)

Inductive gop := GAppend (t s : string) (appended : option error) | GRelease (closed : option error).
Definition gstep (g : Grant) (o : gop) : Grant :=
  match o with GAppend t s appended => (AppendApplicationPrefix g t s appended).2 | GRelease closed => (Release g closed).2 end.
(** What ends a grant of a session: its release, or an append of its own the store fenced. *)
Definition ends (t s : string) (o : gop) : Prop :=
  match o with
  | GRelease _ => True
  | GAppend t' s' appended => t' = t ∧ s' = s ∧ ∃ e, appended = Some e ∧
      (as_journal e = Some JournalErrorLeaseLost ∨ as_journal e = Some JournalErrorFenced ∨ errors_is e ErrEpochSuperseded = true ∨ errors_is e ErrFenceConflict = true)
  end.

Lemma classifyJournal_ends e :
  errors_is (classifyJournal e) ErrEpochSuperseded || errors_is (classifyJournal e) ErrFenceConflict = true ↔
  as_journal e = Some JournalErrorLeaseLost ∨ as_journal e = Some JournalErrorFenced ∨ errors_is e ErrEpochSuperseded = true ∨ errors_is e ErrFenceConflict = true.
Proof.
  unfold classifyJournal. rewrite orb_true_iff. destruct (as_journal e) as [[]|]; unfold mark, errors_is, Manager.ErrLeaseHeld, ErrEpochSuperseded, ErrFenceConflict;
    rewrite ?errors_is_mark; split; intros Hx; repeat destruct Hx as [Hx|Hx]; auto; try done; rewrite ?Hx, ?orb_true_r; auto.
Qed.

(** A grant's loss is told once, and exactly when it is known.  Over any sequence of
    appends and releases the loss channel is closed at most once (a second close would
    panic); it is closed exactly when the grant was released or an append of its own
    session was refused as fenced or lost; and an append for another session neither asks
    the writer nor ends the grant. *)
Theorem grant_lost_once t s ops :
  let g := fold_left gstep ops (mkGrant t s false 0) in
  (tenant g = t ∧ session g = s) ∧ (closes g ≤ 1)%nat ∧ (closes g = 1%nat ↔ Exists (ends t s) ops) ∧
  (∀ t' s' appended, (t', s') ≠ (t, s) → AppendApplicationPrefix g t' s' appended = (Some ForeignGrantError, false, g)).
Proof.
  cbn zeta. assert (let g := fold_left gstep ops (mkGrant t s false 0) in tenant g = t ∧ session g = s ∧ closes g = (if done_ g then 1 else 0)%nat ∧ (done_ g = true ↔ Exists (ends t s) ops)) as Hinv.
  { cbn zeta. induction ops as [|o ops (H1 & H2 & H3 & H4)] using rev_ind; [by rewrite Exists_nil|]. rewrite fold_left_app, Exists_app, Exists_cons, Exists_nil, <-H4. simpl.
    set (g := fold_left gstep ops _) in *. clearbody g. clear H4.
    assert (tenant (end_grant g) = t ∧ session (end_grant g) = s ∧ closes (end_grant g) = (if done_ (end_grant g) then 1 else 0)%nat ∧ done_ (end_grant g) = true) as Hend.
    { unfold end_grant. destruct (done_ g) eqn:Hd; [by rewrite Hd|]. split_and!; [done|done|by rewrite H3|done]. }
    destruct o as [t' s' appended|closed]; simpl; [|destruct Hend as (E1 & E2 & E3 & E4); rewrite E3, E4; tauto].
    unfold AppendApplicationPrefix. rewrite H1, H2. case_bool_decide as Ht; simpl; [split_and!; [done..|]; naive_solver|].
    case_bool_decide as Hs; simpl; [split_and!; [done..|]; naive_solver|]. subst t' s'. destruct appended as [e|]; simpl; [|split_and!; [done..|]; naive_solver].
    destruct (errors_is (classifyJournal e) ErrEpochSuperseded || errors_is (classifyJournal e) ErrFenceConflict) eqn:Hc.
    - destruct Hend as (E1 & E2 & E3 & E4). rewrite E3, E4. split_and!; [done..|]. split; [|done]. intros _. right; left. split_and!; [done..|]. exists e. split; [done|]. by apply classifyJournal_ends.
    - split_and!; [done..|]. split; [by left|]. intros [?|[(_ & _ & e' & [= <-] & He)|[]]]; [done|]. apply classifyJournal_ends in He. congruence. }
  cbn zeta in Hinv. destruct Hinv as (H1 & H2 & H3 & H4). split_and!; [done|done|destruct (done_ _); lia| |].
  - rewrite H3, <-H4. by destruct (done_ _).
  - intros t' s' appended Hne. unfold AppendApplicationPrefix. rewrite H1, H2. case_bool_decide as Ht; [done|]. subst t'.
    rewrite bool_decide_eq_true_2; [done|]. intros ->. by apply Hne.
Qed.

(** ** Witnesses

    A store with one settled and one pending command of a session, whose catalog names a
    runtime session that has no journal yet. *)
Definition sample_entry (c : string) (order : Z) (state : InboxState) : DispositionInboxEntry :=
  mkDisposition "t" "s" c "77" "input" state order 11 1000 None None "{}" None.
Definition sample_catalog : CatalogRecord := mkCatalog "t" "s" "a" "v1" 0 4 (mkBinding "b" "rt" true "") [].
Definition superseding : error := ETyped (TInboxError InboxErrorEpoch) None.

Definition sample_store {H : Type → Type} (saved : option error) (host : handler H unit) : handler (SE H) unit := fun X e =>
  match e in SE _ X return unit → X * unit with
  | SHost e => host _ e
  | SListDisposition _ _ _ _ => fun u => (Ok [sample_entry "c1" 6 InboxStateApplied; sample_entry "c2" 9 InboxStatePending], u)
  | SLoadCursor _ _ => fun u => (Ok 5%Z, u)
  | SSaveCursor _ _ _ _ => fun u => (saved, u)
  | SGetCommand _ _ _ | SFindApplication _ _ _ => fun u => (Err (EForeign "unused"), u)
  | SClaim _ _ _ _ | SBeginApplying _ _ _ _ | SClaimDisposition _ _ _ _ _ => fun u => (Ok 12%Z, u)
  | SComplete _ _ _ _ | SReject _ _ _ _ | SRejectDisposition _ _ _ _ => fun u => (None, u)
  | SGetDisposition _ _ c => fun u => (Ok (sample_entry c 6 InboxStatePending), u)
  | SBeginAttempt _ _ _ _ => fun u => (Ok 13%Z, u)
  | SSettle _ _ _ _ => fun u => (Ok InboxStateApplied, u)
  | SGetCatalog _ _ => fun u => (Ok sample_catalog, u)
  | SOpenGate _ _ _ _ | SResolveGate _ _ _ _ => fun u => (None, u)
  | SAcquireResidency _ _ => fun u => (Ok 0, u)
  | SReadMeta _ _ => fun u => (Ok false, u)
  | SOpenReplayer _ _ _ _ | SReplayerOpen _ _ => fun u => (None, u)
  | SCursorNext _ => fun u => (Some io_EOF, u)
  | SReplay _ _ _ => fun u => (([], io_EOF), u)
  | SRigSessionID _ _ => fun u => (Ok 7%Z, u)
  | SPutRegistration _ | SClearRegistration _ _ _ | SPublishTarget _ | SDrainTarget _ => fun u => (None, u)
  end.

Definition sample_parse (_ : string) : option Z := Some 77%Z.
Definition stored_pass (saved : option error) :=
  exec (sample_store saved Consumer.sample_world)
    (interp (over_store sample_parse "t" "s") (Consumer.Reconcile Consumer.valid_id Consumer.sample_consumer (Consumer.mkCursors 5 true))) tt.

Lemma stored_pass_runs saved : saved = None ∨ saved = Some superseding →
  runs (interp (over_store sample_parse "t" "s") (Consumer.Reconcile Consumer.valid_id Consumer.sample_consumer (Consumer.mkCursors 5 true))) (stored_pass saved).2 (stored_pass saved).1.1.
Proof.
  intros [->| ->].
  - apply (exec_runs (sample_store None Consumer.sample_world) _ tt _ tt). vm_compute. reflexivity.
  - apply (exec_runs (sample_store (Some superseding) Consumer.sample_world) _ tt _ tt). vm_compute. reflexivity.
Qed.

Lemma stored_cursor_settles_witness :
  stored_save (nth 12 (stored_pass None).2 (Obs (SLoadCursor "" "") (Ok 0%Z))) = Some ("t", "s", 4%Z, 9%Z, None) ∧ (4 = Consumer.epoch Consumer.sample_consumer)%Z.
Proof.
  split; [vm_compute; reflexivity|].
  refine (proj2 (proj2 (proj1 (stored_cursor_settles sample_parse Consumer.valid_id Consumer.sample_consumer (Consumer.mkCursors 5 true) (stored_pass None).2 (stored_pass None).1.1
    (nth 12 (stored_pass None).2 (Obs (SLoadCursor "" "") (Ok 0%Z))) "t" "s" 4 9 None (stored_pass_runs None (or_introl eq_refl)) _ _)))).
  - vm_compute. do 12 right. left.
  - vm_compute. reflexivity.
Defined.

Lemma stored_epoch_ends_fence_witness : Obs (SHost (Consumer.CEnd LossReasonEpochSuperseded)) tt ∈ (stored_pass (Some superseding)).2.
Proof.
  refine (stored_epoch_ends_fence sample_parse Consumer.valid_id Consumer.sample_consumer (Consumer.mkCursors 5 true) (stored_pass (Some superseding)).2 (stored_pass (Some superseding)).1.1
    (nth 12 (stored_pass (Some superseding)).2 (Obs (SLoadCursor "" "") (Ok 0%Z))) "t" "s" 4 9 superseding (stored_pass_runs _ (or_intror eq_refl)) _ _ _ _).
  - vm_compute. do 12 right. left.
  - vm_compute. reflexivity.
  - reflexivity.
  - reflexivity.
Defined.

Definition sample_apply : prog Disposition.DE (Outcome * option error) := Disposition.sample_Process.
Definition stored_apply := exec (sample_store None (Disposition.sample_world StatePending)) (interp (over_disposition sample_parse "t" "s" 3) sample_apply) tt.

Lemma stored_attempt_before_dispatch_witness :
  stored_dispatch (nth 12 stored_apply.2 (Obs (SLoadCursor "" "") (Ok 0%Z))) = Some "a1" ∧
  ∃ id at_ revision, Obs (SBeginAttempt "t" "s" id at_) (Ok revision) ∈ take 12 stored_apply.2 ∧ Disposition.at_AttemptID at_ = "a1".
Proof.
  split; [vm_compute; reflexivity|].
  refine (proj1 (stored_attempt_before_dispatch sample_parse "t" "s" 3 Disposition.sample_decode Disposition.sample_decode Disposition.sample_decode Disposition.sample_decode
    (fun _ => Err (EForeign "json")) (fun _ => None) (fun _ => true) (fun s => s) Disposition.sample_applier Disposition.sample_command stored_apply.2 stored_apply.1.1
    (take 12 stored_apply.2) (nth 12 stored_apply.2 (Obs (SLoadCursor "" "") (Ok 0%Z))) (drop 13 stored_apply.2) "a1" _ _ _)).
  - apply (exec_runs (sample_store None (Disposition.sample_world StatePending)) _ tt _ tt). vm_compute. reflexivity.
  - vm_compute. reflexivity.
  - vm_compute. reflexivity.
Defined.

Definition no_host : handler (fun _ => Empty_set) unit := fun X e => match e with end.
Definition sample_readers : gmap Composition.EvidenceKey (option nat) := {[("t", "b") := Some 0]}.
Definition loading := exec (sample_store None no_host)
  (LoadSessionState sample_parse (fun _ => "rt") (fun _ => true) (mkStore (Some (fun _ _ => "ns")) false (Some sample_readers) None) "t" "s") tt.
Definition loaded_state : Manager.SessionState := Manager.mkState true "ns" "v1" (Some "rt") Manager.RuntimeJournalAbsent false 0.

Lemma absence_witnessed_witness : ∃ e, Obs (SCursorNext 0) (Some e) ∈ loading.2 ∧ errors_is e io_EOF = true.
Proof.
  assert (runs (LoadSessionState sample_parse (fun _ => "rt") (fun _ => true) (mkStore (Some (fun _ _ => "ns")) false (Some sample_readers) None) "t" "s") loading.2 (Ok loaded_state)) as Hrun.
  { apply (exec_runs (sample_store None no_host) _ tt _ tt). vm_compute. reflexivity. }
  destruct (proj1 (absence_witnessed sample_parse (fun _ => "rt") (fun _ => true) (mkStore (Some (fun _ _ => "ns")) false (Some sample_readers) None) "t" "s" loading.2 loaded_state Hrun) eq_refl)
    as (record & id & readers & reader & e & Hr & _ & _ & _ & Hj & Hreader & _ & _ & _ & Hnext & He).
  assert (reader = 0) as ->.
  { injection Hj as <-. unfold sample_readers in Hreader. apply lookup_singleton_Some in Hreader as [_ [= <-]]. reflexivity. }
  exists e. split; [exact Hnext|exact He].
Defined.
End StoreAdapter.
