(* ===== verification/Transport.v ===== *)
(** * Transport.v: transient frames on a tenant's transport

    [hostlink/ephemeral_budget.go] (each physical client's budget of transient bytes) and
    the bookkeeping of [hostlink/centrifuge.go] that decides whom a frame would reach
    ([centrifugeServer]).  Every operation holds the server's mutex, so an execution is
    a list of operations.  Tokens are the doubles of [Floats.v];
    Centrifuge's hub, its broker and its encoder answer the operations that ask them. *)
From Stdlib Require Import ZArith SpecFloat.
From stdpp Require Import base list strings gmap.
From S2P Require Import Prelude Errors Composition Floats.

Module Transport.

Import Floats.

(** [Duration.Seconds], and [Time.Sub], which saturates. *)
Definition Seconds (d : Z) : float64 := fadd (of_int (Z.quot d 1000000000)) (fdiv (of_int (Z.rem d 1000000000)) (of_int 1000000000)).
Definition Sub (a b : Z) : Z := Z.max (- two63) (Z.min MaxInt64 (a - b)).

(** ** The budget *)

Record ephemeralTokens := mkTokens { remaining : float64; at_ : Z }.
Record ephemeralBudget := mkBudget { rate : float64; burst : float64; client : gmap string ephemeralTokens }.

Definition newEphemeralBudget (rate burst : Z) : ephemeralBudget := mkBudget (of_int rate) (of_int burst) ∅.

(** A client's tokens at a time. *)
Definition refilled (b : ephemeralBudget) (now : Z) (id : string) : ephemeralTokens :=
  match client b !! id with
  | None => mkTokens (burst b) now
  | Some state =>
      let elapsed := Seconds (Sub now (at_ state)) in
      if SFltb (S754_zero false) elapsed
      then mkTokens (fmin (burst b) (fadd (remaining state) (fmul elapsed (rate b)))) now
      else state
  end.

(** The two loops of [admit]. *)
Fixpoint gather (b : ephemeralBudget) (now size : Z) (clients : list string) (updated : gmap string ephemeralTokens) : option (gmap string ephemeralTokens) :=
  match clients with
  | [] => Some updated
  | id :: clients =>
      let state := refilled b now id in
      if SFltb (remaining state) (of_int size) then None else gather b now size clients (<[id := state]> updated)
  end.
Definition charge (size : Z) (state : ephemeralTokens) : ephemeralTokens := mkTokens (fsub (remaining state) (of_int size)) (at_ state).

(** [admit]. *)
Definition admit_ (b : ephemeralBudget) (now : Z) (clients : list string) (size : Z) : bool * ephemeralBudget :=
  if (size <=? 0)%Z || SFltb (burst b) (of_int size) then (false, b)
  else match gather b now size clients ∅ with
       | None => (false, b)
       | Some updated => (true, mkBudget (rate b) (burst b) ((charge size <$> updated) ∪ client b))
       end.

Definition forget (b : ephemeralBudget) (clientID : string) : ephemeralBudget := mkBudget (rate b) (burst b) (delete clientID (client b)).

(** ** The server *)

(** [centrifugeServer]. *)
Record centrifugeServer := mkServer { budget : ephemeralBudget; subscribed : gmap string (gmap string Z); nextSubscription : Z }.

Definition set_subscribed (s : centrifugeServer) (m : gmap string (gmap string Z)) : centrifugeServer := mkServer (budget s) m (nextSubscription s).
Definition clients_of (s : centrifugeServer) (channel : string) : gmap string Z := default ∅ (subscribed s !! channel).

(** A channel's clients, written back, or dropped with the last of them. *)
Definition put (channel : string) (clients : gmap string Z) (m : gmap string (gmap string Z)) : gmap string (gmap string Z) :=
  if bool_decide (clients = ∅) then delete channel m else <[channel := clients]> m.

Definition noteSubscribed (s : centrifugeServer) (clientID channel : string) : centrifugeServer :=
  let attempt := u64 (nextSubscription s + 1) in
  mkServer (budget s) (<[channel := <[clientID := attempt]> (clients_of s channel)]> (subscribed s)) attempt.

Definition subscriptionFinished (s : centrifugeServer) (clientID channel : string) (attempt : Z) (accepted : bool) : centrifugeServer :=
  if accepted then s
  else if bool_decide (default 0%Z (clients_of s channel !! clientID) ≠ attempt) then s
  else set_subscribed s (put channel (delete clientID (clients_of s channel)) (subscribed s)).

Definition noteUnsubscribed (s : centrifugeServer) (clientID channel : string) : centrifugeServer :=
  set_subscribed s (put channel (delete clientID (clients_of s channel)) (subscribed s)).

Definition forgetClient (s : centrifugeServer) (clientID : string) : centrifugeServer :=
  mkServer (forget (budget s) clientID)
    (omap (fun clients => let clients := delete clientID clients in if bool_decide (clients = ∅) then None else Some clients) (subscribed s))
    (nextSubscription s).

(** [admitSubscribed]: the connected of a channel's clients, whom the rest make way for. *)
Definition reached (s : centrifugeServer) (channel : string) (active : gset string) : gmap string Z :=
  filter (fun c => c.1 ∈ active) (clients_of s channel).
Definition admitSubscribed (s : centrifugeServer) (channel : string) (active : gset string) (now size : Z) : bool * centrifugeServer :=
  let clients := reached s channel active in
  let '(admitted, budget) := admit_ (budget s) now (elements (dom clients)) size in
  (admitted, mkServer budget (put channel clients (subscribed s)) (nextSubscription s)).

(** [TryPublishEphemeral]: [queued] is the size the encoder answers, [published] whether
    the broker's publish succeeds. *)
Definition TryPublishEphemeral (s : centrifugeServer) (channel : string) (payload : nat) (queued : option Z) (active : gset string) (now : Z) (published : bool) :
    bool * centrifugeServer :=
  if (payload =? 0)%nat || (Composition.MaxTransientFrameBytes <? Z.of_nat payload)%Z then (false, s)
  else match queued with
       | None => (false, s)
       | Some size =>
           let '(admitted, s) := admitSubscribed s channel active now size in
           (admitted && published, s)
       end.

(** ** A frame charges everyone it reaches, or no one *)

Lemma gather_Some b now size clients updated m :
  gather b now size clients updated = Some m →
  (∀ id, m !! id = if decide (id ∈ clients) then Some (refilled b now id) else updated !! id) ∧
  Forall (fun id => SFltb (remaining (refilled b now id)) (of_int size) = false) clients.
Proof.
  revert updated. induction clients as [|c clients IH]; intros updated; cbn [gather].
  - intros [= ->]. split; [|constructor]. intros id. by rewrite decide_False by apply not_elem_of_nil.
  - destruct (SFltb _ _) eqn:Hlt; [done|]. intros [H1 H2]%IH. split; [|by constructor]. intros id. rewrite H1.
    destruct (decide (id ∈ clients)); [by rewrite decide_True by by right|]. destruct (decide (id = c)) as [->|Hne].
    + rewrite decide_True by left. by rewrite lookup_insert_eq.
    + rewrite decide_False by (intros [?|?]%elem_of_cons; done). by rewrite lookup_insert_ne.
Qed.

Lemma budget_admit_spec b now clients size ok b' :
  admit_ b now clients size = (ok, b') →
  if ok then (0 < size)%Z ∧ SFltb (burst b) (of_int size) = false ∧ rate b' = rate b ∧ burst b' = burst b ∧
       ∀ id, (id ∈ clients → SFltb (remaining (refilled b now id)) (of_int size) = false) ∧
         client b' !! id = if decide (id ∈ clients) then Some (charge size (refilled b now id)) else client b !! id
  else b' = b.
Proof.
  unfold admit_. destruct (Z.leb_spec size 0); [by intros [= <- <-]|]. simpl. destruct (SFltb (burst b) (of_int size)) eqn:Hb; [by intros [= <- <-]|].
  destruct (gather b now size clients ∅) as [m|] eqn:Hg; intros [= <- <-]; [|done]. apply gather_Some in Hg as [H1 H2].
  split_and!; [lia|done|done|done|]. intros id. rewrite Forall_forall in H2. split; [apply H2|].
  simpl. rewrite lookup_union, lookup_fmap, H1. destruct (decide (id ∈ clients)); [by destruct (client b !! id)|]. rewrite lookup_empty. by destruct (client b !! id).
Qed.

(** C34 A transient frame charges every client it reaches, once, or charges no one.  A frame
    is published only when it is not empty and at most 4 KiB, and every connected client
    subscribed to its channel had the tokens for its size on the wire; each of them then
    has that many fewer, and no other client's tokens move.  When it is not published no
    tokens move, unless the broker itself refused an admitted frame. *)
Theorem transient_charges_all s channel payload queued active now published ok s' :
  TryPublishEphemeral s channel payload queued active now published = (ok, s') →
  (ok = true → (0 < payload ≤ 4096)%nat ∧ ∃ size, queued = Some size ∧ (0 < size)%Z ∧
     ∀ id, (id ∈ dom (reached s channel active) → SFltb (remaining (refilled (budget s) now id)) (of_int size) = false) ∧
       client (budget s') !! id = if decide (id ∈ dom (reached s channel active)) then Some (charge size (refilled (budget s) now id)) else client (budget s) !! id) ∧
  (ok = false → published = true → budget s' = budget s).
Proof.
  unfold TryPublishEphemeral. destruct (Nat.eqb_spec payload 0); [by intros [= <- <-]|]. simpl.
  destruct (Z.ltb_spec Composition.MaxTransientFrameBytes (Z.of_nat payload)) as [|Hmax]; [by intros [= <- <-]|].
  destruct queued as [size|]; [|by intros [= <- <-]]. unfold admitSubscribed.
  destruct (admit_ (budget s) now (elements (dom (reached s channel active))) size) as [admitted b] eqn:Ha. apply budget_admit_spec in Ha. intros [= <- <-].
  unfold Composition.MaxTransientFrameBytes in Hmax. split.
  - intros [-> ->]%andb_true_iff. split; [lia|]. exists size. destruct Ha as (H1 & _ & _ & _ & H2). split_and!; [done|done|]. intros id. simpl.
    destruct (H2 id) as [H3 H4]. setoid_rewrite elem_of_elements in H3. split; [done|]. rewrite H4.
    destruct (decide (id ∈ elements (dom (reached s channel active)))) as [Hin|Hin], (decide (id ∈ dom (reached s channel active))) as [Hin'|Hin']; try done;
      rewrite elem_of_elements in Hin; contradiction.
  - intros Hok ->. rewrite andb_true_r in Hok. subst admitted. done.
Qed.

(** ** Whom a frame would reach *)

Inductive top :=
| TNote (clientID channel : string) | TFinished (clientID channel : string) (attempt : Z) (accepted : bool)
| TUnsubscribed (clientID channel : string) | TForget (clientID : string)
| TPublish (channel : string) (payload : nat) (queued : option Z) (active : gset string) (now : Z) (published : bool).

Definition step (s : centrifugeServer) (o : top) : centrifugeServer :=
  match o with
  | TNote clientID channel => noteSubscribed s clientID channel
  | TFinished clientID channel attempt accepted => subscriptionFinished s clientID channel attempt accepted
  | TUnsubscribed clientID channel => noteUnsubscribed s clientID channel
  | TForget clientID => forgetClient s clientID
  | TPublish channel payload queued active now published => (TryPublishEphemeral s channel payload queued active now published).2
  end.

(** The reference: one client's attempt on one channel, with the attempts counted. *)
Definition pair_step (clientID channel : string) (p : Z * option Z) (o : top) : Z * option Z :=
  match o with
  | TNote c ch => let n := u64 (p.1 + 1) in (n, if bool_decide (c = clientID ∧ ch = channel) then Some n else p.2)
  | TFinished c ch attempt accepted =>
      (p.1, if negb accepted && bool_decide (c = clientID ∧ ch = channel ∧ p.2 = Some attempt) then None else p.2)
  | TUnsubscribed c ch => (p.1, if bool_decide (c = clientID ∧ ch = channel) then None else p.2)
  | TForget c => (p.1, if bool_decide (c = clientID) then None else p.2)
  | TPublish ch payload queued active _ _ =>
      (p.1, if (0 <? payload)%nat && (Z.of_nat payload <=? Composition.MaxTransientFrameBytes)%Z && bool_decide (is_Some queued) &&
               bool_decide (ch = channel ∧ clientID ∉ active) then None else p.2)
  end.

Definition attempt_of (m : gmap string (gmap string Z)) (clientID channel : string) : option Z := m !! channel ≫= (.!! clientID).

(** No channel without a client is kept. *)
Definition tidy (m : gmap string (gmap string Z)) : Prop := ∀ channel clients, m !! channel = Some clients → clients ≠ ∅.

Lemma put_spec channel clients m : tidy m →
  tidy (put channel clients m) ∧ ∀ c ch, attempt_of (put channel clients m) c ch = if decide (ch = channel) then clients !! c else attempt_of m c ch.
Proof.
  intros Hm. unfold put, attempt_of. case_bool_decide as He.
  - subst clients. split; [intros ch cl [_ H]%lookup_delete_Some; by eapply Hm|]. intros c ch. destruct (decide (ch = channel)) as [->|].
    + by rewrite lookup_delete_eq, lookup_empty.
    + by rewrite lookup_delete_ne.
  - split.
    + intros ch cl. rewrite lookup_insert_Some. intros [[_ <-]|[_ H]]; [done|by eapply Hm].
    + intros c ch. destruct (decide (ch = channel)) as [->|]; [by rewrite lookup_insert_eq|by rewrite lookup_insert_ne].
Qed.

Lemma clients_of_attempt s channel c : clients_of s channel !! c = attempt_of (subscribed s) c channel.
Proof. unfold clients_of, attempt_of. destruct (subscribed s !! channel); [done|]. apply lookup_empty. Qed.

Lemma forget_attempt m clientID :
  tidy (omap (fun clients => let clients := delete clientID clients in if bool_decide (clients = ∅) then None else Some clients) m) ∧
  ∀ c ch, attempt_of (omap (fun clients => let clients := delete clientID clients in if bool_decide (clients = ∅) then None else Some clients) m) c ch =
    if decide (c = clientID) then None else attempt_of m c ch.
Proof.
  cbv zeta. split.
  - intros ch cl (clients & H & _)%lookup_omap_Some. case_bool_decide; [done|]. by injection H as <-.
  - intros c ch. unfold attempt_of. rewrite lookup_omap. destruct (m !! ch) as [clients|]; simpl; [|by destruct (decide _)].
    case_bool_decide as He; simpl.
    + destruct (decide (c = clientID)); [done|]. by rewrite <-(lookup_delete_ne clients clientID c), He, lookup_empty.
    + destruct (decide (c = clientID)) as [->|]; [by rewrite lookup_delete_eq|by rewrite lookup_delete_ne].
Qed.

Lemma step_exact s o c ch :
  tidy (subscribed s) →
  tidy (subscribed (step s o)) ∧
  (nextSubscription (step s o), attempt_of (subscribed (step s o)) c ch) = pair_step c ch (nextSubscription s, attempt_of (subscribed s) c ch) o.
Proof.
  intros Hs. destruct o as [c' ch'|c' ch' attempt accepted|c' ch'|c'|ch' payload queued active now published]; simpl.
  - split.
    + intros x cl. rewrite lookup_insert_Some. intros [[_ <-]|[_ H]]; [apply insert_non_empty|by eapply Hs].
    + f_equal. unfold attempt_of at 1. destruct (decide (ch = ch')) as [->|Hne].
      * rewrite lookup_insert_eq. simpl. destruct (decide (c = c')) as [->|Hc]; [by rewrite lookup_insert_eq, bool_decide_eq_true_2|].
        rewrite lookup_insert_ne, clients_of_attempt, bool_decide_eq_false_2 by naive_solver. done.
      * rewrite lookup_insert_ne, bool_decide_eq_false_2 by naive_solver. done.
  - unfold subscriptionFinished. destruct accepted; [done|]. simpl. rewrite clients_of_attempt. case_bool_decide as Hne.
    + split; [done|]. rewrite bool_decide_eq_false_2; [done|]. intros (-> & -> & Ha). rewrite Ha in Hne. done.
    + destruct (put_spec ch' (delete c' (clients_of s ch')) (subscribed s) Hs) as [H1 H2]. split; [done|]. simpl. f_equal. rewrite H2.
      destruct (decide (ch = ch')) as [->|Hch]; [|by rewrite bool_decide_eq_false_2 by naive_solver]. destruct (decide (c = c')) as [->|Hc].
      * rewrite lookup_delete_eq. destruct (attempt_of (subscribed s) c' ch') as [a|]; [|by case_bool_decide]. simpl in Hne. subst a. by rewrite bool_decide_eq_true_2.
      * rewrite lookup_delete_ne, clients_of_attempt, bool_decide_eq_false_2 by naive_solver. done.
  - destruct (put_spec ch' (delete c' (clients_of s ch')) (subscribed s) Hs) as [H1 H2]. split; [done|]. f_equal. rewrite H2.
    destruct (decide (ch = ch')) as [->|Hch]; [|by rewrite bool_decide_eq_false_2 by naive_solver]. destruct (decide (c = c')) as [->|Hc].
    + by rewrite lookup_delete_eq, bool_decide_eq_true_2.
    + rewrite lookup_delete_ne, clients_of_attempt, bool_decide_eq_false_2 by naive_solver. done.
  - destruct (forget_attempt (subscribed s) c') as [H1 H2]. split; [done|]. f_equal. rewrite H2. destruct (decide (c = c')) as [->|Hc];
      [by rewrite bool_decide_eq_true_2|by rewrite bool_decide_eq_false_2 by congruence].
  - unfold TryPublishEphemeral. destruct (Nat.eqb_spec payload 0) as [->|Hp]; [done|]. simpl. rewrite (proj2 (Nat.ltb_lt 0 payload)) by lia. simpl.
    destruct (Z.ltb_spec Composition.MaxTransientFrameBytes (Z.of_nat payload)) as [Hm|Hm]; [by rewrite (proj2 (Z.leb_gt _ _))|].
    rewrite (proj2 (Z.leb_le _ _)) by done. simpl. destruct queued as [size|]; [|done]. unfold admitSubscribed.
    destruct (admit_ _ _ _ _) as [admitted b]. simpl. destruct (put_spec ch' (reached s ch' active) (subscribed s) Hs) as [H1 H2]. split; [done|]. f_equal. rewrite H2.
    destruct (decide (ch = ch')) as [->|Hch]; [|by rewrite bool_decide_eq_false_2 by naive_solver]. unfold reached. destruct (decide (c ∈ active)) as [Hin|Hin].
    + rewrite bool_decide_eq_false_2 by naive_solver. rewrite map_lookup_filter, clients_of_attempt. destruct (attempt_of (subscribed s) c ch'); simpl; [|done].
      by case_guard.
    + rewrite bool_decide_eq_true_2 by done. rewrite map_lookup_filter. destruct (clients_of s ch' !! c); simpl; [|done]. by case_guard.
Qed.

Definition new_server (rate burst : Z) : centrifugeServer := mkServer (newEphemeralBudget rate burst) ∅ 0.

(** C35 The nested table is exact.  After any operations, in any order, a client stands on a
    channel under an attempt exactly when that attempt is its latest there and has since
    neither been rejected, nor left, nor been forgotten, nor been found disconnected by a
    publish: a late rejection of an older attempt removes nothing.  And no channel is
    kept without a client. *)
Theorem subscribed_exact rate burst ops clientID channel :
  let s := fold_left step ops (new_server rate burst) in
  tidy (subscribed s) ∧
  (nextSubscription s, attempt_of (subscribed s) clientID channel) = fold_left (pair_step clientID channel) ops (0%Z, None).
Proof.
  cbn zeta. induction ops as [|o ops [IH1 IH2]] using rev_ind.
  - split; [|done]. intros ch cl. simpl. by rewrite lookup_empty.
  - rewrite !fold_left_app. simpl. rewrite <-IH2. by apply step_exact.
Qed.

(** ** Who may connect

    [NewCentrifugeServer]: the server of a configuration that passed its checks
    ([Composition.server_refused]), its connect handler, and the gate in front of the
    WebSocket handler.  Verifying a token and Core's codecs are arguments.          *)
Definition NewCentrifugeServer (c : Composition.Config) : centrifugeServer :=
  new_server (if (Composition.c_Rate c =? 0)%Z then Composition.DefaultTransientRateBytesPerSecond else Composition.c_Rate c)
    (if (Composition.c_Burst c =? 0)%Z then Composition.DefaultTransientBurstBytes else Composition.c_Burst c).

Definition disconnectAuthentication : Z := 4500.
Definition disconnectUnsupportedVersion : Z := 4501.

Record ConnectReply := mkReply { UserID : string; Data : string; PingPong : option (Z * Z) }.
Inductive connect_answer := Connected (reply : ConnectReply) | Disconnected (code : Z) | ConnectError (err : error).

Section connecting.
Context {Request Response : Type}.
Context (VerifyTenant : string → string → bool) (DecodeHostLinkConnectRequest : string → option Request).
Context (NegotiateVersion : Request → option Response) (WithHostLinkMethods : list string → Response → Response).
Context (EncodeHostLinkConnectReply : Response → res string) (advertised : list string).

(** The handler of [OnConnecting]; [advertised] is what a server with a multiplexer
    offers: the five methods and the configured capabilities. *)
Definition OnConnecting (c : Composition.Config) (multiplexed : bool) (token data : string) : connect_answer :=
  if negb (VerifyTenant (Composition.c_TenantID c) token) then Disconnected disconnectAuthentication
  else match DecodeHostLinkConnectRequest data ≫= NegotiateVersion with
       | None => Disconnected disconnectUnsupportedVersion
       | Some response =>
           match EncodeHostLinkConnectReply (if multiplexed then WithHostLinkMethods advertised response else response) with
           | Err err => ConnectError err
           | Ok data =>
               Connected (mkReply (Composition.c_TenantID c) data
                 (if negb (Composition.c_PingInterval c =? 0)%Z || negb (Composition.c_PongTimeout c =? 0)%Z
                  then Some (Composition.c_PingInterval c, Composition.c_PongTimeout c) else None))
           end
       end.
End connecting.

(** [strings.Split] at a comma. *)
Fixpoint split_comma (s : string) : string * list string :=
  match s with
  | "" => ("", [])
  | String c s => let '(token, rest) := split_comma s in if bool_decide (c = Ascii.ascii_of_nat 44) then ("", token :: rest) else (String c token, rest)
  end%string.
Definition Split (s : string) : list string := let '(token, rest) := split_comma s in token :: rest.

(** [strings.TrimSpace]: the code points of [unicode.IsSpace], in UTF-8. *)
Definition spaces : list (list Ascii.ascii) :=
  map (map Ascii.ascii_of_nat)
    ([[9]; [10]; [11]; [12]; [13]; [32]; [0xC2; 0x85]; [0xC2; 0xA0]; [0xE1; 0x9A; 0x80]; [0xE2; 0x80; 0xA8]; [0xE2; 0x80; 0xA9];
      [0xE2; 0x80; 0xAF]; [0xE2; 0x81; 0x9F]; [0xE3; 0x80; 0x80]] ++ map (fun n => [0xE2; 0x80; 0x80 + n]) (seq 0 11)).

Fixpoint strip (space l : list Ascii.ascii) : option (list Ascii.ascii) :=
  match space, l with
  | [], _ => Some l
  | c :: space, d :: l => if bool_decide (c = d) then strip space l else None
  | _ :: _, [] => None
  end.
Fixpoint trim_front (spaces : list (list Ascii.ascii)) (fuel : nat) (l : list Ascii.ascii) : list Ascii.ascii :=
  match fuel with
  | 0 => l
  | S fuel => match head (omap (fun space => strip space l) spaces) with Some l => trim_front spaces fuel l | None => l end
  end.
Definition TrimSpace (s : string) : string :=
  let l := String.list_ascii_of_string s in
  let l := trim_front spaces (length l) l in
  String.string_of_list_ascii (reverse (trim_front (reverse <$> spaces) (length l) (reverse l))).

Definition rejectedTransportQueryKeys : list string := ["cf_ws_frame_ping_pong"].

(** [selectsJSONProtocol], of the values of [Sec-WebSocket-Protocol] and the query. *)
Definition selectsJSONProtocol (header : list string) (query : gmap string (list string)) : bool :=
  if (1 <? length header)%nat then false
  else
    let tokens := mjoin (Split <$> header) in
    if negb (forallb (fun token => bool_decide (TrimSpace token = "centrifuge-json")) tokens) then false
    else if existsb (fun key => bool_decide (is_Some (query !! key))) rejectedTransportQueryKeys then false
    else
      let values := mjoin ((fun key => default [] (query !! key)) <$> ["format"; "cf_protocol"]) in
      forallb (fun value => bool_decide (value = "json")) values && (negb (bool_decide (tokens = [])) || negb (bool_decide (values = []))).

Lemma forallb_bool_decide {A} (P : A → Prop) `{!∀ x, Decision (P x)} (l : list A) : forallb (fun x => bool_decide (P x)) l = true ↔ Forall P l.
Proof. rewrite <-Is_true_true, forallb_True. split; intros H'; (eapply Forall_impl; [exact H'|]); intros x; apply bool_decide_spec. Qed.

Lemma selectsJSON_spec header query :
  selectsJSONProtocol header query = true ↔
    (length header ≤ 1)%nat ∧ (∀ field token, field ∈ header → token ∈ Split field → TrimSpace token = "centrifuge-json") ∧
    query !! "cf_ws_frame_ping_pong" = None ∧
    (∀ key values value, key ∈ ["format"; "cf_protocol"] → query !! key = Some values → value ∈ values → value = "json") ∧
    (header ≠ [] ∨ ∃ key value values, key ∈ ["format"; "cf_protocol"] ∧ query !! key = Some values ∧ value ∈ values).
Proof.
  set (values := mjoin ((fun key => default [] (query !! key)) <$> ["format"; "cf_protocol"])).
  assert (∀ value, value ∈ values ↔ ∃ key vs, key ∈ ["format"; "cf_protocol"] ∧ query !! key = Some vs ∧ value ∈ vs) as Hvalues.
  { intros value. unfold values. rewrite list_elem_of_join. split.
    - intros (l & Hv & (key & -> & Hk)%list_elem_of_fmap). destruct (query !! key) as [vs|] eqn:Hq; [eauto|by apply elem_of_nil in Hv].
    - intros (key & vs & Hk & Hq & Hv). exists vs. split; [done|]. apply list_elem_of_fmap. exists key. by rewrite Hq. }
  assert (∀ token, token ∈ mjoin (Split <$> header) ↔ ∃ field, field ∈ header ∧ token ∈ Split field) as Htokens.
  { intros token. rewrite list_elem_of_join. setoid_rewrite list_elem_of_fmap. naive_solver. }
  assert (mjoin (Split <$> header) = [] ↔ header = []) as Hnil.
  { destruct header as [|field header]; [done|]. split; [|done]. unfold Split. simpl. by destruct (split_comma field). }
  unfold selectsJSONProtocol. fold values. cbv zeta. destruct (Nat.ltb_spec 1 (length header)) as [Hl|Hl]; [split; [done|lia]|].
  destruct (forallb _ (mjoin _)) eqn:Ht; simpl.
  2:{ split; [done|]. intros (_ & Hall & _). apply not_true_iff_false in Ht. destruct Ht. apply forallb_bool_decide, Forall_forall. intros token (field & ? & ?)%Htokens. eauto. }
  rewrite forallb_bool_decide, Forall_forall in Ht. rewrite orb_false_r. case_bool_decide as Hr.
  { split; [done|]. intros (_ & _ & Hn & _). rewrite Hn in Hr. by destruct Hr. }
  apply eq_None_not_Some in Hr. rewrite andb_true_iff, forallb_bool_decide, Forall_forall, orb_true_iff, !negb_true_iff, !bool_decide_eq_false, Hnil.
  split.
  - intros [Hv He]. split_and!; [done| |done| |].
    + intros field token ? ?. apply Ht, Htokens. eauto.
    + intros key vs value ? ? ?. apply Hv, Hvalues. eauto.
    + destruct He as [He|He]; [by left|right]. destruct values as [|v vs]; [done|]. destruct (proj1 (Hvalues v)) as (key & l & ? & ? & ?); [left|]. eauto 6.
  - intros (_ & _ & _ & Hv & He). split; [intros value (key & vs & ? & ? & ?)%Hvalues; eauto|]. destruct He as [He|(key & v & vs & ? & ? & ?)]; [by left|right].
    intros Hn. assert (v ∈ values) as Hin by (apply Hvalues; eauto). rewrite Hn in Hin. by apply elem_of_nil in Hin.
Qed.

(** The gate in front of the transport opens exactly for a request that asks for the
    JSON protocol and for nothing else: some selector is present, at most one header
    field lists protocols, every protocol it lists is the JSON one, every value of both
    query keys is [json], and the key that lets a client choose the heartbeat is absent,
    whatever its value.  So the transport's own rule, which reads the first value of each
    key, never selects protobuf behind it. *)
Theorem json_only header query :
  (selectsJSONProtocol header query = true ↔
    (length header ≤ 1)%nat ∧ (∀ field token, field ∈ header → token ∈ Split field → TrimSpace token = "centrifuge-json") ∧
    query !! "cf_ws_frame_ping_pong" = None ∧
    (∀ key values value, key ∈ ["format"; "cf_protocol"] → query !! key = Some values → value ∈ values → value = "json") ∧
    (header ≠ [] ∨ ∃ key value values, key ∈ ["format"; "cf_protocol"] ∧ query !! key = Some values ∧ value ∈ values)) ∧
  (selectsJSONProtocol header query = true → ∀ key, key ∈ ["format"; "cf_protocol"] → default "" (default [] (query !! key) !! 0%nat) ≠ "protobuf").
Proof.
  assert (selectsJSONProtocol header query = true ↔
    (length header ≤ 1)%nat ∧ (∀ field token, field ∈ header → token ∈ Split field → TrimSpace token = "centrifuge-json") ∧
    query !! "cf_ws_frame_ping_pong" = None ∧
    (∀ key values value, key ∈ ["format"; "cf_protocol"] → query !! key = Some values → value ∈ values → value = "json") ∧
    (header ≠ [] ∨ ∃ key value values, key ∈ ["format"; "cf_protocol"] ∧ query !! key = Some values ∧ value ∈ values)) as Hiff.
  { apply selectsJSON_spec. }
  split; [exact Hiff|]. intros (_ & _ & _ & Hv & _)%Hiff key Hkey. destruct (query !! key) as [[|v vs]|] eqn:Hq; simpl; [done| |done].
  rewrite (Hv key (v :: vs) v Hkey Hq); [done|left].
Qed.

(** ** Witness

    One connected subscriber with a full budget of 8 KiB, and a frame of 100 bytes. *)
Definition one_subscriber : centrifugeServer := noteSubscribed (new_server (32 * 1024) (8 * 1024)) "c1" "ch".

Lemma transient_charges_all_witness :
  let r := TryPublishEphemeral one_subscriber "ch" 80 (Some 100%Z) {["c1"]} 5 true in
  r.1 = true ∧ (0 < 80 ≤ 4096)%nat ∧ ∃ size, Some 100%Z = Some size ∧ (0 < size)%Z ∧
     ∀ id, (id ∈ dom (reached one_subscriber "ch" {["c1"]}) → SFltb (remaining (refilled (budget one_subscriber) 5 id)) (of_int size) = false) ∧
       client (budget r.2) !! id = if decide (id ∈ dom (reached one_subscriber "ch" {["c1"]})) then Some (charge size (refilled (budget one_subscriber) 5 id))
         else client (budget one_subscriber) !! id.
Proof.
  intros r. assert (r.1 = true) as Hok by (vm_compute; reflexivity). split; [exact Hok|].
  exact (proj1 (transient_charges_all one_subscriber "ch" 80 (Some 100%Z) {["c1"]} 5 true r.1 r.2 (surjective_pairing r)) Hok).
Defined.

Example json_selected : selectsJSONProtocol [" centrifuge-json ,centrifuge-json"] ∅ = true ∧ selectsJSONProtocol [] {["format" := ["json"; "protobuf"]]} = false ∧
  selectsJSONProtocol ["centrifuge-json"] {["cf_ws_frame_ping_pong" := ["false"]]} = false.
Proof. split_and!; vm_compute; reflexivity. Qed.

(** The charge is exact: 8192 tokens less 100. *)
Example charged_tokens :
  remaining <$> client (budget (TryPublishEphemeral one_subscriber "ch" 80 (Some 100%Z) {["c1"]} 5 true).2) !! "c1" = Some (of_int 8092).
Proof. vm_compute. reflexivity. Qed.
End Transport.
